(* ===== verification/_CoqProject ===== *)
-Q . S2P
Prelude.v
GoStrings.v
Sha256.v
Regexp.v
Effects.v
Locks.v
Flag.v
Exec.v
Fake.v
Store.v
Image.v
ImageSpec.v
Mount.v
Json.v
Rfc3339.v
Crypt.v
Loop.v
Registry.v
World.v
Encryption.v
Controller.v
Server.v
Monitor.v
Kube.v
Node.v
CsiCall.v
NodeStage.v
NodeOps.v
NodePublish.v
Lifecycle.v
Rollback.v
Stacks.v
NodeInv.v
Process.v
Statuses.v
NodeMain.v
