(* ===== verification/Prelude.v ===== *)
(** * fileblock-csi: a verification development

    fileblock-csi is a Kubernetes CSI driver: a volume is a sparse image file
    on a shared backing store (an NFS export or a local directory), attached
    on the node through a loop device, optionally through a LUKS2 mapping,
    and mounted as ext4.  The driver has a controller process, a node process
    and the packages both use.

    ** The parts and where they are modelled

    - Prelude.v: tactics, hint databases, 64-bit integers with Go's
      wrap-around and truncating division, list and map helpers.
    - GoStrings.v, Regexp.v, Sha256.v, Json.v: what the source uses of the
      language's library: strings, path/filepath, strings.Fields, strconv,
      regular expressions (derivatives with their language), SHA-256,
      encoding/json for the state file, losetup's listing and LUKS2 metadata.
    - Effects.v: how code that leaves the process is modelled.  A function is
      a [prog]: a finite tree of calls (commands, file operations, mutexes,
      the clock, the API server), each continued by its reply.  [exec]
      relates a program and the process' memory to every sequence of calls
      and replies it can go through: nothing is assumed of the replies unless
      a theorem says so.  [wp], [emits], [always], [saw], [keeps] and
      [stable] are the ways to state facts about all executions; [run]
      executes a program against a concrete outside; [pool_step] interleaves
      the atomic updates of goroutines.
    - Store.v (pkg/store/store.go, parse.go): configurations, IDs, parameters.
    - Registry.v (pkg/store/registry.go and the mounters): [Registry] is the
      memory of store.Registry, [Get] its main operation.
    - Image.v, ImageSpec.v (pkg/image): the image manager and the abstract
      volume store it refines.
    - Mount.v (pkg/mount): mount, umount, findmnt; the mountinfo parser.
    - Crypt.v (pkg/crypt): LUKS2 formatting, key rotation, mappings, sysfs.
    - Loop.v (pkg/loop): losetup, the state file, the startup reconciliation.
    - Encryption.v (pkg/driver/encryption.go): parameters and secrets.
    - Controller.v (pkg/driver/controller.go): the controller handlers, over
      the registry's memory.
    - Monitor.v (pkg/driver/failures.go, monitor.go, pkg/kube/types.go): the
      failure tracker and the monitor that deletes pods of failed volumes.
    - Node.v (pkg/driver/node.go): the node handlers.  [NodeMem] is
      NodeServer's memory; the handlers reach its parts (state table,
      registry, failure tracker) through lenses.  NodeStage.v and NodeOps.v
      hold the properties of staging and of the other handlers.
    - NodePublish.v: what publishing a failed volume may do.  NodeInv.v: the
      invariant of the node process under concurrent requests.
    - Locks.v: goroutines with mutexes that block, and the discipline under
      which a pool of them never deadlocks.  Process.v puts the node's
      handlers and the monitor into such a pool.  Statuses.v: the errors both
      services answer with.
    - World.v: the node's mounts, loop devices and mappings, and which replies
      of findmnt, mount, umount, losetup and cryptsetup are true of them;
      [wwp] follows a program along.  Lifecycle.v: a volume from stage to
      unstage on such a node.  Rollback.v: a stage that fails there.
      Stacks.v: the registry's mounts there, from AdoptExisting on.
    - Exec.v (pkg/exec): the runner behind the call [RunCmd].  Fake.v
      (pkg/exec/exectest): the runner the tests use in its place.
    - Flag.v: Go's flag package.  Server.v (pkg/driver/server.go, identity.go,
      cmd/controller): the endpoint, the services, the controller's main.
    - Rfc3339.v, Kube.v (pkg/kube): times, and the HTTP client that implements
      the interface [Client]; [serve] puts a client under a program that was
      written against the interface.
    - NodeMain.v (cmd/node): the node plugin's main, and the monitor over the
      HTTP client.
    - CsiCall.v (hack/csi-call): the command-line client of both services.

    ** What the theorems show

    - No data is destroyed: LUKS formatting needs evidence of a blank device,
      an existing image is never truncated or formatted, resizing only grows,
      one image is never attached twice on a node, unstaging and
      reconciliation touch only devices of the volume or of no entry.
    - Crashes and errors: key rotation can stop anywhere and converges, the
      state file is replaced atomically and reads back, a failed stage
      releases its devices, a failed unstage can be retried, errors carry
      the gRPC codes the callers rely on.
    - Identity: volume IDs, store IDs and volume contexts lead back to what
      they were made from; where they do not, the collision is exhibited.
    - A volume's life: on a node whose commands tell the truth, stage and
      publish add one loop device, the mapping of an encrypted volume and two
      mounts, the pod sees the volume's image, and unpublish and unstage
      leave the node as it was; a stage that fails at any step leaves no
      device, mapping or mount behind; a store is mounted once, and once more
      for each check of it that is misread, if the checks at startup are
      answered.  A check is misread when a findmnt fails and IsMountPoint takes
      the failure for an answer that is not true; the first two theorems assume
      that the volume's paths are not, and lemmas show what happens otherwise.
    - Concurrency: the registry's caches and the node server's tables keep
      their invariants in every interleaving; the process never deadlocks,
      every request returns and leaves no mutex locked, each shared field
      changes only under its mutex; pod deletions for one volume keep their
      hold-off.
    - Answers: every error of the services is a gRPC status, with one
      exception that is exhibited.
    - The wire: the node plugin deletes pods only where the admission policy
      was read and denies; each DELETE it sends names one pod, requires its
      uid, and is one the monitor may make; secrets reach a command through
      their own pipes and no descriptor is leaked.
    - Parsers: mountinfo, JSON state and volume IDs are inverted exactly; what
      csi-call prints of a new volume leads its stage command to the same
      volume.

    ** Bounds and fuel

    [halve] has fuel 64: it halves a 64-bit number.  [isBlank] has a bound of
    16 MiB + 1 turns, one more than the bytes it may read one by one;
    [isBlank_correct] shows that it is never exhausted.  [pop_mounts] counts
    the code's own bound of eight unmounts.  [RunMonitor] is bounded by a
    number of ticks that the theorems quantify over.  The JSON parser's fuel
    is the length of its input plus one.  [run_steps] and [schedule] count the
    steps of the goroutines they interleave.

    ** What is not modelled

    Log lines; the text of an error message past its first formatting verb
    (the kind of the error, its wrapping and its gRPC code are kept); contexts
    and cancellation; the outside itself (kernel, losetup, cryptsetup, the
    API server), which may answer anything except where a theorem says that it
    answers as World.v has it; the memory model: each access to memory is one
    atomic step.  Signals
    (serving ends with a reply), deadlines of commands, TLS settings, the gRPC
    library with its logging interceptor, net/url.Parse (an argument of
    Server.v), panics and the end-to-end tests. *)

From Stdlib Require Import ZArith Lia.
From stdpp Require Import base gmap strings list option fin_maps numbers sorting.

(** ** Automation shared by every file *)

(** [destr_let] opens the pairs that [let '(x, y) := _ in _] hides. *)
Ltac destr_let :=
  repeat match goal with
  | H : context [let '(_, _) := ?p in _] |- _ => destruct p eqn:?
  | |- context [let '(_, _) := ?p in _] => destruct p eqn:?
  end.

(** [case_bool] splits on the innermost Boolean test of the goal. *)
Ltac case_bool :=
  match goal with
  | |- context [if ?b then _ else _] =>
      lazymatch b with
      | context [if _ then _ else _] => fail
      | _ => destruct b eqn:?
      end
  end.

(** [in_cases H] splits membership in an explicit list. *)
Ltac in_cases H :=
  lazymatch type of H with
  | _ ∈ [] => exfalso; by apply elem_of_nil in H
  | _ ∈ _ :: _ => apply elem_of_cons in H as [H|H]; [try (exfalso; discriminate H)|in_cases H]
  | _ => idtac
  end.

(** [lia] with division and remainder; [int64] also unfolds the bounds. *)
Ltac zlia := Z.to_euclidean_division_equations; lia.

Create HintDb fb discriminated.
Create Rewrite HintDb fbs.
Create Rewrite HintDb trace.

(** ** Machine integers

    Go's [int64] (and [int] on the 64-bit platforms the driver ships for) as
    [Z] with the wrap-around written out; [/] and [%] truncate toward zero. *)
Section Int64.
Local Open Scope Z_scope.

Definition int64_min : Z := - 2 ^ 63.
Definition int64_max : Z := 2 ^ 63 - 1.
Definition wrap64 (z : Z) : Z := (z + 2 ^ 63) mod 2 ^ 64 - 2 ^ 63.
Definition is_int64 (z : Z) : Prop := int64_min ≤ z ≤ int64_max.

Definition go_add (a b : Z) : Z := wrap64 (a + b).
Definition go_sub (a b : Z) : Z := wrap64 (a - b).
Definition go_mul (a b : Z) : Z := wrap64 (a * b).
Definition go_div (a b : Z) : Z := wrap64 (Z.quot a b).
Definition go_rem (a b : Z) : Z := Z.rem a b.

Lemma wrap64_id z : is_int64 z → wrap64 z = z.
Proof.
  unfold is_int64, wrap64, int64_min, int64_max. intros.
  rewrite Z.mod_small; lia.
Qed.

Lemma wrap64_range z : is_int64 (wrap64 z).
Proof.
  unfold is_int64, wrap64, int64_min, int64_max.
  pose proof (Z.mod_pos_bound (z + 2 ^ 63) (2 ^ 64)). lia.
Qed.

Lemma wrap64_wrap a b : wrap64 (wrap64 a + b) = wrap64 (a + b).
Proof.
  unfold wrap64. f_equal.
  replace ((a + 2 ^ 63) mod 2 ^ 64 - 2 ^ 63 + b + 2 ^ 63) with ((a + 2 ^ 63) mod 2 ^ 64 + b) by ring.
  rewrite Zplus_mod_idemp_l. f_equal. ring.
Qed.

Lemma wrap64_over z : int64_max < z ≤ int64_max + 2 ^ 64 → wrap64 z = z - 2 ^ 64.
Proof.
  unfold wrap64, int64_max. intros.
  replace (z + 2 ^ 63) with (z - 2 ^ 63 + 1 * 2 ^ 64) by ring.
  rewrite Z.mod_add, Z.mod_small; lia.
Qed.
End Int64.

Ltac int64 := unfold is_int64, int64_min, int64_max in *; zlia.

(** ** Lists and options *)

Lemma existsb_elem {A} `{EqDecision A} (x : A) l :
  existsb (λ y, bool_decide (y = x)) l = true ↔ x ∈ l.
Proof.
  rewrite existsb_exists. setoid_rewrite bool_decide_eq_true.
  rewrite list_elem_of_In. naive_solver.
Qed.

(** [contains l x] is Go's [slices.Contains]. *)
Definition contains {A} `{EqDecision A} (l : list A) (x : A) : bool :=
  existsb (λ y, bool_decide (y = x)) l.

Lemma contains_spec {A} `{EqDecision A} (l : list A) x : contains l x = true ↔ x ∈ l.
Proof. apply existsb_elem. Qed.

(** A Go map read, [m[k]]: the zero value when the key is absent. *)
Definition mget (m : gmap string string) (k : string) : string := default "" (m !! k).

Lemma mget_insert_eq m k v : mget (<[k:=v]> m) k = v.
Proof. unfold mget. by rewrite lookup_insert_eq. Qed.
Lemma mget_insert_ne m k k' v : k ≠ k' → mget (<[k:=v]> m) k' = mget m k'.
Proof. unfold mget. intros. by rewrite lookup_insert_ne. Qed.
Lemma mget_empty k : mget ∅ k = "".
Proof. unfold mget. by rewrite lookup_empty. Qed.
