(* ===== verification/GoStrings.v ===== *)
(** The part of Go's [strings], [path] and [path/filepath] packages the driver
    uses, on byte strings, with the lemmas the components share.  [path] and
    [path/filepath] agree on the only platform the driver runs on (Linux). *)

From Stdlib Require Import Lia Ascii.
From stdpp Require Import base strings list pretty.
From S2P Require Import Prelude.

(** ** Byte strings *)

Lemma sapp_assoc (a b c : string) : (a +:+ b) +:+ c = a +:+ (b +:+ c).
Proof. induction a as [|x a IH]; [done|]. change (String x ((a +:+ b) +:+ c) = String x (a +:+ (b +:+ c))). by rewrite IH. Qed.

Lemma sapp_nil_r (a : string) : a +:+ "" = a.
Proof. induction a as [|x a IH]; [done|]. change (String x (a +:+ "") = String x a). by rewrite IH. Qed.

Lemma sapp_nil_l (a : string) : "" +:+ a = a.
Proof. done. Qed.

Lemma sapp_cons c (a b : string) : String c a +:+ b = String c (a +:+ b).
Proof. done. Qed.

Lemma slength_app (a b : string) : String.length (a +:+ b) = String.length a + String.length b.
Proof. induction a as [|x a IH]; [done|]. rewrite sapp_cons. simpl. by rewrite IH. Qed.

Lemma sapp_eq_nil (a b : string) : a +:+ b = "" ↔ a = "" ∧ b = "".
Proof. destruct a; [naive_solver|]. rewrite sapp_cons. naive_solver. Qed.

Lemma sapp_inj_len (a b c d : string) :
  String.length a = String.length c → a +:+ b = c +:+ d → a = c ∧ b = d.
Proof.
  revert c. induction a as [|x a IH]; intros [|y c] Hl H; simpl in *; try done.
  rewrite !sapp_cons in H. injection H as -> H. injection Hl as Hl.
  destruct (IH c Hl H) as [-> ->]. done.
Qed.

#[export] Hint Rewrite sapp_assoc sapp_nil_r sapp_nil_l sapp_cons slength_app : fbs.

(** [s[:n]] and [s[n:]]; an index past the end yields the whole string or the
    empty one (Go panics there; every use below is guarded). *)
Fixpoint stake (n : nat) (s : string) : string :=
  match n, s with
  | S n, String c s => String c (stake n s)
  | _, _ => ""
  end.
Fixpoint sdrop (n : nat) (s : string) : string :=
  match n, s with
  | S n, String _ s => sdrop n s
  | 0, s => s
  | _, "" => ""
  end.

Lemma stake_sdrop n s : stake n s +:+ sdrop n s = s.
Proof. revert s. induction n; intros [|c s]; simpl; try done. rewrite sapp_cons. by rewrite IHn. Qed.
Lemma stake_app a b : stake (String.length a) (a +:+ b) = a.
Proof. induction a as [|x a IH]; [by destruct b|]. rewrite sapp_cons. simpl. by rewrite IH. Qed.
Lemma sdrop_app a b : sdrop (String.length a) (a +:+ b) = b.
Proof. induction a as [|x a IH]; [by destruct b|]. rewrite sapp_cons. simpl. done. Qed.
Lemma slength_stake n s : n ≤ String.length s → String.length (stake n s) = n.
Proof. revert s. induction n; intros [|c s]; simpl; intros; try done; try lia. rewrite IHn; lia. Qed.
Lemma slength_sdrop n s : String.length (sdrop n s) = String.length s - n.
Proof. revert s. induction n; intros [|c s]; simpl; auto with lia. Qed.

(** Does the byte [c] occur in [s]? *)
Fixpoint has_char (c : ascii) (s : string) : bool :=
  match s with
  | "" => false
  | String x s => if bool_decide (x = c) then true else has_char c s
  end.

Lemma has_char_app c a b : has_char c (a +:+ b) = has_char c a || has_char c b.
Proof. induction a as [|x a IH]; [done|]. rewrite sapp_cons. simpl. case_bool_decide; [done|]. apply IH. Qed.

(** ** package strings *)
Module strings.
Definition HasPrefix (s p : string) : bool := String.prefix p s.

Definition HasSuffix (s t : string) : bool :=
  bool_decide (String.length t ≤ String.length s) &&
  bool_decide (sdrop (String.length s - String.length t) s = t).

Definition TrimSuffix (s t : string) : string :=
  if HasSuffix s t then stake (String.length s - String.length t) s else s.

Definition CutPrefix (s p : string) : option string :=
  if HasPrefix s p then Some (sdrop (String.length p) s) else None.

(** [strings.Index]: the first occurrence, if any. *)
Fixpoint Index (s sub : string) : option nat :=
  if HasPrefix s sub then Some 0
  else match s with
       | "" => None
       | String _ s' => S <$> Index s' sub
       end.

Definition Contains (s sub : string) : bool :=
  match Index s sub with Some _ => true | None => false end.

(** [strings.ContainsAny] for a set of ASCII bytes. *)
Definition ContainsAny (s : string) (cs : list ascii) : bool :=
  existsb (λ c, has_char c s) cs.

(** [strings.Split] for a one-byte separator. *)
Fixpoint Split (s : string) (sep : ascii) : list string :=
  match s with
  | "" => [""]
  | String c s' =>
      if bool_decide (c = sep) then "" :: Split s' sep
      else match Split s' sep with
           | w :: ws => String c w :: ws
           | [] => [String c ""]
           end
  end.

Fixpoint Join (l : list string) (sep : string) : string :=
  match l with
  | [] => ""
  | [x] => x
  | x :: l' => x +:+ sep +:+ Join l' sep
  end.

(** [strings.ReplaceAll] for a non-empty [old]: [skip] counts the bytes of
    the occurrence being replaced that are still to be passed over. *)
Fixpoint replace_go (skip : nat) (s old new : string) : string :=
  match s with
  | "" => ""
  | String c s' =>
      match skip with
      | S n => replace_go n s' old new
      | 0 => if HasPrefix s old
             then new +:+ replace_go (String.length old - 1) s' old new
             else String c (replace_go 0 s' old new)
      end
  end.
Definition ReplaceAll (s old new : string) : string := replace_go 0 s old new.

(** ASCII lower-casing.  [strings.ToLower] also maps non-ASCII letters; the
    driver only searches the result for an ASCII needle. *)
Definition lower (c : ascii) : ascii :=
  let n := nat_of_ascii c in
  if (bool_decide (65 ≤ n) && bool_decide (n ≤ 90)) then ascii_of_nat (n + 32) else c.
Fixpoint ToLower (s : string) : string :=
  match s with "" => "" | String c s => String (lower c) (ToLower s) end.

(** The UTF-8 encodings of the runes [unicode.IsSpace] accepts. *)
Definition byte_str (ns : list nat) : string :=
  foldr (λ n s, String (ascii_of_nat n) s) "" ns.
Definition space_seqs : list string :=
  byte_str <$>
    [ [9]; [10]; [11]; [12]; [13]; [32];
      [194; 133]; [194; 160]; [225; 154; 128];
      [226; 128; 128]; [226; 128; 129]; [226; 128; 130]; [226; 128; 131];
      [226; 128; 132]; [226; 128; 133]; [226; 128; 134]; [226; 128; 135];
      [226; 128; 136]; [226; 128; 137]; [226; 128; 138]; [226; 128; 168];
      [226; 128; 169]; [226; 128; 175]; [226; 129; 159]; [227; 128; 128] ].

(** The length of the sequence of [seqs] that [s] starts with, if any. *)
Definition seq_at (seqs : list string) (s : string) : option nat :=
  String.length <$> List.find (λ q, HasPrefix s q) seqs.

Fixpoint trim_left (seqs : list string) (skip : nat) (s : string) : string :=
  match s with
  | "" => ""
  | String _ s' =>
      match skip with
      | S n => trim_left seqs n s'
      | 0 => match seq_at seqs s with
             | Some (S n) => trim_left seqs n s'
             | _ => s
             end
      end
  end.

(** [strings.TrimSpace]: from the left, then, on the reversed string with
    the reversed sequences, from the right. *)
Definition TrimSpace (s : string) : string :=
  String.rev (trim_left (String.rev <$> space_seqs) 0
    (String.rev (trim_left space_seqs 0 s))).

(** [strings.Fields]: maximal runs of non-space runes.  [cur] is the field
    being read, reversed; no rune of [space_seqs] starts inside another rune,
    so scanning byte by byte finds the same boundaries. *)
Fixpoint fields_go (cur : string) (skip : nat) (s : string) : list string :=
  match s with
  | "" => if bool_decide (cur = "") then [] else [String.rev cur]
  | String c s' =>
      match skip with
      | S n => fields_go cur n s'
      | 0 => match seq_at space_seqs s with
             | Some (S n) =>
                 (if bool_decide (cur = "") then [] else [String.rev cur]) ++ fields_go "" n s'
             | _ => fields_go (String c cur) 0 s'
             end
      end
  end.
Definition Fields (s : string) : list string := fields_go "" 0 s.
End strings.

(** [strconv.Itoa] *)
Definition Itoa (n : Z) : string := pretty n.

(** ** packages path and path/filepath *)
Module path.
Import strings.

Definition IsAbs (p : string) : bool := HasPrefix p "/".

(** One path element pushed on the stack of elements kept so far (last
    element first): rules 2-4 of [path.Clean]. *)
Definition clean_step (rooted : bool) (st : list string) (seg : string) : list string :=
  if bool_decide (seg = "") || bool_decide (seg = ".") then st
  else if bool_decide (seg = "..") then
    match st with
    | top :: rest => if bool_decide (top = "..") then ".." :: st else rest
    | [] => if rooted then [] else [".."]
    end
  else seg :: st.

Definition Clean (p : string) : string :=
  let rooted := IsAbs p in
  let body := Join (rev (foldl (clean_step rooted) [] (Split p "/"%char))) "/" in
  if rooted then "/" +:+ body
  else if bool_decide (body = "") then "." else body.

Definition JoinPath (elems : list string) : string :=
  match filter (λ e, e ≠ "") elems with
  | [] => ""
  | es => Clean (Join es "/")
  end.

(** [filepath.Base]: the last element, trailing slashes removed. *)
Definition Base (p : string) : string :=
  if bool_decide (p = "") then "."
  else match List.filter (λ e, negb (bool_decide (e = ""))) (Split p "/"%char) with
       | [] => "/"
       | e :: es => List.last (e :: es) ""
       end.

(** [filepath.Dir]: everything up to the last slash, cleaned. *)
Definition Dir (p : string) : string :=
  match rev (Split p "/"%char) with
  | [] => "."
  | _ :: rest => Clean (Join (rev ("" :: rest)) "/")
  end.
End path.

(** ** Lemmas on prefixes, suffixes and occurrences *)
#[global] Arguments strings.HasPrefix : simpl never.
#[global] Arguments strings.HasSuffix : simpl never.

Section StringLemmas.
Import strings.

Lemma HasPrefix_spec s p : HasPrefix s p = true ↔ ∃ t, s = p +:+ t.
Proof.
  unfold HasPrefix. revert s. induction p as [|c p IH]; intros s.
  - destruct s; simpl; naive_solver.
  - destruct s as [|d s]; simpl.
    + split; [done|]. intros [t Ht]. rewrite sapp_cons in Ht. done.
    + destruct (ascii_dec c d) as [->|Hne].
      * rewrite IH. setoid_rewrite sapp_cons. naive_solver.
      * split; [done|]. intros [t Ht]. rewrite sapp_cons in Ht. congruence.
Qed.

Lemma HasPrefix_app p t : HasPrefix (p +:+ t) p = true.
Proof. apply HasPrefix_spec. eauto. Qed.

Lemma HasPrefix_false s p : HasPrefix s p = false ↔ ∀ t, s ≠ p +:+ t.
Proof.
  rewrite <- not_true_iff_false, HasPrefix_spec. naive_solver.
Qed.

Lemma HasSuffix_spec s t : HasSuffix s t = true ↔ ∃ u, s = u +:+ t.
Proof.
  unfold HasSuffix. rewrite andb_true_iff, !bool_decide_eq_true. split.
  - intros [Hl Hd]. exists (stake (String.length s - String.length t) s).
    rewrite <- Hd at 2. by rewrite stake_sdrop.
  - intros [u ->]. rewrite slength_app. split; [lia|].
    replace (String.length u + String.length t - String.length t) with (String.length u) by lia.
    apply sdrop_app.
Qed.

Lemma TrimSuffix_app u t : TrimSuffix (u +:+ t) t = u.
Proof.
  unfold TrimSuffix. rewrite (proj2 (HasSuffix_spec (u +:+ t) t)) by eauto.
  rewrite slength_app.
  replace (String.length u + String.length t - String.length t) with (String.length u) by lia.
  apply stake_app.
Qed.

Lemma CutPrefix_Some s p r : CutPrefix s p = Some r ↔ s = p +:+ r.
Proof.
  unfold CutPrefix. destruct (HasPrefix s p) eqn:E.
  - apply HasPrefix_spec in E as [t ->]. rewrite sdrop_app. split; [naive_solver|].
    intros H%(inj (String.append p)). by subst.
  - rewrite HasPrefix_false in E. split; [done|]. intros H. by destruct (E r).
Qed.

Lemma Index_Some_app s sub i : Index s sub = Some i → ∃ a b, s = a +:+ sub +:+ b ∧ String.length a = i.
Proof.
  revert i. induction s as [|c s IH]; intros i; simpl.
  - destruct (HasPrefix "" sub) eqn:E; [|done]. intros [= <-].
    apply HasPrefix_spec in E as [t Ht]. exists "", t. done.
  - destruct (HasPrefix (String c s) sub) eqn:E.
    + intros [= <-]. apply HasPrefix_spec in E as [t Ht]. exists "", t. done.
    + destruct (Index s sub) as [j|]; simpl; [|done]. intros [= <-].
      destruct (IH j eq_refl) as (a & b & -> & <-). exists (String c a), b. done.
Qed.

Lemma Index_None s sub : Index s sub = None ↔ ∀ a b, s ≠ a +:+ sub +:+ b.
Proof.
  split.
  - induction s as [|c s IH]; simpl.
    + destruct (HasPrefix "" sub) eqn:E; [done|]. rewrite HasPrefix_false in E.
      intros _ [|] b H; [by apply (E b)|done].
    + destruct (HasPrefix (String c s) sub) eqn:E; [done|]. rewrite HasPrefix_false in E.
      destruct (Index s sub); simpl; [done|]. intros _ [|d a] b H; [by apply (E b)|].
      rewrite sapp_cons in H. injection H as -> H. by apply (IH eq_refl a b).
  - intros H. destruct (Index s sub) as [i|] eqn:E; [|done].
    apply Index_Some_app in E as (a & b & Hs & _). by destruct (H a b).
Qed.

Lemma Contains_spec s sub : Contains s sub = true ↔ ∃ a b, s = a +:+ sub +:+ b.
Proof.
  unfold Contains. destruct (Index s sub) as [i|] eqn:E.
  - apply Index_Some_app in E. naive_solver.
  - rewrite Index_None in E. naive_solver.
Qed.

(** *** Split and Join *)

Lemma Split_nonnil s c : Split s c ≠ [].
Proof. destruct s; simpl; [done|]. case_bool_decide; [done|]. by destruct (Split s c). Qed.

Lemma Join_cons x l sep : l ≠ [] → Join (x :: l) sep = x +:+ sep +:+ Join l sep.
Proof. by destruct l. Qed.

Lemma Join_Split s c : Join (Split s c) (String c "") = s.
Proof.
  induction s as [|d s IH]; [done|]. simpl. case_bool_decide as Hd.
  - subst d. rewrite Join_cons by apply Split_nonnil. rewrite IH. done.
  - pose proof (Split_nonnil s c) as Hn. destruct (Split s c) as [|w ws]; [done|].
    rewrite <- IH. by destruct ws.
Qed.

Lemma Split_no_sep s c : Forall (λ w, has_char c w = false) (Split s c).
Proof.
  induction s as [|d s IH]; simpl; [by repeat constructor|].
  case_bool_decide as Hd; [by constructor|].
  destruct (Split s c) as [|w ws]; inv IH; constructor; simpl; auto;
    rewrite bool_decide_false by done; auto.
Qed.

Lemma Split_free s c : has_char c s = false → Split s c = [s].
Proof.
  induction s as [|d s IH]; [done|]. simpl. case_bool_decide; [done|].
  intros H'. rewrite IH; done.
Qed.

Lemma Split_app s c t : has_char c s = false → Split (s +:+ String c t) c = s :: Split t c.
Proof.
  induction s as [|d s IH].
  - intros _. change ("" +:+ String c t) with (String c t). simpl. by rewrite bool_decide_true.
  - rewrite sapp_cons. cbn [has_char Split]. case_bool_decide; [done|]. intros H'. by rewrite IH.
Qed.

Lemma Split_app_sep a b c : Split (a +:+ String c b) c = Split a c ++ Split b c.
Proof.
  induction a as [|x a IH].
  - change ("" +:+ String c b) with (String c b). cbn. by rewrite bool_decide_true.
  - rewrite sapp_cons. cbn [Split]. rewrite IH. case_bool_decide; [done|].
    pose proof (Split_nonnil a c). by destruct (Split a c).
Qed.

Lemma Split_Join l c :
  l ≠ [] → Forall (λ w, has_char c w = false) l → Split (Join l (String c "")) c = l.
Proof.
  induction l as [|x l IH]; [done|]. intros _ Hf. inv Hf.
  destruct l as [|y l]; [by apply Split_free|].
  rewrite Join_cons by done. rewrite sapp_cons, sapp_nil_l, Split_app by done.
  by rewrite IH.
Qed.

Lemma Join_nil_iff l sep :
  sep ≠ "" → Forall (λ w, w ≠ "") l → Join l sep = "" ↔ l = [].
Proof.
  intros Hs Hf. destruct l as [|x [|y l]]; [done| |].
  - inv Hf. simpl. naive_solver.
  - inv Hf. simpl. rewrite sapp_eq_nil. naive_solver.
Qed.

(** *** ReplaceAll leaves a string without the token alone *)
Lemma replace_go_absent s old new :
  old ≠ "" → (∀ a b, s ≠ a +:+ old +:+ b) → replace_go 0 s old new = s.
Proof.
  intros Ho. induction s as [|c s IH]; [done|]. intros H.
  cbn [replace_go]. destruct (HasPrefix (String c s) old) eqn:E.
  - apply HasPrefix_spec in E as [t Ht]. by destruct (H "" t).
  - rewrite IH; [done|]. intros a b Hs. apply (H (String c a) b). by rewrite sapp_cons, Hs.
Qed.

Lemma ReplaceAll_absent s old new :
  old ≠ "" → Contains s old = false → ReplaceAll s old new = s.
Proof.
  intros Ho Hc. apply replace_go_absent; [done|]. intros a b Hs.
  assert (Contains s old = true) by (apply Contains_spec; eauto). congruence.
Qed.

Lemma Contains_sub s sub sub' :
  Contains s sub = false → Contains sub' sub = true → Contains s sub' = false.
Proof.
  intros H (a & b & ->)%Contains_spec. apply not_true_iff_false. intros (u & v & ->)%Contains_spec.
  apply not_true_iff_false in H. apply H. apply Contains_spec.
  exists (u +:+ a), (b +:+ v). by autorewrite with fbs.
Qed.
(** *** Occurrences inside the pieces of a split *)

Lemma Contains_cons c s t :
  Contains (String c s) t = HasPrefix (String c s) t || Contains s t.
Proof. unfold Contains. cbn [Index]. destruct (HasPrefix _ _); [done|]. by destruct (Index s t). Qed.

Lemma HasPrefix_head s c t :
  has_char c t = false →
  HasPrefix s t = match Split s c with w :: _ => HasPrefix w t | [] => false end.
Proof.
  revert s. induction t as [|d t IH]; intros s Ht.
  - pose proof (Split_nonnil s c). destruct (Split s c) as [|w ws]; [done|].
    rewrite (proj2 (HasPrefix_spec s "")), (proj2 (HasPrefix_spec w "")) by eauto. done.
  - simpl in Ht. case_bool_decide as Hdc; [done|].
    destruct s as [|e s]; [done|]. cbn [Split]. unfold HasPrefix in *.
    case_bool_decide as Hec.
    + subst e. simpl. destruct (ascii_dec d c); [done|]. done.
    + specialize (IH s Ht). pose proof (Split_nonnil s c). destruct (Split s c) as [|w ws]; [done|].
      simpl. destruct (ascii_dec d e); [|done]. done.
Qed.

Lemma Contains_Split s c t :
  t ≠ "" → has_char c t = false →
  Contains s t = existsb (λ w, Contains w t) (Split s c).
Proof.
  intros Hn Ht. induction s as [|d s IH].
  - simpl. by rewrite orb_false_r.
  - rewrite Contains_cons, (HasPrefix_head _ c) by done. cbn [Split].
    assert (HasPrefix "" t = false) as He.
    { apply HasPrefix_false. intros u Hu. symmetry in Hu. apply sapp_eq_nil in Hu as [-> _]. done. }
    case_bool_decide.
    + cbn [existsb]. unfold Contains at 2. cbn [Index]. rewrite He. simpl. apply IH.
    + pose proof (Split_nonnil s c). destruct (Split s c) as [|w ws]; [done|].
      cbn [existsb] in *. rewrite (Contains_cons d w), IH. apply orb_assoc.
Qed.

Lemma has_char_Split s c d :
  c ≠ d → has_char d s = existsb (has_char d) (Split s c).
Proof.
  intros Hne. induction s as [|x s IH]; [done|]. cbn [Split].
  case_bool_decide as Hx.
  - subst. cbn [existsb has_char]. rewrite bool_decide_false by done. done.
  - pose proof (Split_nonnil s c). destruct (Split s c) as [|w ws]; [done|].
    cbn [existsb has_char] in *. case_bool_decide; [done|]. apply IH.
Qed.

Lemma existsb_filter_false {A} (P Q : A → bool) l :
  existsb P l = false → existsb P (List.filter Q l) = false.
Proof.
  induction l as [|x l IH]; [done|]. simpl. intros [H1 H2]%orb_false_iff.
  destruct (Q x); simpl; rewrite ?H1; auto.
Qed.
End StringLemmas.

(** ** Lemmas on [path.Clean] *)
Section CleanLemmas.
Import strings path.

Abbreviation slash := "/"%char.

(** An element [Clean] keeps: not empty, no slash, neither "." nor "..". *)
Definition plain_seg (w : string) : Prop :=
  w ≠ "" ∧ w ≠ "." ∧ w ≠ ".." ∧ has_char slash w = false.

Lemma clean_step_plain rooted st w : plain_seg w → clean_step rooted st w = w :: st.
Proof.
  intros (H1 & H2 & H3 & _). unfold clean_step.
  by rewrite !bool_decide_false.
Qed.

Lemma clean_fold_plain rooted st ws :
  Forall plain_seg ws → foldl (clean_step rooted) st ws = rev ws ++ st.
Proof.
  intros H. revert st. induction H as [|w ws Hw _ IH]; intros st; [done|].
  simpl. rewrite clean_step_plain, IH by done. by rewrite <- app_assoc.
Qed.

(** Without ".." elements, [Clean] only drops the empty and "." elements. *)
Definition keep_seg (w : string) : bool :=
  negb (bool_decide (w = "")) && negb (bool_decide (w = ".")).

Lemma clean_fold_nodots rooted st ws :
  Forall (λ w, w ≠ "..") ws →
  foldl (clean_step rooted) st ws = rev (List.filter keep_seg ws) ++ st.
Proof.
  intros H. revert st. induction H as [|w ws Hw _ IH]; intros st; [done|].
  simpl. rewrite IH. unfold clean_step, keep_seg.
  repeat case_bool_decide; try done. simpl. by rewrite <- app_assoc.
Qed.

Lemma keep_seg_plain s :
  Forall (λ w, w ≠ "..") (Split s slash) →
  Forall plain_seg (List.filter keep_seg (Split s slash)).
Proof.
  intros Hd. pose proof (Split_no_sep s slash) as Hs.
  rewrite List.Forall_forall in *. intros w Hw%List.filter_In.
  destruct Hw as [Hin Hk]. unfold keep_seg in Hk.
  apply andb_true_iff in Hk as [H1 H2].
  rewrite negb_true_iff, bool_decide_eq_false in H1, H2.
  repeat split; auto.
Qed.

Lemma IsAbs_Join_plain ws : Forall plain_seg ws → IsAbs (Join ws "/") = false.
Proof.
  intros H. apply HasPrefix_false. intros t Ht.
  destruct H as [|w ws (Hw1 & _ & _ & Hw4) _]; [done|].
  destruct w as [|c w]; [done|]. simpl in Hw4. case_bool_decide as Hc; [done|].
  destruct ws; simpl in Ht; rewrite ?sapp_cons, ?sapp_nil_l in Ht; congruence.
Qed.

Lemma Clean_plain ws : ws ≠ [] → Forall plain_seg ws → Clean (Join ws "/") = Join ws "/".
Proof.
  intros Hn Hf. unfold Clean. rewrite IsAbs_Join_plain by done.
  rewrite Split_Join; [|done|eapply Forall_impl; [done|]; by intros w (_&_&_&?)].
  rewrite clean_fold_plain, app_nil_r, rev_involutive by done.
  rewrite bool_decide_false; [done|].
  rewrite Join_nil_iff; [done..|]. eapply Forall_impl; [done|]. by intros w (?&_).
Qed.

(** The relative, ".."-free case, which is all the driver feeds to [Clean]
    apart from [Join]ed absolute roots. *)
Lemma Clean_nodots s :
  IsAbs s = false → Forall (λ w, w ≠ "..") (Split s slash) →
  ∃ ws, Forall plain_seg ws ∧ ws = List.filter keep_seg (Split s slash) ∧
    Clean s = if bool_decide (ws = []) then "." else Join ws "/".
Proof.
  intros Ha Hd. eexists. split; [by apply keep_seg_plain|]. split; [done|].
  unfold Clean. rewrite Ha, clean_fold_nodots, app_nil_r, rev_involutive by done.
  assert (Forall (λ w, w ≠ "") (List.filter keep_seg (Split s slash))) as Hne.
  { eapply Forall_impl; [by apply keep_seg_plain|]. by intros w (?&_). }
  case_bool_decide as H1; case_bool_decide as H2; try done.
  - exfalso. apply H2. by apply (Join_nil_iff _ "/").
  - exfalso. apply H1. by rewrite H2.
Qed.
End CleanLemmas.

(** ** Lemmas on [TrimSpace] *)
Section TrimLemmas.
Import strings.

Lemma srev_app_spec a b : String.rev_app a b = String.rev a +:+ b.
Proof.
  unfold String.rev. revert b. induction a as [|c a IH]; intros b; [done|]. simpl.
  rewrite IH, (IH (String c "")), sapp_assoc. done.
Qed.

Lemma srev_cons c s : String.rev (String c s) = String.rev s +:+ String c "".
Proof. unfold String.rev at 1. simpl. apply srev_app_spec. Qed.

Lemma srev_app a b : String.rev (a +:+ b) = String.rev b +:+ String.rev a.
Proof.
  induction a as [|c a IH]; [by rewrite sapp_nil_l, sapp_nil_r|].
  rewrite sapp_cons, !srev_cons, IH. by rewrite sapp_assoc.
Qed.

Lemma srev_involutive s : String.rev (String.rev s) = s.
Proof. induction s as [|c s IH]; [done|]. by rewrite srev_cons, srev_app, IH. Qed.

Lemma trim_left_suffix seqs n s : ∃ u, s = u +:+ trim_left seqs n s.
Proof.
  revert n. induction s as [|c s IH]; intros n; [by exists ""|].
  assert (∀ m, ∃ u, String c s = u +:+ trim_left seqs m s) as Hs.
  { intros m. destruct (IH m) as [u Hu]. exists (String c u). by rewrite sapp_cons, <- Hu. }
  cbn [trim_left]. destruct n as [|n]; [|apply Hs].
  destruct (seq_at seqs (String c s)) as [[|m]|]; [by exists ""|apply Hs|by exists ""].
Qed.

(** Where trimming stops: no sequence is a prefix of the rest. *)
Definition trimmed (seqs : list string) (s : string) : Prop :=
  s = "" ∨ ∀ q, q ∈ seqs → HasPrefix s q = false.

Lemma seq_at_none seqs s :
  seq_at seqs s = None ↔ ∀ q, q ∈ seqs → HasPrefix s q = false.
Proof.
  unfold seq_at. split.
  - intros H%fmap_None q Hq%list_elem_of_In. by apply (List.find_none _ _ H).
  - intros H. apply fmap_None. destruct (List.find _ _) as [q|] eqn:E; [|done].
    apply List.find_some in E as [Hq%list_elem_of_In Hp]. rewrite H in Hp; done.
Qed.

Lemma seq_at_nonzero seqs s : Forall (λ q, q ≠ "") seqs → seq_at seqs s ≠ Some 0.
Proof.
  intros Hf H. unfold seq_at in H. apply fmap_Some in H as (q & Hq & Hl).
  apply List.find_some in Hq as [Hq%list_elem_of_In _]. rewrite Forall_forall in Hf.
  specialize (Hf q Hq). by destruct q.
Qed.

Lemma trim_left_trimmed seqs n s :
  Forall (λ q, q ≠ "") seqs → trimmed seqs (trim_left seqs n s).
Proof.
  intros Hf. revert n. induction s as [|c s IH]; intros n; [by left|].
  cbn [trim_left]. destruct n as [|n]; [|apply IH].
  destruct (seq_at seqs (String c s)) as [[|m]|] eqn:E; [|apply IH|].
  - by apply seq_at_nonzero in E.
  - right. by apply seq_at_none.
Qed.

Lemma trim_left_fix seqs s : trimmed seqs s → trim_left seqs 0 s = s.
Proof.
  intros [->|H%seq_at_none]; [done|]. destruct s as [|c s]; [done|].
  cbn [trim_left]. by rewrite H.
Qed.

Lemma trimmed_prefix seqs a b : trimmed seqs (a +:+ b) → trimmed seqs a.
Proof.
  intros [[-> _]%sapp_eq_nil|H]; [by left|]. right. intros q Hq.
  specialize (H q Hq). rewrite HasPrefix_false in *. intros t ->. apply (H (t +:+ b)).
  by rewrite sapp_assoc.
Qed.

Lemma space_seqs_nonempty :
  Forall (λ q, q ≠ "") space_seqs ∧ Forall (λ q, q ≠ "") (String.rev <$> space_seqs).
Proof. split; repeat (constructor; [done|]); constructor. Qed.

Lemma TrimSpace_idem s : TrimSpace (TrimSpace s) = TrimSpace s.
Proof.
  destruct space_seqs_nonempty as [H1 H2]. unfold TrimSpace.
  set (a := trim_left space_seqs 0 s).
  set (c := trim_left (String.rev <$> space_seqs) 0 (String.rev a)).
  destruct (trim_left_suffix (String.rev <$> space_seqs) 0 (String.rev a)) as [u Hu].
  fold c in Hu. rewrite (trim_left_fix space_seqs (String.rev c)).
  - rewrite srev_involutive, (trim_left_fix _ c); [done|]. by apply trim_left_trimmed.
  - apply (trimmed_prefix _ _ (String.rev u)). rewrite <- srev_app, <- Hu, srev_involutive.
    by apply trim_left_trimmed.
Qed.

Lemma TrimSpace_has_char c s : has_char c s = false → has_char c (TrimSpace s) = false.
Proof.
  intros H. unfold TrimSpace.
  assert (∀ t, has_char c (String.rev t) = has_char c t) as Hrev.
  { induction t as [|d t IH]; [done|]. rewrite srev_cons, has_char_app, IH. simpl.
    case_bool_decide; by rewrite ?orb_true_r, ?orb_false_r. }
  assert (∀ seqs n t, has_char c t = false → has_char c (trim_left seqs n t) = false) as Htr.
  { intros seqs n t Ht. destruct (trim_left_suffix seqs n t) as [u Hu].
    rewrite Hu, has_char_app in Ht. by apply orb_false_iff in Ht as [_ ?]. }
  rewrite Hrev. apply Htr. rewrite Hrev. by apply Htr.
Qed.

(** *** What TrimSpace takes off: runs of white space *)
Inductive runs_of (seqs : list string) : string → Prop :=
  | runs_of_nil : runs_of seqs ""
  | runs_of_cons q s : q ∈ seqs → runs_of seqs s → runs_of seqs (q +:+ s).
Abbreviation spaces := (runs_of space_seqs).

Lemma runs_of_app seqs a b : runs_of seqs a → runs_of seqs b → runs_of seqs (a +:+ b).
Proof. induction 1 as [|q s Hq _ IH]; [done|]. intros Hb. rewrite sapp_assoc. constructor; auto. Qed.
Lemma runs_of_one seqs q : q ∈ seqs → runs_of seqs q.
Proof. intros Hq. rewrite <- (sapp_nil_r q). by repeat constructor. Qed.
Lemma runs_of_rev a : spaces a → runs_of (String.rev <$> space_seqs) (String.rev a).
Proof.
  induction 1 as [|q s Hq _ IH]; [constructor|]. rewrite srev_app.
  apply runs_of_app; [done|]. by apply runs_of_one, list_elem_of_fmap_2.
Qed.
Lemma runs_of_unrev a : runs_of (String.rev <$> space_seqs) a → spaces (String.rev a).
Proof.
  induction 1 as [|q s (q' & -> & Hq)%list_elem_of_fmap _ IH]; [constructor|]. rewrite srev_app, srev_involutive.
  apply runs_of_app; [done|]. by apply runs_of_one.
Qed.

Lemma trim_left_skip seqs n s : trim_left seqs n s = trim_left seqs 0 (sdrop n s).
Proof. revert s. induction n as [|n IH]; intros [|c s]; try done. cbn [trim_left sdrop]. apply IH. Qed.
Lemma trim_left_found seqs s q :
  q ≠ "" → List.find (λ q, HasPrefix s q) seqs = Some q → trim_left seqs 0 s = trim_left seqs 0 (sdrop (String.length q) s).
Proof.
  intros Hq Hf. pose proof Hf as [_ Hp]%List.find_some. destruct s as [|c s].
  { apply HasPrefix_spec in Hp as [t E]. by destruct q. }
  cbn [trim_left]. unfold seq_at. rewrite Hf. destruct q as [|d q]; [done|]. cbn. by rewrite trim_left_skip.
Qed.

(** No sequence is the start of another one. *)
Definition prefix_free (seqs : list string) : Prop := ∀ q q', q ∈ seqs → q' ∈ seqs → HasPrefix q q' = true → q = q'.

Lemma app_prefix a b c d : a +:+ b = c +:+ d → HasPrefix a c = true ∨ HasPrefix c a = true.
Proof.
  revert c. induction a as [|x a IH]; intros c E; [right; apply HasPrefix_spec; by exists c|].
  destruct c as [|y c]; [left; apply HasPrefix_spec; by exists (String x a)|].
  rewrite !sapp_cons in E. injection E as -> E. rewrite !HasPrefix_spec.
  destruct (IH c E) as [[t ->]%HasPrefix_spec|[t ->]%HasPrefix_spec]; [left|right]; by exists t.
Qed.
Lemma trim_left_runs seqs a t :
  prefix_free seqs → Forall (λ q, q ≠ "") seqs → runs_of seqs a → trim_left seqs 0 (a +:+ t) = trim_left seqs 0 t.
Proof.
  intros Hp Hn. rewrite Forall_forall in Hn. induction 1 as [|q s Hq _ IH]; [done|]. rewrite sapp_assoc.
  destruct (List.find (λ q', HasPrefix (q +:+ (s +:+ t)) q') seqs) as [q'|] eqn:E.
  - pose proof E as [Hq' Hpre]%List.find_some. apply list_elem_of_In in Hq'.
    assert (q' = q) as ->.
    { apply HasPrefix_spec in Hpre as [u Hu]. apply app_prefix in Hu as [H|H]; [symmetry|]; by apply Hp. }
    rewrite (trim_left_found _ _ q), sdrop_app; auto.
  - apply List.find_none with (x := q) in E; [|by apply list_elem_of_In]. by rewrite HasPrefix_app in E.
Qed.
Lemma trim_left_split seqs s :
  Forall (λ q, q ≠ "") seqs → ∃ a, runs_of seqs a ∧ s = a +:+ trim_left seqs 0 s.
Proof.
  intros Hn. pose proof Hn as Hn'. rewrite Forall_forall in Hn'. remember (String.length s) as n eqn:En. revert s En.
  induction (lt_wf n) as [n _ IH]. intros s ->.
  destruct (List.find (λ q, HasPrefix s q) seqs) as [q|] eqn:E.
  - pose proof E as [Hq Hp]%List.find_some. apply list_elem_of_In in Hq. specialize (Hn' q Hq).
    rewrite (trim_left_found _ _ q) by done. apply HasPrefix_spec in Hp as [t ->]. rewrite sdrop_app.
    destruct (IH (String.length t)) with (s := t) as (a & Ha & Et); [|done|].
    { rewrite slength_app. destruct q; [done|]. cbn. lia. }
    exists (q +:+ a). split; [by constructor|]. by rewrite sapp_assoc, <- Et.
  - exists "". split; [constructor|]. rewrite sapp_nil_l. symmetry. apply trim_left_fix. right. apply seq_at_none.
    unfold seq_at. by rewrite E.
Qed.

Lemma space_seqs_prefix_free : prefix_free space_seqs ∧ prefix_free (String.rev <$> space_seqs).
Proof.
  assert (∀ l, forallb (λ q, forallb (λ q', negb (HasPrefix q q') || bool_decide (q = q')) l) l = true → prefix_free l) as H.
  { intros l H q q' Hq Hq' Hp. rewrite forallb_forall in H. apply list_elem_of_In in Hq, Hq'. specialize (H q Hq).
    cbv beta in H. rewrite forallb_forall in H. specialize (H q' Hq'). cbv beta in H. rewrite Hp in H.
    by apply bool_decide_eq_true in H. }
  split; apply H; vm_compute; reflexivity.
Qed.

(** The bytes of a sequence after the first are continuation bytes, the first
    is not: a sequence never starts inside another one. *)
Definition cont (c : ascii) : bool := bool_decide (128 ≤ nat_of_ascii c) && bool_decide (nat_of_ascii c < 192).
Fixpoint all_cont (s : string) : bool := match s with "" => true | String c s => cont c && all_cont s end.
Lemma all_cont_at a c b : all_cont (a +:+ String c b) = true → cont c = true.
Proof. induction a as [|d a IH]; [|rewrite sapp_cons]; intros [H1 H2]%andb_prop; auto. Qed.
Lemma space_seqs_lead q : q ∈ space_seqs → ∃ c r, q = String c r ∧ cont c = false ∧ all_cont r = true.
Proof.
  assert (forallb (λ q, match q with "" => false | String c r => negb (cont c) && all_cont r end) space_seqs = true) as H
    by (vm_compute; reflexivity).
  rewrite forallb_forall in H. intros Hq%list_elem_of_In. specialize (H q Hq). destruct q as [|c r]; [done|].
  apply andb_prop in H as [H1%negb_true_iff H2]. eauto.
Qed.

Lemma trimmed_spaces y b : y ≠ "" → trimmed space_seqs y → spaces b → trimmed space_seqs (y +:+ b).
Proof.
  intros Hy [->|Ht] Hb; [done|]. right. intros q Hq. apply HasPrefix_false. intros t E.
  pose proof E as [H|[v ->]%HasPrefix_spec]%app_prefix; [by rewrite Ht in H|].
  rewrite sapp_assoc in E. apply (inj (String.append y)) in E.
  pose proof (space_seqs_lead _ Hq) as (c & r & Eq & _ & Hr).
  destruct y as [|c' y]; [done|]. rewrite sapp_cons in Eq. injection Eq as -> <-.
  destruct v as [|d v].
  - specialize (Ht _ Hq). rewrite HasPrefix_false in Ht. apply (Ht ""). by rewrite !sapp_nil_r.
  - apply all_cont_at in Hr. destruct Hb as [|q b Hb _]; [done|].
    apply space_seqs_lead in Hb as (c2 & r2 & -> & Hc & _). rewrite !sapp_cons in E. injection E as -> _. congruence.
Qed.

(** TrimSpace takes white space off at both ends, all of it. *)
Lemma TrimSpace_surrounded a y b :
  spaces a → spaces b → trimmed space_seqs y → trimmed (String.rev <$> space_seqs) (String.rev y) →
  TrimSpace (a +:+ (y +:+ b)) = y.
Proof.
  intros Ha Hb H1 H2. destruct space_seqs_nonempty as [N1 N2], space_seqs_prefix_free as [P1 P2]. unfold TrimSpace.
  rewrite trim_left_runs by done. destruct (decide (y = "")) as [->|Hy].
  { rewrite sapp_nil_l, <- (sapp_nil_r b), trim_left_runs by done. done. }
  rewrite (trim_left_fix _ (y +:+ b)) by by apply trimmed_spaces.
  rewrite srev_app, trim_left_runs by (done || by apply runs_of_rev). by rewrite trim_left_fix, srev_involutive.
Qed.
Lemma TrimSpace_split s : ∃ a b, spaces a ∧ spaces b ∧ s = a +:+ (TrimSpace s +:+ b).
Proof.
  destruct space_seqs_nonempty as [N1 N2]. unfold TrimSpace.
  destruct (trim_left_split space_seqs s N1) as (a & Ha & E). set (y := trim_left space_seqs 0 s) in *.
  destruct (trim_left_split _ (String.rev y) N2) as (b & Hb & E2). set (z := trim_left _ 0 (String.rev y)) in *.
  exists a, (String.rev b). split_and!; [done|by apply runs_of_unrev|].
  rewrite <- srev_app, <- E2, srev_involutive. exact E.
Qed.
Lemma TrimSpace_trimmed s :
  trimmed space_seqs (TrimSpace s) ∧ trimmed (String.rev <$> space_seqs) (String.rev (TrimSpace s)).
Proof.
  destruct space_seqs_nonempty as [N1 N2]. unfold TrimSpace. rewrite srev_involutive. split; [|by apply trim_left_trimmed].
  set (y := trim_left space_seqs 0 s). set (z := trim_left _ 0 (String.rev y)).
  destruct (trim_left_suffix (String.rev <$> space_seqs) 0 (String.rev y)) as [u Hu]. fold z in Hu.
  apply (trimmed_prefix _ _ (String.rev u)). rewrite <- srev_app, <- Hu, srev_involutive. by apply trim_left_trimmed.
Qed.
Lemma TrimSpace_spaces a x b : spaces a → spaces b → TrimSpace (a +:+ (x +:+ b)) = TrimSpace x.
Proof.
  intros Ha Hb. destruct (TrimSpace_split x) as (a' & b' & Ha' & Hb' & E), (TrimSpace_trimmed x) as [T1 T2].
  rewrite E at 1. rewrite !sapp_assoc, <- sapp_assoc. apply TrimSpace_surrounded; auto using runs_of_app.
Qed.
End TrimLemmas.
(** White space. *)
Abbreviation spaces := (runs_of strings.space_seqs).

(** ** Absolute paths *)
Section AbsLemmas.
Import strings path.

(** A cleaned absolute path other than the root. *)
Definition abs_path (p : string) : Prop :=
  ∃ ws, ws ≠ [] ∧ Forall plain_seg ws ∧ p = "/" +:+ Join ws "/".

Lemma Join_app l1 l2 sep :
  l1 ≠ [] → l2 ≠ [] → Join (l1 ++ l2) sep = Join l1 sep +:+ sep +:+ Join l2 sep.
Proof.
  intros H1 H2. induction l1 as [|x l1 IH]; [done|]. destruct l1 as [|y l1].
  - change ([x] ++ l2) with (x :: l2). by rewrite Join_cons.
  - change ((x :: y :: l1) ++ l2) with (x :: ((y :: l1) ++ l2)).
    rewrite Join_cons by done. rewrite IH by done. rewrite (Join_cons x (y :: l1)) by done.
    by rewrite !sapp_assoc.
Qed.

Lemma Clean_abs ws : ws ≠ [] → Forall plain_seg ws → Clean ("/" +:+ Join ws "/") = "/" +:+ Join ws "/".
Proof.
  intros Hn Hf. unfold Clean, IsAbs. rewrite HasPrefix_app.
  assert (Split ("/" +:+ Join ws "/") "/"%char = "" :: ws) as ->.
  { change ("/" +:+ Join ws "/") with ("" +:+ String "/" (Join ws "/")). rewrite Split_app by done.
    rewrite Split_Join; [done..|]. eapply Forall_impl; [done|]. by intros w (_&_&_&?). }
  cbn [foldl]. change (clean_step true [] "") with (@nil string).
  by rewrite clean_fold_plain, app_nil_r, rev_involutive.
Qed.

(** Joining a plain relative path to an absolute one only concatenates. *)
Lemma JoinPath_plain p ws :
  abs_path p → ws ≠ [] → Forall plain_seg ws →
  JoinPath [p; Join ws "/"] = p +:+ "/" +:+ Join ws "/".
Proof.
  intros (ps & Hpn & Hpf & ->) Hn Hf. unfold JoinPath.
  assert (Join ws "/" ≠ "") as Hw.
  { rewrite Join_nil_iff; [done..|]. eapply Forall_impl; [done|]. by intros w (?&_). }
  rewrite !filter_cons_True by done. rewrite filter_nil. simpl.
  rewrite !sapp_assoc, <- Join_app by done.
  apply Clean_abs; [by destruct ps|by apply Forall_app].
Qed.

Lemma JoinPath_seg p w : abs_path p → plain_seg w → JoinPath [p; w] = p +:+ "/" +:+ w.
Proof. intros Hp Hw. apply (JoinPath_plain p [w]); [done..|]. by apply Forall_singleton. Qed.

Lemma abs_path_seg p w : abs_path p → plain_seg w → abs_path (p +:+ "/" +:+ w).
Proof.
  intros (ps & Hpn & Hpf & ->) Hw. exists (ps ++ [w]). split_and!.
  - by destruct ps.
  - apply Forall_app. by rewrite Forall_singleton.
  - by rewrite Join_app, !sapp_assoc.
Qed.

Lemma abs_path_join p ws :
  abs_path p → ws ≠ [] → Forall plain_seg ws → abs_path (p +:+ "/" +:+ Join ws "/").
Proof.
  intros (ps & Hpn & Hpf & ->) Hn Hf. exists (ps ++ ws). split_and!.
  - by destruct ps.
  - by apply Forall_app.
  - by rewrite Join_app, !sapp_assoc.
Qed.

Lemma abs_path_nonempty p : abs_path p → p ≠ "".
Proof. intros (ps & _ & _ & ->) H. done. Qed.
End AbsLemmas.

#[global] Arguments path.JoinPath : simpl never.
#[global] Arguments path.Clean : simpl never.
#[global] Arguments path.Base : simpl never.
#[global] Arguments strings.TrimSpace : simpl never.
#[global] Arguments strings.Fields : simpl never.
#[global] Arguments strings.Contains : simpl never.
#[global] Arguments String.append : simpl never.
