(* ===== verification/Sha256.v ===== *)
(** SHA-256 (FIPS 180-4) and lower-case hex, as the Go standard library's
    [crypto/sha256.Sum256] and [encoding/hex.EncodeToString] compute them. *)

From Stdlib Require Import ZArith Lia Ascii.
From stdpp Require Import base strings list numbers.
From S2P Require Import Prelude GoStrings.

Module Sha256.
Local Open Scope Z_scope.

Definition mask32 : Z := 4294967295.
Definition w32 (x : Z) : Z := Z.land x mask32.
Definition rotr (n x : Z) : Z := Z.lor (Z.shiftr x n) (w32 (Z.shiftl x (32 - n))).

Definition ch (x y z : Z) : Z := Z.lxor (Z.land x y) (Z.land (w32 (Z.lnot x)) z).
Definition maj (x y z : Z) : Z := Z.lxor (Z.land x y) (Z.lxor (Z.land x z) (Z.land y z)).
Definition bsig0 (x : Z) : Z := Z.lxor (rotr 2 x) (Z.lxor (rotr 13 x) (rotr 22 x)).
Definition bsig1 (x : Z) : Z := Z.lxor (rotr 6 x) (Z.lxor (rotr 11 x) (rotr 25 x)).
Definition ssig0 (x : Z) : Z := Z.lxor (rotr 7 x) (Z.lxor (rotr 18 x) (Z.shiftr x 3)).
Definition ssig1 (x : Z) : Z := Z.lxor (rotr 17 x) (Z.lxor (rotr 19 x) (Z.shiftr x 10)).

(** The constants are the first 32 fractional bits of the cube roots of the
    first 64 primes (FIPS 180-4, 4.2.2) and of the square roots of the first
    eight (5.3.3). *)
Definition prime (n : nat) : bool :=
  forallb (λ d, negb (Nat.eqb (Nat.modulo n d) 0)) (seq 2 (n - 2)).
Definition primes : list Z := Eval vm_compute in map Z.of_nat (take 64 (List.filter prime (seq 2 320))).
(** The integer cube root, bit by bit from bit [k] down. *)
Fixpoint cbrt_bits (k : nat) (n r : Z) : Z :=
  let r' := Z.lor r (Z.shiftl 1 (Z.of_nat k)) in
  let r := if r' * r' * r' <=? n then r' else r in
  match k with O => r | S k => cbrt_bits k n r end.
Definition K : list Z := Eval vm_compute in map (λ p, w32 (cbrt_bits 36 (Z.shiftl p 96) 0)) primes.

Record st := mkSt { sa : Z; sb : Z; sc : Z; sd : Z; se : Z; sf : Z; sg : Z; sh : Z }.

Definition init : st := Eval vm_compute in
  let h i := w32 (Z.sqrt (Z.shiftl (nth i primes 0) 64)) in
  mkSt (h 0%nat) (h 1%nat) (h 2%nat) (h 3%nat) (h 4%nat) (h 5%nat) (h 6%nat) (h 7%nat).

Definition add_st (x y : st) : st :=
  mkSt (w32 (sa x + sa y)) (w32 (sb x + sb y)) (w32 (sc x + sc y)) (w32 (sd x + sd y))
       (w32 (se x + se y)) (w32 (sf x + sf y)) (w32 (sg x + sg y)) (w32 (sh x + sh y)).

(** The next word of the schedule from the words so far, newest first. *)
Definition next_word (ws : list Z) : Z :=
  w32 (ssig1 (nth 1 ws 0) + nth 6 ws 0 + ssig0 (nth 14 ws 0) + nth 15 ws 0).
Fixpoint extend (n : nat) (ws : list Z) : list Z :=
  match n with O => ws | S n => extend n (next_word ws :: ws) end.

Definition round (s : st) (kw : Z * Z) : st :=
  let t1 := sh s + bsig1 (se s) + ch (se s) (sf s) (sg s) + fst kw + snd kw in
  let t2 := bsig0 (sa s) + maj (sa s) (sb s) (sc s) in
  mkSt (w32 (t1 + t2)) (sa s) (sb s) (sc s) (w32 (sd s + t1)) (se s) (sf s) (sg s).

Definition block (s : st) (m : list Z) : st :=
  add_st s (foldl round s (zip K (rev (extend 48 (rev m))))).

Definition word_of (b : list Z) : Z :=
  foldl (λ acc x, Z.lor (Z.shiftl acc 8) x) 0 b.
Definition bytes_of (w : Z) : list Z :=
  [Z.land (Z.shiftr w 24) 255; Z.land (Z.shiftr w 16) 255; Z.land (Z.shiftr w 8) 255; Z.land w 255].

Fixpoint chunks {A} (n k : nat) (l : list A) : list (list A) :=
  match k with
  | O => []
  | S k => take n l :: chunks n k (drop n l)
  end.

Definition pad (msg : list Z) : list Z :=
  let n := length msg in
  let z := ((119 - n mod 64) mod 64)%nat in
  let bits := Z.of_nat n * 8 in
  msg ++ 128 :: repeat 0 z ++ bytes_of (Z.shiftr bits 32) ++ bytes_of bits.

Definition sum256 (msg : list Z) : list Z :=
  let p := pad msg in
  let blocks := chunks 64 (length p / 64) p in
  let s := foldl (λ s b, block s (word_of <$> chunks 4 16 b)) init blocks in
  mjoin (bytes_of <$> [sa s; sb s; sc s; sd s; se s; sf s; sg s; sh s]).

Definition bytes_of_string (s : string) : list Z :=
  (λ c, Z.of_nat (nat_of_ascii c)) <$> String.list_ascii_of_string s.

Definition hex_digit (n : Z) : ascii :=
  default "0"%char (String.get (Z.to_nat n) "0123456789abcdef").
Fixpoint hex (bs : list Z) : string :=
  match bs with
  | [] => ""
  | b :: bs => String (hex_digit (Z.shiftr b 4)) (String (hex_digit (Z.land b 15)) (hex bs))
  end.

(** [hex.EncodeToString(sha256.Sum256([]byte(key))[:])]. *)
Definition hex_sum (key : string) : string := hex (sum256 (bytes_of_string key)).

Lemma length_sum256 msg : length (sum256 msg) = 32%nat.
Proof. done. Qed.

Lemma length_hex bs : String.length (hex bs) = (2 * length bs)%nat.
Proof. induction bs as [|b bs IH]; simpl; lia. Qed.

Lemma length_hex_sum key : String.length (hex_sum key) = 64%nat.
Proof. unfold hex_sum. rewrite length_hex, length_sum256. done. Qed.
End Sha256.

(** [sha256("abc")], the first test vector of FIPS 180-4. *)
Example sha256_abc :
  Sha256.hex_sum "abc" = "ba7816bf8f01cfea414140de5dae2223b00361a396177a9cb410ff61f20015ad".
Proof. vm_compute. reflexivity. Qed.
