(* ===== verification/Regexp.v ===== *)
(** Regular expressions, for the anchored patterns the driver compiles with
    [regexp.MustCompile].  [matches] runs Brzozowski derivatives; [lang] is
    the language of an expression, and [matches_lang] relates the two. *)

From Stdlib Require Import Lia Ascii.
From stdpp Require Import base strings list.
From S2P Require Import Prelude GoStrings.

Module Regexp.
Inductive re :=
  | Nil                            (* no string *)
  | Eps                            (* the empty string *)
  | Chr (p : ascii → bool)         (* one byte of a class *)
  | Cat (r1 r2 : re)
  | Alt (r1 r2 : re)
  | Star (r : re).

Inductive lang : re → string → Prop :=
  | lang_eps : lang Eps ""
  | lang_chr p c : p c = true → lang (Chr p) (String c "")
  | lang_cat r1 r2 s1 s2 : lang r1 s1 → lang r2 s2 → lang (Cat r1 r2) (s1 +:+ s2)
  | lang_alt_l r1 r2 s : lang r1 s → lang (Alt r1 r2) s
  | lang_alt_r r1 r2 s : lang r2 s → lang (Alt r1 r2) s
  | lang_star_nil r : lang (Star r) ""
  | lang_star_app r s1 s2 : lang r s1 → lang (Star r) s2 → lang (Star r) (s1 +:+ s2).

Fixpoint nullable (r : re) : bool :=
  match r with
  | Nil | Chr _ => false
  | Eps | Star _ => true
  | Cat r1 r2 => nullable r1 && nullable r2
  | Alt r1 r2 => nullable r1 || nullable r2
  end.

Fixpoint deriv (c : ascii) (r : re) : re :=
  match r with
  | Nil | Eps => Nil
  | Chr p => if p c then Eps else Nil
  | Cat r1 r2 =>
      if nullable r1 then Alt (Cat (deriv c r1) r2) (deriv c r2) else Cat (deriv c r1) r2
  | Alt r1 r2 => Alt (deriv c r1) (deriv c r2)
  | Star r => Cat (deriv c r) (Star r)
  end.

(** Does the whole of [s] match [r]? *)
Fixpoint matches (r : re) (s : string) : bool :=
  match s with
  | "" => nullable r
  | String c s => matches (deriv c r) s
  end.

(** *** Derived forms *)
Definition chr (c : ascii) : re := Chr (λ x, bool_decide (x = c)).
Definition in_range (lo hi c : ascii) : bool :=
  bool_decide (nat_of_ascii lo ≤ nat_of_ascii c) && bool_decide (nat_of_ascii c ≤ nat_of_ascii hi).
Fixpoint lit (s : string) : re :=
  match s with "" => Eps | String c s => Cat (chr c) (lit s) end.
Definition plus (r : re) : re := Cat r (Star r).
Fixpoint repn (n : nat) (r : re) : re :=
  match n with O => Eps | S n => Cat r (repn n r) end.
Definition cat_list (rs : list re) : re := foldr Cat Eps rs.

(** [[0-9a-f]] *)
Definition is_hex (c : ascii) : bool := in_range "0" "9" c || in_range "a" "f" c.

(** *** Correctness of the matcher *)
Lemma nullable_lang r : nullable r = true ↔ lang r "".
Proof.
  induction r as [| |p|r1 IH1 r2 IH2|r1 IH1 r2 IH2|r IH]; simpl.
  - split; [done|]. intros H; inv H.
  - split; [constructor|done].
  - split; [done|]. intros H; inv H.
  - rewrite andb_true_iff, IH1, IH2. split.
    + intros [H1 H2]. apply (lang_cat _ _ "" "" H1 H2).
    + intros H. inversion H as [| |? ? s1 s2 H1 H2 E1 E2| | | |]; subst.
      apply sapp_eq_nil in E2 as [-> ->]. done.
  - rewrite orb_true_iff, IH1, IH2. split.
    + intros [H|H]; [by apply lang_alt_l|by apply lang_alt_r].
    + intros H; inv H; auto.
  - split; [constructor|done].
Qed.

Lemma lang_star_cons r c s :
  lang (Star r) (String c s) →
  ∃ s1 s2, s = s1 +:+ s2 ∧ lang r (String c s1) ∧ lang (Star r) s2.
Proof.
  intros H. remember (Star r) as r' eqn:Er. remember (String c s) as t eqn:Et.
  revert r c s Er Et. induction H; intros r0 c0 s0 Er Et; simplify_eq.
  destruct s1 as [|d s1].
  - apply (IHlang2 r0 c0 s0); done.
  - rewrite sapp_cons in Et. simplify_eq. eauto.
Qed.

Lemma deriv_lang r c s : lang (deriv c r) s ↔ lang r (String c s).
Proof.
  revert s. induction r as [| |p|r1 IH1 r2 IH2|r1 IH1 r2 IH2|r IH]; intros s; simpl.
  - split; intros H; inv H.
  - split; intros H; inv H.
  - destruct (p c) eqn:E; split; intros H; inv H; try by constructor. congruence.
  - assert (lang (Cat (deriv c r1) r2) s ↔
      ∃ s1 s2, s = s1 +:+ s2 ∧ lang r1 (String c s1) ∧ lang r2 s2) as HC.
    { split.
      - intros H; inversion H; subst. setoid_rewrite <- IH1. eauto.
      - intros (s1 & s2 & -> & H1%IH1 & H2). by constructor. }
    assert (lang (Cat r1 r2) (String c s) ↔
      (∃ s1 s2, s = s1 +:+ s2 ∧ lang r1 (String c s1) ∧ lang r2 s2) ∨
      (lang r1 "" ∧ lang r2 (String c s))) as HR.
    { split.
      - intros H. inversion H as [| |? ? s1 s2 H1 H2 E1 E2| | | |]; subst.
        destruct s1 as [|d s1]; [rewrite sapp_nil_l in E2; subst; eauto|].
        rewrite sapp_cons in E2. simplify_eq. eauto 10.
      - intros [(s1 & s2 & -> & H1 & H2)|[H1 H2]].
        + apply (lang_cat _ _ (String c s1) s2 H1 H2).
        + apply (lang_cat _ _ "" _ H1 H2). }
    rewrite HR, <- HC. destruct (nullable r1) eqn:E.
    + apply nullable_lang in E. rewrite <- (IH2 s). split.
      * intros H; inv H; auto.
      * intros [H|[_ H]]; [by apply lang_alt_l|by apply lang_alt_r].
    + split; [auto|]. intros [H|[H _]]; [done|].
      apply nullable_lang in H. congruence.
  - split; intros H; inv H; rewrite ?IH1, ?IH2 in *; auto using lang_alt_l, lang_alt_r.
    + apply lang_alt_l. by apply IH1.
    + apply lang_alt_r. by apply IH2.
  - split.
    + intros H; inversion H; subst. rewrite <- sapp_cons. constructor; [by apply IH|done].
    + intros (s1 & s2 & -> & H1 & H2)%lang_star_cons. constructor; [by apply IH|done].
Qed.

Lemma matches_lang r s : matches r s = true ↔ lang r s.
Proof.
  revert r. induction s as [|c s IH]; intros r; simpl.
  - apply nullable_lang.
  - by rewrite IH, deriv_lang.
Qed.

(** *** Inversion lemmas for the derived forms *)
Lemma lang_lit t s : lang (lit t) s ↔ s = t.
Proof.
  revert s. induction t as [|c t IH]; intros s; simpl.
  - split; [by intros H; inv H|intros ->; constructor].
  - split.
    + intros H. inversion H as [| |? ? s1 s2 H1 H2| | | |]; subst. inv H1.
      apply IH in H2 as ->. by case_bool_decide; subst.
    + intros ->. apply (lang_cat _ _ (String c "") t); [|by apply IH].
      constructor. by apply bool_decide_eq_true.
Qed.

Fixpoint all_chars (p : ascii → bool) (s : string) : bool :=
  match s with "" => true | String c s => p c && all_chars p s end.

Lemma lang_repn_chr n p s :
  lang (repn n (Chr p)) s ↔ String.length s = n ∧ all_chars p s = true.
Proof.
  revert s. induction n as [|n IH]; intros s; simpl.
  - split; [by intros H; inv H|]. intros [Hl _]. destruct s; [constructor|done].
  - split.
    + intros H. inversion H as [| |? ? s1 s2 H1 H2| | | |]; subst. inv H1.
      apply IH in H2 as [<- H2]. rewrite sapp_cons, sapp_nil_l. simpl. rewrite H2, andb_true_r. done.
    + intros [Hl Ha]. destruct s as [|c s]; [done|]. simpl in *.
      apply andb_true_iff in Ha as [Hc Ha]. apply (lang_cat _ _ (String c "") s).
      * by constructor.
      * apply IH. auto with lia.
Qed.

Lemma lang_star_chr p s : lang (Star (Chr p)) s ↔ all_chars p s = true.
Proof.
  split.
  - intros H. remember (Star (Chr p)) as r eqn:Er. induction H; simplify_eq; [done|].
    inv H. rewrite sapp_cons, sapp_nil_l. simpl. rewrite IHlang2 by done. by rewrite andb_true_r.
  - induction s as [|c s IH]; [constructor|]. simpl. intros [Hc Hs]%andb_true_iff.
    apply (lang_star_app _ (String c "") s); [by constructor|auto].
Qed.

Lemma lang_plus_chr p s : lang (plus (Chr p)) s ↔ s ≠ "" ∧ all_chars p s = true.
Proof.
  unfold plus. split.
  - intros H. inversion H as [| |? ? s1 s2 H1 H2| | | |]; subst. inv H1.
    apply lang_star_chr in H2. rewrite sapp_cons, sapp_nil_l. simpl.
    rewrite H2, andb_true_r. done.
  - intros [Hn Ha]. destruct s as [|c s]; [done|]. simpl in Ha.
    apply andb_true_iff in Ha as [Hc Hs].
    apply (lang_cat _ _ (String c "") s); [by constructor|]. by apply lang_star_chr.
Qed.

Lemma lang_cat_iff r1 r2 s :
  lang (Cat r1 r2) s ↔ ∃ s1 s2, s = s1 +:+ s2 ∧ lang r1 s1 ∧ lang r2 s2.
Proof.
  split; [intros H; inversion H; subst; eauto|].
  intros (s1 & s2 & -> & H1 & H2). by constructor.
Qed.
End Regexp.
