(* ===== verification/Effects.v ===== *)
(** Effects of the driver process.

    A Go function that calls out of the process (shells out, touches a file,
    asks the API server, reads the clock, takes a lock) is a [prog]: a finite
    tree whose nodes are the calls, each continued by the reply the outside
    gives.  [exec] relates a program, started in a state of the process'
    memory, to every finite sequence of calls and replies it can go through
    and the value and memory it ends with; nothing is assumed of the replies.
    [run] executes a program against a [handler], a concrete outside. *)

From Stdlib Require Import ZArith Lia.
From stdpp Require Import base option gmap strings list.
From S2P Require Import Prelude GoStrings.

(** ** Errors

    Go error values.  The text of a message is kept only up to its first
    formatting verb; the code the driver branches on is the error's kind and
    the chain [errors.Is] and [errors.As] walk. *)

(** gRPC status codes the driver returns; [Unknown] is [status.Code] of an
    error that carries no status. *)
Inductive code :=
  | InvalidArgument | NotFound | AlreadyExists | PermissionDenied | ResourceExhausted
  | FailedPrecondition | Aborted | OutOfRange | Internal | Unavailable | Unknown.

#[export] Instance code_eq_dec : EqDecision code.
Proof. solve_decision. Defined.

(** src/pkg/exec/exec.go:24-30 [Error] (the [ErrExec] constructor). *)
Inductive goerr :=
  | ErrMsg (m : string)                        (* errors.New, fmt.Errorf without %w *)
  | Errorf (m : string) (e : goerr)            (* fmt.Errorf with %w *)
  | ErrJoin (a b : goerr)                      (* errors.Join *)
  | ErrExec (cmd : string) (args : list string) (exitCode : Z) (output : string) (err : option goerr)
  | ErrNotExist                                (* errors.Is(err, fs.ErrNotExist) *)
  | ErrEOF                                     (* io.EOF *)
  | ErrExeNotFound                             (* os/exec.ErrNotFound *)
  | ErrPoolExhausted                           (* loop.ErrPoolExhausted *)
  | ErrWrongKey                                (* crypt.ErrWrongKey *)
  | ErrNotBlank                                (* crypt.ErrNotBlank *)
  | ErrCapacityMismatch (requested existing : Z)
  | ErrStatus (c : code) (m : string)          (* status.Error, status.Errorf *)
  | ErrAPI (status : Z) (m : string).          (* kube apiError *)

(** [errors.As(err, &*exec.Error)]: exit code, output and inner error of the
    first [*exec.Error] of the chain. *)
Fixpoint as_exec (e : goerr) : option (Z * string * option goerr) :=
  match e with
  | ErrExec _ _ x out inner => Some (x, out, inner)
  | Errorf _ e => as_exec e
  | ErrJoin a b => match as_exec a with Some r => Some r | None => as_exec b end
  | _ => None
  end.

(** [errors.Is(err, target)] for a sentinel recognised by [P]. *)
Fixpoint err_is (P : goerr → bool) (e : goerr) : bool :=
  P e ||
  match e with
  | Errorf _ e => err_is P e
  | ErrJoin a b => err_is P a || err_is P b
  | ErrExec _ _ _ _ (Some inner) => err_is P inner
  | _ => false
  end.

Definition is_NotExist := err_is (λ e, match e with ErrNotExist => true | _ => false end).
Definition is_EOF := err_is (λ e, match e with ErrEOF => true | _ => false end).
Definition is_ExeNotFound := err_is (λ e, match e with ErrExeNotFound => true | _ => false end).
Definition is_PoolExhausted := err_is (λ e, match e with ErrPoolExhausted => true | _ => false end).
Definition is_WrongKey := err_is (λ e, match e with ErrWrongKey => true | _ => false end).
Definition is_NotBlank := err_is (λ e, match e with ErrNotBlank => true | _ => false end).

(** [errors.As(err, &*image.CapacityMismatchError)]. *)
Fixpoint as_mismatch (e : goerr) : option (Z * Z) :=
  match e with
  | ErrCapacityMismatch r x => Some (r, x)
  | Errorf _ e => as_mismatch e
  | ErrJoin a b => match as_mismatch a with Some r => Some r | None => as_mismatch b end
  | ErrExec _ _ _ _ (Some inner) => as_mismatch inner
  | _ => None
  end.

(** [errors.As(err, &*kube.apiError)]: the HTTP status. *)
Fixpoint as_api (e : goerr) : option Z :=
  match e with
  | ErrAPI c _ => Some c
  | Errorf _ e => as_api e
  | ErrJoin a b => match as_api a with Some r => Some r | None => as_api b end
  | ErrExec _ _ _ _ (Some inner) => as_api inner
  | _ => None
  end.

(** [status.Code(err)]. *)
Fixpoint status_code (e : goerr) : code :=
  match e with
  | ErrStatus c _ => c
  | Errorf _ e => status_code e
  | _ => Unknown
  end.

(** A Go pair [(value, error)] of which exactly one is meaningful. *)
Inductive res (A : Type) :=
  | Ok (a : A)
  | Err (e : goerr).
Arguments Ok {A} _.
Arguments Err {A} _.

Definition is_ok {A} (r : res A) : bool := match r with Ok _ => true | Err _ => false end.

Definition map_err {A} (f : goerr → goerr) (r : res A) : res A :=
  match r with Ok a => Ok a | Err e => Err (f e) end.

(** ** Data that crosses the process boundary *)

(** src/pkg/exec/exec.go:39-47 [Cmd]. *)
Record Cmd := mkCmd {
  cmd_name : string;
  cmd_args : list string;
  cmd_env : list string;
  cmd_secrets : list string;
}.

#[export] Instance Cmd_eq_dec : EqDecision Cmd.
Proof. solve_decision. Defined.

(** What [os.Stat] reports of a file. *)
Record finfo := mkFinfo { fi_size : Z; fi_dir : bool }.

Record dirent := mkDirent { de_name : string; de_dir : bool }.

(** The fields of [unix.Statfs_t] the driver reads. *)
Record statfs := mkStatfs { st_bsize : Z; st_blocks : Z; st_bavail : Z; st_files : Z; st_ffree : Z }.

(** src/pkg/kube/types.go:5-10 [OwnerReference]. *)
Record OwnerReference := mkOwner {
  own_APIVersion : string; own_Kind : string; own_Name : string; own_Controller : option bool }.

(** src/pkg/kube/types.go:12-26 [Pod]; times are nanoseconds. *)
Record Pod := mkPod {
  pod_Name : string;
  pod_Namespace : string;
  pod_UID : string;
  pod_DeletionTimestamp : option Z;
  pod_OwnerReferences : list OwnerReference;
  pod_NodeName : string;
  pod_StartTime : option Z;
}.

(** File operations whose only result is an error. *)
Inductive osop :=
  | MkdirAll (p : string)
  | Remove (p : string)
  | OpenCreate (p : string)            (* O_RDWR|O_CREATE *)
  | Truncate (p : string) (size : Z)
  | OpenRead (p : string)
  | OpenTrunc (p : string)             (* O_RDWR|O_CREATE|O_TRUNC *)
  | Flock (p : string)
  | WriteAll (p : string) (data : string)
  | Fsync (p : string)
  | CloseFile (p : string)
  | Rename (from to : string).

#[export] Instance osop_eq_dec : EqDecision osop.
Proof. solve_decision. Defined.

(** An HTTP request as net/http sends it. *)
Record HttpRequest := mkHttp {
  hr_Method : string; hr_URL : string; hr_Header : list (string * string); hr_Body : option string }.

(** What os/exec starts: an environment only if it differs from the parent's,
    and the descriptors the child inherits from 3 on. *)
Record Process := mkProcess {
  ps_Name : string; ps_Args : list string; ps_Env : list string; ps_ExtraFiles : list Z }.

(** The calls that leave the process, with the type of their replies. *)
Inductive call : Type → Type :=
  | RunCmd (c : Cmd) : call (string * option goerr)      (* exec.Runner.RunCmd *)
  | Stat (p : string) : call (res finfo)
  | OsOp (o : osop) : call (res unit)
  | ReadDir (p : string) : call (res (list dirent))
  | ReadFile (p : string) : call (res string)
  | ReadAt (p : string) (off len : Z) : call (string * option goerr)
  | ReadNext (p : string) (len : Z) : call (string * option goerr)
  | Glob (pattern : string) : call (res (list string))
  | Statfs (p : string) : call (res statfs)
  | Now : call Z
  | RangeOrder (keys : list string) : call (list string) (* the runtime's order of a map range *)
  | LockMu (name : string) : call unit
  | UnlockMu (name : string) : call unit
  | TimerFirst (name : string) : call bool               (* select: the timer won *)
  | ChanReady (name : string) : call bool                (* select with default: a value was there *)
  | ListPodsOnNode (node : string) : call (res (list Pod))
  | DeletePod (namespace name uid : string) : call (res unit)
  | PodEvent (p : Pod) (reason message : string) : call (res unit)
  | PolicyEnforced (name : string) : call (res bool)
  | Getenv (name : string) : call string
  | CertPool (pem : string) : call bool                  (* x509.CertPool.AppendCertsFromPEM *)
  | HttpDo (r : HttpRequest) : call (res (Z * string))   (* the status and the body *)
  | Pipe : call (res (Z * Z))                            (* the read and the write end *)
  | StartProc (p : Process) : call (res unit)
  | WaitProc : call (string * option (Z * goerr))        (* the output; exit code and error *)
  | PipeWrite (fd : Z) (data : string) : call (res unit)
  | PipeClose (fd : Z) : call (res unit)
  | Schedule (n : nat) : call nat                        (* which goroutine goes on *)
  | Listen (network addr : string) : call (res unit)
  | GrpcServe (services : list string) : call (option (res unit)). (* none: the context ended first *)

(** One call with its reply; a trace is the list of them in order. *)
Inductive event :=
  | Ev (R : Type) (c : call R) (r : R).

Arguments Ev {R} _ _.

Definition trace := list event.

(** ** Programs *)
Inductive prog (S A : Type) : Type :=
  | Ret (a : A)
  | Upd {B : Type} (f : S → B * S) (k : B → prog S A)     (* process memory, atomically *)
  | Sys {R : Type} (c : call R) (k : R → prog S A).
Arguments Ret {S A} _.
Arguments Upd {S A B} _ _.
Arguments Sys {S A R} _ _.

Fixpoint bind {S A B} (m : prog S A) (f : A → prog S B) : prog S B :=
  match m with
  | Ret a => f a
  | Upd g k => Upd g (λ b, bind (k b) f)
  | Sys c k => Sys c (λ r, bind (k r) f)
  end.

(** The bind of functions that return an error: the error ends the function. *)
Definition bindE {S A B} (m : prog S (res A)) (f : A → prog S (res B)) : prog S (res B) :=
  bind m (λ r, match r with Ok a => f a | Err e => Ret (Err e) end).

Definition sys {S R} (c : call R) : prog S R := Sys c Ret.
Definition gets {S B} (f : S → B) : prog S B := Upd (λ s, (f s, s)) Ret.
Definition modify {S} (f : S → S) : prog S unit := Upd (λ s, (tt, f s)) Ret.
Definition ok {S A} (a : A) : prog S (res A) := Ret (Ok a).
Definition fail {S A} (e : goerr) : prog S (res A) := Ret (Err e).
(** Rewrites the error a call ends with. *)
Definition wrap {S A} (f : goerr → goerr) (m : prog S (res A)) : prog S (res A) :=
  bind m (λ r, Ret (map_err f r)).
(** A pure fallible computation inside a program. *)
Definition lift_res {S A} (r : res A) : prog S (res A) := Ret r.

Declare Scope prog_scope.
Delimit Scope prog_scope with prog.
Notation "x <- m ;; k" := (bind m (λ x, k))
  (at level 100, m at next level, right associativity) : prog_scope.
Notation "x <-? m ;; k" := (bindE m (λ x, k))
  (at level 100, m at next level, right associativity) : prog_scope.
Notation "m ;; k" := (bind m (λ _, k)) (at level 100, right associativity) : prog_scope.
Notation "m ;;? k" := (bindE m (λ _, k)) (at level 100, right associativity) : prog_scope.
Notation "'when' b 'then' m" := (if b then m else Ret tt) (at level 90, m at level 90) : prog_scope.
Local Open Scope prog_scope.

(** [status.Errorf(c, "m ...", err)]: the chain is not kept. *)
Definition statusf (c : code) (m : string) : goerr → goerr := λ _, ErrStatus c m.
Definition failS {S A} (c : code) (m : string) : prog S (res A) := fail (ErrStatus c m).

(** [exec.Runner.Run]: a command without environment or secrets. *)
Definition Run {S} (name : string) (args : list string) : prog S (string * option goerr) :=
  sys (RunCmd (mkCmd name args [] [])).

(** [for _, x := range l] whose body may return an error. *)
Fixpoint for_each {S A} (l : list A) (f : A → prog S (res unit)) : prog S (res unit) :=
  match l with
  | [] => ok tt
  | x :: l => f x ;;? for_each l f
  end.

(** The same without errors. *)
Fixpoint for_all {S A} (l : list A) (f : A → prog S unit) : prog S unit :=
  match l with
  | [] => Ret tt
  | x :: l => f x ;; for_all l f
  end.

(** [for k := range m] over a Go map: the runtime chooses the order. *)
Definition range_keys {S} (keys : list string) : prog S (list string) :=
  ks <- sys (RangeOrder keys) ;;
  Ret (if decide (ks ≡ₚ keys) then ks else keys).

(** [mu.Lock(); defer mu.Unlock()] around a body. *)
Definition with_lock {S A} (name : string) (m : prog S A) : prog S A :=
  sys (LockMu name) ;; r <- m ;; sys (UnlockMu name) ;; Ret r.

(** ** Executions *)
Fixpoint exec {S A} (m : prog S A) (s : S) (tr : trace) (a : A) (s' : S) : Prop :=
  match m with
  | Ret x => tr = [] ∧ a = x ∧ s' = s
  | Upd f k => exec (k (f s).1) (f s).2 tr a s'
  | Sys c k => ∃ r tr', tr = Ev c r :: tr' ∧ exec (k r) s tr' a s'
  end.

(** [wp m s Q]: every execution of [m] from [s] ends in [Q]. *)
Fixpoint wp {S A} (m : prog S A) (s : S) (Q : A → S → trace → Prop) : Prop :=
  match m with
  | Ret x => Q x s []
  | Upd f k => wp (k (f s).1) (f s).2 Q
  | Sys c k => ∀ r, wp (k r) s (λ a s' tr, Q a s' (Ev c r :: tr))
  end.

(** ** Concrete outsides *)
Definition handler (X : Type) := ∀ R, call R → X → R * X.

Fixpoint run {X S A} (h : handler X) (m : prog S A) (s : S) (x : X) : A * S * X * trace :=
  match m with
  | Ret a => (a, s, x, [])
  | Upd f k => let '(b, s') := f s in run h (k b) s' x
  | Sys c k =>
      let '(r, x') := h _ c x in
      let '(a, s', x'', tr) := run h (k r) s x' in
      (a, s', x'', Ev c r :: tr)
  end.

(** ** A component's memory inside a larger one *)
Record lens (S T : Type) := mkLens { lget : T → S; lset : S → T → T }.
Arguments mkLens {S T} _ _.
Arguments lget {S T} _ _.
Arguments lset {S T} _ _ _.

Class LensOk {S T} (l : lens S T) : Prop := {
  lens_get_set s t : lget l (lset l s t) = s;
  lens_set_set s s' t : lset l s (lset l s' t) = lset l s t;
  lens_set_get t : lset l (lget l t) t = t;
}.

Fixpoint zoom {S T A} (l : lens S T) (m : prog S A) : prog T A :=
  match m with
  | Ret a => Ret a
  | Upd f k => Upd (λ t, let '(b, s) := f (lget l t) in (b, lset l s t)) (λ b, zoom l (k b))
  | Sys c k => Sys c (λ r, zoom l (k r))
  end.

(** ** Laws *)
Section Laws.
Context {S : Type}.

Lemma wp_exec {A} (m : prog S A) s Q :
  wp m s Q ↔ ∀ tr a s', exec m s tr a s' → Q a s' tr.
Proof.
  revert s Q. induction m as [a|B f k IH|R c k IH]; intros s Q; simpl.
  - split; [by intros ? ??? (-> & -> & ->)|]. eauto.
  - apply IH.
  - split.
    + intros H tr a s' (r & tr' & -> & He). by apply (proj1 (IH r s _) (H r)).
    + intros H r. apply IH. eauto.
Qed.

Lemma wp_mono {A} (m : prog S A) s (Q Q' : A → S → trace → Prop) :
  (∀ a s' tr, Q a s' tr → Q' a s' tr) → wp m s Q → wp m s Q'.
Proof. rewrite !wp_exec. eauto. Qed.

Lemma wp_bind {A B} (m : prog S A) (f : A → prog S B) s Q :
  wp (bind m f) s Q ↔ wp m s (λ a s' tr, wp (f a) s' (λ b s'' tr', Q b s'' (tr ++ tr'))).
Proof.
  revert s Q. induction m as [a|T g k IH|R c k IH]; intros s Q; simpl.
  - done.
  - apply IH.
  - by setoid_rewrite IH.
Qed.

Lemma exec_bind {A B} (m : prog S A) (f : A → prog S B) s tr b s' :
  exec (bind m f) s tr b s' ↔
  ∃ tr1 a s1 tr2, tr = tr1 ++ tr2 ∧ exec m s tr1 a s1 ∧ exec (f a) s1 tr2 b s'.
Proof.
  revert s tr. induction m as [a|T g k IH|R c k IH]; intros s tr; simpl.
  - split; [|by intros (tr1 & a' & s1 & tr2 & -> & (-> & -> & ->) & ?)].
    intros H. by exists [], a, s, tr.
  - apply IH.
  - split.
    + intros (r & tr' & -> & He). apply IH in He as (tr1 & a & s1 & tr2 & -> & H1 & H2).
      exists (Ev c r :: tr1), a, s1, tr2. eauto 10.
    + intros (tr1 & a & s1 & tr2 & -> & (r & tr' & -> & H1) & H2).
      exists r, (tr' ++ tr2). split; [done|]. apply IH. eauto 10.
Qed.

(** Every program ends, whatever the replies: an execution always exists. *)
Lemma exec_total {A} (m : prog S A) s {X} (h : handler X) x :
  let '(a, s', x', tr) := run h m s x in exec m s tr a s'.
Proof.
  revert s x. induction m as [a|T g k IH|R c k IH]; intros s x; simpl.
  - done.
  - destruct (g s) as [b s1] eqn:E. specialize (IH b s1 x). by destr_let.
  - destruct (h R c x) as [r x1] eqn:E. specialize (IH r s x1).
    destruct (run h (k r) s x1) as [[[a s'] x'] tr] eqn:E'. eauto.
Qed.

Lemma exec_run {A} (m : prog S A) s {X} (h : handler X) x a s' x' tr :
  run h m s x = (a, s', x', tr) → exec m s tr a s'.
Proof. intros E. pose proof (exec_total m s h x) as He. by rewrite E in He. Qed.

Lemma run_bind {A B X} (h : handler X) (m : prog S A) (f : A → prog S B) s x :
  run h (bind m f) s x =
    let '(a, s1, x1, tr1) := run h m s x in
    let '(b, s2, x2, tr2) := run h (f a) s1 x1 in
    (b, s2, x2, tr1 ++ tr2).
Proof.
  revert s x. induction m as [a|T g k IH|R c k IH]; intros s x; simpl.
  - by destr_let.
  - destruct (g s) as [b s1]. apply IH.
  - destruct (h R c x) as [r x1]. rewrite IH. by destr_let; simplify_eq.
Qed.
End Laws.

Lemma exec_zoom {S T A} (l : lens S T) `{!LensOk l} (m : prog S A) t tr a t' :
  exec (zoom l m) t tr a t' ↔ exec m (lget l t) tr a (lget l t') ∧ t' = lset l (lget l t') t.
Proof.
  revert t tr. induction m as [x|B f k IH|R c k IH]; intros t tr; simpl.
  - split.
    + intros (-> & -> & ->). by rewrite lens_set_get.
    + intros ((-> & -> & Hg) & ->). split_and!; [done..|].
      by rewrite Hg, lens_set_get.
  - destruct (f (lget l t)) as [b s] eqn:E. simpl. rewrite IH.
    by rewrite lens_get_set, lens_set_set.
  - split.
    + intros (r & tr' & -> & He). apply IH in He as [He Ht]. eauto 10.
    + intros ((r & tr' & -> & He) & Ht). exists r, tr'. split; [done|]. apply IH. eauto.
Qed.

(** ** Reading a trace *)

Definition ev_run (e : event) : option (Cmd * (string * option goerr)) :=
  match e with
  | Ev c r => match c in call R return R → option (Cmd * (string * option goerr)) with
              | RunCmd c => λ r, Some (c, r)
              | _ => λ _, None
              end r
  end.

Definition ev_os (e : event) : option (osop * res unit) :=
  match e with
  | Ev c r => match c in call R return R → option (osop * res unit) with
              | OsOp o => λ r, Some (o, r)
              | _ => λ _, None
              end r
  end.

Definition ev_stat (e : event) : option (string * res finfo) :=
  match e with
  | Ev c r => match c in call R return R → option (string * res finfo) with
              | Stat p => λ r, Some (p, r)
              | _ => λ _, None
              end r
  end.

(** The commands run, the file operations done, the stats made, in order. *)
Definition runs (tr : trace) : list (Cmd * (string * option goerr)) := omap ev_run tr.
Definition os_ops (tr : trace) : list (osop * res unit) := omap ev_os tr.
Definition stats (tr : trace) : list (string * res finfo) := omap ev_stat tr.

Lemma runs_app t1 t2 : runs (t1 ++ t2) = runs t1 ++ runs t2.
Proof. apply omap_app. Qed.
Lemma os_ops_app t1 t2 : os_ops (t1 ++ t2) = os_ops t1 ++ os_ops t2.
Proof. apply omap_app. Qed.
Lemma stats_app t1 t2 : stats (t1 ++ t2) = stats t1 ++ stats t2.
Proof. apply omap_app. Qed.

(** The same for one event in front: [trace_simpl] reads a trace that is
    partly explicit. *)
Lemma runs_cons e tr : runs (e :: tr) = match ev_run e with Some x => x :: runs tr | None => runs tr end.
Proof. done. Qed.
Lemma os_ops_cons e tr : os_ops (e :: tr) = match ev_os e with Some x => x :: os_ops tr | None => os_ops tr end.
Proof. done. Qed.
Lemma stats_cons e tr : stats (e :: tr) = match ev_stat e with Some x => x :: stats tr | None => stats tr end.
Proof. done. Qed.
Lemma runs_nil : runs [] = [].
Proof. done. Qed.
Lemma os_ops_nil : os_ops [] = [].
Proof. done. Qed.
Lemma stats_nil : stats [] = [].
Proof. done. Qed.

#[export] Hint Rewrite runs_app runs_cons runs_nil os_ops_app os_ops_cons os_ops_nil
  stats_app stats_cons stats_nil @app_nil_r : trace.
Ltac trace_simpl := autorewrite with trace in *; cbn [ev_run ev_os ev_stat] in *.

(** ** Proving facts about all executions *)

Lemma wp_bindE {S A B} (m : prog S (res A)) (f : A → prog S (res B)) s Q :
  wp (bindE m f) s Q ↔
  wp m s (λ r s' tr, match r with
                     | Ok a => wp (f a) s' (λ b s'' tr', Q b s'' (tr ++ tr'))
                     | Err e => Q (Err e) s' (tr ++ [])
                     end).
Proof.
  unfold bindE. rewrite wp_bind.
  split; apply wp_mono; intros [a|e] s' tr; auto.
Qed.

Lemma wp_wrap {S A} (f : goerr → goerr) (m : prog S (res A)) s Q :
  wp (wrap f m) s Q ↔ wp m s (λ r s' tr, Q (map_err f r) s' (tr ++ [])).
Proof. unfold wrap. by rewrite wp_bind. Qed.

(** [wp_cases] follows a program to the ends of its executions: it takes every
    reply and every test apart. *)
Ltac wp_test :=
  match goal with
  | |- wp ?m _ _ =>
      match m with
      | context [bool_decide ?P] => case (bool_decide_reflect P); intros
      | context [match ?x with Some _ => _ | None => _ end] => destruct x eqn:?
      | context [match ?x with Ok _ => _ | Err _ => _ end] => destruct x eqn:?
      end
  end.
Ltac wp_reply :=
  lazymatch goal with
  | |- ∀ _ : string * option goerr, _ => intros [? [?|]]
  | |- ∀ _ : res _, _ => intros [?|?]
  | |- ∀ _ : unit, _ => intros []
  | |- ∀ _ : bool, _ => intros []
  end.
Ltac wp_cases := cbn; repeat (first [wp_reply | wp_test]; cbn).

(** [emits P m]: in every execution of [m], every event satisfies [P]. *)
Definition emits {S A} (P : event → Prop) (m : prog S A) : Prop :=
  ∀ s tr a s', exec m s tr a s' → Forall P tr.

Section Emits.
Context {S : Type} (P : event → Prop).

Lemma emits_ret {A} (a : A) : emits (S := S) P (Ret a).
Proof. intros s tr x s' (-> & _). constructor. Qed.

Lemma emits_upd {A B} (f : S → B * S) (k : B → prog S A) :
  (∀ b, emits P (k b)) → emits P (Upd f k).
Proof. intros H s tr a s' He. by eapply H. Qed.

Lemma emits_sys {A R} (c : call R) (k : R → prog S A) :
  (∀ r, P (Ev c r)) → (∀ r, emits P (k r)) → emits P (Sys c k).
Proof. intros H1 H2 s tr a s' (r & tr' & -> & He). constructor; [done|by eapply H2]. Qed.

Lemma emits_bind {A B} (m : prog S A) (f : A → prog S B) :
  emits P m → (∀ a, emits P (f a)) → emits P (bind m f).
Proof.
  intros H1 H2 s tr b s' (tr1 & a & s1 & tr2 & -> & Hm & Hf)%exec_bind.
  apply Forall_app. split; [by eapply H1|by eapply H2].
Qed.

Lemma emits_bindE {A B} (m : prog S (res A)) (f : A → prog S (res B)) :
  emits P m → (∀ a, emits P (f a)) → emits P (bindE m f).
Proof. intros H1 H2. apply emits_bind; [done|]. intros [a|e]; [done|apply emits_ret]. Qed.

Lemma emits_wrap {A} f (m : prog S (res A)) : emits P m → emits P (wrap f m).
Proof. intros H. apply emits_bind; [done|]. intros. apply emits_ret. Qed.

Lemma emits_for_each {A} (l : list A) (f : A → prog S (res unit)) :
  (∀ x, x ∈ l → emits P (f x)) → emits P (for_each l f).
Proof.
  induction l as [|x l IH]; intros H; [apply emits_ret|].
  apply emits_bindE; [apply H; left|]. intros _. apply IH. intros y Hy. apply H. by right.
Qed.

Lemma emits_for_all {A} (l : list A) (f : A → prog S unit) :
  (∀ x, x ∈ l → emits P (f x)) → emits P (for_all l f).
Proof.
  induction l as [|x l IH]; intros H; [apply emits_ret|].
  apply emits_bind; [apply H; left|]. intros _. apply IH. intros y Hy. apply H. by right.
Qed.

End Emits.

Lemma emits_zoom {S T A} (P : event → Prop) (l : lens S T) `{!LensOk l} (m : prog S A) :
  emits P m → emits P (zoom l m).
Proof. intros H t tr a t' He. apply (exec_zoom l) in He as [He _]. by eapply H. Qed.

Lemma emits_mono {S A} (P Q : event → Prop) (m : prog S A) :
  (∀ e, P e → Q e) → emits P m → emits Q m.
Proof. intros H Hm s tr a s' He. apply Hm in He. rewrite Forall_forall in *. auto. Qed.

(** [emits_step] follows the shape of the program; what is left is the
    obligation on each call, and the [emits] facts of the functions called. *)
Ltac emits_step :=
  lazymatch goal with
  | |- emits _ (Ret _) => apply emits_ret
  | |- emits _ (ok _) => apply emits_ret
  | |- emits _ (fail _) => apply emits_ret
  | |- emits _ (failS _ _) => apply emits_ret
  | |- emits _ (lift_res _) => apply emits_ret
  | |- emits _ (Upd _ _) => apply emits_upd; intros
  | |- emits _ (gets _) => apply emits_upd; intros; apply emits_ret
  | |- emits _ (modify _) => apply emits_upd; intros; apply emits_ret
  | |- emits _ (Sys _ _) => apply emits_sys; intros
  | |- emits _ (sys _) => apply emits_sys; intros; [|apply emits_ret]
  | |- emits _ (Run _ _) => apply emits_sys; intros; [|apply emits_ret]
  | |- emits _ (bind _ _) => apply emits_bind; [|intros]
  | |- emits _ (bindE _ _) => apply emits_bindE; [|intros]
  | |- emits _ (wrap _ _) => apply emits_wrap
  | |- emits _ (for_each _ _) => apply emits_for_each; intros
  | |- emits _ (for_all _ _) => apply emits_for_all; intros
  | |- emits _ (with_lock _ _) => unfold with_lock
  | |- emits _ (range_keys _) => unfold range_keys
  | |- emits _ (zoom _ _) => apply emits_zoom; [typeclasses eauto|]
  | |- emits _ (if ?b then _ else _) => destruct b
  | |- emits _ (match ?x with _ => _ end) => destruct x
  | |- emits _ (let '(_, _) := ?x in _) => destruct x
  end.
Create HintDb emits discriminated.
Ltac solve_emits := repeat first [ progress intros | emits_step | solve [eauto with emits] ].

(** ** Loops with a binary bound

    [loop_pos p body st] runs [body] until it leaves the loop with [inr], at
    most [p] times; the bound is a [positive], so a bound of millions costs
    nothing until it is used. *)
Fixpoint loop_pos {S St A} (p : positive) (body : St → prog S (St + A)) (st : St)
  : prog S (St + A) :=
  let continue r p' := match r with
                       | inl st' => loop_pos p' body st'
                       | inr a => Ret (inr a)
                       end in
  match p with
  | xH => body st
  | xO p' => bind (loop_pos p' body st) (λ r, continue r p')
  | xI p' => bind (body st) (λ r,
      match r with
      | inl st' => bind (loop_pos p' body st') (λ r, continue r p')
      | inr a => Ret (inr a)
      end)
  end.

(** The rule of a loop: an invariant of the state and of the trace so far. *)
Lemma wp_loop_pos {S St A} p (body : St → prog S (St + A)) (I : St → S → trace → Prop)
    (Q : A → S → trace → Prop) :
  (∀ st s tr0, I st s tr0 → wp (body st) s (λ r s' tr,
     match r with inl st' => I st' s' (tr0 ++ tr) | inr a => Q a s' (tr0 ++ tr) end)) →
  ∀ st s tr0, I st s tr0 → wp (loop_pos p body st) s (λ r s' tr,
     match r with inl st' => I st' s' (tr0 ++ tr) | inr a => Q a s' (tr0 ++ tr) end).
Proof.
  intros Hb. induction p as [p IH|p IH|]; intros st s tr0 HI; cbn [loop_pos].
  - apply wp_bind. eapply wp_mono; [|by apply Hb]. intros [st'|a] s' tr H'; cbn.
    + apply wp_bind. eapply wp_mono; [|by apply IH]. intros [st''|a] s'' tr' H''; cbn.
      * eapply wp_mono; [|by apply IH]. intros [?|?] ??; by rewrite <- ?app_assoc.
      * by rewrite app_nil_r, app_assoc.
    + by rewrite app_nil_r.
  - apply wp_bind. eapply wp_mono; [|by apply IH]. intros [st'|a] s' tr H'; cbn.
    + eapply wp_mono; [|by apply IH]. intros [?|?] ??; by rewrite <- ?app_assoc.
    + by rewrite app_nil_r.
  - by apply Hb.
Qed.

Lemma emits_loop_pos {S St A} P p (body : St → prog S (St + A)) st :
  (∀ st, emits P (body st)) → emits P (loop_pos p body st).
Proof.
  intros Hb. revert st. induction p as [p IH|p IH|]; intros st; cbn [loop_pos].
  - apply emits_bind; [done|]. intros [st'|a]; [|apply emits_ret].
    apply emits_bind; [done|]. intros [st''|a]; [done|apply emits_ret].
  - apply emits_bind; [done|]. intros [st'|a]; [done|apply emits_ret].
  - done.
Qed.

(** A loop whose body advances a counter by at least one per turn, as long as
    the replies are legal, advances it by the number of its turns. *)
Lemma wp_loop_count {S St A} p (body : St → prog S (St + A)) (cnt : St → Z) (L : event → Prop) :
  (∀ st s, wp (body st) s (λ r _ tr, Forall L tr →
     match r with inl st' => (cnt st + 1 ≤ cnt st')%Z | inr _ => True end)) →
  ∀ st s, wp (loop_pos p body st) s (λ r _ tr, Forall L tr →
     match r with inl st' => (cnt st + Zpos p ≤ cnt st')%Z | inr _ => True end).
Proof.
  intros Hb. induction p as [p IH|p IH|]; intros st s; cbn [loop_pos].
  - apply wp_bind. eapply wp_mono; [|apply Hb]. intros [st'|a] s' tr H'; cbn; [|done].
    apply wp_bind. eapply wp_mono; [|apply IH]. intros [st''|a] s'' tr' H''; cbn; [|done].
    eapply wp_mono; [|apply IH]. intros [st3|a] ?? H3; cbn; [|done].
    rewrite !Forall_app. intros (?&?&?). specialize (H' ltac:(done)). specialize (H'' ltac:(done)).
    specialize (H3 ltac:(done)). lia.
  - apply wp_bind. eapply wp_mono; [|apply IH]. intros [st''|a] s'' tr' H''; cbn; [|done].
    eapply wp_mono; [|apply IH]. intros [st3|a] ?? H3; cbn; [|done].
    rewrite !Forall_app. intros (?&?). specialize (H'' ltac:(done)). specialize (H3 ltac:(done)). lia.
  - apply Hb.
Qed.

(** ** What held before each event

    [always P h tr]: each event of [tr] satisfies [P] of the history before
    it, [h] being the history before [tr]. *)
Fixpoint always (P : trace → event → Prop) (h tr : trace) : Prop :=
  match tr with
  | [] => True
  | e :: tr => P h e ∧ always P (h ++ [e]) tr
  end.

Lemma always_app P h t1 t2 : always P h (t1 ++ t2) ↔ always P h t1 ∧ always P (h ++ t1) t2.
Proof.
  revert h. induction t1 as [|e t1 IH]; intros h; simpl.
  - rewrite app_nil_r. tauto.
  - rewrite IH, <- app_assoc. simpl. tauto.
Qed.

Lemma always_split P tr :
  always P [] tr ↔ ∀ t1 e t2, tr = t1 ++ e :: t2 → P t1 e.
Proof.
  split.
  - intros H t1 e t2 ->. apply always_app in H as [_ H]. by destruct H.
  - induction tr as [|e tr IH] using rev_ind; intros H; [done|].
    apply always_app. split.
    + apply IH. intros t1 e' t2 ->. apply (H t1 e' (t2 ++ [e])). by rewrite <- app_assoc.
    + simpl. split; [|done]. by apply (H tr e []).
Qed.

Lemma always_mono P Q h tr : (∀ h e, P h e → Q h e) → always P h tr → always Q h tr.
Proof. intros HPQ. revert h. induction tr as [|e tr IH]; intros h; simpl; naive_solver. Qed.

Lemma always_forall (P : trace → event → Prop) h tr :
  Forall (λ e, ∀ h, P h e) tr → always P h tr.
Proof. intros H. revert h. induction H; intros h; simpl; auto. Qed.

(** The sequential reads of a file: length asked for, bytes and error. *)
Definition ev_read (p : string) (e : event) : option (Z * (string * option goerr)) :=
  match e with
  | Ev c r => match c in call R return R → option (Z * (string * option goerr)) with
              | ReadNext q n => λ r, if decide (q = p) then Some (n, r) else None
              | _ => λ _, None
              end r
  end.

Definition file_reads (p : string) (tr : trace) : list (Z * (string * option goerr)) := omap (ev_read p) tr.

Lemma file_reads_app p t1 t2 : file_reads p (t1 ++ t2) = file_reads p t1 ++ file_reads p t2.
Proof. apply omap_app. Qed.
Lemma file_reads_cons p e tr :
  file_reads p (e :: tr) = match ev_read p e with Some x => x :: file_reads p tr | None => file_reads p tr end.
Proof. done. Qed.
#[global] Arguments file_reads : simpl never.

#[global] Arguments loop_pos : simpl never.

(** ** Concrete outsides for examples

    [quiet] answers every call with success and nothing found; the [on_*]
    combinators replace the answers to one kind of call. *)
Definition quiet {X} : handler X := λ R c x,
  (match c in call R return R with
   | RunCmd _ => ("", None)
   | Stat _ => Err ErrNotExist
   | OsOp _ => Ok tt
   | ReadDir _ => Ok []
   | ReadFile _ => Err ErrNotExist
   | ReadAt _ _ _ => ("", Some ErrEOF)
   | ReadNext _ _ => ("", Some ErrEOF)
   | Glob _ => Ok []
   | Statfs _ => Err ErrNotExist
   | Now => 0%Z
   | RangeOrder ks => ks
   | LockMu _ => tt
   | UnlockMu _ => tt
   | TimerFirst _ => false
   | ChanReady _ => false
   | ListPodsOnNode _ => Ok []
   | DeletePod _ _ _ => Ok tt
   | PodEvent _ _ _ => Ok tt
   | PolicyEnforced _ => Ok false
   | Getenv _ => ""
   | CertPool _ => false
   | HttpDo _ => Err ErrNotExist
   | Pipe => Err ErrNotExist
   | StartProc _ => Ok tt
   | WaitProc => ("", None)
   | PipeWrite _ _ => Ok tt
   | PipeClose _ => Ok tt
   | Schedule _ => 0
   | Listen _ _ => Ok tt
   | GrpcServe _ => None
   end, x).

Definition on_run {X} (f : Cmd → string * option goerr) (h : handler X) : handler X := λ R c x,
  match c in call R return R * X with RunCmd c => (f c, x) | c => h _ c x end.
Definition on_stat {X} (f : string → res finfo) (h : handler X) : handler X := λ R c x,
  match c in call R return R * X with Stat p => (f p, x) | c => h _ c x end.
Definition on_file {X} (f : string → res string) (h : handler X) : handler X := λ R c x,
  match c in call R return R * X with ReadFile p => (f p, x) | c => h _ c x end.
Definition on_read {X} (f : string → Z → string * option goerr) (h : handler X) : handler X := λ R c x,
  match c in call R return R * X with ReadNext p n => (f p n, x) | c => h _ c x end.

(** ** The outside as a transition system

    [step e w w'] says how a call with its reply may change the part [w] of
    the outside.  [through step I F tr w]: in every evolution from [w] along
    the trace, [I] holds before and after each call, [F] at the end. *)
Section Through.
Context {W : Type} (step : event → W → W → Prop).

Fixpoint through (I F : W → Prop) (tr : trace) (w : W) : Prop :=
  I w ∧ match tr with
        | [] => F w
        | e :: tr => ∀ w1, step e w w1 → through I F tr w1
        end.

Lemma through_mono (I I' F F' : W → Prop) tr w :
  (∀ w, I w → I' w) → (∀ w, F w → F' w) → through I F tr w → through I' F' tr w.
Proof. intros HI HF. revert w. induction tr as [|e tr IH]; intros w; cbn; naive_solver. Qed.

Lemma through_app (I F G : W → Prop) t1 t2 w :
  through I F t1 w → (∀ w, F w → through I G t2 w) → through I G (t1 ++ t2) w.
Proof. intros H1 H2. revert w H1. induction t1 as [|e t1 IH]; intros w; cbn; naive_solver. Qed.

(** Calls that leave this part of the outside alone. *)
Lemma through_stutter (I : W → Prop) tr w :
  Forall (λ e, ∀ w w', step e w w' → w' = w) tr → I w → through I (λ w', w' = w) tr w.
Proof.
  intros Hs HI. induction Hs as [|e tr He _ IH]; cbn; [done|]. split; [done|].
  intros w1 Hw. by rewrite (He w w1 Hw).
Qed.
End Through.

(** ** Interleavings

    The process' memory is shared by goroutines.  Each atomic update of a
    program ([Upd]: a critical section under a mutex) may find the memory in
    any state other goroutines left it in; a call may be answered at any time
    with anything. *)
Inductive pool_step {S R} : list (prog S R) * S → list (prog S R) * S → Prop :=
  | step_upd ts1 ts2 B (f : S → B * S) (k : B → prog S R) s :
      pool_step (ts1 ++ Upd f k :: ts2, s) (ts1 ++ k (f s).1 :: ts2, (f s).2)
  | step_sys ts1 ts2 X (c : call X) (k : X → prog S R) s r :
      pool_step (ts1 ++ Sys c k :: ts2, s) (ts1 ++ k r :: ts2, s).

(** [stable I Q m]: every atomic update of [m] keeps the invariant [I] of the
    memory whatever happened in between, and the value returned is in [Q]. *)
Fixpoint stable {S A} (I : S → Prop) (Q : A → Prop) (m : prog S A) : Prop :=
  match m with
  | Ret a => Q a
  | Upd f k => ∀ s, I s → I (f s).2 ∧ stable I Q (k (f s).1)
  | Sys c k => ∀ r, stable I Q (k r)
  end.

(** Programs that only read the memory. *)
Section ReadOnly.
Context {S : Type}.

Fixpoint read_only {A} (m : prog S A) : Prop :=
  match m with
  | Ret _ => True
  | Upd f k => ∀ s, (f s).2 = s ∧ read_only (k (f s).1)
  | Sys c k => ∀ r, read_only (k r)
  end.
Lemma read_only_bind {A B} (m : prog S A) (f : A → prog S B) :
  read_only m → (∀ a, read_only (f a)) → read_only (bind m f).
Proof. intros Hm Hf. induction m as [a|T g k IH|R c k IH]; cbn in *; naive_solver. Qed.
Lemma read_only_bindE {A B} (m : prog S (res A)) (f : A → prog S (res B)) :
  read_only m → (∀ a, read_only (f a)) → read_only (bindE m f).
Proof. intros Hm Hf. apply read_only_bind; [done|]. by intros [a|e]. Qed.
Lemma exec_read_only {A} (m : prog S A) s tr a s' : read_only m → exec m s tr a s' → s' = s.
Proof.
  revert s tr. induction m as [x|B f k IH|R c k IH]; intros s tr; cbn.
  - by intros _ (_ & _ & ->).
  - intros H He. destruct (H s) as [E Hk]. rewrite E in He. eapply IH; eauto.
  - intros Hk (r & tr' & _ & He). eapply IH; eauto.
Qed.
End ReadOnly.

Ltac solve_read_only := repeat (cbn; first [done | case_match | intros ?]).

Section Stable.
Context {S : Type} (I : S → Prop).

Lemma stable_mono {A} (Q Q' : A → Prop) (m : prog S A) :
  (∀ a, Q a → Q' a) → stable I Q m → stable I Q' m.
Proof. intros HQ. induction m; cbn; naive_solver. Qed.

Lemma stable_bind {A B} (Q : A → Prop) (Q' : B → Prop) (m : prog S A) (f : A → prog S B) :
  stable I Q m → (∀ a, Q a → stable I Q' (f a)) → stable I Q' (bind m f).
Proof. intros Hm Hf. induction m as [a|T g k IH|R c k IH]; cbn in *; naive_solver. Qed.

Lemma stable_bindE {A B} (Q : A → Prop) (Q' : res B → Prop) (m : prog S (res A)) (f : A → prog S (res B)) :
  stable I (λ r, match r with Ok a => Q a | Err e => Q' (Err e) end) m →
  (∀ a, Q a → stable I Q' (f a)) → stable I Q' (bindE m f).
Proof. intros Hm Hf. eapply stable_bind; [exact Hm|]. intros [a|e]; cbn; auto. Qed.

Lemma stable_read_only {A} (m : prog S A) : read_only m → stable I (λ _, True) m.
Proof. induction m as [a|T g k IH|R c k IH]; cbn; intros H; [done| |auto].
  intros s Hs. destruct (H s) as [-> ?]. auto. Qed.

(** Goroutines that keep the invariant keep it in every interleaving, and
    what each returns is in the [Q] it was started with. *)
Lemma pool_invariant {R} (Qs : list (R → Prop)) ts s ts' s' :
  rtc pool_step (ts, s) (ts', s') → Forall2 (stable I) Qs ts → I s →
  Forall2 (stable I) Qs ts' ∧ I s'.
Proof.
  intros Hr. remember (ts, s) as x eqn:Ex. remember (ts', s') as y eqn:Ey.
  revert ts s Ex. induction Hr as [x|x y z Hxy _ IH]; intros ts s Ex Hts Hs.
  - rewrite Ex in Ey. by simplify_eq.
  - destruct Hxy as [ts1 ts2 B f k s0|ts1 ts2 X c k s0 r]; simplify_eq;
      apply Forall2_app_inv_r in Hts as (Q1 & Q2 & H1 & H2 & ->);
      apply Forall2_cons_inv_r in H2 as (Q & Q2' & Hm & H2 & ->); cbn in Hm;
      (eapply IH; [done|done|apply Forall2_app; [done|constructor; [apply Hm; done|done]]|]).
    + by apply Hm.
    + done.
Qed.
End Stable.

(** A program alone in its pool behaves as [exec] says. *)
Lemma exec_pool {S R} (m : prog S R) s tr a s' :
  exec m s tr a s' → rtc pool_step ([m], s) ([Ret a], s').
Proof.
  revert s tr. induction m as [x|B f k IH|X c k IH]; intros s tr; cbn.
  - intros (_ & -> & ->). reflexivity.
  - intros He. eapply rtc_l; [apply (step_upd [] [])|]. by eapply IH.
  - intros (r & tr' & -> & He). eapply rtc_l; [apply (step_sys [] [] _ c k s r)|]. by eapply IH.
Qed.

(** One goroutine alone: the value is in [Q] and the invariant is kept. *)
Lemma exec_stable {S A} (I : S → Prop) (Q : A → Prop) (m : prog S A) s tr a s' :
  exec m s tr a s' → stable I Q m → I s → Q a ∧ I s'.
Proof.
  revert s tr. induction m as [x|B f k IH|X c k IH]; intros s tr; cbn.
  - by intros (_ & -> & ->).
  - intros He Hs HI. destruct (Hs s HI). eauto.
  - intros (r & tr' & _ & He) Hs HI. eauto.
Qed.

(** ** Taking executions apart *)

Lemma exec_bindE {S A B} (m : prog S (res A)) (f : A → prog S (res B)) s tr r s' :
  exec (bindE m f) s tr r s' ↔
  (∃ t1 a s1 t2, tr = t1 ++ t2 ∧ exec m s t1 (Ok a) s1 ∧ exec (f a) s1 t2 r s') ∨
  (∃ e, r = Err e ∧ exec m s tr (Err e) s').
Proof.
  unfold bindE. rewrite exec_bind. split.
  - intros (t1 & [a|e] & s1 & t2 & -> & H1 & H2); [left; eauto 10|right].
    destruct H2 as (-> & -> & ->). exists e. by rewrite app_nil_r.
  - intros [(t1 & a & s1 & t2 & -> & H1 & H2)|(e & -> & H)].
    + exists t1, (Ok a), s1, t2. eauto.
    + exists tr, (Err e), s', []. by rewrite app_nil_r.
Qed.

(** The successful executions of a sequence of steps. *)
Lemma exec_bindE_ok {S A B} (m : prog S (res A)) (f : A → prog S (res B)) s tr b s' :
  exec (bindE m f) s tr (Ok b) s' →
  ∃ t1 a s1 t2, tr = t1 ++ t2 ∧ exec m s t1 (Ok a) s1 ∧ exec (f a) s1 t2 (Ok b) s'.
Proof. intros [H|(e & [=] & _)]%exec_bindE. done. Qed.

Lemma exec_wrap {S A} f (m : prog S (res A)) s tr r s' :
  exec (wrap f m) s tr r s' ↔ ∃ r0, exec m s tr r0 s' ∧ r = map_err f r0.
Proof.
  unfold wrap. rewrite exec_bind. split.
  - intros (t1 & a & s1 & t2 & -> & H & (-> & -> & ->)). rewrite app_nil_r. eauto.
  - intros (r0 & H & ->). exists tr, r0, s', []. by rewrite app_nil_r.
Qed.
Lemma exec_wrap_ok {S A} f (m : prog S (res A)) s tr a s' :
  exec (wrap f m) s tr (Ok a) s' ↔ exec m s tr (Ok a) s'.
Proof. rewrite exec_wrap. split; [by intros ([?|?] & ? & [= ->])|eauto]. Qed.

Lemma exec_lift_res {S A} (x : res A) (s : S) tr r s' :
  exec (lift_res x) s tr r s' ↔ tr = [] ∧ r = x ∧ s' = s.
Proof. done. Qed.

(** [saw m a h]: somewhere in the history [h], [m] ran and returned [a]. *)
Definition saw {S A} (m : prog S (res A)) (a : A) (h : trace) : Prop :=
  ∃ t1 t t2 s s', h = t1 ++ t ++ t2 ∧ exec m s t (Ok a) s'.

Lemma saw_here {S A} (m : prog S (res A)) a s t s' : exec m s t (Ok a) s' → saw m a t.
Proof. intros H. exists [], t, [], s, s'. by rewrite app_nil_r. Qed.
Lemma saw_app_l {S A} (m : prog S (res A)) a h1 h2 : saw m a h1 → saw m a (h1 ++ h2).
Proof.
  intros (t1 & t & t2 & s & s' & -> & H). exists t1, t, (t2 ++ h2), s, s'. by rewrite <- !app_assoc.
Qed.
Lemma saw_app_r {S A} (m : prog S (res A)) a h1 h2 : saw m a h2 → saw m a (h1 ++ h2).
Proof.
  intros (t1 & t & t2 & s & s' & -> & H). exists (h1 ++ t1), t, t2, s, s'. by rewrite <- !app_assoc.
Qed.
Create HintDb saw discriminated.
#[export] Hint Resolve saw_here saw_app_l saw_app_r : saw.

(** ** Views of the memory a program leaves alone *)
Section Keeps.
Context {S V : Type} (view : S → V).

Fixpoint keeps {A} (m : prog S A) : Prop :=
  match m with
  | Ret _ => True
  | Upd f k => ∀ s, view (f s).2 = view s ∧ keeps (k (f s).1)
  | Sys c k => ∀ r, keeps (k r)
  end.

Lemma keeps_bind {A B} (m : prog S A) (f : A → prog S B) :
  keeps m → (∀ a, keeps (f a)) → keeps (bind m f).
Proof. intros Hm Hf. induction m as [a|T g k IH|R c k IH]; cbn in *; naive_solver. Qed.
Lemma keeps_bindE {A B} (m : prog S (res A)) (f : A → prog S (res B)) :
  keeps m → (∀ a, keeps (f a)) → keeps (bindE m f).
Proof. intros Hm Hf. apply keeps_bind; [done|]. by intros [a|e]. Qed.
Lemma keeps_wrap {A} g (m : prog S (res A)) : keeps m → keeps (wrap g m).
Proof. intros Hm. by apply keeps_bind. Qed.
Lemma keeps_for_each {A} (l : list A) (f : A → prog S (res unit)) :
  (∀ x, keeps (f x)) → keeps (for_each l f).
Proof. intros Hf. induction l as [|x l IH]; [done|]. by apply keeps_bindE. Qed.
Lemma keeps_for_all {A} (l : list A) (f : A → prog S unit) :
  (∀ x, keeps (f x)) → keeps (for_all l f).
Proof. intros Hf. induction l as [|x l IH]; [done|]. by apply keeps_bind. Qed.
Lemma keeps_read_only {A} (m : prog S A) : read_only m → keeps m.
Proof.
  induction m as [a|T g k IH|R c k IH]; cbn; intros H; [done| |auto].
  intros s. destruct (H s) as [-> ?]. auto.
Qed.

Lemma keeps_loop_pos {St A} p (body : St → prog S (St + A)) st :
  (∀ st, keeps (body st)) → keeps (loop_pos p body st).
Proof.
  intros Hb. revert st. induction p as [p IH|p IH|]; intros st; cbn [loop_pos].
  - apply keeps_bind; [done|]. intros [st'|a]; [|done].
    apply keeps_bind; [done|]. by intros [st''|a].
  - apply keeps_bind; [done|]. by intros [st'|a].
  - done.
Qed.

Lemma exec_keeps {A} (m : prog S A) s tr a s' : keeps m → exec m s tr a s' → view s' = view s.
Proof.
  revert s tr. induction m as [x|B f k IH|R c k IH]; intros s tr; cbn.
  - by intros _ (_ & _ & ->).
  - intros H He. destruct (H s) as [E Hk]. rewrite <- E. eauto.
  - intros Hk (r & tr' & _ & He). eauto.
Qed.
End Keeps.

(** A part of the memory under a lens that does not touch the view. *)
Lemma keeps_zoom_other {S T V A} (view : T → V) (l : lens S T) (m : prog S A) :
  (∀ x t, view (lset l x t) = view t) → keeps view (zoom l m).
Proof.
  intros Hv. induction m as [a|B f k IH|R c k IH]; cbn; [done| |auto].
  intros t. destruct (f (lget l t)). cbn. auto.
Qed.
(** A part of the memory under a lens through which the view looks. *)
Lemma keeps_zoom {S T V A} (view : S → V) (l : lens S T) `{!LensOk l} (m : prog S A) :
  keeps view m → keeps (λ t, view (lget l t)) (zoom l m).
Proof.
  induction m as [a|B f k IH|R c k IH]; cbn; [done| |auto].
  intros H t. specialize (H (lget l t)). destruct (f (lget l t)). cbn in *. rewrite lens_get_set. naive_solver.
Qed.

(** [keeps_step] follows the shape of the program, as [emits_step] does. *)
Ltac keeps_step :=
  lazymatch goal with
  | |- keeps _ (Ret _) => exact I
  | |- keeps _ (ok _) => exact I
  | |- keeps _ (fail _) => exact I
  | |- keeps _ (failS _ _) => exact I
  | |- keeps _ (lift_res _) => exact I
  | |- keeps _ (sys _) => exact (λ _, I)
  | |- keeps _ (Run _ _) => exact (λ _, I)
  | |- keeps _ (gets _) => exact (λ _, conj eq_refl I)
  | |- keeps _ (modify _) => exact (λ _, conj eq_refl I)
  | |- keeps _ (bind _ _) => apply keeps_bind; [|intros]
  | |- keeps _ (bindE _ _) => apply keeps_bindE; [|intros]
  | |- keeps _ (wrap _ _) => apply keeps_wrap
  | |- keeps _ (for_each _ _) => apply keeps_for_each; intros
  | |- keeps _ (for_all _ _) => apply keeps_for_all; intros
  | |- keeps _ (with_lock _ _) => unfold with_lock
  | |- keeps _ (if ?b then _ else _) => destruct b
  | |- keeps _ (match ?x with _ => _ end) => destruct x
  end.
Create HintDb keeps discriminated.
Ltac solve_keeps := repeat first [ solve [eauto with keeps] | keeps_step ].

(** A program over a memory of its own, inside another. *)
Fixpoint local {S T A} (s : S) (m : prog S A) : prog T (A * S) :=
  match m with
  | Ret a => Ret (a, s)
  | Upd f k => local (f s).2 (k (f s).1)
  | Sys c k => Sys c (λ r, local s (k r))
  end.
Lemma exec_local {S T A} (m : prog S A) s (t : T) tr r t' :
  exec (local s m) t tr r t' ↔ t' = t ∧ exec m s tr r.1 r.2.
Proof.
  revert s tr. induction m as [a|B f k IH|R c k IH]; intros s tr; cbn.
  - destruct r as [x y]. cbn. naive_solver.
  - apply IH.
  - setoid_rewrite IH. naive_solver.
Qed.
