(* ===== verification/Locks.v ===== *)
(** Goroutines and mutexes.

    [Effects] answers [LockMu] like any other call.  Here it blocks: a pool of
    goroutines runs on one memory, each knows the mutexes it holds, and a
    mutex is locked only when no goroutine holds it.  The discipline [safe]
    says of one program that it locks in the order of a rank, unlocks the
    mutex it locked last, ends with none held, and changes the memory only as
    the mutexes it holds allow.  Programs that keep it never deadlock: every
    run of the pool, under every scheduler, ends with all of them returned. *)

From Stdlib Require Import Lia.
From stdpp Require Import base option strings list relations.
From S2P Require Import Prelude GoStrings Effects.

Local Open Scope prog_scope.

(** ** The pool *)
Section Pool.
Context {S R : Type}.

(** A goroutine: the mutexes it holds, the last locked first, and the rest of
    its program. *)
Definition goroutine : Type := list string * prog S R.

(** One occurrence of a mutex leaves the list of those held. *)
Fixpoint release (l : string) (h : list string) : list string :=
  match h with
  | [] => []
  | x :: h => if decide (x = l) then h else x :: release l h
  end.

(** [Lock] waits while anyone holds the mutex, the goroutine itself too;
    [Unlock] of a mutex that is not held is a fatal error: no step. *)
Definition can_call (h others : list string) {X} (c : call X) : Prop :=
  match c with
  | LockMu l => (l ∉ h) ∧ (l ∉ others)
  | UnlockMu l => l ∈ h
  | _ => True
  end.
Definition held_after (h : list string) {X} (c : call X) : list string :=
  match c with
  | LockMu l => l :: h
  | UnlockMu l => release l h
  | _ => h
  end.

(** A step of one goroutine while the others hold [others]. *)
Definition go_step (others : list string) (g : goroutine) (s : S) (g' : goroutine) (s' : S) : Prop :=
  match g.2 with
  | Ret _ => False
  | Upd f k => g' = (g.1, k (f s).1) ∧ s' = (f s).2
  | Sys c k => s' = s ∧ can_call g.1 others c ∧ ∃ r, g' = (held_after g.1 c, k r)
  end.

Definition all_held (gs : list goroutine) : list string := concat gs.*1.

Inductive mu_step : list goroutine * S → list goroutine * S → Prop :=
  | mu_go gs1 g gs2 s g' s' :
      go_step (all_held (gs1 ++ gs2)) g s g' s' → mu_step (gs1 ++ g :: gs2, s) (gs1 ++ g' :: gs2, s').

(** All returned, with no mutex held. *)
Definition finished (gs : list goroutine) : Prop := Forall (λ g, ∃ a, g = ([], Ret a)) gs.
End Pool.
Arguments goroutine : clear implicits.

(** On every run [P] comes to hold: there is a next step until it does, and
    whichever step is taken it still comes to hold. *)
Inductive inevitably {C : Type} (step : C → C → Prop) (P : C → Prop) (c : C) : Prop :=
  | inev_now : P c → inevitably step P c
  | inev_later : (∃ c', step c c') → (∀ c', step c c' → inevitably step P c') → inevitably step P c.

Lemma inevitably_reaches {C} (step : C → C → Prop) P c : inevitably step P c → ∃ c', rtc step c c' ∧ P c'.
Proof.
  induction 1 as [c Hc|c [c1 Hs] _ IH]; [by exists c|].
  destruct (IH c1 Hs) as (c' & Hr & Hc). exists c'. split; [by eapply rtc_l|done].
Qed.

(** ** The discipline *)
Section Safe.
Context {S : Type} (rank : string → nat) (I : S → Prop) (G : list string → S → S → Prop).

Definition in_order (h : list string) {X} (c : call X) : Prop :=
  match c with
  | LockMu l => Forall (λ x, rank x < rank l) h
  | UnlockMu l => head h = Some l
  | _ => True
  end.

(** [safe h m Q]: started with the mutexes [h], whatever the others do to the
    memory within [I] between its steps, [m] locks in order, keeps [I] and
    changes the memory as [G] of the mutexes held allows, and returns with
    mutexes and a value in [Q]. *)
Fixpoint safe {A} (h : list string) (m : prog S A) (Q : list string → A → Prop) : Prop :=
  match m with
  | Ret a => Q h a
  | Upd f k => ∀ s, I s → I (f s).2 ∧ G h s (f s).2 ∧ safe h (k (f s).1) Q
  | Sys c k => in_order h c ∧ ∀ r, safe (held_after h c) (k r) Q
  end.

(** The same for a program that returns with the mutexes it started with. *)
Definition calm {A} (h : list string) (m : prog S A) (Q : A → Prop) : Prop :=
  safe h m (λ h' a, h' = h ∧ Q a).

Lemma safe_mono {A} h (m : prog S A) (Q Q' : list string → A → Prop) :
  (∀ h a, Q h a → Q' h a) → safe h m Q → safe h m Q'.
Proof. intros HQ. revert h. induction m as [a|B f k IH|X c k IH]; intros h; cbn; naive_solver. Qed.
Lemma safe_bind {A B} h (m : prog S A) (f : A → prog S B) Q Q' :
  safe h m Q → (∀ h a, Q h a → safe h (f a) Q') → safe h (bind m f) Q'.
Proof. intros Hm Hf. revert h Hm. induction m as [a|T g k IH|X c k IH]; intros h; cbn; naive_solver. Qed.

Section Calm.
Context (h : list string).

Lemma calm_ret {A} (a : A) (Q : A → Prop) : Q a → calm h (Ret a) Q.
Proof. by split. Qed.
Lemma calm_mono {A} (m : prog S A) (Q Q' : A → Prop) : (∀ a, Q a → Q' a) → calm h m Q → calm h m Q'.
Proof. intros HQ. apply safe_mono. naive_solver. Qed.
Lemma calm_bind {A B} (m : prog S A) (f : A → prog S B) (Q : A → Prop) Q' :
  calm h m Q → (∀ a, Q a → calm h (f a) Q') → calm h (bind m f) Q'.
Proof. intros Hm Hf. eapply safe_bind; [exact Hm|]. intros ? a [-> Ha]. by apply Hf. Qed.

(** A program all of whose results are allowed. *)
Lemma calm_seq {A B} (m : prog S A) (f : A → prog S B) :
  calm h m (λ _, True) → (∀ a, calm h (f a) (λ _, True)) → calm h (bind m f) (λ _, True).
Proof. intros Hm Hf. eapply calm_bind; [exact Hm|auto]. Qed.
Lemma calm_seqE {A B} (m : prog S (res A)) (f : A → prog S (res B)) :
  calm h m (λ _, True) → (∀ a, calm h (f a) (λ _, True)) → calm h (bindE m f) (λ _, True).
Proof. intros Hm Hf. apply calm_seq; [done|]. intros [a|e]; [auto|by apply calm_ret]. Qed.
Lemma calm_wrap {A} g (m : prog S (res A)) : calm h m (λ _, True) → calm h (wrap g m) (λ _, True).
Proof. intros Hm. apply calm_seq; [done|]. intros. by apply calm_ret. Qed.
Lemma calm_for_each {A} (l : list A) (f : A → prog S (res unit)) :
  (∀ x, calm h (f x) (λ _, True)) → calm h (for_each l f) (λ _, True).
Proof. intros Hf. induction l as [|x l IH]; [by apply calm_ret|]. by apply calm_seqE. Qed.
Lemma calm_for_all {A} (l : list A) (f : A → prog S unit) :
  (∀ x, calm h (f x) (λ _, True)) → calm h (for_all l f) (λ _, True).
Proof. intros Hf. induction l as [|x l IH]; [by apply calm_ret|]. by apply calm_seq. Qed.

(** A critical section: its mutex comes after all that are held. *)
Lemma calm_lock {A} l (m : prog S A) Q :
  Forall (λ x, rank x < rank l) h → safe (l :: h) m (λ h' a, h' = l :: h ∧ Q a) → calm h (with_lock l m) Q.
Proof.
  intros Hl Hm. split; [exact Hl|]. intros []. cbn [bind sys held_after]. eapply safe_bind; [exact Hm|].
  intros ? a [-> Ha]. split; [done|]. intros []. cbn. by rewrite decide_True.
Qed.
End Calm.
End Safe.

(** Programs that touch neither the memory nor a mutex. *)
Section Silent.
Context {S : Type}.

Definition is_mutex {X} (c : call X) : bool :=
  match c with LockMu _ | UnlockMu _ => true | _ => false end.

Fixpoint silent {A} (m : prog S A) : Prop :=
  match m with
  | Ret _ => True
  | Upd _ _ => False
  | Sys c k => is_mutex c = false ∧ ∀ r, silent (k r)
  end.

Lemma silent_bind {A B} (m : prog S A) (f : A → prog S B) : silent m → (∀ a, silent (f a)) → silent (bind m f).
Proof. intros Hm Hf. induction m as [a|T g k IH|X c k IH]; cbn in *; naive_solver. Qed.
Lemma silent_bindE {A B} (m : prog S (res A)) (f : A → prog S (res B)) :
  silent m → (∀ a, silent (f a)) → silent (bindE m f).
Proof. intros Hm Hf. apply silent_bind; [done|]. by intros [a|e]. Qed.
Lemma silent_wrap {A} g (m : prog S (res A)) : silent m → silent (wrap g m).
Proof. intros Hm. by apply silent_bind. Qed.
Lemma silent_for_each {A} (l : list A) (f : A → prog S (res unit)) : (∀ x, silent (f x)) → silent (for_each l f).
Proof. intros Hf. induction l as [|x l IH]; [done|]. by apply silent_bindE. Qed.
Lemma silent_for_all {A} (l : list A) (f : A → prog S unit) : (∀ x, silent (f x)) → silent (for_all l f).
Proof. intros Hf. induction l as [|x l IH]; [done|]. by apply silent_bind. Qed.
Lemma silent_loop_pos {St A} p (body : St → prog S (St + A)) st :
  (∀ st, silent (body st)) → silent (loop_pos p body st).
Proof.
  intros Hb. revert st. induction p as [p IH|p IH|]; intros st; cbn [loop_pos].
  - apply silent_bind; [done|]. intros [st'|a]; [|done]. apply silent_bind; [done|]. by intros [st''|a].
  - apply silent_bind; [done|]. by intros [st'|a].
  - done.
Qed.

Lemma calm_silent {A} rank I G h (m : prog S A) : silent m → calm rank I G h m (λ _, True).
Proof.
  induction m as [a|T g k IH|X c k IH]; cbn; [done|done|]. intros [Hc Hk]. split.
  - by destruct c.
  - intros r. replace (held_after h c) with h by (by destruct c). by apply IH.
Qed.
End Silent.

Ltac silent_step :=
  lazymatch goal with
  | |- silent (Ret _) => exact Logic.I
  | |- silent (ok _) => exact Logic.I
  | |- silent (fail _) => exact Logic.I
  | |- silent (failS _ _) => exact Logic.I
  | |- silent (lift_res _) => exact Logic.I
  | |- silent (sys _) => exact (conj eq_refl (λ _, Logic.I))
  | |- silent (Run _ _) => exact (conj eq_refl (λ _, Logic.I))
  | |- silent (Sys _ _) => split; [reflexivity|intros]
  | |- silent (bind _ _) => apply silent_bind; [|intros]
  | |- silent (bindE _ _) => apply silent_bindE; [|intros]
  | |- silent (wrap _ _) => apply silent_wrap
  | |- silent (for_each _ _) => apply silent_for_each; intros
  | |- silent (for_all _ _) => apply silent_for_all; intros
  | |- silent (loop_pos _ _ _) => apply silent_loop_pos; intros
  | |- silent (if ?b then _ else _) => destruct b
  | |- silent (match ?x with _ => _ end) => destruct x
  end.
Create HintDb silent discriminated.
Ltac solve_silent := repeat first [ solve [eauto with silent] | silent_step ].

(** A component's discipline inside a larger memory. *)
Lemma safe_zoom {S T A} rank (l : lens S T) `{!LensOk l} (I : S → Prop) (J : T → Prop)
    (G : list string → S → S → Prop) (G' : list string → T → T → Prop) h (m : prog S A) Q :
  (∀ t, J t → I (lget l t)) →
  (∀ h t x, J t → I x → G h (lget l t) x → J (lset l x t) ∧ G' h t (lset l x t)) →
  safe rank I G h m Q → safe rank J G' h (zoom l m) Q.
Proof.
  intros Hget Hset. revert h. induction m as [a|B f k IH|X c k IH]; intros h; cbn; [done| |naive_solver].
  intros Hm t Ht. destruct (Hm (lget l t) (Hget t Ht)) as (H1 & H2 & H3).
  destruct (f (lget l t)) as [b x]. cbn in *. destruct (Hset h t x Ht H1 H2). auto.
Qed.

(** ** What the discipline gives *)
Section Discipline.
Context {S R : Type} (rank : string → nat) (I : S → Prop) (G : list string → S → S → Prop).
Implicit Types (g : goroutine S R) (gs : list (goroutine S R)).

(** A goroutine that keeps the discipline to its end. *)
Definition disciplined (g : goroutine S R) : Prop := safe rank I G g.1 g.2 (λ h _, h = []).

(** Of the pool: each goroutine is disciplined and no mutex is held twice. *)
Definition PoolInv (c : list (goroutine S R) * S) : Prop :=
  Forall disciplined c.1 ∧ NoDup (all_held c.1) ∧ I c.2.

Lemma all_held_middle gs1 g gs2 : all_held (gs1 ++ g :: gs2) ≡ₚ g.1 ++ all_held (gs1 ++ gs2).
Proof.
  unfold all_held. rewrite !fmap_app, !concat_app. cbn. rewrite !app_assoc.
  apply Permutation_app; [|done]. apply Permutation_app_comm.
Qed.

(** One step of a disciplined goroutine. *)
Lemma go_step_safe others g s g' s' :
  go_step others g s g' s' → disciplined g → I s → NoDup (g.1 ++ others) →
  disciplined g' ∧ I s' ∧ (s' = s ∨ G g.1 s s') ∧ NoDup (g'.1 ++ others).
Proof.
  destruct g as [h m]. unfold go_step, disciplined. cbn. destruct m as [a|B f k|X c k]; [done|..].
  - intros [-> ->] Hd HI Hn. destruct (Hd s HI) as (H1 & H2 & H3). cbn. auto.
  - intros (-> & Hc & r & ->) [Ho Hd] HI Hn. cbn. split_and!; [by apply Hd|done|by left|].
    destruct c; cbn in *; try done.
    + destruct Hc. constructor; [|done]. rewrite elem_of_app. tauto.
    + destruct h as [|x h]; [done|]. injection Ho as ->. cbn. rewrite decide_True by done. by inversion Hn.
Qed.

Lemma mu_step_inv c c' : mu_step c c' → PoolInv c → PoolInv c'.
Proof.
  intros [gs1 g gs2 s g' s' Hs] (Hd & Hn & HI). unfold PoolInv in *. cbn [fst snd] in *.
  rewrite all_held_middle in Hn. apply Forall_app in Hd as [H1 H2]. inversion H2 as [|?? Hg H3]; subst.
  destruct (go_step_safe _ _ _ _ _ Hs Hg HI Hn) as (Hg' & HI' & _ & Hn').
  split_and!; [apply Forall_app; split; [done|by constructor]|by rewrite all_held_middle|done].
Qed.
Lemma mu_steps_inv c c' : rtc mu_step c c' → PoolInv c → PoolInv c'.
Proof. induction 1; eauto using mu_step_inv. Qed.

(** *** No deadlock *)

(** What a goroutine that cannot go on waits for. *)
Definition waits_for g (l : string) : Prop :=
  match g.2 with
  | Sys c _ => match c with LockMu l' => l' = l | _ => False end
  | _ => False
  end.

Definition can_go (gs : list (goroutine S R)) (s : S) : Prop := ∃ c', mu_step (gs, s) c'.

(** A disciplined goroutine has returned, can go on, or waits for a mutex that
    comes after all it holds and that some goroutine holds. *)
Lemma disciplined_cases gs s g :
  g ∈ gs → disciplined g → NoDup (all_held gs) →
  (∃ a, g = ([], Ret a)) ∨ can_go gs s ∨
  ∃ l, Forall (λ x, rank x < rank l) g.1 ∧ waits_for g l ∧ l ∈ all_held gs.
Proof.
  intros (gs1 & gs2 & ->)%list_elem_of_split Hd Hn. rewrite all_held_middle in Hn.
  set (others := all_held (gs1 ++ gs2)) in *. setoid_rewrite all_held_middle. fold others.
  assert (∀ g' s', go_step others g s g' s' → can_go (gs1 ++ g :: gs2) s) as Hgo
    by (intros g' s' Hs; eexists; by apply mu_go).
  destruct g as [h m]. unfold disciplined in Hd. cbn in Hd, Hn |- *. destruct m as [a|B f k|X c k].
  - left. cbn in Hd. subst h. eauto.
  - right; left. by eapply (Hgo (_, _)).
  - destruct Hd as [Ho Hd].
    assert (can_call h others c → can_go (gs1 ++ (h, Sys c k) :: gs2) s) as Hcall.
    { intros Hc. eapply (Hgo (held_after h c, k (quiet _ c tt).1)). cbn. eauto. }
    destruct c; try (right; left; by apply Hcall); cbn in Ho, Hcall.
    + destruct (decide (name ∈ h ++ others)) as [Hin|Hni]; [right; right; by exists name|].
      rewrite elem_of_app in Hni. right; left. apply Hcall. tauto.
    + right; left. apply Hcall. destruct h; [done|]. injection Ho as ->. left.
Qed.

(** If some goroutine waits, then some can go on: follow who holds the mutex
    waited for; ranks grow along the way. *)
Lemma waiter_progress gs s top :
  Forall disciplined gs → NoDup (all_held gs) → (∀ l, rank l < top) →
  ∀ n l, top - rank l ≤ n → l ∈ all_held gs → can_go gs s.
Proof.
  intros Hd Hn Htop n. induction n as [|n IH]; intros l Hl Hin; [specialize (Htop l); lia|].
  unfold all_held in Hin. apply list_elem_of_In, in_concat in Hin as (h & Hg%list_elem_of_In & Hlh%list_elem_of_In).
  apply list_elem_of_fmap in Hg as (g & -> & Hg).
  destruct (disciplined_cases gs s g) as [(a & ->)|[?|(l' & Ho & _ & Hin')]]; try done.
  - rewrite Forall_forall in Hd. by apply Hd.
  - by apply elem_of_nil in Hlh.
  - rewrite Forall_forall in Ho. specialize (Ho l Hlh). cbn in Ho. apply (IH l'); [lia|done].
Qed.

Lemma pool_progress gs s top :
  PoolInv (gs, s) → (∀ l, rank l < top) → finished gs ∨ can_go gs s.
Proof.
  intros (Hd & Hn & _) Htop. cbn [fst snd] in *.
  assert (∀ gs', (∀ g, g ∈ gs' → g ∈ gs) → finished gs' ∨ can_go gs s) as H.
  { induction gs' as [|g gs' IH]; intros Hsub; [left; constructor|].
    destruct (disciplined_cases gs s g) as [Ha|[?|(l & _ & _ & Hin)]]; [apply Hsub; left| |done| |auto|].
    - rewrite Forall_forall in Hd. apply Hd, Hsub. left.
    - destruct IH as [?|?]; [|by left; constructor|by right]. intros g' Hg'. apply Hsub. by right.
    - right. by eapply waiter_progress. }
  by apply H.
Qed.

(** *** No infinite run *)

(** What is left of a goroutine's program after a step. *)
Definition shrinks g' g : Prop :=
  match g.2 with
  | Ret _ => False
  | Upd f k => ∃ b, g'.2 = k b
  | Sys c k => ∃ r, g'.2 = k r
  end.
Lemma shrinks_acc g : Acc shrinks g.
Proof.
  destruct g as [h m]. revert h. induction m as [a|B f k IH|X c k IH]; intros h; constructor;
    intros [h' m']; unfold shrinks; cbn; [done|..]; intros [x ->]; apply IH.
Qed.

Definition pool_shrinks (gs' gs : list (goroutine S R)) : Prop :=
  ∃ gs1 g g' gs2, gs = gs1 ++ g :: gs2 ∧ gs' = gs1 ++ g' :: gs2 ∧ shrinks g' g.
Lemma pool_shrinks_acc gs : Acc pool_shrinks gs.
Proof.
  induction gs as [|g gs IH].
  - constructor. intros gs' ([|] & ? & ? & ? & [=] & _).
  - revert g. induction IH as [gs _ IHgs]. intros g. induction (shrinks_acc g) as [g _ IHg].
    constructor. intros gs' ([|g0 gs1] & x & x' & gs2 & E & -> & Hx); cbn in E; simplify_eq.
    + by apply IHg.
    + apply IHgs. exists gs1, x, x', gs2. done.
Qed.

Lemma mu_step_shrinks c c' : mu_step c c' → pool_shrinks c'.1 c.1.
Proof.
  intros [gs1 g gs2 s0 g' s' Hs]. exists gs1, g, g', gs2.
  split_and!; [done..|]. destruct g as [h [a|B f k|X q k]]; unfold go_step, shrinks in *; cbn in *; [done|..].
  - destruct Hs as [-> _]. eauto.
  - destruct Hs as (_ & _ & r & ->). eauto.
Qed.

(** *** Disciplined goroutines all return *)
Lemma pool_completes gs s top :
  PoolInv (gs, s) → (∀ l, rank l < top) → inevitably mu_step (λ c, finished c.1 ∧ I c.2) (gs, s).
Proof.
  intros HP Htop. revert s HP. induction (pool_shrinks_acc gs) as [gs _ IH]. intros s HP.
  destruct (pool_progress gs s top HP Htop) as [Hf|Hgo].
  - apply inev_now. split; [done|apply HP].
  - apply inev_later; [done|]. intros [gs' s'] Hs.
    apply IH; [by apply mu_step_shrinks in Hs|by eapply mu_step_inv].
Qed.
End Discipline.

(** ** Running a pool

    [schedule] runs the goroutines in the order the list of indices says,
    against a concrete outside; it fails when the one to go is blocked or has
    returned. *)
Section Schedule.
Context {S R X : Type} (outside : handler X).

#[export] Instance can_call_dec h others {Y} (c : call Y) : Decision (can_call h others c).
Proof. destruct c; cbn; apply _. Defined.

Definition step_of (i : nat) (c : list (goroutine S R) * S * X) : option (list (goroutine S R) * S * X) :=
  let '(gs, s, x) := c in
  match gs !! i with
  | Some (h, Upd f k) => Some (<[i := (h, k (f s).1)]> gs, (f s).2, x)
  | Some (h, Sys c k) =>
      if decide (can_call h (all_held (delete i gs)) c)
      then Some (<[i := (held_after h c, k (outside _ c x).1)]> gs, s, (outside _ c x).2)
      else None
  | _ => None
  end.
Fixpoint schedule (l : list nat) (c : list (goroutine S R) * S * X) : option (list (goroutine S R) * S * X) :=
  match l with
  | [] => Some c
  | i :: l => match step_of i c with Some c' => schedule l c' | None => None end
  end.

(** A scheduled step is a step of goroutine [i]. *)
Lemma step_of_sound i gs s x gs' s' x' :
  step_of i (gs, s, x) = Some (gs', s', x') →
  ∃ g g', gs = take i gs ++ g :: drop (Datatypes.S i) gs ∧ gs' = take i gs ++ g' :: drop (Datatypes.S i) gs ∧
          go_step (all_held (take i gs ++ drop (Datatypes.S i) gs)) g s g' s'.
Proof.
  cbn. destruct (gs !! i) as [[h m]|] eqn:E; [|done]. intros Hs. exists (h, m).
  rewrite delete_take_drop in Hs. pose proof (lookup_lt_Some _ _ _ E) as Hi.
  destruct m as [a|B f k|Y c k]; [done|..]; [|destruct (decide _); [|done]]; injection Hs as <- <- <-; eexists;
    (split; [by rewrite (take_drop_middle gs i)|]); (split; [by rewrite insert_take_drop|]); cbn; eauto.
Qed.
Lemma schedule_sound l gs s x gs' s' x' :
  schedule l (gs, s, x) = Some (gs', s', x') → rtc mu_step (gs, s) (gs', s').
Proof.
  revert gs s x. induction l as [|i l IH]; intros gs s x; cbn [schedule].
  - intros [= -> -> ->]. reflexivity.
  - destruct (step_of i (gs, s, x)) as [[[gs1 s1] x1]|] eqn:E; [|done]. intros Hl.
    apply step_of_sound in E as (g & g' & E1 & E2 & Hg). eapply rtc_l; [|by eapply IH].
    rewrite E1 at 1. rewrite E2. by apply mu_go.
Qed.
End Schedule.
