(* ===== verification/Flag.v ===== *)
(** Go's flag package, as the command-line tools use it, and the integer
    syntax of strconv.ParseInt with base 0.

    A flag set is a list of flags; each stores its value in the variables [V]
    of the command. *)

From Stdlib Require Import ZArith Lia Ascii.
From stdpp Require Import base option strings list.
From S2P Require Import Prelude GoStrings Effects.

Import strings.
Local Open Scope Z_scope.

(** ** Integers *)

(** The value of a digit in bases up to 36. *)
Definition digit_value (c : ascii) : option Z :=
  let n := Z.of_nat (nat_of_ascii c) in
  let l := Z.of_nat (nat_of_ascii (lower c)) in
  if bool_decide (48 ≤ n ≤ 57) then Some (n - 48)
  else if bool_decide (97 ≤ l ≤ 122) then Some (l - 87) else None.

(** The digits of a number in a base; underscores are passed over. *)
Fixpoint digits_base (base acc : Z) (s : string) : option Z :=
  match s with
  | "" => Some acc
  | String c s =>
      if bool_decide (c = "_"%char) then digits_base base acc s else
      match digit_value c with
      | Some d => if bool_decide (d < base) then digits_base base (acc * base + d) s else None
      | None => None
      end
  end.

(** The base and the digits of a number without a sign. *)
Definition base_prefix (s : string) : Z * string :=
  match s with
  | String "0" (String c (String _ _ as rest)) =>
      if bool_decide (lower c = "b"%char) then (2, rest)
      else if bool_decide (lower c = "o"%char) then (8, rest)
      else if bool_decide (lower c = "x"%char) then (16, rest)
      else (8, String c rest)
  | String "0" rest => (8, rest)
  | _ => (10, s)
  end.

(** Underscores separate digits, or follow the prefix; [sep] says that the
    last character was one, [dig] that it was a digit or the prefix. *)
Fixpoint underscores_ok (hex dig sep : bool) (s : string) : bool :=
  match s with
  | "" => negb sep
  | String c s =>
      let n := Z.of_nat (nat_of_ascii c) in
      let l := Z.of_nat (nat_of_ascii (lower c)) in
      if bool_decide (48 ≤ n ≤ 57) || hex && bool_decide (97 ≤ l ≤ 102) then underscores_ok hex true false s
      else if bool_decide (c = "_"%char) then dig && underscores_ok hex false true s
      else negb sep && underscores_ok hex false false s
  end.
Definition underscoreOK (s : string) : bool :=
  match s with
  | String "0" (String c rest) =>
      let l := lower c in
      if bool_decide (l = "b"%char) || bool_decide (l = "o"%char) || bool_decide (l = "x"%char)
      then underscores_ok (bool_decide (l = "x"%char)) true false rest
      else underscores_ok false false false s
  | _ => underscores_ok false false false s
  end.

(** [strconv.ParseInt(s, 0, 64)]. *)
Definition ParseInt (s : string) : res Z :=
  let '(neg, u) := match s with
                   | String "-" u => (true, u)
                   | String "+" u => (false, u)
                   | _ => (false, s)
                   end in
  if bool_decide (u = "") then Err (ErrMsg "invalid syntax") else
  let '(base, ds) := base_prefix u in
  match digits_base base 0 ds with
  | None => Err (ErrMsg "invalid syntax")
  | Some n =>
      if negb (underscoreOK u) then Err (ErrMsg "invalid syntax")
      else let n := if (neg : bool) then - n else n in
           if bool_decide (int64_min ≤ n ≤ int64_max) then Ok n else Err (ErrMsg "value out of range")
  end.

(** [strconv.ParseBool]. *)
Definition ParseBool (s : string) : res bool :=
  if bool_decide (s ∈ ["1"; "t"; "T"; "TRUE"; "true"; "True"]) then Ok true
  else if bool_decide (s ∈ ["0"; "f"; "F"; "FALSE"; "false"; "False"]) then Ok false
  else Err (ErrMsg "invalid syntax").

(** ** Flags *)
Section Flags.
Context {V : Type}.

(** A boolean flag takes a value only after an equal sign. *)
Record flag := mkFlag { fg_name : string; fg_bool : bool; fg_set : string → V → res V }.

(** How an argument reads: not a flag, the end of the flags, a flag with or
    without a value, or a syntax error. *)
Inductive argument := Plain | Dashes | Flag (name : string) (value : option string) | Malformed.

Definition flag_word (name : string) : argument :=
  match name with
  | "" => Malformed
  | String c _ =>
      if bool_decide (c = "-"%char) || bool_decide (c = "="%char) then Malformed else
      match Index name "=" with
      | Some i => Flag (stake i name) (Some (sdrop (S i) name))
      | None => Flag name None
      end
  end.
Definition read_argument (s : string) : argument :=
  match s with
  | String "-" (String "-" "") => Dashes
  | String "-" (String "-" name) => flag_word name
  | String "-" (String c name) => flag_word (String c name)
  | _ => Plain
  end.

(** What parsing ends with: the arguments left and the variables, or the exit
    code of a command whose flag set exits on errors. *)
Inductive parsing := Parsed (args : list string) (v : V) | Exits (code : Z).

(** [FlagSet.Parse] with [ExitOnError]. *)
Fixpoint Parse (fs : list flag) (args : list string) (v : V) : parsing :=
  match args with
  | [] => Parsed [] v
  | s :: rest =>
      match read_argument s with
      | Plain => Parsed args v
      | Dashes => Parsed rest v
      | Malformed => Exits 2
      | Flag name value =>
          match List.find (λ f, bool_decide (fg_name f = name)) fs with
          | None => Exits (if bool_decide (name = "help") || bool_decide (name = "h") then 0 else 2)
          | Some f =>
              match value with
              | Some x => match fg_set f x v with Ok v => Parse fs rest v | Err _ => Exits 2 end
              | None =>
                  if fg_bool f then match fg_set f "true" v with Ok v => Parse fs rest v | Err _ => Exits 2 end else
                  match rest with
                  | [] => Exits 2
                  | x :: rest => match fg_set f x v with Ok v => Parse fs rest v | Err _ => Exits 2 end
                  end
              end
          end
      end
  end.

(** A flag of the set followed by its value is taken, whatever the value. *)
Lemma Parse_pair fs f name x rest v v' :
  read_argument (String "-" name) = Flag name None →
  List.find (λ f, bool_decide (fg_name f = name)) fs = Some f → fg_bool f = false →
  fg_set f x v = Ok v' → Parse fs (String "-" name :: x :: rest) v = Parse fs rest v'.
Proof. intros E1 E2 E3 E4. cbn [Parse]. by rewrite E1, E2, E3, E4. Qed.
End Flags.
Arguments flag : clear implicits.
Arguments parsing : clear implicits.

Example ParseInt_forms :
  ParseInt "134217728" = Ok 134217728 ∧ ParseInt "0x10" = Ok 16 ∧ ParseInt "-1_000" = Ok (-1000) ∧
  ParseInt "010" = Ok 8 ∧ ParseInt "0" = Ok 0 ∧ ParseInt "_1" = Err (ErrMsg "invalid syntax") ∧
  ParseInt "9223372036854775808" = Err (ErrMsg "value out of range") ∧ ParseInt "0x" = Err (ErrMsg "invalid syntax").
Proof. vm_compute. repeat split. Qed.
