(* ===== verification/Exec.v ===== *)
(** Running a command: pkg/exec/exec.go.

    The rest of the driver runs commands through the call [RunCmd]; this file
    models the runner that answers it with os/exec, its pipes and the
    goroutines that write the secrets.  The theorem: secrets go through their
    own pipes only, and every descriptor that was opened is closed once. *)

From Stdlib Require Import ZArith Lia.
From stdpp Require Import base option strings list.
From S2P Require Import Prelude GoStrings Effects.

Local Open Scope prog_scope.

Section Runner.
Context {St : Type}.

(** src/pkg/exec/exec.go:88-92 (osRunner.RunCmd, closeAll) *)
Definition closeAll (fds : list Z) : prog St unit := for_all fds (λ fd, sys (PipeClose fd) ;; Ret tt).

(** src/pkg/exec/exec.go:93-102 (osRunner.RunCmd, the pipes): [n] secrets to go *)
Fixpoint make_pipes (n : nat) (readers writers : list Z) : prog St (res (list Z * list Z)) :=
  match n with
  | 0 => ok (readers, writers)
  | S n =>
      p <- sys Pipe ;;
      match p with
      | Err e => closeAll readers ;; closeAll writers ;; fail (Errorf "pipe for " e)
      | Ok (pr, pw) => make_pipes n (readers ++ [pr]) (writers ++ [pw])
      end
  end.

(** The steps of the goroutines that run at once. *)
Inductive gostep := GoWrite (fd : Z) (data : string) | GoClose (fd : Z) | GoWait.

Definition waited : Type := string * option (Z * goerr).
(** One step; what the process ended with once it is waited for. *)
Definition go_step (st : gostep) (w : waited) : prog St waited :=
  match st with
  | GoWrite fd data => sys (PipeWrite fd data) ;; Ret w
  | GoClose fd => sys (PipeClose fd) ;; Ret w
  | GoWait => sys WaitProc
  end.

(** The goroutines that still have steps. *)
Definition live (ts : list (list gostep)) : list nat :=
  List.filter (λ i, match ts !! i with Some (_ :: _) => true | _ => false end) (seq 0 (length ts)).

(** All goroutines to their ends, in the order the scheduler chooses; [fuel]
    is the number of their steps. *)
Fixpoint run_steps (fuel : nat) (ts : list (list gostep)) (w : waited) : prog St waited :=
  match fuel with
  | 0 => Ret w
  | S fuel =>
      match live ts with
      | [] => Ret w
      | i0 :: il =>
          j <- sys (Schedule (length (i0 :: il))) ;;
          let i := default i0 ((i0 :: il) !! j) in
          match ts !! i with
          | Some (st :: rest) => w' <- go_step st w ;; run_steps fuel (<[i := rest]> ts) w'
          | _ => Ret w
          end
      end
  end.

(** src/pkg/exec/exec.go:110-118 (osRunner.RunCmd, the goroutine of a secret) *)
Definition secret_writer (w : Z) (s : string) : list gostep := [GoWrite w s; GoClose w].

(** src/pkg/exec/exec.go:119-131 (osRunner.RunCmd, the result) *)
Definition run_result (c : Cmd) (w : waited) : string * option goerr :=
  match snd w with
  | Some (exitCode, e) => (fst w, Some (ErrExec (cmd_name c) (cmd_args c) exitCode (fst w) (Some e)))
  | None => (fst w, None)
  end.

(** src/pkg/exec/exec.go:20-20 (DefaultTimeout): in nanoseconds *)
Definition DefaultTimeout : Z := 120000000000.
(** src/pkg/exec/exec.go:63-68 (New): the runner's timeout *)
Definition NewRunner (timeout : Z) : Z := if bool_decide (timeout ≤ 0)%Z then DefaultTimeout else timeout.

(** src/pkg/exec/exec.go:74-132 (osRunner.RunCmd): deadlines are not modelled;
    a command that runs into one ends with an error like any other *)
Definition osRunner_RunCmd (c : Cmd) : prog St (string * option goerr) :=
  p <- make_pipes (length (cmd_secrets c)) [] [] ;;
  match p with
  | Err e => Ret ("", Some e)
  | Ok (readers, writers) =>
      started <- sys (StartProc (mkProcess (cmd_name c) (cmd_args c) (cmd_env c) readers)) ;;
      closeAll readers ;;
      match started with
      | Err e => closeAll writers ;; Ret ("", Some (ErrExec (cmd_name c) (cmd_args c) (-1) "" (Some e)))
      | Ok _ =>
          let ts := [GoWait] :: zip_with secret_writer writers (cmd_secrets c) in
          w <- run_steps (1 + 2 * length writers) ts ("", None) ;;
          Ret (run_result c w)
      end
  end.

(** src/pkg/exec/exec.go:70-72 (osRunner.Run) *)
Definition osRunner_Run (name : string) (args : list string) : prog St (string * option goerr) :=
  osRunner_RunCmd (mkCmd name args [] []).
End Runner.

(** ** Reading the traces *)
Definition ev_pipe (e : event) : option (Z * Z) :=
  match e with
  | Ev c r => match c in call R return R → option (Z * Z) with
              | Pipe => λ r, match r with Ok p => Some p | Err _ => None end
              | _ => λ _, None
              end r
  end.
Definition ev_close (e : event) : option Z := match e with Ev c _ => match c with PipeClose fd => Some fd | _ => None end end.
Definition ev_write (e : event) : option (Z * string) :=
  match e with Ev c _ => match c with PipeWrite fd s => Some (fd, s) | _ => None end end.
Definition ev_start (e : event) : option (Process * res unit) :=
  match e with
  | Ev c r => match c in call R return R → option (Process * res unit) with StartProc p => λ r, Some (p, r) | _ => λ _, None end r
  end.
Definition ev_wait (e : event) : option waited :=
  match e with Ev c r => match c in call R return R → option waited with WaitProc => λ r, Some r | _ => λ _, None end r end.

Definition pipes (tr : trace) : list (Z * Z) := omap ev_pipe tr.
Definition closes (tr : trace) : list Z := omap ev_close tr.
Definition writes (tr : trace) : list (Z * string) := omap ev_write tr.
Definition starts (tr : trace) : list (Process * res unit) := omap ev_start tr.
Definition waits (tr : trace) : list waited := omap ev_wait tr.

(** What a trace did with descriptors and processes. *)
Record foot (tr : trace) (P : list (Z * Z)) (C : list Z) (W : list (Z * string)) (B : list (Process * res unit))
    (D : list waited) : Prop := {
  ft_pipes : pipes tr = P; ft_closes : closes tr ≡ₚ C; ft_writes : writes tr ≡ₚ W;
  ft_starts : starts tr = B; ft_waits : waits tr = D }.

Lemma foot_nil : foot [] [] [] [] [] [].
Proof. by split. Qed.
Lemma foot_app t1 t2 P1 C1 W1 B1 D1 P2 C2 W2 B2 D2 :
  foot t1 P1 C1 W1 B1 D1 → foot t2 P2 C2 W2 B2 D2 →
  foot (t1 ++ t2) (P1 ++ P2) (C1 ++ C2) (W1 ++ W2) (B1 ++ B2) (D1 ++ D2).
Proof.
  intros [] []. unfold pipes, closes, writes, starts, waits in *.
  split; unfold pipes, closes, writes, starts, waits; rewrite omap_app; congruence || by apply Permutation_app.
Qed.

Section RunnerProofs.
Context {St : Type}.

Lemma closeAll_foot fds (s : St) tr u s' : exec (closeAll fds) s tr u s' → foot tr [] fds [] [] [].
Proof.
  revert tr. induction fds as [|fd fds IH]; intros tr.
  - intros (-> & _). apply foot_nil.
  - intros (t1 & [] & s1 & t2 & -> & H1 & H2)%exec_bind. destruct H1 as (r & t & -> & -> & _ & ->).
    apply (foot_app _ _ [] [fd] [] [] []); [by split|]. by apply IH.
Qed.

(** Either all pipes are there, or what was opened is closed again. *)
Lemma make_pipes_foot n ps (s : St) tr r s' :
  exec (make_pipes n ps.*1 ps.*2) s tr r s' →
  (∃ qs, r = Ok ((ps ++ qs).*1, (ps ++ qs).*2) ∧ length qs = n ∧ foot tr qs [] [] [] []) ∨
  (∃ e qs, r = Err (Errorf "pipe for " e) ∧ foot tr qs ((ps ++ qs).*1 ++ (ps ++ qs).*2) [] [] []).
Proof.
  revert ps tr. induction n as [|n IH]; intros ps tr; cbn [make_pipes].
  - intros (-> & -> & _). left. exists []. rewrite app_nil_r. split_and!; [done..|apply foot_nil].
  - intros (p & t1 & -> & He). cbn [bind] in He. destruct p as [[pr pw]|e].
    + replace (ps.*1 ++ [pr]) with (ps ++ [(pr, pw)]).*1 in He by (by rewrite fmap_app).
      replace (ps.*2 ++ [pw]) with (ps ++ [(pr, pw)]).*2 in He by (by rewrite fmap_app).
      apply IH in He as [(qs & -> & Hn & Hf)|(e & qs & -> & Hf)].
      * left. exists ((pr, pw) :: qs). rewrite <- app_assoc. split_and!; [done|cbn; lia|].
        by apply (foot_app [_] _ [(pr, pw)] [] [] [] []).
      * right. exists e, ((pr, pw) :: qs). rewrite <- app_assoc in Hf. split; [done|].
        by apply (foot_app [_] _ [(pr, pw)] [] [] [] []).
    + right. exists e, []. rewrite app_nil_r.
      apply exec_bind in He as (ta & [] & s1 & tb & -> & Ha%closeAll_foot & He).
      apply exec_bind in He as (tc & [] & s2 & td & -> & Hc%closeAll_foot & (-> & -> & _)).
      split; [done|]. rewrite app_nil_r. apply (foot_app [_] _ [] [] [] [] []); [by split|].
      by apply (foot_app _ _ [] _ [] [] [] [] _ [] [] []).
Qed.

Definition step_closes (st : gostep) : list Z := match st with GoClose fd => [fd] | _ => [] end.
Definition step_writes (st : gostep) : list (Z * string) := match st with GoWrite fd s => [(fd, s)] | _ => [] end.
Definition step_waits (st : gostep) : list unit := match st with GoWait => [tt] | _ => [] end.

Lemma go_step_foot st w (s : St) tr w' s' :
  exec (go_step st w) s tr w' s' →
  ∃ D, foot tr [] (step_closes st) (step_writes st) [] D ∧ length D = length (step_waits st) ∧ w' = default w (last D).
Proof.
  destruct st; intros (r & t & -> & He).
  1,2: destruct He as (-> & -> & _); exists []; by split_and!.
  destruct He as (-> & -> & _). exists [r]. by split_and!.
Qed.

Lemma live_spec ts i : i ∈ live ts ↔ ∃ st rest, ts !! i = Some (st :: rest).
Proof.
  unfold live. rewrite list_elem_of_In, filter_In, <- list_elem_of_In, elem_of_seq. split.
  - intros [_ H]. destruct (ts !! i) as [[|st rest]|]; eauto; done.
  - intros (st & rest & E). rewrite E. split; [|done]. apply lookup_lt_Some in E. lia.
Qed.

Lemma concat_step (ts : list (list gostep)) i st rest :
  ts !! i = Some (st :: rest) → concat ts ≡ₚ st :: concat (<[i := rest]> ts).
Proof.
  intros E. rewrite <- (take_drop_middle ts i _ E) at 1.
  rewrite insert_take_drop by (by eapply lookup_lt_Some).
  rewrite !concat_app. cbn. symmetry. apply Permutation_middle.
Qed.

Lemma default_last {A} (w : A) D1 D2 : default (default w (last D1)) (last D2) = default w (last (D1 ++ D2)).
Proof. rewrite last_app. by destruct (last D2). Qed.

(** The goroutines run to their ends: every step happens, once. *)
Lemma run_steps_foot fuel ts w (s : St) tr w' s' :
  length (concat ts) ≤ fuel → exec (run_steps fuel ts w) s tr w' s' →
  ∃ D, foot tr [] (concat ts ≫= step_closes) (concat ts ≫= step_writes) [] D ∧
       length D = length (concat ts ≫= step_waits) ∧ w' = default w (last D).
Proof.
  revert ts w s tr. induction fuel as [|fuel IH]; intros ts w s tr Hlen.
  - destruct (concat ts); [|cbn in Hlen; lia]. intros (-> & -> & _). exists []. split_and!; [apply foot_nil|done..].
  - cbn [run_steps]. destruct (live ts) as [|i0 il] eqn:El.
    + assert (concat ts = []) as ->.
      { apply concat_nil_Forall, Forall_lookup. intros i x Hx. destruct x as [|st rest]; [done|].
        assert (i ∈ live ts) as Hi by (apply live_spec; eauto). rewrite El in Hi. by apply elem_of_nil in Hi. }
      intros (-> & -> & _). exists []. split_and!; [apply foot_nil|done..].
    + intros (j & t & -> & He). cbn [bind] in He.
      assert (default i0 ((i0 :: il) !! j) ∈ live ts) as Hi.
      { rewrite El. destruct ((i0 :: il) !! j) eqn:Ej; cbn; [by eapply list_elem_of_lookup_2|left]. }
      apply live_spec in Hi as (st & rest & Est). rewrite Est in He. pose proof (concat_step _ _ _ _ Est) as Hp.
      apply exec_bind in He as (t1 & w1 & s1 & t2 & -> & H1 & H2).
      apply go_step_foot in H1 as (D1 & F1 & L1 & ->).
      apply IH in H2 as (D2 & F2 & L2 & ->); [|rewrite Hp in Hlen; cbn in Hlen; lia].
      exists (D1 ++ D2). rewrite default_last. split_and!; [|rewrite length_app, L1, L2; rewrite Hp; cbn; by rewrite length_app|done].
      destruct (foot_app _ _ _ _ _ _ _ _ _ _ _ _ F1 F2) as [G1 G2 G3 G4 G5].
      split; [done|rewrite Hp; exact G2|rewrite Hp; exact G3|done|done].
Qed.
End RunnerProofs.

Section RunnerCorrect.
Context {St : Type}.

(** The ends of the pipes a command was given, in the order of its secrets. *)
Lemma writers_steps ws ss :
  length ws = length ss →
  concat (zip_with secret_writer ws ss) ≫= step_closes = ws ∧
  concat (zip_with secret_writer ws ss) ≫= step_writes = zip ws ss ∧
  concat (zip_with secret_writer ws ss) ≫= step_waits = [] ∧
  length (concat (zip_with secret_writer ws ss)) = 2 * length ws.
Proof.
  revert ss. induction ws as [|w ws IH]; intros [|s ss] H; try done. injection H as H.
  destruct (IH ss H) as (E1 & E2 & E3 & E4). cbn. rewrite E1, E2, E3, E4. split_and!; try done. lia.
Qed.

(** How the command ended, once its pipes were there. *)
Inductive ended (c : Cmd) (ps : list (Z * Z)) (r : string * option goerr) (tr : trace) : Prop :=
  | ended_no_pipe e : r = ("", Some (Errorf "pipe for " e)) → starts tr = [] → writes tr = [] → ended c ps r tr
  | ended_no_start e :
      r = ("", Some (ErrExec (cmd_name c) (cmd_args c) (-1) "" (Some e))) →
      starts tr = [(mkProcess (cmd_name c) (cmd_args c) (cmd_env c) ps.*1, Err e)] → writes tr = [] → ended c ps r tr
  | ended_waited w :
      r = run_result c w → length ps = length (cmd_secrets c) →
      starts tr = [(mkProcess (cmd_name c) (cmd_args c) (cmd_env c) ps.*1, Ok tt)] →
      waits tr = [w] → writes tr ≡ₚ zip ps.*2 (cmd_secrets c) → ended c ps r tr.

(** C20: running a command with secrets.  However the writing goroutines, the
    wait and the scheduler interleave, and whatever fails: each end of each
    pipe that was opened is closed exactly once.  At most one process is
    started, with the command's own name, arguments and environment and the
    read ends of the pipes in the order of the secrets; each secret is written
    once, to the write end of its own pipe, and none if the process did not
    start.  The answer is the process' output, with its exit code in an
    error when it failed and -1 when it did not start. *)
Theorem RunCmd_correct (c : Cmd) (s : St) tr r s' :
  exec (osRunner_RunCmd c) s tr r s' →
  closes tr ≡ₚ (pipes tr).*1 ++ (pipes tr).*2 ∧ ended c (pipes tr) r tr.
Proof.
  intros (t1 & p & s1 & t2 & -> & H1 & He)%exec_bind.
  apply (make_pipes_foot _ []) in H1 as [(ps & -> & Hn & F1)|(e & ps & -> & F1)].
  2: { destruct He as (-> & -> & _). rewrite app_nil_r. destruct F1 as [F1 F2 F3 F4 F5]. rewrite F1.
       split; [done|]. eapply ended_no_pipe; [done..|]. by apply Permutation_nil_r. }
  rewrite app_nil_l in He. destruct He as (st & t3 & -> & He). cbn [bind] in He.
  apply exec_bind in He as (t4 & [] & s2 & t5 & -> & F2%closeAll_foot & He).
  set (P := mkProcess _ _ _ _) in *.
  assert (foot [Ev (StartProc P) st] [] [] [] [(P, st)] []) as F3 by (by split).
  pose proof (foot_app _ _ _ _ _ _ _ _ _ _ _ _ F1 (foot_app _ _ _ _ _ _ _ _ _ _ _ _ F3 F2)) as F.
  cbn [app] in F. rewrite app_nil_r in F.
  destruct st as [[]|e].
  - apply exec_bind in He as (t6 & w & s3 & t7 & -> & H6 & (-> & -> & _)).
    destruct (writers_steps ps.*2 (cmd_secrets c)) as (E1 & E2 & E3 & E4); [by rewrite length_fmap|].
    apply run_steps_foot in H6 as (D & F6 & L6 & ->); [|cbn; rewrite E4; lia].
    cbn in F6, L6. rewrite E1, E2 in F6. rewrite E3 in L6. destruct D as [|d [|]]; try done.
    destruct (foot_app _ _ _ _ _ _ _ _ _ _ _ _ F F6) as [G1 G2 G3 G4 G5]. rewrite !app_nil_r in *.
    replace (t1 ++ Ev (StartProc P) (Ok ()) :: t4 ++ t6) with ((t1 ++ Ev (StartProc P) (Ok ()) :: t4) ++ t6)
      by (by rewrite <- app_assoc).
    rewrite G1. split; [done|]. eapply (ended_waited _ _ _ _ d); try done.
  - apply exec_bind in He as (t6 & [] & s3 & t7 & -> & F6%closeAll_foot & (-> & -> & _)).
    destruct (foot_app _ _ _ _ _ _ _ _ _ _ _ _ F F6) as [G1 G2 G3 G4 G5]. rewrite !app_nil_r in *.
    replace (t1 ++ Ev (StartProc P) (Err e) :: t4 ++ t6) with ((t1 ++ Ev (StartProc P) (Err e) :: t4) ++ t6)
      by (by rewrite <- app_assoc).
    rewrite G1. split; [done|]. eapply ended_no_start; [done..|]. by apply Permutation_nil_r.
Qed.
End RunnerCorrect.

(** Two secrets; the second goroutine goes first. *)
Definition demo_cmd : Cmd := mkCmd "cryptsetup" ["luksAddKey"] [] ["old"; "new"].
Definition demo_pipes : handler Z := λ R c n,
  match c in call R return R * Z with
  | Pipe => (Ok (n, n + 1)%Z, (n + 2)%Z)
  | Schedule k => (k - 1, n)
  | WaitProc => (("bad", Some (1%Z, ErrMsg "exit status 1")), n)
  | c => quiet _ c n
  end.
Definition run_demo := run demo_pipes (osRunner_RunCmd demo_cmd) tt 3%Z.

Lemma RunCmd_correct_witness :
  writes run_demo.2 = [(6%Z, "new"); (4%Z, "old")] ∧ closes run_demo.2 = [3; 5; 6; 4]%Z ∧
  closes run_demo.2 ≡ₚ (pipes run_demo.2).*1 ++ (pipes run_demo.2).*2 ∧
  ended demo_cmd (pipes run_demo.2) run_demo.1.1.1 run_demo.2.
Proof.
  split; [vm_compute; reflexivity|]. split; [vm_compute; reflexivity|].
  assert (exec (osRunner_RunCmd demo_cmd) tt run_demo.2 run_demo.1.1.1 run_demo.1.1.2) as He.
  { unfold run_demo. destruct (run _ _ _ _) as [[[r s] x] t] eqn:E. by apply exec_run in E. }
  exact (RunCmd_correct demo_cmd tt _ _ _ He).
Defined.
