(* ===== verification/Fake.v ===== *)
(** The fake runner of the tests: pkg/exec/exectest/fake.go.

    The tests drive the driver's components with it in place of os/exec.  Its
    functions are a test's own closures, here functions of the command.  The
    lemmas: every call of a sequence is recorded once, in order, with its
    environment and secrets, and answered by the first source that applies. *)

From Stdlib Require Import ZArith Lia.
From stdpp Require Import base option gmap strings list relations.
From S2P Require Import Prelude GoStrings Effects.

Local Open Scope prog_scope.

(** src/pkg/exec/exectest/fake.go:15-20 (Call) *)
Record Call := mkCall { Name : string; Args : list string; Env : list string; Secrets : list string }.
(** src/pkg/exec/exectest/fake.go:23-26 (Response) *)
Record Response := mkResponse { Out : string; RespErr : option goerr }.

(** src/pkg/exec/exectest/fake.go:31-41 (FakeRunner) *)
Record FakeRunner := mkFake {
  rules : gmap string Response;
  Func : option (string → list string → Response);
  CmdFunc : option (Cmd → Response);
  Calls : list Call;
  Default : Response;
  HasDef : bool }.

(** src/pkg/exec/exectest/fake.go:45-47 (New) *)
Definition NewFake : FakeRunner := mkFake ∅ None None [] (mkResponse "" None) false.

Definition fake_mu : string := "fake.mu".

(** src/pkg/exec/exectest/fake.go:50-54 (FakeRunner.Set) *)
Definition fake_Set (name out : string) (err : option goerr) : prog FakeRunner unit :=
  with_lock fake_mu (modify (λ f,
    mkFake (<[name := mkResponse out err]> (rules f)) (Func f) (CmdFunc f) (Calls f) (Default f) (HasDef f))).
(** src/pkg/exec/exectest/fake.go:57-62 (FakeRunner.SetDefault) *)
Definition SetDefault (out : string) (err : option goerr) : prog FakeRunner unit :=
  with_lock fake_mu (modify (λ f,
    mkFake (rules f) (Func f) (CmdFunc f) (Calls f) (mkResponse out err) true)).

(** src/pkg/exec/exectest/fake.go:76-79 (FakeRunner.dispatch, the call recorded) *)
Definition call_of (c : Cmd) : Call := mkCall (cmd_name c) (cmd_args c) (cmd_env c) (cmd_secrets c).

(** src/pkg/exec/exectest/fake.go:88-100 (FakeRunner.dispatch, the answer) from
    what was read under the lock *)
Definition fake_answer (f : FakeRunner) (c : Cmd) (viaCmd : bool) : Response :=
  match (if viaCmd then CmdFunc f else None) with
  | Some cmdFn => cmdFn c
  | None =>
      match Func f with
      | Some fn => fn (cmd_name c) (cmd_args c)
      | None =>
          match rules f !! cmd_name c with
          | Some rule => rule
          | None => if HasDef f then Default f
                    else mkResponse "" (Some (ErrMsg "FakeRunner: unexpected call "))
          end
      end
  end.

(** src/pkg/exec/exectest/fake.go:74-101 (FakeRunner.dispatch) *)
Definition dispatch (c : Cmd) (viaCmd : bool) : prog FakeRunner Response :=
  f <- with_lock fake_mu (Upd (λ f,
         (f, mkFake (rules f) (Func f) (CmdFunc f) (Calls f ++ [call_of c]) (Default f) (HasDef f))) Ret) ;;
  Ret (fake_answer f c viaCmd).

(** src/pkg/exec/exectest/fake.go:65-67 (FakeRunner.Run) *)
Definition fake_Run (name : string) (args : list string) : prog FakeRunner Response :=
  dispatch (mkCmd name args [] []) false.
(** src/pkg/exec/exectest/fake.go:70-72 (FakeRunner.RunCmd) *)
Definition fake_RunCmd (c : Cmd) : prog FakeRunner Response := dispatch c true.

(** src/pkg/exec/exectest/fake.go:104-108 (FakeRunner.Reset) *)
Definition fake_Reset : prog FakeRunner unit :=
  with_lock fake_mu (modify (λ f, mkFake (rules f) (Func f) (CmdFunc f) [] (Default f) (HasDef f))).

(** ** Properties *)

(** Commands run one after the other through the fake. *)
Fixpoint fake_runs (cs : list Cmd) : prog FakeRunner (list Response) :=
  match cs with
  | [] => Ret []
  | c :: cs => r <- fake_RunCmd c ;; rs <- fake_runs cs ;; Ret (r :: rs)
  end.

(** The same rules, functions and default. *)
Definition same_rules (f f' : FakeRunner) : Prop :=
  rules f' = rules f ∧ Func f' = Func f ∧ CmdFunc f' = CmdFunc f ∧ Default f' = Default f ∧ HasDef f' = HasDef f.

(** A sequence of commands: all answered as the rules say, all recorded in
    order. *)
Lemma fake_runs_spec cs f tr rs f' :
  exec (fake_runs cs) f tr rs f' →
  rs = map (λ c, fake_answer f c true) cs ∧ Calls f' = Calls f ++ map call_of cs ∧ same_rules f f'.
Proof.
  revert f tr rs. induction cs as [|c cs IH]; intros f tr rs.
  - intros (-> & -> & ->). cbn. by rewrite app_nil_r.
  - intros (t1 & r & f1 & t2 & -> & H1 & H2)%exec_bind.
    cbn in H1. destruct H1 as ([] & ? & _ & ([] & ? & _ & (_ & -> & ->))).
    apply exec_bind in H2 as (t3 & rs' & f2 & t4 & -> & H3 & (_ & -> & ->)).
    apply IH in H3 as (-> & -> & Hs). cbn. rewrite <- app_assoc. split; [done|by split].
Qed.

(** The fake stands for a real runner: a rule set for a command is what the
    command is answered with until another is set, and a command that nothing
    matches fails rather than succeed. *)
Lemma fake_unexpected c f : fake_answer NewFake c f = mkResponse "" (Some (ErrMsg "FakeRunner: unexpected call ")).
Proof. by destruct f. Qed.
Lemma fake_Set_answers name out err c f tr u f' :
  exec (fake_Set name out err) f tr u f' → Func f = None → CmdFunc f = None → cmd_name c = name →
  fake_answer f' c true = mkResponse out err ∧
  ∀ c', cmd_name c' ≠ name → fake_answer f' c' true = fake_answer f c' true.
Proof.
  cbn. intros ([] & ? & _ & ([] & ? & _ & (_ & _ & ->))) H1 H2 <-. unfold fake_answer. cbn. rewrite H1, H2.
  rewrite lookup_insert_eq. split; [done|]. intros c' Hc. by rewrite lookup_insert_ne by congruence.
Qed.
