(* ===== verification/Store.v ===== *)
(** Backing-store configuration: pkg/store/store.go and pkg/store/parse.go.

    [Config] is what a StorageClass's backingStore.* parameters parse to; its
    keys name the mount and the store.  The theorems cover the volume-context
    round trip, the containment of a subDir in its export, and the identity
    of mounts and stores. *)

From Stdlib Require Import Lia Ascii.
From stdpp Require Import base gmap strings list sorting.
From S2P Require Import Prelude GoStrings Sha256 Regexp Effects.

Import strings path.

(** src/pkg/store/store.go:16-21 (Type): the two discriminator values. *)
Definition TypeNFS : string := "nfs".
(** src/pkg/store/store.go:20-20 (TypeLocal) *)
Definition TypeLocal : string := "local".

(** src/pkg/store/store.go:25-43 (Config) *)
Record Config := mkConfig {
  cfg_Type : string;
  NFSServer : string;
  NFSPath : string;
  NFSMountOptions : string;
  NFSSubDir : string;
  LocalPath : string;
  LocalShared : bool;
}.

#[export] Instance Config_eq_dec : EqDecision Config.
Proof. solve_decision. Defined.

(** The zero [Config{}]. *)
Definition zeroConfig : Config := mkConfig "" "" "" "" "" "" false.

(** src/pkg/store/store.go:105-117 (canonicalOptions).  [sort.Strings] orders
    bytewise; any sorting algorithm gives the same list. *)
Definition clean_options (opts : string) : list string :=
  List.filter (λ p, negb (bool_decide (p = ""))) (TrimSpace <$> Split opts ","%char).
(** src/pkg/store/store.go:105-117 (canonicalOptions) *)
Definition canonicalOptions (opts : string) : string :=
  Join (merge_sort String.le (clean_options opts)) ",".

(** src/pkg/store/store.go:51-67 (Config.mountKey) *)
Definition mountKey (c : Config) : string :=
  if bool_decide (cfg_Type c = TypeNFS) then
    Join ["nfs"; NFSServer c; NFSPath c; canonicalOptions (NFSMountOptions c)] "|"
  else if bool_decide (cfg_Type c = TypeLocal) then
    Join ["local"; LocalPath c] "|"
  else "invalid|" +:+ cfg_Type c.

(** src/pkg/store/store.go:77-82 (Config.storeKey) *)
Definition storeKey (c : Config) : string :=
  if bool_decide (NFSSubDir c = "") then mountKey c
  else mountKey c +:+ "|" +:+ NFSSubDir c.

(** src/pkg/store/store.go:84-87 (hashID) *)
Definition hashID (key : string) : string := stake 12 (Sha256.hex_sum key).

(** src/pkg/store/store.go:94-94 (Config.MountID) *)
Definition MountID (c : Config) : string := hashID (mountKey c).

(** src/pkg/store/store.go:103-103 (Config.StoreID) *)
Definition StoreID (c : Config) : string := hashID (storeKey c).

(** src/pkg/store/registry.go:27-27 (storeIDPattern): ^[0-9a-f]{12}$ *)
Definition storeIDPattern : Regexp.re := Regexp.repn 12 (Regexp.Chr Regexp.is_hex).

(** ** Parsing *)

(** src/pkg/store/parse.go:9-33 (ParamType and the other keys) *)
Definition ParamType : string := "backingStore.type".
Definition ParamNFSServer : string := "backingStore.nfs.server".
Definition ParamNFSPath : string := "backingStore.nfs.path".
Definition ParamNFSMountOptions : string := "backingStore.nfs.mountOptions".
Definition ParamNFSSubDir : string := "backingStore.nfs.subDir".
Definition ParamLocalPath : string := "backingStore.local.path".
Definition ParamLocalShared : string := "backingStore.local.shared".
Definition VolumeContextStoreID : string := "storeID".
Definition paramPVCName : string := "csi.storage.k8s.io/pvc/name".
Definition paramPVCNamespace : string := "csi.storage.k8s.io/pvc/namespace".
Definition paramPVName : string := "csi.storage.k8s.io/pv/name".
Definition tmplPVCName : string := "${pvc.name}".
Definition tmplPVCNamespace : string := "${pvc.namespace}".
Definition tmplPVName : string := "${pv.name}".

(** src/pkg/store/parse.go:94-102 (resolveSubDir, one token) *)
Definition subst_token (params : gmap string string) (key tmpl sub : string) : string :=
  let v := mget params key in
  if bool_decide (v = "") then sub else ReplaceAll sub tmpl v.

(** src/pkg/store/parse.go:105-115 (resolveSubDir, the unresolved-token error) *)
Definition unresolved_error (sub : string) (i : nat) : goerr :=
  let tail := sdrop i sub in
  let tok := match Index tail "}" with Some j => stake (j + 1) tail | None => tail end in
  let hint :=
    if HasPrefix tok "${pvc.metadata." || HasPrefix tok "${pv.metadata."
    then " (renamed to ${pvc.namespace} / ${pvc.name} / ${pv.name} in v0.5.0)" else "" in
  ErrMsg (ParamNFSSubDir +:+ " contains unresolved template " +:+ tok +:+
          ": supported tokens are ${pvc.namespace}, ${pvc.name} and ${pv.name}, and the csi-provisioner sidecar must run with --extra-create-metadata=true for them to resolve"
          +:+ hint).

(** src/pkg/store/parse.go:104-135 (resolveSubDir, validation of the result) *)
Definition validate_sub (sub : string) : res string :=
  match Index sub "${" with
  | Some i => Err (unresolved_error sub i)
  | None =>
      if has_char "000"%char sub then Err (ErrMsg (ParamNFSSubDir +:+ " must not contain NUL bytes"))
      else if IsAbs sub then
        Err (ErrMsg (ParamNFSSubDir +:+ " must be relative to the export, got "))
      else if contains (Split sub "/"%char) ".." then
        Err (ErrMsg (ParamNFSSubDir +:+ " must not contain .. path elements, got "))
      else
        let clean := Clean sub in
        if bool_decide (clean = ".") then
          Err (ErrMsg (ParamNFSSubDir +:+ " must name a subdirectory of the export, got "))
        else Ok clean
  end.

(** src/pkg/store/parse.go:89-136 (resolveSubDir) *)
Definition resolveSubDir (raw : string) (params : gmap string string) : res string :=
  if bool_decide (raw = "") then Ok "" else
  let sub := subst_token params paramPVCNamespace tmplPVCNamespace raw in
  let sub := subst_token params paramPVCName tmplPVCName sub in
  let sub := subst_token params paramPVName tmplPVName sub in
  validate_sub sub.

(** src/pkg/store/parse.go:38-79 (ConfigFromParams) *)
Definition ConfigFromParams (params : gmap string string) : res Config :=
  let t := mget params ParamType in
  if bool_decide (t = TypeNFS) then
    let server := mget params ParamNFSServer in
    let p := mget params ParamNFSPath in
    if bool_decide (server = "") then
      Err (ErrMsg (ParamNFSServer +:+ " is required when " +:+ ParamType +:+ "=nfs"))
    else if bool_decide (p = "") then
      Err (ErrMsg (ParamNFSPath +:+ " is required when " +:+ ParamType +:+ "=nfs"))
    else match resolveSubDir (mget params ParamNFSSubDir) params with
         | Err e => Err e
         | Ok sub => Ok (mkConfig TypeNFS server p (mget params ParamNFSMountOptions) sub "" false)
         end
  else if bool_decide (t = TypeLocal) then
    let p := mget params ParamLocalPath in
    if bool_decide (p = "") then
      Err (ErrMsg (ParamLocalPath +:+ " is required when " +:+ ParamType +:+ "=local"))
    else if negb (bool_decide (mget params ParamNFSSubDir = "")) then
      Err (ErrMsg (ParamNFSSubDir +:+ " is not supported when " +:+ ParamType +:+ "=local"))
    else Ok (mkConfig TypeLocal "" "" "" "" p (bool_decide (mget params ParamLocalShared = "true")))
  else if bool_decide (t = "") then
    Err (ErrMsg (ParamType +:+ " is required (got empty)"))
  else Err (ErrMsg (ParamType +:+ " not supported (must be nfs or local)")).

(** src/pkg/store/parse.go:141-163 (Config.ToVolumeContext) *)
Definition ToVolumeContext (c : Config) : gmap string string :=
  let vc := <[VolumeContextStoreID := StoreID c]> (<[ParamType := cfg_Type c]> ∅) in
  if bool_decide (cfg_Type c = TypeNFS) then
    let vc := <[ParamNFSPath := NFSPath c]> (<[ParamNFSServer := NFSServer c]> vc) in
    let vc := if bool_decide (NFSMountOptions c = "") then vc
              else <[ParamNFSMountOptions := NFSMountOptions c]> vc in
    if bool_decide (NFSSubDir c = "") then vc else <[ParamNFSSubDir := NFSSubDir c]> vc
  else if bool_decide (cfg_Type c = TypeLocal) then
    let vc := <[ParamLocalPath := LocalPath c]> vc in
    if LocalShared c then <[ParamLocalShared := "true"]> vc else vc
  else vc.

(** src/pkg/store/parse.go:168-170 (ConfigFromVolumeContext) *)
Definition ConfigFromVolumeContext (vc : gmap string string) : res Config := ConfigFromParams vc.

(** ** Lemmas *)

(** The shape of a resolved subDir: plain elements joined by single slashes,
    without a template opener or a NUL. *)
Definition resolved_sub (sub : string) : Prop :=
  ∃ ws, ws ≠ [] ∧ Forall plain_seg ws ∧ sub = Join ws "/" ∧
        Contains sub "${" = false ∧ has_char "000"%char sub = false.

Lemma validate_sub_resolved sub clean : validate_sub sub = Ok clean → resolved_sub clean.
Proof.
  unfold validate_sub. destruct (Index sub "${") eqn:Hi; [done|].
  assert (Contains sub "${" = false) as Hc by (unfold Contains; by rewrite Hi).
  destruct (has_char "000" sub) eqn:Hz; [done|].
  destruct (IsAbs sub) eqn:Ha; [done|].
  destruct (contains (Split sub "/") "..") eqn:Hd; [done|].
  assert (Forall (λ w, w ≠ "..") (Split sub "/")) as Hdd.
  { apply Forall_forall. intros w Hw ->. apply contains_spec in Hw. congruence. }
  destruct (Clean_nodots sub Ha Hdd) as (ws & Hws & Ews & ->).
  case_bool_decide as Hn; [done|]. case_bool_decide; [done|]. intros [= <-].
  exists ws. split_and!; [done..| |].
  - rewrite (Contains_Split _ "/"%char), Split_Join by first [done |
      eapply Forall_impl; [exact Hws|]; by intros w (_&_&_&?)].
    rewrite Ews. apply existsb_filter_false. by rewrite <- Contains_Split.
  - rewrite (has_char_Split _ "/"%char), Split_Join by first [done |
      eapply Forall_impl; [exact Hws|]; by intros w (_&_&_&?)].
    rewrite Ews. apply existsb_filter_false. by rewrite <- has_char_Split.
Qed.

Lemma validate_sub_id sub : resolved_sub sub → validate_sub sub = Ok sub.
Proof.
  intros (ws & Hn & Hp & -> & Hc & Hz). unfold validate_sub.
  assert (Index (Join ws "/") "${" = None) as ->.
  { unfold Contains in Hc. by destruct (Index _ _). }
  rewrite Hz, IsAbs_Join_plain by done.
  assert (Split (Join ws "/") "/"%char = ws) as Es.
  { apply Split_Join; [done|]. eapply Forall_impl; [exact Hp|]. by intros w (_&_&_&?). }
  rewrite Es. destruct (contains ws "..") eqn:Hd.
  - apply contains_spec in Hd. rewrite Forall_forall in Hp. destruct (Hp ".." Hd) as (_&_&?&_). done.
  - rewrite Clean_plain by done. rewrite bool_decide_false; [done|].
    intros E. rewrite E in Es. vm_compute in Es. subst ws. inv Hp. by destruct H1 as (_&?&_).
Qed.

Lemma resolved_sub_nonempty sub : resolved_sub sub → sub ≠ "".
Proof.
  intros (ws & Hn & Hp & -> & _) E. apply (Join_nil_iff _ "/") in E; [done..|].
  eapply Forall_impl; [exact Hp|]. by intros w (?&_).
Qed.

Lemma resolveSubDir_resolved raw params sub :
  resolveSubDir raw params = Ok sub → sub = "" ∨ resolved_sub sub.
Proof.
  unfold resolveSubDir. case_bool_decide; [by intros [= <-]; left|].
  intros H'%validate_sub_resolved. by right.
Qed.

Lemma subst_token_absent params key tmpl sub :
  mget params key = "" → subst_token params key tmpl sub = sub.
Proof. intros H. unfold subst_token. by rewrite bool_decide_true. Qed.

Lemma resolveSubDir_id sub params :
  resolved_sub sub → mget params paramPVCNamespace = "" → mget params paramPVCName = "" →
  mget params paramPVName = "" → resolveSubDir sub params = Ok sub.
Proof.
  intros Hr H1 H2 H3. unfold resolveSubDir.
  rewrite bool_decide_false by by apply resolved_sub_nonempty.
  rewrite !subst_token_absent by done. by apply validate_sub_id.
Qed.

(** What a successful parse guarantees of the fields. *)
Lemma ConfigFromParams_ok params c :
  ConfigFromParams params = Ok c →
  (cfg_Type c = TypeNFS ∧ NFSServer c ≠ "" ∧ NFSPath c ≠ "" ∧
     (NFSSubDir c = "" ∨ resolved_sub (NFSSubDir c)) ∧ LocalPath c = "" ∧ LocalShared c = false) ∨
  (cfg_Type c = TypeLocal ∧ LocalPath c ≠ "" ∧
     NFSServer c = "" ∧ NFSPath c = "" ∧ NFSMountOptions c = "" ∧ NFSSubDir c = "").
Proof.
  unfold ConfigFromParams. case_bool_decide.
  - do 2 (case_bool_decide; [done|]). destruct (resolveSubDir _ _) eqn:E; [|done].
    intros [= <-]. left. simpl. split_and!; auto. by eapply resolveSubDir_resolved.
  - case_bool_decide; [|by case_bool_decide]. case_bool_decide; [done|].
    case_bool_decide; [|done]. simpl. intros [= <-]. right. by simpl.
Qed.

(** The lookups of [ToVolumeContext], one rewrite rule per key. *)
Ltac vc_lookup :=
  repeat first
    [ rewrite mget_insert_eq
    | rewrite mget_insert_ne by (vm_compute; congruence)
    | rewrite mget_empty ].

Lemma ToVolumeContext_nfs c k :
  cfg_Type c = TypeNFS →
  mget (ToVolumeContext c) ParamType = TypeNFS ∧
  mget (ToVolumeContext c) ParamNFSServer = NFSServer c ∧
  mget (ToVolumeContext c) ParamNFSPath = NFSPath c ∧
  mget (ToVolumeContext c) ParamNFSMountOptions = NFSMountOptions c ∧
  mget (ToVolumeContext c) ParamNFSSubDir = NFSSubDir c ∧
  (k ∈ [paramPVCNamespace; paramPVCName; paramPVName] → mget (ToVolumeContext c) k = "").
Proof.
  intros Ht. unfold ToVolumeContext. rewrite bool_decide_true by done.
  case_bool_decide as Ho; case_bool_decide as Hs; split_and!;
    try (vc_lookup; congruence);
    intros [<-|[<-|[<-|[]]]]%list_elem_of_In; by vc_lookup.
Qed.

Lemma ToVolumeContext_local c :
  cfg_Type c = TypeLocal →
  mget (ToVolumeContext c) ParamType = TypeLocal ∧
  mget (ToVolumeContext c) ParamLocalPath = LocalPath c ∧
  mget (ToVolumeContext c) ParamNFSSubDir = "" ∧
  mget (ToVolumeContext c) ParamLocalShared = (if LocalShared c then "true" else "").
Proof.
  intros Ht. unfold ToVolumeContext. rewrite Ht. simpl.
  destruct (LocalShared c); split_and!; by vc_lookup.
Qed.

(** *** Keys *)

Lemma canonicalOptions_Permutation o1 o2 :
  clean_options o1 ≡ₚ clean_options o2 → canonicalOptions o1 = canonicalOptions o2.
Proof.
  intros H. unfold canonicalOptions. f_equal. apply (Sorted_unique String.le).
  - apply Sorted_merge_sort, _.
  - apply Sorted_merge_sort, _.
  - by rewrite !merge_sort_Permutation.
Qed.

Lemma clean_options_spec opts :
  Forall (λ p, p ≠ "" ∧ TrimSpace p = p ∧ has_char ","%char p = false) (clean_options opts).
Proof.
  apply Forall_forall. intros p Hp%list_elem_of_In. unfold clean_options in Hp.
  apply List.filter_In in Hp as [Hp Hne].
  apply negb_true_iff, bool_decide_eq_false in Hne.
  apply list_elem_of_In, list_elem_of_fmap in Hp as (q & -> & Hq).
  pose proof (Split_no_sep opts ","%char) as Hs. rewrite Forall_forall in Hs.
  split_and!; [done|apply TrimSpace_idem|]. by apply TrimSpace_has_char, Hs.
Qed.

(** A list of clean options survives being joined and parsed again. *)
Lemma clean_options_Join l :
  Forall (λ p, p ≠ "" ∧ TrimSpace p = p ∧ has_char ","%char p = false) l →
  clean_options (Join l ",") = l.
Proof.
  intros Hl. destruct l as [|x l]; [done|]. unfold clean_options.
  rewrite Split_Join; [|done|eapply Forall_impl; [exact Hl|]; by intros p (_&_&?)].
  induction Hl as [|p l' (Hn & Ht & _) _ IH]; [done|].
  cbn [fmap list_fmap List.filter]. rewrite Ht, bool_decide_false by done. simpl. by f_equal.
Qed.

Lemma canonicalOptions_idem opts : canonicalOptions (canonicalOptions opts) = canonicalOptions opts.
Proof.
  apply canonicalOptions_Permutation. unfold canonicalOptions at 1.
  rewrite clean_options_Join; [by rewrite merge_sort_Permutation|].
  rewrite merge_sort_Permutation. apply clean_options_spec.
Qed.

(** Two option strings that mean the same to mount(8), whatever the code does
    with them: the options are in another order, white space around an option
    is added or taken away, or an empty option. *)
Inductive same_options : string → string → Prop :=
  | so_order l l' : l ≡ₚ l' → same_options (Join l ",") (Join l' ",")
  | so_space l1 a x b l2 : spaces a → spaces b → has_char ","%char x = false → has_char ","%char (a +:+ (x +:+ b)) = false →
      same_options (Join (l1 ++ (a +:+ (x +:+ b)) :: l2) ",") (Join (l1 ++ x :: l2) ",")
  | so_comma l1 l2 : same_options (Join (l1 ++ "" :: l2) ",") (Join (l1 ++ l2) ",")
  | so_sym o1 o2 : same_options o1 o2 → same_options o2 o1
  | so_trans o1 o2 o3 : same_options o1 o2 → same_options o2 o3 → same_options o1 o3.

Lemma mjoin_cons {A} (x : list A) l : mjoin (x :: l) = x ++ mjoin l.
Proof. done. Qed.
Lemma clean_options_concat l : clean_options (Join l ",") = mjoin (clean_options <$> l).
Proof.
  induction l as [|x l IH]; [by vm_compute|]. destruct l as [|y l]; [symmetry; apply app_nil_r|].
  rewrite Join_cons by done. 
  rewrite fmap_cons, mjoin_cons, <- IH.
  change (x +:+ "," +:+ Join (y :: l) ",") with (x +:+ String "," (Join (y :: l) ",")).
  unfold clean_options at 1. by rewrite Split_app_sep, fmap_app, List.filter_app.
Qed.
Lemma clean_options_free x :
  has_char ","%char x = false → clean_options x = if decide (TrimSpace x = "") then [] else [TrimSpace x].
Proof.
  intros Hx. unfold clean_options. rewrite Split_free by done. cbn. by case_bool_decide; case_decide.
Qed.
Lemma mjoin_app {A} (l1 l2 : list (list A)) : mjoin (l1 ++ l2) = mjoin l1 ++ mjoin l2.
Proof. induction l1 as [|x l1 IH]; [done|]. by rewrite <- app_comm_cons, !mjoin_cons, IH, app_assoc. Qed.
Lemma mjoin_perm {A} (l1 l2 : list (list A)) : l1 ≡ₚ l2 → mjoin l1 ≡ₚ mjoin l2.
Proof.
  induction 1 as [|x l1 l2 _ IH|x y l|l1 l2 l3 _ IH1 _ IH2]; rewrite ?mjoin_cons; [done|by rewrite IH|..].
  - by rewrite !app_assoc, (Permutation_app_comm x y).
  - by rewrite IH1.
Qed.

Lemma same_options_clean o1 o2 : same_options o1 o2 → clean_options o1 ≡ₚ clean_options o2.
Proof.
  induction 1 as [l l' Hl|l1 a x b l2 Ha Hb Hx Hy|l1 l2|o1 o2 _ IH|o1 o2 o3 _ IH1 _ IH2]; [..|by rewrite IH1].
  - rewrite !clean_options_concat. apply mjoin_perm. by rewrite Hl.
  - rewrite !clean_options_concat, !fmap_app, !fmap_cons, (clean_options_free _ Hx), (clean_options_free _ Hy).
    by rewrite TrimSpace_spaces.
  - by rewrite !clean_options_concat, !fmap_app, fmap_cons, !mjoin_app.
  - done.
Qed.

Lemma same_options_cleaned pre l : Forall (λ w, has_char ","%char w = false) l →
  same_options (Join (pre ++ l) ",") (Join (pre ++ List.filter (λ p, negb (bool_decide (p = ""))) (TrimSpace <$> l)) ",").
Proof.
  intros Hl. revert pre. induction Hl as [|x l Hx _ IH]; intros pre; [by apply so_order|].
  destruct (TrimSpace_split x) as (a & b & Ha & Hb & E).
  eapply so_trans; [rewrite E at 1; apply so_space; [done..|by apply TrimSpace_has_char|by rewrite <- E]|].
  cbn [fmap list_fmap List.filter]. case_bool_decide as Ht; cbn [negb].
  - rewrite Ht. eapply so_trans; [apply so_comma|apply IH].
  - specialize (IH (pre ++ [TrimSpace x])). by rewrite <- !app_assoc in IH.
Qed.
Lemma same_options_canonical o : same_options o (canonicalOptions o).
Proof.
  rewrite <- (Join_Split o ","%char) at 1. eapply so_trans; [apply (same_options_cleaned [] _ (Split_no_sep o ","%char))|].
  apply so_order. symmetry. apply merge_sort_Permutation.
Qed.
Lemma canonicalOptions_same o1 o2 : canonicalOptions o1 = canonicalOptions o2 ↔ same_options o1 o2.
Proof.
  split.
  - intros E. eapply so_trans; [apply same_options_canonical|]. rewrite E. apply so_sym, same_options_canonical.
  - intros H. by apply canonicalOptions_Permutation, same_options_clean.
Qed.

Lemma has_char_Join d l sep :
  has_char d sep = false → has_char d (Join l sep) = existsb (has_char d) l.
Proof.
  intros Hs. induction l as [|x [|y l] IH]; [done| |].
  - simpl. by rewrite orb_false_r.
  - rewrite Join_cons by done. rewrite !has_char_app, Hs, IH. done.
Qed.

Lemma canonicalOptions_has_char opts d :
  d ≠ ","%char → has_char d opts = false → has_char d (canonicalOptions opts) = false.
Proof.
  intros Hd Ho. unfold canonicalOptions.
  rewrite has_char_Join by (simpl; by rewrite bool_decide_false).
  apply not_true_iff_false. rewrite existsb_exists. intros (p & Hp & Hc).
  apply list_elem_of_In in Hp. rewrite merge_sort_Permutation in Hp.
  apply list_elem_of_In in Hp. unfold clean_options in Hp.
  apply List.filter_In in Hp as [Hp _].
  apply list_elem_of_In, list_elem_of_fmap in Hp as (q & -> & Hq).
  rewrite TrimSpace_has_char in Hc; [done|].
  rewrite (has_char_Split _ ","%char) in Ho by done.
  destruct (has_char d q) eqn:E; [|done]. rewrite <- not_true_iff_false in Ho. exfalso.
  apply Ho, existsb_exists. exists q. by rewrite <- list_elem_of_In.
Qed.

(** The pieces of a parsed config's store key between the '|' separators. *)
Definition key_parts (c : Config) : list string :=
  if bool_decide (cfg_Type c = TypeNFS) then
    ["nfs"; NFSServer c; NFSPath c; canonicalOptions (NFSMountOptions c)] ++
    (if bool_decide (NFSSubDir c = "") then [] else Split (NFSSubDir c) "|"%char)
  else "local" :: Split (LocalPath c) "|"%char.

(** No field that precedes another in the key holds the separator. *)
Definition pipe_free (c : Config) : Prop :=
  has_char "|"%char (NFSServer c) = false ∧ has_char "|"%char (NFSPath c) = false ∧
  has_char "|"%char (NFSMountOptions c) = false.

Lemma storeKey_parts params c :
  ConfigFromParams params = Ok c → storeKey c = Join (key_parts c) "|".
Proof.
  intros [(Ht & _)|(Ht & _ & _ & _ & _ & Hs)]%ConfigFromParams_ok;
    unfold storeKey, mountKey, key_parts; rewrite Ht.
  - rewrite (bool_decide_true (TypeNFS = TypeNFS)) by done.
    case_bool_decide; [by rewrite app_nil_r|].
    rewrite Join_app, Join_Split by (done || apply Split_nonnil). done.
  - rewrite Hs, bool_decide_true by done. rewrite bool_decide_false by done.
    rewrite bool_decide_true by done.
    rewrite (Join_cons _ (Split _ _)) by apply Split_nonnil. by rewrite Join_Split.
Qed.

Lemma Split_key_parts c :
  pipe_free c → Split (Join (key_parts c) "|") "|"%char = key_parts c.
Proof.
  intros (H1 & H2 & H3). apply Split_Join.
  - unfold key_parts. by case_bool_decide.
  - unfold key_parts. case_bool_decide.
    + apply Forall_app. split.
      * repeat constructor; auto. by apply canonicalOptions_has_char.
      * case_bool_decide; [constructor|apply Split_no_sep].
    + constructor; [done|apply Split_no_sep].
Qed.

(** A parsed config is determined by its parts, up to option order. *)
Lemma key_parts_inj params1 params2 c1 c2 :
  ConfigFromParams params1 = Ok c1 → ConfigFromParams params2 = Ok c2 →
  key_parts c1 = key_parts c2 →
  cfg_Type c1 = cfg_Type c2 ∧ NFSServer c1 = NFSServer c2 ∧ NFSPath c1 = NFSPath c2 ∧
  canonicalOptions (NFSMountOptions c1) = canonicalOptions (NFSMountOptions c2) ∧
  NFSSubDir c1 = NFSSubDir c2 ∧ LocalPath c1 = LocalPath c2.
Proof.
  intros H1%ConfigFromParams_ok H2%ConfigFromParams_ok E. unfold key_parts in E.
  destruct H1 as [(Ht1 & _ & _ & _ & Hl1 & _)|(Ht1 & _ & Ha1 & Hb1 & Hc1 & Hd1)],
    H2 as [(Ht2 & _ & _ & _ & Hl2 & _)|(Ht2 & _ & Ha2 & Hb2 & Hc2 & Hd2)];
    rewrite Ht1, Ht2 in E; simpl in E; try done.
  - injection E as E1 E2 E3 E4. split_and!; try congruence.
    pose proof (Join_Split (NFSSubDir c1) "|"%char) as J1.
    pose proof (Join_Split (NFSSubDir c2) "|"%char) as J2.
    do 2 case_bool_decide; try congruence.
    + symmetry in E4. by apply Split_nonnil in E4.
    + by apply Split_nonnil in E4.
  - injection E as E. apply (f_equal (λ l, Join l "|")) in E. rewrite !Join_Split in E.
    split_and!; congruence.
Qed.

(** *** The shape of an ID *)

Lemma hex_digit_is_hex n : Regexp.is_hex (Sha256.hex_digit n) = true.
Proof.
  unfold Sha256.hex_digit. generalize (Z.to_nat n). intros k.
  do 16 (destruct k as [|k]; [reflexivity|]). by destruct k.
Qed.

Lemma hex_all_hex bs : Regexp.all_chars Regexp.is_hex (Sha256.hex bs) = true.
Proof. induction bs as [|b bs IH]; [done|]. simpl. by rewrite !hex_digit_is_hex, IH. Qed.

Lemma all_chars_stake p n s : Regexp.all_chars p s = true → Regexp.all_chars p (stake n s) = true.
Proof.
  revert s. induction n as [|n IH]; intros [|c s]; try done. simpl.
  intros [Hc Hs]%andb_true_iff. by rewrite Hc, IH.
Qed.

(** Every ID is twelve lower-case hex digits. *)
Lemma hashID_shape key :
  String.length (hashID key) = 12 ∧ Regexp.all_chars Regexp.is_hex (hashID key) = true.
Proof.
  unfold hashID. split.
  - apply slength_stake. rewrite Sha256.length_hex_sum. lia.
  - apply all_chars_stake, hex_all_hex.
Qed.

(** ** Theorems *)

Lemma vc_roundtrip params c :
  ConfigFromParams params = Ok c → ConfigFromVolumeContext (ToVolumeContext c) = Ok c.
Proof.
  intros [(Ht & Hs & Hp & Hsub & Hl & Hsh)|(Ht & Hl & H1 & H2 & H3 & H4)]%ConfigFromParams_ok;
    unfold ConfigFromVolumeContext, ConfigFromParams.
  - destruct (ToVolumeContext_nfs c "" Ht) as (-> & -> & -> & -> & -> & _).
    rewrite bool_decide_true, !bool_decide_false by done.
    assert (resolveSubDir (NFSSubDir c) (ToVolumeContext c) = Ok (NFSSubDir c)) as ->.
    { destruct Hsub as [->|Hsub]; [done|].
      apply resolveSubDir_id; [done|eapply ToVolumeContext_nfs; [done|set_solver]..]. }
    destruct c; simpl in *; congruence.
  - destruct (ToVolumeContext_local c Ht) as (-> & -> & -> & ->).
    rewrite bool_decide_false, bool_decide_true, bool_decide_false by done. simpl.
    destruct c as [? ? ? ? ? ? []]; simpl in *; congruence.
Qed.

(** The parameters the parser reads. *)
Definition store_keys : list string :=
  [ParamType; ParamNFSServer; ParamNFSPath; ParamNFSMountOptions; ParamNFSSubDir; ParamLocalPath;
   ParamLocalShared; paramPVCNamespace; paramPVCName; paramPVName].

Lemma ConfigFromParams_ext p q :
  (∀ k, k ∈ store_keys → mget p k = mget q k) → ConfigFromParams p = ConfigFromParams q.
Proof.
  intros H. unfold ConfigFromParams, resolveSubDir, subst_token.
  rewrite !(H ParamType), !(H ParamNFSServer), !(H ParamNFSPath), !(H ParamNFSMountOptions), !(H ParamNFSSubDir),
    !(H ParamLocalPath), !(H ParamLocalShared), !(H paramPVCNamespace), !(H paramPVCName), !(H paramPVName)
    by (unfold store_keys; set_solver). done.
Qed.

Definition demo_params : gmap string string :=
  <[paramPVCNamespace := "team-a"]>
  (<[ParamNFSSubDir := "${pvc.namespace}//fileblock/"]>
  (<[ParamNFSMountOptions := "nfsvers=4.1,hard"]>
  (<[ParamNFSPath := "/exports/k8s_ns"]>
  (<[ParamNFSServer := "nfs.example.internal"]> (<[ParamType := "nfs"]> ∅))))).
Definition demo_config : Config :=
  mkConfig "nfs" "nfs.example.internal" "/exports/k8s_ns" "nfsvers=4.1,hard" "team-a/fileblock" "" false.

Lemma demo_params_ok : ConfigFromParams demo_params = Ok demo_config.
Proof. vm_compute. reflexivity. Qed.

(** C36: a configured subDir stays inside its export: joined to the export's
    mount directory it is literally a path below that directory, with no ".",
    ".." or empty element, no NUL and no unresolved template, whatever the
    operator wrote and whatever the tokens expanded to. *)
Theorem subdir_contained params c mnt :
  ConfigFromParams params = Ok c → NFSSubDir c ≠ "" → abs_path mnt →
  JoinPath [mnt; NFSSubDir c] = mnt +:+ "/" +:+ NFSSubDir c ∧
  Forall plain_seg (Split (NFSSubDir c) "/"%char) ∧
  Contains (NFSSubDir c) "${" = false ∧ has_char "000"%char (NFSSubDir c) = false.
Proof.
  intros Hc Hn Hm. apply ConfigFromParams_ok in Hc.
  assert (resolved_sub (NFSSubDir c)) as (ws & Hwn & Hwp & E & H1 & H2) by naive_solver.
  rewrite E in *. split_and!; auto.
  - by apply JoinPath_plain.
  - rewrite Split_Join; [done..|]. eapply Forall_impl; [exact Hwp|]. by intros w (_&_&_&?).
Qed.

Lemma subdir_contained_witness :
  JoinPath ["/stores/2a355b61d5f7"; NFSSubDir demo_config] =
    "/stores/2a355b61d5f7" +:+ "/" +:+ NFSSubDir demo_config ∧
  Forall plain_seg (Split (NFSSubDir demo_config) "/"%char) ∧
  Contains (NFSSubDir demo_config) "${" = false ∧ has_char "000"%char (NFSSubDir demo_config) = false.
Proof.
  apply (subdir_contained demo_params demo_config "/stores/2a355b61d5f7" demo_params_ok); [done|].
  exists ["stores"; "2a355b61d5f7"]. split_and!; [done|repeat constructor; done|done].
Defined.

Lemma storeKey_identifies params1 params2 c1 c2 :
  ConfigFromParams params1 = Ok c1 → ConfigFromParams params2 = Ok c2 →
  pipe_free c1 → pipe_free c2 → storeKey c1 = storeKey c2 →
  cfg_Type c1 = cfg_Type c2 ∧ NFSServer c1 = NFSServer c2 ∧ NFSPath c1 = NFSPath c2 ∧
  canonicalOptions (NFSMountOptions c1) = canonicalOptions (NFSMountOptions c2) ∧
  NFSSubDir c1 = NFSSubDir c2 ∧ LocalPath c1 = LocalPath c2.
Proof.
  intros H1 H2 P1 P2 E. eapply key_parts_inj; [exact H1|exact H2|].
  rewrite (storeKey_parts _ _ H1), (storeKey_parts _ _ H2) in E.
  apply (f_equal (λ s, Split s "|"%char)) in E. by rewrite !Split_key_parts in E.
Qed.

(** The configuration whose path ends in what precedes the subDir in the key,
    and whose mount option is the subDir. *)
Definition shifted (c : Config) : Config :=
  mkConfig TypeNFS (NFSServer c) (NFSPath c +:+ "|" +:+ canonicalOptions (NFSMountOptions c)) (NFSSubDir c) "" "" false.
Lemma shifted_accepted params c :
  ConfigFromParams params = Ok c → cfg_Type c = TypeNFS →
  ConfigFromParams (ToVolumeContext (shifted c)) = Ok (shifted c).
Proof.
  intros [(Ht & Hs & _)|(Ht & _)]%ConfigFromParams_ok E; [|by rewrite Ht in E].
  destruct (ToVolumeContext_nfs (shifted c) "" eq_refl) as (E1 & E2 & E3 & E4 & E5 & _).
  unfold ConfigFromParams. rewrite E1, E2, E3, E4, E5. rewrite bool_decide_true by done. cbn [shifted NFSServer NFSPath].
  rewrite !bool_decide_false; [done| |done]. intros [_ [=]]%sapp_eq_nil.
Qed.
Lemma shifted_key c :
  cfg_Type c = TypeNFS → NFSSubDir c ≠ "" → canonicalOptions (NFSSubDir c) = NFSSubDir c →
  storeKey (shifted c) = storeKey c.
Proof.
  intros Ht Hs Hc. unfold storeKey, mountKey. cbn [shifted cfg_Type NFSServer NFSPath NFSMountOptions NFSSubDir].
  rewrite Ht, Hc, !(bool_decide_true (TypeNFS = TypeNFS)) by done. rewrite bool_decide_true, bool_decide_false by done.
  cbn [Join]. by rewrite !sapp_assoc.
Qed.

(** C39: what a store key identifies.  Two accepted configurations whose
    server, path and options hold no '|' and that have the same store key are
    the same store: same type, server, path, subDir and mount options, up to
    their order and spacing.  The separator is not escaped, and that the fields
    hold none is needed: every accepted NFS configuration with a subDir that is
    canonical as an option string (one without commas and white space around
    it, say) shares its store key, and with it its storeID, with an accepted
    configuration of another path and no subDir. *)
Theorem storeKey_collision params1 c1 :
  ConfigFromParams params1 = Ok c1 →
  (∀ params2 c2, ConfigFromParams params2 = Ok c2 → pipe_free c1 → pipe_free c2 → storeKey c1 = storeKey c2 →
     cfg_Type c1 = cfg_Type c2 ∧ NFSServer c1 = NFSServer c2 ∧ NFSPath c1 = NFSPath c2 ∧
     same_options (NFSMountOptions c1) (NFSMountOptions c2) ∧ NFSSubDir c1 = NFSSubDir c2 ∧ LocalPath c1 = LocalPath c2) ∧
  (cfg_Type c1 = TypeNFS → NFSSubDir c1 ≠ "" → canonicalOptions (NFSSubDir c1) = NFSSubDir c1 →
   ∃ params2 c2, ConfigFromParams params2 = Ok c2 ∧ NFSServer c2 = NFSServer c1 ∧ NFSPath c2 ≠ NFSPath c1 ∧
     NFSSubDir c2 = "" ∧ storeKey c2 = storeKey c1 ∧ StoreID c2 = StoreID c1).
Proof.
  intros H1. split.
  - intros params2 c2 H2 P1 P2 E. rewrite <- canonicalOptions_same. by apply (storeKey_identifies params1 params2).
  - intros Ht Hs Hc. exists (ToVolumeContext (shifted c1)), (shifted c1).
    split; [by eapply shifted_accepted|]. split; [done|]. split.
    { intros E%(f_equal String.length). cbn [shifted NFSPath] in E. rewrite !slength_app in E. cbn in E. lia. }
    split; [done|]. unfold StoreID. by rewrite shifted_key.
Qed.

Definition demo_params' : gmap string string :=
  <[ParamNFSMountOptions := "hard,,nfsvers=4.1 "]> demo_params.
Definition demo_config' : Config :=
  mkConfig "nfs" "nfs.example.internal" "/exports/k8s_ns" "hard,,nfsvers=4.1 " "team-a/fileblock" "" false.

Lemma storeKey_collision_witness :
  same_options (NFSMountOptions demo_config) (NFSMountOptions demo_config') ∧
  ∃ params2 c2, ConfigFromParams params2 = Ok c2 ∧ NFSPath c2 ≠ NFSPath demo_config ∧ StoreID c2 = StoreID demo_config.
Proof.
  assert (ConfigFromParams demo_params' = Ok demo_config') as H' by (vm_compute; reflexivity).
  assert (storeKey demo_config = storeKey demo_config') as E by (vm_compute; reflexivity).
  destruct (storeKey_collision demo_params demo_config demo_params_ok) as [H1 H2]. split.
  - apply (H1 demo_params' demo_config' H'); [repeat split|repeat split|exact E].
  - destruct H2 as (params2 & c2 & H2 & _ & H3 & _ & _ & H4); [done|done|vm_compute; reflexivity|]. eauto.
Defined.

(** C37: mounts are shared exactly by the configurations that mean the same
    mount.  The mount ID depends neither on the subDir nor on the order of the
    mount options, white space around them or empty ones; and NFS
    configurations of one server and path have the same mount key only if
    their options differ in nothing else. *)
Theorem MountID_canonical c1 c2 :
  cfg_Type c1 = cfg_Type c2 → NFSServer c1 = NFSServer c2 → NFSPath c1 = NFSPath c2 → LocalPath c1 = LocalPath c2 →
  (same_options (NFSMountOptions c1) (NFSMountOptions c2) → MountID c1 = MountID c2) ∧
  (cfg_Type c1 = TypeNFS → mountKey c1 = mountKey c2 → same_options (NFSMountOptions c1) (NFSMountOptions c2)).
Proof.
  intros Ht Hs Hp Hl. rewrite <- canonicalOptions_same. unfold MountID, mountKey. rewrite <- Ht, <- Hs, <- Hp, <- Hl. split.
  - by intros ->.
  - intros ->. rewrite bool_decide_true by done. cbn [Join]. intros E.
    by apply (inj (String.append _)), (inj (String.append _)), (inj (String.append _)), (inj (String.append _)),
      (inj (String.append _)), (inj (String.append _)) in E.
Qed.

Lemma MountID_canonical_witness :
  MountID demo_config = MountID (mkConfig "nfs" "nfs.example.internal" "/exports/k8s_ns" "hard ,, nfsvers=4.1" "" "" true) ∧
  same_options "nfsvers=4.1,hard" "hard,,nfsvers=4.1 ".
Proof.
  split.
  - apply (MountID_canonical demo_config
             (mkConfig "nfs" "nfs.example.internal" "/exports/k8s_ns" "hard ,, nfsvers=4.1" "" "" true)); [reflexivity..|].
    apply (so_trans _ (Join ["hard"; "nfsvers=4.1"] ",")); [apply (so_order ["nfsvers=4.1"; "hard"]), Permutation_swap|].
    apply so_sym, (so_trans _ (Join (["hard "] ++ [" nfsvers=4.1"]) ",")); [apply (so_comma ["hard "] [" nfsvers=4.1"])|].
    assert (spaces " ") as Hsp by (apply runs_of_one, (bool_decide_unpack _); vm_compute; exact I).
    apply (so_trans _ (Join ["hard"; " nfsvers=4.1"] ",")).
    + by apply (so_space [] "" "hard" " " [" nfsvers=4.1"] (runs_of_nil _)).
    + by apply (so_space ["hard"] " " "nfsvers=4.1" "" [] Hsp (runs_of_nil _)).
  - by apply (MountID_canonical demo_config demo_config').
Defined.

(** The compatibility invariant of [StoreID]: without a subDir it is the
    mount ID, which has the value earlier releases issued; with one it differs,
    unless the truncated hash of these two keys collides.  Both always match
    [storeIDPattern]. *)
Theorem StoreID_MountID_iff c :
  (hashID (storeKey c) = hashID (mountKey c) → storeKey c = mountKey c) →
  (StoreID c = MountID c ↔ NFSSubDir c = "") ∧
  Regexp.matches storeIDPattern (StoreID c) = true ∧
  Regexp.matches storeIDPattern (MountID c) = true.
Proof.
  intros Hcf.
  assert (∀ key, Regexp.matches storeIDPattern (hashID key) = true) as Hpat.
  { intros key. apply Regexp.matches_lang, Regexp.lang_repn_chr. apply hashID_shape. }
  split_and!; [|apply Hpat..]. unfold StoreID, MountID. split.
  - intros E%Hcf. unfold storeKey in E. case_bool_decide; [done|].
    apply (f_equal String.length) in E. rewrite !slength_app in E. simpl in E. lia.
  - intros E. unfold storeKey. by rewrite bool_decide_true.
Qed.

(** The storeID pinned from release v0.3.8. *)
Example StoreID_pinned :
  StoreID (mkConfig "nfs" "nfs.example.internal" "/exports/k8s_ns" "" "" "" false) = "2a355b61d5f7".
Proof. vm_compute. reflexivity. Qed.

Lemma StoreID_MountID_iff_witness :
  (StoreID demo_config = MountID demo_config ↔ NFSSubDir demo_config = "") ∧
  Regexp.matches storeIDPattern (StoreID demo_config) = true ∧
  Regexp.matches storeIDPattern (MountID demo_config) = true.
Proof.
  apply (StoreID_MountID_iff demo_config). intros H. exfalso. vm_compute in H. discriminate H.
Defined.

#[global] Arguments hashID : simpl never.
#[global] Arguments MountID : simpl never.
#[global] Arguments StoreID : simpl never.
