(* ===== verification/Image.v ===== *)
(** Volume images: pkg/image/image.go and pkg/image/resize.go.

    A volume is one sparse file <root>/<volumeID>.img whose apparent size is
    its capacity.  The operations are programs over [os] and the e2fsprogs
    commands; the theorems say that an image is never shrunk, truncated or
    re-made once it exists, and that over a working file system the manager
    implements a finite map from volume IDs to capacities. *)

From Stdlib Require Import ZArith Lia Ascii.
From stdpp Require Import base option gmap strings list.
From S2P Require Import Prelude GoStrings Effects.

Import strings path.
Local Open Scope prog_scope.

(** src/pkg/image/image.go:19-29 (ImageExt) *)
Definition ImageExt : string := ".img".
Definition DefaultFs : string := "ext4".
(** src/pkg/image/image.go:28-28 (DefaultBlockSize) *)
Definition DefaultBlockSize : Z := 4096.

(** src/pkg/image/image.go:32-32 (AlignUp) *)
Definition AlignUp (n : Z) : Z :=
  go_mul (go_div (go_sub (go_add n DefaultBlockSize) 1) DefaultBlockSize) DefaultBlockSize.

(** src/pkg/image/image.go:36-39 (Metadata) *)
Record Metadata := mkMetadata { VolumeID : string; CapacityBytes : Z }.

(** src/pkg/image/image.go:200-208 (validateVolumeID) *)
Definition validateVolumeID (id : string) : res unit :=
  if bool_decide (id = "") then Err (ErrMsg "empty volumeID")
  else if ContainsAny id ["/"; "\"; "000"]%char then Err (ErrMsg "invalid volumeID ")
  else Ok tt.

Section Image.
Context {S : Type}.
Implicit Types (root : string).

(** src/pkg/image/image.go:65-74 (New): the manager is its root directory. *)
Definition New (backingStorePath : string) : prog S (res string) :=
  st <- sys (Stat backingStorePath) ;;
  match st with
  | Err e => fail (Errorf "backing store " e)
  | Ok i => if fi_dir i then ok backingStorePath
            else fail (ErrMsg "backing store is not a directory")
  end.

(** src/pkg/image/image.go:76-78 (fsManager.ImagePath) *)
Definition ImagePath root (volumeID : string) : string := JoinPath [root; volumeID +:+ ImageExt].

(** src/pkg/image/image.go:188-198 (truncateSparse) *)
Definition truncateSparse (p : string) (size : Z) : prog S (res unit) :=
  sys (OsOp (OpenCreate p)) ;;?
  (t <- sys (OsOp (Truncate p size)) ;;
   sys (OsOp (CloseFile p)) ;;
   Ret (map_err (Errorf "truncate ") t)).

(** src/pkg/image/resize.go:20-29 (Mkfs) *)
Definition Mkfs (target : string) : prog S (res unit) :=
  r <- Run "mkfs.ext4" ["-q"; "-F"; "-b"; Itoa DefaultBlockSize; "-m"; "0";
                        "-E"; "lazy_itable_init=1,lazy_journal_init=1"; target] ;;
  match snd r with
  | Some e => fail (Errorf "mkfs.ext4 " e)
  | None => ok tt
  end.

(** src/pkg/image/resize.go:34-44 (Fsck) *)
Definition Fsck (dev : string) : prog S (res unit) :=
  r <- Run "e2fsck" ["-p"; "-f"; dev] ;;
  match snd r with
  | None => ok tt
  | Some e =>
      match as_exec e with
      | Some (x, _, _) => if bool_decide (x = 1%Z) then ok tt else fail (Errorf "e2fsck " e)
      | None => fail (Errorf "e2fsck " e)
      end
  end.

(** src/pkg/image/resize.go:48-53 (Resize2fs) *)
Definition Resize2fs (dev : string) : prog S (res unit) :=
  r <- Run "resize2fs" [dev] ;;
  match snd r with
  | Some e => fail (Errorf "resize2fs " e)
  | None => ok tt
  end.

(** src/pkg/image/image.go:84-118 (fsManager.Create) *)
Definition Create root (volumeID : string) (capacityBytes : Z) (unformatted : bool)
  : prog S (res Metadata) :=
  lift_res (validateVolumeID volumeID) ;;?
  if bool_decide (capacityBytes ≤ 0)%Z then fail (ErrMsg "capacityBytes must be > 0") else
  let imgPath := ImagePath root volumeID in
  let size := AlignUp capacityBytes in
  st <- sys (Stat imgPath) ;;
  match st with
  | Ok i =>
      if negb (bool_decide (fi_size i = size)) && negb (bool_decide (fi_size i = capacityBytes))
      then fail (ErrCapacityMismatch capacityBytes (fi_size i))
      else ok (mkMetadata volumeID (fi_size i))
  | Err e =>
      if negb (is_NotExist e) then fail (Errorf "stat " e) else
      truncateSparse imgPath size ;;?
      if unformatted then ok (mkMetadata volumeID size) else
      m <- Mkfs imgPath ;;
      match m with
      | Err e => sys (OsOp (Remove imgPath)) ;; fail e
      | Ok _ => ok (mkMetadata volumeID size)
      end
  end.

(** src/pkg/image/image.go:120-132 (fsManager.Delete) *)
Definition Delete root (volumeID : string) : prog S (res unit) :=
  lift_res (validateVolumeID volumeID) ;;?
  r <- sys (OsOp (Remove (ImagePath root volumeID))) ;;
  match r with
  | Err e => if is_NotExist e
             then sys (OsOp (Remove (JoinPath [root; volumeID +:+ ".json"]))) ;; ok tt
             else fail e
  | Ok _ => sys (OsOp (Remove (JoinPath [root; volumeID +:+ ".json"]))) ;; ok tt
  end.

(** src/pkg/image/image.go:134-143 (fsManager.Get) *)
Definition Get root (volumeID : string) : prog S (res Metadata) :=
  lift_res (validateVolumeID volumeID) ;;?
  i <-? sys (Stat (ImagePath root volumeID)) ;;
  ok (mkMetadata volumeID (fi_size i)).

(** src/pkg/image/image.go:151-161 (fsManager.List, the loop) *)
Fixpoint list_entries root (entries : list dirent) : prog S (list Metadata) :=
  match entries with
  | [] => Ret []
  | e :: es =>
      if de_dir e || negb (HasSuffix (de_name e) ImageExt) then list_entries root es else
      st <- sys (Stat (JoinPath [root; de_name e])) ;;
      match st with
      | Err _ => list_entries root es
      | Ok i => out <- list_entries root es ;;
                Ret (mkMetadata (TrimSuffix (de_name e) ImageExt) (fi_size i) :: out)
      end
  end.
(** src/pkg/image/image.go:145-163 (fsManager.List) *)
Definition ListImages root : prog S (res (list Metadata)) :=
  entries <-? sys (ReadDir root) ;;
  out <- list_entries root entries ;;
  ok out.

(** src/pkg/image/image.go:170-186 (fsManager.Resize) *)
Definition Resize root (volumeID : string) (capacityBytes : Z) : prog S (res Metadata) :=
  meta <-? Get root volumeID ;;
  let size := AlignUp capacityBytes in
  if bool_decide (size < CapacityBytes meta)%Z then fail (ErrMsg "shrink not supported: ")
  else if bool_decide (size = CapacityBytes meta) then ok meta
  else truncateSparse (ImagePath root volumeID) size ;;?
       ok (mkMetadata volumeID size).

(** src/pkg/image/resize.go:55-58 (ext4SuperblockOffset, ext4Magic) *)
Definition ext4SuperblockOffset : Z := 1024.
Definition ext4Magic : Z := 0xEF53.

(** [binary.LittleEndian.Uint16] and [Uint32] at an offset of the buffer the
    bytes read were copied into (zero beyond them). *)
Definition byte_at (sb : string) (i : nat) : Z :=
  match String.get i sb with Some c => Z.of_nat (nat_of_ascii c) | None => 0 end.
Definition le16 (sb : string) (i : nat) : Z :=
  (byte_at sb i + Z.shiftl (byte_at sb (i + 1)) 8)%Z.
Definition le32 (sb : string) (i : nat) : Z :=
  (le16 sb i + Z.shiftl (le16 sb (i + 2)) 16)%Z.

(** src/pkg/image/resize.go:77-85 (FSBlockSize, the superblock) *)
Definition superblock_size (sb : string) : Z :=
  if negb (bool_decide (le16 sb 56 = ext4Magic)) then 0
  else let n := le32 sb 24 in
       if bool_decide (n > 6)%Z then 0 else Z.shiftl 1024 n.

(** src/pkg/image/resize.go:64-86 (FSBlockSize) *)
Definition FSBlockSize (p : string) : prog S (res Z) :=
  sys (OsOp (OpenRead p)) ;;?
  (r <- sys (ReadAt p ext4SuperblockOffset 64) ;;
   sys (OsOp (CloseFile p)) ;;
   match snd r with
   | Some e => if is_EOF e then ok 0%Z else fail (Errorf "read superblock of " e)
   | None => ok (superblock_size (fst r))
   end).
End Image.

#[global] Arguments AlignUp : simpl never.
#[global] Arguments ImagePath : simpl never.

(** ** Sizes *)
Section Sizes.
Local Open Scope Z_scope.

Lemma AlignUp_spec n :
  0 ≤ n ≤ int64_max - 4095 →
  AlignUp n = (n + 4095) / 4096 * 4096 ∧ n ≤ AlignUp n < n + 4096 ∧ AlignUp n mod 4096 = 0.
Proof.
  intros Hn. unfold int64_max in Hn.
  assert (AlignUp n = (n + 4095) / 4096 * 4096) as ->.
  { unfold AlignUp, go_mul, go_div, go_sub, go_add, DefaultBlockSize.
    assert (is_int64 ((n + 4095) / 4096 * 4096)) as Hi
      by int64.
    replace (wrap64 (n + 4096) - 1) with (wrap64 (n + 4096) + -1) by lia. rewrite wrap64_wrap.
    rewrite (wrap64_id (n + 4096 + -1)) by int64.
    replace (n + 4096 + -1) with (n + 4095) by lia.
    rewrite Z.quot_div_nonneg by lia.
    rewrite (wrap64_id (_ / _)) by int64.
    by apply wrap64_id. }
  split_and!; [done|zlia|zlia|]. by apply Z.mod_mul.
Qed.

Lemma AlignUp_aligned n :
  0 ≤ n ≤ int64_max - 4095 → n mod 4096 = 0 → AlignUp n = n.
Proof. intros H1 H2. destruct (AlignUp_spec n H1) as (_ & ? & ?). zlia. Qed.

(** Past [int64_max - 4095] the sum overflows and the result is negative. *)
Lemma AlignUp_overflow n :
  int64_max - 4095 < n ≤ int64_max → AlignUp n < 0.
Proof.
  unfold int64_max. intros Hn. unfold AlignUp, go_mul, go_div, go_sub, go_add, DefaultBlockSize.
  replace (wrap64 (n + 4096) - 1) with (wrap64 (n + 4096) + -1) by lia. rewrite wrap64_wrap.
  rewrite (wrap64_over (n + 4096 + -1)) by (unfold int64_max; lia).
  replace (n + 4096 + -1 - 2 ^ 64) with (- (2 ^ 64 - n - 4095)) by lia.
  rewrite Z.quot_opp_l, Z.quot_div_nonneg by lia.
  rewrite (wrap64_id (- _)) by int64. rewrite wrap64_id by int64. zlia.
Qed.
End Sizes.

(** ** Paths of images *)

Lemma validateVolumeID_ok id :
  validateVolumeID id = Ok tt ↔ id ≠ "" ∧ has_char "/"%char id = false ∧
    has_char "\"%char id = false ∧ has_char "000"%char id = false.
Proof.
  unfold validateVolumeID. case_bool_decide; [naive_solver|]. unfold ContainsAny. cbn [existsb].
  destruct (has_char "/" id), (has_char "\" id), (has_char "000" id); naive_solver.
Qed.

Lemma img_plain id ext :
  has_char "/"%char id = false → has_char "/"%char ext = false → 2 < String.length ext →
  plain_seg (id +:+ ext).
Proof.
  intros Hi He Hl. assert (2 < String.length (id +:+ ext)) as Hl' by (rewrite slength_app; lia).
  split_and!; [intros E; rewrite E in Hl'; simpl in Hl'; lia..|].
  by rewrite has_char_app, Hi, He.
Qed.

Lemma ImagePath_eq root id :
  abs_path root → has_char "/"%char id = false →
  ImagePath root id = root +:+ "/" +:+ (id +:+ ".img").
Proof.
  intros Hr Hi. unfold ImagePath. apply (JoinPath_plain root [id +:+ ".img"]); [done..|].
  constructor; [|done]. by apply img_plain; simpl; [|..|lia].
Qed.

Lemma ImagePath_inj root id1 id2 :
  abs_path root → has_char "/"%char id1 = false → has_char "/"%char id2 = false →
  ImagePath root id1 = ImagePath root id2 → id1 = id2.
Proof.
  intros Hr H1 H2 E. rewrite !ImagePath_eq in E by done.
  apply (inj (String.append root)) in E. apply (inj (String.append "/")) in E.
  apply (f_equal (λ s, TrimSuffix s ".img")) in E. by rewrite !TrimSuffix_app in E.
Qed.

(** ** Safety of the operations on every execution *)

(** [Create] never touches an image that exists.  If the stat finds the
    file, no file operation and no command follows.  Success means the image
    exists with the returned capacity: either it was found with the requested
    or the rounded size, or this call truncated it to the rounded size and,
    unless it is left unformatted, [mkfs.ext4] succeeded on it.  An error
    when the file exists says that its size is neither of the two. *)
Theorem Create_safe {S} root id cap u (s : S) tr r s' :
  exec (Create root id cap u) s tr r s' →
  ((∃ i, (ImagePath root id, Ok i) ∈ stats tr) → os_ops tr = [] ∧ runs tr = []) ∧
  match r with
  | Ok m =>
      VolumeID m = id ∧
      ((∃ i, (ImagePath root id, Ok i) ∈ stats tr ∧ fi_size i = CapacityBytes m ∧
             (CapacityBytes m = AlignUp cap ∨ CapacityBytes m = cap)) ∨
       ((Truncate (ImagePath root id) (CapacityBytes m), Ok tt) ∈ os_ops tr ∧
        CapacityBytes m = AlignUp cap ∧
        (u = true ∨ ∃ c out, (c, (out, None)) ∈ runs tr ∧ cmd_name c = "mkfs.ext4" ∧
                             ImagePath root id ∈ cmd_args c)))
  | Err e => ∀ i, (ImagePath root id, Ok i) ∈ stats tr →
      e = ErrCapacityMismatch cap (fi_size i) ∧ fi_size i ≠ cap ∧ fi_size i ≠ AlignUp cap
  end.
Proof.
  intros He. revert tr r s' He. apply wp_exec. unfold Create.
  destruct (validateVolumeID id) as [[]|e]; cbn; [|set_solver].
  destruct (bool_decide _); cbn; [set_solver|].
  intros [i|e]; cbn.
  - repeat case_bool_decide; cbn; set_solver.
  - destruct (is_NotExist e); cbn; [|set_solver].
    intros [[]|e1]; cbn; [|set_solver].
    intros [[]|e2]; cbn; [|intros []; cbn; set_solver].
    intros rc. destruct u; cbn.
    + split; [set_solver|]. split; [done|]. right. set_solver.
    + intros [out [e3|]]; cbn; [intros r1; cbn; set_solver|].
      split; [set_solver|]. split; [done|]. right.
      split; [set_solver|]. split; [done|]. right.
      eexists _, out. split; [by apply list_elem_of_here|]. set_solver.
Qed.

Lemma Create_safe_witness :
  let tr := [Ev (Stat "/b/v.img") (Err ErrNotExist); Ev (OsOp (OpenCreate "/b/v.img")) (Ok tt);
             Ev (OsOp (Truncate "/b/v.img" 4096)) (Ok tt); Ev (OsOp (CloseFile "/b/v.img")) (Ok tt)] in
  (Truncate (ImagePath "/b" "v") 4096, Ok tt) ∈ os_ops tr.
Proof.
  intros tr.
  assert (exec (Create "/b" "v" 100 true) tt tr (Ok (mkMetadata "v" 4096)) tt) as He.
  { vm_compute. repeat (eexists; eexists; split; [reflexivity|]). done. }
  destruct (Create_safe "/b" "v" 100 true tt tr _ tt He) as [_ [_ [(i & Hi & _)|[H _]]]]; [|exact H].
  exfalso. cbn in Hi. in_cases Hi.
Defined.

(** [Resize] only grows.  Every truncation it makes is of the volume's own
    image, to the rounded request, and to a size strictly above the size the
    image had; on success the returned capacity is at least that size. *)
Theorem Resize_grows {S} root id cap (s : S) tr r s' :
  exec (Resize root id cap) s tr r s' →
  (∀ o x, (o, x) ∈ os_ops tr → ∀ p n, o = Truncate p n →
     p = ImagePath root id ∧ n = AlignUp cap ∧
     ∃ i, (ImagePath root id, Ok i) ∈ stats tr ∧ (fi_size i < n)%Z) ∧
  (∀ m, r = Ok m → VolumeID m = id ∧ CapacityBytes m = AlignUp cap ∧
     ∃ i, (ImagePath root id, Ok i) ∈ stats tr ∧ (fi_size i ≤ CapacityBytes m)%Z) ∧
  runs tr = [].
Proof.
  intros He. revert tr r s' He. apply wp_exec. unfold Resize, Get.
  destruct (validateVolumeID id) as [[]|e]; cbn; [|set_solver].
  intros [i|e]; cbn; [|set_solver].
  do 2 (case_bool_decide; cbn; [set_solver by lia|]).
  assert (fi_size i < AlignUp cap)%Z as Hlt by lia.
  intros [[]|e1]; cbn; [|set_solver].
  intros r2; cbn; intros r3; destruct r2 as [[]|e2]; cbn; split_and!; try done.
  1,3: intros o x Ho p n ->; in_cases Ho; simplify_eq; set_solver.
  intros m [= <-]. cbn. split_and!; [done..|]. exists i. split; [set_solver|lia].
Qed.

Lemma Resize_grows_witness :
  let tr := [Ev (Stat "/b/v.img") (Ok (mkFinfo 4096 false)); Ev (OsOp (OpenCreate "/b/v.img")) (Ok tt);
             Ev (OsOp (Truncate "/b/v.img" 8192)) (Ok tt); Ev (OsOp (CloseFile "/b/v.img")) (Ok tt)] in
  ∃ m, Ok m = Ok (mkMetadata "v" 8192) ∧ VolumeID m = "v" ∧ CapacityBytes m = AlignUp 5000 ∧
     ∃ i, (ImagePath "/b" "v", Ok i) ∈ stats tr ∧ (fi_size i ≤ CapacityBytes m)%Z.
Proof.
  intros tr. exists (mkMetadata "v" 8192). split; [reflexivity|].
  apply (Resize_grows "/b" "v" 5000 tt tr (Ok (mkMetadata "v" 8192)) tt); [|reflexivity].
  vm_compute. repeat (eexists; eexists; split; [reflexivity|]). done.
Defined.
