(* ===== verification/ImageSpec.v ===== *)
(** The contract of the image manager and its refinement.

    [vols] is the abstract state a backing store promises: a finite map from
    volume IDs to capacities.  [FsLaws] states what the manager relies on of
    the kernel's file system and of mkfs.ext4; under it, every sequence of
    manager operations, whatever their arguments, answers what the abstract
    operations answer and keeps the files in step with the map.  [SimFs] is a
    file system that satisfies the laws. *)

From Stdlib Require Import ZArith Lia Ascii.
From stdpp Require Import base option gmap strings list.
From S2P Require Import Prelude GoStrings Effects Image.

Import strings path.
Local Open Scope prog_scope.

(** ** The abstract store *)
Abbreviation vols := (gmap string Z).

Inductive op :=
  | OpCreate (id : string) (cap : Z) (unformatted : bool)
  | OpDelete (id : string)
  | OpGet (id : string)
  | OpList
  | OpResize (id : string) (cap : Z).
Inductive answer := Done | Volume (m : Metadata) | Volumes (l : list Metadata).

(** A volume ID is not empty and has no slash, backslash or NUL. *)
Definition valid_id (id : string) : Prop :=
  id ≠ "" ∧ has_char "/" id = false ∧ has_char "\" id = false ∧ has_char "000" id = false.
#[export] Instance valid_id_dec id : Decision (valid_id id).
Proof. unfold valid_id. apply _. Defined.
(** What every operation answers to an ID that is not valid. *)
Definition refusal (id : string) : goerr := ErrMsg (if bool_decide (id = "") then "empty volumeID" else "invalid volumeID ").
(** What ftruncate answers to a negative size. *)
Definition EINVAL : goerr := ErrMsg "invalid argument".

(** The operations on the map.  A size that does not fit in an int64 once it
    is rounded comes out negative ([AlignUp_overflow]): Create then fails and
    leaves a volume of size 0. *)
Definition spec_create (id : string) (cap : Z) (v : vols) : res answer * vols :=
  if decide (cap ≤ 0)%Z then (Err (ErrMsg "capacityBytes must be > 0"), v) else
  match v !! id with
  | Some n => if decide (n = AlignUp cap ∨ n = cap) then (Ok (Volume (mkMetadata id n)), v)
              else (Err (ErrCapacityMismatch cap n), v)
  | None => if decide (AlignUp cap < 0)%Z then (Err (Errorf "truncate " EINVAL), <[id := 0%Z]> v)
            else (Ok (Volume (mkMetadata id (AlignUp cap))), <[id := AlignUp cap]> v)
  end.
Definition spec_resize (id : string) (cap : Z) (v : vols) : res answer * vols :=
  match v !! id with
  | None => (Err ErrNotExist, v)
  | Some n => if decide (AlignUp cap < n)%Z then (Err (ErrMsg "shrink not supported: "), v)
              else (Ok (Volume (mkMetadata id (AlignUp cap))), <[id := AlignUp cap]> v)
  end.

(** The list of the volumes, in any order. *)
Definition lists_volumes (v : vols) (l : list Metadata) : Prop :=
  NoDup (VolumeID <$> l) ∧ ∀ id n, valid_id id → mkMetadata id n ∈ l ↔ v !! id = Some n.

(** [spec o v r v']: on the volumes [v] the operation answers [r] and leaves
    [v']. *)
Definition spec_volume (id : string) (p : res answer * vols) (v : vols) (r : res answer) (v' : vols) : Prop :=
  (r, v') = if decide (valid_id id) then p else (Err (refusal id), v).
Definition spec (o : op) (v : vols) (r : res answer) (v' : vols) : Prop :=
  match o with
  | OpCreate id cap _ => spec_volume id (spec_create id cap v) v r v'
  | OpDelete id => spec_volume id (Ok Done, delete id v) v r v'
  | OpGet id => spec_volume id (match v !! id with Some n => Ok (Volume (mkMetadata id n)) | None => Err ErrNotExist end, v) v r v'
  | OpResize id cap => spec_volume id (spec_resize id cap v) v r v'
  | OpList => v' = v ∧ ∃ l, r = Ok (Volumes l) ∧ lists_volumes v l
  end.

Definition impl {S} (root : string) (o : op) : prog S (res answer) :=
  match o with
  | OpCreate id cap u => m <-? Create root id cap u ;; ok (Volume m)
  | OpDelete id => Delete root id ;;? ok Done
  | OpGet id => m <-? Get root id ;; ok (Volume m)
  | OpResize id cap => m <-? Resize root id cap ;; ok (Volume m)
  | OpList => l <-? ListImages root ;; ok (Volumes l)
  end.

(** ** What the manager relies on *)
Class FsLaws {X} (h : handler X) (files : X → gmap string Z) : Prop := {
  fs_stat p x :
    h _ (Stat p) x =
      (match files x !! p with Some n => Ok (mkFinfo n false) | None => Err ErrNotExist end, x);
  fs_open_create p x :
    ∃ x', h _ (OsOp (OpenCreate p)) x = (Ok tt, x') ∧
      files x' = match files x !! p with Some _ => files x | None => <[p := 0%Z]> (files x) end;
  fs_truncate p n x :
    is_Some (files x !! p) → (0 ≤ n)%Z →
    ∃ x', h _ (OsOp (Truncate p n)) x = (Ok tt, x') ∧ files x' = <[p := n]> (files x);
  fs_truncate_negative p n x :
    (n < 0)%Z → ∃ x', h _ (OsOp (Truncate p n)) x = (Err EINVAL, x') ∧ files x' = files x;
  fs_readdir p x :
    abs_path p →
    ∃ es, h _ (ReadDir p) x = (Ok es, x) ∧ NoDup (de_name <$> es) ∧
      ∀ name, mkDirent name false ∈ es ↔ plain_seg name ∧ is_Some (files x !! JoinPath [p; name]);
  fs_close p x :
    ∃ r x', h _ (OsOp (CloseFile p)) x = (r, x') ∧ files x' = files x;
  fs_remove p x :
    ∃ x', h _ (OsOp (Remove p)) x =
      (if decide (is_Some (files x !! p)) then Ok tt else Err ErrNotExist, x') ∧
      files x' = delete p (files x);
  fs_mkfs c x :
    cmd_name c = "mkfs.ext4" →
    ∃ out x', h _ (RunCmd c) x = ((out, None), x') ∧ files x' = files x;
}.

(** The abstraction relation: the map and the image files agree, and sizes
    are not negative. *)
Definition abs (root : string) (f : gmap string Z) (v : vols) : Prop :=
  ∀ id, valid_id id → f !! ImagePath root id = v !! id ∧ ∀ n, v !! id = Some n → (0 ≤ n)%Z.

Section Refinement.
Context {X S : Type} (h : handler X) (files : X → gmap string Z) `{!FsLaws h files}.
Context (root : string) (Hroot : abs_path root).

Lemma abs_insert f v id n :
  abs root f v → valid_id id → (0 ≤ n)%Z → abs root (<[ImagePath root id := n]> f) (<[id := n]> v).
Proof.
  intros Ha Hid Hn id' Hid'. destruct (decide (id = id')) as [->|Hne].
  - rewrite !lookup_insert_eq. split; [done|]. by intros ? [= <-].
  - rewrite !lookup_insert_ne; [by apply Ha|done|]. contradict Hne.
    destruct Hid as (_ & ? & _), Hid' as (_ & ? & _). by eapply ImagePath_inj.
Qed.

Lemma abs_delete f v id :
  abs root f v → valid_id id → abs root (delete (ImagePath root id) f) (delete id v).
Proof.
  intros Ha Hid id' Hid'. destruct (decide (id = id')) as [->|Hne].
  - by rewrite !lookup_delete_eq.
  - rewrite !lookup_delete_ne; [by apply Ha|done|]. contradict Hne.
    destruct Hid as (_ & ? & _), Hid' as (_ & ? & _). by eapply ImagePath_inj.
Qed.

(** The ".json" sweep of [Delete] never removes an image. *)
Lemma json_not_img id id' :
  has_char "/"%char id = false → has_char "/"%char id' = false →
  JoinPath [root; id +:+ ".json"] ≠ ImagePath root id'.
Proof.
  intros Hi Hi' E. rewrite ImagePath_eq in E by done.
  rewrite JoinPath_seg in E by (done || by apply img_plain; simpl; [|..|lia]).
  apply (inj (String.append root)) in E. apply (inj (String.append "/")) in E.
  apply (f_equal String.rev) in E. simpl in E. rewrite !srev_app in E. discriminate E.
Qed.

Lemma abs_delete_other f v id :
  abs root f v → has_char "/"%char id = false →
  abs root (delete (JoinPath [root; id +:+ ".json"]) f) v.
Proof.
  intros Ha Hid id' Hid'. rewrite lookup_delete_ne; [by apply Ha|].
  destruct Hid' as (_ & ? & _). by apply json_not_img.
Qed.

Lemma run_truncateSparse p n (s : S) x :
  ∃ x' tr, run h (truncateSparse p n) s x =
      (if decide (n < 0)%Z then Err (Errorf "truncate " EINVAL) else Ok tt, s, x', tr) ∧
    files x' = if decide (n < 0)%Z then match files x !! p with Some _ => files x | None => <[p := 0%Z]> (files x) end
               else <[p := n]> (files x).
Proof.
  destruct (fs_open_create p x) as (x1 & E1 & F1).
  assert (is_Some (files x1 !! p)) as Hp.
  { rewrite F1. destruct (files x !! p) eqn:E; rewrite ?E, ?lookup_insert_eq; eauto. }
  unfold truncateSparse. cbn. rewrite E1. cbn. destruct (decide (n < 0)%Z) as [Hn|Hn].
  - destruct (fs_truncate_negative p n x1 Hn) as (x2 & E2 & F2). destruct (fs_close p x2) as (r3 & x3 & E3 & F3).
    rewrite E2. cbn. rewrite E3. cbn. eexists x3, _. split; [done|]. by rewrite F3, F2, F1.
  - destruct (fs_truncate p n x1 Hp) as (x2 & E2 & F2); [lia|]. destruct (fs_close p x2) as (r3 & x3 & E3 & F3).
    rewrite E2. cbn. rewrite E3. cbn. eexists x3, _. split; [done|]. rewrite F3, F2, F1.
    destruct (files x !! p); [done|]. by rewrite insert_insert_eq.
Qed.

#[local] Arguments truncateSparse : simpl never.

Definition refines_at (o : op) : Prop :=
  ∀ (s : S) x v, abs root (files x) v →
  ∃ r v' x' tr, run h (impl root o) s x = (r, s, x', tr) ∧ spec o v r v' ∧ abs root (files x') v'.

(** An operation on one volume: the ID is checked first. *)
Lemma validateVolumeID_spec id :
  validateVolumeID id = if decide (valid_id id) then Ok tt else Err (refusal id).
Proof.
  destruct (decide (valid_id id)) as [H|H]; [by apply validateVolumeID_ok|].
  destruct (validateVolumeID id) as [[]|e] eqn:E; [by apply validateVolumeID_ok in E|].
  revert E. unfold validateVolumeID, refusal. case_bool_decide; [by intros [= <-]|]. case_match; [by intros [= <-]|done].
Qed.

Lemma refines_get id : refines_at (OpGet id).
Proof.
  intros s x v Ha. unfold impl, Get, spec, spec_volume. rewrite validateVolumeID_spec.
  destruct (decide (valid_id id)) as [Hid|Hid]; cbn; [|by eauto 10]. rewrite fs_stat.
  cbn. rewrite (proj1 (Ha id Hid)). destruct (v !! id); cbn; eauto 10.
Qed.

Lemma refines_delete id : refines_at (OpDelete id).
Proof.
  intros s x v Ha. unfold impl, Delete, spec, spec_volume. rewrite validateVolumeID_spec.
  destruct (decide (valid_id id)) as [Hid|Hid]; cbn; [|by eauto 10].
  destruct (fs_remove (ImagePath root id) x) as (x1 & E1 & F1). rewrite E1. cbn.
  destruct (fs_remove (JoinPath [root; id +:+ ".json"]) x1) as (x2 & E2 & F2).
  assert (abs root (files x2) (delete id v)) as Ha2.
  { rewrite F2, F1. apply abs_delete_other; [by apply abs_delete|]. apply Hid. }
  destruct (decide (is_Some (files x !! ImagePath root id))); cbn; rewrite E2; cbn; eauto 10.
Qed.

Lemma refines_create id cap u : refines_at (OpCreate id cap u).
Proof.
  intros s x v Ha. unfold impl, Create, spec, spec_volume, spec_create. rewrite validateVolumeID_spec.
  destruct (decide (valid_id id)) as [Hid|Hid]; cbn; [|by eauto 10].
  destruct (Ha id Hid) as [Hf Hn].
  destruct (decide (cap ≤ 0)%Z) as [Hc|Hc]; [rewrite bool_decide_true by done; cbn; by eauto 10|].
  rewrite bool_decide_false by done. cbn. rewrite fs_stat, Hf.
  destruct (v !! id) as [n|] eqn:Ev; cbn.
  - destruct (decide (n = AlignUp cap ∨ n = cap)); repeat case_bool_decide; cbn; try (by eauto 10); exfalso; tauto.
  - destruct (run_truncateSparse (ImagePath root id) (AlignUp cap) s x) as (x1 & tr1 & E1 & F1).
    unfold bindE. rewrite !run_bind, E1. rewrite Hf in F1. destruct (decide (AlignUp cap < 0)%Z) as [Hs|Hs]; cbn.
    { eexists _, _, _, _. split; [done|]. split; [done|]. rewrite F1. by apply abs_insert. }
    assert (abs root (files x1) (<[id := AlignUp cap]> v)) as H1 by (rewrite F1; apply abs_insert; [done|done|lia]).
    destruct u; cbn; [by eauto 10|].
    match goal with |- context [h _ (RunCmd ?c) x1] => destruct (fs_mkfs c x1) as (out & x2 & E2 & F2); [done|] end.
    rewrite E2. cbn. eexists _, _, _, _. split; [done|]. split; [done|]. by rewrite F2.
Qed.

Lemma refines_resize id cap : refines_at (OpResize id cap).
Proof.
  intros s x v Ha. unfold impl, Resize, Get, spec, spec_volume, spec_resize. rewrite validateVolumeID_spec.
  destruct (decide (valid_id id)) as [Hid|Hid]; cbn; [|by eauto 10].
  destruct (Ha id Hid) as [Hf Hn]. rewrite fs_stat, Hf.
  destruct (v !! id) as [n|] eqn:Ev; cbn; [|by eauto 10]. specialize (Hn n eq_refl).
  destruct (decide (AlignUp cap < n)%Z) as [Hs|Hs]; [rewrite bool_decide_true by done; cbn; by eauto 10|].
  rewrite bool_decide_false by done. case_bool_decide as He; cbn.
  - subst n. eexists _, _, _, _. split; [done|]. split; [done|]. by rewrite insert_id.
  - destruct (run_truncateSparse (ImagePath root id) (AlignUp cap) s x) as (x1 & tr1 & E1 & F1).
    unfold bindE. rewrite !run_bind, E1. rewrite decide_False in F1 by lia. rewrite decide_False by lia. cbn. eexists _, _, _, _. split; [done|].
    split; [done|]. rewrite F1. apply abs_insert; [done|done|lia].
Qed.

(** The loop of List on entries that are there. *)
Definition is_image (d : dirent) : bool := negb (de_dir d) && HasSuffix (de_name d) ImageExt.
Definition listed_as (x : X) (d : dirent) : option Metadata :=
  n ← files x !! JoinPath [root; de_name d]; Some (mkMetadata (TrimSuffix (de_name d) ImageExt) n).
Lemma run_list_entries es (s : S) x :
  ∃ tr, run h (list_entries root es) s x = (omap (listed_as x) (List.filter is_image es), s, x, tr).
Proof.
  induction es as [|d es [tr IH]]; cbn; [by eauto|]. unfold is_image at 1.
  destruct (de_dir d); cbn; [by eauto|]. destruct (HasSuffix (de_name d) ImageExt); cbn; [|by eauto].
  rewrite fs_stat. unfold listed_as at 1. destruct (files x !! JoinPath [root; de_name d]) as [n|]; cbn.
  - rewrite run_bind, IH. cbn. eauto.
  - rewrite IH. eauto.
Qed.

Lemma image_name (d : dirent) : is_image d = true → d = mkDirent (TrimSuffix (de_name d) ImageExt +:+ ImageExt) false.
Proof.
  unfold is_image. destruct d as [name [|]]; cbn; [done|]. intros [u ->]%HasSuffix_spec. by rewrite TrimSuffix_app.
Qed.

Lemma refines_list : refines_at OpList.
Proof.
  intros s x v Ha. unfold impl, ListImages. cbn. destruct (fs_readdir root x Hroot) as (es & E & Hnd & Hes).
  rewrite E. cbn. destruct (run_list_entries es s x) as [tr El]. unfold bindE. rewrite !run_bind, El. cbn.
  eexists _, _, _, _. split; [done|]. split; [|done]. split; [done|]. eexists. split; [done|]. clear E El. split.
  - assert (∀ l, l ⊆ es → NoDup (de_name <$> l) → NoDup (VolumeID <$> omap (listed_as x) (List.filter is_image l))) as H;
      [|by apply H].
    induction l as [|d l IH]; [constructor|]. rewrite fmap_cons. intros Hsub [Hd Hl]%NoDup_cons. cbn.
    assert (NoDup (VolumeID <$> omap (listed_as x) (List.filter is_image l))) as IH' by (apply IH; set_solver).
    destruct (is_image d) eqn:Ed; [|done]. cbn. destruct (listed_as x d) as [m|] eqn:Em; [|done].
    rewrite fmap_cons. apply NoDup_cons. split; [|done]. intros (m' & E & Hm')%list_elem_of_fmap.
    apply list_elem_of_omap in Hm' as (d' & [Hin Hi]%list_elem_of_In%filter_In & Ed').
    apply Hd. apply list_elem_of_fmap. exists d'. split; [|by apply list_elem_of_In].
    apply image_name in Ed, Hi. unfold listed_as in Em, Ed'.
    apply bind_Some in Em as (? & _ & [= <-]). apply bind_Some in Ed' as (? & _ & [= <-]). cbn in E.
    rewrite Ed, Hi. cbn. by rewrite E.
  - intros id n Hid. destruct (Ha id Hid) as [Hf _]. rewrite <- Hf, list_elem_of_omap. split.
    + intros (d & [_ Hi]%list_elem_of_In%filter_In & Hl). apply image_name in Hi.
      unfold listed_as in Hl. apply bind_Some in Hl as (k & Hk & [= <- <-]). unfold ImagePath.
      by rewrite Hi in Hk.
    + intros Hk. exists (mkDirent (id +:+ ImageExt) false). split.
      * apply list_elem_of_In, filter_In. split; [|apply HasSuffix_spec; by exists id].
        apply list_elem_of_In, Hes. split; [|by eexists]. destruct Hid as (_ & Hid & _). by apply img_plain; simpl; [|..|lia].
      * unfold listed_as. cbn. unfold ImagePath in Hk. rewrite Hk. cbn. by rewrite TrimSuffix_app.
Qed.

Lemma refines_all o : refines_at o.
Proof. destruct o; auto using refines_get, refines_delete, refines_create, refines_resize, refines_list. Qed.
End Refinement.

(** A sequence of operations, and what the abstract store answers to it. *)
Fixpoint impl_seq {S} (root : string) (os : list op) : prog S (list (res answer)) :=
  match os with
  | [] => Ret []
  | o :: os => r <- impl root o ;; rs <- impl_seq root os ;; Ret (r :: rs)
  end.
Inductive spec_seq : list op → vols → list (res answer) → vols → Prop :=
  | spec_done v : spec_seq [] v [] v
  | spec_step o os v r v1 rs v2 : spec o v r v1 → spec_seq os v1 rs v2 → spec_seq (o :: os) v (r :: rs) v2.

(** C14: the image manager implements the abstract volume store.  Over any
    file system that satisfies [FsLaws], every sequence of Create, Delete, Get,
    List and Resize calls, with any IDs and capacities, answers call by call
    what the operations on the abstract map answer (an invalid ID is refused,
    idempotent Create, a size mismatch is an error, idempotent Delete, no
    shrinking, List gives each volume once), and the image files still hold
    exactly the volumes of the map afterwards.  A Create whose rounded size
    overflows int64 fails and leaves a volume of size 0, as in the map. *)
Theorem manager_refines {X S} (h : handler X) (files : X → gmap string Z) root os (s : S) x v :
  FsLaws h files → abs_path root → abs root (files x) v →
  ∃ rs v' x' tr, run h (impl_seq root os) s x = (rs, s, x', tr) ∧ spec_seq os v rs v' ∧ abs root (files x') v'.
Proof.
  intros Hl Hr. revert x v. induction os as [|o os IH]; intros x v Ha.
  { eexists _, _, _, _. split; [done|]. split; [constructor|done]. }
  destruct (refines_all (S := S) h files root Hr o s x v Ha) as (r & v1 & x1 & tr1 & E1 & Hs & Ha1).
  destruct (IH x1 v1 Ha1) as (rs & v2 & x2 & tr2 & E2 & Hss & Ha2). cbn. rewrite run_bind, E1, run_bind, E2. cbn.
  eexists _, _, _, _. split; [done|]. split; [by econstructor|done].
Qed.

(** ** A file system that satisfies the laws *)
Module SimFs.
Definition fs := gmap string Z.

Definition os_step (o : osop) (f : fs) : res unit * fs :=
  match o with
  | OpenCreate p => (Ok tt, match f !! p with Some _ => f | None => <[p := 0%Z]> f end)
  | Truncate p n => if decide (n < 0)%Z then (Err EINVAL, f) else (Ok tt, <[p := n]> f)
  | Remove p => (if decide (is_Some (f !! p)) then Ok tt else Err ErrNotExist, delete p f)
  | _ => (Ok tt, f)
  end.
(** The files directly below a directory. *)
#[local] Instance plain_seg_dec w : Decision (plain_seg w).
Proof. unfold plain_seg. apply _. Defined.
Definition below (p : string) (kv : string * Z) : option dirent :=
  name ← CutPrefix kv.1 (p +:+ "/"); if decide (plain_seg name) then Some (mkDirent name false) else None.
Definition entries (p : string) (f : fs) : list dirent := omap (below p) (map_to_list f).

Definition handle : handler fs := λ R c f,
  match c in call R return R * fs with
  | RunCmd _ => (("", None), f)
  | Stat p => (match f !! p with Some n => Ok (mkFinfo n false) | None => Err ErrNotExist end, f)
  | OsOp o => os_step o f
  | ReadDir p => (Ok (entries p f), f)
  | c => quiet _ c f
  end.

Lemma below_spec p kv d :
  below p kv = Some d ↔ ∃ name, plain_seg name ∧ kv.1 = p +:+ "/" +:+ name ∧ d = mkDirent name false.
Proof.
  unfold below. rewrite bind_Some. setoid_rewrite CutPrefix_Some. setoid_rewrite sapp_assoc. split.
  - intros (t & E & Hd). destruct (decide (plain_seg t)); [|done]. injection Hd as <-. by exists t.
  - intros (name & Hn & E & ->). exists name. by rewrite decide_True.
Qed.
Lemma entries_spec p f name :
  abs_path p → mkDirent name false ∈ entries p f ↔ plain_seg name ∧ is_Some (f !! JoinPath [p; name]).
Proof.
  intros Hp. unfold entries. rewrite list_elem_of_omap. setoid_rewrite below_spec. split.
  - intros ([k n] & Hin%elem_of_map_to_list & name' & Hn & E & [= ->]). cbn in E. subst k.
    split; [done|]. rewrite JoinPath_seg by done. by eexists.
  - intros [Hn [n Hk]]. rewrite JoinPath_seg in Hk by done. exists (p +:+ "/" +:+ name, n).
    split; [by apply elem_of_map_to_list|]. by exists name.
Qed.
Lemma entries_NoDup p f : NoDup (de_name <$> entries p f).
Proof.
  assert (∀ l : list (string * Z), NoDup l.*1 → NoDup (de_name <$> omap (below p) l)) as H;
    [|apply H, NoDup_fst_map_to_list]. induction l as [|kv l IH]; [constructor|].
  intros Hn. rewrite fmap_cons in Hn. apply NoDup_cons in Hn as [Hk Hn]. cbn. destruct (below p kv) as [d|] eqn:Ed; [|auto].
  rewrite fmap_cons. apply NoDup_cons. split; [|auto]. intros (d' & E & Hd')%list_elem_of_fmap.
  apply list_elem_of_omap in Hd' as (kv' & Hin & Hb). apply below_spec in Ed as (a & _ & Ea & ->), Hb as (b & _ & Eb & ->).
  cbn in E. subst b. apply Hk. rewrite Ea, <- Eb. by apply list_elem_of_fmap_2.
Qed.

Lemma handle_laws : FsLaws handle (λ f, f).
Proof.
  split; intros; cbn.
  - done.
  - eauto.
  - rewrite decide_False by lia. eauto.
  - rewrite decide_True by lia. eauto.
  - eexists. split; [done|]. split; [apply entries_NoDup|]. intros name. by apply entries_spec.
  - eauto.
  - eauto.
  - eauto.
Qed.
End SimFs.

Definition demo_ops : list op :=
  [OpCreate "fb-a" 5000 false; OpCreate "fb-a" 5000 true; OpCreate "fb-a" 9000 true; OpResize "fb-a" 20000; OpGet "fb-a";
   OpCreate "../b" 1 false; OpCreate "fb-b" 9223372036854775807 true; OpCreate "fb-c" 0 true; OpList;
   OpDelete "fb-a"; OpDelete "fb-a"; OpGet "fb-a"; OpDelete ""].
Definition demo_run := run SimFs.handle (impl_seq "/b" demo_ops) tt ∅.

Lemma manager_refines_witness :
  demo_run.1.1.1 =
    [Ok (Volume (mkMetadata "fb-a" 8192)); Ok (Volume (mkMetadata "fb-a" 8192)); Err (ErrCapacityMismatch 9000 8192);
     Ok (Volume (mkMetadata "fb-a" 20480)); Ok (Volume (mkMetadata "fb-a" 20480)); Err (refusal "../b");
     Err (Errorf "truncate " EINVAL); Err (ErrMsg "capacityBytes must be > 0");
     Ok (Volumes [mkMetadata "fb-a" 20480; mkMetadata "fb-b" 0]); Ok Done; Ok Done; Err ErrNotExist; Err (refusal "")] ∧
  ∃ v', spec_seq demo_ops ∅ demo_run.1.1.1 v' ∧ abs "/b" demo_run.1.2 v'.
Proof.
  split; [vm_compute; reflexivity|].
  destruct (manager_refines SimFs.handle (λ f, f) "/b" demo_ops tt ∅ ∅) as (rs & v' & x' & tr & E & Hs & Ha).
  - exact SimFs.handle_laws.
  - exists ["b"]. split_and!; [done|repeat constructor; done|done].
  - intros id _. by rewrite !lookup_empty.
  - exists v'. unfold demo_run. rewrite E. split; [exact Hs|exact Ha].
Defined.
