(* ===== verification/Mount.v ===== *)
(** Mounts: pkg/mount/mount.go (mount(8), umount(8), findmnt(8)) and
    pkg/mount/mountinfo.go (the parser of /proc/<pid>/mountinfo and what the
    driver reads off it). *)

From Stdlib Require Import ZArith Lia Ascii.
From stdpp Require Import base option gmap strings list.
From S2P Require Import Prelude GoStrings Regexp Effects.

Import strings path.
Local Open Scope prog_scope.

Section Mounter.
Context {S : Type}.

(** Exit status 1 of a command run through [exec.Runner]. *)
Definition exit_is (n : Z) (e : goerr) : bool :=
  match as_exec e with Some (x, _, _) => bool_decide (x = n) | None => false end.

(** src/pkg/mount/mount.go:24-51 (Mounter.IsMountPoint) *)
Definition IsMountPoint (target : string) : prog S (res bool) :=
  st <- sys (Stat target) ;;
  match st with
  | Err e => if is_NotExist e then ok false else fail e
  | Ok _ =>
      r <- Run "findmnt" ["-n"; "-o"; "TARGET"; "--target"; target] ;;
      match snd r with
      | None =>
          out <- Run "findmnt" ["-n"; "-o"; "TARGET"; target] ;;
          ok (existsb (λ line, bool_decide (TrimSpace line = target)) (Split (fst out) "010"%char))
      | Some e => if exit_is 1 e then ok false else fail e
      end
  end.

(** src/pkg/mount/mount.go:55-65 (Mounter.Source) *)
Definition Source (target : string) : prog S (res string) :=
  r <- Run "findmnt" ["-n"; "-o"; "SOURCE"; target] ;;
  match snd r with
  | Some e => fail (Errorf "findmnt " e)
  | None => match rev (Fields (fst r)) with
            | [] => fail (ErrMsg "findmnt : no source")
            | src :: _ => ok src
            end
  end.

(** src/pkg/mount/mount.go:79-89 (Mounter.sourceMounted) *)
Definition sourceMounted (source : string) (pre : list string) : prog S (res bool) :=
  r <- Run "findmnt" (pre ++ ["-n"; "-o"; "TARGET"; "-S"; source]) ;;
  match snd r with
  | Some e => if exit_is 1 e then ok false else fail (Errorf "findmnt -S " e)
  | None => ok (negb (bool_decide (TrimSpace (fst r) = "")))
  end.

(** src/pkg/mount/mount.go:69-71 (Mounter.IsSourceMounted) *)
Definition IsSourceMounted (source : string) : prog S (res bool) := sourceMounted source [].
(** src/pkg/mount/mount.go:75-77 (Mounter.IsSourceMountedInHost) *)
Definition IsSourceMountedInHost (source : string) : prog S (res bool) :=
  sourceMounted source ["--task"; "1"].

(** src/pkg/mount/mount.go:93-103 (Mounter.Mount) *)
Definition MountFs (source target fstype : string) (opts : list string) : prog S (res unit) :=
  let args := ["-t"; fstype] ++ (if bool_decide (opts = []) then [] else ["-o"; Join opts ","])
              ++ [source; target] in
  r <- Run "mount" args ;;
  match snd r with Some e => fail (Errorf "mount " e) | None => ok tt end.

(** src/pkg/mount/mount.go:106-116 (Mounter.BindMount) *)
Definition BindMount (source target : string) (readOnly : bool) : prog S (res unit) :=
  r <- Run "mount" ["--bind"; source; target] ;;
  match snd r with
  | Some e => fail (Errorf "bind mount " e)
  | None =>
      if readOnly then
        r <- Run "mount" ["-o"; "remount,ro,bind"; target] ;;
        match snd r with Some e => fail (Errorf "remount ro " e) | None => ok tt end
      else ok tt
  end.

(** src/pkg/mount/mount.go:119-131 (Mounter.Unmount) *)
Definition Unmount (target : string) : prog S (res unit) :=
  mounted <-? IsMountPoint target ;;
  if negb mounted then ok tt else
  r <- Run "umount" [target] ;;
  match snd r with Some e => fail (Errorf "umount " e) | None => ok tt end.
End Mounter.

(** ** mountinfo *)

(** src/pkg/mount/mountinfo.go:15-22 (MountInfo) *)
Record MountInfo := mkMountInfo {
  MajorMinor : string;
  MountPoint : string;
  MountOptions : list string;
  FSType : string;
  mi_Source : string;
  SuperOptions : list string;
}.

(** [strconv.ParseUint(s, 8, 8)] of three bytes. *)
Definition octal_digit (c : ascii) : option nat :=
  let n := nat_of_ascii c in
  if bool_decide (48 ≤ n) && bool_decide (n ≤ 55) then Some (n - 48) else None.
Definition octal3 (a b c : ascii) : option ascii :=
  match octal_digit a, octal_digit b, octal_digit c with
  | Some x, Some y, Some z =>
      let v := x * 64 + y * 8 + z in
      if bool_decide (v ≤ 255) then Some (ascii_of_nat v) else None
  | _, _, _ => None
  end.

(** src/pkg/mount/mountinfo.go:107-116 (unescapeOctal, the loop) *)
Fixpoint unescape_go (s : string) : string :=
  match s with
  | "" => ""
  | String x rest =>
      match rest with
      | String a (String b (String c tl)) =>
          if bool_decide (x = "\"%char) then
            match octal3 a b c with
            | Some v => String v (unescape_go tl)
            | None => String x (unescape_go rest)
            end
          else String x (unescape_go rest)
      | _ => String x (unescape_go rest)
      end
  end.

(** src/pkg/mount/mountinfo.go:102-118 (unescapeOctal) *)
Definition unescapeOctal (s : string) : string :=
  if negb (Contains s "\") then s else unescape_go s.

(** [bufio.Scanner] with [ScanLines]: no empty last line, a trailing CR cut. *)
Definition drop_cr (s : string) : string := TrimSuffix s (String "013"%char "").
Definition scan_lines (s : string) : list string :=
  match rev (Split s "010"%char) with
  | "" :: ls => rev ls
  | ls => rev ls
  end.

(** [slices.Index(f, "-")]. *)
Fixpoint index_of (x : string) (l : list string) : option nat :=
  match l with
  | [] => None
  | y :: l => if bool_decide (y = x) then Some 0 else S <$> index_of x l
  end.

(** src/pkg/mount/mountinfo.go:31-46 (ParseMountInfo, one line): [None] for a
    blank line. *)
Definition parse_line (line : string) : res (option MountInfo) :=
  let f := Fields line in
  if bool_decide (f = []) then Ok None else
  match index_of "-" f with
  | Some sep =>
      if bool_decide (sep < 6) || bool_decide (length f < sep + 4)
      then Err (ErrMsg "malformed mountinfo line: ")
      else Ok (Some (mkMountInfo (nth 2 f "") (unescapeOctal (nth 4 f "")) (Split (nth 5 f "") ","%char)
             (nth (sep + 1) f "") (unescapeOctal (nth (sep + 2) f "")) (Split (nth (sep + 3) f "") ","%char)))
  | None => Err (ErrMsg "malformed mountinfo line: ")
  end.

(** src/pkg/mount/mountinfo.go:30-48 (ParseMountInfo, the scan): a line that
    does not fit the 1 MiB buffer ends the scan with its error. *)
Fixpoint parse_lines (lines : list string) : res (list MountInfo) :=
  match lines with
  | [] => Ok []
  | l :: ls =>
      if bool_decide (1048576 ≤ Z.of_nat (String.length l))%Z
      then Err (ErrMsg "bufio.Scanner: token too long") else
      match parse_line (drop_cr l) with
      | Err e => Err e
      | Ok m => match parse_lines ls with
                | Err e => Err e
                | Ok ms => Ok (match m with Some m => m :: ms | None => ms end)
                end
      end
  end.

(** src/pkg/mount/mountinfo.go:26-49 (ParseMountInfo) *)
Definition ParseMountInfo (content : string) : res (list MountInfo) := parse_lines (scan_lines content).

(** src/pkg/mount/mountinfo.go:52-59 (ReadMountInfo) *)
Definition ReadMountInfo {S} (p : string) : prog S (res (list MountInfo)) :=
  content <-? sys (ReadFile p) ;;
  lift_res (ParseMountInfo content).

(** src/pkg/mount/mountinfo.go:64-69 (MountInfo.ForcedReadOnly) *)
Definition ForcedReadOnly (m : MountInfo) : bool :=
  if contains (SuperOptions m) "emergency_ro" || contains (SuperOptions m) "shutdown" then true
  else contains (MountOptions m) "rw" && contains (SuperOptions m) "ro".

(** src/pkg/mount/mountinfo.go:72-79 (LastAt) *)
Definition LastAt (entries : list MountInfo) (mountPoint : string) : option MountInfo :=
  List.find (λ e, bool_decide (MountPoint e = mountPoint)) (rev entries).

(** src/pkg/mount/mountinfo.go:82-82 (PublishTarget) *)
Record PublishTarget := mkTarget { PodUID : string; tgt_Path : string }.

(** src/pkg/mount/mountinfo.go:84-84 (podVolumePath) *)
Definition uid_char (c : ascii) : bool := Regexp.is_hex c || bool_decide (c = "-"%char).
(** src/pkg/mount/mountinfo.go:84-84 (podVolumePath): the pattern without its
    group, to be matched at every position up to the end of the text. *)
Definition podVolumePath : Regexp.re :=
  Regexp.Cat (Regexp.lit "/pods/")
  (Regexp.Cat (Regexp.repn 36 (Regexp.Chr uid_char))
  (Regexp.Cat (Regexp.lit "/volumes/kubernetes.io~csi/")
  (Regexp.Cat (Regexp.plus (Regexp.Chr (λ c, negb (bool_decide (c = "/"%char)))))
              (Regexp.lit "/mount")))).

(** src/pkg/mount/mountinfo.go:93-93 (podVolumePath.FindStringSubmatch): the
    group of the leftmost match, which starts after "/pods/". *)
Fixpoint find_pod (s : string) : option string :=
  if Regexp.matches podVolumePath s then Some (stake 36 (sdrop 6 s))
  else match s with "" => None | String _ s' => find_pod s' end.

(** src/pkg/mount/mountinfo.go:87-98 (PublishTargets) *)
Definition PublishTargets (entries : list MountInfo) (majorMinor : string) : list PublishTarget :=
  omap (λ e, if bool_decide (MajorMinor e = majorMinor)
             then (λ uid, mkTarget uid (MountPoint e)) <$> find_pod (MountPoint e)
             else None) entries.

(** ** Octal escapes *)

(** How the kernel writes a path in mountinfo (proc(5)). *)
Definition escape_char (c : ascii) : string :=
  if bool_decide (c = " "%char) then "\040"
  else if bool_decide (c = "009"%char) then "\011"
  else if bool_decide (c = "010"%char) then "\012"
  else if bool_decide (c = "\"%char) then "\134"
  else String c "".
Fixpoint escape (s : string) : string :=
  match s with "" => "" | String c s => escape_char c +:+ escape s end.

Lemma unescape_go_other c s :
  c ≠ "\"%char → unescape_go (String c s) = String c (unescape_go s).
Proof.
  intros Hc. cbn [unescape_go]. destruct s as [|a [|b [|d s]]]; try done.
  by rewrite bool_decide_false.
Qed.

Lemma unescape_go_free s : Contains s "\" = false → unescape_go s = s.
Proof.
  induction s as [|c s IH]; [done|]. rewrite Contains_cons. intros [H1 H2]%orb_false_iff.
  rewrite unescape_go_other, IH; [done..|]. intros ->.
  change (String "\" s) with ("\" +:+ s) in H1. by rewrite HasPrefix_app in H1.
Qed.

Lemma unescapeOctal_go s : unescapeOctal s = unescape_go s.
Proof.
  unfold unescapeOctal. destruct (Contains s "\") eqn:E; [done|].
  simpl. by rewrite unescape_go_free.
Qed.

Lemma unescape_escape s : unescapeOctal (escape s) = s.
Proof.
  rewrite unescapeOctal_go. induction s as [|c s IH]; [done|]. cbn [escape].
  unfold escape_char. repeat case_bool_decide; subst;
    rewrite ?sapp_cons, ?sapp_nil_l; rewrite ?unescape_go_other by done;
    cbn [unescape_go]; rewrite ?bool_decide_true by done; cbn; by rewrite IH.
Qed.

(** ** Fields *)

(** A field as the parser must see it: not empty, no space rune inside. *)
Definition field_ok (w : string) : bool :=
  negb (bool_decide (w = "")) && forallb (λ q, negb (Contains w q)) space_seqs.

Lemma field_ok_spec w :
  field_ok w = true ↔ w ≠ "" ∧ ∀ q, q ∈ space_seqs → Contains w q = false.
Proof.
  unfold field_ok. rewrite andb_true_iff, negb_true_iff, bool_decide_eq_false, forallb_forall.
  setoid_rewrite negb_true_iff. by setoid_rewrite <- list_elem_of_In.
Qed.

Lemma space_seqs_shape :
  Forall (λ q, String.length q ≤ 1 ∨ has_char " "%char q = false) space_seqs.
Proof. repeat (constructor; [vm_compute; first [left; lia|right; reflexivity]|]). constructor. Qed.

Lemma seq_at_word w rest :
  w ≠ "" → (∀ q, q ∈ space_seqs → Contains w q = false) →
  (rest = "" ∨ ∃ r, rest = String " " r) → seq_at space_seqs (w +:+ rest) = None.
Proof.
  intros Hw Hq Hr. apply seq_at_none. intros q Hin. apply HasPrefix_false. intros t E.
  destruct (decide (String.length q ≤ String.length w)) as [Hl|Hl].
  - assert (w = q +:+ sdrop (String.length q) w) as Ew.
    { rewrite <- (stake_sdrop (String.length q) w) at 1. f_equal.
      rewrite <- (stake_sdrop (String.length q) w), sapp_assoc in E.
      apply sapp_inj_len in E as [-> _]; [done|]. by rewrite slength_stake. }
    specialize (Hq q Hin). apply not_true_iff_false in Hq. apply Hq, Contains_spec.
    exists "", (sdrop (String.length q) w). done.
  - assert (q = w +:+ sdrop (String.length w) q) as Eq.
    { rewrite <- (stake_sdrop (String.length w) q) at 1. f_equal.
      rewrite <- (stake_sdrop (String.length w) q), sapp_assoc in E.
      apply sapp_inj_len in E as [Ew _]; [by symmetry|]. rewrite slength_stake; lia. }
    rewrite Eq, sapp_assoc in E. apply (inj (String.append w)) in E.
    pose proof (slength_sdrop (String.length w) q) as Hd.
    destruct (sdrop (String.length w) q) as [|c u] eqn:Eu; [simpl in Hd; lia|].
    destruct Hr as [->|[r ->]]; rewrite sapp_cons in E; [done|]. injection E as <- _.
    pose proof space_seqs_shape as Hs. rewrite Forall_forall in Hs.
    destruct (Hs q Hin) as [Hq1|Hq1].
    + destruct w; [done|]. simpl in Hl. lia.
    + rewrite Eq, has_char_app in Hq1. cbn in Hq1. by rewrite orb_true_r in Hq1.
Qed.

Lemma fields_go_word cur w rest :
  (∀ q, q ∈ space_seqs → Contains w q = false) →
  (rest = "" ∨ ∃ r, rest = String " " r) →
  fields_go cur 0 (w +:+ rest) = fields_go (String.rev w +:+ cur) 0 rest.
Proof.
  intros Hw Hr. revert cur. induction w as [|c w IH]; intros cur; [done|].
  pose proof (seq_at_word (String c w) rest ltac:(done) Hw Hr) as Hs.
  rewrite sapp_cons in *. cbn [fields_go]. rewrite Hs, IH.
  - by rewrite srev_cons, sapp_assoc.
  - intros q Hq. specialize (Hw q Hq). rewrite Contains_cons in Hw. by apply orb_false_iff in Hw as [_ ?].
Qed.

Lemma Fields_Join ws : Forall (λ w, field_ok w = true) ws → Fields (Join ws " ") = ws.
Proof.
  induction 1 as [|w ws Hw Hws IH]; [done|]. apply field_ok_spec in Hw as [Hn Hq].
  assert (∀ rest, (if bool_decide (String.rev w +:+ "" = "") then [] else [String.rev (String.rev w +:+ "")]) ++ rest
           = w :: rest) as Hflush.
  { intros rest. rewrite sapp_nil_r, bool_decide_false, srev_involutive; [done|].
    intros E. apply (f_equal String.rev) in E. by rewrite srev_involutive in E. }
  unfold Fields in *. destruct ws as [|w' ws].
  - cbn [Join]. rewrite <- (sapp_nil_r w) at 1. rewrite fields_go_word by auto.
    cbn [fields_go]. specialize (Hflush []). by rewrite app_nil_r in Hflush.
  - rewrite Join_cons by done. rewrite fields_go_word by eauto. rewrite <- IH at 2.
    rewrite sapp_cons, sapp_nil_l. cbn [fields_go].
    assert (seq_at space_seqs (String " " (Join (w' :: ws) " ")) = Some 1) as -> by (by destruct (Join (w' :: ws) " ")).
    apply Hflush.
Qed.

(** ** Printing, and the round trip *)

(** A row of the table as the kernel prints it: the fields the driver does not
    keep (IDs, root, optional fields) beside the record it does. *)
Record row := mkRow {
  row_id : string; row_parent : string; row_root : string; row_optional : list string;
  row_info : MountInfo;
}.

Definition row_fields (r : row) : list string :=
  let m := row_info r in
  [row_id r; row_parent r; MajorMinor m; row_root r; escape (MountPoint m); Join (MountOptions m) ","]
  ++ row_optional r ++ ["-"; FSType m; escape (mi_Source m); Join (SuperOptions m) ","].

Definition print_row (r : row) : string := Join (row_fields r) " ".

Definition options_ok (l : list string) : Prop :=
  l ≠ [] ∧ Forall (λ o, has_char ","%char o = false) l.

(** What the format promises: printable fields, the separator where it
    belongs, comma-separated options, lines shorter than the scan buffer. *)
Definition row_ok (r : row) : Prop :=
  Forall (λ w, field_ok w = true) (row_fields r) ∧
  Forall (λ w, w ≠ "-") (take 6 (row_fields r)) ∧ Forall (λ w, w ≠ "-") (row_optional r) ∧
  options_ok (MountOptions (row_info r)) ∧ options_ok (SuperOptions (row_info r)) ∧
  (Z.of_nat (String.length (print_row r)) < 1048576)%Z.

Lemma index_of_app l1 l2 :
  Forall (λ w, w ≠ "-") l1 → index_of "-" (l1 ++ "-" :: l2) = Some (length l1).
Proof.
  induction 1 as [|w l1 Hw _ IH]; [done|]. simpl.
  rewrite bool_decide_false by done. by rewrite IH.
Qed.

Lemma parse_print_row r : row_ok r → parse_line (print_row r) = Ok (Some (row_info r)).
Proof.
  intros (Hf & H6 & Ho & Hm & Hs & _). unfold parse_line, print_row. rewrite Fields_Join by done.
  rewrite bool_decide_false by done.
  set (six := take 6 (row_fields r)).
  assert (row_fields r = (six ++ row_optional r) ++
    "-" :: [FSType (row_info r); escape (mi_Source (row_info r)); Join (SuperOptions (row_info r)) ","]) as E.
  { reflexivity. }
  rewrite E, index_of_app by (by apply Forall_app).
  set (l1 := six ++ row_optional r). assert (6 ≤ length l1) as Hl.
  { unfold l1, six. rewrite length_app. simpl. lia. }
  rewrite !bool_decide_false by (rewrite ?length_app; cbn [length]; lia). cbn [orb].
  assert (∀ i, nth (length l1 + i) (l1 ++ "-" :: [FSType (row_info r); escape (mi_Source (row_info r));
    Join (SuperOptions (row_info r)) ","]) "" = nth i ("-" :: [FSType (row_info r);
    escape (mi_Source (row_info r)); Join (SuperOptions (row_info r)) ","]) "") as Hn.
  { intros i. rewrite app_nth2 by lia. f_equal. lia. }
  rewrite !Hn. unfold l1, six. simpl. rewrite !unescape_escape.
  destruct Hm as [Hm1 Hm2], Hs as [Hs1 Hs2]. rewrite !Split_Join by done.
  by destruct (row_info r).
Qed.

Lemma field_free_char w c :
  field_ok w = true → String c "" ∈ space_seqs → has_char c w = false.
Proof.
  intros [_ Hq]%field_ok_spec Hc. specialize (Hq _ Hc).
  clear Hc. induction w as [|d w IH]; [done|]. rewrite Contains_cons in Hq.
  apply orb_false_iff in Hq as [H1 H2]. simpl. case_bool_decide as Hd; [|auto].
  subst d. change (String c w) with (String c "" +:+ w) in H1. by rewrite HasPrefix_app in H1.
Qed.

(** A printed row has no newline and does not end in a carriage return. *)
Lemma print_row_char r c :
  row_ok r → c ≠ " "%char → String c "" ∈ space_seqs → has_char c (print_row r) = false.
Proof.
  intros (Hf & _) Hc Hs. unfold print_row.
  assert (has_char c " " = false) as Hsp by (simpl; by rewrite bool_decide_false).
  induction Hf as [|w ws Hw _ IH]; [done|]. destruct ws as [|w' ws].
  - simpl. by apply field_free_char.
  - rewrite Join_cons by done. rewrite !has_char_app, Hsp, IH.
    by rewrite field_free_char.
Qed.

Lemma drop_cr_id s : has_char "013"%char s = false → drop_cr s = s.
Proof.
  intros H. unfold drop_cr, TrimSuffix. destruct (HasSuffix _ _) eqn:E; [|done].
  apply HasSuffix_spec in E as [u ->]. rewrite has_char_app in H. simpl in H.
  by rewrite orb_true_r in H.
Qed.

Lemma scan_lines_print ls :
  ls ≠ [] → Forall (λ l, has_char "010"%char l = false) ls →
  scan_lines (Join ls (String "010"%char "") +:+ String "010"%char "") = ls.
Proof.
  intros Hn Hf. unfold scan_lines.
  assert (Join ls (String "010"%char "") +:+ String "010"%char "" = Join (ls ++ [""]) (String "010"%char "")) as ->.
  { rewrite Join_app by done. simpl. by rewrite sapp_nil_r. }
  rewrite Split_Join, rev_app_distr; [simpl; apply rev_involutive|by destruct ls|].
  apply Forall_app. split; [done|]. by constructor.
Qed.

Lemma cr_nl_space : String "013"%char "" ∈ space_seqs ∧ String "010"%char "" ∈ space_seqs.
Proof. split; apply contains_spec; vm_compute; reflexivity. Qed.

Lemma parse_lines_print rs :
  Forall row_ok rs → parse_lines (print_row <$> rs) = Ok (row_info <$> rs).
Proof.
  induction 1 as [|r rs Hr _ IH]; [done|]. cbn [fmap list_fmap parse_lines].
  rewrite bool_decide_false by (destruct Hr as (_&_&_&_&_&?); lia).
  rewrite drop_cr_id by (apply print_row_char; [done..|apply cr_nl_space]).
  rewrite parse_print_row by done. fold (print_row <$> rs). by rewrite IH.
Qed.

(** ** Pod mounts *)

Lemma find_pod_tail_split uid name :
  has_char "/"%char uid = false → has_char "/"%char name = false →
  ∀ pre, Split (pre +:+ "/pods/" +:+ uid +:+ "/volumes/kubernetes.io~csi/" +:+ name +:+ "/mount") "/"%char
    = Split pre "/"%char ++ ["pods"; uid; "volumes"; "kubernetes.io~csi"; name; "mount"].
Proof.
  intros Hu Hn pre.
  assert (∀ x y, Split (x +:+ String "/" y) "/"%char = Split x "/"%char ++ Split y "/"%char) as Hsplit.
  { intros x y. induction x as [|c x IH]; [simpl; by rewrite ?bool_decide_true|].
    rewrite sapp_cons. cbn [Split]. case_bool_decide; [by rewrite IH|].
    rewrite IH. pose proof (Split_nonnil x "/"%char). by destruct (Split x "/"). }
  change (pre +:+ "/pods/" +:+ uid +:+ "/volumes/kubernetes.io~csi/" +:+ name +:+ "/mount")
    with (pre +:+ String "/" ("pods" +:+ String "/" (uid +:+ String "/" ("volumes" +:+ String "/"
           ("kubernetes.io~csi" +:+ String "/" (name +:+ String "/" "mount")))))).
  rewrite Hsplit. f_equal. by rewrite !Split_app.
Qed.

(** The text of a pod volume mount of the pod [uid]. *)
Definition pod_mount_path (uid p : string) : Prop :=
  ∃ pre name, p = pre +:+ "/pods/" +:+ uid +:+ "/volumes/kubernetes.io~csi/" +:+ name +:+ "/mount" ∧
    String.length uid = 36 ∧ Regexp.all_chars uid_char uid = true ∧
    name ≠ "" ∧ has_char "/"%char name = false.

Lemma all_chars_free p c s :
  Regexp.all_chars p s = true → p c = false → has_char c s = false.
Proof.
  intros Ha Hp. induction s as [|d s IH]; [done|]. simpl in *.
  apply andb_true_iff in Ha as [Hd Hs]. case_bool_decide; [congruence|auto].
Qed.

Lemma all_chars_notslash s :
  Regexp.all_chars (λ c, negb (bool_decide (c = "/"%char))) s = negb (has_char "/"%char s).
Proof. induction s as [|c s IH]; [done|]. simpl. rewrite IH. by case_bool_decide. Qed.

Lemma podVolumePath_lang s :
  Regexp.matches podVolumePath s = true ↔
  ∃ uid name, s = "/pods/" +:+ uid +:+ "/volumes/kubernetes.io~csi/" +:+ name +:+ "/mount" ∧
    String.length uid = 36 ∧ Regexp.all_chars uid_char uid = true ∧
    name ≠ "" ∧ has_char "/"%char name = false.
Proof.
  rewrite Regexp.matches_lang. unfold podVolumePath. split.
  - intros (? & ? & -> & ->%Regexp.lang_lit & H)%Regexp.lang_cat_iff.
    apply Regexp.lang_cat_iff in H as (uid & ? & -> & [Hl Ha]%Regexp.lang_repn_chr & H).
    apply Regexp.lang_cat_iff in H as (? & ? & -> & ->%Regexp.lang_lit & H).
    apply Regexp.lang_cat_iff in H as (name & ? & -> & [Hn Hs]%Regexp.lang_plus_chr & ->%Regexp.lang_lit).
    rewrite all_chars_notslash, negb_true_iff in Hs. eauto 10.
  - intros (uid & name & -> & Hl & Ha & Hn & Hs).
    repeat (constructor; [by rewrite ?Regexp.lang_lit, ?Regexp.lang_repn_chr|]).
    constructor; [|by apply Regexp.lang_lit].
    apply Regexp.lang_plus_chr. by rewrite all_chars_notslash, Hs.
Qed.

Lemma find_pod_sound s uid : find_pod s = Some uid → pod_mount_path uid s.
Proof.
  induction s as [|c s IH]; cbn [find_pod].
  - destruct (Regexp.matches podVolumePath "") eqn:E; [vm_compute in E|]; done.
  - destruct (Regexp.matches podVolumePath (String c s)) eqn:E.
    + apply podVolumePath_lang in E as (u & name & E & Hl & Ha & Hn & Hs). rewrite E.
      rewrite (sdrop_app "/pods/" _ : sdrop 6 _ = _), <- Hl, stake_app.
      intros [= <-]. exists "", name. eauto.
    + intros H%IH. destruct H as (pre & name & -> & ?). exists (String c pre), name. eauto.
Qed.

Lemma pod_mount_path_unique s u1 u2 : pod_mount_path u1 s → pod_mount_path u2 s → u1 = u2.
Proof.
  intros (pre1 & n1 & -> & _ & Ha1 & _ & Hn1) (pre2 & n2 & E & _ & Ha2 & _ & Hn2).
  apply (f_equal (λ s, Split s "/"%char)) in E.
  rewrite !find_pod_tail_split in E by (done || by eapply all_chars_free).
  apply app_inj_2 in E as [_ E]; [|done]. by simplify_eq.
Qed.

Lemma find_pod_spec s uid : find_pod s = Some uid ↔ pod_mount_path uid s.
Proof.
  split; [apply find_pod_sound|]. intros H.
  assert (is_Some (find_pod s)) as [u Hu].
  { destruct H as (pre & name & -> & Hl & Ha & Hn & Hs). induction pre as [|c pre IH].
    - assert (Regexp.matches podVolumePath ("" +:+ "/pods/" +:+ uid +:+ "/volumes/kubernetes.io~csi/" +:+ name +:+ "/mount") = true) as E.
      { apply podVolumePath_lang. eauto 10. }
      rewrite sapp_nil_l in *. cbn [find_pod String.append]. 
      destruct ("/pods/" +:+ uid +:+ "/volumes/kubernetes.io~csi/" +:+ name +:+ "/mount") eqn:Es;
        cbn [find_pod]; rewrite E; eauto.
    - rewrite sapp_cons. cbn [find_pod]. destruct (Regexp.matches _ _); eauto. }
  rewrite Hu. f_equal. eapply pod_mount_path_unique; [by apply find_pod_sound|done].
Qed.

(** ** Theorems *)

(** C32: the mountinfo parser inverts the kernel's printing.  A table of
    well-formed rows, printed with the octal escapes of proc(5), one line per
    row, parses to exactly the records of those rows, in order: mount points
    and sources with spaces, tabs, newlines and backslashes included. *)
Theorem mountinfo_roundtrip rs :
  rs ≠ [] → Forall row_ok rs →
  ParseMountInfo (Join (print_row <$> rs) (String "010"%char "") +:+ String "010"%char "")
    = Ok (row_info <$> rs).
Proof.
  intros Hn Hok. unfold ParseMountInfo. rewrite scan_lines_print.
  - by apply parse_lines_print.
  - by destruct rs.
  - rewrite Forall_fmap. eapply Forall_impl; [exact Hok|]. intros r Hr. simpl.
    apply print_row_char; [done..|apply cr_nl_space].
Qed.

Definition demo_row : row :=
  mkRow "101" "22" "/" ["shared:50"]
    (mkMountInfo "7:3" "/var/lib/with space\x" ["rw"; "relatime"] "ext4" "/dev/loop3" ["ro"; "errors=remount-ro"]).

Lemma mountinfo_roundtrip_witness :
  ParseMountInfo (Join (print_row <$> [demo_row; demo_row]) (String "010"%char "") +:+ String "010"%char "")
    = Ok (row_info <$> [demo_row; demo_row]).
Proof.
  apply (mountinfo_roundtrip [demo_row; demo_row]); [discriminate|].
  assert (row_ok demo_row) as H.
  { split_and!; [repeat (constructor; [vm_compute; reflexivity|]); constructor
                |repeat (constructor; [done|]); constructor
                |repeat (constructor; [done|]); constructor
                |split; [done|repeat constructor]|split; [done|repeat constructor]
                |vm_compute; reflexivity]. }
  repeat (constructor; [exact H|]). constructor.
Defined.

(** [PublishTargets] lists exactly the kubelet pod-volume mounts of a
    device: a target with pod UID [u] and path [p] is reported if and only if
    some row of that device is mounted at [p] and [p] has the shape
    .../pods/<u>/volumes/kubernetes.io~csi/<name>/mount with a 36-character
    UID and a one-element name. *)
Theorem PublishTargets_spec entries mm u p :
  mkTarget u p ∈ PublishTargets entries mm ↔
  ∃ e, e ∈ entries ∧ MajorMinor e = mm ∧ MountPoint e = p ∧ pod_mount_path u p.
Proof.
  unfold PublishTargets. rewrite list_elem_of_omap. split.
  - intros (e & He & Hf). case_bool_decide; [|done].
    apply fmap_Some in Hf as (uid & Hu & [= -> ->]). apply find_pod_spec in Hu. eauto.
  - intros (e & He & Hmm & <- & Hp). exists e. split; [done|].
    rewrite bool_decide_true by done. apply fmap_Some. exists u. by rewrite find_pod_spec.
Qed.

(** [LastAt] returns the visible mount: the row it returns is mounted at
    the path and no later row is; it returns none exactly when no row is. *)
Theorem LastAt_visible entries mp :
  match LastAt entries mp with
  | Some e => ∃ l1 l2, entries = l1 ++ e :: l2 ∧ MountPoint e = mp ∧
                       Forall (λ e', MountPoint e' ≠ mp) l2
  | None => Forall (λ e', MountPoint e' ≠ mp) entries
  end.
Proof.
  unfold LastAt. rewrite <- (rev_involutive entries). generalize (rev entries). clear entries.
  intros es. rewrite rev_involutive. induction es as [|e es IH]; simpl; [constructor|].
  case_bool_decide as He.
  - exists (rev es), []. done.
  - destruct (List.find _ es) as [e'|] eqn:E.
    + destruct IH as (l1 & l2 & -> & Hm & Hl). exists l1, (l2 ++ [e]).
      split; [by rewrite <- app_assoc|]. split; [done|].
      apply Forall_app. by rewrite Forall_singleton.
    + apply Forall_app. by rewrite Forall_singleton.
Qed.
