(* ===== verification/Json.v ===== *)
(** encoding/json, as far as the driver uses it.

    The driver decodes three documents: the output of losetup --json --list,
    the LUKS2 metadata of luksDump --dump-json-metadata, and its own state
    file, which it also encodes.  The reader, the string escapes, the
    indenting writer and the decoding into the driver's struct types are
    those of Go 1.25.  The theorem: the state file reads back as it was
    written. *)

From Stdlib Require Import ZArith Lia Ascii.
From stdpp Require Import base option gmap strings list sorting.
From S2P Require Import Prelude GoStrings.

Import strings.

(** ** UTF-8 *)
Definition byte (c : ascii) : nat := nat_of_ascii c.
Definition in_range (lo hi : nat) (c : ascii) : bool := (lo <=? byte c) && (byte c <=? hi).
Definition cont (c : ascii) : bool := in_range 128 191 c.

(** [utf8.DecodeRune] on a string whose first byte is not ASCII: the length
    of the rune it starts with, if it is well formed. *)
Definition utf8_len (s : string) : option nat :=
  match s with
  | String a (String b s2) =>
      if in_range 194 223 a then (if cont b then Some 2 else None) else
      match s2 with
      | String c s3 =>
          if in_range 224 239 a then
            if (if bool_decide (byte a = 224) then in_range 160 191 b
                else if bool_decide (byte a = 237) then in_range 128 159 b else cont b) && cont c
            then Some 3 else None
          else
          match s3 with
          | String d _ =>
              if in_range 240 244 a then
                if (if bool_decide (byte a = 240) then in_range 144 191 b
                    else if bool_decide (byte a = 244) then in_range 128 143 b else cont b) && cont c && cont d
                then Some 4 else None
              else None
          | _ => None
          end
      | _ => None
      end
  | _ => None
  end.

(** The encoding of U+FFFD, and [utf8.AppendRune]. *)
Definition replacement : string := byte_str [239; 191; 189].
Definition utf8_enc (r : Z) : string :=
  let b (z : Z) := Z.to_nat z in
  if (r <? 128)%Z then byte_str [b r]
  else if (r <? 2048)%Z then byte_str [b (192 + r / 64)%Z; b (128 + r mod 64)%Z]
  else if ((55296 <=? r) && (r <=? 57343) || (1114111 <? r))%Z then replacement
  else if (r <? 65536)%Z then byte_str [b (224 + r / 4096)%Z; b (128 + r / 64 mod 64)%Z; b (128 + r mod 64)%Z]
  else byte_str [b (240 + r / 262144)%Z; b (128 + r / 4096 mod 64)%Z; b (128 + r / 64 mod 64)%Z; b (128 + r mod 64)%Z].

(** ** Strings *)

Definition hex_digit (n : nat) : ascii := ascii_of_nat (if n <? 10 then 48 + n else 87 + n).
Definition hex_val (c : ascii) : option Z :=
  if in_range 48 57 c then Some (Z.of_nat (byte c - 48))
  else if in_range 97 102 c then Some (Z.of_nat (byte c - 87))
  else if in_range 65 70 c then Some (Z.of_nat (byte c - 55)) else None.

Definition dquote : ascii := ascii_of_nat 34.
Definition bslash : ascii := ascii_of_nat 92.

(** One ASCII byte as [json.Marshal] writes it, HTML characters escaped. *)
Definition esc_ascii (c : ascii) : string :=
  let n := byte c in
  if bool_decide (c = dquote) || bool_decide (c = bslash) then String bslash (String c "")
  else if n =? 8 then String bslash "b" else if n =? 12 then String bslash "f"
  else if n =? 10 then String bslash "n" else if n =? 13 then String bslash "r"
  else if n =? 9 then String bslash "t"
  else if (n <? 32) || (n =? 60) || (n =? 62) || (n =? 38)
  then String bslash ("u00" +:+ String (hex_digit (n / 16)) (String (hex_digit (n mod 16)) ""))
  else String c "".

(** The rune [u]: U+2028 and U+2029 are escaped. *)
Definition esc_rune (u : string) : string :=
  if bool_decide (u = byte_str [226; 128; 168]) then String bslash "u2028"
  else if bool_decide (u = byte_str [226; 128; 169]) then String bslash "u2029" else u.

(** The body of a quoted string; [fuel] bounds its length. *)
Fixpoint quote_body (fuel : nat) (s : string) : string :=
  match fuel, s with
  | S n, String c s' =>
      if byte c <? 128 then esc_ascii c +:+ quote_body n s'
      else match utf8_len s with
           | Some k => esc_rune (stake k s) +:+ quote_body n (sdrop k s)
           | None => String bslash "ufffd" +:+ quote_body n s'
           end
  | _, _ => ""
  end.
Definition quote (s : string) : string :=
  String dquote (quote_body (String.length s) s +:+ String dquote "").

Definition getu4 (s : string) : option (Z * string) :=
  match s with
  | String a (String b (String c (String d s'))) =>
      match hex_val a, hex_val b, hex_val c, hex_val d with
      | Some a, Some b, Some c, Some d => Some ((a * 4096 + b * 256 + c * 16 + d)%Z, s')
      | _, _, _, _ => None
      end
  | _ => None
  end.

Definition is_surrogate (r : Z) : bool := ((55296 <=? r) && (r <=? 57343))%Z.

(** What an escape after a backslash stands for, and what follows it. *)
Definition unescape (s : string) : option (string * string) :=
  match s with
  | String c s' =>
      if bool_decide (c = dquote) || bool_decide (c = bslash) || bool_decide (c = "/"%char)
      then Some (String c "", s')
      else if bool_decide (c = "b"%char) then Some (byte_str [8], s')
      else if bool_decide (c = "f"%char) then Some (byte_str [12], s')
      else if bool_decide (c = "n"%char) then Some (byte_str [10], s')
      else if bool_decide (c = "r"%char) then Some (byte_str [13], s')
      else if bool_decide (c = "t"%char) then Some (byte_str [9], s')
      else if bool_decide (c = "u"%char) then
        match getu4 s' with
        | None => None
        | Some (r, s2) =>
            if negb (is_surrogate r) then Some (utf8_enc r, s2) else
            match (match s2 with
                   | String x (String y s3) =>
                       if bool_decide (x = bslash) && bool_decide (y = "u"%char) then getu4 s3 else None
                   | _ => None
                   end) with
            | Some (r2, s4) =>
                if ((r <=? 56319) && (56320 <=? r2) && (r2 <=? 57343))%Z
                then Some (utf8_enc ((r - 55296) * 1024 + (r2 - 56320) + 65536)%Z, s4)
                else Some (replacement, s2)
            | None => Some (replacement, s2)
            end
        end
      else None
  | "" => None
  end.

(** The string that starts after an opening quote, and what follows the
    closing one. *)
Fixpoint unquote (fuel : nat) (s : string) : option (string * string) :=
  match fuel with
  | 0 => None
  | S n =>
      let cons x r := match r with Some (y, t) => Some (x +:+ y, t) | None => None end in
      match s with
      | "" => None
      | String c s' =>
          if bool_decide (c = dquote) then Some ("", s')
          else if bool_decide (c = bslash) then
            match unescape s' with Some (x, s2) => cons x (unquote n s2) | None => None end
          else if byte c <? 32 then None
          else if byte c <? 128 then cons (String c "") (unquote n s')
          else match utf8_len s with
               | Some k => cons (stake k s) (unquote n (sdrop k s))
               | None => cons replacement (unquote n s')
               end
      end
  end.

(** ** Values *)
Inductive json :=
  | JNull
  | JBool (b : bool)
  | JNum (literal : string)
  | JStr (s : string)
  | JArr (l : list json)
  | JObj (l : list (string * json)).

Definition is_ws (c : ascii) : bool := let n := byte c in (n =? 32) || (n =? 9) || (n =? 10) || (n =? 13).
Fixpoint skip_ws (s : string) : string :=
  match s with String c s' => if is_ws c then skip_ws s' else s | "" => "" end.

Definition is_digit (c : ascii) : bool := in_range 48 57 c.
(** The longest run of digits, and the rest. *)
Fixpoint digits (s : string) : string * string :=
  match s with
  | String c s' => if is_digit c then let '(d, r) := digits s' in (String c d, r) else ("", s)
  | "" => ("", "")
  end.

(** A number: sign, integer part without leading zero, fraction, exponent. *)
Definition scan_int (s : string) : option (string * string) :=
  match s with
  | String c s' => if bool_decide (c = "0"%char) then Some ("0", s')
                   else if is_digit c then Some (digits s) else None
  | "" => None
  end.
Definition scan_frac (s : string) : option (string * string) :=
  match s with
  | String c s' => if bool_decide (c = "."%char)
                   then let '(d, r) := digits s' in if bool_decide (d = "") then None else Some (String c d, r)
                   else Some ("", s)
  | "" => Some ("", "")
  end.
Definition scan_exp (s : string) : option (string * string) :=
  match s with
  | String c s' =>
      if bool_decide (c = "e"%char) || bool_decide (c = "E"%char) then
        let '(sg, s2) := match s' with
                         | String x s2 => if bool_decide (x = "+"%char) || bool_decide (x = "-"%char)
                                          then (String x "", s2) else ("", s')
                         | "" => ("", "")
                         end in
        let '(d, r) := digits s2 in
        if bool_decide (d = "") then None else Some (String c (sg +:+ d), r)
      else Some ("", s)
  | "" => Some ("", "")
  end.
Definition scan_number (s : string) : option (string * string) :=
  let '(sg, s1) := match s with
                   | String c s' => if bool_decide (c = "-"%char) then ("-", s') else ("", s)
                   | "" => ("", "")
                   end in
  match scan_int s1 with
  | None => None
  | Some (i, s2) =>
      match scan_frac s2 with
      | None => None
      | Some (f, s3) => match scan_exp s3 with
                        | None => None
                        | Some (e, s4) => Some (sg +:+ i +:+ f +:+ e, s4)
                        end
      end
  end.

Section Items.
Context (value : string → option (json * string)).

(** The elements of a non-empty array, up to and including its bracket. *)
Fixpoint parse_elems (fuel : nat) (s : string) : option (list json * string) :=
  match fuel with
  | 0 => None
  | S n =>
      match value s with
      | None => None
      | Some (v, s1) =>
          match skip_ws s1 with
          | String c s2 =>
              if bool_decide (c = "]"%char) then Some ([v], s2)
              else if bool_decide (c = ","%char) then
                match parse_elems n s2 with Some (l, r) => Some (v :: l, r) | None => None end
              else None
          | "" => None
          end
      end
  end.

(** The members of a non-empty object, up to and including its brace. *)
Fixpoint parse_members (fuel : nat) (s : string) : option (list (string * json) * string) :=
  match fuel with
  | 0 => None
  | S n =>
      match skip_ws s with
      | String q s0 =>
          if negb (bool_decide (q = dquote)) then None else
          match unquote (S (String.length s0)) s0 with
          | None => None
          | Some (k, s1) =>
              match skip_ws s1 with
              | String col s2 =>
                  if negb (bool_decide (col = ":"%char)) then None else
                  match value s2 with
                  | None => None
                  | Some (v, s3) =>
                      match skip_ws s3 with
                      | String c s4 =>
                          if bool_decide (c = "}"%char) then Some ([(k, v)], s4)
                          else if bool_decide (c = ","%char) then
                            match parse_members n s4 with Some (l, r) => Some ((k, v) :: l, r) | None => None end
                          else None
                      | "" => None
                      end
                  end
              | "" => None
              end
          end
      | "" => None
      end
  end.
End Items.

(** A value with at most [depth] - 1 levels of nesting inside it. *)
Fixpoint parse_value (depth : nat) (s : string) : option (json * string) :=
  match depth with
  | 0 => None
  | S d =>
      match skip_ws s with
      | "" => None
      | String c s1 =>
          if bool_decide (c = dquote) then
            match unquote (S (String.length s1)) s1 with Some (x, r) => Some (JStr x, r) | None => None end
          else if bool_decide (c = "{"%char) then
            match skip_ws s1 with
            | String x s2 => if bool_decide (x = "}"%char) then Some (JObj [], s2)
                             else match parse_members (parse_value d) (String.length s1) s1 with
                                  | Some (l, r) => Some (JObj l, r) | None => None end
            | "" => None
            end
          else if bool_decide (c = "["%char) then
            match skip_ws s1 with
            | String x s2 => if bool_decide (x = "]"%char) then Some (JArr [], s2)
                             else match parse_elems (parse_value d) (String.length s1) s1 with
                                  | Some (l, r) => Some (JArr l, r) | None => None end
            | "" => None
            end
          else match CutPrefix (String c s1) "true", CutPrefix (String c s1) "false", CutPrefix (String c s1) "null" with
               | Some r, _, _ => Some (JBool true, r)
               | _, Some r, _ => Some (JBool false, r)
               | _, _, Some r => Some (JNull, r)
               | _, _, _ => match scan_number (String c s1) with Some (n, r) => Some (JNum n, r) | None => None end
               end
      end
  end.

(** encoding/json nests at most 10000 deep. *)
Definition max_depth : nat := Z.to_nat 10001.
Definition parse (s : string) : option json :=
  match parse_value max_depth s with
  | Some (v, r) => if bool_decide (skip_ws r = "") then Some v else None
  | None => None
  end.

(** ** The writer: [json.MarshalIndent(v, "", "  ")] *)
Definition nl : string := String "010"%char "".
Fixpoint pad (n : nat) : string := match n with 0 => "" | S n => "  " +:+ pad n end.

Fixpoint print (d : nat) (v : json) : string :=
  let newline k := nl +:+ pad k in
  match v with
  | JNull => "null"
  | JBool b => if b then "true" else "false"
  | JNum n => n
  | JStr s => quote s
  | JArr [] => "[]"
  | JArr l => "[" +:+ newline (S d) +:+ Join (map (print (S d)) l) ("," +:+ newline (S d)) +:+ newline d +:+ "]"
  | JObj [] => "{}"
  | JObj l => "{" +:+ newline (S d) +:+
              Join (map (λ kv, quote kv.1 +:+ ": " +:+ print (S d) kv.2) l) ("," +:+ newline (S d)) +:+
              newline d +:+ "}"
  end.

(** ** Decoding into Go types *)

(** The key of a struct field is matched exactly or else with letter case
    folded, the Kelvin sign and the long s included. *)
Definition fold_name (s : string) : string :=
  ToLower (ReplaceAll (ReplaceAll s (byte_str [226; 132; 170]) "k") (byte_str [197; 191]) "s").

(** The value of the field: of several matching members the last one counts. *)
Definition field (l : list (string * json)) (name : string) : option json :=
  snd <$> last (filter (λ kv, fold_name kv.1 = fold_name name) l).

(** Into a string, an int, a bool, a slice, a map; null leaves the zero value. *)
Definition dec_string (v : option json) : option string :=
  match v with None | Some JNull => Some "" | Some (JStr s) => Some s | _ => None end.

Fixpoint parse_digits (acc : Z) (s : string) : option Z :=
  match s with
  | "" => Some acc
  | String c s => if is_digit c then parse_digits (10 * acc + Z.of_nat (byte c - 48))%Z s else None
  end.
Definition dec_int (v : option json) : option Z :=
  match v with
  | None | Some JNull => Some 0%Z
  | Some (JNum n) =>
      match (match n with
             | String "-" m => Z.opp <$> parse_digits 0 m
             | _ => parse_digits 0 n
             end) with
      | Some z => if bool_decide (int64_min ≤ z ≤ int64_max)%Z then Some z else None
      | None => None
      end
  | _ => None
  end.
Definition dec_list {A} (f : option json → option A) (v : option json) : option (list A) :=
  match v with None | Some JNull => Some [] | Some (JArr l) => mapM (λ x, f (Some x)) l | _ => None end.
Definition dec_map {A} (f : option json → option A) (v : option json) : option (option (gmap string A)) :=
  match v with
  | None | Some JNull => Some None
  | Some (JObj l) =>
      match mapM (λ kv : string * json, x ← f (Some kv.2); Some (kv.1, x)) l with
      | Some kvs => Some (Some (list_to_map (reverse kvs)))   (* the last of equal keys counts *)
      | None => None
      end
  | _ => None
  end.
Definition dec_struct {A} (f : list (string * json) → option A) (v : option json) : option A :=
  match v with None | Some JNull => f [] | Some (JObj l) => f l | _ => None end.

(** ** The driver's documents *)

(** src/pkg/loop/losetup.go:84-87 (Attachment) *)
Record Attachment := mkAttachment { Device : string; BackFile : string }.

#[export] Instance Attachment_eq_dec : EqDecision Attachment.
Proof. solve_decision. Defined.

(** src/pkg/loop/state.go:16-29 (Mapping): a nil map is [None]. *)
Record Mapping := mkMapping {
  m_VolumeID : string;
  m_LoopDev : string;
  m_ImagePath : string;
  m_StagePath : string;
  m_CryptDev : string;
  m_StageContext : option (gmap string string);
  m_MountFlags : list string;
}.

#[export] Instance Mapping_eq_dec : EqDecision Mapping.
Proof. solve_decision. Defined.

Definition dec_Attachment : option json → option Attachment := dec_struct (λ l,
  name ← dec_string (field l "name"); back ← dec_string (field l "back-file");
  Some (mkAttachment name back)).

Definition dec_Mapping : option json → option Mapping := dec_struct (λ l,
  v ← dec_string (field l "volumeId"); d ← dec_string (field l "loopDev");
  i ← dec_string (field l "imagePath"); st ← dec_string (field l "stagePath");
  c ← dec_string (field l "cryptDev"); ctx ← dec_map dec_string (field l "stageContext");
  fl ← dec_list dec_string (field l "mountFlags");
  Some (mkMapping v d i st c ctx fl)).

(** src/pkg/loop/losetup.go:103-108 (Losetup.List, the decoding) *)
Definition json_loopdevices (out : string) : option (list Attachment) :=
  v ← parse out; dec_struct (λ l, dec_list dec_Attachment (field l "loopdevices")) (Some v).

(** src/pkg/crypt/crypt.go:289-294 (Crypt.SectorSize, the decoding) *)
Definition json_luks_segments (out : string) : option (gmap string Z) :=
  v ← parse out;
  m ← dec_struct (λ l, dec_map (dec_struct (λ l, dec_int (field l "sector_size"))) (field l "segments")) (Some v);
  Some (default ∅ m).

(** src/pkg/loop/state.go:56-58 (LoadState, the decoding): the text null gives
    Go a nil map, which reads as the empty one; that a Put into it panics is not
    kept *)
Definition json_state (b : string) : option (gmap string Mapping) :=
  v ← parse b; m ← dec_map dec_Mapping (Some v); Some (default ∅ m).

(** The entries of a map, in the order of their keys' bytes. *)
Definition key_le {A} (x y : string * A) : Prop := String.leb x.1 y.1 = true.
#[export] Instance key_le_dec {A} : RelDecision (@key_le A).
Proof. intros x y. unfold key_le. apply _. Defined.
Definition entries {A} (m : gmap string A) : list (string * A) := merge_sort key_le (map_to_list m).

Definition str_member (k v : string) : string * json := (k, JStr v).

(** src/pkg/loop/state.go:16-29 (Mapping, its JSON tags) *)
Definition enc_Mapping (m : Mapping) : json :=
  JObj ([str_member "volumeId" (m_VolumeID m); str_member "loopDev" (m_LoopDev m);
         str_member "imagePath" (m_ImagePath m); str_member "stagePath" (m_StagePath m)] ++
        (if bool_decide (m_CryptDev m = "") then [] else [str_member "cryptDev" (m_CryptDev m)]) ++
        match entries (default ∅ (m_StageContext m)) with
        | [] => []
        | l => [("stageContext", JObj (map (λ kv, str_member kv.1 kv.2) l))]
        end ++
        match m_MountFlags m with [] => [] | l => [("mountFlags", JArr (map JStr l))] end).

(** src/pkg/loop/state.go:94-98 (State.flushLocked, the encoding) *)
Definition json_marshal_state (d : gmap string Mapping) : string :=
  print 0 (JObj (map (λ kv, (kv.1, enc_Mapping kv.2)) (entries d))).

(** ** Strings read back *)

(** Well-formed UTF-8 ([utf8.ValidString]). *)
Inductive utf8 : string → Prop :=
  | utf8_nil : utf8 ""
  | utf8_ascii c s : byte c < 128 → utf8 s → utf8 (String c s)
  | utf8_multi u s : utf8_len u = Some (String.length u) → utf8 s → utf8 (u +:+ s).

Lemma in_range_spec lo hi c : in_range lo hi c = true ↔ lo ≤ byte c ≤ hi.
Proof. unfold in_range. rewrite andb_true_iff, !Nat.leb_le. lia. Qed.

Lemma utf8_len_app u s k : utf8_len u = Some k → utf8_len (u +:+ s) = Some k.
Proof.
  destruct u as [|a [|b u]]; try done. cbn [utf8_len String.append app].
  rewrite !sapp_cons. cbn [utf8_len]. destruct (in_range 194 223 a); [done|].
  destruct u as [|c u]; [done|]. rewrite !sapp_cons. cbn [utf8_len].
  destruct (in_range 224 239 a); [done|]. destruct u as [|d u]; [done|]. by rewrite !sapp_cons.
Qed.

Lemma utf8_len_head u k : utf8_len u = Some k → ∃ c t, u = String c t ∧ 128 ≤ byte c.
Proof.
  destruct u as [|a [|b u]]; try done. intros H. exists a, (String b u). split; [done|].
  cbn [utf8_len] in H. destruct (in_range 194 223 a) eqn:E; [apply in_range_spec in E; lia|].
  destruct u as [|c u]; [done|]. destruct (in_range 224 239 a) eqn:E2; [apply in_range_spec in E2; lia|].
  destruct u as [|d u]; [done|]. destruct (in_range 240 244 a) eqn:E3; [apply in_range_spec in E3; lia|done].
Qed.

Definition ucons (x : string) (r : option (string * string)) : option (string * string) :=
  match r with Some (y, t) => Some (x +:+ y, t) | None => None end.

Lemma unquote_ascii n c t :
  byte c < 128 → unquote (S n) (esc_ascii c +:+ t) = ucons (String c "") (unquote n t).
Proof.
  intros Hc. destruct c as [[] [] [] [] [] [] [] []]; first [exfalso; vm_compute in Hc; lia|reflexivity].
Qed.

Lemma unquote_rune n u t :
  utf8_len u = Some (String.length u) → unquote (S n) (esc_rune u +:+ t) = ucons u (unquote n t).
Proof.
  intros Hu. unfold esc_rune. case_bool_decide as E1; [subst u; reflexivity|].
  case_bool_decide as E2; [subst u; reflexivity|].
  pose proof (utf8_len_app u t _ Hu) as Hut. pose proof (sdrop_app u t) as Hd. pose proof (stake_app u t) as Hs.
  destruct (utf8_len_head _ _ Hu) as (c & u' & -> & Hc). rewrite sapp_cons in *. cbn [unquote].
  assert (∀ n, n < 128 → c ≠ ascii_of_nat n) as Hne.
  { intros m Hm ->. unfold byte in Hc. rewrite nat_ascii_embedding in Hc by lia. lia. }
  rewrite !bool_decide_false by (apply Hne; lia).
  rewrite (proj2 (Nat.ltb_ge _ _)), (proj2 (Nat.ltb_ge _ _)) by lia.
  by rewrite Hut, Hs, Hd.
Qed.

Lemma esc_ascii_nonempty c : 1 ≤ String.length (esc_ascii c).
Proof. unfold esc_ascii. repeat case_bool; simpl; lia. Qed.

Lemma esc_rune_nonempty u : utf8_len u = Some (String.length u) → 1 ≤ String.length (esc_rune u).
Proof.
  intros Hu. destruct (utf8_len_head _ _ Hu) as (c & t & -> & _).
  unfold esc_rune. repeat case_bool_decide; simpl; lia.
Qed.

Lemma quote_body_ascii f c s : byte c < 128 → quote_body (S f) (String c s) = esc_ascii c +:+ quote_body f s.
Proof. intros H. cbn [quote_body]. by rewrite (proj2 (Nat.ltb_lt _ _) H). Qed.

Lemma quote_body_rune f u s :
  utf8_len u = Some (String.length u) → quote_body (S f) (u +:+ s) = esc_rune u +:+ quote_body f s.
Proof.
  intros Hu. pose proof (utf8_len_app u s _ Hu) as Hus.
  pose proof (sdrop_app u s) as Hd. pose proof (stake_app u s) as Hs.
  destruct (utf8_len_head _ _ Hu) as (c & t & -> & Hc). rewrite sapp_cons in *. cbn [quote_body].
  rewrite (proj2 (Nat.ltb_ge _ _)) by lia. by rewrite Hus, Hd, Hs.
Qed.

Lemma unquote_body s :
  utf8 s → ∀ f n rest, String.length s ≤ f → String.length (quote_body f s) < n →
  unquote n (quote_body f s +:+ String dquote rest) = Some (s, rest).
Proof.
  induction 1 as [|c s Hc Hs IH|u s Hu Hs IH]; intros f n rest Hf Hn.
  - destruct f; (destruct n; [simpl in Hn; lia|reflexivity]).
  - destruct f as [|f]; [simpl in Hf; lia|]. simpl in Hf. rewrite quote_body_ascii in * by done.
    rewrite slength_app in Hn. pose proof (esc_ascii_nonempty c). destruct n as [|n]; [lia|].
    rewrite sapp_assoc, unquote_ascii, IH by (done || lia). done.
  - assert (1 ≤ String.length u) as Hl by (destruct (utf8_len_head _ _ Hu) as (?&?&->&_); simpl; lia).
    rewrite slength_app in Hf. destruct f as [|f]; [lia|]. rewrite quote_body_rune in * by done.
    rewrite slength_app in Hn. pose proof (esc_rune_nonempty u Hu). destruct n as [|n]; [lia|].
    rewrite sapp_assoc, unquote_rune, IH by (done || lia). done.
Qed.

Lemma unquote_quote s rest n :
  utf8 s → n = String.length (quote_body (String.length s) s +:+ String dquote "" +:+ rest) →
  unquote (S n) (quote_body (String.length s) s +:+ String dquote "" +:+ rest) = Some (s, rest).
Proof.
  intros Hs ->. rewrite sapp_cons, sapp_nil_l. apply unquote_body; [done..|].
  rewrite slength_app. lia.
Qed.

(** ** Values read back *)

(** The values the driver writes: strings, arrays and objects, nested less
    than [d] deep. *)
Fixpoint wf (d : nat) (v : json) : Prop :=
  match d with
  | 0 => False
  | S d => match v with
           | JStr s => utf8 s
           | JArr l => Forall (wf d) l
           | JObj l => Forall (λ kv, utf8 kv.1 ∧ wf d kv.2) l
           | _ => False
           end
  end.

Definition newline (k : nat) : string := nl +:+ pad k.
#[local] Arguments newline : simpl never.

Lemma skip_comma x : skip_ws ("," +:+ x) = String "," x.
Proof. done. Qed.
Lemma skip_colon x : skip_ws (": " +:+ x) = String ":" (" " +:+ x).
Proof. done. Qed.

Lemma skip_pad k t : skip_ws (pad k +:+ t) = skip_ws t.
Proof. induction k as [|k IH]; [done|]. cbn [pad]. by rewrite sapp_assoc. Qed.
Lemma skip_newline k t : skip_ws (newline k +:+ t) = skip_ws t.
Proof. unfold newline. rewrite sapp_assoc. apply skip_pad. Qed.
Lemma skip_ws_idem s : skip_ws (skip_ws s) = skip_ws s.
Proof. induction s as [|c s IH]; [done|]. cbn. destruct (is_ws c) eqn:E; [done|]. cbn. by rewrite E. Qed.

Lemma parse_value_skip d s : parse_value d (skip_ws s) = parse_value d s.
Proof. destruct d; [done|]. cbn [parse_value]. by rewrite skip_ws_idem. Qed.
Lemma parse_value_newline d k s : parse_value d (newline k +:+ s) = parse_value d s.
Proof. by rewrite <- parse_value_skip, skip_newline, parse_value_skip. Qed.

Lemma print_head i d v :
  wf d v → ∃ c t, print i v = String c t ∧ (c = dquote ∨ c = "["%char ∨ c = "{"%char).
Proof.
  destruct d; [done|]. destruct v as [| | |s|[|]|[|]]; cbn; try done; intros _; eauto 10.
Qed.

Lemma skip_print i d v t :
  wf d v → ∃ c u, skip_ws (print i v +:+ t) = String c u ∧ c ≠ "]"%char ∧ c ≠ "}"%char ∧
                  print i v +:+ t = String c u.
Proof.
  intros Hv. destruct (print_head i d v Hv) as (c & u & -> & Hc). rewrite sapp_cons.
  exists c, (u +:+ t). destruct Hc as [->|[->| ->]]; done.
Qed.

(** The text of the items of an array or object, from the first line break to
    the closing one. *)
Definition items_text {A} (i : nat) (pr : A → string) (l : list A) : string :=
  newline (S i) +:+ Join (map pr l) ("," +:+ newline (S i)) +:+ newline i.
#[local] Arguments items_text : simpl never.

Lemma items_text_cons {A} i (pr : A → string) x l :
  l ≠ [] → items_text i pr (x :: l) = newline (S i) +:+ pr x +:+ "," +:+ items_text i pr l.
Proof.
  intros Hl. unfold items_text. cbn [map]. rewrite Join_cons by (by destruct l).
  by rewrite !sapp_assoc.
Qed.

Lemma items_text_one {A} i (pr : A → string) x : items_text i pr [x] = newline (S i) +:+ pr x +:+ newline i.
Proof. done. Qed.

Lemma newline_length k : 1 ≤ String.length (newline k).
Proof. unfold newline. rewrite slength_app. simpl. lia. Qed.

Lemma parse_elems_text i value pr l rest n :
  l ≠ [] → (∀ v t, v ∈ l → value (newline (S i) +:+ pr v +:+ t) = Some (v, t)) →
  String.length (items_text i pr l) ≤ n →
  parse_elems value n (items_text i pr l +:+ String "]" rest) = Some (l, rest).
Proof.
  intros Hl. revert n. induction l as [|v l IH]; intros n Hv Hn; [done|].
  pose proof (newline_length (S i)) as Hnl.
  destruct n as [|n]; [unfold items_text in Hn; rewrite slength_app in Hn; lia|]. cbn [parse_elems].
  destruct (decide (l = [])) as [->|Hne].
  - rewrite items_text_one, !sapp_assoc, Hv by by left. by rewrite skip_newline.
  - rewrite items_text_cons in * by done. rewrite !slength_app in Hn.
    rewrite !sapp_assoc, Hv by by left. rewrite skip_comma. cbn -[parse_elems].
    rewrite IH; [done..|intros; apply Hv; by right|lia].
Qed.

Definition member_text (i : nat) (kv : string * json) : string := quote kv.1 +:+ ": " +:+ print (S i) kv.2.

Lemma parse_member_key k t s :
  utf8 k → s = quote k +:+ t →
  ∃ s0, skip_ws s = String dquote s0 ∧ unquote (S (String.length s0)) s0 = Some (k, t).
Proof.
  intros Hk ->. unfold quote. rewrite sapp_cons, sapp_assoc. eexists. split; [reflexivity|].
  by apply unquote_quote.
Qed.

Lemma parse_members_text i value l rest n :
  l ≠ [] → (∀ kv t, kv ∈ l → utf8 kv.1 ∧ value (" " +:+ print (S i) kv.2 +:+ t) = Some (kv.2, t)) →
  String.length (items_text i (member_text i) l) ≤ n →
  parse_members value n (items_text i (member_text i) l +:+ String "}" rest) = Some (l, rest).
Proof.
  intros Hl. revert n. induction l as [|[k v] l IH]; intros n Hv Hn; [done|].
  pose proof (newline_length (S i)) as Hnl.
  destruct n as [|n]; [unfold items_text in Hn; rewrite slength_app in Hn; lia|]. cbn [parse_members].
  assert (utf8 k) as Hk by (apply (Hv (k, v) ""); by left).
  assert (∀ t, value (" " +:+ print (S i) v +:+ t) = Some (v, t)) as Hval
    by (intros t; apply (Hv (k, v) t); by left).
  set (tail := if decide (l = []) then newline i +:+ String "}" rest
               else String "," (items_text i (member_text i) l +:+ String "}" rest)).
  assert (items_text i (member_text i) ((k, v) :: l) +:+ String "}" rest
          = newline (S i) +:+ quote k +:+ ": " +:+ print (S i) v +:+ tail) as E.
  { unfold tail, member_text. case_decide as Hd.
    - subst l. rewrite items_text_one. cbn [fst snd]. by rewrite !sapp_assoc.
    - rewrite items_text_cons by done. cbn [fst snd]. by rewrite !sapp_assoc. }
  rewrite E, skip_newline.
  destruct (parse_member_key k (": " +:+ print (S i) v +:+ tail) _ Hk eq_refl) as (s0 & -> & ->).
  rewrite bool_decide_true by done. cbn [negb].
  rewrite skip_colon. cbn -[skip_ws parse_members print String.append].
  rewrite Hval. unfold tail. case_decide as Hd.
  - subst l. by rewrite skip_newline.
  - change (skip_ws (String "," ?x)) with (String "," x). cbn -[parse_members]. rewrite IH; [done..|intros; apply Hv; by right|].
    rewrite items_text_cons in Hn by done. rewrite !slength_app in Hn. lia.
Qed.

Lemma print_arr i x l rest :
  print i (JArr (x :: l)) +:+ rest = String "[" (items_text i (print (S i)) (x :: l) +:+ String "]" rest).
Proof. unfold items_text, newline. cbn [print]. by rewrite !sapp_assoc. Qed.

Lemma print_obj i x l rest :
  print i (JObj (x :: l)) +:+ rest = String "{" (items_text i (member_text i) (x :: l) +:+ String "}" rest).
Proof. unfold items_text, newline. cbn [print]. by rewrite !sapp_assoc. Qed.

Lemma skip_items {A} i (pr : A → string) x l t :
  ∃ u, skip_ws (items_text i pr (x :: l) +:+ t) = skip_ws (pr x +:+ u).
Proof.
  destruct (decide (l = [])) as [->|Hne].
  - rewrite items_text_one, !sapp_assoc, skip_newline. eauto.
  - rewrite items_text_cons, !sapp_assoc, skip_newline by done. eauto.
Qed.

Lemma parse_value_str d s :
  parse_value (S d) (String dquote s) =
    match unquote (S (String.length s)) s with Some (x, r) => Some (JStr x, r) | None => None end.
Proof. reflexivity. Qed.

Lemma parse_value_arr d s c w :
  skip_ws s = String c w → c ≠ "]"%char →
  parse_value (S d) (String "[" s) =
    match parse_elems (parse_value d) (String.length s) s with Some (l, r) => Some (JArr l, r) | None => None end.
Proof.
  intros Hs Hc. transitivity (match skip_ws s with
    | String x s2 => if bool_decide (x = "]"%char) then Some (JArr [], s2)
                     else match parse_elems (parse_value d) (String.length s) s with
                          | Some (l, r) => Some (JArr l, r) | None => None end
    | "" => None end); [reflexivity|]. rewrite Hs. by rewrite bool_decide_false.
Qed.

Lemma parse_value_obj d s c w :
  skip_ws s = String c w → c ≠ "}"%char →
  parse_value (S d) (String "{" s) =
    match parse_members (parse_value d) (String.length s) s with Some (l, r) => Some (JObj l, r) | None => None end.
Proof.
  intros Hs Hc. transitivity (match skip_ws s with
    | String x s2 => if bool_decide (x = "}"%char) then Some (JObj [], s2)
                     else match parse_members (parse_value d) (String.length s) s with
                          | Some (l, r) => Some (JObj l, r) | None => None end
    | "" => None end); [reflexivity|]. rewrite Hs. by rewrite bool_decide_false.
Qed.

Lemma parse_print d v i rest : wf d v → parse_value d (print i v +:+ rest) = Some (v, rest).
Proof.
  revert v i rest. induction d as [|d IH]; intros v i rest Hv; [done|].
  destruct v as [| | |s|[|x l]|[|x l]]; try done; cbn [wf] in Hv.
  - cbn [print]. unfold quote. rewrite sapp_cons, sapp_assoc, parse_value_str.
    by rewrite unquote_quote.
  - rewrite print_arr.
    destruct (skip_items i (print (S i)) x l (String "]" rest)) as (u & Hu).
    destruct (skip_print (S i) d x u) as (c & w & Hc & Hne & _); [by inversion Hv|].
    rewrite (parse_value_arr _ _ c w) by congruence.
    rewrite parse_elems_text; [done..| |rewrite slength_app; lia].
    intros y t Hy. rewrite parse_value_newline. apply IH. by eapply Forall_forall in Hv.
  - rewrite print_obj.
    destruct (skip_items i (member_text i) x l (String "}" rest)) as (u & Hu).
    unfold member_text at 2, quote in Hu. rewrite sapp_assoc, sapp_cons in Hu.
    erewrite parse_value_obj; [|exact Hu|done].
    rewrite parse_members_text; [done..| |rewrite slength_app; lia].
    intros [k y] t Hy. eapply Forall_forall in Hv as [? ?]; [|exact Hy]. split; [done|].
    rewrite <- parse_value_skip. change (skip_ws (" " +:+ ?x)) with (skip_ws x).
    rewrite parse_value_skip. by apply IH.
Qed.

(** ** The state file reads back *)

Lemma entries_perm {A} (m : gmap string A) : entries m ≡ₚ map_to_list m.
Proof. apply merge_sort_Permutation. Qed.

Lemma entries_to_map {A} (m : gmap string A) : list_to_map (reverse (entries m)) = m.
Proof.
  rewrite <- (list_to_map_to_list m) at 2. apply list_to_map_proper.
  - rewrite reverse_Permutation, entries_perm. apply NoDup_fst_map_to_list.
  - by rewrite reverse_Permutation, entries_perm.
Qed.

Lemma entries_forall {A} (P : string → A → Prop) (m : gmap string A) :
  map_Forall P m → Forall (λ kv, P kv.1 kv.2) (entries m).
Proof. intros H. rewrite entries_perm. apply map_Forall_to_list in H. eapply Forall_impl; [exact H|]. by intros []. Qed.

Lemma entries_nil {A} (m : gmap string A) : entries m = [] ↔ m = ∅.
Proof.
  rewrite <- map_to_list_empty_iff. split; intros H.
  - apply Permutation_nil_r. by rewrite <- entries_perm, H.
  - apply Permutation_nil_r. by rewrite entries_perm, H.
Qed.

Lemma mapM_members {A B} (enc : A → json) (dec : option json → option B) (g : A → B) l :
  Forall (λ kv : string * A, dec (Some (enc kv.2)) = Some (g kv.2)) l →
  mapM (λ kv : string * json, x ← dec (Some kv.2); Some (kv.1, x)) (map (λ kv, (kv.1, enc kv.2)) l)
  = Some (map (λ kv, (kv.1, g kv.2)) l).
Proof. induction 1 as [|[k v] l E _ IH]; [done|]. cbn in *. rewrite E. cbn. by rewrite IH. Qed.

Lemma map_pair_id {A B} (l : list (A * B)) : map (λ kv, (kv.1, kv.2)) l = l.
Proof. induction l as [|[] l IH]; [done|]. cbn. by f_equal. Qed.

Lemma dec_string_list l : dec_list dec_string (Some (JArr (map JStr l))) = Some l.
Proof. cbn. induction l as [|x l IH]; [done|]. cbn in *. by rewrite IH. Qed.

Lemma dec_string_map (l : list (string * string)) :
  dec_map dec_string (Some (JObj (map (λ kv, str_member kv.1 kv.2) l))) = Some (Some (list_to_map (reverse l))).
Proof.
  unfold dec_map, str_member. rewrite (mapM_members JStr dec_string id).
  - unfold id. by rewrite map_pair_id.
  - by apply Forall_forall.
Qed.

(** An entry whose strings are valid UTF-8; and what of an entry the file
    keeps: a stage context that is empty but not nil is left out ("omitempty")
    and reads back as nil. *)
Definition utf8_mapping (m : Mapping) : Prop :=
  utf8 (m_VolumeID m) ∧ utf8 (m_LoopDev m) ∧ utf8 (m_ImagePath m) ∧ utf8 (m_StagePath m) ∧
  utf8 (m_CryptDev m) ∧ Forall utf8 (m_MountFlags m) ∧
  map_Forall (λ k v, utf8 k ∧ utf8 v) (default ∅ (m_StageContext m)).
Definition nil_if_empty (c : gmap string string) : option (gmap string string) := if decide (c = ∅) then None else Some c.
Definition read_back (m : Mapping) : Mapping :=
  mkMapping (m_VolumeID m) (m_LoopDev m) (m_ImagePath m) (m_StagePath m) (m_CryptDev m)
    (m_StageContext m ≫= nil_if_empty) (m_MountFlags m).

(** An entry that is kept as it is. *)
Definition writable (m : Mapping) : Prop := utf8_mapping m ∧ m_StageContext m ≠ Some ∅.
Lemma read_back_writable m : writable m → read_back m = m.
Proof.
  destruct m as [v d i st c [x|] fl]; intros [_ Hx]; unfold read_back, nil_if_empty; cbn; [|done].
  rewrite decide_False; [done|]. intros ->. by apply Hx.
Qed.

(** An optional member: absent, or present with its decoded value. *)
Definition opt_member {A} (k : string) (o : option (json * A)) : list (string * json) :=
  match o with Some (J, _) => [(k, J)] | None => [] end.

Lemma fields_Mapping v d i st (oc : option (json * string)) (ox : option (json * gmap string string))
    (ol : option (json * list string)) :
  let l := [str_member "volumeId" v; str_member "loopDev" d; str_member "imagePath" i; str_member "stagePath" st] ++
           opt_member "cryptDev" oc ++ opt_member "stageContext" ox ++ opt_member "mountFlags" ol in
  field l "volumeId" = Some (JStr v) ∧ field l "loopDev" = Some (JStr d) ∧ field l "imagePath" = Some (JStr i) ∧
  field l "stagePath" = Some (JStr st) ∧ field l "cryptDev" = fst <$> oc ∧ field l "stageContext" = fst <$> ox ∧
  field l "mountFlags" = fst <$> ol.
Proof.
  destruct oc as [[]|], ox as [[]|], ol as [[]|]; cbn [opt_member app]; split_and!; vm_compute; reflexivity.
Qed.

Lemma dec_enc_Mapping m : dec_Mapping (Some (enc_Mapping m)) = Some (read_back m).
Proof.
  destruct m as [v d i st c ctx fl]. unfold read_back.
  unfold enc_Mapping. cbn [m_VolumeID m_LoopDev m_ImagePath m_StagePath m_CryptDev m_StageContext m_MountFlags].
  set (oc := if decide (c = "") then None else Some (JStr c, c)).
  set (ox := (λ x, (JObj (map (λ kv, str_member kv.1 kv.2) (entries x)), x)) <$> (ctx ≫= nil_if_empty)).
  set (ol := match fl with [] => None | l => Some (JArr (map JStr l), l) end).
  replace (if bool_decide (c = "") then [] else [str_member "cryptDev" c]) with (opt_member "cryptDev" oc)
    by (unfold oc; case_decide; case_bool_decide; done).
  replace (match fl with [] => [] | s :: l => [("mountFlags", JArr (map JStr (s :: l)))] end) with (opt_member "mountFlags" ol)
    by (unfold ol; by destruct fl).
  replace (match entries (default ∅ ctx) with
           | [] => [] | l => [("stageContext", JObj (map (λ kv, str_member kv.1 kv.2) l))] end)
    with (opt_member "stageContext" ox).
  2: { unfold ox, nil_if_empty. destruct ctx as [x|]; [|done]. cbn [from_option mbind option_bind]; unfold id.
       case_decide as Hx; cbn [fmap option_fmap option_map opt_member]; [by rewrite Hx|].
       destruct (entries x) eqn:E; [by apply entries_nil in E|done]. }
  destruct (fields_Mapping v d i st oc ox ol) as (E1 & E2 & E3 & E4 & E5 & E6 & E7).
  unfold dec_Mapping, dec_struct. cbv beta iota. rewrite E1, E2, E3, E4, E5, E6, E7. cbn [dec_string mbind option_bind].
  replace (dec_string (fst <$> oc)) with (Some c) by (unfold oc; case_decide as Hd; [by rewrite Hd|done]).
  replace (dec_map dec_string (fst <$> ox)) with (Some (ctx ≫= nil_if_empty)).
  2: { unfold ox. destruct (ctx ≫= nil_if_empty) as [x|]; [|done]. cbn [fmap option_fmap option_map fst].
       by rewrite dec_string_map, entries_to_map. }
  replace (dec_list dec_string (fst <$> ol)) with (Some fl); [done|].
  unfold ol. destruct fl; [done|]. cbn [fmap option_fmap option_map fst]. by rewrite dec_string_list.
Qed.

Lemma wf_enc_Mapping m n : utf8_mapping m → wf (S (S (S n))) (enc_Mapping m).
Proof.
  destruct m as [v d i st c ctx fl]. unfold utf8_mapping, enc_Mapping.
  cbn [m_VolumeID m_LoopDev m_ImagePath m_StagePath m_CryptDev m_StageContext m_MountFlags].
  intros (Hv & Hd & Hi & Hs & Hc & Hf & Hx).
  assert (∀ k, k ∈ ["volumeId"; "loopDev"; "imagePath"; "stagePath"; "cryptDev"; "stageContext"; "mountFlags"] → utf8 k)
    as Hk by (intros k Hk; in_cases Hk; subst k; repeat (constructor; [vm_compute; lia|]); constructor).
  cbn [wf]. rewrite !Forall_app. split_and!.
  - repeat constructor; cbn; try done; apply Hk; set_solver.
  - case_bool_decide; repeat constructor; cbn; try done; apply Hk; set_solver.
  - destruct (entries (default ∅ ctx)) as [|e l] eqn:E; [done|]. rewrite <- E.
    constructor; [|done]. split; [apply Hk; set_solver|]. cbn [snd wf].
    apply Forall_map. eapply Forall_impl; [by apply entries_forall|]. by intros [].
  - destruct fl as [|f fl]; [done|]. constructor; [|done]. split; [apply Hk; set_solver|].
    cbn [snd wf]. by apply Forall_map.
Qed.

Lemma max_depth_eq : max_depth = S (S (S (S (Z.to_nat 9997)))).
Proof. unfold max_depth. lia. Qed.

Lemma json_state_marshal d :
  map_Forall (λ id m, utf8 id ∧ utf8_mapping m) d → json_state (json_marshal_state d) = Some (read_back <$> d).
Proof.
  intros Hd. apply entries_forall in Hd.
  assert (wf max_depth (JObj (map (λ kv, (kv.1, enc_Mapping kv.2)) (entries d)))) as Hwf.
  { rewrite max_depth_eq. cbn [wf]. apply Forall_map. eapply Forall_impl; [exact Hd|].
    intros [k m] [? ?]. split; [done|by apply wf_enc_Mapping]. }
  unfold json_state, json_marshal_state, parse.
  pose proof (parse_print _ _ 0 "" Hwf) as E. rewrite sapp_nil_r in E. rewrite E.
  rewrite bool_decide_true by done. cbn [mbind option_bind dec_map].
  rewrite (mapM_members enc_Mapping dec_Mapping read_back) by (apply Forall_forall; intros; apply dec_enc_Mapping).
  cbn [from_option]. unfold id. f_equal. rewrite <- (entries_to_map d) at 2. rewrite <- list_to_map_fmap.
  f_equal. rewrite fmap_reverse. f_equal.
Qed.
Lemma json_state_writable d :
  map_Forall (λ id m, utf8 id ∧ writable m) d → json_state (json_marshal_state d) = Some d.
Proof.
  intros Hd. rewrite json_state_marshal by (intros id m Hm; by destruct (Hd id m Hm) as (? & ? & _)).
  f_equal. apply map_eq. intros id. rewrite lookup_fmap. destruct (d !! id) as [m|] eqn:E; [|done]. cbn.
  by rewrite read_back_writable by apply (Hd id m E).
Qed.

(** C31: the state file reads back as it was written.  For every table of
    mappings whose strings are valid UTF-8, decoding what
    [json.MarshalIndent] wrote gives the table back: keys and every field, the
    optional ones present or absent; only a stage context that is empty but not
    nil reads back as nil ([read_back]), and a table without one reads back as
    it is. *)
Theorem state_roundtrip d :
  map_Forall (λ id m, utf8 id ∧ utf8_mapping m) d →
  json_state (json_marshal_state d) = Some (read_back <$> d) ∧
  (map_Forall (λ _ m, m_StageContext m ≠ Some ∅) d → json_state (json_marshal_state d) = Some d).
Proof.
  intros Hd. split; [by apply json_state_marshal|]. intros Hc. apply json_state_writable.
  intros id m Hm. destruct (Hd id m Hm). split; [done|]. split; [done|]. by apply (Hc id).
Qed.

Lemma state_roundtrip_witness :
  let m := mkMapping "fb-2a355b61d5f7-pvc-1" "/dev/loop0" "/s/fb.img" "/k/g" "" (Some {["subDir" := "a<b"]}) ["ro"] in
  json_state (json_marshal_state {["fb-2a355b61d5f7-pvc-1" := m]}) = Some {["fb-2a355b61d5f7-pvc-1" := m]}.
Proof.
  intros m. apply state_roundtrip; [|by apply map_Forall_singleton].
  apply map_Forall_singleton.
  assert (∀ s, forallb (λ c, byte c <? 128) (String.list_ascii_of_string s) = true → utf8 s) as Hu.
  { induction s as [|c s IH]; cbn; [constructor|]. intros [H1 H2]%andb_prop. constructor; [|auto].
    by apply Nat.ltb_lt. }
  split; [by apply Hu|]. unfold utf8_mapping. cbn.
  split_and!; try (by apply Hu).
  - constructor; [by apply Hu|done].
  - apply map_Forall_singleton. split; by apply Hu.
Defined.
