(* ===== verification/Rfc3339.v ===== *)
(** Points in time as the Kubernetes API writes them: RFC 3339.

    What pkg/kube uses of Go's package time: the decoding of a time from a
    JSON string and [Time.Format(time.RFC3339)] in UTC.  A time is the number
    of nanoseconds since 1970.  The theorem: a formatted time reads back as
    the second it was in. *)

From Stdlib Require Import ZArith Lia Ascii.
From stdpp Require Import base option strings list.
From S2P Require Import Prelude GoStrings Json.

Import strings.
Local Open Scope Z_scope.

(** ** Days and dates

    The proleptic Gregorian calendar repeats every 400 years, 146097 days;
    years are counted from March, so that the leap day is a year's last. *)
Definition era_days : Z := 146097.
Definition epoch_days : Z := 719468.     (* from 0000-03-01 to 1970-01-01 *)

Definition day_of_era (yoe m d : Z) : Z :=
  let doy := (153 * ((m + 9) mod 12) + 2) / 5 + d - 1 in
  yoe * 365 + yoe / 4 - yoe / 100 + doy.
Definition days_from_civil (y m d : Z) : Z :=
  let y := if m <=? 2 then y - 1 else y in
  y / 400 * era_days + day_of_era (y mod 400) m d - epoch_days.

Definition date_of_era (doe : Z) : Z * Z * Z :=
  let yoe := (doe - doe / 1460 + doe / 36524 - doe / 146096) / 365 in
  let doy := doe - (365 * yoe + yoe / 4 - yoe / 100) in
  let mp := (5 * doy + 2) / 153 in
  (yoe, (mp + 2) mod 12 + 1, doy - (153 * mp + 2) / 5 + 1).
Definition civil_from_days (z : Z) : Z * Z * Z :=
  let z := z + epoch_days in
  let '(yoe, m, d) := date_of_era (z mod era_days) in
  let y := yoe + z / era_days * 400 in
  (if m <=? 2 then y + 1 else y, m, d).

Definition is_leap (y : Z) : bool := (y mod 4 =? 0) && (negb (y mod 100 =? 0) || (y mod 400 =? 0)).
(** [time.daysIn]. *)
Definition days_in (m y : Z) : Z :=
  if m =? 2 then (if is_leap y then 29 else 28)
  else if (m =? 4) || (m =? 6) || (m =? 9) || (m =? 11) then 30 else 31.

(** ** Writing *)
Definition digit_char (n : Z) : ascii := ascii_of_nat (Z.to_nat (48 + n)).
Fixpoint pad_digits (w : nat) (n : Z) : string :=
  match w with O => "" | S w => pad_digits w (n / 10) +:+ String (digit_char (n mod 10)) "" end.

Definition second : Z := 1000000000.
(** [t.UTC().Format(time.RFC3339)], for years of four digits. *)
Definition format (t : Z) : string :=
  let secs := t / second in
  let '(y, m, d) := civil_from_days (secs / 86400) in
  let sod := secs mod 86400 in
  pad_digits 4 y +:+ "-" +:+ pad_digits 2 m +:+ "-" +:+ pad_digits 2 d +:+ "T" +:+
  pad_digits 2 (sod / 3600) +:+ ":" +:+ pad_digits 2 (sod / 60 mod 60) +:+ ":" +:+ pad_digits 2 (sod mod 60) +:+ "Z".

(** ** Reading *)

(** [parseUint]: [w] digits, a value between [lo] and [hi]. *)
Definition uint (w : nat) (lo hi : Z) (s : string) : option (Z * string) :=
  if (String.length s <? w)%nat then None else
  n ← parse_digits 0 (stake w s);
  if bool_decide (lo ≤ n ≤ hi) then Some (n, sdrop w s) else None.
Definition expect (c : ascii) (s : string) : option string :=
  match s with String c' s => if bool_decide (c' = c) then Some s else None | "" => None end.

(** The nanoseconds of a fraction, from its first nine digits. *)
Definition fraction (s : string) : Z * string :=
  match s with
  | String "." (String c s') =>
      if is_digit c then
        let '(ds, rest) := digits (String c s') in
        let ds := stake 9 ds in
        (default 0 (parse_digits 0 ds) * 10 ^ (9 - Z.of_nat (String.length ds)), rest)
      else (0, s)
  | _ => (0, s)
  end.

(** The offset from UTC in seconds, at the end of the string. *)
Definition zone (s : string) : option Z :=
  match s with
  | "Z" => Some 0
  | String c s =>
      if bool_decide (c = "+"%char) || bool_decide (c = "-"%char) then
        '(h, s) ← uint 2 0 23 s; s ← expect ":" s; '(m, s) ← uint 2 0 59 s;
        if bool_decide (s = "") then Some ((if bool_decide (c = "-"%char) then -1 else 1) * (h * 3600 + m * 60)) else None
      else None
  | "" => None
  end.

(** [time.parseRFC3339] *)
Definition parse_time (s : string) : option Z :=
  '(y, s) ← uint 4 0 9999 s; s ← expect "-" s;
  '(m, s) ← uint 2 1 12 s; s ← expect "-" s;
  '(d, s) ← uint 2 1 (days_in m y) s; s ← expect "T" s;
  '(hh, s) ← uint 2 0 23 s; s ← expect ":" s;
  '(mm, s) ← uint 2 0 59 s; s ← expect ":" s;
  '(ss, s) ← uint 2 0 59 s;
  let '(ns, s) := fraction s in
  off ← zone s;
  Some ((days_from_civil y m d * 86400 + hh * 3600 + mm * 60 + ss - off) * second + ns).

(** Into a [*time.Time] from JSON; the inner option is the pointer. *)
Definition dec_time (v : option json) : option (option Z) :=
  match v with
  | None | Some JNull => Some None
  | Some (JStr s) => t ← parse_time s; Some (Some t)
  | _ => None
  end.

(** ** The calendar is exact *)

Definition month_days (m : Z) (leap : bool) : Z :=
  if m =? 2 then (if leap then 29 else 28)
  else if (m =? 4) || (m =? 6) || (m =? 9) || (m =? 11) then 30 else 31.

(** The first day of a year of the era, and the day after its last. *)
Definition year_start (y : Z) : Z := 365 * y + y / 4 - y / 100.
Definition year_end (y : Z) : Z := if y =? 399 then era_days else year_start (y + 1).
Definition year_count (doe : Z) : Z := doe - doe / 1460 + doe / 36524 - doe / 146096.

Definition year_ok (y : Z) : bool :=
  (year_count (year_start y) / 365 =? y) && (year_count (year_end y - 1) / 365 =? y) &&
  (year_end y - year_start y =? (if is_leap (y + 1) then 366 else 365)).
Definition month_ok (leap : bool) (doy : Z) : bool :=
  let mp := (5 * doy + 2) / 153 in
  let m := (mp + 2) mod 12 + 1 in
  let d := doy - (153 * mp + 2) / 5 + 1 in
  (1 <=? m) && (m <=? 12) && (1 <=? d) && (d <=? month_days m leap) &&
  ((153 * ((m + 9) mod 12) + 2) / 5 + d - 1 =? doy).

(** A decidable fact about the numbers below [n]. *)
Fixpoint all_below (n : nat) (P : Z → bool) : bool :=
  match n with O => true | S n => P (Z.of_nat n) && all_below n P end.
Lemma all_below_spec n P : all_below n P = true → ∀ z, 0 ≤ z < Z.of_nat n → P z = true.
Proof.
  induction n as [|n IH]; [lia|]. cbn [all_below]. intros [H1 H2]%andb_true_iff z Hz.
  destruct (decide (z = Z.of_nat n)) as [->|]; [done|]. apply IH; [done|lia].
Qed.

Lemma year_checked y : 0 ≤ y < 400 → year_ok y = true.
Proof. apply (all_below_spec 400 _). vm_compute. reflexivity. Qed.
Lemma month_checked (leap : bool) doy : 0 ≤ doy < (if leap then 366 else 365) → month_ok leap doy = true.
Proof. destruct leap; [apply (all_below_spec 366 _)|apply (all_below_spec 365 _)]; vm_compute; reflexivity. Qed.

Lemma year_count_mono a b : 0 ≤ a ≤ b → b < era_days → year_count a ≤ year_count b.
Proof.
  intros H Hb. unfold year_count, era_days in *.
  assert (b / 1460 - a / 1460 ≤ b - a) by (Z.to_euclidean_division_equations; lia).
  assert (a / 36524 ≤ b / 36524) by (apply Z.div_le_mono; lia).
  destruct (decide (b = 146096)) as [->|].
  - destruct (decide (a = 146096)) as [->|]; [lia|]. rewrite (Z.div_small a 146096) by lia.
    change (146096 / 146096) with 1. change (146096 / 36524) with 4. change (146096 / 1460) with 100 in *.
    assert (a / 36524 ≤ 3) by (Z.to_euclidean_division_equations; lia). lia.
  - rewrite (Z.div_small a 146096), (Z.div_small b 146096) by lia. lia.
Qed.

Lemma year_of doe : 0 ≤ doe < era_days → ∃ y, 0 ≤ y < 400 ∧ year_start y ≤ doe < year_end y.
Proof.
  intros H.
  assert (∀ n : nat, (n < 400)%nat → year_start (Z.of_nat n) ≤ doe →
            ∃ y, 0 ≤ y < 400 ∧ year_start y ≤ doe < year_end y) as Hup.
  { intros n Hn. remember (399 - n)%nat as k eqn:Ek. revert n Hn Ek. induction k as [|k IH]; intros n Hn Ek Hs.
    - exists 399. replace (Z.of_nat n) with 399 in Hs by lia. unfold year_end. cbn. lia.
    - destruct (decide (year_start (Z.of_nat (S n)) ≤ doe)); [apply (IH (S n)); lia || done|].
      exists (Z.of_nat n). unfold year_end. rewrite (proj2 (Z.eqb_neq _ _)) by lia.
      replace (Z.of_nat n + 1) with (Z.of_nat (S n)) by lia. lia. }
  apply (Hup 0%nat); [lia|]. exact (proj1 H).
Qed.

Lemma era_checked doe : 0 ≤ doe < era_days →
  let '(yoe, m, d) := date_of_era doe in
  0 ≤ yoe < 400 ∧ 1 ≤ m ≤ 12 ∧ 1 ≤ d ≤ month_days m (is_leap (yoe + 1)) ∧ day_of_era yoe m d = doe.
Proof.
  intros H. destruct (year_of doe H) as (y & Hy & Hs & He). pose proof (year_checked y Hy) as Hok.
  unfold year_ok in Hok. rewrite !andb_true_iff, !Z.eqb_eq in Hok. destruct Hok as [[H1 H2] H3].
  assert (0 ≤ year_start y) by (unfold year_start; Z.to_euclidean_division_equations; lia).
  assert (year_end y ≤ era_days).
  { unfold year_end, year_start, era_days. destruct (Z.eqb_spec y 399); [done|]. Z.to_euclidean_division_equations; lia. }
  unfold date_of_era. change (doe - doe / 1460 + doe / 36524 - doe / 146096) with (year_count doe).
  assert (year_count doe / 365 = y) as ->.
  { pose proof (year_count_mono (year_start y) doe). pose proof (year_count_mono doe (year_end y - 1)).
    assert (year_count (year_start y) / 365 ≤ year_count doe / 365) by (apply Z.div_le_mono; lia).
    assert (year_count doe / 365 ≤ year_count (year_end y - 1) / 365) by (apply Z.div_le_mono; lia). lia. }
  fold (year_start y).
  pose proof (month_checked (is_leap (y + 1)) (doe - year_start y)) as Hm.
  unfold month_ok in Hm. cbv zeta in *. rewrite !andb_true_iff, !Z.leb_le, !Z.eqb_eq in Hm.
  destruct Hm as ((((Hm1 & Hm2) & Hd1) & Hd2) & Hday); [destruct (is_leap (y + 1)); lia|].
  split_and!; try done; try lia.
  unfold day_of_era. rewrite Hday. unfold year_start. lia.
Qed.

Lemma days_in_era m y k : days_in m (y + k * 400) = days_in m y.
Proof.
  unfold days_in, is_leap.
  replace (y + k * 400) with (y + (k * 100) * 4) at 1 by lia.
  replace (y + k * 400) with (y + (k * 4) * 100) at 1 by lia.
  by rewrite !Z.mod_add.
Qed.

Lemma days_in_month m y yoe :
  (m = 2 → y = yoe + 1) → days_in m y = month_days m (is_leap (yoe + 1)).
Proof. unfold days_in, month_days. destruct (Z.eqb_spec m 2) as [->|]; [|done]. by intros ->. Qed.

(** Every day has a date, with a month and a day that exist, and it is the
    day of that date. *)
Theorem civil_days z :
  let '(y, m, d) := civil_from_days z in
  1 ≤ m ≤ 12 ∧ 1 ≤ d ≤ days_in m y ∧ days_from_civil y m d = z.
Proof.
  unfold civil_from_days. set (w := z + epoch_days).
  assert (0 ≤ w mod era_days < era_days) as Hd by (apply Z.mod_pos_bound; done).
  pose proof (era_checked _ Hd) as Hok.
  destruct (date_of_era (w mod era_days)) as [[yoe m] d]. destruct Hok as (Hy & Hm & Hdm & Hdoe).
  split; [lia|]. pose proof (Z.div_mod w era_days ltac:(done)) as Hw.
  unfold days_from_civil. set (k := w / era_days) in *.
  assert ((if m <=? 2 then (if m <=? 2 then yoe + k * 400 + 1 else yoe + k * 400) - 1
           else if m <=? 2 then yoe + k * 400 + 1 else yoe + k * 400) = yoe + k * 400) as ->
    by (destruct (m <=? 2); lia).
  assert (days_in m (if m <=? 2 then yoe + k * 400 + 1 else yoe + k * 400) = month_days m (is_leap (yoe + 1))) as ->.
  { rewrite <- (days_in_month m (if m <=? 2 then yoe + 1 else yoe)) by (by intros ->).
    rewrite <- (days_in_era m (if m <=? 2 then yoe + 1 else yoe) k). f_equal. destruct (m <=? 2); lia. }
  split; [done|]. rewrite Z.div_add, Z.mod_add, Z.div_small, Z.mod_small, Hdoe by lia.
  unfold w, era_days in *. lia.
Qed.

(** ** Times read back *)
Lemma pad_length w n : String.length (pad_digits w n) = w.
Proof. revert n. induction w as [|w IH]; intros n; [done|]. cbn. rewrite slength_app, IH. cbn. lia. Qed.

Lemma uint_pad w lo hi n rest :
  parse_digits 0 (pad_digits w n) = Some n → lo ≤ n ≤ hi → uint w lo hi (pad_digits w n +:+ rest) = Some (n, rest).
Proof.
  intros Hp Hn. unfold uint.
  assert ((String.length (pad_digits w n +:+ rest) <? w)%nat = false) as ->.
  { apply Nat.ltb_ge. rewrite slength_app, pad_length. lia. }
  assert (stake w (pad_digits w n +:+ rest) = pad_digits w n) as ->.
  { rewrite <- (pad_length w n) at 1. apply stake_app. }
  assert (sdrop w (pad_digits w n +:+ rest) = rest) as ->.
  { rewrite <- (pad_length w n) at 1. apply sdrop_app. }
  rewrite Hp. cbn. by rewrite bool_decide_true.
Qed.

Definition reads_back (n : Z) : bool :=
  match parse_digits 0 (pad_digits 2 n) with Some k => k =? n | None => false end.
Lemma two_digits n : 0 ≤ n < 100 → parse_digits 0 (pad_digits 2 n) = Some n.
Proof.
  intros H. assert (reads_back n = true) as Hb.
  { apply (all_below_spec 100 reads_back); [|done]. vm_compute. reflexivity. }
  unfold reads_back in Hb. destruct (parse_digits _ _); [|done]. apply Z.eqb_eq in Hb. by subst.
Qed.

Lemma digits_app a b n m :
  parse_digits 0 a = Some n → (∀ k, parse_digits k b = Some (k * 100 + m)) → parse_digits 0 (a +:+ b) = Some (n * 100 + m).
Proof.
  intros Ha Hb. revert Ha. generalize 0 at 1 2 as acc. intros acc. revert acc.
  induction a as [|c a IH]; intros acc; [intros [= ->]; apply Hb|].
  rewrite sapp_cons. cbn [parse_digits]. destruct (is_digit c); [apply IH|done].
Qed.

Lemma pad_digits_app w n : pad_digits (2 + w) n = pad_digits w (n / 100) +:+ pad_digits 2 (n mod 100).
Proof.
  assert (n mod 100 / 10 mod 10 = n / 10 mod 10) as E1 by (Z.to_euclidean_division_equations; lia).
  assert (n mod 100 mod 10 = n mod 10) as E2 by (Z.to_euclidean_division_equations; lia).
  cbn [pad_digits Nat.add]. rewrite E1, E2, Z.div_div, !sapp_assoc by lia. done.
Qed.

Lemma parse_digits_acc s a k n :
  parse_digits a s = Some n → parse_digits (a + k) s = Some (k * 10 ^ Z.of_nat (String.length s) + n).
Proof.
  revert a k. induction s as [|c s IH]; intros a k; cbn [parse_digits String.length].
  - intros [= ->]. f_equal. lia.
  - destruct (is_digit c); [|done]. intros H. apply (IH _ (10 * k)) in H.
    rewrite Nat2Z.inj_succ, Z.pow_succ_r by lia.
    match goal with H : parse_digits ?x s = _ |- parse_digits ?y s = _ => replace y with x by lia end.
    rewrite H. f_equal. lia.
Qed.

Lemma two_digits_acc n k : 0 ≤ n < 100 → parse_digits k (pad_digits 2 n) = Some (k * 100 + n).
Proof. intros H. pose proof (parse_digits_acc _ _ k _ (two_digits n H)) as E. by rewrite pad_length in E. Qed.

Lemma four_digits n : 0 ≤ n < 10000 → parse_digits 0 (pad_digits 4 n) = Some n.
Proof.
  intros H. rewrite (pad_digits_app 2). pose proof (Z.mod_pos_bound n 100).
  erewrite digits_app; [|apply two_digits|intros k; apply two_digits_acc; lia].
  - f_equal. pose proof (Z.div_mod n 100). lia.
  - split; [apply Z.div_pos; lia|apply Z.div_lt_upper_bound; lia].
Qed.

Lemma expect_here c s : expect c (String c "" +:+ s) = Some s.
Proof. rewrite sapp_cons. unfold expect. rewrite bool_decide_true by done. done. Qed.

(** The years the format can write. *)
Definition writable_time (t : Z) : Prop :=
  let '(y, _, _) := civil_from_days (t / second / 86400) in 0 ≤ y ≤ 9999.

(** A formatted time reads back as the start of its second. *)
Theorem time_roundtrip t : writable_time t → parse_time (format t) = Some (t / second * second).
Proof.
  intros Hw. unfold writable_time, format in *. set (secs := t / second) in *.
  pose proof (civil_days (secs / 86400)) as Hc.
  destruct (civil_from_days (secs / 86400)) as [[y m] d]. destruct Hc as (Hm & Hd & Hdays).
  assert (0 ≤ secs mod 86400 < 86400) as Hs by (apply Z.mod_pos_bound; lia).
  set (sod := secs mod 86400) in *.
  assert (0 ≤ sod / 3600 < 24) by (Z.to_euclidean_division_equations; lia).
  assert (0 ≤ sod / 60 mod 60 < 60) by (apply Z.mod_pos_bound; lia).
  assert (0 ≤ sod mod 60 < 60) by (apply Z.mod_pos_bound; lia).
  assert (d ≤ 31) by (unfold days_in in Hd; repeat case_match; lia).
  unfold parse_time.
  rewrite uint_pad by (apply four_digits || idtac; lia). cbn [mbind option_bind]. rewrite expect_here.
  do 4 (cbn [mbind option_bind]; rewrite uint_pad by (apply two_digits || idtac; lia);
        cbn [mbind option_bind]; rewrite expect_here).
  cbn [mbind option_bind]. rewrite uint_pad by (apply two_digits || idtac; lia).
  cbn. f_equal. rewrite Hdays. pose proof (Z.div_mod secs 86400).
  assert (sod = sod / 3600 * 3600 + sod / 60 mod 60 * 60 + sod mod 60) by (Z.to_euclidean_division_equations; lia).
  unfold sod in *. lia.
Qed.
