(* ===== verification/Crypt.v ===== *)
(** LUKS2 volumes: pkg/crypt/crypt.go and pkg/crypt/sysfs.go.

    The theorems: a device is formatted only after cryptsetup said it has no
    LUKS header and every byte read from it was zero; key rotation ends with
    exactly the new slot, from any point an earlier attempt stopped at. *)

From Stdlib Require Import ZArith Lia Ascii.
From stdpp Require Import base option gmap strings list.
From S2P Require Import Prelude GoStrings Sha256 Regexp Effects Json Image Mount.

Import strings path.
Local Open Scope prog_scope.

(** src/pkg/crypt/crypt.go:24-32 (MinKeyLen and the constants) *)
Definition MinKeyLen : nat := 32.
Definition mapperPrefix : string := "fbcrypt-".
Definition labelUnformatted : string := "fileblock-unformatted".
Definition labelFormatted : string := "fileblock".
Definition blankCheckBytes : Z := 16777216.
Definition pbkdfIterations : string := "1000".

(** src/pkg/crypt/crypt.go:44-47 (Format) *)
Record Format := mkFormat { Cipher : string; KeySize : Z }.
(** src/pkg/crypt/crypt.go:50-50 (DefaultFormat) *)
Definition DefaultFormat : Format := mkFormat "aes-xts-plain64" 512.
(** src/pkg/crypt/crypt.go:53-53 (Keys) *)
Record Keys := mkKeys { Current : string; Previous : string }.

#[export] Instance Keys_eq_dec : EqDecision Keys.
Proof. solve_decision. Defined.

(** src/pkg/crypt/crypt.go:58-65 (Outcome) *)
Inductive Outcome := OutcomeNone | OutcomeFormatted | OutcomeRotated | OutcomeFinishedInterruptedRotation.

(** src/pkg/crypt/sysfs.go:11-14 (Mapping) *)
Record CryptMapping := mkCryptMapping { cm_Name : string; cm_Backing : string }.

(** src/pkg/crypt/crypt.go:80-83 (MapperName) *)
Definition MapperName (volumeID : string) : string := mapperPrefix +:+ stake 24 (Sha256.hex_sum volumeID).
(** src/pkg/crypt/crypt.go:85-85 (MapperPath) *)
Definition MapperPath (name : string) : string := "/dev/mapper/" +:+ name.
(** src/pkg/exec/exec.go:50-50 (SecretFD) *)
Definition SecretFD (i : Z) : string := "/dev/fd/" +:+ Itoa (3 + i).

(** src/pkg/crypt/crypt.go:98-104 (exitCode) *)
Definition exitCode (e : goerr) : Z := match as_exec e with Some (x, _, _) => x | None => -1 end.

(** src/pkg/crypt/crypt.go:173-180 (luksLabel) *)
Fixpoint label_of (lines : list string) : string :=
  match lines with
  | [] => ""
  | l :: ls => match CutPrefix l "Label:" with Some v => TrimSpace v | None => label_of ls end
  end.
(** src/pkg/crypt/crypt.go:173-180 (luksLabel) *)
Definition luksLabel (dump : string) : string := label_of (Split dump "010"%char).

Section Crypt.
Context {S : Type}.

(** src/pkg/crypt/crypt.go:89-96 (Crypt.cryptsetup) *)
Definition cryptsetup (secrets args : list string) : prog S (string * option goerr) :=
  sys (RunCmd (mkCmd "cryptsetup" args ["DM_DISABLE_UDEV=1"] secrets)).

(** src/pkg/crypt/crypt.go:241-251 (Crypt.isLuks) *)
Definition isLuks (dev : string) : prog S (res bool) :=
  r <- cryptsetup [] ["isLuks"; dev] ;;
  match snd r with
  | None => ok true
  | Some e => if bool_decide (exitCode e = 1%Z) then ok false else fail (Errorf "isLuks " e)
  end.

(** src/pkg/crypt/crypt.go:227-238 (Crypt.opens) *)
Definition opens (dev key : string) : prog S (res bool) :=
  r <- cryptsetup [key] ["open"; "--test-passphrase"; "--type"; "luks2"; "--key-file"; SecretFD 0; dev] ;;
  match snd r with
  | None => ok true
  | Some e => if bool_decide (exitCode e = 2%Z) then ok false else fail (Errorf "test passphrase on " e)
  end.

(** src/pkg/crypt/crypt.go:262-262 (isBlank, the test of one buffer): a byte
    is zero exactly when the rune it starts is. *)
Definition all_zero (buf : string) : bool := Regexp.all_chars (λ c, bool_decide (c = "000"%char)) buf.

(** src/pkg/crypt/crypt.go:260-273 (isBlank, one turn of the loop) *)
Definition blank_step (dev : string) (read : Z) : prog S (Z + res bool) :=
  if bool_decide (blankCheckBytes ≤ read)%Z then Ret (inr (Ok true)) else
  r <- sys (ReadNext dev (Z.min 1048576 (blankCheckBytes - read))) ;;
  let '(buf, err) := r in
  if negb (all_zero buf) then Ret (inr (Ok false)) else
  match err with
  | Some e => if match e with ErrEOF => true | _ => false end then Ret (inr (Ok true))
              else Ret (inr (Err (Errorf "read " e)))
  | None => Ret (inl (read + Z.of_nat (String.length buf))%Z)
  end.

(** src/pkg/crypt/crypt.go:253-274 (isBlank).  A read that returns neither a
    byte nor an error would keep the loop going; [os.File.Read] never does,
    so one turn more than the number of bytes checked is enough. *)
Definition isBlank (dev : string) : prog S (res bool) :=
  sys (OsOp (OpenRead dev)) ;;?
  (r <- loop_pos 16777217 (blank_step dev) 0%Z ;;
   sys (OsOp (CloseFile dev)) ;;
   match r with
   | inr a => Ret a
   | inl _ => fail (ErrMsg "read : no progress")
   end).

(** src/pkg/crypt/crypt.go:185-223 (Crypt.rotate) *)
Definition rotate (dev : string) (k : Keys) : prog S (res Outcome) :=
  cur <-? opens dev (Current k) ;;
  if bool_decide (Previous k = "") || bool_decide (Previous k = Current k) then
    if negb cur then fail (Errorf "" ErrWrongKey) else ok OutcomeNone
  else
  prev <-? opens dev (Previous k) ;;
  if negb cur && negb prev then fail (Errorf "" ErrWrongKey)
  else if negb prev then ok OutcomeNone
  else
  (if cur then ok tt else
     r <- cryptsetup [Previous k; Current k]
            ["luksAddKey"; "--batch-mode"; "--pbkdf"; "pbkdf2"; "--pbkdf-force-iterations"; pbkdfIterations;
             "--key-file"; SecretFD 0; dev; SecretFD 1] ;;
     match snd r with Some e => fail (Errorf "luksAddKey " e) | None => ok tt end) ;;?
  r <- cryptsetup [Previous k] ["luksRemoveKey"; "--batch-mode"; "--key-file"; SecretFD 0; dev] ;;
  match snd r with
  | Some e => fail (Errorf "luksRemoveKey " e)
  | None => ok (if cur then OutcomeFinishedInterruptedRotation else OutcomeRotated)
  end.

(** src/pkg/crypt/crypt.go:305-311 (Crypt.Close) *)
Definition CloseMapping (name : string) : prog S (res unit) :=
  r <- cryptsetup [] ["close"; name] ;;
  match snd r with
  | None => ok tt
  | Some e => if bool_decide (exitCode e = 4%Z) then ok tt else fail (Errorf "close " e)
  end.

(** src/pkg/crypt/crypt.go:315-320 (Crypt.Resize) *)
Definition ResizeMapping (name : string) : prog S (res unit) :=
  r <- cryptsetup [] ["resize"; name] ;;
  match snd r with Some e => fail (Errorf "resize " e) | None => ok tt end.

(** src/pkg/crypt/crypt.go:156-171 (Crypt.ensureFilesystem) *)
Definition ensureFilesystem (dev p : string) : prog S (res unit) :=
  r <- cryptsetup [] ["luksDump"; dev] ;;
  match snd r with
  | Some e => fail (Errorf "luksDump " e)
  | None =>
      if negb (bool_decide (luksLabel (fst r) = labelUnformatted)) then ok tt else
      Mkfs p ;;?
      r <- cryptsetup [] ["config"; "--label"; labelFormatted; dev] ;;
      match snd r with Some e => fail (Errorf "relabel " e) | None => ok tt end
  end.

(** src/pkg/crypt/crypt.go:126-129 (Crypt.Prepare, the luksFormat arguments) *)
Definition luksFormat_args (f : Format) (dev : string) : list string :=
  ["luksFormat"; "--batch-mode"; "--type"; "luks2"; "--cipher"; Cipher f; "--key-size"; Itoa (KeySize f);
   "--sector-size"; Itoa DefaultBlockSize; "--pbkdf"; "pbkdf2"; "--pbkdf-force-iterations"; pbkdfIterations;
   "--label"; labelUnformatted; "--key-file"; SecretFD 0; dev].

(** src/pkg/crypt/crypt.go:111-133 (Crypt.Prepare, format on first use) *)
Definition formatIfBlank (dev : string) (k : Keys) (f : Format) : prog S (res Outcome) :=
  luks <-? isLuks dev ;;
  if luks then ok OutcomeNone else
  blank <-? isBlank dev ;;
  if negb blank then fail (Errorf "" ErrNotBlank) else
  r <- cryptsetup [Current k] (luksFormat_args f dev) ;;
  match snd r with
  | Some e => fail (Errorf "luksFormat " e)
  | None => ok OutcomeFormatted
  end.

(** src/pkg/crypt/crypt.go:110-152 (Crypt.Prepare) *)
Definition Prepare (dev name : string) (k : Keys) (f : Format) : prog S (res (string * Outcome)) :=
  outcome <-? formatIfBlank dev k f ;;
  rotated <-? rotate dev k ;;
  let outcome := match outcome with OutcomeNone => rotated | o => o end in
  r <- cryptsetup [Current k] ["open"; "--type"; "luks2"; "--disable-keyring"; "--key-file"; SecretFD 0; dev; name] ;;
  match snd r with
  | Some e => fail (Errorf "open " e)
  | None =>
      let p := MapperPath name in
      fs <- ensureFilesystem dev p ;;
      match fs with
      | Err e => c <- CloseMapping name ;;
                 match c with Err e' => fail (ErrJoin e e') | Ok _ => fail (Errorf "" e) end
      | Ok _ => ok (p, outcome)
      end
  end.

(** src/pkg/crypt/crypt.go:280-302 (Crypt.SectorSize) *)
Definition SectorSize (dev : string) : prog S (res Z) :=
  luks <-? isLuks dev ;;
  if negb luks then ok 0%Z else
  r <- cryptsetup [] ["luksDump"; "--dump-json-metadata"; dev] ;;
  match snd r with
  | Some e => fail (Errorf "luksDump " e)
  | None =>
      match json_luks_segments (fst r) with
      | None => fail (ErrMsg "parse LUKS2 metadata of ")
      | Some segs =>
          match segs !! "0" with
          | Some n => if bool_decide (n ≤ 0)%Z then fail (ErrMsg "LUKS2 metadata has no data segment sector size")
                      else ok n
          | None => fail (ErrMsg "LUKS2 metadata has no data segment sector size")
          end
      end
  end.

(** src/pkg/crypt/sysfs.go:24-38 (Crypt.List, the loop) *)
Fixpoint list_dms (dms : list string) : prog S (list CryptMapping) :=
  match dms with
  | [] => Ret []
  | d :: ds =>
      b <- sys (ReadFile (JoinPath [d; "dm"; "name"])) ;;
      match b with
      | Err _ => list_dms ds
      | Ok b =>
          let name := TrimSpace b in
          if negb (HasPrefix name mapperPrefix) then list_dms ds else
          slaves <- sys (ReadDir (JoinPath [d; "slaves"])) ;;
          let backing := match slaves with Ok (s :: _) => "/dev/" +:+ de_name s | _ => "" end in
          out <- list_dms ds ;;
          Ret (mkCryptMapping name backing :: out)
      end
  end.
(** src/pkg/crypt/sysfs.go:18-40 (Crypt.List) *)
Definition ListMappings (sysRoot : string) : prog S (res (list CryptMapping)) :=
  dms <-? sys (Glob (JoinPath [sysRoot; "block"; "dm-*"])) ;;
  out <- list_dms dms ;;
  ok out.

(** src/pkg/crypt/sysfs.go:42-53 (Crypt.IsOpen) *)
Definition IsOpen (sysRoot name : string) : prog S (res bool) :=
  ms <-? ListMappings sysRoot ;;
  ok (existsb (λ m, bool_decide (cm_Name m = name)) ms).
End Crypt.

#[local] Arguments runs : simpl never.
#[global] Arguments isBlank : simpl never.
#[global] Arguments rotate : simpl never.
#[global] Arguments luksFormat_args : simpl never.

(** ** The blank check *)

(** Number of bytes read so far from [dev]. *)
Definition read_len (dev : string) (tr : trace) : Z :=
  foldr (λ x acc, (Z.of_nat (String.length x.2.1) + acc)%Z) 0%Z (file_reads dev tr).

(** What the reads of [dev] in a history show: every byte was zero, and they
    covered the first 16 MiB or reached the end of the device. *)
Definition blank_evidence (dev : string) (h : trace) : Prop :=
  Forall (λ x, all_zero x.2.1 = true) (file_reads dev h) ∧
  (blankCheckBytes ≤ read_len dev h ∨
   ∃ n b, last (file_reads dev h) = Some (n, (b, Some ErrEOF)))%Z.

Lemma read_len_app dev t1 t2 : read_len dev (t1 ++ t2) = (read_len dev t1 + read_len dev t2)%Z.
Proof.
  unfold read_len. rewrite file_reads_app.
  induction (file_reads dev t1) as [|x l IH]; simpl; [done|]. rewrite IH. lia.
Qed.

Lemma file_reads_one dev n r : file_reads dev [Ev (ReadNext dev n) r] = [(n, r)].
Proof. unfold file_reads. simpl. by rewrite decide_True. Qed.

Lemma read_len_one dev n r :
  read_len dev [Ev (ReadNext dev n) r] = Z.of_nat (String.length r.1).
Proof. unfold read_len. rewrite file_reads_one. simpl. lia. Qed.

Lemma isBlank_evidence {S} dev (s : S) :
  wp (isBlank dev) s (λ r _ tr, runs tr = [] ∧ (r = Ok true → blank_evidence dev tr)).
Proof.
  unfold isBlank. apply wp_bindE. cbn. intros [[]|e]; cbn; [|done].
  apply wp_bind. eapply wp_mono; [|apply (wp_loop_pos _ _
    (λ st _ tr, runs tr = [] ∧ Forall (λ x, all_zero x.2.1 = true) (file_reads dev tr) ∧ st = read_len dev tr)
    (λ a _ tr, runs tr = [] ∧ (a = Ok true → blank_evidence dev tr)))
    with (tr0 := [])].
  - cbn. intros [st|a] s1 tr H rc; cbn.
    + destruct H as (Hr & _ & _). split; [|done]. trace_simpl. by rewrite Hr.
    + destruct H as (Hr & Hb). split; [trace_simpl; by rewrite Hr|].
      intros Ha. destruct (Hb Ha) as [Hz Hl]. unfold blank_evidence, read_len in *.
      rewrite file_reads_cons, file_reads_app. cbn [ev_read]. by rewrite app_nil_r.
  - intros st s1 tr0 (Hr & Hz & ->). unfold blank_step. case_bool_decide as Hd; cbn.
    + rewrite app_nil_r. split; [done|]. intros _. split; [done|by left].
    + intros [buf err]. destruct (all_zero buf) eqn:Eb; cbn.
      * assert (Forall (λ x, all_zero x.2.1 = true)
                  (file_reads dev (tr0 ++ [Ev (ReadNext dev (Z.min 1048576 (blankCheckBytes - read_len dev tr0)))
                                                 (buf, err)]))) as Hz'.
        { rewrite file_reads_app, file_reads_one. apply Forall_app. split; [done|]. by constructor. }
        assert (∀ e, runs (tr0 ++ [Ev (ReadNext dev (Z.min 1048576 (blankCheckBytes - read_len dev tr0))) e]) = []) as Hr'
          by (intros; by rewrite runs_app, Hr).
        destruct err as [e|]; cbn.
        -- destruct e; cbn; split_and!; try done. intros _. split; [done|]. right.
           rewrite file_reads_app, file_reads_one, last_snoc. eauto.
        -- split_and!; [done..|]. by rewrite read_len_app, read_len_one.
      * rewrite runs_app, Hr. done.
  - cbn. done.
Qed.

(** ** Formatting *)

Definition crypt_cmd (secrets args : list string) : Cmd :=
  mkCmd "cryptsetup" args ["DM_DISABLE_UDEV=1"] secrets.

(** cryptsetup isLuks answered "not a LUKS device" (exit code 1). *)
Definition not_luks_seen (dev : string) (h : trace) : Prop :=
  ∃ out e, (crypt_cmd [] ["isLuks"; dev], (out, Some e)) ∈ runs h ∧ exitCode e = 1%Z.

(** The header's label said that no filesystem was made yet. *)
Definition unformatted_seen (dev : string) (h : trace) : Prop :=
  ∃ out, (crypt_cmd [] ["luksDump"; dev], (out, None)) ∈ runs h ∧ luksLabel out = labelUnformatted.

(** The two destructive commands and what must have been seen before each. *)
Definition format_guard (dev : string) (k : Keys) (f : Format) (h : trace) (e : event) : Prop :=
  match ev_run e with
  | Some (c, _) =>
      (head (cmd_args c) = Some "luksFormat" →
       c = crypt_cmd [Current k] (luksFormat_args f dev) ∧ not_luks_seen dev h ∧ blank_evidence dev h) ∧
      (cmd_name c = "mkfs.ext4" → unformatted_seen dev h)
  | None => True
  end.

Lemma rotate_harmless {S} dev0 k0 f0 dev k :
  emits (S := S) (λ e, ∀ h, format_guard dev0 k0 f0 h e) (rotate dev k).
Proof. unfold rotate, opens, cryptsetup. solve_emits; done. Qed.

Lemma CloseMapping_harmless {S} dev0 k0 f0 name :
  emits (S := S) (λ e, ∀ h, format_guard dev0 k0 f0 h e) (CloseMapping name).
Proof. unfold CloseMapping, cryptsetup. solve_emits; done. Qed.

Lemma isBlank_harmless {S} dev0 k0 f0 dev :
  emits (S := S) (λ e, ∀ h, format_guard dev0 k0 f0 h e) (isBlank dev).
Proof.
  unfold isBlank. solve_emits; try done. apply emits_loop_pos. intros st. unfold blank_step.
  solve_emits; done.
Qed.

Lemma always_emits {S A} (P : trace → event → Prop) (m : prog S A) s h :
  emits (λ e, ∀ h, P h e) m → wp m s (λ _ _ tr, always P h tr).
Proof. intros H. apply wp_exec. intros tr a s' He. by eapply always_forall, H. Qed.

Lemma wp_and {S A} (m : prog S A) s (Q1 Q2 : A → S → trace → Prop) :
  wp m s Q1 → wp m s Q2 → wp m s (λ a s' tr, Q1 a s' tr ∧ Q2 a s' tr).
Proof. rewrite !wp_exec. eauto. Qed.

Lemma formatIfBlank_guarded {S} dev k f (s : S) :
  wp (formatIfBlank dev k f) s (λ _ _ tr, always (format_guard dev k f) [] tr).
Proof.
  unfold formatIfBlank. apply wp_bindE. cbn. intros [out [e|]]; cbn.
  2: { by split_and!. }
  case_bool_decide as Hx; cbn; [|by split_and!].
  apply wp_bindE. eapply wp_mono; [|apply wp_and; [apply isBlank_evidence|
    apply (always_emits (format_guard dev k f) _ _ [Ev (RunCmd (crypt_cmd [] ["isLuks"; dev])) (out, Some e)]),
      isBlank_harmless]].
  intros [b|e'] s' tr [[Hr Hb] Ha]; cbn.
  2: { rewrite app_nil_r. by split_and!. }
  destruct b; cbn; [|rewrite app_nil_r; by split_and!].
  intros [out2 e2].
  assert (always (format_guard dev k f) []
    (Ev (RunCmd (crypt_cmd [] ["isLuks"; dev])) (out, Some e) :: tr ++
      [Ev (RunCmd (crypt_cmd [Current k] (luksFormat_args f dev))) (out2, e2)])) as H.
  { cbn [always]. split; [by split_and!|]. apply always_app. split; [done|]. split; [|done].
    split; [|done]. intros _. split; [done|]. split.
    - exists out, e. split; [|done]. cbn [app]. trace_simpl. rewrite Hr. by left.
    - destruct (Hb eq_refl). unfold blank_evidence, read_len. cbn [app].
      by rewrite file_reads_cons. }
  by destruct e2.
Qed.

(** C1: [Prepare] never destroys data.  In every execution, each luksFormat is
    the one for this device, key and format, issued after cryptsetup said the
    device carries no LUKS header and after reads that covered its first
    16 MiB (or all of it) saw only zero bytes; each mkfs.ext4 is issued after
    luksDump showed the label that marks a header without filesystem. *)
Theorem Prepare_safe {S} dev name k f (s : S) tr r s' :
  exec (Prepare dev name k f) s tr r s' → always (format_guard dev k f) [] tr.
Proof.
  intros He. revert tr r s' He. apply wp_exec. unfold Prepare.
  apply wp_bindE. eapply wp_mono; [|apply formatIfBlank_guarded].
  intros [o|e] s1 t1 H1; cbn; [|by rewrite app_nil_r].
  apply wp_bindE. eapply wp_mono; [|apply (always_emits (format_guard dev k f) _ _ t1), rotate_harmless].
  intros [o'|e] s2 t2 H2; cbn; [|rewrite app_nil_r; apply always_app; by split].
  intros [out [e|]]; cbn; [by rewrite !always_app; cbn|].
  intros [out2 [e|]]; cbn; [intros [out3 [e3|]]; cbn|].
  1: case_bool_decide; cbn.
  1-3: by rewrite !always_app; cbn.
  case_bool_decide as Hl; cbn; [|by rewrite !always_app; cbn].
  assert (∀ h, unformatted_seen dev (h ++ [Ev (RunCmd (crypt_cmd [] ["luksDump"; dev])) (out2, None)])) as Hm.
  { intros h. exists out2. split; [|done]. rewrite runs_app. apply elem_of_app. right. by left. }
  intros [out3 [e3|]]; cbn; intros [out4 [e4|]]; cbn; repeat (case_bool_decide; cbn);
    try (intros [out5 [e5|]]; cbn); repeat (case_bool_decide; cbn).
  all: rewrite !always_app; cbn; split_and!; try done; intros _; apply Hm.
Qed.

(** An outside for examples: a device with no header and one zero byte. *)
Definition blank_device : handler unit :=
  on_run (λ c, if bool_decide (head (cmd_args c) = Some "isLuks")
               then ("", Some (ErrExec "cryptsetup" (cmd_args c) 1 "" None))
               else if bool_decide (head (cmd_args c) = Some "luksDump")
               then ("Label: fileblock-unformatted", None) else ("", None))
    (on_read (λ _ _, (String "000"%char "", Some ErrEOF)) quiet).

Definition prepare_demo :=
  run blank_device (Prepare "/dev/loop3" "fbcrypt-1" (mkKeys "key" "") DefaultFormat) tt tt.

Lemma Prepare_safe_witness :
  prepare_demo.1.1.1 = Ok ("/dev/mapper/fbcrypt-1", OutcomeFormatted) ∧
  always (format_guard "/dev/loop3" (mkKeys "key" "") DefaultFormat) [] prepare_demo.2.
Proof.
  split; [vm_compute; reflexivity|].
  pose proof (exec_total (Prepare "/dev/loop3" "fbcrypt-1" (mkKeys "key" "") DefaultFormat) tt blank_device tt)
    as He.
  change (run _ _ _ _) with prepare_demo in He.
  destruct prepare_demo as [[[r s] x] tr].
  exact (Prepare_safe _ _ _ _ _ _ _ _ He).
Defined.

(** *** The blank check decides blankness *)

(** The contract of [os.File.Read] on a device that holds [content]: a read
    returns the next bytes, at least one unless the end is reached, at most as
    many as asked for; the end is [io.EOF] with no byte; no I/O error. *)
Definition legal_read (dev content : string) (h : trace) (e : event) : Prop :=
  match ev_read dev e with
  | Some (n, (buf, err)) =>
      ∃ pre rest, content = pre +:+ buf +:+ rest ∧ Z.of_nat (String.length pre) = read_len dev h ∧
                  (Z.of_nat (String.length buf) ≤ n)%Z ∧
                  match err with
                  | None => buf ≠ ""
                  | Some ErrEOF => buf = "" ∧ rest = ""
                  | Some _ => False
                  end
  | None => True
  end.

(** The first 16 MiB of the content, or all of it, are zero bytes. *)
Definition zero_prefix (content : string) : Prop :=
  ∀ i c, (Z.of_nat i < blankCheckBytes)%Z → String.get i content = Some c → c = "000"%char.

Lemma all_zero_get z : all_zero z = true ↔ ∀ i c, String.get i z = Some c → c = "000"%char.
Proof.
  unfold all_zero. induction z as [|a z IH]; simpl; [naive_solver|].
  rewrite andb_true_iff, IH, bool_decide_eq_true. split.
  - intros [-> H] [|i] c; simpl; naive_solver.
  - intros H. split; [by apply (H 0)|]. intros i. apply (H (S i)).
Qed.

Lemma sget_app_l i a b : i < String.length a → String.get i (a +:+ b) = String.get i a.
Proof. intros H. symmetry. by apply String.append_correct1. Qed.

Lemma sget_len i a c : String.get i a = Some c → i < String.length a.
Proof. revert i. induction a as [|x a IH]; intros [|i]; simpl; naive_solver lia. Qed.

Lemma all_zero_app a b : all_zero (a +:+ b) = all_zero a && all_zero b.
Proof. unfold all_zero. induction a as [|x a IH]; [done|]. simpl. by rewrite IH, andb_assoc. Qed.

Lemma zero_prefix_enough z rest :
  all_zero z = true → (blankCheckBytes ≤ Z.of_nat (String.length z))%Z ∨ rest = "" →
  zero_prefix (z +:+ rest).
Proof.
  intros Hz Hl i c Hi Hg. rewrite all_zero_get in Hz. apply (Hz i).
  assert (i < String.length z) as Hlt.
  { destruct Hl as [Hl| ->]; [lia|]. rewrite sapp_nil_r in Hg. by eapply sget_len. }
  by rewrite sget_app_l in Hg.
Qed.

Lemma zero_prefix_fails z buf rest :
  (Z.of_nat (String.length z) + Z.of_nat (String.length buf) ≤ blankCheckBytes)%Z →
  all_zero buf = false → ~ zero_prefix (z +:+ buf +:+ rest).
Proof.
  intros Hl Hz Hp. apply not_true_iff_false in Hz. apply Hz. apply all_zero_get. intros i c Hg.
  pose proof (sget_len _ _ _ Hg). apply (Hp (i + String.length z) c); [lia|].
  change (String.get (i + String.length z) (z ++ (buf +:+ rest))%string = Some c).
  rewrite <- String.append_correct2. change (String.get i (buf +:+ rest) = Some c). by rewrite sget_app_l.
Qed.

(** The loop's invariant: the bytes consumed so far are zero. *)
Definition consumed (dev content : string) (st : Z) (tr : trace) : Prop :=
  always (legal_read dev content) [] tr →
  st = read_len dev tr ∧ (st ≤ blankCheckBytes)%Z ∧
  ∃ z rest, content = z +:+ rest ∧ Z.of_nat (String.length z) = st ∧ all_zero z = true.

Lemma blank_step_consumed {S} dev content st (s : S) tr0 :
  consumed dev content st tr0 →
  wp (blank_step dev st) s (λ r _ tr,
    match r with
    | inl st' => consumed dev content st' (tr0 ++ tr)
    | inr a => always (legal_read dev content) [] (tr0 ++ tr) →
               ∃ b, a = Ok b ∧ (b = true ↔ zero_prefix content)
    end).
Proof.
  intros HI. unfold blank_step. case_bool_decide as Hd; cbn.
  - rewrite app_nil_r. intros Ha. destruct (HI Ha) as (-> & ? & z & rest & -> & Hl & Hz).
    exists true. split; [done|]. split; [|done]. intros _. apply zero_prefix_enough; [done|]. left. lia.
  - intros [buf err].
    assert (always (legal_read dev content) [] (tr0 ++ [Ev (ReadNext dev (Z.min 1048576 (blankCheckBytes - st))) (buf, err)]) →
      st = read_len dev tr0 ∧ ∃ z rest, content = z +:+ buf +:+ rest ∧ all_zero z = true ∧
        Z.of_nat (String.length z) = st ∧ (st + Z.of_nat (String.length buf) ≤ blankCheckBytes)%Z ∧
        match err with None => buf ≠ "" | Some ErrEOF => buf = "" ∧ rest = "" | Some _ => False end) as Hstep.
    { intros [H0 [Hr _]]%always_app. destruct (HI H0) as (-> & ? & z & rest0 & E0 & Hl & Hz).
      unfold legal_read in Hr. cbn [ev_read] in Hr. rewrite decide_True in Hr by done.
      destruct Hr as (pre & rest & E1 & Hl1 & Hn & He).
      split; [done|]. rewrite E0 in E1. destruct (sapp_inj_len z rest0 pre (buf +:+ rest)) as [-> ->]; [simpl in Hl1; lia|done|].
      eexists _, rest. split_and!; [done..|lia|done]. }
    destruct (all_zero buf) eqn:Eb; cbn; [destruct err as [e|]; cbn|].
    + destruct e; cbn; intros Ha; destruct (Hstep Ha) as (_ & z & rest & -> & Hz & _ & _ & He);
        try done. destruct He as [-> ->]. exists true. split; [done|]. split; [|done]. intros _.
      apply zero_prefix_enough; auto.
    + intros Ha. destruct (Hstep Ha) as (-> & z & rest & -> & Hz & Hl & Hle & He).
      rewrite read_len_app, read_len_one. cbn. split_and!; [done..|].
      exists (z +:+ buf), rest. split_and!.
      * by rewrite sapp_assoc.
      * rewrite slength_app. lia.
      * by rewrite all_zero_app, Hz, Eb.
    + intros Ha. destruct (Hstep Ha) as (_ & z & rest & -> & Hz & Hl & Hle & He).
      exists false. split; [done|]. split; [done|]. intros Hp. exfalso.
      eapply zero_prefix_fails; [|exact Eb|exact Hp]. lia.
Qed.

(** Reads make progress, so the bound on the loop is never reached. *)
Lemma blank_step_progress {S} dev content st (s : S) :
  wp (blank_step dev st) s (λ r _ tr, Forall (λ e, ∃ h, legal_read dev content h e) tr →
     match r with inl st' => (st + 1 ≤ st')%Z | inr _ => True end).
Proof.
  unfold blank_step. case_bool_decide; cbn; [done|]. intros [buf err].
  destruct (all_zero buf); cbn; [|done]. destruct err as [e|]; cbn; [by destruct e|].
  intros Hr. apply Forall_singleton in Hr as [h Hr]. unfold legal_read in Hr. cbn [ev_read] in Hr.
  rewrite decide_True in Hr by done. destruct Hr as (pre & rest & _ & _ & _ & Hne).
  destruct buf; [done|]. simpl. lia.
Qed.

Lemma always_each P h tr : always P h tr → Forall (λ e, ∃ h, P h e) tr.
Proof. revert h. induction tr as [|e tr IH]; intros h; simpl; [constructor|]. intros [? ?]. constructor; eauto. Qed.

(** C33: [isBlank] decides blankness.  On a device it can open and read, it
    always returns (the loop bound is never reached), and it returns true
    exactly when the first 16 MiB, or the whole device if it is smaller, are
    zero bytes, however the reads are split. *)
Theorem isBlank_correct {S} dev content (s : S) tr r s' :
  exec (isBlank dev) s tr r s' →
  (OpenRead dev, Ok tt) ∈ os_ops tr → always (legal_read dev content) [] tr →
  ∃ b, r = Ok b ∧ (b = true ↔ zero_prefix content).
Proof.
  intros He. revert tr r s' He.
  apply (wp_exec (isBlank dev) s (λ r _ tr, (OpenRead dev, Ok tt) ∈ os_ops tr →
    always (legal_read dev content) [] tr → ∃ b, r = Ok b ∧ (b = true ↔ zero_prefix content))).
  unfold isBlank. apply wp_bindE. cbn.
  intros [[]|e]; cbn; [|intros Hin; exfalso; in_cases Hin].
  set (h0 := [Ev (OsOp (OpenRead dev)) (Ok tt)]).
  apply wp_bind. eapply wp_mono; [|apply wp_and; [
    apply (wp_loop_pos _ _ (λ st _ tr, consumed dev content st tr)
      (λ a _ tr, always (legal_read dev content) [] tr → ∃ b, a = Ok b ∧ (b = true ↔ zero_prefix content)))
      with (tr0 := h0)
    | apply (wp_loop_count _ _ id (λ e, ∃ h, legal_read dev content h e))]].
  - intros [st|a] s1 tr [HI Hc]; cbn; intros rc _ [_ [Ha _]%always_app];
      assert (always (legal_read dev content) [] (h0 ++ tr)) as Ha' by (apply always_app; by split).
    + exfalso. destruct (HI Ha') as (-> & Hle & _). apply always_each in Ha. specialize (Hc Ha).
      unfold id, blankCheckBytes in *. lia.
    + auto.
  - intros. by apply blank_step_consumed.
  - intros _. unfold h0, read_len. cbn. split_and!; [done..|]. by exists "", content.
  - intros. apply blank_step_progress.
Qed.

(** A device that hands out its content one byte at a time. *)
Definition byte_device (content : string) : handler nat := λ R c pos,
  match c in call R return R * nat with
  | ReadNext _ _ => match String.get pos content with
                    | Some a => ((String a "", None), S pos)
                    | None => (("", Some ErrEOF), pos)
                    end
  | c => quiet _ c pos
  end.

Lemma isBlank_correct_witness :
  ~ zero_prefix (String "000" "xy") ∧
  ∃ b, Ok false = Ok b ∧ (b = true ↔ zero_prefix (String "000" "xy")).
Proof.
  split. { intros H. specialize (H 1 "x"%char). by discriminate H. }
  pose proof (exec_total (isBlank "/dev/loop3") tt (byte_device (String "000" "xy")) 0) as He.
  set (o := run _ _ _ _) in He. vm_compute in o. subst o.
  refine (isBlank_correct _ (String "000" "xy") _ _ _ _ He _ _); [by left|].
  cbn. split_and!; [done| | |done..].
  - exists "", "xy". vm_compute. split_and!; done.
  - exists (String "000" ""), "y". vm_compute. split_and!; done.
Defined.

(** ** Key rotation

    The key slots of one LUKS device, as the set of passphrases that open it.
    A command that fails may fail before or after it took effect: that is also
    how a crash of the process in the middle of a command looks. *)
Definition slot_step (e : event) (K K' : gset string) : Prop :=
  match ev_run e with
  | Some (c, (_, err)) =>
      match cmd_args c, cmd_secrets c with
      | "open" :: "--test-passphrase" :: _, [key] =>
          K' = K ∧ match err with None => key ∈ K | Some x => exitCode x = 2%Z → key ∉ K end
      | "luksAddKey" :: _, [old; new] =>
          match err with None => K' = K ∪ {[new]} | Some _ => K' = K ∨ K' = K ∪ {[new]} end
      | "luksRemoveKey" :: _, [old] =>
          match err with None => K' = K ∖ {[old]} | Some _ => K' = K ∨ K' = K ∖ {[old]} end
      | _, _ => K' = K
      end
  | None => K' = K
  end.

(** What rotation is for: the current key opens the device, the retired key
    does not, every other slot is untouched. *)
Definition rotated_slots (k : Keys) (K : gset string) : gset string :=
  if decide (Previous k = "" ∨ Previous k = Current k) then K
  else if decide (Current k ∈ K ∨ Previous k ∈ K) then (K ∪ {[Current k]}) ∖ {[Previous k]} else K.

(** Every tool ran without failing (a wrong passphrase is an answer). *)
Definition no_failure (tr : trace) : Prop :=
  Forall (λ x, match x.2.2 with None => True | Some e => exitCode e = 2%Z ∧
                 ∃ rest, cmd_args x.1 = "open" :: "--test-passphrase" :: rest end) (runs tr).

(** What an interrupted rotation of [K] may leave: slots one of the two keys
    still opens, if one did, and which rotate to what [K] rotates to. *)
Definition recoverable (k : Keys) (K K1 : gset string) : Prop :=
  (Current k ∈ K ∨ Previous k ∈ K → Current k ∈ K1 ∨ Previous k ∈ K1) ∧
  rotated_slots k K1 = rotated_slots k K.

Section Rotation.
Context (k : Keys).
Local Abbreviation c := (Current k).
Local Abbreviation p := (Previous k).

Lemma rotated_add K : p ∈ K → p ≠ "" → p ≠ c → rotated_slots k (K ∪ {[c]}) = rotated_slots k K.
Proof. intros. unfold rotated_slots. repeat case_decide; set_solver. Qed.

Lemma rotated_remove K : c ∈ K → p ≠ "" → p ≠ c → rotated_slots k (K ∖ {[p]}) = rotated_slots k K.
Proof. intros. unfold rotated_slots. repeat case_decide; set_solver. Qed.

Lemma rotated_fix K : p = "" ∨ p = c ∨ c ∈ K ∧ p ∉ K → rotated_slots k K = K.
Proof.
  intros H. unfold rotated_slots. repeat case_decide; set_solver.
Qed.

Lemma rotated_done K : c ∈ K → p ≠ "" → p ≠ c → K ∖ {[p]} = rotated_slots k K.
Proof. intros. unfold rotated_slots. repeat case_decide; set_solver. Qed.

Lemma recoverable_refl K : recoverable k K K.
Proof. done. Qed.
Lemma recoverable_trans K K1 K2 : recoverable k K K1 → recoverable k K1 K2 → recoverable k K K2.
Proof. unfold recoverable. intros [? ?] [? ?]. split; [tauto|congruence]. Qed.
Lemma recoverable_add K : p ∈ K → p ≠ "" → p ≠ c → recoverable k K (K ∪ {[c]}).
Proof. intros. split; [set_solver|by apply rotated_add]. Qed.
Lemma recoverable_remove K : c ∈ K → p ≠ "" → p ≠ c → recoverable k K (K ∖ {[p]}).
Proof. intros. split; [set_solver|by apply rotated_remove]. Qed.

Lemma recoverable_both K : p ∈ K → p ≠ "" → p ≠ c → recoverable k K ((K ∪ {[c]}) ∖ {[p]}).
Proof.
  intros. eapply recoverable_trans; [by apply recoverable_add|]. apply recoverable_remove; set_solver.
Qed.
Lemma rotated_both K : p ∈ K → p ≠ "" → p ≠ c → (K ∪ {[c]}) ∖ {[p]} = rotated_slots k K.
Proof. intros. rewrite rotated_done by set_solver. by apply rotated_add. Qed.
End Rotation.

#[local] Arguments rotated_slots : simpl never.

(** What the slots [K'] and the result of [rotate] must be, from slots [K]. *)
Definition rotate_post (k : Keys) (K : gset string) (tr : trace) (r : res Outcome) (K' : gset string) : Prop :=
  match r with
  | Ok _ => Current k ∈ K' ∧ K' = rotated_slots k K
  | Err e => e = Errorf "" ErrWrongKey →
             K' = K ∧ (Current k ∉ K) ∧ (Previous k ≠ "" → (Previous k ∉ K))
  end ∧
  (no_failure tr → (Current k ∈ K ∨ Previous k ≠ "" ∧ Previous k ∈ K) → is_ok r = true).

Lemma no_failure_cons e tr :
  no_failure (e :: tr) ↔
  match ev_run e with
  | Some (c, (_, Some x)) => exitCode x = 2%Z ∧ ∃ rest, cmd_args c = "open" :: "--test-passphrase" :: rest
  | _ => True
  end ∧ no_failure tr.
Proof.
  unfold no_failure. rewrite runs_cons. destruct (ev_run e) as [[c [o [x|]]]|]; [| |tauto].
  all: rewrite Forall_cons; cbn; tauto.
Qed.

Ltac rotate_leaf :=
  repeat match goal with
  | |- ∀ K1, K1 = _ ∧ _ → _ => intros ? [-> ?]
  | |- ∀ K1, K1 = _ → _ => intros ? ->
  | |- ∀ K1, _ ∨ _ → _ => intros ? [-> | ->]
  | |- recoverable _ _ _ ∧ _ => split
  | |- recoverable _ _ _ => solve [auto using recoverable_refl, recoverable_add, recoverable_remove, recoverable_both]
  end.

(** C5: key rotation is safe to interrupt and converges.  Whatever commands
    fail or are cut short, before and after every command of [rotate] a
    volume one of the two keys opened is still opened by one of them, and
    rotating what is left leads to the same slots.  Success means the current
    key opens the volume and, when a distinct previous key is given, that it
    no longer does, all other slots being untouched; the wrong-key error
    changes nothing and is returned only if no key of the request opens the
    volume; and when no command fails and a key opens, [rotate] succeeds. *)
Theorem rotate_converges {S} dev k (s : S) tr r s' :
  exec (rotate dev k) s tr r s' → ∀ K,
  through slot_step (recoverable k K) (rotate_post k K tr r) tr K.
Proof.
  intros He K. revert tr r s' He.
  apply (wp_exec (rotate dev k) s (λ r _ tr, through slot_step (recoverable k K) (rotate_post k K tr r) tr K)).
  unfold rotate, opens. wp_cases. all: rotate_leaf.
  all: repeat match goal with H : ?P → _, H' : ?P |- _ => specialize (H H') end.
  all: split; [|rewrite !no_failure_cons; cbn; first [naive_solver|intuition congruence]].
  all: try (intros [=]; split_and!; congruence).
  all: split; [set_solver|]; auto using rotated_done, rotated_both; symmetry; apply rotated_fix; tauto.
Qed.

(** A rotation cut short by a failing luksRemoveKey, from a volume that only
    the previous key opens. *)
Lemma rotate_converges_witness :
  let k := mkKeys "new" "old" in
  let o := run (on_run (λ c,
      if bool_decide (head (cmd_args c) = Some "open") && bool_decide (cmd_secrets c = ["new"])
      then ("", Some (ErrExec "cryptsetup" [] 2 "" None))
      else if bool_decide (head (cmd_args c) = Some "luksRemoveKey")
      then ("", Some (ErrExec "cryptsetup" [] 1 "" None)) else ("", None)) quiet)
    (rotate "/dev/loop3" k) tt tt in
  through slot_step (recoverable k {["old"; "z"]}) (rotate_post k {["old"; "z"]} o.2 o.1.1.1) o.2 {["old"; "z"]}.
Proof.
  intros k o. apply (rotate_converges "/dev/loop3" k tt o.2 o.1.1.1 tt).
  vm_compute. repeat (eexists; eexists; split; [reflexivity|]). done.
Defined.
