(* ===== verification/Loop.v ===== *)
(** Loop devices: pkg/loop/losetup.go, pkg/loop/state.go, pkg/loop/reconcile.go.

    The theorems: the sector size chosen for an image terminates within its
    bounds; the state file is replaced atomically and what a successful write
    left is what the next process loads; the startup reconciliation removes
    nothing that a consistent entry tracks and nothing that is not ours. *)

From Stdlib Require Import ZArith Lia Ascii.
From stdpp Require Import base option gmap strings list.
From S2P Require Import Prelude GoStrings Regexp Effects Json Image Crypt.

Import strings path.
Local Open Scope prog_scope.

(** src/pkg/loop/losetup.go:47-47 (minSectorSize) *)
Definition minSectorSize : Z := 512.
(** src/pkg/loop/losetup.go:90-90 (deletedSuffix) *)
Definition deletedSuffix : string := " (deleted)".

(** src/pkg/loop/losetup.go:63-65 (SectorSizeFor, the loop).  Each turn halves
    a 64-bit integer that is above 512, so 64 turns are enough. *)
Fixpoint halve (fuel : nat) (s imageSize : Z) : Z :=
  match fuel with
  | 0 => s
  | S n => if bool_decide (s > minSectorSize)%Z && negb (bool_decide (go_rem imageSize s = 0)%Z)
           then halve n (go_div s 2) imageSize else s
  end.
(** src/pkg/loop/losetup.go:57-67 (SectorSizeFor); [pageSize] is what
    [os.Getpagesize] returns. *)
Definition SectorSizeFor (pageSize recorded imageSize : Z) : Z :=
  let s := if bool_decide (recorded ≤ 0)%Z then DefaultBlockSize else recorded in
  halve 64 (Z.min s pageSize) imageSize.

(** src/pkg/loop/losetup.go:33-33 (Losetup.Attach, Detach: the device is gone) *)
Definition no_such_device (e : goerr) : bool :=
  match as_exec e with
  | Some (_, out, _) => Contains (ToLower out) "no such device"
  | None => false
  end.

Section Losetup.
Context {S : Type}.

(** src/pkg/loop/losetup.go:29-44 (Losetup.Attach) *)
Definition Attach (imagePath : string) (sectorSize : Z) : prog S (res string) :=
  r <- Run "losetup" ["--find"; "--show"; "--sector-size"; Itoa sectorSize; imagePath] ;;
  match snd r with
  | Some e => if no_such_device e then fail ErrPoolExhausted
              else fail (Errorf "losetup --find --show " e)
  | None => let dev := TrimSpace (fst r) in
            if negb (HasPrefix dev "/dev/loop")
            then fail (ErrMsg "losetup returned unexpected device ") else ok dev
  end.

(** src/pkg/loop/losetup.go:71-81 (Losetup.Detach) *)
Definition Detach (dev : string) : prog S (res unit) :=
  r <- Run "losetup" ["--detach"; dev] ;;
  match snd r with
  | None => ok tt
  | Some e => if no_such_device e then ok tt else fail (Errorf "losetup --detach " e)
  end.

(** src/pkg/loop/losetup.go:95-113 (Losetup.List) *)
Definition List : prog S (res (list Attachment)) :=
  r <- Run "losetup" ["--json"; "--list"] ;;
  match snd r with
  | Some e => fail (Errorf "losetup --list: " e)
  | None =>
      if bool_decide (TrimSpace (fst r) = "") then ok [] else
      match json_loopdevices (fst r) with
      | None => fail (ErrMsg "parse losetup output: ")
      | Some l => ok (map (λ a, mkAttachment (Device a) (TrimSuffix (BackFile a) deletedSuffix)) l)
      end
  end.

(** src/pkg/loop/losetup.go:131-143 (Losetup.Find) *)
Definition Find (match_ : Attachment → bool) : prog S (res (list string)) :=
  live <-? List ;;
  ok (map Device (List.filter match_ live)).

(** src/pkg/loop/losetup.go:147-152 (Losetup.SetCapacity) *)
Definition SetCapacity (dev : string) : prog S (res unit) :=
  r <- Run "losetup" ["--set-capacity"; dev] ;;
  match snd r with
  | Some e => fail (Errorf "losetup --set-capacity " e)
  | None => ok tt
  end.

(** src/pkg/loop/losetup.go:120-122 (Losetup.FindImage) *)
Definition FindImage (name : string) : prog S (res (list string)) :=
  Find (λ a, bool_decide (Base (BackFile a) = name)).

(** src/pkg/loop/reconcile.go:37-43 (Backs) *)
Definition Backs (back imagePath : string) : bool :=
  bool_decide (back = imagePath) ||
  (HasPrefix back "/" && HasSuffix imagePath back && bool_decide (Base back = Base imagePath)).

(** src/pkg/loop/losetup.go:126-128 (Losetup.FindBacking) *)
Definition FindBacking (imagePath : string) : prog S (res (list string)) :=
  Find (λ a, Backs (BackFile a) imagePath).
End Losetup.

Definition not_slash (c : ascii) : bool := negb (bool_decide (c = "/"%char)).
(** src/pkg/loop/reconcile.go:22-22 (disconnectedImage) *)
Definition disconnectedImage : Regexp.re :=
  Regexp.cat_list [Regexp.lit "/"; Regexp.Star (Regexp.Cat (Regexp.plus (Regexp.Chr not_slash)) (Regexp.lit "/"));
    Regexp.lit "fb-"; Regexp.repn 12 (Regexp.Chr Regexp.is_hex); Regexp.lit "-";
    Regexp.plus (Regexp.Chr not_slash); Regexp.lit ".img"].
(** src/pkg/loop/reconcile.go:25-25 (sillyRenamed) *)
Definition sillyRenamed : Regexp.re :=
  Regexp.Cat (Regexp.lit ".nfs") (Regexp.plus (Regexp.Chr Regexp.is_hex)).
(** src/pkg/loop/reconcile.go:29-29 (SillyRenamed) *)
Definition SillyRenamed (back : string) : bool := Regexp.matches sillyRenamed (Base back).

(** ** The state file *)

(** src/pkg/loop/state.go:34-38 (State) *)
Record State := mkState { st_path : string; st_data : gmap string Mapping }.

(** src/pkg/loop/state.go:41-60 (LoadState) *)
Definition LoadState {S} (path : string) : prog S (res State) :=
  sys (OsOp (MkdirAll (Dir path))) ;;?
  b <- sys (ReadFile path) ;;
  match b with
  | Err e => if is_NotExist e then ok (mkState path ∅) else fail e
  | Ok b =>
      if bool_decide (b = "") then ok (mkState path ∅) else
      match json_state b with
      | None => fail (Errorf "parse " (ErrMsg "json"))
      | Some d => ok (mkState path d)
      end
  end.

(** src/pkg/loop/state.go:94-120 (State.flushLocked) *)
Definition flushLocked : prog State (res unit) :=
  st <- gets id ;;
  let b := json_marshal_state (st_data st) in
  let tmp := st_path st +:+ ".tmp" in
  let close_and_fail e := sys (OsOp (CloseFile tmp)) ;; fail e in
  sys (OsOp (OpenTrunc tmp)) ;;?
  (r <- sys (OsOp (Flock tmp)) ;;
   match r with
   | Err e => close_and_fail e
   | Ok _ =>
       r <- sys (OsOp (WriteAll tmp b)) ;;
       match r with
       | Err e => close_and_fail e
       | Ok _ =>
           r <- sys (OsOp (Fsync tmp)) ;;
           match r with
           | Err e => close_and_fail e
           | Ok _ =>
               sys (OsOp (CloseFile tmp)) ;;?
               sys (OsOp (Rename tmp (st_path st)))
           end
       end
   end).

(** src/pkg/loop/state.go:63-71 (State.All): a snapshot in the order of the
    map range. *)
Definition All : prog State (list Mapping) :=
  with_lock "state.mu" (
    d <- gets st_data ;;
    ks <- range_keys (map fst (map_to_list d)) ;;
    Ret (omap (λ k, d !! k) ks)).

(** src/pkg/loop/state.go:73-78 (State.Get) *)
Definition GetMapping (volumeID : string) : prog State (option Mapping) :=
  with_lock "state.mu" (gets (λ st, st_data st !! volumeID)).

(** src/pkg/loop/state.go:80-85 (State.Put) *)
Definition Put (m : Mapping) : prog State (res unit) :=
  with_lock "state.mu" (
    modify (λ st, mkState (st_path st) (<[m_VolumeID m := m]> (st_data st))) ;;
    flushLocked).

(** src/pkg/loop/state.go:87-92 (State.Delete) *)
Definition DeleteMapping (volumeID : string) : prog State (res unit) :=
  with_lock "state.mu" (
    modify (λ st, mkState (st_path st) (delete volumeID (st_data st))) ;;
    flushLocked).

(** ** Reconciliation *)

(** src/pkg/loop/reconcile.go:49-54 (Reconciler): [crypt] is the sysfs root of
    the crypt component, [None] when the reconciler has none. *)
Record Reconciler := mkReconciler { rec_crypt : option string; rec_backingStorePath : string }.

(** src/pkg/loop/reconcile.go:74-77 (Reconciler.Reconcile, liveByDev) *)
Definition live_by_dev (live : list Attachment) : gmap string string :=
  list_to_map (reverse (map (λ a, (Device a, BackFile a)) live)).
(** src/pkg/loop/reconcile.go:84-87 (Reconciler.Reconcile, backingByName) *)
Definition backing_by_name (ms : list CryptMapping) : gmap string string :=
  list_to_map (reverse (map (λ m, (cm_Name m, cm_Backing m)) ms)).

(** src/pkg/loop/reconcile.go:91-96 (Reconciler.Reconcile, the stale test) *)
Definition stale (liveByDev backingByName : gmap string string) (m : Mapping) : bool :=
  match liveByDev !! m_LoopDev m with
  | None => true
  | Some back => negb (Backs back (m_ImagePath m))
  end ||
  (negb (bool_decide (m_CryptDev m = "")) &&
   match backingByName !! Base (m_CryptDev m) with
   | None => true
   | Some b => negb (bool_decide (b = m_LoopDev m))
   end).

(** src/pkg/loop/reconcile.go:113-117 (Reconciler.Reconcile, ours) *)
Definition ours (root : string) (liveByDev : gmap string string) (dev : string) : bool :=
  match liveByDev !! dev with
  | None => false
  | Some back => HasPrefix (Clean back) (Clean root +:+ "/") || Regexp.matches disconnectedImage back
  end.

(** src/pkg/loop/reconcile.go:89-134 (Reconciler.Reconcile, after the listings) *)
Definition reconcile_with (root : string) (live : list Attachment) (mappings : list CryptMapping)
  : prog State (res unit) :=
  let liveByDev := live_by_dev live in
  let backingByName := backing_by_name mappings in
  all <- All ;;
  for_all all (λ m, when stale liveByDev backingByName m then
                      (DeleteMapping (m_VolumeID m) ;; Ret tt)) ;;
  kept <- All ;;
  let trackedLoop dev := existsb (λ m, bool_decide (m_LoopDev m = dev)) kept in
  let trackedCrypt name := existsb (λ m, negb (bool_decide (m_CryptDev m = "")) &&
                                         bool_decide (Base (m_CryptDev m) = name)) kept in
  let ours := ours root liveByDev in
  for_all mappings (λ m, if trackedCrypt (cm_Name m) || negb (ours (cm_Backing m)) then Ret tt
                         else CloseMapping (cm_Name m) ;; Ret tt) ;;
  devs <- range_keys (map fst (map_to_list liveByDev)) ;;
  for_all devs (λ dev, if trackedLoop dev || negb (ours dev) then Ret tt
                       else Detach dev ;; Ret tt) ;;
  ok tt.

(** src/pkg/loop/reconcile.go:69-135 (Reconciler.Reconcile) *)
Definition Reconcile (r : Reconciler) : prog State (res unit) :=
  live <-? List ;;
  mappings <-? match rec_crypt r with
               | None => ok []
               | Some sysRoot => ListMappings sysRoot
               end ;;
  reconcile_with (rec_backingStorePath r) live mappings.

(** ** Sector sizes *)
Section SectorSizes.
Local Open Scope Z_scope.

Lemma halve_pow2 fuel a size :
  9 ≤ a ≤ 9 + Z.of_nat fuel → a ≤ 62 →
  ∃ b, halve fuel (2 ^ a) size = 2 ^ b ∧ 9 ≤ b ≤ a ∧ (b = 9 ∨ (2 ^ b | size)) ∧
       ∀ c, b < c ≤ a → ~ (2 ^ c | size).
Proof.
  revert a. induction fuel as [|n IH]; intros a Ha Hm; cbn [halve].
  - exists 9. replace a with 9 by lia. split_and!; [done|lia|lia|by left|intros; lia].
  - unfold minSectorSize, go_rem. destruct (decide (a = 9)) as [->|Hne].
    { exists 9. split_and!; [done|lia|lia|by left|intros; lia]. }
    assert (2 ^ a > 512) as Hgt.
    { change 512 with (2 ^ 9). apply Z.lt_gt, Z.pow_lt_mono_r; lia. }
    assert (2 ^ a ≠ 0) as Hnz by lia.
    rewrite bool_decide_true by done. cbn. case_bool_decide as H2; cbn.
    + apply Z.rem_divide in H2; [|done]. exists a. split_and!; [done|lia|lia|by right|intros; lia].
    + assert (go_div (2 ^ a) 2 = 2 ^ (a - 1)) as ->.
      { unfold go_div. replace (2 ^ a) with (2 ^ (a - 1) * 2)
          by (rewrite Z.mul_comm, <- Z.pow_succ_r by lia; f_equal; lia).
        rewrite Z.quot_mul by done. apply wrap64_id. unfold is_int64, int64_min, int64_max.
        assert (0 < 2 ^ (a - 1) < 2 ^ 62) by (split; [lia|apply Z.pow_lt_mono_r; lia]). lia. }
      destruct (IH (a - 1)) as (b & -> & Hb & Hd & Hc); [lia..|].
      exists b. split_and!; try done; try lia. intros c Hcb.
      destruct (decide (c = a)) as [->|]; [|apply Hc; lia]. intros Hdiv. apply H2.
      by apply Z.rem_divide.
Qed.
End SectorSizes.

(** The sector size of a loop device.  For a page size that is a power of
    two of at least 512 bytes, [SectorSizeFor] returns; the result is positive,
    at most the page size and at most the recorded block size; when the
    recorded size is absent or a power of two of at least 512, it is the
    largest power of two up to that size and the page size that divides the
    image size, or 512 when none above 512 does, so an image that is a whole
    number of 512-byte sectors is always divided. *)
Theorem SectorSizeFor_spec p a recorded size :
  (9 ≤ p ≤ 30)%Z → (recorded ≤ 0 ∧ a = 12 ∨ recorded = 2 ^ a ∧ 9 ≤ a ≤ 62)%Z →
  let r := SectorSizeFor (2 ^ p) recorded size in
  let m := Z.min a p in
  (0 < r ≤ 2 ^ p)%Z ∧ (0 < recorded → r ≤ recorded)%Z ∧
  ∃ b, r = (2 ^ b)%Z ∧ (9 ≤ b ≤ m)%Z ∧ (∀ c, b < c ≤ m → ~ (2 ^ c | size))%Z ∧
       (b = 9 ∨ (2 ^ b | size))%Z ∧ ((512 | size) → (r | size))%Z.
Proof.
  intros Hp Ha r m.
  assert (Z.min (if bool_decide (recorded ≤ 0)%Z then DefaultBlockSize else recorded) (2 ^ p) = 2 ^ m)%Z as E.
  { assert (∀ x, 9 ≤ x → Z.min (2 ^ x) (2 ^ p) = 2 ^ Z.min x p)%Z as Hmin.
    { intros x Hx. destruct (Z.le_ge_cases x p).
      - rewrite !Z.min_l; [done|lia|by apply Z.pow_le_mono_r; lia].
      - rewrite !Z.min_r; [done|lia|by apply Z.pow_le_mono_r; lia]. }
    unfold m. destruct Ha as [[Hr ->]|[-> Ha]].
    - rewrite bool_decide_true by done. change DefaultBlockSize with (2 ^ 12)%Z. apply Hmin. lia.
    - rewrite bool_decide_false; [apply Hmin; lia|]. assert (0 < 2 ^ a)%Z by (apply Z.pow_pos_nonneg; lia). lia. }
  unfold r, SectorSizeFor. rewrite E.
  destruct (halve_pow2 64 m size) as (b & -> & Hb & Hd & Hc); [unfold m; lia..|].
  assert (2 ^ b ≤ 2 ^ m)%Z by (apply Z.pow_le_mono_r; lia).
  split_and!.
  - apply Z.pow_pos_nonneg; lia.
  - etrans; [done|]. apply Z.pow_le_mono_r; lia.
  - intros. destruct Ha as [[? _]|[-> ?]]; [lia|]. etrans; [done|]. apply Z.pow_le_mono_r; lia.
  - exists b. split_and!; try done; try lia. destruct Hd as [->|]; done.
Qed.

(** An image of 512-byte sectors that is no multiple of 1024. *)
Lemma SectorSizeFor_spec_witness :
  SectorSizeFor 4096 0 (512 * 7) = 512%Z ∧ (SectorSizeFor (2 ^ 12) 0 (512 * 7) ≤ 2 ^ 12)%Z.
Proof.
  split; [vm_compute; reflexivity|].
  apply (SectorSizeFor_spec 12 12 0 (512 * 7)); [lia|left; lia].
Defined.

(** An image whose size is no multiple of 512 bytes is not divided by the
    sector size chosen for it. *)
Lemma SectorSizeFor_not_dividing : SectorSizeFor 4096 0 1000 = 512%Z ∧ ~ (512 | 1000)%Z.
Proof. split; [vm_compute; reflexivity|]. intros [k Hk]. lia. Qed.

(** ** The state file on disk *)

(** The files' contents.  A write that fails may have written anything to the
    file, an operation that fails may still have happened: that covers a
    process that dies in the middle. *)
Definition file_step (e : event) (D D' : gmap string string) : Prop :=
  match e with
  | Ev c r =>
      match c in call R return R → Prop with
      | OsOp o => λ r,
          match o, r with
          | OpenTrunc p, Ok _ => D' = <[p := ""]> D
          | OpenTrunc p, Err _ => D' = D ∨ D' = <[p := ""]> D
          | WriteAll p b, Ok _ => D' = <[p := default "" (D !! p) +:+ b]> D
          | WriteAll p _, Err _ => ∃ x, D' = <[p := x]> D
          | Rename p q, Ok _ => ∃ b, D !! p = Some b ∧ D' = <[q := b]> (delete p D)
          | Rename p q, Err _ => D' = D ∨ ∃ b, D !! p = Some b ∧ D' = <[q := b]> (delete p D)
          | _, _ => D' = D
          end
      | _ => λ _, D' = D
      end r
  end.

(** A call answered from the files [D], without I/O errors. *)
Definition answers_from (D : gmap string string) (e : event) : Prop :=
  match e with
  | Ev c r =>
      match c in call R return R → Prop with
      | OsOp _ => λ r, r = Ok tt
      | ReadFile p => λ r, r = match D !! p with Some b => Ok b | None => Err ErrNotExist end
      | _ => λ _, True
      end r
  end.

(** A process that starts with the files [D] loads the table [d]. *)
Definition Loads (D : gmap string string) (path : string) (d : gmap string Mapping) : Prop :=
  ∀ tr r s', exec (S := unit) (LoadState path) tt tr r s' → Forall (answers_from D) tr → r = Ok (mkState path d).

(** Tables [json.MarshalIndent] writes faithfully. *)
Definition table_ok (d : gmap string Mapping) : Prop := map_Forall (λ id m, utf8 id ∧ writable m) d.

Lemma marshal_nonempty d : json_marshal_state d ≠ "".
Proof. unfold json_marshal_state. by destruct (map _ (entries d)). Qed.

Lemma Loads_marshal D path d :
  json_state (json_marshal_state d) = Some d → D !! path = Some (json_marshal_state d) → Loads D path d.
Proof.
  intros Hrt HD. unfold Loads. apply (wp_exec (LoadState path) tt (λ r _ tr, Forall (answers_from D) tr → r = Ok (mkState path d))). unfold LoadState. cbn.
  intros [[]|e]; cbn; [|intros [[=] _]%Forall_cons]. intros b.
  assert (∀ x, answers_from D (Ev (ReadFile path) x) → x = Ok (json_marshal_state d)) as Hb
    by (intros x; cbn; by rewrite HD).
  destruct b as [b|e]; [|destruct (is_NotExist e)]; cbn;
    try (intros [_ [[=]%Hb _]%Forall_cons]%Forall_cons).
  case_bool_decide; cbn.
  - intros [_ [[= ->]%Hb _]%Forall_cons]%Forall_cons. by destruct (marshal_nonempty d).
  - destruct (json_state b) eqn:E; cbn; intros [_ [[= ->]%Hb _]%Forall_cons]%Forall_cons; congruence.
Qed.

Lemma tmp_ne path : path +:+ ".tmp" ≠ path.
Proof. intros E. apply (f_equal String.length) in E. rewrite slength_app in E. simpl in E. lia. Qed.

(** The operations that write the state file. *)
Inductive state_op := OPut (m : Mapping) | ODelete (volumeID : string).
Definition run_op (o : state_op) : prog State (res unit) :=
  match o with OPut m => Put m | ODelete id => DeleteMapping id end.
Definition apply_op (o : state_op) (d : gmap string Mapping) : gmap string Mapping :=
  match o with OPut m => <[m_VolumeID m := m]> d | ODelete id => delete id d end.

#[local] Arguments json_marshal_state : simpl never.

(** [files_leaf] follows the files along an explicit trace. *)
Ltac files_leaf :=
  repeat match goal with
  | |- ∀ w, w = _ → _ => intros ? ->
  | |- ∀ w, _ ∨ _ → _ => intros ? [->|?]
  | |- ∀ w, (∃ _, _) → _ => intros ? [? ?]
  | H : _ ∧ _ |- _ => destruct H
  | H : ∃ _, _ |- _ => destruct H
  | |- _ ∧ _ => split
  | H : ?w = _ |- _ => subst w
  | |- _ = Ok tt → _ => intros [=]
  | |- _ ∨ _ => first [left; solve [simplify_map_eq; done] | right; solve [simplify_map_eq; done]]
  end; try (simplify_map_eq; done).

Lemma run_op_files o st D :
  let new := json_marshal_state (apply_op o (st_data st)) in
  wp (run_op o) st (λ r st' tr,
    st' = mkState (st_path st) (apply_op o (st_data st)) ∧
    through file_step (λ D1, D1 !! st_path st = D !! st_path st ∨ D1 !! st_path st = Some new)
      (λ D1, r = Ok tt → D1 !! st_path st = Some new) tr D).
Proof.
  intros new. pose proof (tmp_ne (st_path st)) as Hne. set (tmp := st_path st +:+ ".tmp") in *.
  destruct o as [m|id]; unfold run_op, Put, DeleteMapping, with_lock, flushLocked; wp_cases.
  all: split; [done|]; unfold new; cbn; fold tmp.
  all: files_leaf.
Qed.

(** C6: the state file survives a crash.  When the file holds the table in
    memory, then before and after every file operation of [Put] and [Delete],
    whichever of them fail, a process that starts then loads the table of
    before or the new one, never a torn or empty file; after success it loads
    the new one.  The table in memory is the new one in every case.  The tables
    are of valid UTF-8, without a stage context that is empty and not nil
    ([table_ok]): the handlers build no other, and the file keeps no other. *)
Theorem state_crash_safe o st tr r st' D :
  exec (run_op o) st tr r st' →
  let new := apply_op o (st_data st) in
  table_ok (st_data st) → table_ok new →
  D !! st_path st = Some (json_marshal_state (st_data st)) →
  st' = mkState (st_path st) new ∧
  through file_step (λ D1, Loads D1 (st_path st) (st_data st) ∨ Loads D1 (st_path st) new)
    (λ D1, r = Ok tt → Loads D1 (st_path st) new) tr D.
Proof.
  intros He new Hold Hnew HD.
  destruct (proj1 (wp_exec _ _ _) (run_op_files o st D) _ _ _ He) as [-> Ht]. split; [done|].
  apply json_state_writable in Hold, Hnew.
  eapply through_mono; [| |exact Ht]; cbn; eauto using Loads_marshal.
  intros D1 [E|E]; [left|right]; apply Loads_marshal; first [exact Hold|exact Hnew|by rewrite E].
Qed.

Lemma state_crash_safe_witness :
  let st := mkState "/var/s.json" ∅ in
  let o := run (X := unit) quiet (run_op (ODelete "v")) st tt in
  let D := {["/var/s.json" := json_marshal_state ∅]} in
  o.1.1.1 = Ok tt ∧
  through file_step (λ D1, Loads D1 "/var/s.json" ∅ ∨ Loads D1 "/var/s.json" ∅)
    (λ D1, Ok (A := unit) tt = Ok tt → Loads D1 "/var/s.json" ∅) o.2 D.
Proof.
  intros st o D. split; [vm_compute; reflexivity|].
  pose proof (exec_total (run_op (ODelete "v")) st (X := unit) quiet tt) as He. fold o in He.
  destruct o as [[[r s] x] tr] eqn:E. vm_compute in E. simplify_eq.
  destruct (state_crash_safe _ _ _ _ _ D He) as [_ H]; [apply map_Forall_empty|..].
  - cbn. rewrite delete_empty. apply map_Forall_empty.
  - reflexivity.
  - cbn in H. rewrite delete_empty in H. exact H.
Defined.

(** ** Reconciliation *)

(** [Put] keys every entry by its volume ID. *)
Definition keyed (d : gmap string Mapping) : Prop := map_Forall (λ k m, m_VolumeID m = k) d.

Lemma run_op_keyed o st tr r st' :
  exec (run_op o) st tr r st' → keyed (st_data st) → keyed (st_data st').
Proof.
  intros He Hk. destruct (proj1 (wp_exec _ _ _) (run_op_files o st ∅) _ _ _ He) as [-> _].
  destruct o as [m|id]; cbn; [by apply map_Forall_insert_2|by apply map_Forall_delete].
Qed.

Lemma exec_All st tr l st' :
  exec All st tr l st' → st' = st ∧ runs tr = [] ∧ ∀ m, m ∈ l ↔ ∃ k, st_data st !! k = Some m.
Proof.
  revert tr l st'. apply wp_exec. unfold All, with_lock, range_keys. cbn. intros _ ks _. cbn.
  split_and!; [done..|]. intros m. rewrite list_elem_of_omap.
  assert (∀ k, k ∈ (if decide (ks ≡ₚ map fst (map_to_list (st_data st))) then ks
                    else map fst (map_to_list (st_data st))) ↔ k ∈ map fst (map_to_list (st_data st))) as Hk
    by (intros k; case_decide as E; [by rewrite E|done]).
  split.
  - intros (k & _ & E). eauto.
  - intros [k E]. exists k. split; [|done]. apply Hk. apply list_elem_of_fmap.
    exists (k, m). split; [done|]. by apply elem_of_map_to_list.
Qed.

Lemma exec_DeleteMapping id st tr r st' :
  exec (DeleteMapping id) st tr r st' → st' = mkState (st_path st) (delete id (st_data st)) ∧ runs tr = [].
Proof.
  revert tr r st'. apply wp_exec. unfold DeleteMapping, with_lock, flushLocked. wp_cases; done.
Qed.

(** The entries the first loop deletes. *)
Lemma exec_drop_stale (f : Mapping → bool) l st tr u st' :
  exec (for_all l (λ m, when f m then (DeleteMapping (m_VolumeID m) ;; Ret tt))) st tr u st' →
  runs tr = [] ∧ st_path st' = st_path st ∧
  ∀ k, st_data st' !! k = if existsb (λ m, f m && bool_decide (m_VolumeID m = k)) l then None else st_data st !! k.
Proof.
  revert st tr. induction l as [|m l IH]; intros st tr; cbn [for_all].
  - intros (-> & -> & ->). done.
  - intros (t1 & [] & st1 & t2 & -> & H1 & H2)%exec_bind. apply IH in H2 as (R2 & P2 & D2).
    rewrite runs_app, R2, app_nil_r. destruct (f m) eqn:Ef; cbn [existsb andb]; rewrite ?Ef; cbn [andb].
    + apply exec_bind in H1 as (ta & r & sa & tb & -> & Ha & (-> & _ & ->)).
      apply exec_DeleteMapping in Ha as [-> Ra]. rewrite app_nil_r. cbn in *. split_and!; [done..|].
      intros k. rewrite D2. case_bool_decide as E; cbn; [subst k; rewrite lookup_delete_eq; by case_match|].
      by rewrite lookup_delete_ne.
    + destruct H1 as (-> & _ & ->). done.
Qed.

Lemma stale_dropped (f : Mapping → bool) st st' all :
  keyed (st_data st) → (∀ m, m ∈ all ↔ ∃ k, st_data st !! k = Some m) →
  (∀ k, st_data st' !! k = if existsb (λ m, f m && bool_decide (m_VolumeID m = k)) all then None
                           else st_data st !! k) →
  st_data st' = filter (λ kv, f kv.2 = false) (st_data st).
Proof.
  intros Hk Hall Hd. apply map_eq. intros k. rewrite Hd. destruct (existsb _ all) eqn:E.
  - apply existsb_exists in E as (m & Hm%list_elem_of_In & [Hf <-%bool_decide_eq_true]%andb_true_iff).
    symmetry. apply map_lookup_filter_None. right. intros m' Hm' Hf'. cbn in Hf'.
    apply Hall in Hm as [k' Hm]. rewrite (Hk _ _ Hm) in Hm'. congruence.
  - symmetry. destruct (st_data st !! k) as [m|] eqn:Em.
    + apply map_lookup_filter_Some. split; [done|]. cbn. destruct (f m) eqn:Ef; [|done].
      exfalso. apply not_true_iff_false in E. apply E. apply existsb_exists. exists m. split.
      * apply list_elem_of_In, Hall. eauto.
      * rewrite Ef. cbn. apply bool_decide_eq_true. by apply Hk.
    + apply map_lookup_filter_None. by left.
Qed.

Definition detach_cmd (dev : string) : Cmd := mkCmd "losetup" ["--detach"; dev] [] [].
Definition close_cmd (name : string) : Cmd := crypt_cmd [] ["close"; name].

(** A loop that skips some items and runs one command for each other. *)
Lemma exec_for_all_cmds {S A} (skip : A → bool) (P : A → prog S (res unit)) (cmd : A → Cmd) l s tr u s' :
  (∀ x s tr r s', exec (P x) s tr r s' → s' = s ∧ map fst (runs tr) = [cmd x]) →
  exec (for_all l (λ x, if skip x then Ret tt else P x ;; Ret tt)) s tr u s' →
  s' = s ∧ map fst (runs tr) = map cmd (List.filter (λ x, negb (skip x)) l).
Proof.
  intros HP. revert s tr. induction l as [|x l IH]; intros s tr; cbn [for_all].
  - intros (-> & -> & ->). done.
  - intros (t1 & [] & s1 & t2 & -> & H1 & H2)%exec_bind. apply IH in H2 as [-> H2].
    rewrite runs_app, map_app, H2. cbn [List.filter]. destruct (skip x); cbn [negb].
    + destruct H1 as (-> & _ & ->). done.
    + apply exec_bind in H1 as (ta & r & sa & tb & -> & Ha & (-> & _ & ->)).
      apply HP in Ha as [-> Ha]. rewrite app_nil_r, Ha. done.
Qed.

Lemma exec_Detach {S} dev (s : S) tr r s' :
  exec (Detach dev) s tr r s' → s' = s ∧ map fst (runs tr) = [detach_cmd dev].
Proof. revert tr r s'. apply wp_exec. unfold Detach. wp_cases; [|done]. by destruct (no_such_device g). Qed.

Lemma exec_CloseMapping {S} name (s : S) tr r s' :
  exec (CloseMapping name) s tr r s' → s' = s ∧ map fst (runs tr) = [close_cmd name].
Proof. revert tr r s'. apply wp_exec. unfold CloseMapping, cryptsetup. wp_cases; done. Qed.

Lemma List_pure {S} : read_only (S := S) List.
Proof. unfold List. cbn. intros [out [e|]]; cbn; [done|]. case_bool_decide; [done|]. by case_match. Qed.

Lemma list_dms_pure {S} dms : read_only (S := S) (list_dms dms).
Proof.
  induction dms as [|d ds IH]; cbn; [done|]. intros [b|e]; [|done]. case_match; [done|]. cbn. intros sl.
  apply read_only_bind; [done|]. done.
Qed.
Lemma ListMappings_pure {S} root : read_only (S := S) (ListMappings root).
Proof. unfold ListMappings. cbn. intros [l|e]; cbn; [|done]. apply read_only_bind; [apply list_dms_pure|done]. Qed.

Lemma List_read_only {S} (s : S) : wp List s (λ _ _ tr, map fst (runs tr) = [mkCmd "losetup" ["--json"; "--list"] [] []]).
Proof. unfold List. wp_cases; done. Qed.

Lemma ListMappings_quiet {S} root : emits (S := S) (λ e, ev_run e = None) (ListMappings root).
Proof.
  unfold ListMappings. solve_emits; try done. rename a into dms.
  induction dms as [|d ds IH]; cbn [list_dms]; solve_emits; try done.
Qed.

Lemma quiet_runs tr : Forall (λ e, ev_run e = None) tr → runs tr = [].
Proof. induction 1 as [|e tr He _ IH]; [done|]. by rewrite runs_cons, He. Qed.

(** No entry of the table uses this loop device, this crypt mapping. *)
Definition untracked_loop (d : gmap string Mapping) (dev : string) : Prop :=
  map_Forall (λ _ m, m_LoopDev m ≠ dev) d.
Definition untracked_crypt (d : gmap string Mapping) (name : string) : Prop :=
  map_Forall (λ _ m, m_CryptDev m = "" ∨ Base (m_CryptDev m) ≠ name) d.

Lemma tracked_spec (P : Mapping → bool) (Q : Mapping → Prop) st kept :
  (∀ m, m ∈ kept ↔ ∃ k, st_data st !! k = Some m) → (∀ m, P m = false ↔ Q m) →
  existsb P kept = false ↔ map_Forall (λ _, Q) (st_data st).
Proof.
  intros Hk HP. rewrite <- not_true_iff_false, existsb_exists. split.
  - intros H k m Hm. apply HP. destruct (P m) eqn:E; [|done]. destruct H. exists m.
    split; [apply list_elem_of_In, Hk; eauto|done].
  - intros H (m & Hm%list_elem_of_In & E). apply Hk in Hm as [k Hm]. apply H, HP in Hm. congruence.
Qed.

Lemma exec_range_keys {S} keys (s : S) tr ks s' :
  exec (range_keys keys) s tr ks s' → s' = s ∧ runs tr = [] ∧ ks ≡ₚ keys.
Proof.
  revert tr ks s'. apply wp_exec. unfold range_keys. cbn. intros ks. by case_decide.
Qed.

Lemma reconcile_with_spec root live ms st tr x st' :
  exec (reconcile_with root live ms) st tr x st' → keyed (st_data st) →
  let L := live_by_dev live in
  x = Ok tt ∧
  st_data st' = filter (λ kv, stale L (backing_by_name ms) kv.2 = false) (st_data st) ∧
  ∃ closed detached,
  map fst (runs tr) = map close_cmd closed ++ map detach_cmd detached ∧
  (∀ name, name ∈ closed ↔ ∃ m, m ∈ ms ∧ cm_Name m = name ∧ ours root L (cm_Backing m) = true ∧
                                untracked_crypt (st_data st') name) ∧
  NoDup detached ∧
  (∀ dev, dev ∈ detached ↔ is_Some (L !! dev) ∧ ours root L dev = true ∧ untracked_loop (st_data st') dev).
Proof.
  intros He Hk L. unfold reconcile_with in He. fold L in He.
  apply exec_bind in He as (ta & all & sa & trb & -> & [-> [Ra Hall]]%exec_All & He).
  apply exec_bind in He as (tb & [] & sb & trc & -> & (Rb & _ & Db)%exec_drop_stale & He).
  apply (stale_dropped _ _ _ _ Hk Hall) in Db.
  apply exec_bind in He as (tc & kept & sc & trd & -> & [-> [Rc Hkept]]%exec_All & He).
  apply exec_bind in He as (td & [] & sd & tre & -> & Hd & He).
  apply (exec_for_all_cmds _ (λ m, CloseMapping (cm_Name m)) (λ m, close_cmd (cm_Name m)))
    in Hd as [-> Rd]; [|intros *; apply exec_CloseMapping].
  apply exec_bind in He as (te & devs & se & trf & -> & (-> & Re & Hdevs)%exec_range_keys & He).
  apply exec_bind in He as (tf & [] & sf & tg & -> & Hf & (-> & -> & ->)).
  apply (exec_for_all_cmds _ Detach detach_cmd) in Hf as [-> Rf]; [|intros *; apply exec_Detach].
  split; [done|]. split; [done|].
  rewrite !runs_app, Ra, Rb, Rc, Re, !map_app, Rd, Rf, app_nil_r. cbn [map app].
  rewrite <- (map_map cm_Name close_cmd).
  eexists _, _. split; [reflexivity|]. split_and!.
  - intros name. rewrite list_elem_of_fmap. setoid_rewrite list_elem_of_In. setoid_rewrite filter_In.
    setoid_rewrite negb_true_iff. setoid_rewrite orb_false_iff. setoid_rewrite negb_false_iff.
    split; intros (m & H); exists m.
    + destruct H as (-> & Hm & Ht & Ho). split_and!; try done.
      eapply tracked_spec in Ht; [exact Ht|exact Hkept|]. intros m'. cbn.
      repeat case_bool_decide; cbn; naive_solver.
    + destruct H as (Hm & <- & Ho & Ht). split_and!; try done.
      eapply tracked_spec; [exact Hkept| |exact Ht]. intros m'. cbn.
      repeat case_bool_decide; cbn; naive_solver.
  - apply base.NoDup_ListNoDup, List.NoDup_filter, base.NoDup_ListNoDup. rewrite Hdevs. apply NoDup_fst_map_to_list.
  - intros dev. rewrite list_elem_of_In, filter_In, negb_true_iff, orb_false_iff, negb_false_iff.
    rewrite (tracked_spec _ (λ m, m_LoopDev m ≠ dev) sb kept) by (done || (intros; by rewrite bool_decide_eq_false)).
    rewrite <- list_elem_of_In, Hdevs, list_elem_of_fmap.
    setoid_rewrite elem_of_map_to_list'. split.
    + intros (([k b] & -> & Hb) & ? & ?). eauto.
    + intros ([b Hb] & ? & ?). split; [|done]. exists (dev, b). eauto.
Qed.

(** The last binding of a key in a list of pairs. *)
Definition last_bound {A} (l : list (string * A)) (k : string) (v : A) : Prop :=
  ∃ l1 l2, l = l1 ++ (k, v) :: l2 ∧ k ∉ l2.*1.

Lemma last_bound_map {A} (l : list (string * A)) k v :
  (list_to_map (reverse l) : gmap string A) !! k = Some v ↔ last_bound l k v.
Proof.
  induction l as [|[k' v'] l IH] using rev_ind.
  { split; [done|]. intros (l1 & l2 & E & _). by destruct l1. }
  rewrite reverse_snoc. cbn. split.
  - intros [[-> ->]|[Hne (l1 & l2 & -> & Hk)%IH]]%lookup_insert_Some.
    + exists l, []. split; [done|]. apply not_elem_of_nil.
    + exists l1, (l2 ++ [(k', v')]). rewrite <- app_assoc. split; [done|].
      rewrite fmap_app. set_solver.
  - intros (l1 & l2 & E & Hk). destruct l2 as [|x l2 _] using rev_ind.
    + apply app_inj_tail in E as [-> [= -> ->]]. by rewrite lookup_insert_eq.
    + rewrite app_comm_cons, app_assoc in E. apply app_inj_tail in E as [-> <-].
      rewrite fmap_app in Hk. rewrite lookup_insert_ne by set_solver.
      apply IH. exists l1, l2. set_solver.
Qed.

(** What [losetup] and sysfs report; the last report of a device counts. *)
Definition backed_by (live : list Attachment) (dev back : string) : Prop :=
  last_bound (map (λ a, (Device a, BackFile a)) live) dev back.
Definition mapped_over (ms : list CryptMapping) (name dev : string) : Prop :=
  last_bound (map (λ m, (cm_Name m, cm_Backing m)) ms) name dev.

(** A backing file is the image if it has its path, or, seen from another
    mount namespace, an absolute end of it with the same name. *)
Definition same_image (back image : string) : Prop :=
  back = image ∨ (∃ t, back = "/" +:+ t) ∧ (∃ u, image = u +:+ back) ∧ Base back = Base image.

(** The entry's devices are still the ones it records. *)
Definition in_place (live : list Attachment) (ms : list CryptMapping) (m : Mapping) : Prop :=
  (∃ back, backed_by live (m_LoopDev m) back ∧ same_image back (m_ImagePath m)) ∧
  (m_CryptDev m = "" ∨ mapped_over ms (Base (m_CryptDev m)) (m_LoopDev m)).

(** A loop device over a file below the stores' directory, or over one whose
    path the kernel reports without the mount it was on. *)
Definition holds_ours (root : string) (live : list Attachment) (dev : string) : Prop :=
  ∃ back, backed_by live dev back ∧
    ((∃ t, Clean back = Clean root +:+ "/" +:+ t) ∨ Regexp.matches disconnectedImage back = true).

Lemma Backs_spec back image : Backs back image = true ↔ same_image back image.
Proof.
  unfold Backs, same_image. rewrite orb_true_iff, !andb_true_iff, !bool_decide_eq_true, HasPrefix_spec, HasSuffix_spec.
  tauto.
Qed.

Lemma stale_spec live ms m : stale (live_by_dev live) (backing_by_name ms) m = false ↔ in_place live ms m.
Proof.
  unfold stale, in_place, backed_by, mapped_over, live_by_dev, backing_by_name.
  setoid_rewrite <- last_bound_map. rewrite orb_false_iff, andb_false_iff, negb_false_iff, bool_decide_eq_true.
  apply Morphisms_Prop.and_iff_morphism.
  - case_match; [rewrite negb_false_iff, Backs_spec|]; naive_solver.
  - apply Morphisms_Prop.or_iff_morphism; [done|].
    case_match; [rewrite negb_false_iff, bool_decide_eq_true|]; naive_solver.
Qed.

Lemma ours_spec root live dev : ours root (live_by_dev live) dev = true ↔ holds_ours root live dev.
Proof.
  unfold ours, holds_ours, backed_by, live_by_dev. setoid_rewrite <- last_bound_map.
  case_match; [rewrite orb_true_iff, HasPrefix_spec|naive_solver].
  setoid_rewrite sapp_assoc. naive_solver.
Qed.

(** What it leaves of the table. *)
Definition left_in_place (r : Reconciler) (st : State) (tr : trace) (res : res unit) (st' : State) : Prop :=
  match res with
  | Err _ => st' = st
  | Ok _ => ∃ t1 live t2 ms t3,
      tr = t1 ++ t2 ++ t3 ∧ exec List st t1 (Ok live) st ∧
      exec (match rec_crypt r with None => ok [] | Some root => ListMappings root end) st t2 (Ok ms) st ∧
      ∀ id m, st_data st' !! id = Some m ↔ st_data st !! id = Some m ∧ in_place live ms m
  end.
Lemma exec_Reconcile r st tr res st' :
  exec (Reconcile r) st tr res st' → keyed (st_data st) → left_in_place r st tr res st'.
Proof.
  unfold Reconcile. intros [(t1 & live & s1 & t2 & -> & H1 & He)|(e & -> & H1)]%exec_bindE Hk;
    pose proof (exec_read_only _ _ _ _ _ List_pure H1) as ->; [|done].
  assert (∀ t x s, exec (match rec_crypt r with None => ok [] | Some root => ListMappings root end) st t x s → s = st) as Hp.
  { intros t x s H. destruct (rec_crypt r) as [root|]; [by apply (exec_read_only _ _ _ _ _ (ListMappings_pure root)) in H|].
    by destruct H as (_ & _ & ->). }
  apply exec_bindE in He as [(t3 & ms & s2 & t4 & -> & H2 & He)|(e & -> & H2)]; apply Hp in H2 as E; subst; [|done].
  apply reconcile_with_spec in He as (-> & Hd & _); [|done]. exists t1, live, t3, ms, t4. split_and!; try done.
  intros id m. rewrite Hd, map_lookup_filter_Some. cbn. by rewrite stale_spec.
Qed.

(** C7: what the startup reconciliation does.  If it cannot list the loop
    devices or the crypt mappings, it changes nothing.  Otherwise an entry
    stays exactly if its loop device is live over its image and, when it is
    encrypted, its mapping is open over that loop device; then the crypt
    mappings over our loops that no remaining entry tracks are closed, all of
    them and no other, and after that exactly the live loop devices over our
    files that no remaining entry tracks are detached, each once. *)
Theorem Reconcile_correct r st tr res st' :
  exec (Reconcile r) st tr res st' → keyed (st_data st) →
  match res with
  | Err _ => st' = st ∧ map fst (runs tr) = [mkCmd "losetup" ["--json"; "--list"] [] []]
  | Ok _ => ∃ t1 live t2 ms t3 closed detached,
      tr = t1 ++ t2 ++ t3 ∧ exec List st t1 (Ok live) st ∧
      exec (match rec_crypt r with None => ok [] | Some root => ListMappings root end) st t2 (Ok ms) st ∧
      let mine := holds_ours (rec_backingStorePath r) live in
      (∀ id m, st_data st' !! id = Some m ↔ st_data st !! id = Some m ∧ in_place live ms m) ∧
      map fst (runs t3) = map close_cmd closed ++ map detach_cmd detached ∧
      (∀ name, name ∈ closed ↔ ∃ m, m ∈ ms ∧ cm_Name m = name ∧ mine (cm_Backing m) ∧
                                    untracked_crypt (st_data st') name) ∧
      NoDup detached ∧
      (∀ dev, dev ∈ detached ↔ mine dev ∧ untracked_loop (st_data st') dev)
  end.
Proof.
  intros He Hk. unfold Reconcile in He.
  apply exec_bind in He as (t1 & x & s1 & tr1 & -> & H1 & He).
  pose proof (proj1 (wp_exec _ _ _) (List_read_only st) _ _ _ H1) as R1. cbn in R1.
  pose proof (exec_read_only _ _ _ _ _ List_pure H1) as ->.
  destruct x as [live|e]; [|destruct He as (-> & -> & ->); by rewrite app_nil_r].
  apply exec_bind in He as (t2 & x & s2 & t3 & -> & H2 & He).
  assert (s2 = st ∧ runs t2 = []) as [-> R2].
  { destruct (rec_crypt r) as [root|]; [|by destruct H2 as (-> & _ & ->)].
    split; [by apply (exec_read_only _ _ _ _ _ (ListMappings_pure root)) in H2|].
    apply quiet_runs. by eapply ListMappings_quiet. }
  destruct x as [ms|e]; [|destruct He as (-> & -> & ->); by rewrite app_nil_r, runs_app, R2, app_nil_r].
  apply reconcile_with_spec in He as (-> & Hd & closed & detached & Hr & Hc & Hn & Hdet); [|done].
  exists t1, live, t2, ms, t3, closed, detached. cbv zeta. split_and!; try done.
  - intros id m. rewrite Hd, map_lookup_filter_Some. cbn. by rewrite stale_spec.
  - intros name. rewrite Hc. by setoid_rewrite ours_spec.
  - intros dev. rewrite Hdet, ours_spec. split; [tauto|]. intros [Ho Hu]. split_and!; try done.
    destruct Ho as (back & Hb & _). exists back. by apply last_bound_map.
Qed.

(** One orphan loop over an image of ours, and one loop of another program. *)
Definition reconcile_demo :=
  let row d b := JObj [str_member "name" d; str_member "back-file" b] in
  let out := print 0 (JObj [("loopdevices", JArr [row "/dev/loop7" "/stores/ab/fb-v.img (deleted)"; row "/dev/loop8" "/x.img"])]) in
  run (X := unit) (on_run (λ c, if bool_decide (cmd_args c = ["--json"; "--list"]) then (out, None) else ("", None)) quiet)
    (Reconcile (mkReconciler None "/stores")) (mkState "/var/s.json" ∅) tt.

Lemma Reconcile_correct_witness :
  map fst (runs reconcile_demo.2) = [mkCmd "losetup" ["--json"; "--list"] [] []; detach_cmd "/dev/loop7"] ∧
  ∃ t1 live, exec List (mkState "/var/s.json" ∅) t1 (Ok live) (mkState "/var/s.json" ∅) ∧
             ∃ detached : list string,
               ∀ dev, dev ∈ detached ↔ holds_ours "/stores" live dev ∧ untracked_loop (st_data reconcile_demo.1.1.2) dev.
Proof.
  split; [vm_compute; reflexivity|].
  destruct reconcile_demo as [[[r s] x] tr] eqn:E. pose proof (exec_run _ _ _ _ _ _ _ _ E) as He.
  assert (r = Ok tt) as -> by (vm_compute in E; by simplify_eq).
  destruct (Reconcile_correct _ _ _ _ _ He) as (t1 & live & t2 & ms & t3 & cl & de & _ & H1 & _ & _ & _ & _ & _ & H3);
    [apply map_Forall_empty|].
  exists t1, live. split; [exact H1|]. exists de. exact H3.
Defined.
