(* ===== verification/Registry.v ===== *)
(** The store registry: pkg/store/registry.go with its two mounters,
    pkg/store/mounter_nfs.go and pkg/store/mounter_local.go.

    The theorems: whatever the interleaving of requests, a cached path is the
    path of its ID; a mount is made only over a target that is not cached or
    was definitively found unmounted, so mounts never stack; a remount
    recreates the subDir it lost. *)

From Stdlib Require Import ZArith Lia Ascii.
From stdpp Require Import base option gmap strings list.
From S2P Require Import Prelude GoStrings Regexp Effects Store Mount.

Import strings path.
Local Open Scope prog_scope.

(** src/pkg/store/registry.go:41-58 (Registry).  The mounters and the mount
    checker are present or not; a mutex and a channel are their map's key. *)
Record Registry := mkRegistry {
  reg_root : string;
  reg_nfsM : bool;
  reg_localM : bool;
  reg_mp : bool;
  mounted : gmap string string;       (* mountID -> mounted path *)
  stores : gmap string string;        (* storeID -> mounted path + subDir *)
  configs : gmap string Config;       (* storeID -> Config *)
  storeMu : gset string;              (* mountIDs with a lock *)
  checking : gset string;             (* mountIDs with an in-flight check *)
}.

(** src/pkg/store/registry.go:84-101 (NewRegistry) *)
Definition NewRegistry (root : string) (nfs local mp : bool) : Registry :=
  mkRegistry root nfs local mp ∅ ∅ ∅ ∅ ∅.

Definition set_mounted (f : gmap string string → gmap string string) (r : Registry) : Registry :=
  mkRegistry (reg_root r) (reg_nfsM r) (reg_localM r) (reg_mp r) (f (mounted r)) (stores r) (configs r)
    (storeMu r) (checking r).
Definition set_stores (f : gmap string string → gmap string string) (r : Registry) : Registry :=
  mkRegistry (reg_root r) (reg_nfsM r) (reg_localM r) (reg_mp r) (mounted r) (f (stores r)) (configs r)
    (storeMu r) (checking r).
Definition set_configs (f : gmap string Config → gmap string Config) (r : Registry) : Registry :=
  mkRegistry (reg_root r) (reg_nfsM r) (reg_localM r) (reg_mp r) (mounted r) (stores r) (f (configs r))
    (storeMu r) (checking r).
Definition set_checking (f : gset string → gset string) (r : Registry) : Registry :=
  mkRegistry (reg_root r) (reg_nfsM r) (reg_localM r) (reg_mp r) (mounted r) (stores r) (configs r)
    (storeMu r) (f (checking r)).
Definition set_storeMu (f : gset string → gset string) (r : Registry) : Registry :=
  mkRegistry (reg_root r) (reg_nfsM r) (reg_localM r) (reg_mp r) (mounted r) (stores r) (configs r)
    (f (storeMu r)) (checking r).

(** ** Mounters *)
Section Mounters.
Context {S : Type}.

(** src/pkg/store/mounter_nfs.go:30-50 (NFSMounter.Mount) *)
Definition NFSMount (target : string) (cfg : Config) : prog S (res unit) :=
  if negb (bool_decide (cfg_Type cfg = TypeNFS)) then fail (ErrMsg "NFSMounter: cfg.Type = ")
  else if bool_decide (NFSServer cfg = "") then fail (ErrMsg "NFSMounter: cfg.NFSServer is empty")
  else if bool_decide (NFSPath cfg = "") then fail (ErrMsg "NFSMounter: cfg.NFSPath is empty")
  else
  let source := NFSServer cfg +:+ ":" +:+ NFSPath cfg in
  let args := ["-t"; "nfs"] ++ (if bool_decide (NFSMountOptions cfg = "") then []
                                else ["-o"; NFSMountOptions cfg]) ++ [source; target] in
  r <- Run "mount" args ;;
  match snd r with Some e => fail (Errorf "mount -t nfs " e) | None => ok tt end.

(** src/pkg/store/mounter_local.go:25-33 (LocalMounter.Mount) *)
Definition LocalMount (target : string) (cfg : Config) : prog S (res unit) :=
  if negb (bool_decide (cfg_Type cfg = TypeLocal)) then fail (ErrMsg "LocalMounter: cfg.Type = ")
  else if bool_decide (LocalPath cfg = "") then fail (ErrMsg "LocalMounter: cfg.LocalPath is empty")
  else BindMount (LocalPath cfg) target false.
End Mounters.

(** The [Mounter] values a registry may hold. *)
Inductive MounterKind := NFSMounter | LocalMounter.

(** src/pkg/store/registry.go:396-411 (Registry.mounterFor) *)
Definition mounterFor (r : Registry) (t : string) : res MounterKind :=
  if bool_decide (t = TypeNFS) then
    if reg_nfsM r then Ok NFSMounter else Err (ErrMsg "nfs mounter not available")
  else if bool_decide (t = TypeLocal) then
    if reg_localM r then Ok LocalMounter else Err (ErrMsg "local mounter not available")
  else Err (ErrMsg "unknown backing-store type ").

(** The dynamic call [mnt.Mount(ctx, target, cfg)]. *)
Definition mount_with {S} (k : MounterKind) (target : string) (cfg : Config) : prog S (res unit) :=
  match k with NFSMounter => NFSMount target cfg | LocalMounter => LocalMount target cfg end.

(** ** Operations *)

Definition reg_mu : string := "registry.mu".
Definition mount_mu (mountID : string) : string := "registry.storeMu/" +:+ mountID.

(** A critical section of [r.mu] that makes no call. *)
Definition locked {A} (f : Registry → A * Registry) : prog Registry A :=
  with_lock reg_mu (Upd f Ret).

(** src/pkg/store/registry.go:385-394 (Registry.lockStore) *)
Definition lockStore (id : string) : prog Registry unit :=
  locked (λ r, (tt, set_storeMu (λ m, {[id]} ∪ m) r)).

(** src/pkg/store/registry.go:379-383 (Registry.clearCheck) *)
Definition clearCheck (id : string) : prog Registry unit :=
  locked (λ r, (tt, set_checking (λ c, c ∖ {[id]}) r)).

(** src/pkg/store/registry.go:335-377 (Registry.checkMountPoint).  The
    goroutine's check is the calls made here when its answer arrives before
    the timer; when the timer wins, it is abandoned and its slot stays taken
    until a later call finds its answer in the channel. *)
Definition checkMountPoint (id path : string) : prog Registry (option (res bool)) :=
  inFlight <- locked (λ r, (bool_decide (id ∈ checking r), set_checking (λ c, {[id]} ∪ c) r)) ;;
  if (inFlight : bool) then
    ready <- sys (ChanReady id) ;;
    if (ready : bool) then clearCheck id ;; Ret None else Ret None
  else
    timeout <- sys (TimerFirst id) ;;
    if (timeout : bool) then Ret None
    else res <- IsMountPoint path ;;
         clearCheck id ;;
         Ret (Some res).

(** src/pkg/store/registry.go:308-325 (Registry.stillMounted) *)
Definition stillMounted (id path : string) : prog Registry bool :=
  mp <- gets reg_mp ;;
  if negb mp then Ret true else
  res <- checkMountPoint id path ;;
  match res with
  | None => Ret true
  | Some (Err _) => Ret true
  | Some (Ok mounted) => Ret mounted
  end.

(** src/pkg/store/registry.go:188-195 (Registry.evictStores) *)
Definition evictStores (path : string) (m : gmap string string) : gmap string string :=
  filter (λ kv, (bool_decide (kv.2 = path) || HasPrefix kv.2 (path +:+ "/")) = false) m.

(** src/pkg/store/registry.go:126-134 (Registry.Get, the eviction of a mount
    that is gone) *)
Definition evict (mountID path : string) : prog Registry unit :=
  locked (λ r, (tt, set_stores (evictStores path) (set_mounted (delete mountID) r))).

(** src/pkg/store/registry.go:136-152 (Registry.Get, mounting) *)
Definition mount_target (cfg : Config) : prog Registry (res string) :=
  root <- gets reg_root ;;
  let target := JoinPath [root; MountID cfg] in
  wrap (Errorf "mkdir ") (sys (OsOp (MkdirAll target))) ;;?
  mnt <-? (r <- gets id ;; lift_res (mounterFor r (cfg_Type cfg))) ;;
  mount_with mnt target cfg ;;?
  (locked (λ r, (tt, set_mounted (<[MountID cfg := target]>) r)) ;;
   ok target).

(** src/pkg/store/registry.go:154-179 (Registry.Get, the store path) *)
Definition resolve_store (cfg : Config) (path : string) : prog Registry (res string) :=
  let storeID := StoreID cfg in
  sub <-? (if bool_decide (NFSSubDir cfg = "") then ok path else
           let sub := JoinPath [path; NFSSubDir cfg] in
           seen <- locked (λ r, (bool_decide (is_Some (stores r !! storeID)), r)) ;;
           if (seen : bool) then ok sub
           else wrap (Errorf "mkdir ") (sys (OsOp (MkdirAll sub))) ;;? ok sub) ;;
  locked (λ r, (tt, set_configs (<[storeID := cfg]>) (set_stores (<[storeID := sub]>) r))) ;;
  ok sub.

(** src/pkg/store/registry.go:123-152 (Registry.Get, up to a live mount) *)
Definition acquire (cfg : Config) : prog Registry (res string) :=
  let mountID := MountID cfg in
  cached <- locked (λ r, (mounted r !! mountID, r)) ;;
  cached <- match cached with
            | None => Ret None
            | Some path =>
                live <- stillMounted mountID path ;;
                if (live : bool) then Ret (Some path) else evict mountID path ;; Ret None
            end ;;
  match cached with
  | Some path => ok path
  | None => mount_target cfg
  end.

(** src/pkg/store/registry.go:117-180 (Registry.Get) *)
Definition Get (cfg : Config) : prog Registry (res string) :=
  let mountID := MountID cfg in
  lockStore mountID ;;
  with_lock (mount_mu mountID) (
    path <-? acquire cfg ;;
    resolve_store cfg path).

(** src/pkg/store/registry.go:202-207 (Registry.ConfigByStoreID) *)
Definition ConfigByStoreID (id : string) : prog Registry (option Config) :=
  locked (λ r, (configs r !! id, r)).

(** src/pkg/store/registry.go:219-234 (Registry.MountedPaths, the loop) *)
Definition dedupe (l : list string) : list string :=
  foldl (λ out p, if contains out p then out else out ++ [p]) [] l.
(** src/pkg/store/registry.go:219-234 (Registry.MountedPaths) *)
Definition MountedPaths : prog Registry (list string) :=
  with_lock reg_mu (
    r <- gets id ;;
    ks1 <- range_keys (map fst (map_to_list (stores r))) ;;
    ks2 <- range_keys (map fst (map_to_list (mounted r))) ;;
    Ret (dedupe (omap (λ k, stores r !! k) ks1 ++ omap (λ k, mounted r !! k) ks2))).

(** src/pkg/store/registry.go:274-294 (Registry.AdoptExisting, the loop) *)
Fixpoint adopt_entries (root : string) (entries : list dirent) : prog Registry unit :=
  match entries with
  | [] => Ret tt
  | e :: es =>
      let id := de_name e in
      if negb (de_dir e) || negb (Regexp.matches storeIDPattern id) then adopt_entries root es else
      let target := JoinPath [root; id] in
      m <- IsMountPoint target ;;
      match m with
      | Ok true => modify (set_mounted (<[id := target]>)) ;; adopt_entries root es
      | _ => adopt_entries root es
      end
  end.
(** src/pkg/store/registry.go:264-296 (Registry.AdoptExisting) *)
Definition AdoptExisting : prog Registry (res unit) :=
  root <- gets reg_root ;;
  entries <- sys (ReadDir root) ;;
  match entries with
  | Err e => if is_NotExist e then ok tt else fail (Errorf "read stores root " e)
  | Ok entries => with_lock reg_mu (adopt_entries root entries) ;; ok tt
  end.

(** ** The invariant of the caches *)

(** Where a store lives: its mount, or its subDir of it. *)
Definition store_path (root : string) (c : Config) : string :=
  let target := JoinPath [root; MountID c] in
  if bool_decide (NFSSubDir c = "") then target else JoinPath [target; NFSSubDir c].

Record RegInv (root : string) (r : Registry) : Prop := {
  inv_root : reg_root r = root;
  inv_mounted : map_Forall (λ id p, p = JoinPath [root; id]) (mounted r);
  inv_configs : map_Forall (λ sid c, StoreID c = sid) (configs r);
  inv_stores : map_Forall (λ sid p, ∃ c, configs r !! sid = Some c ∧ p = store_path root c) (stores r);
}.

Section Invariant.
Context (root : string).
Local Abbreviation I := (RegInv root).

Lemma inv_new nfs local mp : I (NewRegistry root nfs local mp).
Proof. by split; cbn. Qed.

Lemma inv_storeMu f r : I r → I (set_storeMu f r).
Proof. intros []. by split. Qed.
Lemma inv_checking f r : I r → I (set_checking f r).
Proof. intros []. by split. Qed.
Lemma inv_mount id r : I r → I (set_mounted (<[id := JoinPath [root; id]]>) r).
Proof. intros []. split; cbn; try done. by apply map_Forall_insert_2. Qed.
Lemma inv_evict id path r : I r → I (set_stores (evictStores path) (set_mounted (delete id) r)).
Proof.
  intros []. split; cbn; try done; [by apply map_Forall_delete|].
  intros sid p [Hp _]%map_lookup_filter_Some. by apply inv_stores0.
Qed.
Lemma inv_record c r :
  I r → I (set_configs (<[StoreID c := c]>) (set_stores (<[StoreID c := store_path root c]>) r)).
Proof.
  intros [H1 H2 H3 H4]. split; cbn; try done.
  - by apply map_Forall_insert_2.
  - intros sid p. destruct (decide (sid = StoreID c)) as [->|Hne].
    + rewrite lookup_insert_eq. intros [= <-]. exists c. by rewrite lookup_insert_eq.
    + rewrite !lookup_insert_ne by done. intros Hp. apply H4 in Hp as (c' & Hc & ->).
      by exists c'.
Qed.

Lemma stable_locked {A} (Q : A → Prop) (f : Registry → A * Registry) :
  (∀ r, I r → I (f r).2 ∧ Q (f r).1) → stable I Q (locked f).
Proof. intros H. cbn. intros _ r Hr. destruct (H r Hr) as [H1 H2]. split; [done|]. by intros _. Qed.

Lemma IsMountPoint_read_only target : read_only (S := Registry) (IsMountPoint target).
Proof. unfold IsMountPoint. solve_read_only. Qed.

Lemma mount_with_read_only k target cfg : read_only (S := Registry) (mount_with k target cfg).
Proof. destruct k; unfold mount_with, NFSMount, LocalMount, BindMount; solve_read_only. Qed.

Lemma stable_checkMountPoint id path : stable I (λ _, True) (checkMountPoint id path).
Proof.
  unfold checkMountPoint. eapply (stable_bind _ (λ _, True)).
  { apply stable_locked. intros r Hr. split; [by apply inv_checking|done]. }
  assert (stable I (λ _, True) (clearCheck id)) as Hc
    by (apply stable_locked; intros r Hr; split; [by apply inv_checking|done]).
  intros [] _; (eapply (stable_bind _ (λ _, True)); [by intros|]); intros [] _; try done.
  eapply stable_bind; [apply stable_read_only, IsMountPoint_read_only|].
    intros res _. eapply stable_bind; [exact Hc|done].
Qed.

Lemma stable_stillMounted id path : stable I (λ _, True) (stillMounted id path).
Proof.
  unfold stillMounted. eapply (stable_bind _ (λ _, True)); [cbn; done|]. intros [] _; [|done].
  eapply stable_bind; [apply stable_checkMountPoint|]. by intros [[]|] _.
Qed.

Lemma stable_mount_target cfg :
  stable I (λ r, match r with Ok p => p = JoinPath [root; MountID cfg] | Err _ => True end) (mount_target cfg).
Proof.
  unfold mount_target. eapply (stable_bind _ (λ x, x = root)).
  { cbn. intros r Hr. split; [done|apply Hr]. }
  intros ? ->. eapply (stable_bindE _ (λ _, True)); [by intros []|]. intros _ _.
  eapply (stable_bindE _ (λ _, True)); [cbn; intros r Hr; split; [done|by destruct (mounterFor _ _)]|].
  intros k _. eapply (stable_bindE _ (λ _, True)).
  { eapply stable_mono; [|apply stable_read_only, mount_with_read_only]. by intros []. }
  intros _ _. eapply (stable_bind _ (λ _, True)); [|done].
  apply stable_locked. intros r Hr. split; [by apply inv_mount|done].
Qed.

Lemma stable_resolve_store cfg path :
  path = JoinPath [root; MountID cfg] →
  stable I (λ r, match r with Ok p => p = store_path root cfg | Err _ => True end) (resolve_store cfg path).
Proof.
  intros ->. unfold resolve_store. eapply (stable_bindE _ (λ p, p = store_path root cfg)).
  - unfold store_path. case_bool_decide; [done|]. eapply (stable_bind _ (λ _, True)).
    { apply stable_locked. by intros r Hr. }
    intros [] _; [done|]. by intros [].
  - intros ? ->. eapply (stable_bind _ (λ _, True)); [|done].
    apply stable_locked. intros r Hr. split; [by apply inv_record|done].
Qed.

Lemma stable_acquire cfg :
  stable I (λ r, match r with Ok p => p = JoinPath [root; MountID cfg] | Err _ => True end) (acquire cfg).
Proof.
  unfold acquire. eapply (stable_bind _ (λ o, ∀ p, o = Some p → p = JoinPath [root; MountID cfg])).
  { apply stable_locked. intros r Hr. split; [done|]. intros p Hp. by apply (inv_mounted _ _ Hr) in Hp. }
  intros o Ho. eapply (stable_bind _ (λ o, ∀ p, o = Some p → p = JoinPath [root; MountID cfg])).
  { destruct o as [p|]; [|done]. eapply stable_bind; [apply stable_stillMounted|].
    intros [] _; [exact Ho|]. eapply (stable_bind _ (λ _, True)); [|done].
    apply stable_locked. intros r Hr. split; [by apply inv_evict|done]. }
  intros [p|] Ho'; [by apply Ho'|]. eapply stable_mono; [|apply stable_mount_target]. by intros [].
Qed.

Lemma stable_Get cfg :
  stable I (λ r, match r with Ok p => p = store_path root cfg | Err _ => True end) (Get cfg).
Proof.
  unfold Get. eapply (stable_bind _ (λ _, True)).
  { apply stable_locked. intros r Hr. split; [by apply inv_storeMu|done]. }
  intros [] _. unfold with_lock. eapply (stable_bind _ (λ _, True)); [by intros|]. intros [] _.
  eapply (stable_bind _ (λ r, match r with Ok p => p = store_path root cfg | Err _ => True end)); [|by intros a Ha ?].
  eapply (stable_bindE _ (λ p, p = JoinPath [root; MountID cfg])).
  { eapply stable_mono; [|apply stable_acquire]. by intros []. }
  intros p Hp. by apply stable_resolve_store.
Qed.

Lemma stable_adopt entries : stable I (λ _, True) (adopt_entries root entries).
Proof.
  induction entries as [|e es IH]; [done|]. cbn [adopt_entries]. case_match; [done|].
  eapply stable_bind; [apply stable_read_only, IsMountPoint_read_only|].
  intros [[]|] _; [|done..]. cbn. intros r Hr. split; [by apply inv_mount|done].
Qed.

Lemma stable_AdoptExisting : stable I (λ _, True) AdoptExisting.
Proof.
  unfold AdoptExisting. eapply (stable_bind _ (λ x, x = root)).
  { cbn. intros r Hr. split; [done|apply Hr]. }
  intros ? ->. eapply (stable_bind _ (λ _, True)); [by intros|].
  intros [entries|e] _; [|by destruct (is_NotExist e)].
  unfold with_lock. eapply (stable_bind _ (λ _, True)); [|done].
  eapply (stable_bind _ (λ _, True)); [by intros|]. intros [] _.
  eapply stable_bind; [apply stable_adopt|]. by intros.
Qed.
End Invariant.

(** The requests that share a registry, with a common result type. *)
Inductive request :=
  | ReqGet (cfg : Config)
  | ReqAdopt
  | ReqConfig (id : string)
  | ReqPaths.
Definition run_request (q : request) : prog Registry (option (res string)) :=
  match q with
  | ReqGet cfg => r <- Get cfg ;; Ret (Some r)
  | ReqAdopt => AdoptExisting ;; Ret None
  | ReqConfig id => ConfigByStoreID id ;; Ret None
  | ReqPaths => MountedPaths ;; Ret None
  end.

(** What a request may return: for [Get], an error or the path of its store. *)
Definition request_post (root : string) (q : request) (r : option (res string)) : Prop :=
  ∀ cfg p, q = ReqGet cfg → r = Some (Ok p) → p = store_path root cfg.

Lemma stable_request root q : stable (RegInv root) (request_post root q) (run_request q).
Proof.
  destruct q as [cfg| |id|]; unfold run_request.
  - eapply stable_bind; [apply stable_Get|]. intros [p|e] Hp cfg' p' [= <-] [= <-]. done.
  - eapply stable_bind; [apply stable_AdoptExisting|]. done.
  - eapply (stable_bind _ (λ _, True)); [by apply stable_locked|done].
  - eapply (stable_bind _ (λ _, True)); [|done]. apply stable_read_only. unfold MountedPaths, with_lock, range_keys. solve_read_only.
Qed.

(** C8: the registry's caches stay right under concurrency.  Start any number
    of Get, AdoptExisting, ConfigByStoreID and MountedPaths calls on a new
    registry, interleave their critical sections and calls in any way and
    answer the calls in any way: at every moment each cached mount is
    <root>/<mountID>, each cached store has a recorded Config of that store ID
    and lives at that Config's path, and every Get that has returned a path
    returned its own store's path. *)
Theorem registry_concurrent root nfs local mp qs ts r :
  rtc pool_step (map run_request qs, NewRegistry root nfs local mp) (ts, r) →
  RegInv root r ∧
  ∀ i cfg p, qs !! i = Some (ReqGet cfg) → ts !! i = Some (Ret (Some (Ok p))) → p = store_path root cfg.
Proof.
  intros Hr.
  destruct (pool_invariant (RegInv root) (map (request_post root) qs) _ _ _ _ Hr) as [Hts HI].
  - induction qs as [|q qs IH]; constructor; [apply stable_request|]. clear. induction qs; constructor; auto.
    apply stable_request.
  - apply inv_new.
  - split; [done|]. intros i cfg p Hq Ht.
    eapply Forall2_lookup_lr in Hts; [| |exact Ht]; [|by rewrite list_lookup_fmap, Hq].
    by eapply Hts.
Qed.

Lemma registry_concurrent_witness :
  ∃ r p, rtc pool_step (map run_request [ReqGet demo_config], NewRegistry "/stores" true true true)
           ([Ret (Some (Ok p))], r) ∧ p = store_path "/stores" demo_config.
Proof.
  destruct (run (X := unit) quiet (run_request (ReqGet demo_config)) (NewRegistry "/stores" true true true) tt)
    as [[[res r] x] tr] eqn:E.
  pose proof (exec_pool _ _ _ _ _ (exec_run _ _ _ _ _ _ _ _ E)) as Hr.
  assert (∃ p, res = Some (Ok p)) as [p ->].
  { assert (res = (run (X := unit) quiet (run_request (ReqGet demo_config)) (NewRegistry "/stores" true true true) tt).1.1.1)
      as -> by (by rewrite E). vm_compute. eauto. }
  exists r, p. split; [exact Hr|].
  apply (registry_concurrent "/stores" true true true [ReqGet demo_config] [Ret (Some (Ok p))] r Hr) with (i := 0);
    reflexivity.
Defined.

(** ** One [Get] *)

Definition mount_cmds (tr : trace) : list Cmd :=
  List.filter (λ c, bool_decide (cmd_name c = "mount")) (map fst (runs tr)).

Lemma mount_cmds_app t1 t2 : mount_cmds (t1 ++ t2) = mount_cmds t1 ++ mount_cmds t2.
Proof. unfold mount_cmds. by rewrite runs_app, map_app, List.filter_app. Qed.

Lemma mount_cmds_locks n m x y tr : mount_cmds (Ev (LockMu n) x :: Ev (UnlockMu m) y :: tr) = mount_cmds tr.
Proof. done. Qed.

Lemma mount_cmds_os o x tr : mount_cmds (Ev (OsOp o) x :: tr) = mount_cmds tr.
Proof. done. Qed.

(** The whole check ran inside the trace and answered "not a mount point". *)
Definition found_unmounted (path : string) (tr : trace) : Prop :=
  ∃ t1 t2 t3 (r : Registry), tr = t1 ++ t2 ++ t3 ∧ exec (IsMountPoint path) r t2 (Ok false) r.

(** Equal but for the check slots and the lock table. *)
Definition same_caches (r r' : Registry) : Prop :=
  reg_root r' = reg_root r ∧ mounted r' = mounted r ∧ stores r' = stores r ∧ configs r' = configs r.

Lemma IsMountPoint_no_mount {S} path : emits (S := S) (λ e, mount_cmds [e] = []) (IsMountPoint path).
Proof. unfold IsMountPoint. solve_emits; done. Qed.

Lemma no_mount_trace tr : Forall (λ e, mount_cmds [e] = []) tr → mount_cmds tr = [].
Proof.
  induction 1 as [|e tr He _ IH]; [done|]. change (e :: tr) with ([e] ++ tr).
  by rewrite mount_cmds_app, He, IH.
Qed.

#[local] Arguments IsMountPoint : simpl never.
#[local] Arguments mount_cmds : simpl never.

Lemma wp_stillMounted id path r :
  wp (stillMounted id path) r (λ b r' tr,
    same_caches r r' ∧ mount_cmds tr = [] ∧ (b = false → found_unmounted path tr)).
Proof.
  unfold stillMounted, checkMountPoint, clearCheck, locked, with_lock. cbn.
  destruct (reg_mp r); cbn; [|done]. intros [] []. case_bool_decide; cbn.
  - intros []; cbn; [|done]. by intros [] [].
  - intros []; cbn; [done|]. apply wp_bind. apply wp_bind. apply wp_exec. intros t2 res r2 He.
    pose proof (exec_read_only _ _ _ _ _ (IsMountPoint_read_only path) He) as ->.
    pose proof (no_mount_trace _ (IsMountPoint_no_mount path _ _ _ _ He)) as Hn.
    destruct res as [[]|e]; cbn; intros [] []; rewrite ?app_nil_r;
      (split; [done|]; split; [cbn; unfold mount_cmds in *; cbn; rewrite runs_app, map_app, List.filter_app, Hn; done|]);
      intros [=].
    eexists [_; _; _], t2, [_; _], _. split; [reflexivity|exact He].
Qed.

Lemma wp_mount_with {S} k target cfg (s : S) :
  wp (mount_with k target cfg) s (λ res s' tr,
    s' = s ∧ (mount_cmds tr = [] ∨ ∃ c, mount_cmds tr = [c] ∧ last (cmd_args c) = Some target) ∧
    (is_ok res = true → mount_cmds tr ≠ [])).
Proof.
  destruct k; unfold mount_with, NFSMount, LocalMount, BindMount; wp_cases; split_and!; try done; eauto.
  all: try by left. all: right; eexists; (split; [reflexivity|]); by case_bool_decide.
Qed.

Lemma wp_mount_target cfg r :
  let target := JoinPath [reg_root r; MountID cfg] in
  wp (mount_target cfg) r (λ res r' tr,
    (mount_cmds tr = [] ∨ ∃ c, mount_cmds tr = [c] ∧ last (cmd_args c) = Some target) ∧
    match res with
    | Ok p => p = target ∧ r' = set_mounted (<[MountID cfg := target]>) r
    | Err _ => r' = r
    end).
Proof.
  intros target. unfold mount_target. cbn. fold target. intros [[]|e]; cbn; [|split; [by left|done]].
  destruct (mounterFor r (cfg_Type cfg)) as [k|e]; cbn; [|split; [by left|done]].
  apply wp_bind. eapply wp_mono; [|apply wp_mount_with]. intros [[]|e] s tr (-> & Hm & Hok); cbn.
  - intros [] []. split; [|done].
    rewrite mount_cmds_os, mount_cmds_app. by rewrite app_nil_r.
  - split; [|done]. by rewrite mount_cmds_os, app_nil_r.
Qed.

Lemma wp_resolve_store cfg path r :
  let sub := if bool_decide (NFSSubDir cfg = "") then path else JoinPath [path; NFSSubDir cfg] in
  wp (resolve_store cfg path) r (λ res r' tr,
    mount_cmds tr = [] ∧ mounted r' = mounted r ∧
    match res with
    | Ok p => p = sub ∧ stores r' !! StoreID cfg = Some sub ∧ configs r' !! StoreID cfg = Some cfg ∧
              (NFSSubDir cfg ≠ "" → stores r !! StoreID cfg = None → (MkdirAll sub, Ok tt) ∈ os_ops tr)
    | Err _ => True
    end).
Proof.
  intros sub. unfold resolve_store, sub, locked, with_lock.
  case_bool_decide as Hd; cbn -[StoreID].
  - intros [] []. split_and!; try done; by rewrite lookup_insert_eq.
  - intros [] []. case_bool_decide as Hs; cbn -[StoreID].
    + intros [] []. split_and!; try done; try by rewrite lookup_insert_eq.
      intros _ Hn. rewrite Hn in Hs. by destruct Hs.
    + intros [[]|e]; cbn -[StoreID]; [|done]. intros [] [].
      split_and!; try done; try by rewrite lookup_insert_eq. set_solver.
Qed.

Lemma evict_sub path ws m sid :
  abs_path path → ws ≠ [] → Forall plain_seg ws →
  m !! sid = Some (JoinPath [path; Join ws "/"]) → evictStores path m !! sid = None.
Proof.
  intros Hp Hw Hs Hm. unfold evictStores. apply map_lookup_filter_None. right. intros p E. cbn.
  rewrite Hm in E. injection E as <-. rewrite JoinPath_plain by done.
  rewrite (proj2 (HasPrefix_spec _ _)); [by rewrite orb_true_r|]. exists (Join ws "/"). by rewrite sapp_assoc.
Qed.

Lemma all_hex_no_slash s : Regexp.all_chars Regexp.is_hex s = true → has_char "/"%char s = false.
Proof.
  induction s as [|c s IH]; [done|]. cbn. intros [Hc Hs]%andb_prop. case_bool_decide as E; [by subst c|auto].
Qed.

Lemma MountID_plain c : plain_seg (MountID c).
Proof.
  destruct (hashID_shape (mountKey c)) as [Hl Hh]. fold (MountID c) in *.
  split_and!; [intros E; by rewrite E in Hl..|]. by apply all_hex_no_slash.
Qed.

#[local] Arguments stillMounted : simpl never.
#[local] Arguments mount_target : simpl never.
#[local] Arguments acquire : simpl never.
#[local] Arguments resolve_store : simpl never.

#[local] Arguments os_ops : simpl never.

Lemma evict_none path m sid : m !! sid = None → evictStores path m !! sid = None.
Proof. intros H. apply map_lookup_filter_None. by left. Qed.

Lemma resolved_nonempty sub : resolved_sub sub → sub ≠ "".
Proof.
  intros (ws & Hn & Hp & -> & _). rewrite Join_nil_iff; [done..|]. eapply Forall_impl; [exact Hp|]. by intros w (?&_).
Qed.

Lemma found_unmounted_app path t1 t2 t3 : found_unmounted path t2 → found_unmounted path (t1 ++ t2 ++ t3).
Proof.
  intros (a & b & c & r & -> & H). exists (t1 ++ a), b, (c ++ t3), r. split; [|done].
  by rewrite !app_assoc.
Qed.

(** What [acquire] does to the caches and which mounts it makes. *)
Lemma acquire_spec root cfg r :
  RegInv root r →
  let target := JoinPath [root; MountID cfg] in
  wp (acquire cfg) r (λ res r' tr,
    (mount_cmds tr = [] ∨
     ∃ c, mount_cmds tr = [c] ∧ last (cmd_args c) = Some target ∧
          (mounted r !! MountID cfg = None ∨ found_unmounted target tr)) ∧
    (∀ id, id ≠ MountID cfg → mounted r' !! id = mounted r !! id) ∧
    (stores r' = stores r ∨ stores r' = evictStores target (stores r)) ∧
    (mount_cmds tr ≠ [] → is_Some (mounted r !! MountID cfg) → stores r' = evictStores target (stores r)) ∧
    match res with
    | Err _ => True
    | Ok p => p = target ∧ mounted r' !! MountID cfg = Some target
    end).
Proof.
  intros HI target. unfold acquire, evict, locked, with_lock. cbn. intros [] [].
  destruct (mounted r !! MountID cfg) as [path|] eqn:Em.
  - pose proof (inv_mounted _ _ HI _ _ Em) as Hp. cbn in Hp. fold target in Hp. subst path.
    apply wp_bind. apply wp_bind. eapply wp_mono; [|apply wp_stillMounted].
    intros live r1 t1 ((Er & E1 & E2 & E3) & Hn & Hf). destruct live; cbn.
    + rewrite mount_cmds_locks, !mount_cmds_app, Hn. split_and!; try done.
      * by left.
      * by rewrite E1.
      * by left.
      * by rewrite E1.
    + intros [] []. eapply wp_mono; [|apply wp_mount_target]. cbn.
      intros res r2 t2 [Hm Hr]. rewrite Er, (inv_root _ _ HI) in Hm, Hr. fold target in Hm, Hr.
      rewrite mount_cmds_locks, !mount_cmds_app, Hn. cbn [app].
      change (mount_cmds [Ev (LockMu reg_mu) (); Ev (UnlockMu reg_mu) ()]) with (@nil Cmd). cbn [app].
      assert (found_unmounted target (Ev (LockMu reg_mu) () :: Ev (UnlockMu reg_mu) ()
        :: (t1 ++ [Ev (LockMu reg_mu) (); Ev (UnlockMu reg_mu) ()]) ++ t2)) as Hfu.
      { rewrite <- app_assoc. by apply (found_unmounted_app _ [_; _] t1), Hf. }
      split_and!; [naive_solver|..].
      all: destruct res as [p|e]; [destruct Hr as [-> ->]|subst r2]; cbn; rewrite ?E1, ?E2; auto.
      * intros id Hid. by rewrite lookup_insert_ne, lookup_delete_ne.
      * intros id Hid. by rewrite lookup_delete_ne.
      * by rewrite lookup_insert_eq.
  - cbn. eapply wp_mono; [|apply wp_mount_target]. cbn.
    intros res r2 t2 [Hm Hr]. rewrite (inv_root _ _ HI) in Hm, Hr. fold target in Hm, Hr.
    rewrite mount_cmds_locks. split_and!; [naive_solver|..].
    all: destruct res as [p|e]; [destruct Hr as [-> ->]|subst r2]; cbn; auto.
    + intros id Hid. by rewrite lookup_insert_ne.
    + intros _ [? [=]].
    + intros _ [? [=]].
    + by rewrite lookup_insert_eq.
Qed.

(** The event is not a mount(8) that failed. *)
Definition mount_done (e : event) : Prop :=
  match ev_run e with Some (c, (_, Some _)) => cmd_name c ≠ "mount" | _ => True end.

Lemma mount_target_done cfg r tr p r' : exec (mount_target cfg) r tr (Ok p) r' → Forall mount_done tr.
Proof.
  revert tr p r'. enough (wp (mount_target cfg) r (λ res _ tr, is_ok res = true → Forall mount_done tr)) as H.
  { intros tr p r' He. by apply (proj1 (wp_exec _ _ _) H _ _ _ He). }
  unfold mount_target, locked, with_lock. cbn. intros [[]|e]; cbn; [|done].
  destruct (mounterFor r (cfg_Type cfg)) as [k|e]; cbn; [|done].
  apply wp_bind. apply wp_exec. intros t1 res r1 He.
  assert (is_ok res = true → Forall mount_done t1) as Hm.
  { revert t1 res r1 He. apply (proj1 (wp_exec _ _ (λ res _ t1, is_ok res = true → Forall mount_done t1))).
    destruct k; unfold mount_with, NFSMount, LocalMount; wp_cases; repeat constructor; done. }
  destruct res as [[]|e]; cbn; [|done]. intros [] [] _. apply Forall_cons. split; [done|].
  apply Forall_app. split; [by apply Hm|]. by repeat constructor.
Qed.
Lemma quiet_mount_done {S A} (m : prog S A) s tr a s' : emits mount_done m → exec m s tr a s' → Forall mount_done tr.
Proof. intros H He. exact (H _ _ _ _ He). Qed.

Lemma Get_mount_done cfg r tr p r' : exec (Get cfg) r tr (Ok p) r' → Forall mount_done tr.
Proof.
  unfold Get, with_lock. intros (t0 & [] & r0 & tr1 & -> & H0 & He)%exec_bind.
  apply quiet_mount_done in H0; [|unfold lockStore, locked, with_lock; solve_emits; done].
  destruct He as ([] & tr2 & -> & He). cbn [bind] in He.
  apply exec_bind in He as (t1 & res & r1 & t2 & -> & Hb & ([] & t3 & -> & (-> & <- & _))).
  apply exec_bindE in Hb as [(ta & path & ra & tb & -> & Ha & Hb)|(e & [=] & _)].
  apply quiet_mount_done in Hb; [|unfold resolve_store, locked, with_lock; solve_emits; done].
  enough (Forall mount_done ta) by (rewrite Forall_app, Forall_cons, !Forall_app, Forall_singleton; done).
  unfold acquire in Ha. apply exec_bind in Ha as (t4 & c & r4 & t5 & -> & H4 & Ha).
  apply quiet_mount_done in H4; [|unfold locked, with_lock; solve_emits; done].
  apply exec_bind in Ha as (t6 & c' & r6 & t7 & -> & H6 & Ha).
  apply quiet_mount_done in H6.
  2: { destruct c; unfold stillMounted, checkMountPoint, clearCheck, evict, locked, with_lock, IsMountPoint; solve_emits;
         try done; match goal with |- mount_done (Ev _ ?x) => by destruct x as [? [?|]] end. }
  apply Forall_app. split; [done|]. apply Forall_app. split; [done|].
  destruct c'; [by destruct Ha as (-> & _)|by eapply mount_target_done].
Qed.

(** C26: one [Get].  It runs at most one mount(8), onto <root>/<mountID>, and
    only if that mount was not cached or the mount-point check, completed
    inside this call, said it is not mounted.  Other mounts' entries are
    untouched.  On success no mount(8) of this call failed, the path returned
    is the store's, and mount, store and Config are recorded; when the subDir's
    store was not recorded, or the mount was replaced, the subDir was created
    in this call, after the mount(8). *)
Theorem Get_correct root cfg r tr res r' :
  exec (Get cfg) r tr res r' → RegInv root r →
  let target := JoinPath [root; MountID cfg] in
  (mount_cmds tr = [] ∨
   ∃ c, mount_cmds tr = [c] ∧ last (cmd_args c) = Some target ∧
        (mounted r !! MountID cfg = None ∨ found_unmounted target tr)) ∧
  (∀ id, id ≠ MountID cfg → mounted r' !! id = mounted r !! id) ∧
  match res with
  | Err _ => True
  | Ok p =>
      p = store_path root cfg ∧ mounted r' !! MountID cfg = Some target ∧
      stores r' !! StoreID cfg = Some p ∧ configs r' !! StoreID cfg = Some cfg ∧ Forall mount_done tr ∧
      (resolved_sub (NFSSubDir cfg) → abs_path root →
       stores r !! StoreID cfg = None ∨
       mount_cmds tr ≠ [] ∧ is_Some (mounted r !! MountID cfg) ∧ stores r !! StoreID cfg = Some p →
       ∃ t1 t2, tr = t1 ++ t2 ∧ mount_cmds t2 = [] ∧ (MkdirAll p, Ok tt) ∈ os_ops t2)
  end.
Proof.
  intros He HI target. pose proof (Get_mount_done cfg r tr) as Hdone.
  assert (∀ p, res = Ok p → Forall mount_done tr) as Hd by (intros p ->; by eapply Hdone). clear Hdone.
  revert tr res r' He Hd.
  lazymatch goal with
  | |- ∀ tr res r', exec ?m ?s tr res r' → @?Q tr res r' => apply (proj1 (wp_exec m s (λ res r' tr, Q tr res r')))
  end. unfold Get, lockStore, locked, with_lock. cbn.
  intros [] [] []. apply wp_bind, wp_bindE.
  eapply wp_mono; [|apply (acquire_spec root), inv_storeMu, HI]. cbn. fold target.
  set (pre := [Ev (LockMu reg_mu) (); Ev (UnlockMu reg_mu) (); Ev (LockMu (mount_mu (MountID cfg))) ()]).
  assert (∀ t, mount_cmds (pre ++ t) = mount_cmds t) as Hpre by done.
  assert (∀ t1 t2, found_unmounted target t1 → found_unmounted target (pre ++ t1 ++ t2)) as Hfu
    by (intros; by apply found_unmounted_app).
  intros [p|e] r1 t1 (Hm & Hf & Hs & Hev & Hp); cbn.
  - destruct Hp as [-> Hp]. eapply wp_mono; [|apply wp_resolve_store]. cbn.
    intros res r2 t2 (Hn2 & Em2 & Hres). cbn. intros [] Hd.
    change (?a :: ?b :: ?c :: (t1 ++ t2) ++ ?l) with (pre ++ ((t1 ++ t2) ++ l)). rewrite <- app_assoc.
    assert (∀ u, mount_cmds (pre ++ t1 ++ t2 ++ [Ev (UnlockMu (mount_mu (MountID cfg))) u]) = mount_cmds t1) as ->
      by (intros; rewrite Hpre, !mount_cmds_app, Hn2; apply app_nil_r).
    split; [naive_solver|]. split; [by rewrite Em2|]. destruct res as [p|e]; [|done].
    destruct Hres as (-> & Hst & Hcf & Hmk). rewrite Em2. split_and!; try done; [rewrite <- (app_assoc t1) in Hd; by eapply (Hd _ eq_refl)|].
    intros Hsub Hroot Hcase. exists (pre ++ t1), (t2 ++ [Ev (UnlockMu (mount_mu (MountID cfg))) ()]).
    split; [by rewrite <- app_assoc|]. split; [by rewrite mount_cmds_app, Hn2|].
    rewrite os_ops_app. apply elem_of_app. left. apply Hmk; [by apply resolved_nonempty|].
    destruct Hcase as [Hnone|(Hmne & Hc & Hold)].
    + destruct Hs as [-> | ->]; [done|by apply evict_none].
    + rewrite Hev by done. rewrite bool_decide_false in Hold by by apply resolved_nonempty.
      destruct Hsub as (ws & Hwn & Hwp & Ews & _). rewrite Ews in Hold.
      eapply evict_sub; [|exact Hwn|exact Hwp|exact Hold].
      unfold target. rewrite JoinPath_seg by (done || apply MountID_plain).
      apply abs_path_seg; [done|apply MountID_plain].
  - intros [] _. change (?a :: ?b :: ?c :: ?t ++ ?l) with (pre ++ (t ++ l)).
    rewrite app_nil_r, Hpre, mount_cmds_app, app_nil_r. naive_solver.
Qed.

(** What other components use of [Get]. *)
Definition only_mkdir (e : event) : Prop :=
  match ev_os e with Some (MkdirAll _, _) => True | Some _ => False | None => True end.

Lemma Get_only_mkdir cfg : emits only_mkdir (Get cfg).
Proof.
  unfold Get, lockStore, acquire, stillMounted, checkMountPoint, clearCheck, evict, mount_target, resolve_store,
    locked, IsMountPoint, mount_with, NFSMount, LocalMount, BindMount.
  solve_emits; done.
Qed.

Lemma Get_ok root cfg r tr p r' :
  exec (Get cfg) r tr (Ok p) r' → RegInv root r →
  p = store_path root cfg ∧ configs r' !! StoreID cfg = Some cfg ∧ RegInv root r'.
Proof.
  intros He HI. destruct (exec_stable _ _ _ _ _ _ _ He (stable_Get root cfg) HI) as [Hp HI'].
  split_and!; try done. unfold Get, with_lock in He.
  apply exec_bind in He as (t0 & [] & r0 & tr1 & -> & _ & He). destruct He as ([] & tr2 & -> & He). cbn [bind] in He.
  apply exec_bind in He as (t1 & res & r1 & t2 & -> & Hb & ([] & t3 & -> & (_ & <- & ->))).
  apply exec_bind in Hb as (ta & x & ra & tb & -> & _ & Hb).
  destruct x as [path|e]; [|by destruct Hb as (_ & [=] & _)].
  apply (proj1 (wp_exec _ _ _) (wp_resolve_store cfg path ra)) in Hb. naive_solver.
Qed.

(** A subDir store whose mount dropped: the check fails, so it is remounted. *)
Definition first_get := run (X := unit) quiet (Get demo_config) (NewRegistry "/stores" true true true) tt.
Definition second_get := run (X := unit) quiet (Get demo_config) first_get.1.1.2 tt.

Lemma first_get_inv : RegInv "/stores" first_get.1.1.2.
Proof.
  destruct first_get as [[[res r] x] tr] eqn:E. cbn.
  exact (proj2 (exec_stable _ _ _ _ _ _ _ (exec_run _ _ _ _ _ _ _ _ E) (stable_Get _ _) (inv_new _ _ _ _))).
Qed.

Lemma Get_correct_witness :
  map cmd_name (mount_cmds second_get.2) = ["mount"] ∧
  ∃ t1 t2, second_get.2 = t1 ++ t2 ∧ mount_cmds t2 = [] ∧ (MkdirAll (store_path "/stores" demo_config), Ok tt) ∈ os_ops t2.
Proof.
  assert (second_get.1.1.1 = Ok (store_path "/stores" demo_config)) as Hres by (vm_compute; reflexivity).
  assert (stores first_get.1.1.2 !! StoreID demo_config = Some (store_path "/stores" demo_config)) as Hst
    by (vm_compute; reflexivity).
  assert (is_Some (mounted first_get.1.1.2 !! MountID demo_config)) as Hmt by (vm_compute; eauto).
  assert (map cmd_name (mount_cmds second_get.2) = ["mount"]) as Hcmd by (vm_compute; reflexivity).
  split; [exact Hcmd|].
  destruct second_get as [[[res r'] x] tr] eqn:E. cbn [fst snd] in *. subst res.
  pose proof (exec_run _ _ _ _ _ _ _ _ E) as He.
  apply (Get_correct "/stores" demo_config _ tr _ r' He first_get_inv).
  - exists ["team-a"; "fileblock"]. split_and!; [done|repeat constructor; done|vm_compute; reflexivity..].
  - exists ["stores"]. split_and!; [done|repeat constructor; done|done].
  - right. split_and!; [|exact Hmt|exact Hst]. intros Hn. by rewrite Hn in Hcmd.
Defined.
