(* ===== verification/World.v ===== *)
(** The node's kernel as the driver sees it: mounts, loop devices, dm-crypt
    mappings.

    [kernel] says how each call with its reply moves the node from one state
    to the next, and which replies are true of it; it is what findmnt,
    mount(8), umount, losetup and cryptsetup document of a command that
    succeeds, and says nothing of whether a command succeeds.  A findmnt that
    fails says nothing; [misreads] are the paths at which IsMountPoint takes
    such a failure for an answer that is not true.  [wwp] follows a program
    through calls and node states where the checks of some paths are not
    misread; the lemmas give what each component's function does to the
    node. *)

From Stdlib Require Import ZArith Lia Ascii.
From stdpp Require Import base option gmap strings list.
From S2P Require Import Prelude GoStrings Effects Json Store Image Crypt Mount Loop Registry.

Import strings path.
Local Open Scope prog_scope.

(** Mounts, the visible one first: target and source; loop devices with the
    file they back; crypt mappings with the device under them. *)
Record world := mkWorld {
  w_mounts : list (string * string); w_loops : gmap string string; w_maps : gmap string string }.

Definition mounted_at (w : world) (p : string) : bool := bool_decide (p ∈ (w_mounts w).*1).
(** The source visible at a path, or the path itself. *)
Definition source_at (w : world) (p : string) : string :=
  match List.find (λ m, bool_decide (m.1 = p)) (w_mounts w) with Some m => m.2 | None => p end.
(** The mounts that are not at [p]. *)
Definition off (p : string) (l : list (string * string)) : list (string * string) := filter (λ m, m.1 ≠ p) l.
(** The mounts without the visible one at [p]. *)
Fixpoint pop (p : string) (l : list (string * string)) : list (string * string) :=
  match l with
  | [] => []
  | m :: l => if decide (m.1 = p) then l else m :: pop p l
  end.
(** A device with a mount or a mapping on it. *)
Definition in_use (w : world) (dev : string) : Prop := dev ∈ (w_mounts w).*2 ∨ map_Exists (λ _ d, d = dev) (w_maps w).

#[export] Instance in_use_dec w dev : Decision (in_use w dev).
Proof. unfold in_use. apply _. Defined.

(** What losetup --json lists: devices and the files they back. *)
Definition listed (out : string) : option (list Attachment) :=
  if bool_decide (TrimSpace out = "") then Some [] else
  match json_loopdevices out with
  | None => None
  | Some l => Some (map (λ a, mkAttachment (Device a) (TrimSuffix (BackFile a) deletedSuffix)) l)
  end.
Definition loops_of (l : list Attachment) : gmap string string := list_to_map (map (λ a, (Device a, BackFile a)) l).

Definition add_mount (target source : string) (w : world) : world :=
  mkWorld ((target, source) :: w_mounts w) (w_loops w) (w_maps w).

Lemma add_mount_mounted target source w : mounted_at (add_mount target source w) target = true.
Proof. unfold mounted_at. apply bool_decide_eq_true. cbn [add_mount w_mounts]. rewrite fmap_cons. left. Qed.

(** mount(8): a remount adds nothing, a bind mount shows what its source
    shows, and otherwise the last two arguments are source and target. *)
Definition mount_kernel (args : list string) (w : world) : option world :=
  match args with
  | "-o" :: "remount,ro,bind" :: _ => Some w
  | ["--bind"; source; target] => Some (add_mount target (source_at w source) w)
  | _ => match rev args with
         | target :: source :: _ => Some (add_mount target source w)
         | _ => None
         end
  end.

(** losetup: a device that is attached was free and is a /dev/loop device; one
    that is in use keeps its file when it is detached. *)
Definition losetup_kernel (args : list string) (out : string) (err : option goerr) (w : world) : option world :=
  match args with
  | ["--json"; "--list"] =>
      match err with
      | Some _ => Some w
      | None => match listed out with
                | None => Some w
                | Some l => if decide (NoDup (map Device l) ∧ loops_of l = w_loops w) then Some w else None
                end
      end
  | ["--find"; "--show"; _; _; img] =>
      match err with
      | Some _ => Some w
      | None => let dev := TrimSpace out in
                if decide (HasPrefix dev "/dev/loop" = true ∧ w_loops w !! dev = None ∧ ¬ in_use w dev)
                then Some (mkWorld (w_mounts w) (<[dev := img]> (w_loops w)) (w_maps w)) else None
      end
  | ["--detach"; dev] =>
      match err with
      | Some e => if no_such_device e && bool_decide (is_Some (w_loops w !! dev)) then None else Some w
      | None => if decide (in_use w dev) then Some w
                else Some (mkWorld (w_mounts w) (delete dev (w_loops w)) (w_maps w))
      end
  | _ => Some w
  end.

(** cryptsetup open and close; exit status 4 of close: there is no such
    mapping. *)
Definition cryptsetup_kernel (args : list string) (err : option goerr) (w : world) : option world :=
  match args with
  | ["open"; "--type"; _; _; _; _; dev; name] =>
      match err with
      | Some _ => Some w
      | None => if decide (w_maps w !! name = None)
                then Some (mkWorld (w_mounts w) (w_loops w) (<[name := dev]> (w_maps w))) else None
      end
  | ["close"; name] =>
      match err with
      | Some e => if bool_decide (exitCode e = 4%Z) && bool_decide (is_Some (w_maps w !! name)) then None else Some w
      | None => Some (mkWorld (w_mounts w) (w_loops w) (delete name (w_maps w)))
      end
  | _ => Some w
  end.

(** Whether the rows that findmnt prints name the path. *)
Definition lists (p out : string) : bool := existsb (λ line, bool_decide (TrimSpace line = p)) (Split out "010"%char).

(** findmnt: when the listing of a path succeeds, it has a row that is the path
    exactly if the path is a mount point.  A findmnt that fails says nothing:
    its status is 1 for whatever went wrong. *)
Definition findmnt_kernel (args : list string) (out : string) (err : option goerr) (w : world) : option world :=
  match args with
  | ["-n"; "-o"; "TARGET"; p] =>
      match err with
      | Some _ => Some w
      | None => if bool_decide (lists p out = mounted_at w p) then Some w else None
      end
  | _ => Some w
  end.

Definition run_kernel (c : Cmd) (r : string * option goerr) (w : world) : option world :=
  match cmd_name c with
  | "findmnt" => findmnt_kernel (cmd_args c) r.1 r.2 w
  | "losetup" => losetup_kernel (cmd_args c) r.1 r.2 w
  | "cryptsetup" => cryptsetup_kernel (cmd_args c) r.2 w
  | "mount" => match r.2 with None => mount_kernel (cmd_args c) w | Some _ => Some w end
  | "umount" =>
      match cmd_args c, r.2 with
      | [p], None => if mounted_at w p then Some (mkWorld (pop p (w_mounts w)) (w_loops w) (w_maps w)) else None
      | _, _ => Some w
      end
  | _ => Some w
  end.

(** The node after a call with its reply; [None] if the reply is not true of
    the node.  A mount point exists. *)
Definition kernel (e : event) (w : world) : option world :=
  match ev_run e with
  | Some (c, r) => run_kernel c r w
  | None =>
      match ev_stat e with
      | Some (p, Err e) => if is_NotExist e && mounted_at w p then None else Some w
      | _ => Some w
      end
  end.

Fixpoint kernel_run (tr : trace) (w : world) : option world :=
  match tr with
  | [] => Some w
  | e :: tr => match kernel e w with Some w1 => kernel_run tr w1 | None => None end
  end.

Lemma kernel_run_app t1 t2 w w' :
  kernel_run (t1 ++ t2) w = Some w' ↔ ∃ w1, kernel_run t1 w = Some w1 ∧ kernel_run t2 w1 = Some w'.
Proof.
  revert w. induction t1 as [|e t1 IH]; intros w; cbn.
  - naive_solver.
  - destruct (kernel e w); [apply IH|naive_solver].
Qed.

(** The path of a findmnt that failed and whose failure IsMountPoint reads as
    an answer that is not true of the node: status 1 of the first one is read
    as "no mount here", and of the second one only the output is looked at. *)
Definition misread (w : world) (e : event) : option string :=
  match ev_run e with
  | Some (c, (out, Some err)) =>
      match cmd_name c with
      | "findmnt" =>
          match cmd_args c with
          | ["-n"; "-o"; "TARGET"; option; p] =>
              match option with "--target" => if exit_is 1 err && mounted_at w p then Some p else None | _ => None end
          | ["-n"; "-o"; "TARGET"; p] => if bool_decide (lists p out = mounted_at w p) then None else Some p
          | _ => None
          end
      | _ => None
      end
  | _ => None
  end.

(** The paths that were misread along a run. *)
Fixpoint misreads (tr : trace) (w : world) : list string :=
  match tr with
  | [] => []
  | e :: tr => option_list (misread w e) ++ match kernel e w with Some w1 => misreads tr w1 | None => [] end
  end.

Lemma misreads_app t1 t2 w w1 : kernel_run t1 w = Some w1 → misreads (t1 ++ t2) w = misreads t1 w ++ misreads t2 w1.
Proof.
  revert w. induction t1 as [|e t1 IH]; intros w; cbn; [by intros [= ->]|].
  destruct (kernel e w) as [w2|]; [|done]. intros Hk. by rewrite (IH _ Hk), app_assoc.
Qed.

(** The paths whose checks are not misread in the runs under consideration;
    such runs, and their steps. *)
Class Trust := trusts : string → bool.
Definition heard_run `{Trust} (tr : trace) (w w' : world) : Prop :=
  kernel_run tr w = Some w' ∧ Forall (λ p, trusts p = false) (misreads tr w).
Definition heard `{Trust} (e : event) (w : world) : option world :=
  match misread w e with
  | Some p => if trusts p then None else kernel e w
  | None => kernel e w
  end.

Section Heard.
Context `{TR : Trust}.
Lemma heard_kernel e w w1 : heard e w = Some w1 → kernel e w = Some w1.
Proof. unfold heard. repeat case_match; done. Qed.
Lemma heard_run_nil w w' : heard_run [] w w' ↔ w' = w.
Proof. unfold heard_run. cbn. split; [by intros [[= ->] _]|]. by intros ->. Qed.
Lemma heard_run_cons e tr w w' : heard_run (e :: tr) w w' ↔ ∃ w1, heard e w = Some w1 ∧ heard_run tr w1 w'.
Proof.
  unfold heard_run, heard. cbn. rewrite Forall_app. destruct (misread w e) as [p|]; cbn; rewrite ?Forall_singleton.
  - destruct (kernel e w), (trusts p); naive_solver.
  - destruct (kernel e w); naive_solver.
Qed.
Lemma heard_run_app t1 t2 w w' : heard_run (t1 ++ t2) w w' ↔ ∃ w1, heard_run t1 w w1 ∧ heard_run t2 w1 w'.
Proof.
  unfold heard_run. rewrite kernel_run_app. split.
  - intros [(w1 & H1 & H2) Hm]. rewrite (misreads_app _ _ _ _ H1), Forall_app in Hm. naive_solver.
  - intros (w1 & [H1 M1] & H2 & M2). split; [by exists w1|]. rewrite (misreads_app _ _ _ _ H1), Forall_app. done.
Qed.
End Heard.

(** To trust the paths of a list. *)
Definition trust_in (l : list string) : Trust := λ p, bool_decide (p ∈ l).
Lemma trust_in_elem l p : p ∈ l → trusts (Trust := trust_in l) p = true.
Proof. apply bool_decide_eq_true_2. Qed.
Lemma heard_run_in l tr w w' :
  kernel_run tr w = Some w' → misreads tr w ## l → heard_run (H := trust_in l) tr w w'.
Proof.
  intros Hk Hd. split; [done|]. apply Forall_forall. intros p Hp. apply bool_decide_eq_false_2. intros Hl. by apply (Hd p).
Qed.

(** ** Programs on the node *)
Section Wwp.
Context {S : Type} `{TR : Trust}.

(** Every execution of [m] from the memory [s] on the node [w] in which no
    check of a trusted path is misread ends in [Q]. *)
Fixpoint wwp {A} (m : prog S A) (s : S) (w : world) (Q : A → S → world → Prop) : Prop :=
  match m with
  | Ret a => Q a s w
  | Upd f k => wwp (k (f s).1) (f s).2 w Q
  | Sys c k => ∀ r w1, heard (Ev c r) w = Some w1 → wwp (k r) s w1 Q
  end.

Lemma wwp_exec {A} (m : prog S A) s w Q :
  wwp m s w Q ↔ ∀ tr a s' w', exec m s tr a s' → heard_run tr w w' → Q a s' w'.
Proof.
  revert s w Q. induction m as [a|B f k IH|R c k IH]; intros s w Q; cbn [wwp exec].
  - split; [by intros ? ? ? ? ? (-> & -> & ->) ->%heard_run_nil|]. intros H. by apply (H [] a s w); [|apply heard_run_nil].
  - apply IH.
  - split.
    + intros H tr a s' w' (r & tr' & -> & He) (w1 & E & Hk)%heard_run_cons. eapply IH; eauto.
    + intros H r w1 E. apply IH. intros tr a s' w' He Hk. apply (H (Ev c r :: tr)); [by eauto|].
      apply heard_run_cons. eauto.
Qed.
Lemma wwp_mono {A} (m : prog S A) s w (Q Q' : A → S → world → Prop) :
  (∀ a s w, Q a s w → Q' a s w) → wwp m s w Q → wwp m s w Q'.
Proof. rewrite !wwp_exec. eauto. Qed.
Lemma wwp_bind {A B} (m : prog S A) (f : A → prog S B) s w Q :
  wwp m s w (λ a s1 w1, wwp (f a) s1 w1 Q) → wwp (bind m f) s w Q.
Proof.
  revert s w. induction m as [a|T g k IH|R c k IH]; intros s w; cbn; [done|apply IH|]. intros H r w1 E. by eapply IH, H.
Qed.
(** The rule of a step whose failure is not of interest. *)
Definition okQ {A} (Q : A → S → world → Prop) : res A → S → world → Prop :=
  λ r s w, match r with Ok a => Q a s w | Err _ => True end.
Lemma wwp_bindE {A B} (m : prog S (res A)) (f : A → prog S (res B)) s w Q :
  wwp m s w (okQ (λ a s1 w1, wwp (f a) s1 w1 (okQ Q))) → wwp (bindE m f) s w (okQ Q).
Proof. intros H. apply wwp_bind. eapply wwp_mono; [|exact H]. by intros [a|e]. Qed.
Lemma wwp_wrap {A} g (m : prog S (res A)) s w Q : wwp m s w (okQ Q) → wwp (wrap g m) s w (okQ Q).
Proof. intros H. apply wwp_bind. eapply wwp_mono; [|exact H]. by intros [a|e]. Qed.
Lemma okQ_mono {A} (Q Q' : A → S → world → Prop) r s w : (∀ a, Q a s w → Q' a s w) → okQ Q r s w → okQ Q' r s w.
Proof. destruct r; cbn; auto. Qed.

(** Programs that leave the node alone. *)
Definition inert_event (e : event) : Prop := ∀ w w1, kernel e w = Some w1 → w1 = w.
Lemma kernel_run_inert tr w w' : Forall inert_event tr → kernel_run tr w = Some w' → w' = w.
Proof.
  intros Hf. revert w. induction Hf as [|e tr H1 _ IH]; intros w; cbn; [by intros [= ->]|].
  destruct (kernel e w) eqn:E; [|done]. apply H1 in E. subst. apply IH.
Qed.
Lemma wwp_inert {A} (m : prog S A) s w Q :
  emits inert_event m → (∀ tr a s', exec m s tr a s' → Q a s' w) → wwp m s w Q.
Proof.
  intros Hi HQ. apply wwp_exec. intros tr a s' w' He Hk.
  assert (w' = w) as ->; [|by eapply HQ].
  destruct Hk as [Hk _]. by apply (kernel_run_inert tr w w' (Hi _ _ _ _ He)).
Qed.
(** A question: it changes nothing, and an answer is as [Q] says. *)
Lemma wwp_asks {A} (m : prog S (res A)) s w Q :
  emits inert_event m → keeps (λ s, s) m → wwp m s w (okQ Q) →
  wwp m s w (λ r s' w', s' = s ∧ w' = w ∧ ∀ a, r = Ok a → Q a s w).
Proof.
  intros Hi Hk HQ. assert (wwp m s w (λ _ s' w', s' = s ∧ w' = w)) as H2.
  { apply wwp_inert; [done|]. intros tr a s' He. split; [|done]. by apply (exec_keeps (λ s, s) _ _ _ _ _ Hk He). }
  apply wwp_exec. intros tr a s' w' He Hr. pose proof (proj1 (wwp_exec _ _ _ _) HQ _ _ _ _ He Hr) as H.
  destruct (proj1 (wwp_exec _ _ _ _) H2 _ _ _ _ He Hr) as [-> ->]. split_and!; [done..|]. by intros b ->.
Qed.
End Wwp.

(** ** What the components do to the node *)

#[global] Arguments existsb : simpl never.
#[global] Arguments mounted_at : simpl never.

(** A call none of whose replies moves the node. *)
Ltac solve_inert_event :=
  let w := fresh "w" in let w1 := fresh "w1" in
  intros; intros w w1; unfold kernel; cbn -[HasPrefix TrimSpace];
  repeat case_match; intros; simplify_eq; done.
Ltac solve_inert := solve_emits; try solve_inert_event.

Section Components.
Context {S : Type} `{TR : Trust}.
Implicit Types (s : S) (w : world).

Lemma IsMountPoint_inert p : emits (S := S) inert_event (IsMountPoint p).
Proof. unfold IsMountPoint. solve_inert. Qed.

Lemma wwp_IsMountPoint p s w :
  trusts p = true → wwp (IsMountPoint p) s w (okQ (λ b s' w', s' = s ∧ w' = w ∧ b = mounted_at w p)).
Proof.
  intros Ht. unfold IsMountPoint. cbn. unfold heard, kernel. intros [i|e] w1; cbn.
  - intros [= <-] [out [e|]] w2; unfold heard; cbn.
    + destruct (exit_is 1 e) eqn:Ex; cbn; [|by intros].
      destruct (mounted_at w p); cbn; [by rewrite Ht|]. by intros [= <-].
    + intros [= <-] [out2 [e|]] w3; unfold heard; cbn; case_bool_decide as E; cbn; rewrite ?Ht; try done; by intros [= <-].
  - destruct (is_NotExist e) eqn:En; cbn; [|done]. destruct (mounted_at w p); [done|]. by intros [= <-].
Qed.

(** A check that fails says nothing. *)
Lemma wwp_check p s w :
  trusts p = true → wwp (IsMountPoint p) s w (λ r s' w', s' = s ∧ w' = w ∧ ∀ b, r = Ok b → b = mounted_at w p).
Proof.
  intros Ht. eapply wwp_mono; [|apply wwp_asks, wwp_IsMountPoint; [apply IsMountPoint_inert|unfold IsMountPoint; solve_keeps|done]].
  intros r s' w' (-> & -> & H). split_and!; [done..|]. intros b E. by apply H.
Qed.

Lemma wwp_Unmount p s w :
  trusts p = true →
  wwp (Unmount p) s w (okQ (λ _ s' w', s' = s ∧
    w' = if mounted_at w p then mkWorld (pop p (w_mounts w)) (w_loops w) (w_maps w) else w)).
Proof.
  intros Ht. unfold Unmount. apply wwp_bindE. eapply wwp_mono; [|by apply wwp_IsMountPoint].
  intros [b|e] s1 w1; [|done]. intros (-> & -> & ->). destruct (mounted_at w p) eqn:Em; [|done].
  cbn. intros [out [e|]] w2; [done|]. unfold heard, kernel. cbn. rewrite Em. by intros [= <-].
Qed.

Lemma wwp_MountFs_all source target fstype opts s w :
  wwp (MountFs source target fstype opts) s w (λ r s' w', s' = s ∧
    w' = match r with Ok _ => add_mount target source w | Err _ => w end).
Proof.
  unfold MountFs. cbn. intros [out [e|]] w1; unfold kernel; cbn; [by intros [= <-]|].
  case_bool_decide; by intros [= <-].
Qed.
Lemma wwp_MountFs source target fstype opts s w :
  wwp (MountFs source target fstype opts) s w (okQ (λ _ s' w', s' = s ∧ w' = add_mount target source w)).
Proof. eapply wwp_mono; [|apply wwp_MountFs_all]. by intros [[]|e]. Qed.

Lemma wwp_BindMount source target ro s w :
  wwp (BindMount source target ro) s w (okQ (λ _ s' w', s' = s ∧ w' = add_mount target (source_at w source) w)).
Proof.
  unfold BindMount. cbn. intros [out [e|]] w1; [done|]. unfold kernel. cbn. intros [= <-]. destruct ro; [|done].
  cbn. intros [out2 [e|]] w2; [done|]. by intros [= <-].
Qed.

Lemma wwp_Attach img sector s w :
  wwp (Attach img sector) s w (λ r s' w', s' = s ∧
    match r with
    | Ok dev => w_loops w !! dev = None ∧ ¬ in_use w dev ∧
                w' = mkWorld (w_mounts w) (<[dev := img]> (w_loops w)) (w_maps w)
    | Err _ => w' = w
    end).
Proof.
  unfold Attach. cbn -[HasPrefix]. intros [out [e|]] w1; cbn -[HasPrefix].
  - intros [= <-]. by case_match.
  - destruct (decide _) as [(Hp & H1 & H2)|]; [|done]. intros [= <-]. by rewrite Hp.
Qed.

Lemma wwp_Detach dev s w :
  wwp (Detach dev) s w (okQ (λ _ s' w', s' = s ∧
    (¬ in_use w dev → w' = mkWorld (w_mounts w) (delete dev (w_loops w)) (w_maps w)))).
Proof.
  unfold Detach. cbn. intros [out [e|]] w1; cbn.
  - destruct (no_such_device e) eqn:En; cbn; [|by intros].
    case_bool_decide as Hs; [done|]. intros [= <-]. split; [done|]. intros _.
    rewrite delete_id; [by destruct w|]. by apply eq_None_not_Some.
  - destruct (decide _); intros [= <-]; cbn; split; done.
Qed.

Lemma wwp_CloseMapping name s w :
  wwp (CloseMapping name) s w (okQ (λ _ s' w', s' = s ∧
    w' = mkWorld (w_mounts w) (w_loops w) (delete name (w_maps w)))).
Proof.
  unfold CloseMapping, cryptsetup. cbn. intros [out [e|]] w1; cbn.
  - case_bool_decide; cbn; [|by intros]. case_bool_decide as Hs; [done|]. intros [= <-]. split; [done|].
    rewrite delete_id; [by destruct w|]. by apply eq_None_not_Some.
  - by intros [= <-].
Qed.

(** What a search of the loop devices finds. *)
Lemma loops_of_lookup l d b :
  NoDup (map Device l) → loops_of l !! d = Some b ↔ mkAttachment d b ∈ l.
Proof.
  intros Hn. unfold loops_of. rewrite <- elem_of_list_to_map.
  - rewrite list_elem_of_fmap. split.
    + intros ([d' b'] & [= -> ->] & H). done.
    + intros H. exists (mkAttachment d b). done.
  - by rewrite <- list_fmap_compose.
Qed.
Lemma wwp_Find f s w :
  wwp (Find f) s w (okQ (λ devs s' w', s' = s ∧ w' = w ∧ NoDup devs ∧
    ∀ d, d ∈ devs ↔ ∃ b, w_loops w !! d = Some b ∧ f (mkAttachment d b) = true)).
Proof.
  unfold Find, List, bindE. cbn. intros [out [e|]] w1; cbn; [done|].
  assert (∀ l, listed out = Some l →
    (if decide (NoDup (map Device l) ∧ loops_of l = w_loops w) then Some w else None) = Some w1 →
    NoDup (map Device (List.filter f l)) ∧ w1 = w ∧
    ∀ d, d ∈ map Device (List.filter f l) ↔ ∃ b, w_loops w !! d = Some b ∧ f (mkAttachment d b) = true) as Hl.
  { intros l _. destruct (decide _) as [[Hn Ho]|]; [|done]. intros [= <-]. split_and!; [|done|].
    - clear -Hn. induction l as [|a l IH]; cbn in *; [constructor|]. inversion Hn as [|?? Ha Hn']; subst.
      destruct (f a); cbn; [|auto]. constructor; [|auto]. rewrite list_elem_of_fmap. intros (x & E & Hx).
      apply Ha. rewrite E. apply list_elem_of_fmap_2. apply list_elem_of_In, filter_In in Hx as [Hx _]. by apply list_elem_of_In.
    - intros d. rewrite list_elem_of_fmap, <- Ho. setoid_rewrite (loops_of_lookup l d) ; [|done]. split.
      + intros ([d' b] & -> & Hx%list_elem_of_In%filter_In). destruct Hx as [Hx%list_elem_of_In Hf]. eauto.
      + intros (b & Hx & Hf). exists (mkAttachment d b). split; [done|]. apply list_elem_of_In, filter_In.
        split; [by apply list_elem_of_In|done]. }
  unfold listed in *. case_bool_decide.
  - intros Hd. specialize (Hl [] eq_refl Hd). cbn in *. naive_solver.
  - destruct (json_loopdevices out) as [l|]; cbn; [|by intros].
    intros Hd. specialize (Hl _ eq_refl Hd). naive_solver.
Qed.
End Components.
