(* ===== verification/Encryption.v ===== *)
(** Encryption parameters and secrets: pkg/driver/encryption.go.

    What the controller validates from StorageClass parameters, what it copies
    into the volume context, and what the node reads back from there. *)

From Stdlib Require Import ZArith Lia Ascii.
From stdpp Require Import base option gmap strings list.
From S2P Require Import Prelude GoStrings Regexp Effects Json Store Crypt.

Import strings.

(** src/pkg/driver/encryption.go:19-19 (ParamEncrypted) *)
Definition ParamEncrypted : string := "encrypted".
(** src/pkg/driver/encryption.go:23-23 (minEncryptedCapacity) *)
Definition minEncryptedCapacity : Z := Z.shiftl 32 20.
(** src/pkg/driver/encryption.go:38-41 (ParamCipher, ParamKeySize) *)
Definition ParamCipher : string := "encryption.cipher".
Definition ParamKeySize : string := "encryption.keySize".

(** src/pkg/driver/encryption.go:25-34 (encryptedFromParams) *)
Definition encryptedFromParams (params : gmap string string) : res bool :=
  let v := mget params ParamEncrypted in
  if bool_decide (v = "") || bool_decide (v = "false") then Ok false
  else if bool_decide (v = "true") then Ok true
  else Err (ErrMsg (ParamEncrypted +:+ "=: must be true or false")).

(** src/pkg/driver/encryption.go:46-46 (cipherPattern) *)
Definition cipher_first (c : ascii) : bool := Regexp.in_range "a" "z" c || Regexp.in_range "0" "9" c.
Definition cipher_rest (c : ascii) : bool :=
  cipher_first c || existsb (λ x, bool_decide (c = x)) [":"; ","; "("; ")"; "_"; "-"]%char.
(** src/pkg/driver/encryption.go:46-46 (cipherPattern) *)
Definition cipherPattern : Regexp.re :=
  Regexp.Cat (Regexp.Chr cipher_first) (Regexp.Star (Regexp.Chr cipher_rest)).

(** [strconv.Atoi]: an optional sign and at least one digit, in the range of
    a 64-bit integer. *)
Definition Atoi (s : string) : option Z :=
  let '(neg, d) := match s with
                   | String c d => if bool_decide (c = "-"%char) then (true, d)
                                   else if bool_decide (c = "+"%char) then (false, d) else (false, s)
                   | "" => (false, "")
                   end in
  if bool_decide (d = "") then None else
  match parse_digits 0 d with
  | None => None
  | Some n => let n := if (neg : bool) then Z.opp n else n in
              if bool_decide (int64_min ≤ n ≤ int64_max)%Z then Some n else None
  end.

(** src/pkg/driver/encryption.go:53-79 (formatFromParams) *)
Definition formatFromParams (params : gmap string string) (encrypted : bool) : res Format :=
  let cipher := mget params ParamCipher in
  let keySize := mget params ParamKeySize in
  if bool_decide (cipher = "") && bool_decide (keySize = "") then Ok DefaultFormat
  else if negb encrypted then Err (ErrMsg "cipher and key size need encrypted=true")
  else
  match (if bool_decide (cipher = "") then Ok DefaultFormat
         else if negb (Regexp.matches cipherPattern cipher) then Err (ErrMsg "not a cryptsetup cipher spec")
         else if bool_decide (keySize = "") then Err (ErrMsg "keySize is required with cipher")
         else Ok (mkFormat cipher (KeySize DefaultFormat))) with
  | Err e => Err e
  | Ok f =>
      if bool_decide (keySize = "") then Ok f
      else match Atoi keySize with
           | None => Err (ErrMsg "must be a positive number of bits divisible by 8")
           | Some n => if bool_decide (n ≤ 0)%Z || negb (bool_decide (go_rem n 8 = 0)%Z)
                       then Err (ErrMsg "must be a positive number of bits divisible by 8")
                       else Ok (mkFormat (Cipher f) n)
           end
  end.

(** src/pkg/driver/encryption.go:83-89 (formatToVolumeContext) *)
Definition formatToVolumeContext (vc params : gmap string string) : gmap string string :=
  foldl (λ vc k, let v := mget params k in if bool_decide (v = "") then vc else <[k := v]> vc)
    vc [ParamCipher; ParamKeySize].

(** src/pkg/driver/encryption.go:91-94 (secretKey, secretPreviousKey) *)
Definition secretKey : string := "key".
Definition secretPreviousKey : string := "previousKey".

(** src/pkg/driver/encryption.go:98-111 (keysFromSecrets) *)
Definition keysFromSecrets (s : gmap string string) : res Keys :=
  let cur := mget s secretKey in
  if bool_decide (cur = "") then Err (ErrStatus FailedPrecondition "encrypted volume needs a key entry in its node-stage secret")
  else if bool_decide (String.length cur < MinKeyLen) then Err (ErrStatus InvalidArgument "node-stage secret is too short")
  else Ok (mkKeys cur (mget s secretPreviousKey)).

(** src/pkg/driver/encryption.go:130-136 (missingCryptsetupBinary) *)
Definition missingCryptsetupBinary (e : goerr) : bool :=
  match as_exec e with
  | Some (x, _, Some inner) => bool_decide (x = -1)%Z && is_ExeNotFound inner
  | _ => false
  end.

(** src/pkg/driver/encryption.go:113-124 (cryptStatus) *)
Definition cryptStatus (e : goerr) : goerr :=
  if is_WrongKey e then ErrStatus PermissionDenied ""
  else if is_NotBlank e then ErrStatus FailedPrecondition ""
  else if missingCryptsetupBinary e then ErrStatus Internal "luks (needs cryptsetup and the dm_crypt kernel module): "
  else ErrStatus Internal "luks: ".

(** src/pkg/driver/controller.go:116-120 (ControllerServer.CreateVolume, the
    volume context) *)
Definition volume_context (cfg : Config) (encrypted : bool) (params : gmap string string) : gmap string string :=
  let vc := ToVolumeContext cfg in
  if encrypted then formatToVolumeContext (<[ParamEncrypted := "true"]> vc) params else vc.

(** ** Properties *)

Lemma volume_context_keys cfg params k :
  k ≠ ParamEncrypted → k ≠ ParamCipher → k ≠ ParamKeySize →
  ∀ e, mget (volume_context cfg e params) k = mget (ToVolumeContext cfg) k.
Proof.
  intros H1 H2 H3 [|]; [|done]. unfold volume_context, formatToVolumeContext. cbn.
  repeat case_bool_decide; rewrite ?mget_insert_ne by done; done.
Qed.

Lemma ToVolumeContext_plain cfg k :
  k ∈ [ParamEncrypted; ParamCipher; ParamKeySize] → mget (ToVolumeContext cfg) k = "".
Proof.
  intros Hk. unfold ToVolumeContext. in_cases Hk; subst k;
  repeat case_match; rewrite ?mget_insert_ne by done; apply mget_empty.
Qed.

Lemma volume_context_enc cfg params e :
  mget (volume_context cfg e params) ParamEncrypted = if e then "true" else "".
Proof.
  destruct e; unfold volume_context; [|apply ToVolumeContext_plain; set_solver].
  unfold formatToVolumeContext. cbn. repeat case_bool_decide; rewrite ?mget_insert_ne by done; apply mget_insert_eq.
Qed.

Lemma volume_context_fmt cfg params k :
  k ∈ [ParamCipher; ParamKeySize] → mget (volume_context cfg true params) k = mget params k.
Proof.
  intros Hk. assert (mget (ToVolumeContext cfg) k = "") as H0 by (apply ToVolumeContext_plain; set_solver).
  unfold volume_context, formatToVolumeContext. cbn.
  in_cases Hk; subst k; repeat case_bool_decide;
    rewrite ?mget_insert_eq, ?mget_insert_ne, ?mget_insert_eq, ?mget_insert_ne by done; congruence.
Qed.

Lemma formatFromParams_ext p q e :
  (∀ k, k ∈ [ParamCipher; ParamKeySize] → mget p k = mget q k) → formatFromParams p e = formatFromParams q e.
Proof. intros H. unfold formatFromParams. by rewrite !(H ParamCipher), !(H ParamKeySize) by set_solver. Qed.

Lemma volume_context_decodes params cfg e f :
  ConfigFromParams params = Ok cfg → encryptedFromParams params = Ok e → formatFromParams params e = Ok f →
  let vc := volume_context cfg e params in
  ConfigFromVolumeContext vc = Ok cfg ∧ encryptedFromParams vc = Ok e ∧ formatFromParams vc e = Ok f.
Proof.
  intros Hc He Hf vc. split_and!.
  - rewrite <- (vc_roundtrip _ _ Hc). apply ConfigFromParams_ext. intros k Hk.
    apply volume_context_keys; intros ->; unfold store_keys in Hk; in_cases Hk.
  - unfold encryptedFromParams, vc. rewrite volume_context_enc. by destruct e.
  - destruct e.
    + rewrite <- Hf. apply formatFromParams_ext. apply volume_context_fmt.
    + unfold formatFromParams in *. unfold vc, volume_context.
      rewrite !ToVolumeContext_plain by set_solver. cbn.
      destruct (bool_decide (mget params ParamCipher = "") && bool_decide (mget params ParamKeySize = "")); done.
Qed.

(** C15: the node sees the volume the controller created.  When the controller
    accepts a StorageClass's parameters, the volume context it stores decodes,
    with the functions the node uses, to the same backing-store
    configuration, the same encryption flag and the same LUKS format. *)
Theorem volume_context_roundtrip params cfg e f :
  ConfigFromParams params = Ok cfg → encryptedFromParams params = Ok e → formatFromParams params e = Ok f →
  let vc := volume_context cfg e params in
  ConfigFromVolumeContext vc = Ok cfg ∧ encryptedFromParams vc = Ok e ∧ formatFromParams vc e = Ok f.
Proof. apply volume_context_decodes. Qed.

Definition demo_enc_params : gmap string string :=
  <[ParamEncrypted := "true"]> (<[ParamCipher := "capi:xts(aes)-plain64"]> (<[ParamKeySize := "512"]> demo_params)).

Lemma volume_context_roundtrip_witness :
  let vc := volume_context demo_config true demo_enc_params in
  ConfigFromVolumeContext vc = Ok demo_config ∧ encryptedFromParams vc = Ok true ∧
  formatFromParams vc true = Ok (mkFormat "capi:xts(aes)-plain64" 512).
Proof. apply volume_context_roundtrip; vm_compute; reflexivity. Defined.

(** What reaches luksFormat is safe to put on a command line.  An
    accepted cipher is one word of the cipher alphabet that does not start
    with a dash, whether given or the default; an accepted key size is a
    positive multiple of 8 bits that fits an int; and a cipher other than the
    default is only accepted with an explicit key size on an encrypted
    volume. *)
Theorem format_safe params e f :
  formatFromParams params e = Ok f →
  (∃ c s, Cipher f = String c s ∧ c ≠ "-"%char) ∧ Regexp.all_chars cipher_rest (Cipher f) = true ∧
  (0 < KeySize f ≤ int64_max)%Z ∧ (KeySize f mod 8 = 0)%Z ∧
  (Cipher f ≠ Cipher DefaultFormat → e = true ∧ Cipher f = mget params ParamCipher ∧ mget params ParamKeySize ≠ "").
Proof.
  assert (∀ s, Regexp.matches cipherPattern s = true →
    (∃ c t, s = String c t ∧ c ≠ "-"%char) ∧ Regexp.all_chars cipher_rest s = true) as Hpat.
  { intros s Hs. apply Regexp.matches_lang, Regexp.lang_cat_iff in Hs as (a & b & -> & Ha & Hb).
    inversion Ha as [|p c Hc E1 E2| | | | |]; subst. apply Regexp.lang_star_chr in Hb. split.
    - exists c, b. split; [done|]. intros ->. discriminate Hc.
    - change (cipher_rest c && Regexp.all_chars cipher_rest b = true). rewrite Hb.
      unfold cipher_rest. by rewrite Hc. }
  assert (∀ n s, Atoi s = Some n → (n ≤ int64_max)%Z) as Hatoi.
  { intros n s. unfold Atoi. repeat case_match; try done; intros [= <-]; case_bool_decide; naive_solver lia. }
  assert (∃ c s, Cipher DefaultFormat = String c s ∧ c ≠ "-"%char) as Hdef by by exists "a"%char, "es-xts-plain64".
  assert (∀ x n s, Atoi s = Some n →
    (if bool_decide (n ≤ 0)%Z || negb (bool_decide (go_rem n 8 = 0%Z))
     then Err (ErrMsg "must be a positive number of bits divisible by 8") else Ok (mkFormat x n)) = Ok f →
    f = mkFormat x n ∧ (0 < n ≤ int64_max)%Z ∧ (n mod 8 = 0)%Z) as Hnum.
  { intros x n s Hn%Hatoi. case_bool_decide; [done|]. case_bool_decide as Hr; [|done]. cbn. intros [= <-].
    split_and!; [done|lia|lia|]. unfold go_rem in Hr. rewrite Z.rem_mod_nonneg in Hr by lia. done. }
  unfold formatFromParams. destruct e; cbn.
  2: { destruct (_ && _); [|done]. intros [= <-]. split_and!; done. }
  case_bool_decide as Hc; cbn; [case_bool_decide as Hk; cbn|].
  - intros [= <-]. split_and!; done.
  - destruct (Atoi _) as [n|] eqn:En; [|done]. intros (-> & ? & ?)%(Hnum _ _ _ En). cbn in *. split_and!; first [done|lia|naive_solver].
  - destruct (Regexp.matches _ _) eqn:Em; [|done]. cbn. case_bool_decide as Hk; [done|].
    destruct (Hpat _ Em) as [Hp1 Hp2].
    destruct (Atoi _) as [n|] eqn:En; [|done]. intros (-> & ? & ?)%(Hnum _ _ _ En). cbn in *. split_and!; first [done|lia|naive_solver].
Qed.

Lemma format_safe_witness :
  formatFromParams demo_enc_params true = Ok (mkFormat "capi:xts(aes)-plain64" 512) ∧
  Regexp.all_chars cipher_rest "capi:xts(aes)-plain64" = true.
Proof.
  assert (formatFromParams demo_enc_params true = Ok (mkFormat "capi:xts(aes)-plain64" 512)) as H
    by (vm_compute; reflexivity).
  split; [exact H|]. exact (proj1 (proj2 (format_safe _ _ _ H))).
Defined.
