(* ===== verification/Controller.v ===== *)
(** The CSI controller service: pkg/driver/controller.go.

    Requests and responses are records of the fields the handlers read and
    fill; the handlers are programs over the registry's memory.  The theorems:
    the capacity chosen for a range lies in it and exists whenever one does;
    a volume ID leads back to its store; CreateVolume's answer matches its
    request; errors carry the right code and leave images alone. *)

From Stdlib Require Import ZArith Lia Ascii.
From stdpp Require Import base option gmap strings list.
From S2P Require Import Prelude GoStrings Regexp Effects Store Image Registry Crypt Encryption.

Import strings path.
Local Open Scope prog_scope.

(** src/pkg/driver/controller.go:20-20 (topologyKeyNode) *)
Definition topologyKeyNode : string := "fileblock.csi/node".
(** src/pkg/driver/controller.go:22-24 (defaultCapacityBytes) *)
Definition defaultCapacityBytes : Z := Z.shiftl 1 30.

(** The CSI messages, reduced to the fields the driver uses. *)
Inductive AccessMode := SINGLE_NODE_WRITER | OtherMode (n : Z).
#[export] Instance AccessMode_eq_dec : EqDecision AccessMode.
Proof. solve_decision. Defined.

Record VolumeCapability := mkCap {
  cap_Block : bool;
  cap_Mount : option (string * list string);   (* fsType, mountFlags *)
  cap_Mode : AccessMode;
}.
Record CapacityRange := mkRange { RequiredBytes : Z; LimitBytes : Z }.
Definition Topology := gmap string string.
Record TopologyRequirement := mkTopReq { Requisite : list Topology; Preferred : list Topology }.

Record CreateVolumeRequest := mkCreate {
  cr_Name : string;
  cr_Capabilities : list VolumeCapability;
  cr_Parameters : gmap string string;
  cr_Range : option CapacityRange;
  cr_Topology : option TopologyRequirement;
}.
Record Volume := mkVolume {
  vol_Id : string;
  vol_Capacity : Z;
  vol_Context : gmap string string;
  vol_Topology : list Topology;
}.

(** src/pkg/driver/controller.go:47-62 (ControllerServer.ControllerGetCapabilities) *)
Inductive ControllerCapability := CREATE_DELETE_VOLUME | EXPAND_VOLUME | LIST_VOLUMES.
Definition ControllerGetCapabilities : list ControllerCapability :=
  [CREATE_DELETE_VOLUME; EXPAND_VOLUME; LIST_VOLUMES].

(** src/pkg/driver/controller.go:334-352 (validateCapabilities, one capability) *)
Definition validate_cap (c : VolumeCapability) : res unit :=
  if cap_Block c then Err (ErrStatus InvalidArgument "block volumes are not supported; mount only")
  else if negb (bool_decide (cap_Mode c = SINGLE_NODE_WRITER))
  then Err (ErrStatus InvalidArgument "access mode not supported; fileblock is RWO only")
  else match cap_Mount c with
       | Some (fs, _) => if negb (bool_decide (fs = "")) && negb (bool_decide (fs = DefaultFs))
                         then Err (ErrStatus InvalidArgument "fsType not supported; only ext4") else Ok tt
       | None => Ok tt
       end.
Fixpoint validate_caps (caps : list VolumeCapability) : res unit :=
  match caps with
  | [] => Ok tt
  | c :: cs => match validate_cap c with Err e => Err e | Ok _ => validate_caps cs end
  end.
(** src/pkg/driver/controller.go:334-352 (validateCapabilities) *)
Definition validateCapabilities (caps : list VolumeCapability) : res unit :=
  if bool_decide (caps = []) then Err (ErrStatus InvalidArgument "volume_capabilities is required")
  else validate_caps caps.

#[export] Instance cap_eq_dec : EqDecision VolumeCapability.
Proof. solve_decision. Defined.

(** Getters of a possibly nil message. *)
Definition GetRequiredBytes (r : option CapacityRange) : Z := match r with Some r => RequiredBytes r | None => 0 end.
Definition GetLimitBytes (r : option CapacityRange) : Z := match r with Some r => LimitBytes r | None => 0 end.

(** src/pkg/driver/controller.go:134-151 (alignedCapacity) *)
Definition alignedCapacity (r : option CapacityRange) : res Z :=
  let want := if bool_decide (0 < GetRequiredBytes r)%Z then GetRequiredBytes r
              else if bool_decide (0 < GetLimitBytes r)%Z then GetLimitBytes r
              else defaultCapacityBytes in
  let size := AlignUp want in
  let limit := GetLimitBytes r in
  if bool_decide (0 < limit)%Z && bool_decide (limit < size)%Z then
    let size := go_mul (go_div limit DefaultBlockSize) DefaultBlockSize in
    if bool_decide (size = 0)%Z || bool_decide (size < GetRequiredBytes r)%Z
    then Err (ErrStatus OutOfRange "no multiple of 4096 bytes lies between required and limit")
    else Ok size
  else Ok size.

(** src/pkg/driver/controller.go:162-179 (topologyForCfg) *)
Definition topologyForCfg (cfg : Config) (req : option TopologyRequirement) : list Topology :=
  if bool_decide (cfg_Type cfg = TypeNFS) then []
  else if bool_decide (cfg_Type cfg = TypeLocal) && LocalShared cfg then []
  else match req with
       | None => []
       | Some req => match Preferred req with
                     | p :: _ => [p]
                     | [] => match Requisite req with r :: _ => [r] | [] => [] end
                     end
       end.

(** src/pkg/driver/controller.go:310-315 (volumeIDFromName) *)
Definition volumeIDFromName (cfg : Config) (name : string) : res string :=
  if ContainsAny name ["/"; "\"; "000"]%char
  then Err (ErrStatus InvalidArgument "name contains invalid characters")
  else Ok ("fb-" +:+ StoreID cfg +:+ "-" +:+ name).

(** src/pkg/driver/controller.go:322-332 (parseStoreIDFromVolumeID) *)
Definition parseStoreIDFromVolumeID (volumeID : string) : res string :=
  if negb (HasPrefix volumeID "fb-")
  then Err (ErrStatus NotFound "volumeID is not in fb-<storeID>-<name> form") else
  let rest := sdrop 3 volumeID in
  if bool_decide (String.length rest < 13) || negb (bool_decide (String.get 12 rest = Some "-"%char))
  then Err (ErrStatus NotFound "volumeID has malformed storeID segment")
  else Ok (stake 12 rest).

(** src/pkg/driver/controller.go:284-298 (ControllerServer.imageManagerForVolumeID):
    the manager is its root directory. *)
Definition imageManagerForVolumeID (volumeID : string) : prog Registry (res string) :=
  storeID <-? lift_res (parseStoreIDFromVolumeID volumeID) ;;
  cfg <- ConfigByStoreID storeID ;;
  match cfg with
  | None => failS NotFound "store for volume is not mounted on this controller"
  | Some cfg =>
      path <-? wrap (statusf Internal "remount backing store ") (Registry.Get cfg) ;;
      Image.New path
  end.

(** src/pkg/driver/controller.go:107-114 (ControllerServer.CreateVolume, the
    error of Create) *)
Definition create_status (e : goerr) : goerr :=
  match as_mismatch e with
  | Some _ => ErrStatus AlreadyExists "capacity mismatch"
  | None => ErrStatus Internal "create volume: "
  end.

(** src/pkg/driver/controller.go:64-128 (ControllerServer.CreateVolume) *)
Definition CreateVolume (req : CreateVolumeRequest) : prog Registry (res Volume) :=
  if bool_decide (cr_Name req = "") then failS InvalidArgument "name is required" else
  lift_res (validateCapabilities (cr_Capabilities req)) ;;?
  cfg <-? lift_res (map_err (statusf InvalidArgument "") (ConfigFromParams (cr_Parameters req))) ;;
  encrypted <-? lift_res (map_err (statusf InvalidArgument "") (encryptedFromParams (cr_Parameters req))) ;;
  lift_res (map_err (statusf InvalidArgument "") (formatFromParams (cr_Parameters req) encrypted)) ;;?
  mountedPath <-? wrap (statusf Internal "mount backing store: ") (Registry.Get cfg) ;;
  images <-? wrap (statusf Internal "open backing store: ") (Image.New mountedPath) ;;
  capacity <-? lift_res (alignedCapacity (cr_Range req)) ;;
  if encrypted && bool_decide (capacity < minEncryptedCapacity)%Z
  then failS OutOfRange "encrypted volumes need at least 33554432 bytes" else
  volumeID <-? lift_res (volumeIDFromName cfg (cr_Name req)) ;;
  meta <-? wrap create_status (Image.Create images volumeID capacity encrypted) ;;
  ok (mkVolume (VolumeID meta) (CapacityBytes meta) (volume_context cfg encrypted (cr_Parameters req))
        (topologyForCfg cfg (cr_Topology req))).

(** src/pkg/driver/controller.go:181-199 (ControllerServer.DeleteVolume) *)
Definition DeleteVolume (volumeID : string) : prog Registry (res unit) :=
  if bool_decide (volumeID = "") then failS InvalidArgument "volumeId is required" else
  m <- imageManagerForVolumeID volumeID ;;
  match m with
  | Err e => if bool_decide (status_code e = NotFound) then ok tt else fail e
  | Ok m => wrap (statusf Internal "delete volume: ") (Image.Delete m volumeID)
  end.

(** src/pkg/driver/controller.go:201-223 (ControllerServer.ValidateVolumeCapabilities):
    the capabilities confirmed, or [None] with a message. *)
Definition ValidateVolumeCapabilities (volumeID : string) (caps : list VolumeCapability)
  : prog Registry (res (option (list VolumeCapability))) :=
  if bool_decide (volumeID = "") then failS InvalidArgument "volumeId is required" else
  if bool_decide (caps = []) then failS InvalidArgument "volume_capabilities is required" else
  m <-? imageManagerForVolumeID volumeID ;;
  wrap (statusf NotFound "volume ") (Image.Get m volumeID) ;;?
  match validateCapabilities caps with
  | Err _ => ok None
  | Ok _ => ok (Some caps)
  end.

(** src/pkg/driver/controller.go:232-249 (ControllerServer.ListVolumes, the loop) *)
Fixpoint list_paths (paths : list string) : prog Registry (res (list (string * Z))) :=
  match paths with
  | [] => ok []
  | p :: ps =>
      m <- Image.New p ;;
      match m with
      | Err _ => list_paths ps
      | Ok m =>
          metas <-? wrap (statusf Internal "list: ") (Image.ListImages m) ;;
          rest <-? list_paths ps ;;
          ok (map (λ x, (VolumeID x, CapacityBytes x)) metas ++ rest)
      end
  end.
(** src/pkg/driver/controller.go:225-251 (ControllerServer.ListVolumes) *)
Definition ListVolumes (startingToken : string) : prog Registry (res (list (string * Z))) :=
  if negb (bool_decide (startingToken = "")) then failS Aborted "starting_token is not supported" else
  paths <- MountedPaths ;;
  list_paths paths.

(** src/pkg/driver/controller.go:253-277 (ControllerServer.ControllerExpandVolume):
    the new capacity; node expansion is always required. *)
Definition ControllerExpandVolume (volumeID : string) (r : option CapacityRange) : prog Registry (res Z) :=
  if bool_decide (volumeID = "") then failS InvalidArgument "volumeId is required" else
  if bool_decide (GetRequiredBytes r ≤ 0)%Z
  then failS InvalidArgument "capacity_range.required_bytes is required" else
  size <-? lift_res (alignedCapacity r) ;;
  m <-? imageManagerForVolumeID volumeID ;;
  meta <-? wrap (statusf Internal "resize: ") (Image.Resize m volumeID size) ;;
  ok (CapacityBytes meta).

(** ** Capacities *)
Section Capacity.
Local Open Scope Z_scope.

Lemma floor_block l : 0 < l ≤ int64_max →
  go_mul (go_div l DefaultBlockSize) DefaultBlockSize = l / 4096 * 4096.
Proof.
  intros Hl. unfold go_mul, go_div, DefaultBlockSize. rewrite Z.quot_div_nonneg by lia.
  rewrite (wrap64_id (l / 4096)) by int64. apply wrap64_id. int64.
Qed.
End Capacity.

(** C34: the capacity chosen for a range.  For requests whose rounding does
    not overflow (bounds of at most int64 max - 4095), [alignedCapacity] returns a positive multiple of 4096 in the
    range: the smallest that covers the required bytes when some are
    required, otherwise the largest within the limit, otherwise the default;
    and it returns OutOfRange exactly when the range holds no such multiple. *)
Theorem alignedCapacity_spec r :
  let q := GetRequiredBytes r in
  let l := GetLimitBytes r in
  (q ≤ int64_max - 4095)%Z → (l ≤ int64_max - 4095)%Z →
  match alignedCapacity r with
  | Ok n => (n mod 4096 = 0 ∧ 0 < n ∧ q ≤ n ∧ (0 < l → n ≤ l) ∧
             (0 < q → ∀ k, k mod 4096 = 0 → q ≤ k → n ≤ k) ∧
             (q ≤ 0 → 0 < l → ∀ k, k mod 4096 = 0 → k ≤ l → k ≤ n) ∧
             (q ≤ 0 → l ≤ 0 → n = defaultCapacityBytes))%Z
  | Err e => status_code e = OutOfRange ∧ ~ (∃ n, n mod 4096 = 0 ∧ 0 < n ∧ q ≤ n ∧ n ≤ l)%Z
  end.
Proof.
  intros q l Hq Hl. unfold alignedCapacity. fold q l.
  set (want := if bool_decide (0 < q)%Z then q else if bool_decide (0 < l)%Z then l else defaultCapacityBytes).
  assert (0 < want ≤ int64_max - 4095)%Z as Hw.
  { unfold want. change defaultCapacityBytes with 1073741824%Z. unfold int64_max in *.
    repeat case_bool_decide; lia. }
  assert (want = q ∧ 0 < q ∨ want = l ∧ q ≤ 0 ∧ 0 < l ∨ want = defaultCapacityBytes ∧ q ≤ 0 ∧ l ≤ 0)%Z as Hcase
    by (unfold want; repeat case_bool_decide; lia).
  clearbody want. destruct (AlignUp_spec want ltac:(lia)) as (E & Hr & Hm).
  case_bool_decide as H1; cbn; [case_bool_decide as H2; cbn|].
  - rewrite floor_block by (unfold int64_max in *; lia).
    assert (l / 4096 * 4096 ≤ l < l / 4096 * 4096 + 4096)%Z as Hf by zlia.
    case_bool_decide as H3; cbn; [|case_bool_decide as H4; cbn].
    + split; [done|]. intros (n & ? & ? & ? & ?). zlia.
    + split; [done|]. intros (n & ? & ? & ? & ?). zlia.
    + split_and!; intros; zlia.
  - split_and!; intros; zlia.
  - destruct Hcase as [[-> ?]|[[-> ?]|[-> ?]]]; [split_and!; intros; zlia|lia|].
    change (AlignUp defaultCapacityBytes) with 1073741824%Z in *.
    split_and!; intros; try zlia; try done.
Qed.

Lemma alignedCapacity_spec_witness :
  alignedCapacity (Some (mkRange 5000 9000)) = Ok 8192%Z ∧
  (8192 mod 4096 = 0 ∧ 5000 ≤ 8192 ≤ 9000)%Z.
Proof.
  pose proof (alignedCapacity_spec (Some (mkRange 5000 9000))) as H.
  assert (alignedCapacity (Some (mkRange 5000 9000)) = Ok 8192%Z) as E by (vm_compute; reflexivity).
  rewrite E in H. cbn in H. destruct H as (H1 & _ & H2 & H3 & _); [unfold int64_max; lia..|].
  split; [done|]. split; [exact H1|]. split; [exact H2|]. apply H3. lia.
Defined.

(** C40: past the last multiple of 4096 the rounding overflows.  A required
    size above 2^63 - 4096 with no limit is answered with a negative capacity
    instead of OutOfRange. *)
Theorem alignedCapacity_overflow q :
  (int64_max - 4095 < q ≤ int64_max)%Z →
  ∃ n, alignedCapacity (Some (mkRange q 0)) = Ok n ∧ (n < 0)%Z.
Proof.
  intros Hq. exists (AlignUp q). split; [|by apply AlignUp_overflow].
  unfold alignedCapacity. cbn [GetRequiredBytes GetLimitBytes RequiredBytes LimitBytes].
  rewrite (bool_decide_true (0 < q)%Z); [done|]. unfold int64_max in Hq. lia.
Qed.

Lemma alignedCapacity_overflow_witness :
  ∃ n, alignedCapacity (Some (mkRange int64_max 0)) = Ok n ∧ (n < 0)%Z.
Proof. apply alignedCapacity_overflow. unfold int64_max. lia. Defined.

(** ** Volume IDs *)

Lemma StoreID_length c : String.length (StoreID c) = 12.
Proof. apply hashID_shape. Qed.

Lemma stake_len_app n a b : String.length a = n → stake n (a +:+ b) = a.
Proof. intros <-. apply stake_app. Qed.
Lemma sdrop_len_app n a b : String.length a = n → sdrop n (a +:+ b) = b.
Proof. intros <-. apply sdrop_app. Qed.

Lemma StoreID_safe c x : x ∈ ["/"; "\"; "000"]%char → has_char x (StoreID c) = false.
Proof.
  intros Hx. destruct (hashID_shape (storeKey c)) as [_ Hh]. fold (StoreID c) in Hh.
  induction (StoreID c) as [|a s IH]; [done|]. cbn in *. apply andb_prop in Hh as [Ha Hs].
  case_bool_decide; [|auto]. subst a. in_cases Hx; by subst x.
Qed.

(** C35: volume IDs lead back to their volume.  An accepted name gives an ID
    that the image layer accepts, whose store is recovered by
    [parseStoreIDFromVolumeID] and whose name is what follows; so on one store
    different names are different volumes. *)
Theorem volumeID_roundtrip cfg name id :
  volumeIDFromName cfg name = Ok id →
  parseStoreIDFromVolumeID id = Ok (StoreID cfg) ∧ sdrop 16 id = name ∧ validateVolumeID id = Ok tt ∧
  (∀ name', volumeIDFromName cfg name' = Ok id → name' = name).
Proof.
  assert (∀ name id, volumeIDFromName cfg name = Ok id → sdrop 16 id = name) as Hname.
  { intros n i. unfold volumeIDFromName. case_match; [done|]. intros [= <-].
    change (sdrop 16 ("fb-" +:+ StoreID cfg +:+ "-" +:+ n)) with (sdrop 13 (StoreID cfg +:+ "-" +:+ n)).
    rewrite <- sapp_assoc. apply sdrop_len_app. by rewrite slength_app, StoreID_length. }
  intros Hid. split_and!.
  - unfold volumeIDFromName in Hid. case_match; [done|]. injection Hid as <-.
    unfold parseStoreIDFromVolumeID. rewrite HasPrefix_app. cbn [negb].
    change (sdrop 3 ("fb-" +:+ ?x)) with x.
    assert (String.get 12 (StoreID cfg +:+ "-" +:+ name) = Some "-"%char) as ->.
    { pose proof (String.append_correct2 (StoreID cfg) ("-" +:+ name) 0) as Hg.
      rewrite StoreID_length in Hg. symmetry. exact Hg. }
    rewrite !slength_app, StoreID_length, stake_len_app by apply StoreID_length.
    rewrite bool_decide_false by (cbn; lia). by rewrite bool_decide_true.
  - by apply Hname.
  - unfold volumeIDFromName in Hid. destruct (ContainsAny _ _) eqn:Ec; [done|]. injection Hid as <-.
    apply validateVolumeID_ok. split; [done|]. unfold ContainsAny in Ec. cbn [existsb] in Ec.
    apply orb_false_iff in Ec as [E1 [E2 [E3 _]%orb_false_iff]%orb_false_iff].
    rewrite !has_char_app, !StoreID_safe by set_solver. by rewrite E1, E2, E3.
  - intros name' H'. apply Hname in H', Hid. congruence.
Qed.

Lemma volumeID_roundtrip_witness :
  ∃ id, volumeIDFromName demo_config "pvc-a-b" = Ok id ∧ parseStoreIDFromVolumeID id = Ok (StoreID demo_config) ∧
        sdrop 16 id = "pvc-a-b".
Proof.
  eexists. split; [reflexivity|].
  split; apply (volumeID_roundtrip demo_config "pvc-a-b"); reflexivity.
Defined.

(** ** Handlers *)

#[local] Arguments Registry.Get : simpl never.
#[local] Arguments Image.New : simpl never.
#[local] Arguments Image.Create : simpl never.
#[local] Arguments Image.Delete : simpl never.
#[local] Arguments Image.Resize : simpl never.
#[local] Arguments alignedCapacity : simpl never.
#[local] Arguments volume_context : simpl never.

(** The file an operation works on. *)
Definition op_path (o : osop) : string :=
  match o with
  | MkdirAll p | Remove p | OpenCreate p | Truncate p _ | OpenRead p | OpenTrunc p | Flock p
  | WriteAll p _ | Fsync p | CloseFile p | Rename p _ => p
  end.

(** Only directories are made, except for operations on the files [ps]. *)
Definition confined (ps : list string) (e : event) : Prop :=
  match ev_os e with Some (MkdirAll _, _) => True | Some (o, _) => op_path o ∈ ps | None => True end.

Lemma only_mkdir_confined ps e : only_mkdir e → confined ps e.
Proof. unfold only_mkdir, confined. destruct (ev_os e) as [[[] ?]|]; done. Qed.

(** A stat fails with an errno, never with a gRPC status. *)
Definition plain_stats (tr : trace) : Prop :=
  Forall (λ e, match ev_stat e with Some (_, Err x) => status_code x ≠ NotFound | _ => True end) tr.

Lemma New_pure {S} p (s : S) :
  wp (Image.New p) s (λ r s' tr, s' = s ∧ os_ops tr = [] ∧ (∀ q, r = Ok q → q = p) ∧
                                 (∀ e, r = Err e → plain_stats tr → status_code e ≠ NotFound)).
Proof.
  unfold Image.New. wp_cases; [destruct (fi_dir a); cbn; split_and!; naive_solver|].
  split_and!; try naive_solver. intros ? [= <-] [H _]%Forall_cons. exact H.
Qed.

Lemma no_os_forall (P : event → Prop) tr :
  (∀ e, ev_os e = None → P e) → os_ops tr = [] → Forall P tr.
Proof.
  intros HP. induction tr as [|e tr IH]; [constructor|]. rewrite os_ops_cons.
  destruct (ev_os e) eqn:E; [done|]. constructor; auto.
Qed.

Lemma confined_none ps e : ev_os e = None → confined ps e.
Proof. unfold confined. by intros ->. Qed.
Lemma only_mkdir_none e : ev_os e = None → only_mkdir e.
Proof. unfold only_mkdir. by intros ->. Qed.

Lemma Create_post {S} root id cap u (s : S) :
  wp (Image.Create root id cap u) s (λ r s' tr,
    s' = s ∧ Forall (confined [ImagePath root id]) tr ∧
    match r with
    | Ok m => VolumeID m = id ∧ (0 < cap)%Z ∧ (CapacityBytes m = AlignUp cap ∨ CapacityBytes m = cap)
    | Err _ => True
    end).
Proof.
  unfold Image.Create. destruct (validateVolumeID id) as [[]|e]; cbn; [|done]. case_bool_decide; cbn; [done|].
  assert (∀ o, op_path o = ImagePath root id → op_path o ∈ [ImagePath root id]) as Hop by (intros; set_solver).
  intros [i|e]; cbn.
  - repeat case_bool_decide; cbn; split_and!; try done; try lia; try (by repeat constructor); naive_solver.
  - destruct (is_NotExist e); cbn; [|split_and!; [done|by repeat constructor|done]].
    unfold truncateSparse, Mkfs. destruct u; wp_cases; split_and!; try done; try lia; try naive_solver lia.
    all: repeat constructor; try done.
Qed.

Lemma aligned_fixed r n :
  (GetRequiredBytes r ≤ int64_max)%Z → (GetLimitBytes r ≤ int64_max)%Z →
  alignedCapacity r = Ok n → (0 < n)%Z → AlignUp n = n.
Proof.
  intros Hq Hl. unfold alignedCapacity.
  set (want := if bool_decide (0 < GetRequiredBytes r)%Z then _ else _).
  assert (0 < want ≤ int64_max)%Z as Hw.
  { unfold want. change defaultCapacityBytes with 1073741824%Z. unfold int64_max in *.
    repeat case_bool_decide; lia. }
  clearbody want.
  assert (0 < AlignUp want → AlignUp (AlignUp want) = AlignUp want)%Z as Hup.
  { intros Hpos. destruct (Z.le_gt_cases want (int64_max - 4095)).
    - destruct (AlignUp_spec want) as (_ & ? & ?); [lia|]. apply AlignUp_aligned; [|done].
      unfold int64_max in *. zlia.
    - pose proof (AlignUp_overflow want). lia. }
  case_bool_decide as H1; cbn; [|intros [= <-]; done].
  case_bool_decide as H2; cbn; [|intros [= <-]; done].
  rewrite floor_block by (unfold int64_max in *; lia). case_match; [done|]. intros [= <-] Hn.
  apply AlignUp_aligned; [|by apply Z.mod_mul]. unfold int64_max in *. zlia.
Qed.

(** The answer CreateVolume owes a request. *)
Definition create_answer (root : string) (req : CreateVolumeRequest) (res : res Volume) (r' : Registry) (tr : trace) : Prop :=
  match res with
  | Err e => ∃ c m, e = ErrStatus c m ∧
      (c ∈ [InvalidArgument; OutOfRange; Internal] ∧ Forall only_mkdir tr ∨
       ∃ cfg id n u t1 t2 e', tr = t1 ++ t2 ∧ ConfigFromParams (cr_Parameters req) = Ok cfg ∧
         volumeIDFromName cfg (cr_Name req) = Ok id ∧ alignedCapacity (cr_Range req) = Ok n ∧
         Forall only_mkdir t1 ∧ exec (Image.Create (store_path root cfg) id n u) r' t2 (Err e') r' ∧
         c = match as_mismatch e' with Some _ => AlreadyExists | None => Internal end)
  | Ok v => ∃ cfg e f,
      ConfigFromParams (cr_Parameters req) = Ok cfg ∧ encryptedFromParams (cr_Parameters req) = Ok e ∧
      formatFromParams (cr_Parameters req) e = Ok f ∧ validateCapabilities (cr_Capabilities req) = Ok tt ∧
      volumeIDFromName cfg (cr_Name req) = Ok (vol_Id v) ∧
      alignedCapacity (cr_Range req) = Ok (vol_Capacity v) ∧ (0 < vol_Capacity v)%Z ∧
      (e = true → minEncryptedCapacity ≤ vol_Capacity v)%Z ∧
      vol_Context v = volume_context cfg e (cr_Parameters req) ∧
      configs r' !! StoreID cfg = Some cfg
  end.

(** The only image file touched is the volume's own, on its own store. *)
Definition create_confined (root : string) (req : CreateVolumeRequest) (tr : trace) : Prop :=
  ∀ cfg id, ConfigFromParams (cr_Parameters req) = Ok cfg → volumeIDFromName cfg (cr_Name req) = Ok id →
    Forall (confined [ImagePath (store_path root cfg) id]) tr.

Lemma create_err root req r c m tr :
  RegInv root r → c ∈ [InvalidArgument; OutOfRange; Internal] → Forall only_mkdir tr →
  RegInv root r ∧ create_answer root req (Err (ErrStatus c m)) r tr ∧ create_confined root req tr.
Proof.
  intros HI Hc Ht. split; [done|]. split; [exists c, m; eauto|]. intros cfg id _ _.
  eapply Forall_impl; [exact Ht|]. intros e. apply only_mkdir_confined.
Qed.

Lemma validate_cap_err c e : validate_cap c = Err e → ∃ m, e = ErrStatus InvalidArgument m.
Proof. unfold validate_cap. repeat case_match; naive_solver. Qed.
Lemma validateCapabilities_err caps e : validateCapabilities caps = Err e → ∃ m, e = ErrStatus InvalidArgument m.
Proof.
  unfold validateCapabilities. case_bool_decide; [naive_solver|]. clear. induction caps as [|c cs IH]; [done|].
  cbn. destruct (validate_cap c) eqn:E; [done|]. intros [= <-]. by eapply validate_cap_err.
Qed.
Lemma alignedCapacity_err r e : alignedCapacity r = Err e → ∃ m, e = ErrStatus OutOfRange m.
Proof. unfold alignedCapacity. repeat case_match; naive_solver. Qed.
Lemma volumeIDFromName_err cfg n e : volumeIDFromName cfg n = Err e → ∃ m, e = ErrStatus InvalidArgument m.
Proof. unfold volumeIDFromName. case_match; naive_solver. Qed.
Lemma create_status_code e :
  ∃ m, create_status e = ErrStatus (match as_mismatch e with Some _ => AlreadyExists | None => Internal end) m.
Proof. unfold create_status. case_match; eauto. Qed.

(** The part of CreateVolume after the store is mounted. *)
Lemma create_on_store root req cfg e f r t :
  RegInv root r → configs r !! StoreID cfg = Some cfg → Forall only_mkdir t →
  ConfigFromParams (cr_Parameters req) = Ok cfg → encryptedFromParams (cr_Parameters req) = Ok e →
  formatFromParams (cr_Parameters req) e = Ok f → validateCapabilities (cr_Capabilities req) = Ok tt →
  (GetRequiredBytes (cr_Range req) ≤ int64_max)%Z → (GetLimitBytes (cr_Range req) ≤ int64_max)%Z →
  wp (capacity <-? lift_res (alignedCapacity (cr_Range req)) ;;
      if e && bool_decide (capacity < minEncryptedCapacity)%Z
      then failS OutOfRange "encrypted volumes need at least 33554432 bytes" else
      volumeID <-? lift_res (volumeIDFromName cfg (cr_Name req)) ;;
      meta <-? wrap create_status (Image.Create (store_path root cfg) volumeID capacity e) ;;
      ok (mkVolume (VolumeID meta) (CapacityBytes meta) (volume_context cfg e (cr_Parameters req))
            (topologyForCfg cfg (cr_Topology req)))) r
    (λ res r' tr, RegInv root r' ∧ create_answer root req res r' (t ++ tr) ∧ create_confined root req (t ++ tr)).
Proof.
  intros HI Hcf Ht Hc Henc Hf Hv Hq Hl.
  destruct (alignedCapacity (cr_Range req)) as [n|er] eqn:En; cbn.
  2: { apply alignedCapacity_err in En as [m ->]. rewrite app_nil_r. apply create_err; [done|set_solver|done]. }
  destruct (e && bool_decide (n < minEncryptedCapacity)%Z) eqn:Emin; cbn.
  { rewrite app_nil_r. apply create_err; [done|set_solver|done]. }
  destruct (volumeIDFromName cfg (cr_Name req)) as [id|er] eqn:Eid; cbn.
  2: { apply volumeIDFromName_err in Eid as [m ->]. rewrite app_nil_r. apply create_err; [done|set_solver|done]. }
  apply wp_bind, wp_bind, wp_exec. intros tr res r' He.
  pose proof (proj1 (wp_exec _ _ _) (Create_post _ _ _ _ _) _ _ _ He) as (-> & Hconf & Hres). cbn.
  assert (create_confined root req (t ++ tr)) as Hcc.
  { intros cfg' id' Hc' Hid'. rewrite Hc in Hc'. injection Hc' as <-. rewrite Eid in Hid'. injection Hid' as <-.
    apply Forall_app. split; [|done]. eapply Forall_impl; [exact Ht|]. intros ev. apply only_mkdir_confined. }
  destruct res as [m|er]; cbn; rewrite !app_nil_r; (split; [done|]; split; [|done]).
  - destruct Hres as (Hid & Hpos & Hcap). rewrite (aligned_fixed _ _ Hq Hl En Hpos) in Hcap.
    assert (CapacityBytes m = n) as Hm by tauto.
    exists cfg, e, f. cbn. rewrite Hid, Hm. split_and!; try done.
    intros ->. cbn in Emin. apply bool_decide_eq_false in Emin. lia.
  - destruct (create_status_code er) as (m & ->). eexists _, m. split; [done|]. right.
    exists cfg, id, n, e, t, tr, er. by split_and!.
Qed.


Definition demo_request : CreateVolumeRequest :=
  mkCreate "pvc-1" [mkCap false (Some ("ext4", [])) SINGLE_NODE_WRITER] demo_params
    (Some (mkRange 5000 9000)) None.
(** Directories exist, images do not. *)
Definition empty_store : handler unit :=
  on_stat (λ p, if HasSuffix p ".img" then Err ErrNotExist else Ok (mkFinfo 0 true)) quiet.
Definition create_demo := run empty_store (CreateVolume demo_request) (NewRegistry "/stores" true true true) tt.


(** *** Resolving a volume ID *)

Lemma parse_err id e : parseStoreIDFromVolumeID id = Err e → ∃ m, e = ErrStatus NotFound m.
Proof. unfold parseStoreIDFromVolumeID. repeat case_match; naive_solver. Qed.

Lemma manager_post root id r :
  RegInv root r →
  wp (imageManagerForVolumeID id) r (λ res r' tr,
    RegInv root r' ∧ Forall only_mkdir tr ∧
    match res with
    | Ok m => ∃ sid cfg, parseStoreIDFromVolumeID id = Ok sid ∧ configs r !! sid = Some cfg ∧
                         StoreID cfg = sid ∧ m = store_path root cfg
    | Err e =>
        match parseStoreIDFromVolumeID id with
        | Err _ => status_code e = NotFound ∧ tr = []
        | Ok sid => (configs r !! sid = None → status_code e = NotFound) ∧
                    (plain_stats tr → is_Some (configs r !! sid) → status_code e ≠ NotFound)
        end
    end).
Proof.
  intros HI. unfold imageManagerForVolumeID, ConfigByStoreID, locked, with_lock.
  destruct (parseStoreIDFromVolumeID id) as [sid|e] eqn:Ep; cbn.
  2: { apply parse_err in Ep as [m ->]. split_and!; [done|constructor|done|done]. }
  intros [] []. destruct (configs r !! sid) as [cfg|] eqn:Ec; cbn.
  2: { split_and!; [done|by repeat constructor|done|]. intros _ [? [=]]. }
  pose proof (inv_configs _ _ HI _ _ Ec) as Hsid. cbn in Hsid.
  apply wp_bind, wp_bind, wp_exec. intros t1 res r1 H1.
  pose proof (proj2 (exec_stable _ _ _ _ _ _ _ H1 (stable_Get root cfg) HI)) as HI1.
  pose proof (Get_only_mkdir cfg _ _ _ _ H1) as Ht1. destruct res as [p|e]; cbn.
  2: { rewrite !app_nil_r. split_and!; try done. constructor; [done|]. constructor; [done|]. exact Ht1. }
  destruct (Get_ok _ _ _ _ _ _ H1 HI) as (-> & _ & _).
  eapply wp_mono; [|apply New_pure]. intros res r2 t2 (-> & Hn & Hp & Hs). cbn. rewrite app_nil_r.
  split; [done|]. split.
  { constructor; [done|]. constructor; [done|]. apply Forall_app. split; [done|].
    eapply no_os_forall; [|done]. apply only_mkdir_none. }
  destruct res as [m|e]; [exists sid, cfg; split_and!; try done; by apply Hp|].
  split; [done|]. intros Hpl _. apply (Hs e eq_refl).
  do 2 apply Forall_cons in Hpl as [_ Hpl]. by apply Forall_app in Hpl as [_ ?].
Qed.

Lemma wrap_Delete_post {S} root id (s : S) :
  wp (wrap (statusf Internal "delete volume: ") (Image.Delete root id)) s (λ res _ tr,
    Forall (confined [ImagePath root id; JoinPath [root; id +:+ ".json"]]) tr ∧
    (res = Ok tt → ∃ x, (Remove (ImagePath root id), x) ∈ os_ops tr ∧
                        match x with Ok _ => True | Err e => is_NotExist e = true end)).
Proof.
  apply wp_wrap. unfold Image.Delete. destruct (validateVolumeID id) as [[]|e]; cbn; [|done].
  intros [[]|e]; cbn; [|destruct (is_NotExist e) eqn:En; cbn].
  1,2: intros x; cbn; split; [repeat constructor; cbn; set_solver|]; intros _; eexists; split; [by left|done].
  split; [repeat constructor; cbn; set_solver|done].
Qed.

(** C23: DeleteVolume is idempotent and hits only its own image.  An ID that is
    not empty but that this driver cannot have issued, or whose store it does not know, succeeds
    without touching a file; otherwise the only files touched are the volume's
    image and its former sidecar on the store the ID names; and success on a
    known store means the image was removed or was not there, provided that no
    stat failed with a gRPC NotFound, which a file system does not answer. *)
Theorem DeleteVolume_correct root id r tr res r' :
  exec (DeleteVolume id) r tr res r' → RegInv root r → id ≠ "" →
  match parseStoreIDFromVolumeID id with
  | Err _ => res = Ok tt ∧ tr = []
  | Ok sid =>
      match configs r !! sid with
      | None => res = Ok tt ∧ Forall only_mkdir tr
      | Some cfg =>
          let img := ImagePath (store_path root cfg) id in
          StoreID cfg = sid ∧
          Forall (confined [img; JoinPath [store_path root cfg; id +:+ ".json"]]) tr ∧
          (res = Ok tt → plain_stats tr →
           ∃ x, (Remove img, x) ∈ os_ops tr ∧ match x with Ok _ => True | Err e => is_NotExist e = true end)
      end
  end.
Proof.
  intros He HI Hid. unfold DeleteVolume in He. rewrite bool_decide_false in He by done.
  apply exec_bind in He as (t1 & m & r1 & t2 & -> & H1 & He).
  apply (proj1 (wp_exec _ _ _) (manager_post root id r HI)) in H1 as (HI1 & Ht1 & Hm).
  assert (∀ ps, Forall (confined ps) t1) as Hc1.
  { intros ps. eapply Forall_impl; [exact Ht1|]. intros e. apply only_mkdir_confined. }
  destruct m as [m|e].
  - destruct Hm as (sid & cfg & -> & -> & Hsid & ->). cbn.
    apply (proj1 (wp_exec _ _ _) (wrap_Delete_post _ _ r1)) in He as [Hc2 Hok].
    split_and!; [done|by apply Forall_app|]. intros Hres _. destruct (Hok Hres) as (x & Hx & ?).
    exists x. split; [|done]. rewrite os_ops_app. set_solver.
  - destruct (parseStoreIDFromVolumeID id) as [sid|e'] eqn:Ep.
    + destruct Hm as [Hm1 Hm2]. destruct (configs r !! sid) as [cfg|] eqn:Ec.
      * pose proof (inv_configs _ _ HI _ _ Ec) as Hsid. cbn in Hsid.
        assert (t2 = []) as -> by (case_bool_decide; by destruct He as (? & _)). rewrite app_nil_r.
        split_and!; [done..|]. intros -> Hpl.
        exfalso. destruct (Hm2 Hpl ltac:(eauto)). case_bool_decide; [done|]. by destruct He as (_ & [=] & _).
      * rewrite bool_decide_true in He by auto. destruct He as (-> & -> & _). by rewrite app_nil_r.
    + destruct Hm as [Hm ->]. rewrite bool_decide_true in He by auto. by destruct He as (-> & -> & _).
Qed.

(** A volume of the store the first request mounted. *)
Definition demo_id : string := "fb-" +:+ StoreID demo_config +:+ "-pvc-1".
Definition delete_demo := run empty_store (DeleteVolume demo_id) first_get.1.1.2 tt.

Lemma DeleteVolume_correct_witness :
  delete_demo.1.1.1 = Ok tt ∧
  ∃ x, (Remove (ImagePath (store_path "/stores" demo_config) demo_id), x) ∈ os_ops delete_demo.2.
Proof.
  assert (delete_demo.1.1.1 = Ok tt) as Hok by (vm_compute; reflexivity). split; [exact Hok|].
  assert (plain_stats delete_demo.2) as Hpl by (vm_compute; repeat (constructor; [done|]); constructor).
  assert (parseStoreIDFromVolumeID demo_id = Ok (StoreID demo_config)) as Hpa by (vm_compute; reflexivity).
  assert (configs first_get.1.1.2 !! StoreID demo_config = Some demo_config) as Hcf by (vm_compute; reflexivity).
  destruct delete_demo as [[[res r'] x] tr] eqn:E. cbn [fst snd] in *.
  pose proof (DeleteVolume_correct "/stores" demo_id _ _ _ _ (exec_run _ _ _ _ _ _ _ _ E) first_get_inv) as H.
  rewrite Hpa, Hcf in H. destruct (H ltac:(done)) as (_ & _ & H3). destruct (H3 Hok Hpl) as (y & Hy & _). eauto.
Defined.

(** *** Expansion *)

Lemma Resize_post {S} root id cap (s : S) :
  wp (Image.Resize root id cap) s (λ res _ tr,
    (∀ o x, (o, x) ∈ os_ops tr → op_path o = ImagePath root id) ∧
    (∀ p n x, (Truncate p n, x) ∈ os_ops tr →
       n = AlignUp cap ∧ ∃ i, (ImagePath root id, Ok i) ∈ stats tr ∧ (fi_size i < n)%Z) ∧
    ∀ m, res = Ok m → CapacityBytes m = AlignUp cap ∧
      ∃ i, (ImagePath root id, Ok i) ∈ stats tr ∧
           (fi_size i = AlignUp cap ∨ (Truncate (ImagePath root id) (AlignUp cap), Ok tt) ∈ os_ops tr)).
Proof.
  unfold Image.Resize, Image.Get. destruct (validateVolumeID id) as [[]|e]; cbn; [|split_and!; set_solver].
  intros [i|e]; cbn; [|split_and!; set_solver].
  case_bool_decide; cbn; [split_and!; set_solver|].
  case_bool_decide as E; cbn.
  { split_and!; [set_solver..|]. intros m [= <-]. cbn. split; [done|]. exists i. split; [by left|auto]. }
  assert (fi_size i < AlignUp cap)%Z as Hlt by lia.
  wp_cases; split_and!; try (intros m [=]; fail).
  all: match goal with
       | |- ∀ _ : osop, _ => intros o x Ho; cbn in Ho; in_cases Ho; by simplify_eq
       | |- ∀ _ : string, _ => intros p n x Ho; cbn in Ho; in_cases Ho; simplify_eq;
                          (split; [done|]); exists i; (split; [by left|done])
       | u : () |- ∀ _ : Metadata, _ => intros m [= <-]; destruct a0; cbn; (split; [done|]); exists i; (split; [by left|right; set_solver])
       end.
Qed.

Lemma aligned_covers r n :
  (0 < GetRequiredBytes r ≤ int64_max - 4095)%Z → alignedCapacity r = Ok n → (GetRequiredBytes r ≤ n)%Z.
Proof.
  intros Hq. unfold alignedCapacity. rewrite (bool_decide_true (0 < GetRequiredBytes r)%Z) by lia.
  destruct (AlignUp_spec (GetRequiredBytes r)) as (_ & ? & _); [lia|].
  case_match; [case_match eqn:E; [done|]|]; intros [= <-]; [|lia].
  apply orb_false_iff in E as [_ E]. apply bool_decide_eq_false in E. lia.
Qed.

(** C25: ControllerExpandVolume grows the right image.  For bounds whose
    rounding does not overflow (at most int64 max - 4095): on success the answer
    is the capacity chosen for the requested range, and the image of that ID,
    on the store the ID names, has exactly that size: it already had, or this
    call extended it.  Whatever the answer, a truncation is of that image, to
    that capacity, and that is more than the image had. *)
Theorem ControllerExpandVolume_correct root id rg r tr res r' :
  exec (ControllerExpandVolume id rg) r tr res r' → RegInv root r →
  (GetRequiredBytes rg ≤ int64_max - 4095)%Z → (GetLimitBytes rg ≤ int64_max - 4095)%Z →
  (∀ n, res = Ok n → alignedCapacity rg = Ok n ∧ (GetRequiredBytes rg ≤ n)%Z ∧
     ∃ cfg i, configs r !! StoreID cfg = Some cfg ∧ parseStoreIDFromVolumeID id = Ok (StoreID cfg) ∧
       let img := ImagePath (store_path root cfg) id in
       (img, Ok i) ∈ stats tr ∧ (fi_size i = n ∨ (Truncate img n, Ok tt) ∈ os_ops tr)) ∧
  (∀ p n x, (Truncate p n, x) ∈ os_ops tr → alignedCapacity rg = Ok n ∧
     ∃ cfg i, parseStoreIDFromVolumeID id = Ok (StoreID cfg) ∧ p = ImagePath (store_path root cfg) id ∧
              (p, Ok i) ∈ stats tr ∧ (fi_size i < n)%Z).
Proof.
  intros He HI Hq Hl. unfold ControllerExpandVolume in He.
  assert (∀ t, Forall only_mkdir t → ∀ p n x, (Truncate p n, x) ∈ os_ops t → False) as Hmk.
  { intros t Ht p n x (e & Hin & Hev)%list_elem_of_omap. rewrite Forall_forall in Ht. specialize (Ht e Hin).
    unfold only_mkdir in Ht. by rewrite Hev in Ht. }
  case_bool_decide; [destruct He as (-> & -> & _); split; [done|set_solver]|].
  case_bool_decide; [destruct He as (-> & -> & _); split; [done|set_solver]|].
  destruct (alignedCapacity rg) as [size|e] eqn:Ea; cbn in He; [|destruct He as (-> & -> & _); split; [done|set_solver]].
  assert (GetRequiredBytes rg ≤ size)%Z as Hcov by (apply aligned_covers; [lia|done]).
  assert (AlignUp size = size) as Hfix by (eapply (aligned_fixed rg); [..|exact Ea|]; lia).
  apply exec_bind in He as (t1 & m & r1 & t2 & -> & H1 & He).
  apply (proj1 (wp_exec _ _ _) (manager_post root id r HI)) in H1 as (HI1 & Ht1 & Hm).
  destruct m as [m|e]; [|destruct He as (-> & -> & _); rewrite app_nil_r; split; [done|intros; exfalso; eauto]].
  destruct Hm as (sid & cfg & Hpa & Hcf & <- & ->).
  apply exec_bind in He as (t3 & meta & r3 & t4 & -> & H3 & He).
  apply exec_bind in H3 as (ta & meta0 & ra & tb & -> & H3 & (-> & -> & ->)). rewrite app_nil_r.
  apply (proj1 (wp_exec _ _ _) (Resize_post (store_path root cfg) id size r1)) in H3 as (Hop & Htr & Hok).
  rewrite Hfix in *.
  assert (t4 = []) as -> by (destruct meta0; by destruct He as (? & _)). rewrite app_nil_r. split.
  - intros n ->. destruct meta0 as [mm|e]; cbn in He; [|by destruct He as (_ & [=] & _)].
    destruct He as (_ & [= ->] & _). destruct (Hok mm eq_refl) as (-> & i & Hi & Hsz).
    split_and!; try done. exists cfg, i. rewrite stats_app, os_ops_app. set_solver.
  - intros p n x. rewrite stats_app, os_ops_app. intros [Hin|Hin]%elem_of_app; [exfalso; eauto|].
    destruct (Htr p n x Hin) as (-> & i & Hi & Hlt). split; [done|].
    pose proof (Hop _ _ Hin) as Hp. cbn in Hp. subst p. exists cfg, i. set_solver.
Qed.

Definition expand_demo :=
  run (on_stat (λ p, if HasSuffix p ".img" then Ok (mkFinfo 4096 false) else Ok (mkFinfo 0 true)) quiet)
    (ControllerExpandVolume demo_id (Some (mkRange 5000 0))) first_get.1.1.2 tt.

Lemma ControllerExpandVolume_correct_witness :
  expand_demo.1.1.1 = Ok 8192%Z ∧
  ∃ cfg i, configs first_get.1.1.2 !! StoreID cfg = Some cfg ∧
    (ImagePath (store_path "/stores" cfg) demo_id, Ok i) ∈ stats expand_demo.2.
Proof.
  assert (expand_demo.1.1.1 = Ok 8192%Z) as Hok by (vm_compute; reflexivity). split; [exact Hok|].
  destruct expand_demo as [[[res r'] x] tr] eqn:E. cbn [fst snd] in *.
  destruct (ControllerExpandVolume_correct "/stores" demo_id _ _ _ _ _ (exec_run _ _ _ _ _ _ _ _ E) first_get_inv)
    as [H _]; [cbn; unfold int64_max; lia..|].
  destruct (H _ Hok) as (_ & _ & cfg & i & H1 & _ & H2 & _). eauto.
Defined.
