(* ===== verification/Server.v ===== *)
(** The gRPC server and the identity service: pkg/driver/server.go and
    identity.go, and the controller's main, cmd/controller/main.go.

    Serving requests is the gRPC library's; what is modelled is the endpoint,
    the socket and which services are registered.  [net/url.Parse] is an
    argument: nothing is assumed of it. *)

From Stdlib Require Import ZArith Lia Ascii.
From stdpp Require Import base option gmap strings list.
From S2P Require Import Prelude GoStrings Effects Registry Flag Encryption.

Import strings.
Local Open Scope prog_scope.

(** The fields of [url.URL] the driver reads. *)
Record URL := mkURL { url_Scheme : string; url_Host : string; url_Path : string }.

(** src/pkg/driver/server.go:92-112 (parseEndpoint) *)
Definition parseEndpoint (Parse : string → res URL) (ep : string) : res (string * string) :=
  if HasPrefix ep "/" then Ok ("unix", ep) else
  match Parse ep with
  | Err e => Err e
  | Ok u =>
      if bool_decide (url_Scheme u = "unix") then
        let path := url_Path u in
        Ok ("unix", if bool_decide (path = "") then url_Host u +:+ url_Path u else path)
      else if bool_decide (url_Scheme u = "tcp") then Ok ("tcp", url_Host u)
      else Err (ErrMsg "unsupported endpoint scheme: ")
  end.

(** src/pkg/driver/server.go:18-42 (Server, NewServer): which services it was
    given *)
Record Server := mkServer { sv_endpoint : string; sv_identity : bool; sv_controller : bool; sv_node : bool }.

(** src/pkg/driver/server.go:59-68 (Server.Serve, the registrations) *)
Definition services (s : Server) : list string :=
  (if sv_identity s then ["csi.v1.Identity"] else []) ++
  (if sv_controller s then ["csi.v1.Controller"] else []) ++
  (if sv_node s then ["csi.v1.Node"] else []).

(** src/pkg/driver/server.go:44-80 (Server.Serve) *)
Definition Serve {S} (Parse : string → res URL) (s : Server) : prog S (res unit) :=
  ep <-? lift_res (parseEndpoint Parse (sv_endpoint s)) ;;
  (when bool_decide (fst ep = "unix") then (sys (OsOp (Remove (snd ep))) ;; Ret tt)) ;;
  wrap (Errorf "listen ") (sys (Listen (fst ep) (snd ep))) ;;?
  r <- sys (GrpcServe (services s)) ;;
  match r with
  | None => ok tt
  | Some err => lift_res err
  end.

(** src/pkg/driver/identity.go:10-15 (DriverName, Version) *)
Definition DriverName : string := "fileblock.csi".
Definition Version : string := "0.1.0".
(** src/pkg/driver/identity.go:26-31 (IdentityServer.GetPluginInfo): the name
    and the vendor's version *)
Definition GetPluginInfo : string * string := (DriverName, Version).
(** src/pkg/driver/identity.go:33-52 (IdentityServer.GetPluginCapabilities) *)
Inductive PluginCapability := CONTROLLER_SERVICE | VOLUME_ACCESSIBILITY_CONSTRAINTS | VolumeExpansion_OFFLINE.
(** src/pkg/driver/identity.go:33-52 (IdentityServer.GetPluginCapabilities) *)
Definition GetPluginCapabilities : list PluginCapability :=
  [CONTROLLER_SERVICE; VOLUME_ACCESSIBILITY_CONSTRAINTS; VolumeExpansion_OFFLINE].
(** src/pkg/driver/identity.go:54-59 (IdentityServer.Probe): ready *)
Definition Probe : bool := true.

(** src/cmd/controller/main.go:27-48 (main, once the flags are read): the exit
    code, over the memory of the new registry *)
Definition serve_controller (Parse : string → res URL) (endpoint : string) : prog Registry Z :=
  root <- gets reg_root ;;
  r <- sys (OsOp (MkdirAll root)) ;;
  match r with
  | Err _ => Ret 2%Z
  | Ok _ =>
      AdoptExisting ;;
      served <- Serve Parse (mkServer endpoint true true false) ;;
      Ret (match served with Err _ => 1%Z | Ok _ => 0%Z end)
  end.

(** ** Log levels *)

(** What [strings.ToUpper] makes of a string that it maps to ASCII: besides the
    lower-case letters, the dotless i and the long s have capitals there. *)
Fixpoint upper_ascii (s : string) : string :=
  match s with
  | String "196" (String "177" s) => String "I" (upper_ascii s)
  | String "197" (String "191" s) => String "S" (upper_ascii s)
  | String c s =>
      let n := nat_of_ascii c in
      String (if bool_decide (97 ≤ n) && bool_decide (n ≤ 122) then ascii_of_nat (n - 32) else c) (upper_ascii s)
  | "" => ""
  end.
(** The part before the first plus or minus sign, and the rest. *)
Fixpoint cut_sign (s : string) : string * string :=
  match s with
  | "" => ("", "")
  | String c s' => if bool_decide (c = "+"%char) || bool_decide (c = "-"%char) then ("", s)
                   else let '(a, b) := cut_sign s' in (String c a, b)
  end.
(** [slog.Level.UnmarshalText]: a name and an offset, like WARN-1. *)
Definition parse_level (text : string) : option Z :=
  let '(name, rest) := cut_sign text in
  offset ← (if bool_decide (rest = "") then Some 0%Z else Atoi rest);
  base ← (let u := upper_ascii name in
          if bool_decide (u = "DEBUG") then Some (-4)%Z
          else if bool_decide (u = "INFO") then Some 0%Z
          else if bool_decide (u = "WARN") then Some 4%Z
          else if bool_decide (u = "ERROR") then Some 8%Z else None);
  Some (go_add base offset).

(** src/cmd/controller/main.go:51-57 (newLogger): the level of the logger *)
Definition newLogger (level : string) : Z := default 0%Z (parse_level level).

Example newLogger_levels :
  map newLogger ["debug"; "info"; "Warn"; "ERROR"; "warn-1"; "error+2"; ""; "verbose"; "info+"] = [-4; 0; 4; 8; 3; 10; 0; 0; 0]%Z.
Proof. vm_compute. reflexivity. Qed.

(** src/cmd/controller/main.go:20-22 (main, the flags) *)
Record ControllerFlags := mkControllerFlags { cf_endpoint : string; cf_storesRoot : string; cf_logLevel : string }.
(** src/cmd/controller/main.go:20-22 (main, the flags) *)
Definition controller_flags : list (flag ControllerFlags) :=
  [mkFlag "endpoint" false (λ x f, Ok (mkControllerFlags x (cf_storesRoot f) (cf_logLevel f)));
   mkFlag "stores-root" false (λ x f, Ok (mkControllerFlags (cf_endpoint f) x (cf_logLevel f)));
   mkFlag "log-level" false (λ x f, Ok (mkControllerFlags (cf_endpoint f) (cf_storesRoot f) x))].
(** src/cmd/controller/main.go:19-49 (main): the exit code *)
Definition controller_main (ParseURL : string → res URL) (args : list string) : prog unit Z :=
  match Parse controller_flags args (mkControllerFlags "unix:///csi/csi.sock" "/var/lib/fileblock/stores" "info") with
  | Exits code => Ret code
  | Parsed _ f =>
      r <- local (NewRegistry (cf_storesRoot f) true true true) (serve_controller ParseURL (cf_endpoint f)) ;;
      Ret (fst r)
  end.

(** ** The socket *)

(** A server listens once at most, on the endpoint it was given; the one file
    it removes is the socket of a unix endpoint, before it listens there; it
    serves exactly the services it has. *)
Theorem Serve_spec {S} Parse sv (s : S) tr r s' :
  exec (Serve Parse sv) s tr r s' →
  s' = s ∧
  match parseEndpoint Parse (sv_endpoint sv) with
  | Err e => r = Err e ∧ tr = []
  | Ok (net, addr) =>
      ∃ socket (listened : res unit),
        (net = "unix" ∧ (∃ x, socket = [Ev (OsOp (Remove addr)) x]) ∨ net ≠ "unix" ∧ socket = []) ∧
        match listened with
        | Err e => tr = socket ++ [Ev (Listen net addr) (Err e)] ∧ r = Err (Errorf "listen " e)
        | Ok _ => ∃ x, tr = socket ++ [Ev (Listen net addr) (Ok tt); Ev (GrpcServe (services sv)) x] ∧ r = default (Ok tt) x
        end
  end.
Proof.
  unfold Serve, lift_res. destruct (parseEndpoint Parse (sv_endpoint sv)) as [[net addr]|e].
  2: { intros (-> & -> & ->). done. }
  unfold bindE at 1. cbn [bind fst snd]. intros (t1 & [] & s1 & t2 & -> & H1 & H2)%exec_bind.
  assert (s1 = s ∧ (net = "unix" ∧ (∃ x, t1 = [Ev (OsOp (Remove addr)) x]) ∨ net ≠ "unix" ∧ t1 = [])) as [-> Ht].
  { case_bool_decide as Hn; [|destruct H1 as (-> & _ & ->); split; [done|right; split; [exact Hn|done]]].
    destruct H1 as (x & t & -> & -> & _ & ->). split; [done|left]. split; [done|by exists x]. }
  destruct H2 as (l & t3 & -> & H2). cbn [bind wrap map_err] in H2. destruct l as [[]|e].
  - destruct H2 as (x & t4 & -> & H2). cbn [bind] in H2. split; [by destruct x as [[]|]; destruct H2 as (_ & _ & ->)|].
    exists t1, (Ok tt). split; [done|]. exists x. destruct x as [y|]; by destruct H2 as (-> & -> & _).
  - destruct H2 as (-> & -> & ->). split; [done|]. exists t1, (Err e). done.
Qed.
