(* ===== verification/Monitor.v ===== *)
(** Failed volumes: pkg/driver/failures.go, pkg/driver/monitor.go and the pod
    types of pkg/kube/types.go.

    The monitor reads the node's mount table, marks the staged volumes whose
    ext4 forced itself read-only and deletes the pods that use them.  The
    theorems: what a tick finds is what it marks; it deletes only pods that
    may be deleted and does no other I/O; deletions for one volume keep the
    hold-off between them whatever else runs in the process. *)

From Stdlib Require Import ZArith Lia Ascii.
From stdpp Require Import base option gmap strings list.
From S2P Require Import Prelude GoStrings Effects Json Crypt Mount Loop.

Import strings.
Local Open Scope prog_scope.

(** Times are nanoseconds since the Unix epoch; [time.Time{}] is the first
    instant of year 1. *)
Definition zeroTime : Z := -62135596800000000000.

(** src/pkg/driver/monitor.go:16-16 (MonitorInterval) *)
Definition MonitorInterval : Z := 10 * 1000000000.
(** src/pkg/driver/monitor.go:17-17 (RemediationHold) *)
Definition RemediationHold : Z := 5 * 60 * 1000000000.
(** src/pkg/driver/monitor.go:18-18 (EventReasonVolumeFailed) *)
Definition EventReasonVolumeFailed : string := "FileblockVolumeFailed".

(** ** The failure tracker *)

(** src/pkg/driver/failures.go:11-15 (failures) *)
Record failures := mkFailures { failed : gmap string Z; held : gmap string Z }.
(** src/pkg/driver/failures.go:17-19 (newFailures) *)
Definition newFailures : failures := mkFailures ∅ ∅.

Definition failures_mu : string := "failures.mu".

(** src/pkg/driver/failures.go:22-30 (failures.Mark) *)
Definition Mark (volumeID : string) (t : Z) : prog failures bool :=
  with_lock failures_mu (Upd (λ f,
    match failed f !! volumeID with
    | Some _ => (false, f)
    | None => (true, mkFailures (<[volumeID := t]> (failed f)) (held f))
    end) Ret).
(** src/pkg/driver/failures.go:32-37 (failures.Get) *)
Definition GetFailed (volumeID : string) : prog failures (option Z) :=
  with_lock failures_mu (gets (λ f, failed f !! volumeID)).
(** src/pkg/driver/failures.go:39-43 (failures.Clear) *)
Definition Clear (volumeID : string) : prog failures unit :=
  with_lock failures_mu (modify (λ f, mkFailures (delete volumeID (failed f)) (held f))).
(** src/pkg/driver/failures.go:47-51 (failures.HeldUntil): the zero time when
    there is no hold. *)
Definition HeldUntil (volumeID : string) : prog failures Z :=
  with_lock failures_mu (gets (λ f, default zeroTime (held f !! volumeID))).
(** src/pkg/driver/failures.go:53-57 (failures.Hold) *)
Definition Hold (volumeID : string) (until : Z) : prog failures unit :=
  with_lock failures_mu (modify (λ f, mkFailures (failed f) (<[volumeID := until]> (held f)))).

(** ** Pods *)

(** src/pkg/kube/types.go:29-36 (Pod.ControllerOwner) *)
Definition ControllerOwner (p : Pod) : option OwnerReference :=
  List.find (λ o, bool_decide (own_Controller o = Some true)) (pod_OwnerReferences p).

(** src/pkg/driver/monitor.go:178-188 (skipReason) *)
Definition skipReason (p : Pod) (failedAt : Z) : string :=
  match ControllerOwner p with
  | None => "no controller would recreate it"
  | Some _ =>
      match pod_DeletionTimestamp p with
      | Some _ => "already terminating"
      | None =>
          match pod_StartTime p with
          | None => "started after the volume failed"
          | Some t => if bool_decide (t < failedAt)%Z then "" else "started after the volume failed"
          end
      end
  end.

(** ** The monitor *)

(** src/pkg/driver/monitor.go:26-40 (Monitor, the fields that do not change);
    [mon_Kube] says whether there is a Kubernetes client. *)
Record Monitor := mkMonitor { mon_Node : string; mon_Kube : bool; mon_AutoDelete : bool }.

(** src/pkg/driver/monitor.go:26-40 (Monitor, the memory): the state table and
    the failure tracker shared with the node server, and the volumes and
    volume/pod pairs already reported.  A nil map is the empty set. *)
Record MonMem := mkMonMem {
  mm_state : State; mm_failures : failures;
  mm_offLogged : gset string; mm_eventSent : gset string; mm_skipEvented : gset string }.

Definition state_l : lens State MonMem :=
  mkLens mm_state (λ x s, mkMonMem x (mm_failures s) (mm_offLogged s) (mm_eventSent s) (mm_skipEvented s)).
Definition fail_l : lens failures MonMem :=
  mkLens mm_failures (λ x s, mkMonMem (mm_state s) x (mm_offLogged s) (mm_eventSent s) (mm_skipEvented s)).
#[export] Instance state_l_ok : LensOk state_l.
Proof. split; [done..|by intros []]. Qed.
#[export] Instance fail_l_ok : LensOk fail_l.
Proof. split; [done..|by intros []]. Qed.

(** src/pkg/driver/monitor.go:42-50 (Monitor.forget) *)
Definition forget (volumeID : string) : prog MonMem unit :=
  modify (λ s, mkMonMem (mm_state s) (mm_failures s)
    (mm_offLogged s ∖ {[volumeID]}) (mm_eventSent s ∖ {[volumeID]})
    (filter (λ k, HasPrefix k (volumeID +:+ "/") = false) (mm_skipEvented s))).

Definition add_event (id : string) : prog MonMem unit :=
  modify (λ s, mkMonMem (mm_state s) (mm_failures s) (mm_offLogged s) ({[id]} ∪ mm_eventSent s) (mm_skipEvented s)).
Definition add_off (id : string) : prog MonMem unit :=
  modify (λ s, mkMonMem (mm_state s) (mm_failures s) ({[id]} ∪ mm_offLogged s) (mm_eventSent s) (mm_skipEvented s)).
Definition add_skip (k : string) : prog MonMem unit :=
  modify (λ s, mkMonMem (mm_state s) (mm_failures s) (mm_offLogged s) (mm_eventSent s) ({[k]} ∪ mm_skipEvented s)).

(** src/pkg/driver/monitor.go:190-194 (Monitor.event): a failed event is only
    logged. *)
Definition send_event (p : Pod) (msg : string) : prog MonMem unit :=
  sys (PodEvent p EventReasonVolumeFailed msg) ;; Ret tt.

(** src/pkg/driver/monitor.go:125-128 (Monitor.handleFailed, byUID) *)
Definition by_uid (pods : list Pod) : gmap string Pod :=
  list_to_map (reverse (map (λ p, (pod_UID p, p)) pods)).
(** src/pkg/driver/monitor.go:129-134 (Monitor.handleFailed, users) *)
Definition volume_users (targets : list PublishTarget) (pods : list Pod) : list Pod :=
  omap (λ t, by_uid pods !! PodUID t) targets.

(** src/pkg/driver/monitor.go:155-171 (Monitor.handleFailed, the deletions) *)
Fixpoint remediate (id : string) (failedAt : Z) (users : list Pod) (attempted : bool) : prog MonMem bool :=
  match users with
  | [] => Ret attempted
  | p :: users =>
      if negb (bool_decide (skipReason p failedAt = "")) then
        let key := id +:+ "/" +:+ pod_UID p in
        known <- gets (λ s, bool_decide (key ∈ mm_skipEvented s)) ;;
        (when negb known then
           (add_skip key ;;
            send_event p ("fileblock volume " +:+ id +:+
              " failed but this pod was not deleted automatically: " +:+ skipReason p failedAt))) ;;
        remediate id failedAt users attempted
      else
        sys (DeletePod (pod_Namespace p) (pod_Name p) (pod_UID p)) ;;
        remediate id failedAt users true
  end.

(** src/pkg/driver/monitor.go:152-174 (Monitor.handleFailed, once the pods are
    listed) *)
Definition delete_users (id : string) (now : Z) (failedAt : option Z) (users : list Pod) : prog MonMem unit :=
  h <- zoom fail_l (HeldUntil id) ;;
  if bool_decide (now < h)%Z then Ret tt else
  attempted <- remediate id (default zeroTime failedAt) users false ;;
  when attempted then zoom fail_l (Hold id (now + RemediationHold)%Z).

(** src/pkg/driver/monitor.go:119-174 (Monitor.handleFailed, from the listing
    of the pods): [sent] says that the first-failure events were sent. *)
Definition with_pods (m : Monitor) (id : string) (now : Z) (failedAt : option Z)
    (targets : list PublishTarget) (sent : bool) : prog MonMem unit :=
  pods <- sys (ListPodsOnNode (mon_Node m)) ;;
  match pods with
  | Err _ => Ret tt
  | Ok pods =>
      let users := volume_users targets pods in
      (when negb sent then
         (add_event id ;;
          for_all users (λ p, send_event p ("fileblock volume " +:+ id +:+
            " was forced read-only by ext4 (backing-store I/O error); it must be re-staged")))) ;;
      if negb (mon_AutoDelete m) then add_off id else delete_users id now failedAt users
  end.

(** src/pkg/driver/monitor.go:109-174 (Monitor.handleFailed, once the volume is
    marked): [targets] are the volume's publish targets. *)
Definition handle_marked (m : Monitor) (id : string) (now : Z) (failedAt : option Z)
    (targets : list PublishTarget) : prog MonMem unit :=
  if negb (mon_Kube m) then Ret tt else
  sent <- gets (λ s, bool_decide (id ∈ mm_eventSent s)) ;;
  needPods <- (if negb sent then Ret true else
               if mon_AutoDelete m
               then h <- zoom fail_l (HeldUntil id) ;; Ret (negb (bool_decide (now < h)%Z))
               else Ret false) ;;
  if negb needPods then Ret tt else with_pods m id now failedAt targets sent.

(** src/pkg/driver/monitor.go:100-175 (Monitor.handleFailed) *)
Definition handleFailed (m : Monitor) (vol : Mapping) (e : MountInfo) (entries : list MountInfo)
  : prog MonMem unit :=
  let id := m_VolumeID vol in
  now <- sys Now ;;
  isNew <- zoom fail_l (Mark id now) ;;
  failedAt <- zoom fail_l (GetFailed id) ;;
  (when isNew then forget id) ;;
  handle_marked m id now failedAt (PublishTargets entries (MajorMinor e)).

(** src/pkg/driver/monitor.go:85-97 (Monitor.Tick, one staged volume) *)
Definition tick_volume (m : Monitor) (entries : list MountInfo) (vol : Mapping) : prog MonMem unit :=
  match LastAt entries (m_StagePath vol) with
  | Some e =>
      if ForcedReadOnly e then handleFailed m vol e entries
      else zoom fail_l (Clear (m_VolumeID vol)) ;; forget (m_VolumeID vol)
  | None => forget (m_VolumeID vol)
  end.

(** src/pkg/driver/monitor.go:70-98 (Monitor.Tick), with the functions the
    plugin gives it: the process' mountinfo and the clock. *)
Definition Tick (m : Monitor) : prog MonMem unit :=
  entries <- ReadMountInfo "/proc/self/mountinfo" ;;
  match entries with
  | Err _ => Ret tt
  | Ok entries =>
      vols <- zoom state_l All ;;
      for_all vols (tick_volume m entries)
  end.

(** src/pkg/driver/monitor.go:56-67 (Monitor.Run) for at most [n] ticks; the
    select takes the ticker or ends the loop. *)
Fixpoint RunMonitor (m : Monitor) (n : nat) : prog MonMem unit :=
  match n with
  | 0 => Ret tt
  | S n => Tick m ;;
           tick <- sys (TimerFirst "monitor") ;;
           if tick then RunMonitor m n else Ret tt
  end.

(** ** Reading the monitor's traces *)

Definition ev_delete (e : event) : option (string * string * string) :=
  match e with
  | Ev c _ => match c with DeletePod ns n u => Some (ns, n, u) | _ => None end
  end.
Definition pod_id (p : Pod) : string * string * string := (pod_Namespace p, pod_Name p, pod_UID p).
(** The pods a trace asks to delete: namespace, name and uid. *)
Definition deletes (tr : trace) : list (string * string * string) := omap ev_delete tr.

Lemma deletes_app t1 t2 : deletes (t1 ++ t2) = deletes t1 ++ deletes t2.
Proof. apply omap_app. Qed.
Lemma deletes_cons e tr : deletes (e :: tr) = match ev_delete e with Some x => x :: deletes tr | None => deletes tr end.
Proof. done. Qed.
#[local] Arguments deletes : simpl never.
Lemma deletes_nil : deletes [] = [].
Proof. done. Qed.
Create Rewrite HintDb mon.
#[export] Hint Rewrite deletes_app deletes_cons deletes_nil : mon.
Ltac mon_simpl := autorewrite with mon; cbn [ev_delete app].

(** The calls the monitor makes: no file but the process' mount table, no
    command. *)
Definition tick_call (e : event) : Prop :=
  match e with
  | Ev c _ =>
      match c with
      | ReadFile p => p = "/proc/self/mountinfo"
      | Now | RangeOrder _ | LockMu _ | UnlockMu _ => True
      | ListPodsOnNode _ | DeletePod _ _ _ | PodEvent _ _ _ => True
      | _ => False
      end
  end.

(** A loop without errors: an invariant of the items done, the memory and the
    trace so far. *)
Lemma wp_for_all {S A} (l : list A) (f : A → prog S unit) (I : list A → S → trace → Prop) :
  (∀ l1 x s tr0, x ∈ l → I l1 s tr0 → wp (f x) s (λ _ s' tr, I (l1 ++ [x]) s' (tr0 ++ tr))) →
  ∀ l1 s tr0, I l1 s tr0 → wp (for_all l f) s (λ _ s' tr, I (l1 ++ l) s' (tr0 ++ tr)).
Proof.
  induction l as [|x l IH]; intros Hf l1 s tr0 HI; cbn [for_all].
  - cbn. by rewrite !app_nil_r.
  - apply wp_bind. eapply wp_mono; [|apply Hf; [left|exact HI]]. intros ? s1 t1 H1.
    eapply wp_mono; [|apply IH; [|exact H1]]; [|intros; apply Hf; [by right|done]].
    intros ? s2 t2. by rewrite <- !app_assoc.
Qed.

(** Events only add to the report memory. *)
Definition same_shared (s s' : MonMem) : Prop :=
  mm_state s' = mm_state s ∧ mm_failures s' = mm_failures s.

Definition deletable (failedAt : Z) (p : Pod) : bool := bool_decide (skipReason p failedAt = "").

Lemma remediate_spec id failedAt users att s :
  wp (remediate id failedAt users att) s (λ r s' tr,
    same_shared s s' ∧
    deletes tr = map pod_id (List.filter (deletable failedAt) users) ∧
    r = att || negb (bool_decide (deletes tr = []))).
Proof.
  revert att s. induction users as [|p users IH]; intros att s; cbn [remediate].
  - cbn. by rewrite orb_false_r.
  - cbn [List.filter]. unfold deletable at 1. case_bool_decide as Hd; cbn [negb].
    + cbn. intros r. eapply wp_mono; [|apply IH]. cbn. intros b s' tr (Hs & Ht & ->). mon_simpl.
      rewrite Ht. split_and!; [done..|]. by rewrite orb_true_r.
    + cbn. case_bool_decide; cbn.
      * apply IH.
      * intros r. eapply wp_mono; [|apply IH]. cbn. intros b s' tr (Hs & Ht & ->). mon_simpl. done.
Qed.

Lemma remediate_calls id failedAt users att : emits tick_call (remediate id failedAt users att).
Proof.
  revert att. induction users as [|p users IH]; intros att; cbn [remediate]; [apply emits_ret|].
  unfold add_skip, send_event. solve_emits; try done; apply IH.
Qed.
#[local] Hint Resolve remediate_calls : emits.

Lemma send_events_spec msg users s :
  wp (for_all users (λ p, send_event p msg)) s (λ _ s' tr, s' = s ∧ deletes tr = []).
Proof.
  apply (wp_for_all users (λ p, send_event p msg) (λ _ s' tr, s' = s ∧ deletes tr = []) ) with (l1 := []) (tr0 := []).
  - intros l1 x s1 tr0 _ [-> Ht]. cbn. intros r. mon_simpl. by rewrite Ht.
  - done.
Qed.

(** The tracker after a volume was found failed at [now]. *)
Definition marked (id : string) (now : Z) (f : failures) : gmap string Z :=
  match failed f !! id with Some _ => failed f | None => <[id := now]> (failed f) end.

(** What one round of a failed volume deletes: the pods of [pods] that publish
    the volume and may be deleted; none without a client, without automatic
    deletion or during the hold-off. *)
Definition round_post (m : Monitor) (vol : Mapping) (e : MountInfo) (entries : list MountInfo)
    (s s' : MonMem) (now : Z) (tr : trace) : Prop :=
  let id := m_VolumeID vol in
  let f := mm_failures s in let f' := mm_failures s' in
  mm_state s' = mm_state s ∧ failed f' = marked id now f ∧
  (deletes tr = [] ∧ held f' = held f ∨
   deletes tr ≠ [] ∧ held f' = <[id := now + RemediationHold]> (held f) ∧
   mon_Kube m = true ∧ mon_AutoDelete m = true ∧ default zeroTime (held f !! id) ≤ now ∧
   ∃ pods, Ev (ListPodsOnNode (mon_Node m)) (Ok pods) ∈ tr ∧
     deletes tr = map pod_id (List.filter (deletable (default zeroTime (marked id now f !! id)))
                                (volume_users (PublishTargets entries (MajorMinor e)) pods)))%Z.

#[local] Arguments remediate : simpl never.
#[local] Arguments delete_users : simpl never.
#[local] Arguments with_pods : simpl never.
#[local] Arguments handle_marked : simpl never.
#[local] Arguments volume_users : simpl never.
#[local] Arguments PublishTargets : simpl never.

(** The same for the part of a round after the mark, whose failure time is
    [failedAt]: what it may do to the memory and the pods. *)
Definition acted (m : Monitor) (id : string) (now : Z) (failedAt : option Z) (targets : list PublishTarget)
    (s s' : MonMem) (tr : trace) : Prop :=
  let f := mm_failures s in let f' := mm_failures s' in
  mm_state s' = mm_state s ∧ failed f' = failed f ∧
  (deletes tr = [] ∧ held f' = held f ∨
   deletes tr ≠ [] ∧ held f' = <[id := now + RemediationHold]> (held f) ∧
   mon_Kube m = true ∧ mon_AutoDelete m = true ∧ default zeroTime (held f !! id) ≤ now ∧
   ∃ pods, Ev (ListPodsOnNode (mon_Node m)) (Ok pods) ∈ tr ∧
     deletes tr = map pod_id (List.filter (deletable (default zeroTime failedAt)) (volume_users targets pods)))%Z.

Lemma delete_users_spec id now failedAt users s :
  wp (delete_users id now failedAt users) s (λ _ s' tr,
    mm_state s' = mm_state s ∧ failed (mm_failures s') = failed (mm_failures s) ∧
    (deletes tr = [] ∧ held (mm_failures s') = held (mm_failures s) ∨
     deletes tr ≠ [] ∧ held (mm_failures s') = <[id := now + RemediationHold]> (held (mm_failures s)) ∧
     default zeroTime (held (mm_failures s) !! id) ≤ now ∧
     deletes tr = map pod_id (List.filter (deletable (default zeroTime failedAt)) users)))%Z.
Proof.
  unfold delete_users. cbn. intros [] []. case_bool_decide as Hh; cbn.
  { mon_simpl. auto. }
  rewrite wp_bind. eapply wp_mono; [|apply remediate_spec].
  intros b s1 t1 ([E1 E2] & Ht & ->). cbn. case_bool_decide as Hd; cbn.
  - mon_simpl. rewrite app_nil_r, E1, E2. auto.
  - intros [] []. mon_simpl. rewrite app_nil_r, E1, E2. cbn.
    split_and!; [done..|]. right. split_and!; [done|done|lia|done].
Qed.

Lemma acted_idle m id now failedAt targets s s' tr :
  same_shared s s' → deletes tr = [] → acted m id now failedAt targets s s' tr.
Proof. intros [E1 E2] E3. unfold acted. rewrite E1, E2. auto. Qed.

Lemma acted_pre m id now failedAt targets s0 s s' t1 t2 :
  same_shared s0 s → deletes t1 = [] →
  acted m id now failedAt targets s s' t2 → acted m id now failedAt targets s0 s' (t1 ++ t2).
Proof.
  intros [E1 E2] D (A1 & A2 & A3). unfold acted. rewrite deletes_app, D, <- E1, <- E2. cbn [app].
  split_and!; [done..|]. destruct A3 as [?|(? & ? & ? & ? & ? & pods & ? & ?)]; [by left|right].
  split_and!; try done. exists pods. split; [|done]. apply elem_of_app. by right.
Qed.

Lemma with_pods_spec m id now failedAt targets sent s :
  mon_Kube m = true →
  wp (with_pods m id now failedAt targets sent) s (λ _ s' tr, acted m id now failedAt targets s s' tr).
Proof.
  intros Hk. unfold with_pods. cbn. intros [pods|e]; [|by apply acted_idle].
  apply wp_bind.
  apply (wp_mono _ _ (λ _ s1 t1, same_shared s s1 ∧ deletes t1 = [])).
  2: { destruct sent; cbn; [done|]. eapply wp_mono; [|apply send_events_spec]. by intros ??? [-> ?]. }
  intros _ s1 t1 [[E1 E2] D1]. destruct (mon_AutoDelete m) eqn:Ha; cbn [negb].
  2: { cbn. apply acted_idle; [done|]. mon_simpl. by rewrite D1. }
  eapply wp_mono; [|apply delete_users_spec]. intros _ s2 t2 (F1 & F2 & F3).
  unfold acted. mon_simpl. rewrite D1, F1, F2, E1. rewrite E2 in *. cbn [app].
  destruct F3 as [?|(? & ? & ? & ?)]; [by auto|]. split_and!; [done..|]. right. split_and!; try done.
  exists pods. split; [left|done].
Qed.

Lemma handle_marked_spec m id now failedAt targets s :
  wp (handle_marked m id now failedAt targets) s (λ _ s' tr, acted m id now failedAt targets s s' tr).
Proof.
  unfold handle_marked. destruct (mon_Kube m) eqn:Hk; cbn [negb]; [|by apply acted_idle].
  cbn. case_bool_decide; cbn; [|by apply with_pods_spec].
  destruct (mon_AutoDelete m) eqn:Ha; cbn; [|by apply acted_idle].
  intros [] []. case_bool_decide; cbn; [by apply acted_idle|].
  eapply wp_mono; [|apply with_pods_spec; done]. intros ???. apply (acted_pre _ _ _ _ _ _ s _ [_; _]); done.
Qed.

Lemma handleFailed_spec m vol e entries s :
  wp (handleFailed m vol e entries) s (λ _ s' tr,
    ∃ now tr1, tr = Ev Now now :: tr1 ∧ round_post m vol e entries s s' now tr).
Proof.
  unfold handleFailed. cbn. intros now [] [] [] []. unfold round_post, marked.
  set (id := m_VolumeID vol). destruct (failed (mm_failures s) !! id) as [t|] eqn:E; cbn.
  all: rewrite ?E; cbn; eapply wp_mono; [|apply handle_marked_spec].
  all: intros ? s3 t3 (A1 & A2 & A3); cbn in *; exists now; eexists; split; [done|].
  all: split_and!; [done..|]; mon_simpl.
  all: destruct A3 as [?|(? & ? & ? & ? & ? & pods & ? & ?)]; [by left|right].
  all: split_and!; try done; exists pods; split; [by repeat right|].
  all: by rewrite ?E, ?lookup_insert_eq in *.
Qed.

(** ** One volume of a tick *)

(** The pods a round may delete: its users. *)
Lemma volume_users_elem targets pods p :
  p ∈ volume_users targets pods → p ∈ pods ∧ ∃ t, t ∈ targets ∧ PodUID t = pod_UID p.
Proof.
  unfold volume_users, by_uid. intros (t & Ht & Hp)%list_elem_of_omap.
  apply elem_of_list_to_map_2 in Hp. rewrite elem_of_reverse in Hp.
  apply list_elem_of_fmap in Hp as (q & [= E1 E2] & Hq). subst q. eauto.
Qed.

Lemma skipReason_empty p failedAt :
  skipReason p failedAt = "" ↔
  is_Some (ControllerOwner p) ∧ pod_DeletionTimestamp p = None ∧
  ∃ t, pod_StartTime p = Some t ∧ (t < failedAt)%Z.
Proof.
  unfold skipReason. destruct (ControllerOwner p), (pod_DeletionTimestamp p), (pod_StartTime p) as [t|];
    try case_bool_decide; naive_solver.
Qed.

Lemma ControllerOwner_spec p :
  is_Some (ControllerOwner p) ↔ ∃ o, o ∈ pod_OwnerReferences p ∧ own_Controller o = Some true.
Proof.
  unfold ControllerOwner. split.
  - intros [o Ho]. apply find_some in Ho as [Hin Hc]. rewrite bool_decide_eq_true in Hc.
    exists o. by rewrite list_elem_of_In.
  - intros (o & Hin & Hc). destruct (List.find _ _) eqn:E; [done|].
    apply list_elem_of_In in Hin. eapply find_none in E; [|exact Hin]. by rewrite bool_decide_eq_false in E.
Qed.

(** The pod is one the monitor may delete for [vol], whose visible mount [e]
    failed at [failedAt]. *)
Definition may_delete (m : Monitor) (entries : list MountInfo) (vol : Mapping) (failedAt : Z)
    (tr : trace) (d : string * string * string) : Prop :=
  mon_Kube m = true ∧ mon_AutoDelete m = true ∧
  ∃ e pods p t path start,
    LastAt entries (m_StagePath vol) = Some e ∧ ForcedReadOnly e = true ∧
    Ev (ListPodsOnNode (mon_Node m)) (Ok pods) ∈ tr ∧ p ∈ pods ∧ d = pod_id p ∧
    t = mkTarget (pod_UID p) path ∧ t ∈ PublishTargets entries (MajorMinor e) ∧
    (∃ o, o ∈ pod_OwnerReferences p ∧ own_Controller o = Some true) ∧
    pod_DeletionTimestamp p = None ∧ pod_StartTime p = Some start ∧ (start < failedAt)%Z.

(** The mark a tick leaves on a volume. *)
Definition detected (entries : list MountInfo) (vol : Mapping) (before after : option Z) (tr : trace) : Prop :=
  match LastAt entries (m_StagePath vol) with
  | None => after = before
  | Some e =>
      if ForcedReadOnly e
      then ∃ t, after = Some t ∧ (before = Some t ∨ before = None ∧ Ev Now t ∈ tr)
      else after = None
  end.

Lemma tick_volume_spec m entries vol s :
  wp (tick_volume m entries vol) s (λ _ s' tr,
    let id := m_VolumeID vol in
    mm_state s' = mm_state s ∧
    detected entries vol (failed (mm_failures s) !! id) (failed (mm_failures s') !! id) tr ∧
    (∀ k, k ≠ id → failed (mm_failures s') !! k = failed (mm_failures s) !! k) ∧
    ∀ d, d ∈ deletes tr → ∃ t, failed (mm_failures s') !! id = Some t ∧ may_delete m entries vol t tr d).
Proof.
  unfold tick_volume, detected. destruct (LastAt entries (m_StagePath vol)) as [e|] eqn:He.
  2: { cbn. split_and!; try done. intros d Hd. by apply elem_of_nil in Hd. }
  destruct (ForcedReadOnly e) eqn:Hf.
  2: { cbn. intros [] []. split_and!; try done.
       - by rewrite lookup_delete_eq.
       - intros k Hk. by rewrite lookup_delete_ne.
       - intros d Hd. mon_simpl. by apply elem_of_nil in Hd. }
  eapply wp_mono; [|apply handleFailed_spec]. intros ? s' tr (now & tr1 & -> & H1 & H2 & H3).
  cbn zeta in *. set (id := m_VolumeID vol) in *. unfold marked in *.
  assert (∃ t, failed (mm_failures s') !! id = Some t ∧
    (failed (mm_failures s) !! id = Some t ∨ failed (mm_failures s) !! id = None ∧ t = now)) as (t & Ht & Hsrc).
  { rewrite H2. destruct (failed (mm_failures s) !! id) eqn:E; [by eauto|].
    rewrite lookup_insert_eq. eauto. }
  split_and!; [done| | |].
  - exists t. split; [done|]. destruct Hsrc as [?|[? ->]]; [by left|right]. split; [done|left].
  - intros k Hk. rewrite H2. destruct (failed (mm_failures s) !! id); [done|]. by rewrite lookup_insert_ne.
  - intros d Hd. exists t. split; [done|].
    destruct H3 as [[E _]|(_ & _ & Hk & Ha & _ & pods & Hp & E)]; rewrite E in Hd; [by apply elem_of_nil in Hd|].
    apply list_elem_of_fmap in Hd as (p & -> & Hin). apply list_elem_of_In, filter_In in Hin as [Hin Hdel].
    apply list_elem_of_In, volume_users_elem in Hin as (Hpp & [u path] & Htg & Hu).
    unfold deletable in Hdel. rewrite bool_decide_eq_true, <- H2, Ht, skipReason_empty, ControllerOwner_spec in Hdel.
    destruct Hdel as (? & ? & start & ? & ?). cbn in Hu. subst u.
    split_and!; [done..|]. exists e, pods, p. eexists _, path, start. split_and!; done.
Qed.

(** ** A whole tick *)

Lemma detected_mono entries vol b a t1 t2 :
  (∀ e, e ∈ t1 → e ∈ t2) → detected entries vol b a t1 → detected entries vol b a t2.
Proof. unfold detected. intros Hsub. repeat case_match; naive_solver. Qed.

Lemma detected_trans entries vol b a1 a2 t1 t2 :
  detected entries vol b a1 t1 → detected entries vol a1 a2 t2 → detected entries vol b a2 (t1 ++ t2).
Proof.
  unfold detected. destruct (LastAt _ _) as [e|]; [|congruence]. destruct (ForcedReadOnly e); [|done].
  intros (t & -> & H1) (t' & -> & [H2|[? _]]); [|done]. simplify_eq.
  exists t'. split; [done|]. destruct H1 as [?|[? ?]]; [by left|right]. split; [done|].
  apply elem_of_app. by left.
Qed.

Lemma may_delete_mono m entries vol t t1 t2 d :
  (∀ e, e ∈ t1 → e ∈ t2) → may_delete m entries vol t t1 d → may_delete m entries vol t t2 d.
Proof.
  intros Hsub (? & ? & e & pods & p & tg & path & start & ? & ? & ? & ?).
  split_and!; [done..|]. exists e, pods, p, tg, path, start. split_and!; try done; naive_solver.
Qed.

(** The volumes of [done_] were handled between [s] and [cur]. *)
Record ticked (m : Monitor) (entries : list MountInfo) (s : MonMem)
    (done_ : list Mapping) (cur : MonMem) (tr : trace) : Prop := {
  tk_state : mm_state cur = mm_state s;
  tk_marks vol : vol ∈ done_ → let id := m_VolumeID vol in
    detected entries vol (failed (mm_failures s) !! id) (failed (mm_failures cur) !! id) tr;
  tk_others k : (∀ vol, vol ∈ done_ → m_VolumeID vol ≠ k) →
    failed (mm_failures cur) !! k = failed (mm_failures s) !! k;
  tk_deletes d : d ∈ deletes tr → ∃ vol t, vol ∈ done_ ∧
    failed (mm_failures cur) !! m_VolumeID vol = Some t ∧ may_delete m entries vol t tr d }.

Lemma ticked_step m entries s (P : Mapping → Prop) done_ cur tr0 vol :
  (∀ v w, P v → P w → m_VolumeID v = m_VolumeID w → v = w) → (∀ v, v ∈ done_ → P v) → P vol →
  ticked m entries s done_ cur tr0 →
  wp (tick_volume m entries vol) cur (λ _ s' tr, ticked m entries s (done_ ++ [vol]) s' (tr0 ++ tr)).
Proof.
  intros Hinj HPd HPv [K1 K2 K3 K4]. eapply wp_mono; [|apply tick_volume_spec].
  intros ? s' tr (H1 & H2 & H3 & H4). cbn zeta in *.
  assert (∀ v, v ∈ done_ ∨ v = vol → P v) as HP by naive_solver.
  split.
  - congruence.
  - intros v Hv. cbn zeta. apply elem_of_app in Hv as [Hv|Hv%list_elem_of_singleton].
    + destruct (decide (m_VolumeID v = m_VolumeID vol)) as [E|E].
      * assert (v = vol) as -> by auto. eapply detected_trans; [by apply K2|done].
      * rewrite H3 by done. eapply detected_mono; [|by apply K2]. intros. apply elem_of_app. by left.
    + subst v. destruct (decide (vol ∈ done_)) as [Hd|Hd].
      * eapply detected_trans; [by apply K2|done].
      * rewrite <- (K3 (m_VolumeID vol)) by (intros v Hv E; assert (v = vol) as -> by auto; done).
        eapply detected_mono; [|done]. intros. apply elem_of_app. by right.
  - intros k Hk. rewrite H3 by (intros ->; eapply (Hk vol); [apply elem_of_app; right; left|done]).
    apply K3. intros v Hv. apply Hk, elem_of_app. by left.
  - intros d. rewrite deletes_app. intros [Hd|Hd]%elem_of_app.
    + destruct (K4 d Hd) as (v & t & Hv & Ht & Hmay). exists v, t. split; [apply elem_of_app; by left|].
      split; [|eapply may_delete_mono; [|exact Hmay]; intros; apply elem_of_app; by left].
      destruct (decide (m_VolumeID v = m_VolumeID vol)) as [E|E]; [|by rewrite H3].
      assert (v = vol) as -> by auto. unfold detected in H2.
      destruct Hmay as (_ & _ & e & ? & ? & ? & ? & ? & He & Hf & _). rewrite He, Hf, Ht in H2.
      destruct H2 as (t' & -> & [?|[? _]]); by simplify_eq.
    + destruct (H4 d Hd) as (t & Ht & Hmay). exists vol, t. split; [apply elem_of_app; right; left|].
      split; [done|]. eapply may_delete_mono; [|exact Hmay]. intros. apply elem_of_app. by right.
Qed.

Lemma ReadMountInfo_spec {S} p (s : S) :
  wp (ReadMountInfo p) s (λ r s' tr, s' = s ∧
    ∃ c, tr = [Ev (ReadFile p) c] ∧
         r = match c with Ok content => ParseMountInfo content | Err e => Err e end).
Proof. unfold ReadMountInfo. wp_cases; eauto 10. Qed.

#[local] Arguments tick_volume : simpl never.
#[local] Arguments All : simpl never.

Lemma All_deletes : emits (λ e, ev_delete e = None) All.
Proof. unfold All. solve_emits; done. Qed.
Lemma no_deletes tr : Forall (λ e, ev_delete e = None) tr → deletes tr = [].
Proof. induction 1 as [|e tr He _ IH]; [done|]. by rewrite deletes_cons, He. Qed.

Lemma Tick_spec m s tr u s' :
  exec (Tick m) s tr u s' → keyed (st_data (mm_state s)) →
  ∃ c t, tr = Ev (ReadFile "/proc/self/mountinfo") c :: t ∧
  match match c with Ok content => ParseMountInfo content | Err e => Err e end with
  | Err _ => s' = s ∧ t = []
  | Ok entries => ∃ vols,
      (∀ vol, vol ∈ vols ↔ ∃ k, st_data (mm_state s) !! k = Some vol) ∧
      ticked m entries s vols s' t
  end.
Proof.
  intros (t1 & r & s1 & t2 & -> & H1 & H2)%exec_bind Hk.
  pose proof (proj1 (wp_exec _ _ _) (ReadMountInfo_spec _ s) _ _ _ H1) as (-> & c & -> & ->).
  exists c, t2. split; [done|]. destruct (match c with Ok _ => _ | Err _ => _ end) as [entries|e].
  2: { by destruct H2 as (-> & _ & ->). }
  apply exec_bind in H2 as (ta & vols & sa & tb & -> & Ha & Hb).
  apply (exec_zoom state_l) in Ha as [Ha Esa]. pose proof (All_deletes _ _ _ _ Ha) as Da%no_deletes.
  apply exec_All in Ha as (Ea & _ & Hv). rewrite Ea, lens_set_get in Esa. subst sa. cbn in Hv.
  exists vols. split; [done|].
  set (I := λ (d : list Mapping) (cur : MonMem) (t : trace),
    ticked m entries s d cur (ta ++ t) ∧ ∀ v, v ∈ d → v ∈ vols).
  assert (wp (for_all vols (tick_volume m entries)) s (λ _ s' tr, I vols s' tr)) as Hw.
  { apply (wp_for_all vols (tick_volume m entries) I) with (l1 := []) (tr0 := []).
    - intros d x cur t0 Hx [Ht Hd]. eapply wp_mono; [|eapply (ticked_step _ _ _ (λ v, v ∈ vols)); eauto].
      + intros ? s2 t2 Ht2. split; [by rewrite app_assoc|].
        intros v [?|Hv1%list_elem_of_singleton]%elem_of_app; [by auto|by subst v].
      + intros v w [k Ek]%Hv [k' Ek']%Hv E. pose proof (Hk _ _ Ek) as Fk. pose proof (Hk _ _ Ek') as Fk'.
        cbn in Fk, Fk'. congruence.
    - split; [|intros v Hv0; by apply elem_of_nil in Hv0]. rewrite app_nil_r. split; try done.
      + intros v Hv0. by apply elem_of_nil in Hv0.
      + rewrite Da. intros d Hd. by apply elem_of_nil in Hd. }
  by apply (proj1 (wp_exec _ _ _) Hw) in Hb as [Hb _].
Qed.

Lemma Tick_calls m : emits tick_call (Tick m).
Proof.
  unfold Tick, ReadMountInfo, All, tick_volume, handleFailed, handle_marked, with_pods, delete_users,
    Mark, GetFailed, HeldUntil, Hold, Clear, forget, add_event, add_off, send_event.
  solve_emits; done.
Qed.

Lemma Tick_deletes m s tr u s' :
  exec (Tick m) s tr u s' → keyed (st_data (mm_state s)) →
  Forall tick_call tr ∧ mm_state s' = mm_state s ∧
  ∀ d, d ∈ deletes tr →
    ∃ content entries id vol failedAt,
      Ev (ReadFile "/proc/self/mountinfo") (Ok content) ∈ tr ∧ ParseMountInfo content = Ok entries ∧
      st_data (mm_state s) !! id = Some vol ∧ failed (mm_failures s') !! id = Some failedAt ∧
      may_delete m entries vol failedAt tr d.
Proof.
  intros He Hk. split; [by eapply Tick_calls|].
  destruct (Tick_spec _ _ _ _ _ He Hk) as (c & t & -> & H).
  destruct c as [content|e]; [|destruct H as [-> ->]; split; [done|]; intros d Hd; by apply elem_of_nil in Hd].
  destruct (ParseMountInfo content) as [entries|e] eqn:Ep.
  2: { destruct H as [-> ->]; split; [done|]; intros d Hd; by apply elem_of_nil in Hd. }
  destruct H as (vols & Hv & [K1 K2 K3 K4]). split; [done|]. intros d Hd. mon_simpl. 
  destruct (K4 d Hd) as (vol & fa & [id Hid]%Hv & Hf & Hm).
  exists content, entries, id, vol, fa. pose proof (Hk _ _ Hid) as E. cbn in E. subst id.
  split_and!; [left|done|done|done|]. eapply may_delete_mono; [|exact Hm]. intros. by right.
Qed.

(** C27: what the monitor may do.  A tick touches no file but the process'
    mount table and runs no command, so it does no I/O to a backing file.  A
    pod it asks to delete: automatic deletion is on, a staged volume's visible
    mount was forced read-only, the pod is in the list the API server gave for
    this node and publishes that mount's device, it has a controller that
    recreates it, is not terminating already, and started before the time the
    volume is marked failed with. *)
Theorem Tick_safe m s tr u s' :
  exec (Tick m) s tr u s' → keyed (st_data (mm_state s)) →
  Forall tick_call tr ∧ mm_state s' = mm_state s ∧
  ∀ d, d ∈ deletes tr →
    ∃ content entries id vol failedAt,
      Ev (ReadFile "/proc/self/mountinfo") (Ok content) ∈ tr ∧ ParseMountInfo content = Ok entries ∧
      st_data (mm_state s) !! id = Some vol ∧ failed (mm_failures s') !! id = Some failedAt ∧
      may_delete m entries vol failedAt tr d.
Proof. apply Tick_deletes. Qed.

(** C30: what a tick detects.  When the mount table cannot be read, nothing
    changes.  Otherwise every staged volume is marked failed after the tick if
    its visible mount was forced read-only, keeping the time of an earlier
    mark and taking the current time for a new one; the mark of a volume whose
    mount is healthy is gone; a volume that is not mounted, and every volume
    that is not staged, keeps the mark it had. *)
Theorem Tick_detects m s tr u s' :
  exec (Tick m) s tr u s' → keyed (st_data (mm_state s)) →
  ∃ c t, tr = Ev (ReadFile "/proc/self/mountinfo") c :: t ∧
  match match c with Ok content => ParseMountInfo content | Err e => Err e end with
  | Err _ => s' = s ∧ t = []
  | Ok entries => ∀ id,
      let before := failed (mm_failures s) !! id in
      let after := failed (mm_failures s') !! id in
      match st_data (mm_state s) !! id with
      | None => after = before
      | Some vol =>
          match LastAt entries (m_StagePath vol) with
          | None => after = before
          | Some e =>
              if ForcedReadOnly e
              then ∃ now, after = Some now ∧ (before = Some now ∨ before = None ∧ Ev Now now ∈ t)
              else after = None
          end
      end
  end.
Proof.
  intros He Hk. destruct (Tick_spec _ _ _ _ _ He Hk) as (c & t & -> & H).
  exists c, t. split; [done|]. destruct (match c with Ok _ => _ | Err _ => _ end) as [entries|e]; [|done].
  destruct H as (vols & Hv & [K1 K2 K3 K4]). intros id. cbn zeta.
  destruct (st_data (mm_state s) !! id) as [vol|] eqn:E.
  - pose proof (Hk _ _ E) as Eid. cbn in Eid. specialize (K2 vol). rewrite Eid in K2.
    apply K2, Hv. eauto.
  - apply K3. intros vol [k Hvol]%Hv Eid. pose proof (Hk _ _ Hvol) as Ek. cbn in Ek. congruence.
Qed.

(** ** The hold-off

    The tracker is shared with the node server, which runs between the steps
    of the monitor.  A step of the process is the monitor handling one volume
    of a tick, or anything the node server does: it marks and clears failures
    and changes the table but never a hold-off. *)

(** A round of deletions: the volume, the time it was handled, the pods. *)
Record round := mkRound { rd_vol : string; rd_now : Z; rd_pods : list (string * string * string) }.

Definition ev_now (e : event) : option Z :=
  match e with
  | Ev c r => match c in call R return R → option Z with Now => λ t, Some t | _ => λ _, None end r
  end.
Definition rounds_of (vol : Mapping) (tr : trace) : list round :=
  match deletes tr with
  | [] => []
  | ds => [mkRound (m_VolumeID vol) (default zeroTime (head (omap ev_now tr))) ds]
  end.

Inductive process_step (m : Monitor) : MonMem → list round → MonMem → Prop :=
  | step_volume entries vol s tr u s' :
      exec (tick_volume m entries vol) s tr u s' → process_step m s (rounds_of vol tr) s'
  | step_node s s' :
      held (mm_failures s') = held (mm_failures s) → process_step m s [] s'.

Inductive process_run (m : Monitor) : MonMem → list round → MonMem → Prop :=
  | run_done s : process_run m s [] s
  | run_step s l s1 ls s2 : process_step m s l s1 → process_run m s1 ls s2 → process_run m s (l ++ ls) s2.

Definition held_until (s : MonMem) (id : string) : Z := default zeroTime (held (mm_failures s) !! id).

Lemma volume_step_held m entries vol s :
  wp (tick_volume m entries vol) s (λ _ s' tr,
    held (mm_failures s') = held (mm_failures s) ∧ rounds_of vol tr = [] ∨
    ∃ now, let id := m_VolumeID vol in
      held (mm_failures s') = <[id := now + RemediationHold]> (held (mm_failures s)) ∧
      held_until s id ≤ now ∧ rounds_of vol tr = [mkRound id now (deletes tr)])%Z.
Proof.
  unfold tick_volume. destruct (LastAt entries (m_StagePath vol)) as [e|]; [|by left].
  destruct (ForcedReadOnly e).
  2: { cbn. intros [] []. by left. }
  eapply wp_mono; [|apply handleFailed_spec]. intros ? s' tr (now & tr1 & -> & _ & _ & H). cbn zeta in *.
  unfold rounds_of. destruct H as [[E ?]|(Hd & Hh & _ & _ & Hn & _)]; [left; by rewrite E|right].
  exists now. split_and!; [done..|]. by destruct (deletes _).
Qed.

Lemma process_step_held m s l s' :
  process_step m s l s' →
  (∀ id, held_until s id ≤ held_until s' id)%Z ∧
  (l = [] ∨ ∃ r, l = [r] ∧ held_until s (rd_vol r) ≤ rd_now r ∧
                 rd_now r + RemediationHold ≤ held_until s' (rd_vol r))%Z.
Proof.
  intros [entries vol s0 tr u s1 He|s0 s1 E].
  2: { split; [|by left]. intros id. unfold held_until. by rewrite E. }
  destruct (proj1 (wp_exec _ _ _) (volume_step_held m entries vol s0) _ _ _ He) as [[E ->]|(now & E & Hle & ->)].
  { split; [|by left]. intros id. unfold held_until. by rewrite E. }
  unfold held_until in *. rewrite E. split.
  - intros id. destruct (decide (id = m_VolumeID vol)) as [->|Hne].
    + rewrite lookup_insert_eq. cbn. unfold RemediationHold. lia.
    + by rewrite lookup_insert_ne.
  - right. eexists. split; [done|]. cbn. rewrite lookup_insert_eq. cbn. split; [done|lia].
Qed.

Lemma process_run_held m s ls s' :
  process_run m s ls s' → ∀ r, r ∈ ls → (held_until s (rd_vol r) ≤ rd_now r)%Z.
Proof.
  induction 1 as [s|s l s1 ls s2 Hs _ IH]; intros r Hr; [by apply elem_of_nil in Hr|].
  destruct (process_step_held _ _ _ _ Hs) as [Hmono Hl].
  apply elem_of_app in Hr as [Hr|Hr].
  - destruct Hl as [->|(q & -> & ? & _)]; [by apply elem_of_nil in Hr|]. apply list_elem_of_singleton in Hr. by subst.
  - specialize (Hmono (rd_vol r)). specialize (IH r Hr). lia.
Qed.

Lemma process_run_app m s l1 s1 l2 s2 :
  process_run m s l1 s1 → process_run m s1 l2 s2 → process_run m s (l1 ++ l2) s2.
Proof. induction 1; intros H2; [done|]. rewrite <- app_assoc. econstructor; eauto. Qed.

(** The monitor alone is such a process: its ticks are steps, and what it
    deletes is what their rounds delete. *)
Lemma rounds_pods vol tr : rounds_of vol tr ≫= rd_pods = deletes tr.
Proof. unfold rounds_of. destruct (deletes tr) eqn:E; [done|]. cbn. by rewrite app_nil_r. Qed.

Lemma volumes_run m entries vols s tr u s' :
  exec (for_all vols (tick_volume m entries)) s tr u s' →
  ∃ ls, process_run m s ls s' ∧ ls ≫= rd_pods = deletes tr.
Proof.
  revert s tr. induction vols as [|v vols IH]; intros s tr; cbn [for_all].
  - intros (-> & _ & ->). exists []. split; [constructor|done].
  - intros (t1 & [] & s1 & t2 & -> & H1 & H2)%exec_bind. apply IH in H2 as (ls & Hr & E).
    eexists. split; [eapply run_step; [by eapply step_volume|exact Hr]|].
    by rewrite bind_app, rounds_pods, E, deletes_app.
Qed.

Lemma Tick_run m s tr u s' :
  exec (Tick m) s tr u s' → ∃ ls, process_run m s ls s' ∧ ls ≫= rd_pods = deletes tr.
Proof.
  intros (t1 & r & s1 & t2 & -> & H1 & H2)%exec_bind.
  pose proof (proj1 (wp_exec _ _ _) (ReadMountInfo_spec _ s) _ _ _ H1) as (-> & c & -> & _).
  mon_simpl. destruct r as [entries|e].
  2: { destruct H2 as (-> & _ & ->). exists []. split; [constructor|done]. }
  apply exec_bind in H2 as (ta & vols & sa & tb & -> & Ha & Hb).
  apply (exec_zoom state_l) in Ha as [Ha Esa]. pose proof (All_deletes _ _ _ _ Ha) as Da%no_deletes.
  apply exec_All in Ha as (Ea & _). rewrite Ea, lens_set_get in Esa. subst sa.
  rewrite deletes_app, Da. by eapply volumes_run.
Qed.

Lemma RunMonitor_run m n s tr u s' :
  exec (RunMonitor m n) s tr u s' → ∃ ls, process_run m s ls s' ∧ ls ≫= rd_pods = deletes tr.
Proof.
  revert s tr. induction n as [|n IH]; intros s tr; cbn [RunMonitor].
  - intros (-> & _ & ->). exists []. split; [constructor|done].
  - intros (t1 & v & s1 & t2 & -> & (l1 & R1 & E1)%Tick_run & H2)%exec_bind. rewrite deletes_app, <- E1.
    destruct H2 as (b & t3 & -> & H2). mon_simpl. destruct b.
    + apply IH in H2 as (l2 & R2 & E2). exists (l1 ++ l2). split; [by eapply process_run_app|].
      by rewrite bind_app, E2.
    + destruct H2 as (-> & _ & ->). exists l1. by rewrite deletes_nil, app_nil_r.
Qed.

(** C28: the hold-off between deletions.  The monitor's loop is a run of the
    process whose rounds delete exactly the pods the loop deletes; and in
    every run of the process, with the node server marking, clearing and
    re-staging in between, two rounds of deletions for one volume are at least
    five minutes apart by the clock the monitor reads, whatever that clock
    did. *)
Theorem deletions_held_off m :
  (∀ n s tr u s', exec (RunMonitor m n) s tr u s' →
     ∃ ls, process_run m s ls s' ∧ ls ≫= rd_pods = deletes tr) ∧
  (∀ s ls s' i j r1 r2, process_run m s ls s' → i < j → ls !! i = Some r1 → ls !! j = Some r2 →
     rd_vol r1 = rd_vol r2 → (rd_now r1 + RemediationHold ≤ rd_now r2)%Z).
Proof.
  split; [intros *; apply RunMonitor_run|].
  intros s ls s' i j r1 r2 Hr. revert i j. induction Hr as [s|s l s1 ls s2 Hs Hr IH]; intros i j Hij H1 H2 E.
  { by rewrite lookup_nil in H1. }
  destruct (process_step_held _ _ _ _ Hs) as [_ [->|(q & -> & _ & Hq)]]; [by eapply IH|].
  destruct j as [|j]; [lia|]. cbn in H2. destruct i as [|i]; cbn in H1.
  - simplify_eq. pose proof (process_run_held _ _ _ _ Hr r2) as Hh.
    specialize (Hh (list_elem_of_lookup_2 _ _ _ H2)). rewrite <- E in Hh. lia.
  - eapply (IH i j); eauto. lia.
Qed.

(** A node with one volume that failed, used by a pod of a controller. *)
Definition demo_uid : string := "0a1b2c3d-0a1b-0a1b-0a1b-0a1b2c3d4e5f".
Definition demo_target : string := "/var/lib/kubelet/pods/" +:+ demo_uid +:+ "/volumes/kubernetes.io~csi/pvc-1/mount".
Definition demo_mounts (super : list string) : string :=
  let line mp := print_row (mkRow "37" "29" "/" [] (mkMountInfo "7:3" mp ["rw"] "ext4" "/dev/loop3" super)) in
  line "/stage/v" +:+ (String "010"%char (line demo_target)).
Definition demo_pod : Pod :=
  mkPod "app-0" "default" demo_uid None [mkOwner "apps/v1" "StatefulSet" "app" (Some true)] "n1" (Some 5%Z).
Definition demo_vol : Mapping := mkMapping "v" "/dev/loop3" "/img/v.img" "/stage/v" "" None [].
Definition demo_mem : MonMem := mkMonMem (mkState "/s.json" {["v" := demo_vol]}) newFailures ∅ ∅ ∅.
(** The clock starts at [100] and the ticker takes the monitor's interval. *)
Definition demo_outside (super : list string) : handler Z := λ R c t,
  match c in call R return R * Z with
  | Now => (t, t)
  | TimerFirst _ => (true, (t + MonitorInterval)%Z)
  | ReadFile _ => (Ok (demo_mounts super), t)
  | ListPodsOnNode _ => (Ok [demo_pod], t)
  | c => quiet _ c t
  end.
Definition tick_demo := run (demo_outside ["ro"; "emergency_ro"]) (Tick (mkMonitor "n1" true true)) demo_mem 100%Z.

Lemma tick_demo_exec : exec (Tick (mkMonitor "n1" true true)) demo_mem tick_demo.2 tick_demo.1.1.1 tick_demo.1.1.2.
Proof. unfold tick_demo. destruct (run _ _ _ _) as [[[r s] x] t] eqn:E. by apply exec_run in E. Qed.
Lemma demo_keyed : keyed (st_data (mm_state demo_mem)).
Proof. by apply map_Forall_singleton. Qed.

Lemma Tick_safe_witness :
  deletes tick_demo.2 = [("default", "app-0", demo_uid)] ∧ Forall tick_call tick_demo.2 ∧
  failed (mm_failures tick_demo.1.1.2) !! "v" = Some 100%Z.
Proof.
  split; [vm_compute; reflexivity|]. split; [|vm_compute; reflexivity].
  apply (Tick_safe _ _ _ _ _ tick_demo_exec demo_keyed).
Defined.

Lemma Tick_detects_witness :
  failed (mm_failures tick_demo.1.1.2) !! "v" = Some 100%Z ∧
  ∃ c t, tick_demo.2 = Ev (ReadFile "/proc/self/mountinfo") c :: t.
Proof.
  split; [vm_compute; reflexivity|].
  destruct (Tick_detects _ _ _ _ _ tick_demo_exec demo_keyed) as (c & t & E & _). by exists c, t.
Defined.

(** Thirty-two ticks of ten seconds delete the pod twice: the second time
    after the hold-off. *)
Lemma deletions_held_off_witness :
  let '(u, s, now, tr) := run (demo_outside ["ro"; "emergency_ro"]) (RunMonitor (mkMonitor "n1" true true) 32) demo_mem 100%Z in
  length (deletes tr) = 2 ∧ ∃ ls, process_run (mkMonitor "n1" true true) demo_mem ls s ∧ ls ≫= rd_pods = deletes tr.
Proof.
  destruct (run _ _ _ _) as [[[u s] now] tr] eqn:E. split.
  - assert (length (deletes (run (demo_outside ["ro"; "emergency_ro"]) (RunMonitor (mkMonitor "n1" true true) 32)
      demo_mem 100%Z).2) = 2) as H by (vm_compute; reflexivity). by rewrite E in H.
  - apply exec_run in E. by apply (proj1 (deletions_held_off _) _ _ _ _ _ E).
Defined.
