(* ===== verification/Kube.v ===== *)
(** The Kubernetes client: pkg/kube/client.go.

    The driver uses the API server through the interface [Client]; its four
    operations are calls of the effect interface.  [HTTPClient] implements
    them with HTTP requests.  [serve] replaces the calls of a program by a
    client's operations, and [serve_refines] shows that the program then does
    nothing it could not do against the interface. *)

From Stdlib Require Import ZArith Lia Ascii.
From stdpp Require Import base option gmap strings list sorting.
From S2P Require Import Prelude GoStrings Effects Json Rfc3339.
From S2P Require Import Loop Monitor.

Import strings.
Local Open Scope prog_scope.

(** ** net/url and net *)
Definition upper_hex (n : nat) : ascii := ascii_of_nat (if n <? 10 then 48 + n else 55 + n).
Definition pct (c : ascii) : string := String "%" (String (upper_hex (byte c / 16)) (String (upper_hex (byte c mod 16)) "")).
Definition unreserved (c : ascii) : bool :=
  in_range 97 122 c || in_range 65 90 c || in_range 48 57 c ||
  bool_decide (c ∈ ["-"%char; "_"%char; "."%char; "~"%char]).
(** The reserved characters a path segment may keep. *)
Definition segment_char (c : ascii) : bool :=
  unreserved c || bool_decide (c ∈ ["$"%char; "&"%char; "+"%char; ":"%char; "="%char; "@"%char]).

Fixpoint PathEscape (s : string) : string :=
  match s with
  | "" => ""
  | String c s => (if segment_char c then String c "" else pct c) +:+ PathEscape s
  end.
Fixpoint QueryEscape (s : string) : string :=
  match s with
  | "" => ""
  | String c s => (if unreserved c then String c "" else if bool_decide (c = " "%char) then "+" else pct c) +:+ QueryEscape s
  end.
(** [net.JoinHostPort] *)
Definition JoinHostPort (host port : string) : string :=
  (if Contains host ":" then "[" +:+ host +:+ "]" else host) +:+ ":" +:+ port.
Fixpoint drop_slashes (s : string) : string :=
  match s with String "/" s => drop_slashes s | _ => s end.
(** [strings.TrimRight(s, "/")] *)
Definition trim_slashes (s : string) : string := String.rev (drop_slashes (String.rev s)).

(** [json.Marshal]; the keys of a Go map are written in order. *)
Fixpoint compact (v : json) : string :=
  match v with
  | JNull => "null"
  | JBool b => if b then "true" else "false"
  | JNum n => n
  | JStr s => quote s
  | JArr l => "[" +:+ Join (map compact l) "," +:+ "]"
  | JObj l => "{" +:+ Join (map (λ kv, quote kv.1 +:+ ":" +:+ compact kv.2) l) "," +:+ "}"
  end.
Definition go_map (l : list (string * json)) : json := JObj (merge_sort key_le l).
Definition go_strings (l : list (string * string)) : json := go_map (map (λ kv, (kv.1, JStr kv.2)) l).

(** ** Decoding *)
Definition dec_bool (v : option json) : option (option bool) :=
  match v with None | Some JNull => Some None | Some (JBool b) => Some (Some b) | _ => None end.

(** src/pkg/kube/types.go:5-10 (OwnerReference, its JSON tags) *)
Definition dec_OwnerReference : option json → option OwnerReference := dec_struct (λ l,
  a ← dec_string (field l "apiVersion"); k ← dec_string (field l "kind"); n ← dec_string (field l "name");
  c ← dec_bool (field l "controller");
  Some (mkOwner a k n c)).
(** src/pkg/kube/types.go:12-26 (Pod, its JSON tags) *)
Definition dec_Pod : option json → option Pod := dec_struct (λ l,
  '(n, ns, u, d, o) ← dec_struct (λ l,
    n ← dec_string (field l "name"); ns ← dec_string (field l "namespace"); u ← dec_string (field l "uid");
    d ← dec_time (field l "deletionTimestamp"); o ← dec_list dec_OwnerReference (field l "ownerReferences");
    Some (n, ns, u, d, o)) (field l "metadata");
  node ← dec_struct (λ l, dec_string (field l "nodeName")) (field l "spec");
  st ← dec_struct (λ l, dec_time (field l "startTime")) (field l "status");
  Some (mkPod n ns u d o node st)).

(** ** The client *)
Section Client.
Context {S : Type}.

(** src/pkg/kube/client.go:36-40 (HTTPClient) *)
Record HTTPClient := mkClient { base_url : string; tokenPath : string }.

(** src/pkg/kube/client.go:24-27 (saDir, userAgent) *)
Definition saDir : string := "/var/run/secrets/kubernetes.io/serviceaccount".
Definition userAgent : string := "fileblock-node".

(** src/pkg/kube/client.go:42-44 (NewHTTPClient) *)
Definition NewHTTPClient (baseURL path : string) : HTTPClient := mkClient (trim_slashes baseURL) path.

(** src/pkg/kube/client.go:46-66 (InCluster): the TLS settings of the transport
    are not kept *)
Definition InCluster : prog S (res HTTPClient) :=
  host <- sys (Getenv "KUBERNETES_SERVICE_HOST") ;;
  port <- sys (Getenv "KUBERNETES_SERVICE_PORT") ;;
  if bool_decide (host = "") || bool_decide (port = "")
  then fail (ErrMsg "not running in a cluster: KUBERNETES_SERVICE_HOST/PORT unset") else
  ca <-? sys (ReadFile (saDir +:+ "/ca.crt")) ;;
  pool <- sys (CertPool ca) ;;
  if negb pool then fail (ErrMsg "no certificates in ") else
  ok (NewHTTPClient ("https://" +:+ JoinHostPort host port) (saDir +:+ "/token")).

(** [io.LimitReader(r, n)], read to its end. *)
Definition limit (n : Z) (s : string) : string :=
  if bool_decide (Z.of_nat (String.length s) ≤ n)%Z then s else stake (Z.to_nat n) s.
Definition max_body : Z := 4194304.

(** src/pkg/kube/client.go:91-96 (HTTPClient.do, the headers) *)
Definition headers (tok : string) (has_body : bool) : list (string * string) :=
  [("Authorization", "Bearer " +:+ TrimSpace tok); ("Accept", "application/json"); ("User-Agent", userAgent)] ++
  (if has_body then [("Content-Type", "application/json")] else []).

(** src/pkg/kube/client.go:103-112 (HTTPClient.do, the error of a status): the
    text [http.StatusText] puts for an empty message is not kept *)
Definition status_error (status : Z) (data : string) : goerr :=
  ErrAPI status (default "" (v ← parse data; dec_struct (λ l, dec_string (field l "message")) (Some v))).

(** src/pkg/kube/client.go:80-96 (HTTPClient.do, the request) *)
Definition new_request (c : HTTPClient) (tok method path : string) (body : option json) : HttpRequest :=
  mkHttp method (base_url c +:+ path) (headers tok (bool_decide (is_Some body))) (compact <$> body).
(** src/pkg/kube/client.go:102-117 (HTTPClient.do, the answer) *)
Definition http_result {A} (out : string → option A) (status : Z) (body : string) : res A :=
  let data := limit max_body body in
  if bool_decide (300 ≤ status)%Z then Err (status_error status data) else
  match out data with
  | Some a => Ok a
  | None => Err (ErrMsg "json: ")
  end.

(** src/pkg/kube/client.go:75-118 (HTTPClient.do): [out] decodes the answer.
    Building the request and sending it end in one error, [HttpDo]'s. *)
Definition do {A} (c : HTTPClient) (method path : string) (body : option json) (out : string → option A)
  : prog S (res A) :=
  tok <-? wrap (Errorf "read service-account token: ") (sys (ReadFile (tokenPath c))) ;;
  resp <-? sys (HttpDo (new_request c tok method path body)) ;;
  lift_res (http_result out (fst resp) (snd resp)).
(** [out] nil: the body is not decoded. *)
Definition no_out : string → option unit := λ _, Some tt.

(** src/pkg/kube/client.go:120-123 (isNotFound) *)
Definition isNotFound (e : goerr) : bool := bool_decide (as_api e = Some 404%Z).

(** src/pkg/kube/client.go:126-128 (HTTPClient.ListPodsOnNode, the decoding) *)
Definition dec_PodList (data : string) : option (list Pod) :=
  v ← parse data; dec_struct (λ l, dec_list dec_Pod (field l "items")) (Some v).
(** src/pkg/kube/client.go:125-134 (HTTPClient.ListPodsOnNode) *)
Definition http_ListPodsOnNode (c : HTTPClient) (node : string) : prog S (res (list Pod)) :=
  do c "GET" ("/api/v1/pods?fieldSelector=" +:+ QueryEscape ("spec.nodeName=" +:+ node)) None dec_PodList.

(** src/pkg/kube/client.go:142-143 (HTTPClient.DeletePod, the path) *)
Definition pod_path (namespace name : string) : string :=
  "/api/v1/namespaces/" +:+ PathEscape namespace +:+ "/pods/" +:+ PathEscape name.
(** src/pkg/kube/client.go:137-141 (HTTPClient.DeletePod, the body) *)
Definition delete_options (uid : string) : json :=
  go_map [("apiVersion", JStr "v1"); ("kind", JStr "DeleteOptions"); ("preconditions", go_strings [("uid", uid)])].
(** src/pkg/kube/client.go:136-148 (HTTPClient.DeletePod) *)
Definition http_DeletePod (c : HTTPClient) (namespace name uid : string) : prog S (res unit) :=
  r <- do c "DELETE" (pod_path namespace name) (Some (delete_options uid)) no_out ;;
  match r with
  | Err e => if isNotFound e then ok tt else fail e
  | Ok _ => ok tt
  end.

(** src/pkg/kube/client.go:151-167 (HTTPClient.PodEvent, the event) *)
Definition event_body (now : Z) (p : Pod) (reason message : string) : json :=
  go_map [("apiVersion", JStr "v1"); ("kind", JStr "Event");
    ("metadata", go_strings [("generateName", pod_Name p +:+ "."); ("namespace", pod_Namespace p)]);
    ("involvedObject", go_strings [("apiVersion", "v1"); ("kind", "Pod"); ("name", pod_Name p);
                                   ("namespace", pod_Namespace p); ("uid", pod_UID p)]);
    ("reason", JStr reason); ("message", JStr message); ("type", JStr "Warning");
    ("source", go_strings [("component", "fileblock-node"); ("host", pod_NodeName p)]);
    ("firstTimestamp", JStr (format now)); ("lastTimestamp", JStr (format now)); ("count", JNum "1")].
(** src/pkg/kube/client.go:150-169 (HTTPClient.PodEvent) *)
Definition http_PodEvent (c : HTTPClient) (p : Pod) (reason message : string) : prog S (res unit) :=
  now <- sys Now ;;
  do c "POST" ("/api/v1/namespaces/" +:+ PathEscape (pod_Namespace p) +:+ "/events")
     (Some (event_body now p reason message)) no_out.

(** src/pkg/kube/client.go:179-183 (HTTPClient.PolicyEnforced, the decoding) *)
Definition dec_actions (data : string) : option (list string) :=
  v ← parse data;
  dec_struct (λ l, dec_struct (λ l, dec_list dec_string (field l "validationActions")) (field l "spec")) (Some v).
(** src/pkg/kube/client.go:172-172 (HTTPClient.PolicyEnforced, base) *)
Definition admission_base : string := "/apis/admissionregistration.k8s.io/v1/".
(** src/pkg/kube/client.go:171-191 (HTTPClient.PolicyEnforced) *)
Definition http_PolicyEnforced (c : HTTPClient) (name : string) : prog S (res bool) :=
  r <- do c "GET" (admission_base +:+ "validatingadmissionpolicies/" +:+ PathEscape name) None no_out ;;
  match r with
  | Err e => if isNotFound e then ok false else fail e
  | Ok _ =>
      b <- do c "GET" (admission_base +:+ "validatingadmissionpolicybindings/" +:+ PathEscape name) None dec_actions ;;
      match b with
      | Err e => if isNotFound e then ok false else fail e
      | Ok actions => ok (bool_decide ("Deny" ∈ actions))
      end
  end.
End Client.

(** ** The interface and its implementations *)

(** src/pkg/kube/client.go:29-34 (Client) *)
Class Client (S : Type) := mkIface {
  cl_ListPodsOnNode : string → prog S (res (list Pod));
  cl_DeletePod : string → string → string → prog S (res unit);
  cl_PodEvent : Pod → string → string → prog S (res unit);
  cl_PolicyEnforced : string → prog S (res bool);
}.

#[export] Instance HTTPClient_Client {S} (c : HTTPClient) : Client S := {|
  cl_ListPodsOnNode := http_ListPodsOnNode c;
  cl_DeletePod := http_DeletePod c;
  cl_PodEvent := http_PodEvent c;
  cl_PolicyEnforced := http_PolicyEnforced c;
|}.

(** One call, answered by the client if it is one of the interface's. *)
Definition serve_call {S} (K : Client S) {R} (c : call R) : prog S R :=
  match c in call R return prog S R with
  | ListPodsOnNode node => cl_ListPodsOnNode node
  | DeletePod ns name uid => cl_DeletePod ns name uid
  | PodEvent p reason message => cl_PodEvent p reason message
  | PolicyEnforced name => cl_PolicyEnforced name
  | c => sys c
  end.

Fixpoint serve {S A} (K : Client S) (m : prog S A) : prog S A :=
  match m with
  | Ret a => Ret a
  | Upd f k => Upd f (λ b, serve K (k b))
  | Sys c k => bind (serve_call K c) (λ r, serve K (k r))
  end.

(** What the driver expects of a client: it does not touch the memory of the
    driver. *)
Class ClientOk {S} (K : Client S) : Prop :=
  serve_call_keeps R (c : call R) : keeps (λ s, s) (serve_call K c).

(** The calls of a program and the trace that answers them. *)
Inductive served {S} (K : Client S) : trace → trace → Prop :=
  | served_nil : served K [] []
  | served_cons {R} (c : call R) r s t t0 t1 :
      exec (serve_call K c) s t r s → served K t0 t1 → served K (Ev c r :: t0) (t ++ t1).

(** A program over a client does what it does over the interface. *)
Lemma serve_refines {S A} (K : Client S) `{!ClientOk K} (m : prog S A) s tr a s' :
  exec (serve K m) s tr a s' → ∃ tr0, exec m s tr0 a s' ∧ served K tr0 tr.
Proof.
  revert s tr. induction m as [x|B f k IH|R c k IH]; intros s tr; cbn.
  - intros (-> & -> & ->). exists []. split; [done|constructor].
  - apply IH.
  - intros (t & r & s1 & t' & -> & H1 & H2)%exec_bind.
    pose proof (exec_keeps (λ x, x) _ _ _ _ _ (serve_call_keeps R c) H1) as E. cbn in E. subst s1.
    destruct (IH _ _ _ H2) as (t0 & H0 & Hs). exists (Ev c r :: t0). split; [eauto|by econstructor].
Qed.

Section Wire.
Context {S : Type}.

Lemma do_keeps {A} c method path body (out : string → option A) : keeps (S := S) (λ s, s) (do c method path body out).
Proof. unfold do. solve_keeps. Qed.
#[local] Hint Resolve do_keeps : keeps.

#[export] Instance HTTPClient_ok c : ClientOk (S := S) (HTTPClient_Client c).
Proof.
  intros R []; cbn [serve_call cl_ListPodsOnNode cl_DeletePod cl_PodEvent cl_PolicyEnforced HTTPClient_Client];
    unfold http_ListPodsOnNode, http_DeletePod, http_PodEvent, http_PolicyEnforced; solve_keeps.
Qed.

(** The requests of a trace. *)
Definition ev_http (e : event) : option HttpRequest :=
  match e with Ev c _ => match c with HttpDo r => Some r | _ => None end end.
Definition requests (tr : trace) : list HttpRequest := omap ev_http tr.
Lemma requests_app t1 t2 : requests (t1 ++ t2) = requests t1 ++ requests t2.
Proof. apply omap_app. Qed.

(** Every request of the trace has this method, URL and body. *)
Definition sends (c : HTTPClient) (method path : string) (body : option json) (tr : trace) : Prop :=
  ∀ q, q ∈ requests tr → hr_Method q = method ∧ hr_URL q = base_url c +:+ path ∧ hr_Body q = compact <$> body.

Lemma do_sends {A} c method path body (out : string → option A) (s : S) tr r s' :
  exec (do c method path body out) s tr r s' → sends c method path body tr.
Proof.
  revert tr r s'. apply wp_exec. unfold do, sends. cbn.
  intros [tok|e]; cbn; [|intros q Hq; by apply elem_of_nil in Hq].
  intros [[st data]|e]; cbn; repeat case_match; cbn; intros q ->%list_elem_of_singleton; done.
Qed.

Lemma sends_app c method path body t1 t2 :
  sends c method path body t1 → requests t2 = [] → sends c method path body (t1 ++ t2).
Proof. intros H E q. rewrite requests_app, E, app_nil_r. apply H. Qed.

(** A deletion is one request at most: it names the pod and requires its uid. *)
Definition delete_request (c : HTTPClient) (d : string * string * string) (q : HttpRequest) : Prop :=
  hr_Method q = "DELETE" ∧ hr_URL q = base_url c +:+ pod_path d.1.1 d.1.2 ∧
  hr_Body q = Some (compact (delete_options d.2)).

Lemma http_DeletePod_sends c ns name uid (s : S) t r s' :
  exec (http_DeletePod c ns name uid) s t r s' → sends c "DELETE" (pod_path ns name) (Some (delete_options uid)) t.
Proof.
  intros (t1 & x & s1 & t2 & -> & H1 & H2)%exec_bind. apply sends_app; [by eapply do_sends|].
  destruct x as [[]|e]; [|destruct (isNotFound e)]; by destruct H2 as (-> & _ & _).
Qed.

Lemma http_PolicyEnforced_gets c name (s : S) t r s' q :
  exec (http_PolicyEnforced c name) s t r s' → q ∈ requests t → hr_Method q = "GET".
Proof.
  intros (t1 & x & s1 & t2 & -> & H1%do_sends & H2)%exec_bind. rewrite requests_app, elem_of_app.
  intros [Hq|Hq]; [by apply H1|]. destruct x as [[]|e].
  - apply exec_bind in H2 as (t3 & y & s2 & t4 & -> & H3%do_sends & H4). rewrite requests_app, elem_of_app in Hq.
    destruct Hq as [Hq|Hq]; [by apply H3|]. exfalso. revert Hq.
    destruct y as [l|e]; [|destruct (isNotFound e)]; destruct H4 as (-> & _ & _); apply not_elem_of_nil.
  - exfalso. revert Hq. destruct (isNotFound e); destruct H2 as (-> & _ & _); apply not_elem_of_nil.
Qed.

(** Only a deletion of the interface sends a DELETE, and it is that pod's. *)
Lemma serve_call_delete c {R} (k : call R) (s : S) t r s' q :
  exec (serve_call (HTTPClient_Client c) k) s t r s' → ev_http (Ev k r) = None →
  q ∈ requests t → hr_Method q = "DELETE" →
  ∃ d, ev_delete (Ev k r) = Some d ∧ delete_request c d q.
Proof.
  intros He Hk Hq Hm. destruct k;
    try (cbn in He; destruct He as (x & t' & -> & -> & -> & ->); cbn in Hq, Hk; try done; by apply elem_of_nil in Hq).
  - apply do_sends in He. destruct (He q Hq) as [E _]. rewrite E in Hm. done.
  - apply http_DeletePod_sends in He. exists (namespace, name, uid). split; [done|]. by apply He.
  - destruct He as (x & t' & -> & He). apply do_sends in He. destruct (He q Hq) as [E _]. rewrite E in Hm. done.
  - rewrite (http_PolicyEnforced_gets _ _ _ _ _ _ _ He Hq) in Hm. done.
Qed.

Lemma served_delete c t0 t q :
  served (S := S) (HTTPClient_Client c) t0 t → Forall (λ e, ev_http e = None) t0 →
  q ∈ requests t → hr_Method q = "DELETE" → ∃ d, d ∈ deletes t0 ∧ delete_request c d q.
Proof.
  intros Hs Hf Hq Hm. induction Hs as [|R k r s t t0 t1 He Hs IH]; [by apply elem_of_nil in Hq|].
  apply Forall_cons in Hf as [Hk Hf]. rewrite requests_app, elem_of_app in Hq. rewrite deletes_cons.
  destruct Hq as [Hq|Hq].
  - destruct (serve_call_delete _ _ _ _ _ _ _ He Hk Hq Hm) as (d & -> & Hd). exists d. split; [left|done].
  - destruct (IH Hf Hq) as (d & Hd & Hr). exists d. split; [|done]. case_match; [by right|done].
Qed.
End Wire.

(** ** Escaped names

    An escaped segment has no slash and says what it was made from, so the
    path of a request names one namespace and one pod. *)
Definition unhex (c : ascii) : nat := if byte c <? 58 then byte c - 48 else byte c - 55.
Fixpoint unescape_path (s : string) : string :=
  match s with
  | String "%" (String a (String b s)) => String (ascii_of_nat (16 * unhex a + unhex b)) (unescape_path s)
  | String c s => String c (unescape_path s)
  | "" => ""
  end.

Definition all_chars : list ascii := map ascii_of_nat (seq 0 256).
Lemma all_chars_spec c : c ∈ all_chars.
Proof.
  apply list_elem_of_fmap. exists (nat_of_ascii c). split; [by rewrite ascii_nat_embedding|].
  apply elem_of_seq. pose proof (nat_ascii_bounded c). lia.
Qed.
(** How each byte is escaped. *)
Definition esc_ok (c : ascii) : bool :=
  if segment_char c then negb (bool_decide (c = "%"%char)) && negb (bool_decide (c = "/"%char))
  else match pct c with
       | String "%" (String a (String b "")) =>
           bool_decide (ascii_of_nat (16 * unhex a + unhex b) = c) &&
           negb (bool_decide (a = "/"%char)) && negb (bool_decide (b = "/"%char))
       | _ => false
       end.
Lemma esc_checked c : esc_ok c = true.
Proof.
  assert (forallb esc_ok all_chars = true) as H by (vm_compute; reflexivity).
  rewrite forallb_forall in H. apply H, list_elem_of_In, all_chars_spec.
Qed.

Lemma unescape_PathEscape s : unescape_path (PathEscape s) = s.
Proof.
  induction s as [|c s IH]; [done|]. cbn [PathEscape]. pose proof (esc_checked c) as Hc. unfold esc_ok in Hc.
  destruct (segment_char c).
  - rewrite andb_true_iff, !negb_true_iff, !bool_decide_eq_false in Hc. destruct Hc as [Hp _].
    rewrite sapp_cons. cbn [String.append]. rewrite sapp_nil_l. cbn [unescape_path]. rewrite IH.
    destruct c as [[] [] [] [] [] [] [] []]; try done.
  - unfold pct in *. rewrite !andb_true_iff, bool_decide_eq_true in Hc. destruct Hc as [[Hc _] _].
    rewrite !sapp_cons, sapp_nil_l. cbn [unescape_path]. by rewrite IH, Hc.
Qed.
#[export] Instance PathEscape_inj : Inj (=) (=) PathEscape.
Proof. intros a b E. by rewrite <- (unescape_PathEscape a), E, unescape_PathEscape. Qed.

(** The part of a string before its first slash. *)
Fixpoint upto_slash (s : string) : string :=
  match s with
  | "" => ""
  | String c s => if bool_decide (c = "/"%char) then "" else String c (upto_slash s)
  end.
Lemma upto_slash_escape s t : upto_slash (PathEscape s +:+ "/" +:+ t) = PathEscape s.
Proof.
  induction s as [|c s IH]; [done|]. cbn [PathEscape]. pose proof (esc_checked c) as Hc. unfold esc_ok in Hc.
  destruct (segment_char c).
  - rewrite andb_true_iff, !negb_true_iff in Hc. destruct Hc as [_ Hs].
    rewrite sapp_assoc. set (rest := PathEscape s +:+ _) in *.
    rewrite !sapp_cons, !sapp_nil_l. cbn [upto_slash]. by rewrite Hs, IH.
  - unfold pct in *. rewrite !andb_true_iff, !negb_true_iff in Hc. destruct Hc as [[_ H1] H2].
    rewrite sapp_assoc. set (rest := PathEscape s +:+ _) in *.
    rewrite !sapp_cons, !sapp_nil_l. cbn [upto_slash]. rewrite H1, H2, IH. done.
Qed.

Lemma pod_path_inj ns name ns' name' : pod_path ns name = pod_path ns' name' → ns = ns' ∧ name = name'.
Proof.
  unfold pod_path. intros E. apply (inj (String.append _)) in E.
  assert (PathEscape ns = PathEscape ns') as En.
  { rewrite <- (upto_slash_escape ns ("pods/" +:+ PathEscape name)), <- (upto_slash_escape ns' ("pods/" +:+ PathEscape name')).
    exact (f_equal upto_slash E). }
  apply (inj PathEscape) in En as ->. split; [done|]. by apply (inj (String.append _)), (inj (String.append _)), (inj PathEscape) in E.
Qed.

(** ** Answers *)

(** The trace of an operation whose request got an answer. *)
Definition answered (c : HTTPClient) (method path : string) (body : option json) (status : Z) (data : string)
    (tr : trace) : Prop :=
  ∃ tok, tr = [Ev (ReadFile (tokenPath c)) (Ok tok);
               Ev (HttpDo (new_request c tok method path body)) (Ok (status, data))].

(** The answers of a trace. *)
Definition ev_answer (e : event) : option (res (Z * string)) :=
  match e with
  | Ev c r => match c in call R return R → option (res (Z * string)) with HttpDo _ => λ a, Some a | _ => λ _, None end r
  end.
Lemma answered_answers c method path body status data tr :
  answered c method path body status data tr → omap ev_answer tr = [Ok (status, data)].
Proof. by intros [tok ->]. Qed.

Lemma exec_do {S A} c method path body (out : string → option A) (s : S) tr r s' :
  exec (do c method path body out) s tr r s' →
  s' = s ∧ ((∃ status data, answered c method path body status data tr ∧ r = http_result out status data) ∨
            (∃ e, r = Err e ∧ ∀ status data, ¬ answered c method path body status data tr)).
Proof.
  revert tr r s'. apply wp_exec. unfold do. cbn.
  intros [tok|e]; cbn.
  - intros [[st data]|e]; cbn; (split; [done|]).
    + left. exists st, data. split; [by exists tok|done].
    + right. exists e. split; [done|]. by intros st data H%answered_answers.
  - split; [done|]. right. eexists. split; [done|]. by intros st data H%answered_answers.
Qed.

Lemma http_result_ok {A} (out : string → option A) status data a :
  http_result out status data = Ok a ↔ (status < 300)%Z ∧ out (limit max_body data) = Some a.
Proof.
  unfold http_result. case_bool_decide; [naive_solver lia|]. destruct (out _); naive_solver lia.
Qed.

(** The policy and its binding were read, and the binding denies. *)
Definition policy_denies (c : HTTPClient) (name : string) (tr : trace) : Prop :=
  ∃ t1 t2 st1 st2 d1 d2 actions,
    tr = t1 ++ t2 ∧
    answered c "GET" (admission_base +:+ "validatingadmissionpolicies/" +:+ PathEscape name) None st1 d1 t1 ∧
    answered c "GET" (admission_base +:+ "validatingadmissionpolicybindings/" +:+ PathEscape name) None st2 d2 t2 ∧
    (st1 < 300)%Z ∧ (st2 < 300)%Z ∧ dec_actions (limit max_body d2) = Some actions ∧ "Deny" ∈ actions.

Lemma http_PolicyEnforced_true {S} c name (s : S) tr s' :
  exec (http_PolicyEnforced c name) s tr (Ok true) s' → policy_denies c name tr.
Proof.
  intros (t1 & x & s1 & t2 & -> & H1 & H2)%exec_bind.
  apply exec_do in H1 as [-> [(st1 & d1 & Ha1 & ->)|(e & -> & _)]].
  2: { destruct (isNotFound e); by destruct H2 as (_ & ? & _). }
  destruct (http_result _ st1 d1) as [[]|e] eqn:E1; [|destruct (isNotFound e); by destruct H2 as (_ & ? & _)].
  apply http_result_ok in E1 as [E1 _].
  apply exec_bind in H2 as (t3 & y & s2 & t4 & -> & H3 & H4).
  apply exec_do in H3 as [-> [(st2 & d2 & Ha2 & ->)|(e & -> & _)]].
  2: { destruct (isNotFound e); by destruct H4 as (_ & ? & _). }
  destruct (http_result _ st2 d2) as [l|e] eqn:E2; [|destruct (isNotFound e); by destruct H4 as (_ & ? & _)].
  apply http_result_ok in E2 as [E2 Hl]. destruct H4 as (-> & [= Hd] & _). symmetry in Hd. apply bool_decide_eq_true in Hd.
  exists t1, t3, st1, st2, d1, d2, l. rewrite app_nil_r. by split_and!.
Qed.

(** A deletion that got an answer succeeds if the server accepted it or the
    pod was gone. *)
Lemma http_DeletePod_ok {S} c ns name uid (s : S) tr r s' status data :
  exec (http_DeletePod c ns name uid) s tr r s' →
  answered c "DELETE" (pod_path ns name) (Some (delete_options uid)) status data tr →
  is_ok r = true ↔ (status < 300 ∨ status = 404)%Z.
Proof.
  intros (t1 & x & s1 & t2 & -> & H1 & H2)%exec_bind Ha.
  apply exec_do in H1 as [-> Hx].
  assert (t2 = []) as ->. { destruct x as [[]|e]; [|destruct (isNotFound e)]; by destruct H2. }
  rewrite app_nil_r in Ha.
  destruct Hx as [(st & d & Ha' & ->)|(e & _ & Hno)]; [|by destruct (Hno status data)].
  apply answered_answers in Ha, Ha'. rewrite Ha in Ha'. injection Ha' as <- <-.
  unfold http_result in H2. case_bool_decide as Hs; cbn in H2.
  - unfold status_error, isNotFound in H2. cbn in H2. case_bool_decide as H4; destruct H2 as (_ & -> & _); cbn; naive_solver lia.
  - destruct H2 as (_ & -> & _). cbn. naive_solver lia.
Qed.
