(* ===== verification/Node.v ===== *)
(** The CSI node service: pkg/driver/node.go.

    The node server's memory holds the state table, the backing-store
    registry, the failure tracker, the per-volume mutexes and the cached stage
    secrets; each handler is a program over it, composed from the programs of
    the components.  The properties are in the files that follow. *)

From Stdlib Require Import ZArith Lia.
From stdpp Require Import base option gmap strings list.
From S2P Require Import Prelude GoStrings Effects Json Store Image Crypt Mount Loop Registry Encryption.
From S2P Require Import Controller Monitor.

Import strings path.
Local Open Scope prog_scope.

(** src/pkg/driver/node.go:39-65 (NodeServer, the fields that do not change):
    [nd_kube] says whether there is a Kubernetes client, [pageSize] is what
    [os.Getpagesize] returns. *)
Record NodeConfig := mkNode { nodeID : string; sysRoot : string; nd_kube : bool; pageSize : Z }.

(** src/pkg/driver/node.go:39-65 (NodeServer, the memory) *)
Record NodeMem := mkNodeMem {
  nd_state : State; nd_registry : Registry; nd_failures : failures;
  nd_volMutex : gset string; nd_keys : gmap string Keys }.

Definition node_state : lens State NodeMem :=
  mkLens nd_state (λ x s, mkNodeMem x (nd_registry s) (nd_failures s) (nd_volMutex s) (nd_keys s)).
Definition node_registry : lens Registry NodeMem :=
  mkLens nd_registry (λ x s, mkNodeMem (nd_state s) x (nd_failures s) (nd_volMutex s) (nd_keys s)).
Definition node_failures : lens failures NodeMem :=
  mkLens nd_failures (λ x s, mkNodeMem (nd_state s) (nd_registry s) x (nd_volMutex s) (nd_keys s)).
#[export] Instance node_state_ok : LensOk node_state.
Proof. split; [done..|by intros []]. Qed.
#[export] Instance node_registry_ok : LensOk node_registry.
Proof. split; [done..|by intros []]. Qed.
#[export] Instance node_failures_ok : LensOk node_failures.
Proof. split; [done..|by intros []]. Qed.

Definition set_keys (f : gmap string Keys → gmap string Keys) (s : NodeMem) : NodeMem :=
  mkNodeMem (nd_state s) (nd_registry s) (nd_failures s) (nd_volMutex s) (f (nd_keys s)).
Definition set_volMutex (f : gset string → gset string) (s : NodeMem) : NodeMem :=
  mkNodeMem (nd_state s) (nd_registry s) (nd_failures s) (f (nd_volMutex s)) (nd_keys s).

(** src/pkg/driver/node.go:69-87 (NewNodeServer) *)
Definition NewNodeServer (st : State) (reg : Registry) : NodeMem :=
  mkNodeMem st reg newFailures ∅ ∅.

(** src/pkg/driver/node.go:92-108 (NodeServer.NodeGetCapabilities) *)
Inductive NodeCapability := STAGE_UNSTAGE_VOLUME | GET_VOLUME_STATS | NODE_EXPAND_VOLUME | VOLUME_CONDITION.
(** src/pkg/driver/node.go:92-108 (NodeServer.NodeGetCapabilities) *)
Definition NodeGetCapabilities : list NodeCapability :=
  [STAGE_UNSTAGE_VOLUME; GET_VOLUME_STATS; NODE_EXPAND_VOLUME; VOLUME_CONDITION].

(** The CSI messages of the node service. *)
Record NodeInfo := mkNodeInfo { ni_NodeId : string; ni_Topology : Topology; ni_MaxVolumes : Z }.
Record StageRequest := mkStage {
  sr_VolumeId : string; sr_StagingTargetPath : string; sr_VolumeContext : gmap string string;
  sr_Secrets : gmap string string; sr_Capability : option VolumeCapability }.
Record PublishRequest := mkPublish {
  pr_VolumeId : string; pr_StagingTargetPath : string; pr_TargetPath : string;
  pr_Capability : option VolumeCapability; pr_Readonly : bool; pr_VolumeContext : gmap string string }.
Record VolumeUsage := mkUsage { us_Total : Z; us_Available : Z; us_Used : Z }.
(** The condition without its text; [ForcedRO] is abnormal, since a time. *)
Inductive VolumeCondition := Healthy | ForcedRO (at_ : Z).
Record VolumeStats := mkVolumeStats { vs_Bytes : VolumeUsage; vs_Inodes : VolumeUsage; vs_Condition : VolumeCondition }.

(** src/pkg/driver/node.go:110-120 (NodeServer.NodeGetInfo) *)
Definition NodeGetInfo (n : NodeConfig) : NodeInfo :=
  mkNodeInfo (nodeID n) {[topologyKeyNode := nodeID n]} 64.

(** src/pkg/driver/node.go:764-772 (mountOptionsFromCap) *)
Definition mountOptionsFromCap (c : option VolumeCapability) : list string :=
  match c with
  | Some c => match cap_Mount c with Some (_, flags) => flags | None => [] end
  | None => []
  end.

(** src/pkg/driver/node.go:774-789 (validateCapability) *)
Definition validateCapability (c : option VolumeCapability) : res unit :=
  match c with
  | None => Err (ErrStatus InvalidArgument "volume_capability is required")
  | Some c =>
      if cap_Block c then Err (ErrStatus InvalidArgument "block volumes are not supported")
      else if negb (bool_decide (cap_Mode c = SINGLE_NODE_WRITER))
      then Err (ErrStatus InvalidArgument "access mode not supported")
      else match cap_Mount c with
           | Some (fs, _) => if negb (bool_decide (fs = "")) && negb (bool_decide (fs = DefaultFs))
                             then Err (ErrStatus InvalidArgument "fsType not supported") else Ok tt
           | None => Ok tt
           end
  end.

Definition node_mu : string := "node.mu".
Definition volume_mu (volumeID : string) : string := "node.volMutex/" +:+ volumeID.

(** src/pkg/driver/node.go:752-762 (NodeServer.lockVolume) *)
Definition lockVolume (volumeID : string) : prog NodeMem unit :=
  with_lock node_mu (modify (set_volMutex (λ m, {[volumeID]} ∪ m))) ;;
  sys (LockMu (volume_mu volumeID)).
(** The body of a handler between [lockVolume] and the deferred unlock. *)
Definition with_volume {A} (volumeID : string) (m : prog NodeMem A) : prog NodeMem A :=
  lockVolume volumeID ;; r <- m ;; sys (UnlockMu (volume_mu volumeID)) ;; Ret r.

(** src/pkg/driver/node.go:346-357 (NodeServer.cacheKeys) *)
Definition cacheKeys (volumeID : string) (k : Keys) (replace : bool) : prog NodeMem unit :=
  with_lock node_mu (modify (set_keys (λ ks,
    match ks !! volumeID with
    | Some _ => if replace then <[volumeID := k]> ks else ks
    | None => <[volumeID := k]> ks
    end))).

(** src/pkg/driver/node.go:734-750 (NodeServer.loopBusy) *)
Definition loopBusy (n : NodeConfig) (dev : string) : prog NodeMem (res bool) :=
  m <- IsSourceMounted dev ;;
  match m with
  | Err e => fail e
  | Ok true => ok true
  | Ok false =>
      h <- IsSourceMountedInHost dev ;;
      match h with
      | Ok true => ok true
      | _ =>
          holders <- sys (ReadDir (JoinPath [sysRoot n; "block"; Base dev; "holders"])) ;;
          match holders with
          | Err e => if is_NotExist e then ok false else fail e
          | Ok l => ok (negb (bool_decide (length l = 0)))
          end
      end
  end.

(** src/pkg/driver/node.go:694-706 (NodeServer.loopSectorSize) *)
Definition loopSectorSize (n : NodeConfig) (imgPath : string) (size : Z) (encrypted : bool) : prog NodeMem (res Z) :=
  recorded <-? (if encrypted then SectorSize imgPath else FSBlockSize imgPath) ;;
  ok (SectorSizeFor (pageSize n) recorded size).

(** src/pkg/driver/node.go:709-709 (maxStageUnmounts) *)
Definition maxStageUnmounts : nat := 8.
(** src/pkg/driver/node.go:715-729 (NodeServer.popStageMounts, the loop) with
    [more] unmounts before it gives up *)
Fixpoint pop_mounts (more : nat) (stagePath : string) : prog NodeMem (res unit) :=
  mounted <-? wrap (statusf Internal "check stage: ") (IsMountPoint stagePath) ;;
  if negb mounted then ok tt else
  match more with
  | 0 => failS Internal "still mounted after unmounts"
  | S more => wrap (statusf Internal "umount stage: ") (Unmount stagePath) ;;? pop_mounts more stagePath
  end.
(** src/pkg/driver/node.go:714-730 (NodeServer.popStageMounts) *)
Definition popStageMounts (stagePath : string) : prog NodeMem (res unit) := pop_mounts maxStageUnmounts stagePath.

(** ** Staging *)

(** [if err := m; err != nil { cleanup(); return f(err) }]. *)
Definition orCleanup {A} (cleanup : prog NodeMem unit) (f : goerr → goerr) (m : prog NodeMem (res A))
  : prog NodeMem (res A) :=
  r <- m ;;
  match r with
  | Ok a => ok a
  | Err e => cleanup ;; fail (f e)
  end.

(** src/pkg/driver/node.go:267-289 (NodeServer.stageLocked, detachOnFail):
    [mapper] is set once the crypt mapping is open. *)
Definition detachOnFail (mapper : option string) (dev : string) : prog NodeMem unit :=
  match mapper with Some name => CloseMapping name ;; Ret tt | None => Ret tt end ;;
  Detach dev ;; Ret tt.

(** What a stage needs of the request once it is checked. *)
Record StageInput := mkInput { in_encrypted : bool; in_keys : Keys; in_format : Format; in_cfg : Config }.

(** src/pkg/driver/node.go:134-158 (NodeServer.stageLocked, the request) *)
Definition stage_input (req : StageRequest) : res StageInput :=
  if bool_decide (sr_VolumeId req = "") || bool_decide (sr_StagingTargetPath req = "")
  then Err (ErrStatus InvalidArgument "volume_id and staging_target_path are required") else
  match ConfigFromVolumeContext (sr_VolumeContext req) with
  | Err _ => Err (ErrStatus InvalidArgument "")
  | Ok cfg =>
      if bool_decide (mget (sr_VolumeContext req) ParamEncrypted = "true") then
        match keysFromSecrets (sr_Secrets req) with
        | Err e => Err e
        | Ok keys => match formatFromParams (sr_VolumeContext req) true with
                     | Err _ => Err (ErrStatus InvalidArgument "")
                     | Ok f => Ok (mkInput true keys f cfg)
                     end
        end
      else Ok (mkInput false (mkKeys "" "") (mkFormat "" 0) cfg)
  end.

(** src/pkg/driver/node.go:366-405 (NodeServer.adoptStage) *)
Definition adoptStage (n : NodeConfig) (req : StageRequest) (imgPath : string) (loops : list string)
    (encrypted : bool) (keys : Keys) : prog NodeMem (res unit) :=
  let volumeID := sr_VolumeId req in
  let stagePath := sr_StagingTargetPath req in
  src <-? wrap (statusf Internal "read stage mount: ") (Source stagePath) ;;
  found <-? (if encrypted && bool_decide (src = MapperPath (MapperName volumeID)) then
               ms <-? wrap (statusf Internal "list dm-crypt mappings: ") (ListMappings (sysRoot n)) ;;
               ok (foldl (λ acc cm, if bool_decide (cm_Name cm = MapperName volumeID) && contains loops (cm_Backing cm)
                                    then (cm_Backing cm, src) else acc) ("", "") ms)
             else if negb encrypted && contains loops src then ok (src, "")
             else ok ("", "")) ;;
  if bool_decide (fst found = "")
  then failS FailedPrecondition "staging path is already mounted from another source" else
  wrap (statusf Internal "persist state: ") (zoom node_state (Put
    (mkMapping volumeID (fst found) imgPath stagePath (snd found) (Some (sr_VolumeContext req))
       (mountOptionsFromCap (sr_Capability req))))) ;;?
  (when encrypted then cacheKeys volumeID keys true) ;;
  zoom node_failures (Clear volumeID) ;;
  ok tt.

(** src/pkg/driver/node.go:213-223 (NodeServer.stageLocked, the loops in use) *)
Definition refuse_busy (n : NodeConfig) (loops : list string) : prog NodeMem (res unit) :=
  for_each loops (λ dev,
    busy <-? wrap (statusf Internal "check : ") (loopBusy n dev) ;;
    if (busy : bool)
    then failS FailedPrecondition "volume is already in use on this node; refusing a second attachment of one image"
    else ok tt).

(** src/pkg/driver/node.go:224-237 (NodeServer.stageLocked, the mapping in use) *)
Definition refuse_open (n : NodeConfig) (encrypted : bool) (mapper : string) : prog NodeMem (res unit) :=
  if encrypted then
    open <-? wrap (statusf Internal "list dm-crypt mappings: ") (IsOpen (sysRoot n) mapper) ;;
    if (open : bool)
    then failS FailedPrecondition "volume is already open on this node; refusing a second mapping of one image"
    else ok tt
  else ok tt.

(** src/pkg/driver/node.go:242-246 (NodeServer.stageLocked, idle leftovers) *)
Definition detach_idle (loops : list string) : prog NodeMem (res unit) :=
  for_each loops (λ dev, wrap (statusf Internal "losetup --detach: ") (Detach dev)).

(** src/pkg/driver/node.go:260-266 (NodeServer.stageLocked, the attach error) *)
Definition attach_status (e : goerr) : goerr :=
  if is_PoolExhausted e then ErrStatus ResourceExhausted "" else ErrStatus Internal "losetup: ".

(** src/pkg/driver/node.go:269-290 (NodeServer.stageLocked, opening): the
    mapper device, or none for a plaintext volume *)
Definition open_device (input : StageInput) (mapper dev : string) : prog NodeMem (res string) :=
  if in_encrypted input then
    orCleanup (detachOnFail None dev) (statusf Internal "set capacity: ") (SetCapacity dev) ;;?
    r <-? orCleanup (detachOnFail None dev) cryptStatus (Prepare dev mapper (in_keys input) (in_format input)) ;;
    ok (fst r)
  else ok "".

(** src/pkg/driver/node.go:292-340 (NodeServer.stageLocked, from e2fsck on) *)
Definition mount_device (req : StageRequest) (input : StageInput) (imgPath mapper dev cryptDev : string)
  : prog NodeMem (res unit) :=
  let volumeID := sr_VolumeId req in
  let stagePath := sr_StagingTargetPath req in
  let target := if in_encrypted input then cryptDev else dev in
  let cleanup := detachOnFail (if in_encrypted input then Some mapper else None) dev in
  orCleanup cleanup (statusf Internal "fsck: ") (Fsck target) ;;?
  (if in_encrypted input then ok tt
   else orCleanup cleanup (statusf Internal "set capacity: ") (SetCapacity dev)) ;;?
  orCleanup cleanup (statusf Internal "resize2fs: ") (Resize2fs target) ;;?
  orCleanup cleanup (statusf Internal "mkdir stage: ") (sys (OsOp (MkdirAll stagePath))) ;;?
  orCleanup cleanup (statusf Internal "mount: ")
    (MountFs target stagePath DefaultFs (mountOptionsFromCap (sr_Capability req))) ;;?
  orCleanup (Unmount stagePath ;; cleanup) (statusf Internal "persist state: ")
    (zoom node_state (Put (mkMapping volumeID dev imgPath stagePath cryptDev (Some (sr_VolumeContext req))
       (mountOptionsFromCap (sr_Capability req))))) ;;?
  (when in_encrypted input then cacheKeys volumeID (in_keys input) true) ;;
  zoom node_failures (Clear volumeID) ;;
  ok tt.

(** src/pkg/driver/node.go:251-341 (NodeServer.stageLocked, the new stage) *)
Definition stage_fresh (n : NodeConfig) (req : StageRequest) (input : StageInput) (imgPath : string) (size : Z)
  : prog NodeMem (res unit) :=
  let mapper := MapperName (sr_VolumeId req) in
  sector <-? wrap (statusf Internal "read sector size of : ") (loopSectorSize n imgPath size (in_encrypted input)) ;;
  dev <-? wrap attach_status (Attach imgPath sector) ;;
  cryptDev <-? open_device input mapper dev ;;
  mount_device req input imgPath mapper dev cryptDev.

(** src/pkg/driver/node.go:193-199 (NodeServer.stageLocked, the image is missing) *)
Definition missing_image (backing : string) : prog NodeMem (res unit) :=
  m <- IsMountPoint backing ;;
  match m with
  | Ok false => failS Unavailable "backing store is not mounted; cannot resolve image"
  | _ => failS NotFound "image "
  end.

(** src/pkg/driver/node.go:180-249 (NodeServer.stageLocked, from the image to
    the guards) *)
Definition stage_image (n : NodeConfig) (req : StageRequest) (input : StageInput) (backing : string)
    (stageMounted : bool) : prog NodeMem (res unit) :=
  images <-? wrap (statusf Internal "open backing store: ") (New backing) ;;
  let imgPath := ImagePath images (sr_VolumeId req) in
  info <- sys (Stat imgPath) ;;
  match info with
  | Err _ => missing_image backing
  | Ok info =>
      loops <-? wrap (statusf Internal "find loop devices: ") (FindBacking imgPath) ;;
      if stageMounted then adoptStage n req imgPath loops (in_encrypted input) (in_keys input) else
      refuse_busy n loops ;;?
      refuse_open n (in_encrypted input) (MapperName (sr_VolumeId req)) ;;?
      detach_idle loops ;;?
      stage_fresh n req input imgPath (fi_size info)
  end.

(** src/pkg/driver/node.go:172-172 (NodeServer.stageLocked, already staged) *)
Definition staged_at (existing : option Mapping) (stagePath : string) : bool :=
  match existing with Some m => bool_decide (m_StagePath m = stagePath) | None => false end.

(** src/pkg/driver/node.go:133-341 (NodeServer.stageLocked) *)
Definition stageLocked (n : NodeConfig) (req : StageRequest) : prog NodeMem (res unit) :=
  let volumeID := sr_VolumeId req in
  let stagePath := sr_StagingTargetPath req in
  input <-? lift_res (stage_input req) ;;
  backing <-? wrap (statusf Internal "mount backing store: ") (zoom node_registry (Registry.Get (in_cfg input))) ;;
  lift_res (validateCapability (sr_Capability req)) ;;?
  stageMounted <-? wrap (statusf Internal "check staging path: ") (IsMountPoint stagePath) ;;
  existing <- zoom node_state (GetMapping volumeID) ;;
  if staged_at existing stagePath && stageMounted
  then (when in_encrypted input then cacheKeys volumeID (in_keys input) false) ;; ok tt
  else stage_image n req input backing stageMounted.

(** src/pkg/driver/node.go:122-130 (NodeServer.NodeStageVolume) *)
Definition NodeStageVolume (n : NodeConfig) (req : StageRequest) : prog NodeMem (res unit) :=
  if bool_decide (sr_VolumeId req = "") || bool_decide (sr_StagingTargetPath req = "")
  then failS InvalidArgument "volume_id and staging_target_path are required" else
  with_volume (sr_VolumeId req) (stageLocked n req).

(** ** Unstaging *)

(** src/pkg/driver/node.go:442-445 (NodeServer.NodeUnstageVolume, the loops to
    detach) *)
Definition unstage_match (volumeID : string) (entry : option Mapping) (a : Attachment) : bool :=
  bool_decide (Base (BackFile a) = volumeID +:+ ImageExt) ||
  match entry with
  | Some m => bool_decide (Device a = m_LoopDev m) && SillyRenamed (BackFile a)
  | None => false
  end.

(** src/pkg/driver/node.go:421-434 (NodeServer.NodeUnstageVolume, the mapping) *)
Definition close_entry (id : string) (entry : option Mapping) : prog NodeMem (res unit) :=
  match entry with
  | Some m => if bool_decide (m_CryptDev m = "") then ok tt
              else wrap (statusf Internal "cryptsetup close: ") (CloseMapping (Base (m_CryptDev m)))
  | None => CloseMapping (MapperName id) ;; ok tt
  end.

(** src/pkg/driver/node.go:421-465 (NodeServer.NodeUnstageVolume, once the
    mounts are popped) *)
Definition release_devices (id : string) (entry : option Mapping) : prog NodeMem (res unit) :=
  close_entry id entry ;;?
  loops <-? wrap (statusf Internal "find loop devices: ") (Find (unstage_match id entry)) ;;
  for_each loops (λ dev, wrap (statusf Internal "losetup --detach: ") (Detach dev)) ;;?
  with_lock node_mu (modify (set_keys (delete id))) ;;
  (when bool_decide (is_Some entry) then (zoom node_state (DeleteMapping id) ;; Ret tt)) ;;
  zoom node_failures (Clear id) ;;
  ok tt.

(** src/pkg/driver/node.go:407-466 (NodeServer.NodeUnstageVolume) *)
Definition NodeUnstageVolume (volumeID stagePath : string) : prog NodeMem (res unit) :=
  if bool_decide (volumeID = "") || bool_decide (stagePath = "")
  then failS InvalidArgument "volume_id and staging_target_path are required" else
  with_volume volumeID (
    popStageMounts stagePath ;;?
    sys (OsOp (Remove stagePath)) ;;
    entry <- zoom node_state (GetMapping volumeID) ;;
    release_devices volumeID entry).

(** ** Publishing *)

(** src/pkg/driver/node.go:582-586 (podInfoName, podInfoNamespace, podInfoUID) *)
Definition podInfoName : string := "csi.storage.k8s.io/pod.name".
Definition podInfoNamespace : string := "csi.storage.k8s.io/pod.namespace".
Definition podInfoUID : string := "csi.storage.k8s.io/pod.uid".

(** src/pkg/driver/node.go:591-602 (NodeServer.publishEvent) *)
Definition publishEvent (n : NodeConfig) (req : PublishRequest) (msg : string) : prog NodeMem unit :=
  let vc := pr_VolumeContext req in
  let name := mget vc podInfoName in
  let namespace := mget vc podInfoNamespace in
  let uid := mget vc podInfoUID in
  if negb (nd_kube n) || bool_decide (name = "") || bool_decide (namespace = "") || bool_decide (uid = "")
  then Ret tt
  else sys (PodEvent (mkPod name namespace uid None [] "" None) EventReasonVolumeFailed msg) ;; Ret tt.

(** src/pkg/driver/node.go:526-540 (NodeServer.restageFailed, the secrets): none
    when the key of an encrypted volume is not in memory *)
Definition restage_secrets (ctx : gmap string string) (key : option Keys) : option (gmap string string) :=
  if bool_decide (mget ctx ParamEncrypted = "true") then
    match key with
    | None => None
    | Some k => Some (if bool_decide (Previous k = "") then {[secretKey := Current k]}
                      else <[secretPreviousKey := Previous k]> {[secretKey := Current k]})
    end
  else Some ∅.

(** src/pkg/driver/node.go:541-562 (NodeServer.restageFailed, the teardown): the
    entry it leaves *)
Definition restage_teardown (m : Mapping) : prog NodeMem (res Mapping) :=
  wrap (statusf Internal "re-stage: ") (popStageMounts (m_StagePath m)) ;;?
  if bool_decide (m_LoopDev m = "") then ok m else
  (if bool_decide (m_CryptDev m = "") then ok tt
   else wrap (statusf Internal "re-stage: cryptsetup close: ") (CloseMapping (Base (m_CryptDev m)))) ;;?
  wrap (statusf Internal "re-stage: losetup --detach: ") (Detach (m_LoopDev m)) ;;?
  let m' := mkMapping (m_VolumeID m) "" (m_ImagePath m) (m_StagePath m) "" (m_StageContext m) (m_MountFlags m) in
  wrap (statusf Internal "re-stage: persist state: ") (zoom node_state (Put m')) ;;?
  ok m'.

(** src/pkg/driver/node.go:563-572 (NodeServer.restageFailed, the request) *)
Definition restage_request (volumeID : string) (m : Mapping) (ctx secrets : gmap string string) : StageRequest :=
  mkStage volumeID (m_StagePath m) ctx secrets
    (Some (mkCap false (Some ("", m_MountFlags m)) SINGLE_NODE_WRITER)).

(** src/pkg/driver/node.go:509-520 (NodeServer.restageFailed, still published) *)
Definition refuse_published (m : Mapping) : prog NodeMem (res unit) :=
  entries <-? wrap (statusf Internal "read mountinfo: ") (ReadMountInfo "/proc/self/mountinfo") ;;
  match LastAt entries (m_StagePath m) with
  | Some e => match PublishTargets entries (MajorMinor e) with
              | [] => ok tt
              | _ :: _ => failS Unavailable "volume failed and is still published; waiting for that pod to go"
              end
  | None => ok tt
  end.

(** src/pkg/driver/node.go:521-577 (NodeServer.restageFailed, once nothing
    publishes the volume) *)
Definition restage_entry (n : NodeConfig) (req : PublishRequest) (m : Mapping) : prog NodeMem (res unit) :=
  let volumeID := pr_VolumeId req in
  match m_StageContext m with
  | None =>
      publishEvent n req ("fileblock volume " +:+ volumeID +:+
        " failed and was staged by an older version; delete this pod to recover") ;;
      failS Unavailable "volume failed and was staged by an older version; delete the pod to recover"
  | Some ctx =>
      key <- (if bool_decide (mget ctx ParamEncrypted = "true")
              then with_lock node_mu (gets (λ s, nd_keys s !! volumeID)) else Ret None) ;;
      match restage_secrets ctx key with
      | None =>
          publishEvent n req ("fileblock volume " +:+ volumeID +:+
            " failed and its key is not in memory (the node plugin restarted); delete this pod to recover") ;;
          failS Unavailable "volume failed and cannot be re-staged without its key; delete the pod"
      | Some secrets =>
          m' <-? restage_teardown m ;;
          wrap (statusf Internal "re-stage: ") (stageLocked n (restage_request volumeID m' ctx secrets))
      end
  end.

(** src/pkg/driver/node.go:498-578 (NodeServer.restageFailed) *)
Definition restageFailed (n : NodeConfig) (req : PublishRequest) : prog NodeMem (res unit) :=
  let volumeID := pr_VolumeId req in
  with_volume volumeID (
    f <- zoom node_failures (GetFailed volumeID) ;;
    match f with
    | None => ok tt
    | Some _ =>
        entry <- zoom node_state (GetMapping volumeID) ;;
        match entry with
        | None => failS Unavailable "volume failed and has no state entry; waiting for the kubelet to unstage it"
        | Some m => refuse_published m ;;? restage_entry n req m
        end
    end).

(** src/pkg/driver/node.go:468-492 (NodeServer.NodePublishVolume) *)
Definition NodePublishVolume (n : NodeConfig) (req : PublishRequest) : prog NodeMem (res unit) :=
  let stagePath := pr_StagingTargetPath req in
  let target := pr_TargetPath req in
  if bool_decide (pr_VolumeId req = "") || bool_decide (stagePath = "") || bool_decide (target = "")
  then failS InvalidArgument "volume_id, staging_target_path, target_path are required" else
  lift_res (validateCapability (pr_Capability req)) ;;?
  f <- zoom node_failures (GetFailed (pr_VolumeId req)) ;;
  (if bool_decide (is_Some f) then restageFailed n req else ok tt) ;;?
  wrap (statusf Internal "mkdir target: ") (sys (OsOp (MkdirAll target))) ;;?
  m <- IsMountPoint target ;;
  match m with
  | Ok true => ok tt
  | _ => wrap (statusf Internal "bind mount: ") (BindMount stagePath target (pr_Readonly req))
  end.

(** src/pkg/driver/node.go:604-614 (NodeServer.NodeUnpublishVolume) *)
Definition NodeUnpublishVolume (volumeID target : string) : prog NodeMem (res unit) :=
  if bool_decide (volumeID = "") || bool_decide (target = "")
  then failS InvalidArgument "volume_id and target_path are required" else
  wrap (statusf Internal "umount target: ") (Unmount target) ;;?
  sys (OsOp (Remove target)) ;;
  ok tt.

(** ** Statistics and expansion *)

(** src/pkg/driver/node.go:638-654 (NodeServer.NodeGetVolumeStats, the figures):
    64-bit arithmetic; [Blocks], [Bavail], [Files] and [Ffree] are unsigned and
    converted to signed. *)
Definition volume_stats (st : statfs) (failedAt : option Z) : VolumeStats :=
  let bs := st_bsize st in
  let total := go_mul (wrap64 (st_blocks st)) bs in
  let free := go_mul (wrap64 (st_bavail st)) bs in
  let used := go_sub total free in
  mkVolumeStats (mkUsage total free used)
    (mkUsage (wrap64 (st_files st)) (wrap64 (st_ffree st)) (wrap64 (st_files st - st_ffree st)))
    (match failedAt with Some t => ForcedRO t | None => Healthy end).

(** src/pkg/driver/node.go:616-657 (NodeServer.NodeGetVolumeStats) *)
Definition NodeGetVolumeStats (volumeID path : string) : prog NodeMem (res VolumeStats) :=
  if bool_decide (volumeID = "") then failS InvalidArgument "volume_id is required" else
  if bool_decide (path = "") then failS InvalidArgument "volume_path is required" else
  m <- zoom node_state (GetMapping volumeID) ;;
  match m with
  | None => failS NotFound "volume not staged on this node"
  | Some _ =>
      s <- sys (Stat path) ;;
      match s with
      | Err e => if is_NotExist e then failS NotFound "volume_path does not exist" else failS Internal "stat "
      | Ok _ =>
          st <-? wrap (statusf Internal "statfs ") (sys (Statfs path)) ;;
          f <- zoom node_failures (GetFailed volumeID) ;;
          ok (volume_stats st f)
      end
  end.

(** src/pkg/driver/node.go:659-687 (NodeServer.NodeExpandVolume) *)
Definition NodeExpandVolume (volumeID path : string) (r : option CapacityRange) : prog NodeMem (res Z) :=
  if bool_decide (volumeID = "") then failS InvalidArgument "volume_id is required" else
  if bool_decide (path = "") then failS InvalidArgument "volume_path is required" else
  entry <- zoom node_state (GetMapping volumeID) ;;
  match entry with
  | None => failS NotFound "volume not staged on this node"
  | Some m =>
      wrap (statusf Internal "set capacity: ") (SetCapacity (m_LoopDev m)) ;;?
      (if bool_decide (m_CryptDev m = "") then ok tt
       else wrap (statusf Internal "cryptsetup resize: ") (ResizeMapping (Base (m_CryptDev m)))) ;;?
      let target := if bool_decide (m_CryptDev m = "") then m_LoopDev m else m_CryptDev m in
      wrap (statusf Internal "resize2fs: ") (Resize2fs target) ;;?
      ok (GetRequiredBytes r)
  end.
