(* ===== verification/CsiCall.v ===== *)
(** The command hack/csi-call/main.go, which makes the CreateVolume and
    NodeStageVolume calls the smoke test needs.

    The gRPC calls are arguments; with the handlers of the controller and the
    node in their place, the theorem follows a volume from the command line
    that creates it, through the text printed, to the request that stages
    it. *)

From Stdlib Require Import ZArith Lia Ascii.
From stdpp Require Import base option gmap strings list sorting.
From S2P Require Import Prelude GoStrings Effects Json Store Image Crypt Registry Encryption Controller Node Flag.

Import strings path.
Local Open Scope prog_scope.

(** src/hack/csi-call/main.go:29-36 (kv.Set) *)
Definition kv_Set (s : string) (m : gmap string string) : res (gmap string string) :=
  match Index s "=" with
  | None => Err (ErrMsg "want key=val, got ")
  | Some i => if bool_decide (stake i s = "") then Err (ErrMsg "want key=val, got ")
              else Ok (<[stake i s := sdrop (S i) s]> m)
  end.

(** src/hack/csi-call/main.go:65-70 (mountCap) *)
Definition mountCap : VolumeCapability := mkCap false (Some ("ext4", [])) SINGLE_NODE_WRITER.

(** How a command ends: its output, an error for [fail], or an exit of the
    flag package. *)
Inductive ended := Done (stdout : string) | Failed (e : goerr) | Quit (code : Z).

(** The variables of the create command's flags. *)
Record create_vars := mkCreateVars { cv_name : string; cv_size : Z; cv_params : gmap string string }.
(** src/hack/csi-call/main.go:75-80 (create, the flags) *)
Definition create_flags : list (flag create_vars) :=
  [mkFlag "name" false (λ s v, Ok (mkCreateVars s (cv_size v) (cv_params v)));
   mkFlag "bytes" false (λ s v, match ParseInt s with
                          | Ok n => Ok (mkCreateVars (cv_name v) n (cv_params v))
                          | Err e => Err e
                          end);
   mkFlag "p" false (λ s v, match kv_Set s (cv_params v) with
                      | Ok m => Ok (mkCreateVars (cv_name v) (cv_size v) m)
                      | Err e => Err e
                      end)].
Definition parse_create (args : list string) : parsing create_vars :=
  Parse create_flags args (mkCreateVars "" 0 ∅).

(** src/hack/csi-call/main.go:81-86 (create, the request) *)
Definition create_request (v : create_vars) : CreateVolumeRequest :=
  mkCreate (cv_name v) [mountCap] (cv_params v) (Some (mkRange (cv_size v) 0)) None.

(** src/hack/csi-call/main.go:90-99 (create, the output) *)
Definition print_volume (vol : Volume) : string :=
  vol_Id vol +:+ String "010" (foldr (λ kv rest, kv.1 +:+ "=" +:+ kv.2 +:+ String "010" rest) "" (entries (vol_Context vol))).

(** src/hack/csi-call/main.go:74-101 (create) *)
Definition create {S} (CreateVolume : CreateVolumeRequest → prog S (res Volume)) (args : list string) : prog S ended :=
  match parse_create args with
  | Exits code => Ret (Quit code)
  | Parsed _ v =>
      resp <- CreateVolume (create_request v) ;;
      Ret (match resp with Ok vol => Done (print_volume vol) | Err e => Failed e end)
  end.

(** The variables of the stage command's flags. *)
Record stage_vars := mkStageVars {
  sv_volume : string; sv_staging : string; sv_ctx : gmap string string; sv_secrets : gmap string string }.
(** src/hack/csi-call/main.go:104-110 (stage, the flags) *)
Definition stage_flags : list (flag stage_vars) :=
  [mkFlag "volume" false (λ s v, Ok (mkStageVars s (sv_staging v) (sv_ctx v) (sv_secrets v)));
   mkFlag "staging" false (λ s v, Ok (mkStageVars (sv_volume v) s (sv_ctx v) (sv_secrets v)));
   mkFlag "ctx" false (λ s v, match kv_Set s (sv_ctx v) with
                        | Ok m => Ok (mkStageVars (sv_volume v) (sv_staging v) m (sv_secrets v))
                        | Err e => Err e
                        end);
   mkFlag "secret" false (λ s v, match kv_Set s (sv_secrets v) with
                           | Ok m => Ok (mkStageVars (sv_volume v) (sv_staging v) (sv_ctx v) m)
                           | Err e => Err e
                           end)].
Definition parse_stage (args : list string) : parsing stage_vars :=
  Parse stage_flags args (mkStageVars "" "" ∅ ∅).

(** src/hack/csi-call/main.go:111-117 (stage, the request) *)
Definition stage_request (v : stage_vars) : StageRequest :=
  mkStage (sv_volume v) (sv_staging v) (sv_ctx v) (sv_secrets v) (Some mountCap).

(** src/hack/csi-call/main.go:103-119 (stage) *)
Definition stage {S} (NodeStageVolume : StageRequest → prog S (res unit)) (args : list string) : prog S ended :=
  match parse_stage args with
  | Exits code => Ret (Quit code)
  | Parsed _ v =>
      resp <- NodeStageVolume (stage_request v) ;;
      Ret (match resp with Ok _ => Done "" | Err e => Failed e end)
  end.

(** src/hack/csi-call/main.go:39-40 (main, the flags) *)
Definition main_flags : list (flag string) := [mkFlag "endpoint" false (λ s _, Ok s)].

(** src/hack/csi-call/main.go:121-124 (fail): the exit code; the message goes to
    the standard error output *)
Definition fail_code : Z := 1.
(** What main makes of a command's end: the exit code and the output. *)
Definition exit_of (e : ended) : Z * string :=
  match e with Done out => (0%Z, out) | Failed _ => (fail_code, "") | Quit c => (c, "") end.

(** src/hack/csi-call/main.go:38-63 (main): [NewClient] is grpc.NewClient *)
Definition csi_call {S} (NewClient : string → res unit) (CreateVolume : CreateVolumeRequest → prog S (res Volume))
    (NodeStageVolume : StageRequest → prog S (res unit)) (args : list string) : prog S (Z * string) :=
  match Parse main_flags args "" with
  | Exits code => Ret (code, "")
  | Parsed args endpoint =>
      if bool_decide (endpoint = "") then Ret (fail_code, "") else
      match args with
      | [] => Ret (fail_code, "")
      | cmd :: args =>
          match NewClient endpoint with
          | Err _ => Ret (fail_code, "")
          | Ok _ =>
              if bool_decide (cmd = "create") then r <- create CreateVolume args ;; Ret (exit_of r)
              else if bool_decide (cmd = "stage") then r <- stage NodeStageVolume args ;; Ret (exit_of r)
              else Ret (fail_code, "")
          end
      end
  end.

(** ** The text between the two calls *)

(** The lines of a command's output. *)
Definition output_lines (out : string) : list string := removelast (Split out "010").

(** The arguments of the stage call the smoke test makes of the output of a
    create call: the ID is the first line, every other line a -ctx. *)
Definition stage_args (out staging key : string) : list string :=
  match output_lines out with
  | [] => []
  | id :: ctx => ["-volume"; id; "-staging"; staging] ++ (ctx ≫= λ l, ["-ctx"; l]) ++ ["-secret"; "key=" +:+ key]
  end.

Definition one_line (s : string) : Prop := has_char "010" s = false.

(** A key that [kv.Set] reads back. *)
Definition flag_key (k : string) : Prop := k ≠ "" ∧ has_char "=" k = false ∧ one_line k.

Lemma Index_char c a b : has_char c a = false → Index (a +:+ String c b) (String c "") = Some (String.length a).
Proof.
  induction a as [|x a IH]; cbn [has_char]; intros H.
  - change ("" +:+ String c b) with (String c b). cbn [Index].
    by replace (HasPrefix (String c b) (String c "")) with true by (symmetry; exact (HasPrefix_app (String c "") b)).
  - case_bool_decide as E; [done|]. rewrite sapp_cons. cbn [Index]. rewrite (proj2 (HasPrefix_false _ _)).
    + by rewrite IH.
    + intros t [= ->]. done.
Qed.

Definition kv_line (kv : string * string) : string := kv.1 +:+ "=" +:+ kv.2.

Lemma kv_Set_line k v m : flag_key k → kv_Set (kv_line (k, v)) m = Ok (<[k := v]> m).
Proof.
  intros (Hk & He & _). unfold kv_Set, kv_line. cbn [fst snd]. change ("=" +:+ v) with (String "=" v).
  rewrite Index_char by done. rewrite stake_app, bool_decide_false by done.
  change (k +:+ String "=" v) with (k +:+ "=" +:+ v). rewrite <- sapp_assoc.
  replace (S (String.length k)) with (String.length (k +:+ "=")) by (rewrite slength_app; cbn; lia).
  by rewrite sdrop_app.
Qed.

Lemma output_lines_printed vol :
  one_line (vol_Id vol) → map_Forall (λ k v, flag_key k ∧ one_line v) (vol_Context vol) →
  output_lines (print_volume vol) = vol_Id vol :: map kv_line (entries (vol_Context vol)).
Proof.
  intros Hid Hc%entries_forall. unfold output_lines, print_volume. rewrite Split_app by done.
  assert (Split (foldr (λ kv rest, kv.1 +:+ "=" +:+ kv.2 +:+ String "010" rest) "" (entries (vol_Context vol))) "010" =
          map kv_line (entries (vol_Context vol)) ++ [""]) as ->.
  { induction Hc as [|[k v] l [(_ & _ & Hk) Hv] _ IH]; [done|]. cbn [foldr map fst snd] in *.
    replace (k +:+ "=" +:+ v +:+ String "010" (foldr (λ kv rest, kv.1 +:+ "=" +:+ kv.2 +:+ String "010" rest) "" l))
      with (kv_line (k, v) +:+ String "010" (foldr (λ kv rest, kv.1 +:+ "=" +:+ kv.2 +:+ String "010" rest) "" l))
      by (unfold kv_line; cbn [fst snd]; by rewrite <- !sapp_assoc).
    rewrite Split_app, IH; [done|]. unfold kv_line, one_line in *. cbn [fst snd]. by rewrite !has_char_app, Hk, Hv. }
  by rewrite app_comm_cons, removelast_last.
Qed.

(** Every -ctx is read back. *)
Lemma Parse_ctx l rest v :
  Forall (λ kv, flag_key kv.1) l →
  Parse stage_flags ((map kv_line l ≫= λ x, ["-ctx"; x]) ++ rest) v =
  Parse stage_flags rest (mkStageVars (sv_volume v) (sv_staging v)
                            (foldl (λ m kv, <[kv.1 := kv.2]> m) (sv_ctx v) l) (sv_secrets v)).
Proof.
  intros Hl. revert v. induction Hl as [|[k x] l Hk _ IH]; intros v; [by destruct v|].
  cbn [map mbind list_bind app foldl fst snd].
  erewrite Parse_pair; [|reflexivity|reflexivity|reflexivity|cbn [fg_set]; rewrite kv_Set_line by done; reflexivity].
  by rewrite IH.
Qed.

Lemma insert_all (l : list (string * string)) :
  foldl (λ m kv, <[kv.1 := kv.2]> m) ∅ l = list_to_map (M := gmap string string) (reverse l).
Proof.
  induction l as [|[k v] l IH] using rev_ind; [done|]. rewrite foldl_snoc, reverse_snoc, IH. done.
Qed.

(** The stage call gets the volume that was printed. *)
Lemma stage_reads_back vol staging key :
  one_line (vol_Id vol) → map_Forall (λ k v, flag_key k ∧ one_line v) (vol_Context vol) →
  parse_stage (stage_args (print_volume vol) staging key) =
  Parsed [] (mkStageVars (vol_Id vol) staging (vol_Context vol) {[secretKey := key]}).
Proof.
  intros Hid Hc. unfold stage_args, parse_stage. rewrite output_lines_printed by done. cbn [app].
  do 2 (erewrite Parse_pair; [|reflexivity..]).
  rewrite Parse_ctx by (eapply Forall_impl; [by apply entries_forall|]; cbn; tauto). cbn [sv_ctx].
  rewrite insert_all, entries_to_map.
  erewrite Parse_pair; [cbn [Parse]; reflexivity|reflexivity|reflexivity|reflexivity|]. cbn [fg_set sv_secrets].
  change ("key=" +:+ key) with (kv_line ("key", key)). by rewrite kv_Set_line.
Qed.

(** ** From the command line to the staged volume *)

Lemma ToVolumeContext_flags cfg : map_Forall (λ k _, flag_key k) (ToVolumeContext cfg).
Proof.
  unfold ToVolumeContext. repeat case_match;
    repeat (apply map_Forall_insert_2; [by vm_compute|]); apply map_Forall_empty.
Qed.
Lemma volume_context_flags cfg e params : map_Forall (λ k _, flag_key k) (volume_context cfg e params).
Proof.
  pose proof (ToVolumeContext_flags cfg) as H. unfold volume_context, formatToVolumeContext. cbn.
  repeat case_match; repeat (apply map_Forall_insert_2; [by vm_compute|]); exact H.
Qed.

(** What a successful CreateVolume answers with. *)
Lemma CreateVolume_ok req r tr vol r' :
  exec (CreateVolume req) r tr (Ok vol) r' →
  ∃ cfg e f, ConfigFromParams (cr_Parameters req) = Ok cfg ∧ encryptedFromParams (cr_Parameters req) = Ok e ∧
    formatFromParams (cr_Parameters req) e = Ok f ∧ volumeIDFromName cfg (cr_Name req) = Ok (vol_Id vol) ∧
    vol_Context vol = volume_context cfg e (cr_Parameters req).
Proof.
  unfold CreateVolume. case_bool_decide; [by intros (_ & [=] & _)|].
  intros (t1 & [] & r1 & t2 & -> & _ & He)%exec_bindE_ok.
  apply exec_bindE_ok in He as (t3 & cfg & r2 & t4 & -> & (_ & Hc & _) & He).
  apply exec_bindE_ok in He as (t5 & e & r3 & t6 & -> & (_ & Hen & _) & He).
  apply exec_bindE_ok in He as (t7 & f & r4 & t8 & -> & (_ & Hf & _) & He).
  apply exec_bindE_ok in He as (t9 & p & r5 & t10 & -> & _ & He).
  apply exec_bindE_ok in He as (t11 & im & r6 & t12 & -> & _ & He).
  apply exec_bindE_ok in He as (t13 & n & r7 & t14 & -> & _ & He).
  destruct (e && _); [by destruct He as (_ & [=] & _)|].
  apply exec_bindE_ok in He as (t15 & id & r8 & t16 & -> & (_ & Hid & _) & He).
  apply exec_bindE_ok in He as (t17 & m & r9 & t18 & -> & Hm & (_ & [= ->] & _)).
  apply exec_wrap_ok in Hm. pose proof (proj1 (wp_exec _ _ _) (Create_post _ _ _ _ _) _ _ _ Hm) as (_ & _ & Em & _).
  exists cfg, e, f. cbn. rewrite Em. destruct (ConfigFromParams _), (encryptedFromParams _), (formatFromParams _ _);
    naive_solver.
Qed.

Lemma keys_of_secret key :
  MinKeyLen ≤ String.length key → keysFromSecrets {[secretKey := key]} = Ok (mkKeys key "").
Proof.
  intros Hlen. unfold keysFromSecrets, mget.
  rewrite lookup_singleton_eq, lookup_singleton_ne by done. cbn [default from_option id].
  rewrite !bool_decide_false; [done|lia|]. intros ->. unfold MinKeyLen in Hlen. cbn in Hlen. lia.
Qed.

(** C16: a volume created and staged from the command line.  When the create
    command succeeds against the controller, its parameters were accepted;
    and if the ID and the values of the volume context fit on a line each, the
    stage command that is given the printed lines and a staging path that is
    not empty sends the node the same volume ID and exactly the volume's
    context, commas, equal signs and all.  The node reads from it the
    controller's configuration, and for an encrypted volume the same format,
    with the key given if that has the minimum length. *)
Theorem csi_call_roundtrip args rest v r tr out r' staging key :
  exec (create CreateVolume args) r tr (Done out) r' → parse_create args = Parsed rest v → staging ≠ "" →
  ∃ cfg e f id,
    ConfigFromParams (cv_params v) = Ok cfg ∧ encryptedFromParams (cv_params v) = Ok e ∧
    formatFromParams (cv_params v) e = Ok f ∧ volumeIDFromName cfg (cv_name v) = Ok id ∧
    let vc := volume_context cfg e (cv_params v) in
    (one_line id → map_Forall (λ _ x, one_line x) vc →
     ∃ sv, parse_stage (stage_args out staging key) = Parsed [] sv ∧
       stage_request sv = mkStage id staging vc {[secretKey := key]} (Some mountCap) ∧
       (e = false → stage_input (stage_request sv) = Ok (mkInput false (mkKeys "" "") (mkFormat "" 0) cfg)) ∧
       (e = true → MinKeyLen ≤ String.length key →
        stage_input (stage_request sv) = Ok (mkInput true (mkKeys key "") f cfg))).
Proof.
  unfold create. intros He Hp Hst. rewrite Hp in He.
  apply exec_bind in He as (t1 & res & r1 & t2 & -> & He & (_ & Hd & _)).
  destruct res as [vol|e]; [|done]. injection Hd as ->.
  apply CreateVolume_ok in He as (cfg & e & f & Hc & Hen & Hf & Hid & Hvc). cbn in Hc, Hen, Hf, Hid, Hvc.
  exists cfg, e, f, (vol_Id vol). do 4 (split; [done|]).
  set (vc := volume_context cfg e (cv_params v)) in *. intros H1 Hl.
  assert (map_Forall (λ k x, flag_key k ∧ one_line x) vc) as Hk.
  { intros k x Hx. split; [by eapply volume_context_flags|by eapply Hl]. }
  eexists. rewrite stage_reads_back by (rewrite ?Hvc; done). split; [done|]. unfold stage_request.
  cbn [sv_volume sv_staging sv_ctx sv_secrets]. rewrite Hvc. fold vc. split; [done|].
  destruct (volume_context_decodes _ _ _ _ Hc Hen Hf) as (D1 & _ & D3). fold vc in D1, D3.
  assert (vol_Id vol ≠ "") as Hne.
  { unfold volumeIDFromName in Hid. case_match; [done|]. injection Hid as <-. done. }
  unfold stage_input. cbn [sr_VolumeId sr_StagingTargetPath sr_VolumeContext sr_Secrets].
  rewrite !bool_decide_false, D1 by done. cbn [orb]. unfold vc. rewrite volume_context_enc. fold vc.
  split; intros ->; [done|]. intros Hlen. by rewrite bool_decide_true, keys_of_secret, D3 by done.
Qed.

(** The Adiantum volume of the smoke test: its cipher has a comma. *)
Definition smoke_args : list string :=
  ["-name"; "cipher-adiantum"; "-bytes"; "134217728"; "-p"; "backingStore.type=local";
   "-p"; "backingStore.local.path=/backing"; "-p"; "encrypted=true";
   "-p"; "encryption.cipher=xchacha12,aes-adiantum-plain64"; "-p"; "encryption.keySize=256"].
Definition smoke_create := run empty_store (create CreateVolume smoke_args) (NewRegistry "/stores" true true true) tt.
Definition smoke_key : string := "0123456789abcdef0123456789abcdef".
Definition smoke_out : string := match smoke_create.1.1.1 with Done out => out | _ => "" end.
Definition smoke_stage : StageRequest :=
  match parse_stage (stage_args smoke_out "/staging/v" smoke_key) with
  | Parsed _ sv => stage_request sv
  | Exits _ => mkStage "" "" ∅ ∅ None
  end.

Definition smoke_vars : create_vars :=
  match parse_create smoke_args with Parsed _ v => v | Exits _ => mkCreateVars "" 0 ∅ end.

Lemma csi_call_roundtrip_witness :
  mget (sr_VolumeContext smoke_stage) ParamCipher = "xchacha12,aes-adiantum-plain64" ∧
  ∃ cfg f, stage_input smoke_stage = Ok (mkInput true (mkKeys smoke_key "") f cfg).
Proof.
  split; [vm_compute; reflexivity|].
  assert (parse_create smoke_args = Parsed [] smoke_vars) as Ep by (vm_compute; reflexivity).
  assert (smoke_create.1.1.1 = Done smoke_out) as Eo by (vm_compute; reflexivity).
  unfold smoke_stage. destruct smoke_create as [[[res r] x] tr] eqn:E. cbn [fst] in Eo. subst res.
  destruct (csi_call_roundtrip smoke_args [] smoke_vars _ tr smoke_out r "/staging/v" smoke_key
              (exec_run _ _ _ _ _ _ _ _ E) Ep ltac:(discriminate)) as (cfg & e & f & id & Hc & He & Hf & Hid & H).
  vm_compute in Hc, He. injection Hc as <-. injection He as <-. vm_compute in Hid. injection Hid as <-.
  destruct H as (sv & -> & _ & _ & Hin).
  - reflexivity.
  - apply map_Forall_to_list. vm_compute. repeat constructor.
  - eexists _, f. apply Hin; [reflexivity|vm_compute; lia].
Defined.
