(* ===== verification/NodeStage.v ===== *)
(** Staging: properties of NodeStageVolume (pkg/driver/node.go).

    A loop device is attached to an image only after everything that backs it
    was found idle and was detached; a stage that fails releases the devices
    it took; a stage that succeeds leaves the entry that describes it. *)

From Stdlib Require Import ZArith Lia.
From stdpp Require Import base option gmap strings list.
From S2P Require Import Prelude GoStrings Effects Json Store Image Crypt Mount Loop Registry Encryption.
From S2P Require Import Controller Monitor Node.

Import strings path.
Local Open Scope prog_scope.

Definition attach_cmd (sector : Z) (img : string) : Cmd :=
  mkCmd "losetup" ["--find"; "--show"; "--sector-size"; Itoa sector; img] [] [].

(** The event is no attach command. *)
Definition no_attach (e : event) : Prop :=
  match ev_run e with
  | Some (c, _) => bool_decide (cmd_name c = "losetup") && bool_decide (head (cmd_args c) = Some "--find") = false
  | None => True
  end.

Section NoAttach.
Context {S : Type}.

Lemma Get_no_attach cfg : emits no_attach (Registry.Get cfg).
Proof.
  unfold Registry.Get, acquire, resolve_store, lockStore, mount_target, evict, stillMounted, checkMountPoint,
    clearCheck, locked, mount_with, NFSMount, LocalMount, BindMount, IsMountPoint.
  solve_emits; done.
Qed.
Lemma IsMountPoint_no_attach p : emits (S := S) no_attach (IsMountPoint p).
Proof. unfold IsMountPoint. solve_emits; done. Qed.
Lemma Detach_no_attach dev : emits (S := S) no_attach (Detach dev).
Proof. unfold Detach. solve_emits; done. Qed.
Lemma CloseMapping_no_attach name : emits (S := S) no_attach (CloseMapping name).
Proof. unfold CloseMapping, cryptsetup. solve_emits; done. Qed.
Lemma List_no_attach : emits (S := S) no_attach List.
Proof. unfold List. solve_emits; done. Qed.
Lemma ListMappings_no_attach root : emits (S := S) no_attach (ListMappings root).
Proof. eapply emits_mono; [|apply ListMappings_quiet]. intros e He. unfold no_attach. by rewrite He. Qed.
Lemma isBlank_no_attach dev : emits (S := S) no_attach (isBlank dev).
Proof.
  unfold isBlank. solve_emits; try done. apply emits_loop_pos. intros st. unfold blank_step. solve_emits; done.
Qed.
End NoAttach.
#[export] Hint Resolve Get_no_attach IsMountPoint_no_attach Detach_no_attach CloseMapping_no_attach List_no_attach
  ListMappings_no_attach isBlank_no_attach : emits.

Section NoAttach2.
Context {S : Type}.

Lemma Prepare_no_attach dev name k f : emits (S := S) no_attach (Prepare dev name k f).
Proof.
  unfold Prepare, formatIfBlank, isLuks, rotate, opens, ensureFilesystem, Mkfs, cryptsetup. solve_emits; done.
Qed.
Lemma Unmount_no_attach p : emits (S := S) no_attach (Unmount p).
Proof. unfold Unmount. solve_emits; done. Qed.
End NoAttach2.
#[export] Hint Resolve Prepare_no_attach Unmount_no_attach : emits.

Lemma Put_no_attach m : emits no_attach (Put m).
Proof. unfold Put, flushLocked. solve_emits; done. Qed.
Lemma cacheKeys_no_attach id k b : emits no_attach (cacheKeys id k b).
Proof. unfold cacheKeys. solve_emits; done. Qed.
Lemma detachOnFail_no_attach mp dev : emits no_attach (detachOnFail mp dev).
Proof. unfold detachOnFail. solve_emits; done. Qed.
Lemma orCleanup_emits {A} P c f (m : prog NodeMem (res A)) :
  emits P c → emits P m → emits P (orCleanup c f m).
Proof. intros Hc Hm. unfold orCleanup. solve_emits; done. Qed.
#[export] Hint Resolve Put_no_attach cacheKeys_no_attach detachOnFail_no_attach : emits.
Ltac stage_emits := solve_emits; repeat (apply orCleanup_emits; solve_emits); try done.

Lemma open_device_no_attach input mapper dev : emits no_attach (open_device input mapper dev).
Proof. unfold open_device, SetCapacity. stage_emits. Qed.
Lemma mount_device_no_attach req input img mapper dev cd : emits no_attach (mount_device req input img mapper dev cd).
Proof. unfold mount_device, Fsck, SetCapacity, Resize2fs, MountFs, Clear. stage_emits. Qed.
Lemma adoptStage_no_attach n req img loops enc k : emits no_attach (adoptStage n req img loops enc k).
Proof. unfold adoptStage, Source, Clear. stage_emits. Qed.
Lemma loopBusy_no_attach n dev : emits no_attach (loopBusy n dev).
Proof. unfold loopBusy, IsSourceMounted, IsSourceMountedInHost, sourceMounted. stage_emits. Qed.
Lemma loopSectorSize_no_attach n img size enc : emits no_attach (loopSectorSize n img size enc).
Proof. unfold loopSectorSize, SectorSize, FSBlockSize, isLuks, cryptsetup. stage_emits. Qed.
#[export] Hint Resolve open_device_no_attach mount_device_no_attach adoptStage_no_attach loopBusy_no_attach
  loopSectorSize_no_attach : emits.

(** ** Nothing is attached twice *)

(** What shows that a loop device is idle: findmnt found it mounted neither in
    this mount namespace nor in the host's, and no block device holds it. *)
Definition findmnt_source (pre : list string) (dev : string) : Cmd :=
  mkCmd "findmnt" (pre ++ ["-n"; "-o"; "TARGET"; "-S"; dev]) [] [].
Record idle_seen (n : NodeConfig) (dev : string) (h : trace) : Prop := {
  idle_here : ∃ out err, (findmnt_source [] dev, (out, err)) ∈ runs h ∧
    match err with Some e => exit_is 1 e = true | None => TrimSpace out = "" end;
  idle_host : ∃ out err, (findmnt_source ["--task"; "1"] dev, (out, err)) ∈ runs h ∧
    (err = None → TrimSpace out = "");
  idle_holders : ∃ r, Ev (ReadDir (JoinPath [sysRoot n; "block"; Base dev; "holders"])) r ∈ h ∧
    match r with Ok l => l = [] | Err e => is_NotExist e = true end }.

Lemma idle_seen_mono n dev t1 h t2 : idle_seen n dev h → idle_seen n dev (t1 ++ h ++ t2).
Proof.
  intros [(o & e & H1 & H2) (o' & e' & H3 & H4) (r & H5 & H6)].
  split; [exists o, e|exists o', e'|exists r]; (split; [|done]).
  1-2: rewrite !runs_app; apply elem_of_app; right; apply elem_of_app; by left.
  apply elem_of_app; right; apply elem_of_app; by left.
Qed.

Lemma loopBusy_idle n dev s : wp (loopBusy n dev) s (λ r _ tr, r = Ok false → idle_seen n dev tr).
Proof.
  unfold loopBusy, IsSourceMounted, IsSourceMountedInHost, sourceMounted. cbn.
  assert (∀ out1 err1 out2 err2 r,
    match err1 with Some e => exit_is 1 e = true | None => TrimSpace out1 = "" end →
    (err2 = None → TrimSpace out2 = "") →
    match r with Ok l => l = [] | Err e => is_NotExist e = true end →
    idle_seen n dev [Ev (RunCmd (findmnt_source [] dev)) (out1, err1);
                     Ev (RunCmd (findmnt_source ["--task"; "1"] dev)) (out2, err2);
                     Ev (ReadDir (JoinPath [sysRoot n; "block"; Base dev; "holders"])) r]) as Hidle.
  { intros. split.
    - exists out1, err1. split; [cbn; left|done].
    - exists out2, err2. split; [cbn; right; left|done].
    - exists r. split; [right; right; left|done]. }
  assert (∀ (a : NodeMem) o1 e1 o2 e2,
    match e1 with Some e => exit_is 1 e = true | None => TrimSpace o1 = "" end →
    (e2 = None → TrimSpace o2 = "") →
    wp (Sys (ReadDir (JoinPath [sysRoot n; "block"; Base dev; "holders"])) (λ r,
          match r with Ok l => ok (negb (bool_decide (length l = 0))) | Err e => if is_NotExist e then ok false else fail e end))
      a (λ r _ tr, r = Ok false → idle_seen n dev
        ([Ev (RunCmd (findmnt_source [] dev)) (o1, e1); Ev (RunCmd (findmnt_source ["--task"; "1"] dev)) (o2, e2)] ++ tr)))
    as Hend.
  { intros a o1 e1 o2 e2 H1 H2. cbn. intros [l|e]; cbn.
    - case_bool_decide as Hl; cbn; [|done]. intros _. apply Hidle; [done..|]. by destruct l.
    - destruct (is_NotExist e) eqn:E; cbn; [|done]. intros _. by apply Hidle. }
  intros [o1 [e1|]]; cbn.
  1: destruct (exit_is 1 e1) eqn:E1; cbn; [|done].
  2: case_bool_decide as E1; cbn; [|done].
  all: intros [o2 [e2|]]; cbn; [destruct (exit_is 1 e2); cbn; apply Hend; done|].
  all: case_bool_decide; cbn; [apply Hend; done|done].
Qed.

(** Every item of a loop that ended well was done. *)
Lemma exec_for_each_ok {S A} (l : list A) (f : A → prog S (res unit)) s tr s' :
  exec (for_each l f) s tr (Ok tt) s' → ∀ x, x ∈ l → saw (f x) tt tr.
Proof.
  revert s tr. induction l as [|y l IH]; intros s tr He x Hx; [by apply elem_of_nil in Hx|].
  apply exec_bindE_ok in He as (t1 & [] & s1 & t2 & -> & H1 & H2).
  apply elem_of_cons in Hx as [->|Hx]; eauto with saw.
Qed.

(** When a loop device may be attached to [img]: the staging path was found
    unmounted; every device the loop listing showed over the image was found
    idle and was detached; an encrypted volume's mapping was not open. *)
Record attach_allowed (n : NodeConfig) (req : StageRequest) (img : string) (h : trace) : Prop := {
  aa_image : ∃ root, img = ImagePath root (sr_VolumeId req);
  aa_unmounted : saw (S := NodeMem) (IsMountPoint (sr_StagingTargetPath req)) false h;
  aa_loops : ∃ loops, saw (S := NodeMem) (FindBacking img) loops h ∧
    ∀ dev, dev ∈ loops → idle_seen n dev h ∧ saw (S := NodeMem) (Detach dev) tt h;
  aa_mapping : mget (sr_VolumeContext req) ParamEncrypted = "true" →
    saw (S := NodeMem) (IsOpen (sysRoot n) (MapperName (sr_VolumeId req))) false h }.

Definition attach_guard (n : NodeConfig) (req : StageRequest) (h : trace) (e : event) : Prop :=
  ∀ sector img x, ev_run e = Some (attach_cmd sector img, x) → attach_allowed n req img h.

Lemma attach_allowed_mono n req img h t : attach_allowed n req img h → attach_allowed n req img (h ++ t).
Proof.
  intros [H1 H2 (loops & H3 & H4) H5]. split; [done|by apply saw_app_l| |intros; by apply saw_app_l, H5].
  exists loops. split; [by apply saw_app_l|]. intros dev [Hi Hd]%H4.
  split; [by apply (idle_seen_mono n dev [])|by apply saw_app_l].
Qed.

Lemma no_attach_guard n req h e : no_attach e → attach_guard n req h e.
Proof. unfold no_attach, attach_guard. intros H sector img x E. by rewrite E in H. Qed.

(** Parts of a stage that attach nothing. *)
Lemma guard_no_attach {S A} n req h (m : prog S A) s tr a s' :
  emits no_attach m → exec m s tr a s' → always (attach_guard n req) h tr.
Proof.
  intros Hm He. apply always_forall. eapply Forall_impl; [by eapply Hm|]. intros. by apply no_attach_guard.
Qed.

(** An error ends a stage; otherwise the next step follows. *)
Lemma guard_bindE {S A B} n req h (m : prog S (res A)) (f : A → prog S (res B)) s tr r s' :
  emits no_attach m → exec (bindE m f) s tr r s' →
  (∀ t1 a s1 t2, exec m s t1 (Ok a) s1 → exec (f a) s1 t2 r s' → always (attach_guard n req) (h ++ t1) t2) →
  always (attach_guard n req) h tr.
Proof.
  intros Hm [(t1 & a & s1 & t2 & -> & H1 & H2)|(e & -> & H1)]%exec_bindE Hk.
  - apply always_app. split; [by eapply guard_no_attach|eauto].
  - by eapply guard_no_attach.
Qed.
Lemma guard_bind {S A B} n req h (m : prog S A) (f : A → prog S B) s tr r s' :
  emits no_attach m → exec (bind m f) s tr r s' →
  (∀ t1 a s1 t2, exec m s t1 a s1 → exec (f a) s1 t2 r s' → always (attach_guard n req) (h ++ t1) t2) →
  always (attach_guard n req) h tr.
Proof.
  intros Hm (t1 & a & s1 & t2 & -> & H1 & H2)%exec_bind Hk.
  apply always_app. split; [by eapply guard_no_attach|eauto].
Qed.

(** The loop device losetup reports. *)
Definition attached_dev (x : string * option goerr) : option string :=
  match x with
  | (out, None) => if HasPrefix (TrimSpace out) "/dev/loop" then Some (TrimSpace out) else None
  | (_, Some _) => None
  end.

Lemma Attach_spec {S} img sector (s : S) :
  wp (Attach img sector) s (λ r s' t, s' = s ∧
    ∃ x, t = [Ev (RunCmd (attach_cmd sector img)) x] ∧
         match r with Ok dev => attached_dev x = Some dev | Err _ => attached_dev x = None end).
Proof.
  unfold Attach. cbn. intros [out [e|]]; cbn; [by case_match; cbn; eauto 10|].
  destruct (HasPrefix (TrimSpace out) "/dev/loop") eqn:E; cbn; (split; [done|]); eexists; (split; [done|]);
    cbn; by rewrite E.
Qed.

Lemma stage_fresh_guarded n req input img size h s tr r s' :
  exec (stage_fresh n req input img size) s tr r s' → attach_allowed n req img h →
  always (attach_guard n req) h tr.
Proof.
  intros He Hok. eapply guard_bindE; [|exact He|]; [stage_emits|].
  intros t1 sector s1 t2 _ H2. apply (attach_allowed_mono _ _ _ _ t1) in Hok.
  apply exec_bind in H2 as (ta & x & sa & tb & -> & Ha & Hb).
  apply exec_wrap in Ha as (r0 & Ha & ->).
  pose proof (proj1 (wp_exec _ _ _) (Attach_spec img sector s1) _ _ _ Ha) as (-> & y & -> & _).
  apply always_app. split.
  - cbn. split; [|done]. intros sector' img' z [= _ ->]%(f_equal (option_map fst)). done.
  - destruct r0 as [dev|e]; cbn [map_err] in Hb; [|by destruct Hb as (-> & _)].
    eapply guard_no_attach; [|exact Hb]. stage_emits.
Qed.

Lemma saw_loops n loops h1 t1 t2 s1 s2 s3 s4 :
  exec (refuse_busy n loops) s1 t1 (Ok tt) s2 → exec (detach_idle loops) s3 t2 (Ok tt) s4 →
  ∀ dev, dev ∈ loops → idle_seen n dev (h1 ++ t1) ∧ saw (S := NodeMem) (Detach dev) tt t2.
Proof.
  intros Hb Hd dev Hdev. split.
  - destruct (exec_for_each_ok _ _ _ _ _ Hb dev Hdev) as (u1 & u & u2 & sa & sb & -> & Hu).
    apply exec_bindE_ok in Hu as (ua & b & sc & ub & -> & Hu%exec_wrap_ok & Hk).
    destruct b; [by destruct Hk as (_ & [=] & _)|]. destruct Hk as (-> & _ & _).
    rewrite app_assoc, app_nil_r. apply idle_seen_mono.
    by apply (proj1 (wp_exec _ _ _) (loopBusy_idle n dev sa) _ _ _ Hu).
  - destruct (exec_for_each_ok _ _ _ _ _ Hd dev Hdev) as (u1 & u & u2 & sa & sb & -> & Hu%exec_wrap_ok).
    by exists u1, u, u2, sa, sb.
Qed.

Lemma refuse_open_ok n enc mapper s t s' :
  exec (refuse_open n enc mapper) s t (Ok tt) s' → enc = true → saw (S := NodeMem) (IsOpen (sysRoot n) mapper) false t.
Proof.
  intros He ->. apply exec_bindE_ok in He as (t1 & b & s1 & t2 & -> & H1%exec_wrap_ok & Hk).
  destruct b; [by destruct Hk as (_ & [=] & _)|]. eauto with saw.
Qed.

Lemma stage_image_guarded n req input backing m h s tr r s' :
  exec (stage_image n req input backing m) s tr r s' →
  (mget (sr_VolumeContext req) ParamEncrypted = "true" → in_encrypted input = true) →
  (m = false → saw (S := NodeMem) (IsMountPoint (sr_StagingTargetPath req)) false h) →
  always (attach_guard n req) h tr.
Proof.
  intros He Henc Hm. eapply guard_bindE; [|exact He|]; [unfold New; stage_emits|].
  intros t1 root s1 t2 _ He2. cbn zeta in He2. eapply guard_bind; [|exact He2|]; [stage_emits|].
  intros t3 [info|e] s3 t4 _ He4.
  2: { eapply guard_no_attach; [|exact He4]. unfold missing_image. stage_emits. }
  eapply guard_bindE; [|exact He4|]; [unfold FindBacking, Find; stage_emits|].
  intros t5 loops s5 t6 Hf%exec_wrap_ok He6. destruct m.
  { eapply guard_no_attach; [|exact He6]. stage_emits. }
  eapply guard_bindE; [|exact He6|]; [unfold refuse_busy; stage_emits|]. intros t7 [] s7 t8 Hb He8.
  eapply guard_bindE; [|exact He8|]; [unfold refuse_open, IsOpen; stage_emits|]. intros t9 [] s9 t10 Ho He10.
  eapply guard_bindE; [|exact He10|]; [unfold detach_idle; stage_emits|]. intros t11 [] s11 t12 Hd He12.
  eapply stage_fresh_guarded; [exact He12|]. split.
  - by exists root.
  - by apply saw_app_l, saw_app_l, saw_app_l, saw_app_l, saw_app_l, saw_app_l, Hm.
  - exists loops. split; [eauto 10 with saw|]. intros dev Hdev.
    destruct (saw_loops n loops (h ++ t1 ++ t3 ++ t5) _ _ _ _ _ _ Hb Hd dev Hdev) as [Hi Hs].
    split; [|by apply saw_app_r]. rewrite <- (app_nil_l (h ++ _)). rewrite <- !app_assoc.
    apply (idle_seen_mono n dev [] _ (t9 ++ t11)) in Hi. by rewrite <- !app_assoc in Hi.
  - intros E%Henc. apply (refuse_open_ok _ _ _ _ _ _ Ho) in E. eauto 10 with saw.
Qed.

Lemma stage_input_encrypted req input :
  stage_input req = Ok input →
  in_encrypted input = bool_decide (mget (sr_VolumeContext req) ParamEncrypted = "true").
Proof. unfold stage_input. intros H. repeat case_match; simplify_eq; done. Qed.

(** C2: one image is never attached twice.  In every execution of
    NodeStageVolume, a loop device is attached only to the requested volume's
    image and only after: the staging path was found not to be a mount point;
    the loop devices were listed, and each one backing the image was found
    idle (mounted neither in this mount namespace nor, as far as it could be
    read, in the host's, and held by no other block device) and was detached;
    and, for an encrypted volume, sysfs showed no open mapping of its name. *)
Theorem stage_exclusive n req s tr r s' :
  exec (NodeStageVolume n req) s tr r s' → always (attach_guard n req) [] tr.
Proof.
  intros He. unfold NodeStageVolume in He. case_match; [by destruct He as (-> & _)|].
  unfold with_volume in He. eapply guard_bind; [|exact He|]; [unfold lockVolume; stage_emits|].
  intros t0 [] s0 t1 _ (t2 & x & s2 & t3 & -> & H2 & H3)%exec_bind.
  apply always_app. split; [|eapply guard_no_attach; [|exact H3]; stage_emits].
  clear H3 He. unfold stageLocked in H2. eapply guard_bindE; [|exact H2|]; [stage_emits|].
  intros t4 input s4 t5 (-> & Hin & ->) H5. symmetry in Hin. rewrite app_nil_r.
  eapply guard_bindE; [|exact H5|]; [stage_emits|]. intros t6 backing s6 t7 _ H7.
  eapply guard_bindE; [|exact H7|]; [stage_emits|]. intros t8 [] s8 t9 _ H9.
  eapply guard_bindE; [|exact H9|]; [stage_emits|]. intros t10 m s10 t11 Hm%exec_wrap_ok H11.
  eapply guard_bind; [|exact H11|]; [unfold GetMapping; stage_emits|]. intros t12 entry s12 t13 _ H13.
  cbn beta in H13. destruct (staged_at entry (sr_StagingTargetPath req) && m).
  { eapply guard_no_attach; [|exact H13]. stage_emits. }
  eapply stage_image_guarded; [exact H13| |].
  - intros E. rewrite (stage_input_encrypted _ _ Hin). by apply bool_decide_eq_true.
  - intros ->. eauto 10 with saw.
Qed.

(** ** What a stage leaves alone

    The parts of a stage that only call out keep every view of the memory. *)
Section KeepsView.
Context {S V : Type} (view : S → V).

Lemma IsMountPoint_keeps p : keeps view (IsMountPoint p).
Proof. unfold IsMountPoint. solve_keeps. Qed.
Lemma Detach_keeps dev : keeps view (Detach dev).
Proof. unfold Detach. solve_keeps. Qed.
Lemma CloseMapping_keeps name : keeps view (CloseMapping name).
Proof. unfold CloseMapping, cryptsetup. solve_keeps. Qed.
Lemma List_keeps : keeps view List.
Proof. apply keeps_read_only, List_pure. Qed.
Lemma ListMappings_keeps root : keeps view (ListMappings root).
Proof. apply keeps_read_only, ListMappings_pure. Qed.
Lemma Attach_keeps img sector : keeps view (Attach img sector).
Proof. unfold Attach. solve_keeps. Qed.
Lemma SetCapacity_keeps dev : keeps view (SetCapacity dev).
Proof. unfold SetCapacity. solve_keeps. Qed.
Lemma Fsck_keeps dev : keeps view (Fsck dev).
Proof. unfold Fsck. solve_keeps. Qed.
Lemma Resize2fs_keeps dev : keeps view (Resize2fs dev).
Proof. unfold Resize2fs. solve_keeps. Qed.
Lemma MountFs_keeps a b c d : keeps view (MountFs a b c d).
Proof. unfold MountFs. solve_keeps. Qed.
Lemma Source_keeps p : keeps view (Source p).
Proof. unfold Source. solve_keeps. Qed.
Lemma sourceMounted_keeps dev pre : keeps view (sourceMounted dev pre).
Proof. unfold sourceMounted. solve_keeps. Qed.
Lemma isBlank_keeps dev : keeps view (isBlank dev).
Proof.
  unfold isBlank. solve_keeps. apply keeps_loop_pos. intros st. unfold blank_step. solve_keeps.
Qed.
Lemma Prepare_keeps dev name k f : keeps view (Prepare dev name k f).
Proof.
  pose proof isBlank_keeps. pose proof CloseMapping_keeps.
  unfold Prepare, formatIfBlank, isLuks, rotate, opens, ensureFilesystem, Mkfs, cryptsetup. solve_keeps.
Qed.
Lemma SectorSize_keeps dev : keeps view (SectorSize dev).
Proof. unfold SectorSize, isLuks, cryptsetup. solve_keeps. Qed.
Lemma FSBlockSize_keeps p : keeps view (FSBlockSize p).
Proof. unfold FSBlockSize. solve_keeps. Qed.
Lemma Find_keeps f : keeps view (Find f).
Proof. pose proof List_keeps. unfold Find. solve_keeps. Qed.
Lemma New_keeps p : keeps view (New p).
Proof. unfold New. solve_keeps. Qed.
Lemma Unmount_keeps p : keeps view (Unmount p).
Proof. pose proof IsMountPoint_keeps. unfold Unmount. solve_keeps. Qed.
Lemma BindMount_keeps a b c : keeps view (BindMount a b c).
Proof. unfold BindMount. solve_keeps. Qed.
Lemma ResizeMapping_keeps name : keeps view (ResizeMapping name).
Proof. unfold ResizeMapping, cryptsetup. solve_keeps. Qed.
Lemma ReadMountInfo_keeps p : keeps view (ReadMountInfo p).
Proof. unfold ReadMountInfo. solve_keeps. Qed.
End KeepsView.
#[export] Hint Resolve IsMountPoint_keeps Detach_keeps CloseMapping_keeps List_keeps ListMappings_keeps Attach_keeps
  SetCapacity_keeps Fsck_keeps Resize2fs_keeps MountFs_keeps Source_keeps sourceMounted_keeps Prepare_keeps
  SectorSize_keeps FSBlockSize_keeps Find_keeps New_keeps Unmount_keeps BindMount_keeps ResizeMapping_keeps
  ReadMountInfo_keeps : keeps.

Section KeepsNode.
Context {V : Type} (view : NodeMem → V).

Lemma loopBusy_keeps n dev : keeps view (loopBusy n dev).
Proof. unfold loopBusy, IsSourceMounted, IsSourceMountedInHost. solve_keeps. Qed.
Lemma refuse_busy_keeps n loops : keeps view (refuse_busy n loops).
Proof. pose proof loopBusy_keeps. unfold refuse_busy. solve_keeps. Qed.
Lemma refuse_open_keeps n enc mapper : keeps view (refuse_open n enc mapper).
Proof. unfold refuse_open, IsOpen. solve_keeps. Qed.
Lemma detach_idle_keeps loops : keeps view (detach_idle loops).
Proof. unfold detach_idle. solve_keeps. Qed.
Lemma detachOnFail_keeps mp dev : keeps view (detachOnFail mp dev).
Proof. unfold detachOnFail. solve_keeps. Qed.
Lemma loopSectorSize_keeps n img size enc : keeps view (loopSectorSize n img size enc).
Proof. unfold loopSectorSize. solve_keeps. Qed.
Lemma orCleanup_keeps {A} c f (m : prog NodeMem (res A)) : keeps view c → keeps view m → keeps view (orCleanup c f m).
Proof. intros Hc Hm. unfold orCleanup. solve_keeps. Qed.
Lemma missing_image_keeps backing : keeps view (missing_image backing).
Proof. unfold missing_image. solve_keeps. Qed.
Lemma pop_mounts_keeps k p : keeps view (pop_mounts k p).
Proof. induction k as [|k IH]; cbn [pop_mounts]; solve_keeps. Qed.
End KeepsNode.
#[export] Hint Resolve loopBusy_keeps refuse_busy_keeps refuse_open_keeps detach_idle_keeps detachOnFail_keeps
  loopSectorSize_keeps orCleanup_keeps missing_image_keeps pop_mounts_keeps : keeps.
Lemma open_device_keeps {V} (view : NodeMem → V) input mapper dev : keeps view (open_device input mapper dev).
Proof. unfold open_device. solve_keeps. Qed.
#[export] Hint Resolve open_device_keeps : keeps.

(** ** A failed stage releases what it took *)

Definition open_cmd (key dev name : string) : Cmd :=
  crypt_cmd [key] ["open"; "--type"; "luks2"; "--disable-keyring"; "--key-file"; SecretFD 0; dev; name].
(** A mapping [name] was opened. *)
Definition opened (name : string) (tr : trace) : Prop :=
  ∃ key dev out, (open_cmd key dev name, (out, None)) ∈ runs tr.

(** The event opens no mapping. *)
Definition no_open (e : event) : Prop :=
  match ev_run e with
  | Some (c, _) => bool_decide (cmd_name c = "cryptsetup") && bool_decide (take 2 (cmd_args c) = ["open"; "--type"]) = false
  | None => True
  end.
Lemma no_open_opened name tr : Forall no_open tr → ~ opened name tr.
Proof.
  intros H (key & dev & out & Hin). apply list_elem_of_omap in Hin as (e & He & E).
  rewrite Forall_forall in H. specialize (H e He). unfold no_open in H. by rewrite E in H.
Qed.
Lemma opened_app name t1 t2 : opened name (t1 ++ t2) ↔ opened name t1 ∨ opened name t2.
Proof. unfold opened. setoid_rewrite runs_app. setoid_rewrite elem_of_app. naive_solver. Qed.

(** The last commands of a trace. *)
Definition ends_with (tr : trace) (cs : list Cmd) : Prop := ∃ v, map fst (runs tr) = v ++ cs.
Lemma ends_with_app t1 t2 cs : ends_with t2 cs → ends_with (t1 ++ t2) cs.
Proof. intros [v E]. exists (map fst (runs t1) ++ v). by rewrite runs_app, map_app, E, app_assoc. Qed.

(** Every failure of [m] ends with the cleanup [C]. *)
Definition fails_with {A} (C : prog NodeMem unit) (m : prog NodeMem (res A)) : Prop :=
  ∀ s tr e s', exec m s tr (Err e) s' → ∃ t1 s1 t2, tr = t1 ++ t2 ∧ exec C s1 t2 tt s'.

Lemma fails_ok {A} C (a : A) : fails_with C (ok a).
Proof. by intros s tr e s' (_ & [=] & _). Qed.
Lemma fails_bindE {A B} C (m : prog NodeMem (res A)) (f : A → prog NodeMem (res B)) :
  fails_with C m → (∀ a, fails_with C (f a)) → fails_with C (bindE m f).
Proof.
  intros Hm Hf s tr e s' [(t1 & a & s1 & t2 & -> & _ & H2)|(e' & _ & H)]%exec_bindE; [|by eapply Hm].
  apply Hf in H2 as (u1 & sa & u2 & -> & H2). exists (t1 ++ u1), sa, u2. by rewrite app_assoc.
Qed.
Lemma fails_orCleanup {A} C f (m : prog NodeMem (res A)) : fails_with C (orCleanup C f m).
Proof.
  intros s tr e s' (t1 & [a|e'] & s1 & t2 & -> & _ & H2)%exec_bind; [by destruct H2 as (_ & [=] & _)|].
  apply exec_bind in H2 as (u1 & [] & sa & u2 & -> & H2 & (-> & _ & ->)). rewrite app_nil_r. eauto.
Qed.
Lemma fails_weaken {A B} C (D : prog NodeMem B) (m : prog NodeMem (res A)) :
  fails_with (D ;; C) m → fails_with C m.
Proof.
  intros Hm s tr e s' (t1 & s1 & t2 & -> & (u1 & b & sa & u2 & -> & _ & H2)%exec_bind)%Hm.
  exists (t1 ++ u1), sa, u2. by rewrite app_assoc.
Qed.
Lemma detachOnFail_runs mp dev s tr s' :
  exec (detachOnFail mp dev) s tr tt s' →
  map fst (runs tr) = match mp with Some name => [close_cmd name] | None => [] end ++ [detach_cmd dev].
Proof.
  intros (t1 & [] & s1 & t2 & -> & H1 & (t3 & r & s3 & t4 & -> & [_ H3]%exec_Detach & (-> & _))%exec_bind)%exec_bind.
  rewrite !runs_app, !map_app, H3, app_nil_r. f_equal. destruct mp as [name|]; [|by destruct H1 as (-> & _)].
  apply exec_bind in H1 as (u1 & r1 & su & u2 & -> & [_ H1]%exec_CloseMapping & (-> & _)).
  by rewrite app_nil_r.
Qed.

(** The failures of the second half of a stage. *)
Lemma mount_device_fails req input img mapper dev cd :
  fails_with (detachOnFail (if in_encrypted input then Some mapper else None) dev)
    (mount_device req input img mapper dev cd).
Proof.
  unfold mount_device. cbv zeta. set (C := detachOnFail _ _).
  repeat (apply fails_bindE; [try apply fails_orCleanup|intros _]).
  - destruct (in_encrypted input); [apply fails_ok|apply fails_orCleanup].
  - eapply fails_weaken, fails_orCleanup.
  - intros s tr e s' (t1 & x & s1 & t2 & -> & _ & (t3 & y & s3 & t4 & -> & _ & (_ & [=] & _))%exec_bind)%exec_bind.
Qed.

Lemma Prepare_closes {S} dev name k f (s : S) tr e s' :
  exec (Prepare dev name k f) s tr (Err e) s' → opened name tr → ends_with tr [close_cmd name].
Proof.
  intros He Ho.
  assert (∀ m : prog S (res Outcome), m = formatIfBlank dev k f ∨ m = rotate dev k → emits no_open m) as Hq.
  { intros m [->| ->]; unfold formatIfBlank, isLuks, isBlank, rotate, opens, cryptsetup; solve_emits; try done.
    apply emits_loop_pos. intros st. unfold blank_step. solve_emits; done. }
  apply exec_bindE in He as [(t1 & o & s1 & t2 & -> & H1 & He)|(e' & _ & H1)].
  2: { exfalso. eapply no_open_opened, Ho. eapply Hq, H1. by left. }
  pose proof (no_open_opened name _ (Hq _ (or_introl eq_refl) _ _ _ _ H1)) as N1.
  apply exec_bindE in He as [(t3 & o' & s3 & t4 & -> & H3 & He)|(e' & _ & H3)].
  2: { exfalso. apply opened_app in Ho as [Ho|Ho]; [by eapply N1|]. eapply no_open_opened, Ho.
       eapply Hq, H3. by right. }
  pose proof (no_open_opened name _ (Hq _ (or_intror eq_refl) _ _ _ _ H3)) as N3.
  apply exec_bind in He as (t5 & r & s5 & t6 & -> & (r' & t & -> & (-> & -> & ->)) & He).
  do 2 apply ends_with_app.
  destruct r' as [out [e'|]]; cbn [snd] in He.
  { exfalso. destruct He as (-> & _). rewrite !opened_app in Ho.
    destruct Ho as [?|[?|[Ho|Ho]]]; [by eauto..| |].
    - destruct Ho as (? & ? & ? & [[=]%(f_equal (snd ∘ snd))|[]%elem_of_nil]%elem_of_cons).
    - by destruct Ho as (? & ? & ? & []%elem_of_nil). }
  apply exec_bind in He as (t7 & [[]|e'] & s7 & t8 & -> & _ & He); [by destruct He as (_ & [=] & _)|].
  apply exec_bind in He as (t9 & c & s9 & t10 & -> & [_ Hc]%exec_CloseMapping & He).
  do 2 apply ends_with_app. exists [].
  assert (t10 = []) as -> by (destruct c; by destruct He as (-> & _)). by rewrite app_nil_r, Hc.
Qed.

(** ** The ways through a stage *)

(** The memory a stage is about; the registry and the mutexes are not. *)
Definition staged_view (s : NodeMem) := (nd_state s, nd_failures s, nd_keys s).

(** Before the last step of a stage, nothing was attached and the view is the
    one at the start. *)
Record reached (n : NodeConfig) (req : StageRequest) (s : NodeMem) (p : trace) (s1 : NodeMem)
    (input : StageInput) : Prop := {
  re_input : stage_input req = Ok input;
  re_quiet : Forall no_attach p;
  re_view : staged_view s1 = staged_view s }.

Inductive stage_way (n : NodeConfig) (req : StageRequest) (s : NodeMem) (tr : trace) (r : res unit) (s' : NodeMem) : Prop :=
  | way_error e : r = Err e → Forall no_attach tr → staged_view s' = staged_view s → stage_way n req s tr r s'
  | way_already input m p s1 t :
      tr = p ++ t → reached n req s p s1 input →
      st_data (nd_state s) !! sr_VolumeId req = Some m → m_StagePath m = sr_StagingTargetPath req →
      saw (S := NodeMem) (IsMountPoint (sr_StagingTargetPath req)) true p →
      exec ((when in_encrypted input then cacheKeys (sr_VolumeId req) (in_keys input) false) ;; ok tt) s1 t r s' →
      stage_way n req s tr r s'
  | way_adopt input root loops p s1 t :
      tr = p ++ t → reached n req s p s1 input → saw (S := NodeMem) (FindBacking (ImagePath root (sr_VolumeId req))) loops p →
      exec (adoptStage n req (ImagePath root (sr_VolumeId req)) loops (in_encrypted input) (in_keys input)) s1 t r s' →
      stage_way n req s tr r s'
  | way_fresh input root size p s1 t :
      tr = p ++ t → reached n req s p s1 input →
      exec (stage_fresh n req input (ImagePath root (sr_VolumeId req)) size) s1 t r s' →
      stage_way n req s tr r s'.

(** [way_step H] takes the next step of a stage: an error ends it, otherwise
    the trace, the quiet prefix and the view grow. *)
Lemma way_bindE {A} n req s p s1 (m : prog NodeMem (res A)) (f : A → prog NodeMem (res unit)) t r s' :
  exec (bindE m f) s1 t r s' → emits no_attach m → keeps staged_view m →
  Forall no_attach p → staged_view s1 = staged_view s →
  (∀ u1 a s2 u2, t = u1 ++ u2 → exec m s1 u1 (Ok a) s2 → Forall no_attach (p ++ u1) →
     staged_view s2 = staged_view s → exec (f a) s2 u2 r s' → stage_way n req s (p ++ t) r s') →
  stage_way n req s (p ++ t) r s'.
Proof.
  intros [(u1 & a & s2 & u2 & -> & H1 & H2)|(e & -> & H1)]%exec_bindE Hq Hk Hp Hs Hc.
  - eapply Hc; [done|exact H1| | |exact H2].
    + apply Forall_app. split; [done|by eapply Hq].
    + rewrite <- Hs. by eapply exec_keeps.
  - eapply way_error; [done| |].
    + apply Forall_app. split; [done|by eapply Hq].
    + rewrite <- Hs. by eapply exec_keeps.
Qed.

Lemma Get_keeps_view cfg : keeps staged_view (zoom node_registry (Registry.Get cfg)).
Proof. by apply keeps_zoom_other. Qed.
Lemma GetMapping_keeps id : keeps staged_view (zoom node_state (GetMapping id)).
Proof. unfold GetMapping, with_lock. cbn. intros _ s0. split; [|done]. by destruct s0. Qed.
#[export] Hint Resolve Get_keeps_view GetMapping_keeps : keeps.

Lemma exec_GetMapping id s t x s' :
  exec (zoom node_state (GetMapping id)) s t x s' → s' = s ∧ x = st_data (nd_state s) !! id ∧ runs t = [].
Proof.
  revert t x s'. apply wp_exec. unfold GetMapping, with_lock. cbn. intros [] []. by destruct s.
Qed.

Lemma stage_image_way n req input backing mounted s p s1 t r s' :
  reached n req s p s1 input → exec (stage_image n req input backing mounted) s1 t r s' →
  stage_way n req s (p ++ t) r s'.
Proof.
  intros [Hin Hp Hv] He.
  eapply way_bindE; [exact He| | |done|done|]; [unfold New; stage_emits|solve_keeps|].
  intros u1 root s2 u2 -> _ Hp2 Hv2 He2. cbn zeta in He2.
  destruct He2 as (i & u3 & -> & He3). cbn [bind] in He3.
  rewrite !app_assoc in *. change (Ev ?a ?b :: u3) with ([Ev a b] ++ u3). rewrite app_assoc.
  assert (Forall no_attach ((p ++ u1) ++ [Ev (Stat (ImagePath root (sr_VolumeId req))) i])) as Hp3
    by (apply Forall_app; split; [done|by constructor]).
  destruct i as [info|e].
  2: { destruct r as [[]|e'].
       - exfalso. apply exec_bind in He3 as (? & [[]|?] & ? & ? & _ & _ & (_ & [=] & _)).
       - eapply way_error; [done|apply Forall_app; split; [done|]|].
         + assert (emits no_attach (missing_image backing)) as Hm by (unfold missing_image; stage_emits). by eapply Hm.
         + rewrite <- Hv2. by eapply exec_keeps; [apply missing_image_keeps|]. }
  eapply way_bindE; [exact He3| | |done|done|]; [unfold FindBacking, Find; stage_emits|unfold FindBacking; solve_keeps|].
  intros u4 loops s4 u5 -> Hf%exec_wrap_ok Hp4 Hv4 He5. rewrite app_assoc. destruct mounted.
  { eapply way_adopt; [done| |eauto with saw|exact He5]. by split. }
  eapply way_bindE; [exact He5| | |done|done|]; [unfold refuse_busy; stage_emits|solve_keeps|].
  intros u6 [] s6 u7 -> _ Hp6 Hv6 He7. rewrite app_assoc.
  eapply way_bindE; [exact He7| | |done|done|]; [unfold refuse_open, IsOpen; stage_emits|solve_keeps|].
  intros u8 [] s8 u9 -> _ Hp8 Hv8 He9. rewrite app_assoc.
  eapply way_bindE; [exact He9| | |done|done|]; [unfold detach_idle; stage_emits|solve_keeps|].
  intros u10 [] s10 u11 -> _ Hp10 Hv10 He11. rewrite app_assoc.
  eapply way_fresh; [done| |exact He11]. by split.
Qed.

Lemma stageLocked_way n req s t r s' :
  exec (stageLocked n req) s t r s' → stage_way n req s t r s'.
Proof.
  intros He. change t with ([] ++ t).
  eapply way_bindE; [exact He| | |done|done|]; [stage_emits|solve_keeps|].
  intros u1 input s1 u2 -> (-> & Hin & ->) Hp Hv He2. symmetry in Hin.
  eapply way_bindE; [exact He2| | |done|done|]; [stage_emits|solve_keeps|].
  intros u3 backing s3 u4 -> _ Hp3 Hv3 He4. rewrite app_assoc.
  eapply way_bindE; [exact He4| | |done|done|]; [stage_emits|solve_keeps|].
  intros u5 [] s5 u6 -> _ Hp5 Hv5 He6. rewrite app_assoc.
  eapply way_bindE; [exact He6| | |done|done|]; [stage_emits|solve_keeps|].
  intros u7 mounted s7 u8 -> Hmp%exec_wrap_ok Hp7 Hv7 He8. rewrite app_assoc.
  apply exec_bind in He8 as (u9 & entry & s9 & u10 & -> & H9 & He10).
  assert (Forall no_attach u9) as N9 by (revert H9; apply emits_zoom; [typeclasses eauto|unfold GetMapping; stage_emits]).
  apply exec_GetMapping in H9 as (-> & -> & _). rewrite app_assoc. cbn beta in He10.
  assert (reached n req s ((((([] ++ []) ++ u3) ++ u5) ++ u7) ++ u9) s7 input) as Hre.
  { split; [done| |done]. apply Forall_app. by split. }
  destruct (staged_at _ _ && mounted) eqn:E; [|by eapply stage_image_way].
  apply andb_true_iff in E as [E ->]. unfold staged_at in E.
  assert (nd_state s7 = nd_state s) as Es by (by injection Hv7).
  destruct (st_data (nd_state s7) !! sr_VolumeId req) as [m|] eqn:Em; [|done]. rewrite bool_decide_eq_true in E.
  eapply way_already; [done|exact Hre|by rewrite <- Es|done|eauto 10 with saw|exact He10].
Qed.

(** The one attach of a trace. *)
Lemma unique_split (P : event → Prop) p e0 q t1 e t2 :
  Forall P p → Forall P q → ~ P e → p ++ e0 :: q = t1 ++ e :: t2 → p = t1 ∧ e0 = e ∧ q = t2.
Proof.
  revert t1. induction p as [|a p IH]; intros [|b t1] Hp Hq He E; simplify_eq/=.
  - done.
  - exfalso. apply He. rewrite Forall_app, Forall_cons in Hq. tauto.
  - exfalso. apply He. by apply Forall_cons in Hp as [? _].
  - apply Forall_cons in Hp as [_ Hp]. destruct (IH t1 Hp Hq He) as (-> & ? & ?); [done|]. done.
Qed.
Lemma attach_not_no sector img x : ~ no_attach (Ev (RunCmd (attach_cmd sector img)) x).
Proof. done. Qed.
Lemma not_in_quiet tr t1 sector img x t2 :
  Forall no_attach tr → tr = t1 ++ Ev (RunCmd (attach_cmd sector img)) x :: t2 → False.
Proof. intros H ->. apply Forall_app in H as [_ [H _]%Forall_cons]. by apply attach_not_no in H. Qed.

(** Once the device [dev] is attached, an error releases it and the mapping. *)
Definition released (mapper dev : string) (t : trace) : Prop :=
  ends_with t [detach_cmd dev] ∧ (opened mapper t → ends_with t [close_cmd mapper; detach_cmd dev]).

Lemma released_app mapper dev t1 t2 : ~ opened mapper t1 → released mapper dev t2 → released mapper dev (t1 ++ t2).
Proof.
  intros Hn [H1 H2]. split; [by apply ends_with_app|].
  intros [?|?]%opened_app; [done|by apply ends_with_app, H2].
Qed.

Ltac no_open_emits :=
  unfold detachOnFail, CloseMapping, Detach, Fsck, SetCapacity, Resize2fs, MountFs, Unmount,
    IsMountPoint, Put, flushLocked, Clear, cacheKeys, cryptsetup;
  solve_emits; repeat (apply orCleanup_emits; solve_emits); try done.

Lemma mount_device_no_open req input img mapper dev cd :
  emits no_open (mount_device req input img mapper dev cd).
Proof. unfold mount_device. no_open_emits. Qed.
Lemma set_capacity_no_open dev :
  emits no_open (orCleanup (detachOnFail None dev) (statusf Internal "set capacity: ") (SetCapacity dev)).
Proof. no_open_emits. Qed.

Lemma set_capacity_released mapper dev s t e s' :
  exec (orCleanup (detachOnFail None dev) (statusf Internal "set capacity: ") (SetCapacity dev)) s t (Err e) s' →
  released mapper dev t.
Proof.
  intros H. split.
  - destruct (fails_orCleanup _ _ _ _ _ _ _ H) as (t1 & s1 & t2 & -> & H2%detachOnFail_runs).
    apply ends_with_app. by exists [].
  - intros Ho. destruct (no_open_opened mapper t); [|done]. by eapply set_capacity_no_open.
Qed.

Lemma prepare_released mapper dev k f s t e s' :
  exec (orCleanup (detachOnFail None dev) cryptStatus (Prepare dev mapper k f)) s t (Err e) s' →
  released mapper dev t.
Proof.
  intros (t5 & [pr|e4] & s5 & t6 & -> & Hp & H6)%exec_bind; [by destruct H6 as (_ & [=] & _)|].
  apply exec_bind in H6 as (t7 & [] & s7 & t8 & -> & H7%detachOnFail_runs & (-> & _ & ->)).
  rewrite app_nil_r. cbn [app] in H7. split; [apply ends_with_app; by exists []|].
  intros [Ho|(k' & d & o & Hin)]%opened_app.
  - destruct (Prepare_closes _ _ _ _ _ _ _ _ Hp Ho) as [v Ev]. exists v.
    by rewrite runs_app, map_app, Ev, H7, <- app_assoc.
  - apply (list_elem_of_fmap_2 fst) in Hin. change (fst <$> runs t7) with (map fst (runs t7)) in Hin.
    rewrite H7 in Hin. by apply list_elem_of_singleton in Hin.
Qed.

Lemma open_device_released input mapper dev s t e s' :
  exec (open_device input mapper dev) s t (Err e) s' → released mapper dev t.
Proof.
  unfold open_device. destruct (in_encrypted input); [|by intros (_ & [=] & _)].
  intros [(t1 & [] & s1 & t2 & -> & H1 & H2)|(e2 & _ & H1)]%exec_bindE; [|by eapply set_capacity_released].
  apply released_app; [by eapply no_open_opened, set_capacity_no_open|].
  apply exec_bindE in H2 as [(t3 & pr & s3 & t4 & -> & _ & (_ & [=] & _))|(e3 & _ & H3)].
  by eapply prepare_released.
Qed.

Lemma attached_fails input mapper req img dev s t e s' :
  exec (cryptDev <-? open_device input mapper dev ;; mount_device req input img mapper dev cryptDev) s t (Err e) s' →
  released mapper dev t.
Proof.
  intros [(t1 & cd & s1 & t2 & -> & H1 & H2)|(e' & _ & H1)]%exec_bindE; [|by eapply open_device_released].
  destruct (mount_device_fails _ _ _ _ _ _ _ _ _ _ H2) as (u1 & sa & u2 & E2 & Hu%detachOnFail_runs).
  destruct (in_encrypted input) eqn:Ei; cbn [app] in Hu.
  - assert (ends_with (t1 ++ t2) [close_cmd mapper; detach_cmd dev]) as Hw.
    { rewrite E2. do 2 apply ends_with_app. by exists []. }
    split; [|done]. destruct Hw as [v E]. exists (v ++ [close_cmd mapper]). by rewrite E, <- app_assoc.
  - split; [rewrite E2; do 2 apply ends_with_app; by exists []|]. intros Ho. exfalso.
    unfold open_device in H1. rewrite Ei in H1. destruct H1 as (-> & _).
    eapply no_open_opened, Ho. by eapply mount_device_no_open.
Qed.

(** The attach of a new stage. *)
Lemma stage_fresh_split n req input img size s t r s' :
  exec (stage_fresh n req input img size) s t r s' →
  (is_ok r = false ∧ Forall no_attach t) ∨
  ∃ u1 sector x u2 s2, t = u1 ++ Ev (RunCmd (attach_cmd sector img)) x :: u2 ∧
    Forall no_attach u1 ∧ Forall no_attach u2 ∧ staged_view s2 = staged_view s ∧
    match attached_dev x with
    | None => is_ok r = false
    | Some dev => exec (cryptDev <-? open_device input (MapperName (sr_VolumeId req)) dev ;;
                        mount_device req input img (MapperName (sr_VolumeId req)) dev cryptDev) s2 u2 r s'
    end.
Proof.
  intros [(u1 & sec & s2 & u2 & -> & H1 & H2)|(e1 & -> & H1)]%exec_bindE.
  2: { left. split; [done|]. revert H1. apply emits_wrap. stage_emits. }
  assert (Forall no_attach u1) as N1 by (revert H1; apply emits_wrap; stage_emits).
  assert (staged_view s2 = staged_view s) as V1 by (eapply exec_keeps, H1; solve_keeps).
  apply exec_bind in H2 as (u3 & y & s3 & u4 & -> & (r0 & H3 & ->)%exec_wrap & H4).
  pose proof (proj1 (wp_exec _ _ _) (Attach_spec _ sec s2) _ _ _ H3) as (-> & z & -> & Hz).
  right. exists u1, sec, z, u4, s2. split_and!; [done..| |done|].
  - destruct r0 as [d|e1]; cbn [map_err] in H4; [|destruct H4 as (-> & _); constructor].
    revert H4. apply emits_bindE; [stage_emits|intros; stage_emits].
  - destruct r0 as [d|e1]; rewrite Hz; [done|]. by destruct H4 as (_ & -> & _).
Qed.

(** The body of NodeStageVolume under the volume's lock. *)
Lemma NodeStageVolume_body n req s tr r s' :
  exec (NodeStageVolume n req) s tr r s' →
  (is_ok r = false ∧ tr = [] ∧ s' = s) ∨
  ∃ ta sa tc tz, tr = ta ++ tc ++ tz ∧ Forall no_attach ta ∧ runs ta = [] ∧ Forall no_attach tz ∧ runs tz = [] ∧
    staged_view sa = staged_view s ∧ exec (stageLocked n req) sa tc r s'.
Proof.
  unfold NodeStageVolume. case_match; [intros (-> & -> & ->); by left|].
  intros (ta & [] & sa & tb & -> & Ha & (tc & r' & sc & td & -> & Hc & ([] & te & -> & (-> & <- & ->)))%exec_bind)%exec_bind.
  right. exists ta, sa, tc, [Ev (UnlockMu (volume_mu (sr_VolumeId req))) tt].
  pose proof (proj1 (wp_exec (lockVolume (sr_VolumeId req)) s (λ _ s1 t, Forall no_attach t ∧ runs t = [] ∧
    staged_view s1 = staged_view s)) ) as Hl.
  destruct (λ W, Hl W _ _ _ Ha) as (? & ? & ?).
  { unfold lockVolume, with_lock. cbn. intros [] [] []. split_and!; [|done..]. by repeat constructor. }
  split_and!; try done. by constructor.
Qed.

(** C19: a failed stage releases what it took.  When NodeStageVolume returns an
    error after losetup attached a device, the last command it ran is the
    detach of that device; and when it had opened the volume's crypt mapping,
    the last two are closing the mapping and then the detach. *)
Theorem stage_releases n req s tr e s' t1 sector img x dev t2 :
  exec (NodeStageVolume n req) s tr (Err e) s' →
  tr = t1 ++ Ev (RunCmd (attach_cmd sector img)) x :: t2 → attached_dev x = Some dev →
  released (MapperName (sr_VolumeId req)) dev t2.
Proof.
  intros [(_ & -> & _)|(ta & sa & tc & tz & -> & Na & _ & Nz & Rz & _ & Hc)]%NodeStageVolume_body Etr Hx;
    [by destruct t1|].
  destruct (stageLocked_way _ _ _ _ _ _ Hc) as [e' _ Nc _|input m p s1 t -> _ _ _ _ Hk|
    input root loops p s1 t -> [_ Np _] _ Hk|input root size p s1 t -> [_ Np _] Hk].
  - exfalso. eapply not_in_quiet, Etr. by rewrite !Forall_app.
  - exfalso. apply exec_bind in Hk as (? & [] & ? & ? & _ & _ & (_ & [=] & _)).
  - exfalso. eapply not_in_quiet, Etr. rewrite !Forall_app. split_and!; try done. by eapply adoptStage_no_attach.
  - destruct (stage_fresh_split _ _ _ _ _ _ _ _ _ Hk) as [[_ Nt]|(u1 & sec & z & u2 & s2 & -> & N1 & N2 & _ & Hz)].
    { exfalso. eapply not_in_quiet, Etr. by rewrite !Forall_app. }
    replace (ta ++ (p ++ u1 ++ Ev (RunCmd (attach_cmd sec (ImagePath root (sr_VolumeId req)))) z :: u2) ++ tz) with
      ((ta ++ p ++ u1) ++ Ev (RunCmd (attach_cmd sec (ImagePath root (sr_VolumeId req)))) z :: u2 ++ tz)
      in Etr by (rewrite <- !app_assoc; done).
    apply (unique_split no_attach) in Etr as (_ & Ee & <-);
      [|by rewrite !Forall_app|by rewrite Forall_app|apply attach_not_no].
    apply (f_equal ev_run) in Ee. cbn in Ee. assert (z = x) as -> by congruence. rewrite Hx in Hz.
    apply attached_fails in Hz as [Hd Ho]. unfold released, ends_with, opened in *.
    by rewrite runs_app, Rz, app_nil_r.
Qed.

(** ** A stage that succeeds *)

Lemma exec_orCleanup_ok {A} C f (m : prog NodeMem (res A)) s t a s' :
  exec (orCleanup C f m) s t (Ok a) s' → exec m s t (Ok a) s'.
Proof.
  intros (t1 & [b|e] & s1 & t2 & -> & H1 & H2)%exec_bind.
  - destruct H2 as (-> & [= ->] & ->). by rewrite app_nil_r.
  - exfalso. apply exec_bind in H2 as (? & [] & ? & ? & _ & _ & (_ & [=] & _)).
Qed.

Lemma exec_Put m s t r s' :
  exec (zoom node_state (Put m)) s t r s' →
  s' = mkNodeMem (mkState (st_path (nd_state s)) (<[m_VolumeID m := m]> (st_data (nd_state s))))
         (nd_registry s) (nd_failures s) (nd_volMutex s) (nd_keys s).
Proof.
  intros [He E]%exec_zoom; [|typeclasses eauto]. rewrite E. cbn in He.
  pose proof (proj1 (wp_exec _ _ _) (run_op_files (OPut m) (nd_state s) ∅) _ _ _ He) as [E1 _].
  cbn in *. by rewrite E1.
Qed.

Definition clear_failure (id : string) (s : NodeMem) : NodeMem :=
  mkNodeMem (nd_state s) (nd_registry s)
    (mkFailures (delete id (failed (nd_failures s))) (held (nd_failures s))) (nd_volMutex s) (nd_keys s).
Lemma exec_Clear id s t r s' : exec (zoom node_failures (Clear id)) s t r s' → s' = clear_failure id s.
Proof. revert t r s'. apply wp_exec. unfold Clear, with_lock. cbn. by intros [] []. Qed.

Lemma exec_cacheKeys id k b s t r s' :
  exec (cacheKeys id k b) s t r s' →
  s' = set_keys (λ ks, match ks !! id with Some _ => if b then <[id := k]> ks else ks | None => <[id := k]> ks end) s.
Proof. revert t r s'. apply wp_exec. unfold cacheKeys, with_lock. cbn. by intros [] []. Qed.

(** The memory after a volume was staged as [m] with the keys [k]. *)
Definition staged_as (m : Mapping) (k : option Keys) (s s' : NodeMem) : Prop :=
  let id := m_VolumeID m in
  st_data (nd_state s') = <[id := m]> (st_data (nd_state s)) ∧
  failed (nd_failures s') = delete id (failed (nd_failures s)) ∧
  held (nd_failures s') = held (nd_failures s) ∧
  nd_keys s' = match k with Some k => <[id := k]> (nd_keys s) | None => nd_keys s end.

(** Recording a stage: the last steps of both ways to a new entry. *)
Lemma record_staged m (enc : bool) keys s0 t1 s1 t2 s2 t3 x s3 :
  exec (zoom node_state (Put m)) s0 t1 (Ok tt) s1 →
  exec (when enc then cacheKeys (m_VolumeID m) keys true) s1 t2 tt s2 →
  exec (zoom node_failures (Clear (m_VolumeID m))) s2 t3 x s3 →
  staged_as m (if enc then Some keys else None) s0 s3.
Proof.
  intros ->%exec_Put H2 ->%exec_Clear. destruct enc.
  - apply exec_cacheKeys in H2 as ->. unfold staged_as. cbn. split_and!; try done. by case_match.
  - destruct H2 as (_ & _ & ->). done.
Qed.

(** The entry of a new stage. *)
Definition stage_entry (req : StageRequest) (img dev cryptDev : string) : Mapping :=
  mkMapping (sr_VolumeId req) dev img (sr_StagingTargetPath req) cryptDev (Some (sr_VolumeContext req))
    (mountOptionsFromCap (sr_Capability req)).

Lemma mount_device_ok req input img mapper dev cd s t s' :
  exec (mount_device req input img mapper dev cd) s t (Ok tt) s' →
  let target := if in_encrypted input then cd else dev in
  staged_as (stage_entry req img dev cd) (if in_encrypted input then Some (in_keys input) else None) s s' ∧
  saw (S := NodeMem) (Fsck target) tt t ∧ saw (S := NodeMem) (Resize2fs target) tt t ∧
  saw (S := NodeMem) (MountFs target (sr_StagingTargetPath req) DefaultFs (mountOptionsFromCap (sr_Capability req))) tt t.
Proof.
  intros He target. unfold mount_device in He. cbv zeta in He. fold target in He.
  apply exec_bindE_ok in He as (t1 & [] & s1 & u1 & -> & H1%exec_orCleanup_ok & He).
  apply exec_bindE_ok in He as (t2 & [] & s2 & u2 & -> & H2 & He).
  apply exec_bindE_ok in He as (t3 & [] & s3 & u3 & -> & H3%exec_orCleanup_ok & He).
  apply exec_bindE_ok in He as (t4 & [] & s4 & u4 & -> & H4%exec_orCleanup_ok & He).
  apply exec_bindE_ok in He as (t5 & [] & s5 & u5 & -> & H5%exec_orCleanup_ok & He).
  apply exec_bindE_ok in He as (t6 & [] & s6 & u6 & -> & H6%exec_orCleanup_ok & He).
  apply exec_bind in He as (t7 & [] & s7 & u7 & -> & H7 & He).
  apply exec_bind in He as (t8 & y & s8 & u8 & -> & H8 & (-> & _ & ->)).
  assert (s5 = s) as ->.
  { apply (exec_keeps id) in H1; [|solve_keeps]. apply (exec_keeps id) in H3; [|solve_keeps].
    apply (exec_keeps id) in H4; [|solve_keeps]. apply (exec_keeps id) in H5; [|solve_keeps].
    apply (exec_keeps id) in H2; [|solve_keeps]. cbn in *. congruence. }
  split; [exact (record_staged (stage_entry req img dev cd) _ _ _ _ _ _ _ _ _ _ H6 H7 H8)|].
  split_and!; eauto 10 with saw.
Qed.

Lemma Prepare_path {S} dev name k f (s : S) t p o s' :
  exec (Prepare dev name k f) s t (Ok (p, o)) s' → p = MapperPath name.
Proof.
  intros He. apply exec_bindE_ok in He as (t1 & o1 & s1 & t2 & -> & _ & He).
  apply exec_bindE_ok in He as (t3 & o2 & s3 & t4 & -> & _ & He).
  apply exec_bind in He as (t5 & [out [e|]] & s5 & t6 & -> & _ & He); [by destruct He as (_ & [=] & _)|].
  cbn [snd] in He. apply exec_bind in He as (t7 & [[]|e] & s7 & t8 & -> & _ & He).
  - by destruct He as (_ & [= -> _] & _).
  - apply exec_bind in He as (? & [[]|?] & ? & ? & _ & _ & (_ & [=] & _)).
Qed.

Definition crypt_dev (enc : bool) (id : string) : string := if enc then MapperPath (MapperName id) else "".

Lemma open_device_ok input id dev s t cd s' :
  exec (open_device input (MapperName id) dev) s t (Ok cd) s' → cd = crypt_dev (in_encrypted input) id.
Proof.
  unfold open_device, crypt_dev. destruct (in_encrypted input); [|by intros (_ & [= ->] & _)].
  intros (t1 & [] & s1 & t2 & -> & _ & (t3 & [p o] & s3 & t4 & -> & H%exec_orCleanup_ok & (_ & [= ->] & _))%exec_bindE_ok)%exec_bindE_ok.
  by apply Prepare_path in H.
Qed.

(** The mapping the loop over the listed mappings finds. *)
Lemma foldl_mapping name (src : string) (loops : list string) (ms : list CryptMapping) (acc : string * string) :
  let r := foldl (λ acc cm, if bool_decide (cm_Name cm = name) && contains loops (cm_Backing cm)
                            then (cm_Backing cm, src) else acc) acc ms in
  r = acc ∨ ∃ dev, r = (dev, src) ∧ dev ∈ loops ∧ mkCryptMapping name dev ∈ ms.
Proof.
  revert acc. induction ms as [|[nm b] ms IH]; intros acc; cbn [foldl]; [by left|].
  destruct (IH (if bool_decide (nm = name) && contains loops b then (b, src) else acc)) as [E|(dev & E & H1 & H2)].
  - cbn in *. rewrite E. case_bool_decide as Hn; cbn [andb]; [|by left].
    destruct (contains loops b) eqn:Hc; [|by left]. right. exists b. subst nm.
    split_and!; [done|by apply contains_spec|left].
  - right. exists dev. split_and!; [done..|by right].
Qed.

(** What shows that the mount at the staging path is this volume's. *)
Definition adopted (n : NodeConfig) (req : StageRequest) (enc : bool) (loops : list string) (m : Mapping) (t : trace) : Prop :=
  m_LoopDev m ∈ loops ∧
  saw (S := NodeMem) (Source (sr_StagingTargetPath req)) (if enc then m_CryptDev m else m_LoopDev m) t ∧
  (enc = true → ∃ ms, saw (S := NodeMem) (ListMappings (sysRoot n)) ms t ∧
     mkCryptMapping (MapperName (sr_VolumeId req)) (m_LoopDev m) ∈ ms).

Lemma adoptStage_ok n req img loops enc keys s t s' :
  exec (adoptStage n req img loops enc keys) s t (Ok tt) s' →
  ∃ dev, let m := stage_entry req img dev (crypt_dev enc (sr_VolumeId req)) in
    staged_as m (if enc then Some keys else None) s s' ∧ adopted n req enc loops m t.
Proof.
  intros He. unfold adoptStage in He.
  apply exec_bindE_ok in He as (t1 & src & s1 & u1 & -> & H1%exec_wrap_ok & He).
  apply exec_bindE_ok in He as (t2 & found & s2 & u2 & -> & H2 & He).
  case_bool_decide as Hne; [by destruct He as (_ & [=] & _)|].
  apply exec_bindE_ok in He as (t3 & [] & s3 & u3 & -> & H3%exec_wrap_ok & He).
  apply exec_bind in He as (t4 & [] & s4 & u4 & -> & H4 & He).
  apply exec_bind in He as (t5 & y & s5 & u5 & -> & H5 & (-> & _ & ->)).
  assert (s2 = s) as ->.
  { apply (exec_keeps id) in H1; [|solve_keeps]. apply (exec_keeps id) in H2; [|solve_keeps]. cbn in *. congruence. }
  assert (snd found = crypt_dev enc (sr_VolumeId req) ∧ fst found ∈ loops ∧
    src = (if enc then snd found else fst found) ∧
    (enc = true → ∃ ms, saw (S := NodeMem) (ListMappings (sysRoot n)) ms t2 ∧
      mkCryptMapping (MapperName (sr_VolumeId req)) (fst found) ∈ ms)) as (F1 & F2 & F3 & F4).
  { destruct enc; cbn [andb negb] in H2.
    - case_bool_decide as Hs; [|by destruct H2 as (_ & [= ->] & _)].
      apply exec_bindE_ok in H2 as (v1 & ms & w1 & v2 & -> & Hl%exec_wrap_ok & (-> & [= ->] & ->)).
      destruct (foldl_mapping (MapperName (sr_VolumeId req)) src loops ms ("", "")) as [E|(dev & E & Hd & Hm)];
        rewrite E in *; [done|]. cbn. split_and!; try done. intros _. exists ms. eauto with saw.
    - destruct (contains loops src) eqn:Hc; destruct H2 as (_ & [= ->] & _); [|done].
      split_and!; try done. by apply contains_spec. }
  exists (fst found). rewrite <- F1. split.
  - by apply (record_staged (stage_entry req img (fst found) (snd found)) enc keys _ _ _ _ _ _ _ _ H3 H4 H5).
  - split_and!; [done|..].
    + cbn. rewrite F3 in H1. destruct enc; eauto with saw.
    + intros (ms & Hs & Hm)%F4. exists ms. cbn. split; [eauto with saw|done].
Qed.

Lemma staged_as_view m k s0 s s' : staged_view s0 = staged_view s → staged_as m k s0 s' → staged_as m k s s'.
Proof. unfold staged_view, staged_as. intros [= -> -> ->]. done. Qed.

Lemma saw_mid {S A} (m : prog S (res A)) a t1 t t2 : saw m a t → saw m a (t1 ++ t ++ t2).
Proof. eauto with saw. Qed.
Lemma adopted_mid n req enc loops m t1 t t2 : adopted n req enc loops m t → adopted n req enc loops m (t1 ++ t ++ t2).
Proof. intros (? & ? & H). split_and!; [done|by apply saw_mid|]. intros (ms & ? & ?)%H. eauto using saw_mid. Qed.

(** The image was attached as [m]'s loop device and its filesystem checked,
    grown and mounted at the staging path. *)
Definition attached_and_mounted (req : StageRequest) (enc : bool) (m : Mapping) (tr : trace) : Prop :=
  ∃ t1 sector x t2, tr = t1 ++ Ev (RunCmd (attach_cmd sector (m_ImagePath m))) x :: t2 ∧
    attached_dev x = Some (m_LoopDev m) ∧
    let target := if enc then m_CryptDev m else m_LoopDev m in
    saw (S := NodeMem) (Fsck target) tt t2 ∧ saw (S := NodeMem) (Resize2fs target) tt t2 ∧
    saw (S := NodeMem) (MountFs target (sr_StagingTargetPath req) DefaultFs (mountOptionsFromCap (sr_Capability req))) tt t2.

Lemma stage_fresh_ok n req input img size s t s' :
  exec (stage_fresh n req input img size) s t (Ok tt) s' →
  ∃ dev, let m := stage_entry req img dev (crypt_dev (in_encrypted input) (sr_VolumeId req)) in
    staged_as m (if in_encrypted input then Some (in_keys input) else None) s s' ∧
    attached_and_mounted req (in_encrypted input) m t.
Proof.
  intros [[[=] _]|(u1 & sec & x & u2 & s2 & -> & _ & _ & V2 & Hx)]%stage_fresh_split.
  destruct (attached_dev x) as [dev|] eqn:Ex; [|done]. exists dev.
  apply exec_bindE_ok in Hx as (t1 & cd & s3 & t2 & -> & H1 & H2).
  pose proof (open_device_ok _ _ _ _ _ _ _ H1) as ->.
  apply (exec_keeps staged_view) in H1; [|solve_keeps].
  apply mount_device_ok in H2 as (Hs & H3 & H4 & H5). split.
  - eapply staged_as_view; [|exact Hs]. congruence.
  - exists u1, sec, x, (t1 ++ t2). split; [done|]. split; [done|]. cbv zeta. split_and!; by apply saw_app_r.
Qed.

(** C18: what a successful stage leaves.  When NodeStageVolume returns success,
    either the table already held an entry of the volume for this staging
    path, and then nothing was attached and only a missing cached key was
    filled in; or the volume has a new entry with the requested context,
    flags and staging path, its failure mark is gone, its key (if encrypted)
    is the cached one, and no other entry, mark or key changed.  In that case
    either the mount found at the staging path was shown to come from a loop
    device over the volume's image (through its crypt mapping if encrypted)
    and nothing was attached; or losetup attached the entry's device to the
    image and e2fsck, resize2fs and the ext4 mount of its device (the mapping
    if encrypted) at the staging path succeeded after that. *)
Theorem stage_records n req s tr s' :
  exec (NodeStageVolume n req) s tr (Ok tt) s' →
  let id := sr_VolumeId req in
  ∃ input, stage_input req = Ok input ∧
  let enc := in_encrypted input in
  (Forall no_attach tr ∧ nd_state s' = nd_state s ∧ nd_failures s' = nd_failures s ∧
   (∃ m, st_data (nd_state s) !! id = Some m ∧ m_StagePath m = sr_StagingTargetPath req) ∧
   nd_keys s' = (if enc then match nd_keys s !! id with Some _ => nd_keys s | None => <[id := in_keys input]> (nd_keys s) end
                 else nd_keys s)) ∨
  ∃ root dev,
    let m := stage_entry req (ImagePath root id) dev (crypt_dev enc id) in
    staged_as m (if enc then Some (in_keys input) else None) s s' ∧
    ((Forall no_attach tr ∧ ∃ loops, saw (S := NodeMem) (FindBacking (ImagePath root id)) loops tr ∧
                                     adopted n req enc loops m tr) ∨
     attached_and_mounted req enc m tr).
Proof.
  intros [([=] & _)|(ta & sa & tc & tz & -> & Na & _ & Nz & _ & Va & Hc)]%NodeStageVolume_body id.
  destruct (stageLocked_way _ _ _ _ _ _ Hc) as [e' [=]|input m p s1 t -> [Hin Np Vp] Hm Hpath _ Hk|
    input root loops p s1 t -> [Hin Np Vp] Hl Hk|input root size p s1 t -> [Hin Np Vp] Hk];
    exists input; (split; [done|]); rewrite Va in Vp.
  - left. injection Va as Ea1 Ea2 Ea3. injection Vp as E1 E2 E3. rewrite Ea1 in Hm.
    apply exec_bind in Hk as (u1 & [] & s2 & u2 & -> & H1 & (-> & _ & ->)).
    assert (Forall no_attach u1 ∧ s2 = (if in_encrypted input then set_keys (λ ks, match ks !! id with
      Some _ => ks | None => <[id := in_keys input]> ks end) s1 else s1)) as [N1 ->].
    { destruct (in_encrypted input); [|destruct H1 as (-> & _ & ->); done].
      split; [by eapply cacheKeys_no_attach|by apply exec_cacheKeys in H1]. }
    split_and!.
    + by rewrite !Forall_app.
    + by destruct (in_encrypted input).
    + by destruct (in_encrypted input).
    + by exists m.
    + rewrite <- E3. by destruct (in_encrypted input).
  - right. exists root. pose proof (adoptStage_no_attach _ _ _ _ _ _ _ _ _ _ Hk) as Nk.
    apply adoptStage_ok in Hk as (dev & Hs & Ha). exists dev. split; [by eapply staged_as_view|]. left.
    split; [by rewrite !Forall_app|]. exists loops. rewrite <- app_assoc. split; [by apply saw_mid|].
    rewrite (app_assoc ta). by apply adopted_mid.
  - right. exists root. apply stage_fresh_ok in Hk as (dev & Hs & t1 & sec & x & t2 & -> & Hx & H1 & H2 & H3).
    exists dev. split; [by eapply staged_as_view|]. right.
    exists (ta ++ p ++ t1), sec, x, (t2 ++ tz). split; [by rewrite <- !app_assoc|].
    split; [done|]. cbv zeta. split_and!; by apply saw_app_l.
Qed.

(** ** An example: a plaintext volume whose image has an idle leftover loop *)
Definition demo_node : NodeConfig := mkNode "n1" "/sys" false 4096.
Definition demo_stage : StageRequest :=
  mkStage demo_id "/stage/v" (ToVolumeContext demo_config) ∅
    (Some (mkCap false (Some ("ext4", ["noatime"])) SINGLE_NODE_WRITER)).
Definition demo_backing : string := store_path "/stores" demo_config.
Definition demo_image : string := ImagePath demo_backing demo_id.
Definition demo_losetup : string :=
  print 0 (JObj [("loopdevices", JArr [JObj [str_member "name" "/dev/loop5"; str_member "back-file" demo_image]])]).
(** losetup lists the leftover and attaches the next device; [fsck] decides
    how e2fsck ends. *)
Definition stage_outside (fsck : option goerr) : handler unit :=
  on_stat (λ p, if bool_decide (p = demo_backing) then Ok (mkFinfo 0 true)
                else if bool_decide (p = demo_image) then Ok (mkFinfo 1048576 false) else Err ErrNotExist)
  (on_run (λ c, if bool_decide (head (cmd_args c) = Some "--json") then (demo_losetup, None)
                else if bool_decide (head (cmd_args c) = Some "--find") then ("/dev/loop3", None)
                else if bool_decide (cmd_name c = "e2fsck") then ("", fsck) else ("", None)) quiet).
Definition demo_node_mem : NodeMem := NewNodeServer (mkState "/s.json" ∅) (NewRegistry "/stores" true true true).
Definition stage_demo (fsck : option goerr) := run (stage_outside fsck) (NodeStageVolume demo_node demo_stage) demo_node_mem tt.

Lemma stage_demo_exec fsck :
  exec (NodeStageVolume demo_node demo_stage) demo_node_mem (stage_demo fsck).2 (stage_demo fsck).1.1.1 (stage_demo fsck).1.1.2.
Proof. unfold stage_demo. destruct (run _ _ _ _) as [[[r s] x] t] eqn:E. by apply exec_run in E. Qed.

Lemma stage_exclusive_witness :
  map (cmd_name ∘ fst) (runs (stage_demo None).2) =
    ["mount"; "losetup"; "findmnt"; "findmnt"; "losetup"; "losetup"; "e2fsck"; "losetup"; "resize2fs"; "mount"] ∧
  always (attach_guard demo_node demo_stage) [] (stage_demo None).2.
Proof.
  split; [vm_compute; reflexivity|].
  apply (stage_exclusive _ _ _ _ _ _ (stage_demo_exec None)).
Defined.

(** e2fsck exits 4: the device just attached is detached again. *)
Definition fsck_error : option goerr := Some (ErrExec "e2fsck" [] 4 "" None).
Lemma stage_releases_witness :
  let t2 := drop 32 (stage_demo fsck_error).2 in
  map fst (runs t2) = [mkCmd "e2fsck" ["-p"; "-f"; "/dev/loop3"] [] []; detach_cmd "/dev/loop3"] ∧
  released (MapperName demo_id) "/dev/loop3" t2.
Proof.
  split; [vm_compute; reflexivity|].
  assert (∃ e, (stage_demo fsck_error).1.1.1 = Err e) as [e Ee] by (vm_compute; eauto).
  pose proof (stage_demo_exec fsck_error) as He. rewrite Ee in He.
  eapply (stage_releases demo_node demo_stage demo_node_mem _ e _ (take 31 (stage_demo fsck_error).2) 4096 demo_image
    ("/dev/loop3", None) "/dev/loop3" _ He); vm_compute; reflexivity.
Defined.

Lemma stage_records_witness :
  (∃ m, st_data (nd_state (stage_demo None).1.1.2) !! demo_id = Some m ∧ m_LoopDev m = "/dev/loop3") ∧
  ∃ input, stage_input demo_stage = Ok input.
Proof.
  split; [eexists; split; vm_compute; reflexivity|].
  assert ((stage_demo None).1.1.1 = Ok tt) as Ee by (vm_compute; reflexivity).
  pose proof (stage_demo_exec None) as He. rewrite Ee in He.
  destruct (stage_records _ _ _ _ _ He) as (input & Hin & _). by exists input.
Defined.
