(* ===== verification/NodeOps.v ===== *)
(** Unstaging, publishing, expansion: properties of the other handlers of
    pkg/driver/node.go, and the invariant all of them keep. *)

From Stdlib Require Import ZArith Lia Ascii.
From stdpp Require Import base option gmap strings list.
From S2P Require Import Prelude GoStrings Regexp Effects Json Store Image Crypt Mount Loop Registry.
From S2P Require Import Encryption Controller Monitor Node NodeStage.

Import strings path.
Local Open Scope prog_scope.

(** ** Popping the mounts of a staging path *)

Definition umount_cmd (target : string) : Cmd := mkCmd "umount" [target] [] [].
Definition umounts (tr : trace) : list Cmd := List.filter (λ c, bool_decide (cmd_name c = "umount")) (map fst (runs tr)).
Lemma umounts_app t1 t2 : umounts (t1 ++ t2) = umounts t1 ++ umounts t2.
Proof. unfold umounts. by rewrite runs_app, map_app, List.filter_app. Qed.

#[local] Arguments umounts : simpl never.

(** No command but findmnt and the unmount of the path. *)
Definition pops (p : string) (e : event) : Prop :=
  match ev_run e with
  | Some (c, _) => bool_decide (cmd_name c = "findmnt") || bool_decide (c = umount_cmd p) = true
  | None => True
  end.

Lemma Unmount_pops {S} p : emits (S := S) (pops p) (Unmount p).
Proof.
  unfold Unmount, IsMountPoint. solve_emits; try done. unfold pops. cbn. by rewrite (bool_decide_true (_ = umount_cmd p)).
Qed.
Lemma IsMountPoint_pops {S} p : emits (S := S) (pops p) (IsMountPoint p).
Proof. unfold IsMountPoint. solve_emits; done. Qed.

Lemma IsMountPoint_umounts {S} p (s : S) : wp (IsMountPoint p) s (λ _ _ tr, umounts tr = []).
Proof. unfold IsMountPoint. wp_cases; repeat case_match; done. Qed.
Lemma Unmount_umounts {S} p (s : S) : wp (Unmount p) s (λ _ _ tr, length (umounts tr) ≤ 1).
Proof.
  unfold Unmount. apply wp_bindE. eapply wp_mono; [|apply IsMountPoint_umounts].
  intros [[]|e] s' tr Hu; cbn; [|rewrite umounts_app, Hu; unfold umounts; cbn; lia..].
  intros [out [e|]]; cbn; rewrite umounts_app, Hu; apply Nat.le_refl.
Qed.

Lemma pop_mounts_spec k p s :
  wp (pop_mounts k p) s (λ r s' tr,
    s' = s ∧ Forall (pops p) tr ∧ length (umounts tr) ≤ k ∧
    (r = Ok tt → saw (S := NodeMem) (IsMountPoint p) false tr)).
Proof.
  apply wp_exec. intros tr r s' He. split_and!.
  - by apply (exec_keeps id) in He; [|solve_keeps].
  - revert He. revert s tr r s'. change (emits (pops p) (pop_mounts k p)).
    pose proof (@IsMountPoint_pops NodeMem p). pose proof (@Unmount_pops NodeMem p).
    induction k as [|k IH]; cbn [pop_mounts]; solve_emits; done.
  - revert s tr r s' He. induction k as [|k IH]; intros s tr r s' He; cbn [pop_mounts] in He;
      (apply exec_bindE in He as [(t1 & b & s1 & t2 & -> & H1%exec_wrap_ok & He)|(e & -> & (r0 & H1 & _)%exec_wrap)];
       [|apply (proj1 (wp_exec _ _ _) (IsMountPoint_umounts p s)) in H1; rewrite H1; cbn; lia]);
      apply (proj1 (wp_exec _ _ _) (IsMountPoint_umounts p s)) in H1; rewrite umounts_app, H1; cbn [app];
      (destruct b; cbn [negb] in He; [|destruct He as (-> & _); unfold umounts; cbn; lia]).
    + destruct He as (-> & _). unfold umounts. cbn. lia.
    + apply exec_bindE in He as [(t3 & [] & s3 & t4 & -> & H3%exec_wrap_ok & He)|(e & -> & (r0 & H3 & _)%exec_wrap)];
        apply (proj1 (wp_exec _ _ _) (Unmount_umounts p s1)) in H3; [|lia].
      apply IH in He. rewrite umounts_app, length_app. lia.
  - intros ->. revert s tr s' He. induction k as [|k IH]; intros s tr s' He; cbn [pop_mounts] in He;
      apply exec_bindE_ok in He as (t1 & b & s1 & t2 & -> & H1%exec_wrap_ok & He);
      (destruct b; cbn [negb] in He; [|eauto with saw]).
    + by destruct He as (_ & [=] & _).
    + apply exec_bindE_ok in He as (t3 & [] & s3 & t4 & -> & _ & He). apply saw_app_r, saw_app_r. by eapply IH.
Qed.

(** A path on which [k] mounts are stacked: findmnt shows it while one is left
    and each umount takes one away. *)
Definition mount_stack (p : string) : handler nat := λ R c k,
  match c in call R return R * nat with
  | Stat _ => (Ok (mkFinfo 0 true), k)
  | RunCmd c =>
      if bool_decide (c = umount_cmd p) then (("", None), pred k)
      else if bool_decide (cmd_args c = ["-n"; "-o"; "TARGET"; p]) then ((if bool_decide (k = 0) then "" else p, None), k)
      else (("", None), k)
  | c => quiet _ c k
  end.

Section Stack.
Context (p : string) (Hp : p ≠ "" ∧ TrimSpace p = p ∧ Split p "010"%char = [p]).

Lemma run_IsMountPoint s k :
  ∃ t, run (S := NodeMem) (mount_stack p) (IsMountPoint p) s k = (Ok (negb (bool_decide (k = 0))), s, k, t).
Proof.
  destruct Hp as (H1 & H2 & H3). unfold IsMountPoint. cbn. rewrite (bool_decide_false (_ = umount_cmd p)) by done.
  rewrite (bool_decide_false (["-n"; "-o"; "TARGET"; "--target"; p] = _)) by done. cbn.
  rewrite (bool_decide_false (_ = umount_cmd p)) by done. rewrite bool_decide_true by done. cbn.
  eexists. f_equal. f_equal. f_equal. f_equal. case_bool_decide; cbn.
  - rewrite bool_decide_false; [done|]. intros E. apply H1. by rewrite <- E.
  - rewrite H3. cbn. rewrite bool_decide_true by done. done.
Qed.

Lemma run_Unmount s k :
  ∃ t, run (S := NodeMem) (mount_stack p) (Unmount p) s (S k) = (Ok tt, s, k, t).
Proof.
  unfold Unmount, bindE. rewrite run_bind. destruct (run_IsMountPoint s (S k)) as [t ->]. cbn.
  rewrite (bool_decide_false (S k = 0)) by done. cbn.
  rewrite (bool_decide_true (_ = umount_cmd p)) by done. cbn. eauto.
Qed.

#[local] Arguments Unmount : simpl never.

Lemma run_pop_mounts more s k :
  (run (mount_stack p) (pop_mounts more p) s k).1 =
    if bool_decide (k ≤ more) then (Ok tt, s, 0) else (Err (ErrStatus Internal "still mounted after unmounts"), s, k - more).
Proof.
  revert k. induction more as [|more IH]; intros k; cbn [pop_mounts]; unfold bindE, wrap; rewrite !run_bind;
    destruct (run_IsMountPoint s k) as [t ->]; cbn; destruct k as [|k];
    rewrite ?(bool_decide_true (0 = 0)), ?(bool_decide_false (S k = 0)) by done; cbn; try done.
  - rewrite !run_bind. destruct (run_Unmount s k) as [t' ->]. cbn. specialize (IH k).
    destruct (run _ (pop_mounts more p) s k) as [[[r s'] x] t'']. cbn in *. rewrite IH.
    repeat case_bool_decide; try lia; done.
Qed.
End Stack.

(** Popping the mounts of a staging path.  In every execution
    [popStageMounts] runs nothing but findmnt and at most eight unmounts of
    that path, changes no memory, and reports success only after the path was
    found not to be a mount point.  On a path with [k] stacked mounts it
    removes all of them if there are at most eight; otherwise it removes
    eight and reports an error. *)
Theorem popStageMounts_correct p :
  (∀ s tr r s', exec (popStageMounts p) s tr r s' →
     s' = s ∧ Forall (pops p) tr ∧ length (umounts tr) ≤ 8 ∧
     (r = Ok tt → saw (S := NodeMem) (IsMountPoint p) false tr)) ∧
  (p ≠ "" ∧ TrimSpace p = p ∧ Split p "010"%char = [p] → ∀ s k,
     (run (mount_stack p) (popStageMounts p) s k).1 =
       if bool_decide (k ≤ 8) then (Ok tt, s, 0) else (Err (ErrStatus Internal "still mounted after unmounts"), s, k - 8)).
Proof.
  split.
  - intros s. apply wp_exec. apply pop_mounts_spec.
  - intros Hp s k. by apply run_pop_mounts.
Qed.

Lemma popStageMounts_correct_witness :
  (run (mount_stack "/stage/v") (popStageMounts "/stage/v") demo_node_mem 3).1 = (Ok tt, demo_node_mem, 0).
Proof.
  rewrite (proj2 (popStageMounts_correct "/stage/v")); [vm_compute; reflexivity|].
  split_and!; [done|vm_compute; reflexivity..].
Defined.

(** ** Unstaging *)

(** The device a [losetup --detach] command names. *)
Definition ev_detach (e : event) : option string :=
  match ev_run e with
  | Some (c, _) => if bool_decide (cmd_name c = "losetup") && bool_decide (head (cmd_args c) = Some "--detach")
                   then cmd_args c !! 1 else None
  | None => None
  end.
Definition no_detach (e : event) : Prop := ev_detach e = None.

Lemma pop_mounts_no_detach k p : emits no_detach (pop_mounts k p).
Proof.
  induction k as [|k IH]; cbn [pop_mounts]; unfold Unmount, IsMountPoint; solve_emits; done.
Qed.
Lemma CloseMapping_no_detach {S} name : emits (S := S) no_detach (CloseMapping name).
Proof. unfold CloseMapping, cryptsetup. solve_emits; done. Qed.
Lemma List_no_detach {S} : emits (S := S) no_detach List.
Proof. unfold List. solve_emits; done. Qed.
Lemma detach_all_only (loops : list string) :
  emits (λ e, ∀ dev, ev_detach e = Some dev → dev ∈ loops)
    (for_each (S := NodeMem) loops (λ dev, wrap (statusf Internal "losetup --detach: ") (Detach dev))).
Proof.
  apply emits_for_each. intros x Hx. apply emits_wrap. unfold Detach. solve_emits.
  match goal with H : _ = Some ?d |- _ => cbn in H; rewrite !bool_decide_true in H by done; cbn in H; by simplify_eq end.
Qed.

(** A loop over another volume's image is never matched: neither by name nor
    as a silly-renamed file. *)
(** A loop device of the volume: over a file with the image's name, or the
    entry's device over a file NFS renamed when the image was removed. *)
Definition loop_of (id : string) (entry : option Mapping) (a : Attachment) : Prop :=
  Base (BackFile a) = id +:+ ".img" ∨
  ∃ m, entry = Some m ∧ Device a = m_LoopDev m ∧ Regexp.matches sillyRenamed (Base (BackFile a)) = true.
Lemma unstage_match_spec id entry a : unstage_match id entry a = true ↔ loop_of id entry a.
Proof.
  unfold unstage_match, loop_of, SillyRenamed. rewrite orb_true_iff, bool_decide_eq_true.
  destruct entry; [rewrite andb_true_iff, bool_decide_eq_true|]; naive_solver.
Qed.

Lemma unstage_match_other id entry a other :
  unstage_match id entry a = true → other ≠ id → Base (BackFile a) ≠ other +:+ ImageExt.
Proof.
  unfold unstage_match. intros [H|H]%orb_true_iff Hne E.
  - rewrite bool_decide_eq_true, E in H. apply Hne.
    apply (f_equal (λ x, TrimSuffix x ImageExt)) in H. by rewrite !TrimSuffix_app in H.
  - destruct entry as [m|]; [|done]. apply andb_true_iff in H as [_ H]. unfold SillyRenamed in H.
    apply Regexp.matches_lang, Regexp.lang_cat_iff in H as (x & y & H & ->%Regexp.lang_lit & [_ Hy]%Regexp.lang_plus_chr).
    rewrite E in H. apply (f_equal (has_char "g"%char)) in H. rewrite !has_char_app in H.
    rewrite (all_chars_free _ _ _ Hy) in H by done. cbn in H. by rewrite orb_true_r in H.
Qed.

Lemma exec_Delete id s t r s' :
  exec (zoom node_state (DeleteMapping id)) s t r s' →
  s' = mkNodeMem (mkState (st_path (nd_state s)) (delete id (st_data (nd_state s))))
         (nd_registry s) (nd_failures s) (nd_volMutex s) (nd_keys s).
Proof.
  intros [He E]%exec_zoom; [|typeclasses eauto]. rewrite E. cbn in He.
  apply exec_DeleteMapping in He as [E1 _]. cbn in *. by rewrite E1.
Qed.

(** The memory after a volume was unstaged: its entry, failure mark and key
    are gone, nothing else changed. *)
Definition unstaged (id : string) (s s' : NodeMem) : Prop :=
  st_data (nd_state s') = delete id (st_data (nd_state s)) ∧
  failed (nd_failures s') = delete id (failed (nd_failures s)) ∧
  held (nd_failures s') = held (nd_failures s) ∧ nd_keys s' = delete id (nd_keys s).

(** The last steps of an unstage. *)
Lemma forget_volume id entry s t s' :
  entry = st_data (nd_state s) !! id →
  exec (with_lock node_mu (modify (set_keys (delete id))) ;;
        (when bool_decide (is_Some entry) then (zoom node_state (DeleteMapping id) ;; Ret tt)) ;;
        zoom node_failures (Clear id) ;; ok tt) s t (Ok tt) s' → unstaged id s s'.
Proof.
  intros -> (t1 & [] & s1 & t2 & -> & H1 & He)%exec_bind.
  assert (s1 = set_keys (delete id) s) as ->.
  { unfold with_lock in H1. cbn in H1. by destruct H1 as ([] & ? & -> & ([] & ? & -> & (_ & _ & ->))). }
  apply exec_bind in He as (t3 & [] & s3 & t4 & -> & H3 & He).
  apply exec_bind in He as (t5 & y & s5 & t6 & -> & ->%exec_Clear & (_ & _ & ->)).
  case_bool_decide as Hs; cbn in Hs.
  - apply exec_bind in H3 as (t7 & r7 & s7 & t8 & -> & ->%exec_Delete & (_ & _ & ->)). done.
  - destruct H3 as (_ & _ & ->). unfold unstaged. cbn. split_and!; try done.
    rewrite delete_id; [done|]. by apply eq_None_not_Some.
Qed.

(** What justifies detaching a device when [id] is unstaged. *)
Definition unstage_detachable (id : string) (entry : option Mapping) (tr : trace) (dev : string) : Prop :=
  ∃ live a, saw (S := NodeMem) List live tr ∧ a ∈ live ∧ Device a = dev ∧ loop_of id entry a ∧
    ∀ other, other ≠ id → Base (BackFile a) ≠ other +:+ ImageExt.

Lemma close_entry_spec id entry s t r s' :
  exec (close_entry id entry) s t r s' →
  Forall no_detach t ∧ s' = s ∧
  match r with
  | Err e => ∃ m, e = ErrStatus Internal m
  | Ok _ => ∀ m, entry = Some m → m_CryptDev m ≠ "" → saw (S := NodeMem) (CloseMapping (Base (m_CryptDev m))) tt t
  end.
Proof.
  unfold close_entry. destruct entry as [m|].
  - case_bool_decide as Hc; [intros (-> & -> & ->); split_and!; [constructor|done|]; by intros ? [= <-]|].
    intros ([[]|e] & H & ->)%exec_wrap; cbn [map_err]; (split; [by eapply CloseMapping_no_detach|]);
      (split; [by apply exec_CloseMapping in H as [-> _]|]); [|by eexists].
    intros m' [= <-] _. eauto with saw.
  - intros (t1 & x & s1 & t2 & -> & H & (-> & -> & ->))%exec_bind. rewrite app_nil_r.
    split; [by eapply CloseMapping_no_detach|]. split; [by apply exec_CloseMapping in H as [-> _]|done].
Qed.

Lemma for_each_status {S A} (l : list A) c m (f : A → prog S (res unit)) s t e s' :
  exec (for_each l (λ x, wrap (statusf c m) (f x))) s t (Err e) s' → e = ErrStatus c m.
Proof.
  revert s t. induction l as [|x l IH]; intros s t; cbn [for_each]; [by intros (_ & [=] & _)|].
  intros [(t1 & [] & s1 & t2 & -> & _ & H)|(e' & [= <-] & ([[]|e0] & _ & [=])%exec_wrap)]%exec_bindE; [by eapply IH|done].
Qed.

Lemma exec_Find {S} f (s : S) t r s' :
  exec (Find f) s t r s' → s' = s ∧ Forall no_detach t ∧
  ∀ loops, r = Ok loops → ∃ live, saw (S := S) List live t ∧ loops = map Device (List.filter f live).
Proof.
  intros He. split; [by apply (exec_keeps (λ x, x)) in He; [|solve_keeps]|].
  apply exec_bindE in He as [(t1 & live & s1 & t2 & -> & H1 & (-> & -> & ->))|(e & -> & H1)].
  - rewrite app_nil_r. split; [by eapply List_no_detach|]. intros loops [= <-]. eauto with saw.
  - split; [by eapply List_no_detach|done].
Qed.

(** Detaching what the listing matched. *)
Lemma detach_matched id entry h live loops (s : NodeMem) t r s' :
  saw (S := NodeMem) List live h → loops = map Device (List.filter (unstage_match id entry) live) →
  exec (for_each loops (λ dev, wrap (statusf Internal "losetup --detach: ") (Detach dev))) s t r s' →
  Forall (λ e, ∀ dev, ev_detach e = Some dev → unstage_detachable id entry h dev) t ∧ s' = s ∧
  (r = Ok tt → ∀ a, a ∈ live → loop_of id entry a → saw (S := NodeMem) (Detach (Device a)) tt t).
Proof.
  intros Hl -> He. split_and!.
  - eapply Forall_impl; [by eapply detach_all_only|]. cbn beta. intros e Hd dev Hdev.
    apply Hd, list_elem_of_fmap in Hdev as (a & -> & Hin). apply list_elem_of_In, filter_In in Hin as [Hin Hm].
    exists live, a. split_and!; try done; [by apply list_elem_of_In|by apply unstage_match_spec|]. intros other. by eapply unstage_match_other.
  - by apply (exec_keeps (λ x, x)) in He; [|solve_keeps].
  - intros -> a Ha Hm%unstage_match_spec. assert (Device a ∈ map Device (List.filter (unstage_match id entry) live)) as Hin.
    { apply list_elem_of_fmap. exists a. split; [done|]. apply list_elem_of_In, filter_In. by rewrite <- list_elem_of_In. }
    destruct (exec_for_each_ok _ _ _ _ _ He _ Hin) as (t1 & u & t2 & sa & sb & -> & H%exec_wrap_ok).
    by exists t1, u, t2, sa, sb.
Qed.

Lemma unstage_detachable_mono id entry t1 h t2 dev :
  unstage_detachable id entry h dev → unstage_detachable id entry (t1 ++ h ++ t2) dev.
Proof. intros (live & a & Hs & H). exists live, a. split; [by apply saw_mid|done]. Qed.

(** A trace that detaches nothing but what [P] allows. *)
Definition detaches_only (P : string → Prop) (t : trace) : Prop :=
  Forall (λ e, ∀ dev, ev_detach e = Some dev → P dev) t.
Lemma detaches_none P t : Forall no_detach t → detaches_only P t.
Proof. intros H. eapply Forall_impl; [exact H|]. unfold no_detach. intros e E dev Hd. congruence. Qed.

Lemma forget_no_detach id (entry : option Mapping) :
  emits no_detach (with_lock node_mu (modify (set_keys (delete id))) ;;
        (when bool_decide (is_Some entry) then (zoom node_state (DeleteMapping id) ;; Ret tt)) ;;
        zoom node_failures (Clear id) ;; ok tt).
Proof. unfold DeleteMapping, flushLocked, Clear. solve_emits; done. Qed.

Lemma release_devices_spec id s t r s' :
  let entry := st_data (nd_state s) !! id in
  exec (release_devices id entry) s t r s' →
  detaches_only (unstage_detachable id entry t) t ∧
  match r with
  | Err e => s' = s ∧ ∃ m, e = ErrStatus Internal m
  | Ok _ => unstaged id s s' ∧
      (∃ live, saw (S := NodeMem) List live t ∧
         ∀ a, a ∈ live → loop_of id entry a → saw (S := NodeMem) (Detach (Device a)) tt t) ∧
      (∀ m, entry = Some m → m_CryptDev m ≠ "" → saw (S := NodeMem) (CloseMapping (Base (m_CryptDev m))) tt t)
  end.
Proof.
  intros entry He. unfold release_devices in He.
  apply exec_bindE in He as [(t1 & [] & s1 & t2 & -> & (N1 & -> & Hc)%close_entry_spec & He)|(e & -> & (N1 & -> & Hm)%close_entry_spec)].
  2: { split; [by apply detaches_none|done]. }
  apply exec_bindE in He as [(t3 & loops & s3 & t4 & -> & (-> & N3 & Hf)%exec_wrap_ok%exec_Find & He)|
    (e & -> & ([?|e0] & (-> & N3 & _)%exec_Find & [=])%exec_wrap)].
  2: { split; [|by eauto]. apply detaches_none. by apply Forall_app. }
  destruct (Hf loops eq_refl) as (live & Hl & El).
  apply exec_bindE in He as [(t5 & [] & s5 & t6 & -> & H5 & He)|(e & -> & H5)].
  - destruct (detach_matched _ _ _ _ _ _ _ _ _ Hl El H5) as (D5 & -> & Hd5).
    assert (∀ dev, unstage_detachable id entry t3 dev → unstage_detachable id entry (t1 ++ t3 ++ t5 ++ t6) dev) as Hmono
      by (intros; by apply unstage_detachable_mono).
    assert (r = Ok tt) as ->.
    { apply exec_bind in He as (? & ? & ? & ? & _ & _ & He). apply exec_bind in He as (? & ? & ? & ? & _ & _ & He).
      by apply exec_bind in He as (? & ? & ? & ? & _ & _ & (_ & -> & _)). }
    pose proof (forget_no_detach _ _ _ _ _ _ He) as N6. apply forget_volume in He; [|done].
    split; [|split_and!; [done| |intros; by apply saw_app_l, Hc]].
    + unfold detaches_only. rewrite !Forall_app. split_and!; try (by apply detaches_none).
      eapply Forall_impl; [exact D5|]. eauto.
    + exists live. split; [by apply saw_mid|]. intros a Ha Hm. apply saw_app_r, saw_app_r, saw_app_l. by apply Hd5.
  - pose proof (for_each_status _ _ _ _ _ _ _ _ H5) as ->.
    destruct (detach_matched _ _ _ _ _ _ _ _ _ Hl El H5) as (D5 & -> & _). split; [|by eauto].
    unfold detaches_only. rewrite !Forall_app. split_and!; try (by apply detaches_none).
    eapply Forall_impl; [exact D5|]. intros e Hd dev Hdev. by apply unstage_detachable_mono, Hd.
Qed.

(** A handler's body between taking and releasing the volume's lock. *)
Lemma exec_with_volume {A} id (m : prog NodeMem A) s tr r s' :
  exec (with_volume id m) s tr r s' →
  ∃ ta sa tc tz, tr = ta ++ tc ++ tz ∧ runs ta = [] ∧ runs tz = [] ∧ sa = set_volMutex (λ v, {[id]} ∪ v) s ∧ exec m sa tc r s'.
Proof.
  intros (ta & [] & sa & tb & -> & Ha & (tc & r' & sc & td & -> & Hc & ([] & te & -> & (-> & <- & ->)))%exec_bind)%exec_bind.
  unfold lockVolume, with_lock in Ha. cbn in Ha.
  destruct Ha as ([] & ? & -> & ([] & ? & -> & ([] & ? & -> & (-> & _ & ->)))).
  eexists _, _, tc, _. split; [reflexivity|]. done.
Qed.

Lemma runs_nil_no_detach t : runs t = [] → Forall no_detach t.
Proof.
  induction t as [|e t IH]; [constructor|]. rewrite runs_cons. destruct (ev_run e) eqn:E; [done|].
  intros H. constructor; [unfold no_detach, ev_detach; by rewrite E|auto].
Qed.

Lemma pop_mounts_status k p s t e s' : exec (pop_mounts k p) s t (Err e) s' → ∃ m, e = ErrStatus Internal m.
Proof.
  revert s t. induction k as [|k IH]; intros s t He; cbn [pop_mounts] in He;
    (apply exec_bindE in He as [(u1 & b & s3 & u2 & -> & _ & He)|(e1 & [= <-] & ([?|?] & _ & [=])%exec_wrap)]; [|by eauto]);
    (destruct b; cbn [negb] in He; [|by destruct He as (_ & [=] & _)]).
  - destruct He as (_ & [= ->] & _). eauto.
  - apply exec_bindE in He as [(u3 & [] & s4 & u4 & -> & _ & He)|(e1 & [= <-] & ([?|?] & _ & [=])%exec_wrap)]; [|by eauto].
    by eapply IH.
Qed.

(** C21: what NodeUnstageVolume does.  Whatever happens, every device it
    detaches was listed by losetup with a backing file that is the volume's
    image by name, or is silly-renamed under the loop device the volume's
    entry names; it is never a device over another volume's image.  On an
    error (InvalidArgument or Internal) the entry, the failure mark and the
    cached key are as before, so it can be retried.  On success the staging
    path was found unmounted, the entry's crypt mapping is closed, every
    listed device over the volume's image is detached, and the entry, the
    failure mark and the key are gone and nothing else of the tables
    changed. *)
Theorem unstage_correct id path s tr r s' :
  exec (NodeUnstageVolume id path) s tr r s' →
  let entry := st_data (nd_state s) !! id in
  detaches_only (unstage_detachable id entry tr) tr ∧
  match r with
  | Err e => staged_view s' = staged_view s ∧ ∃ c m, e = ErrStatus c m ∧ (c = InvalidArgument ∨ c = Internal)
  | Ok _ => saw (S := NodeMem) (IsMountPoint path) false tr ∧ unstaged id s s' ∧
      (∃ live, saw (S := NodeMem) List live tr ∧
         ∀ a, a ∈ live → loop_of id entry a → saw (S := NodeMem) (Detach (Device a)) tt tr) ∧
      (∀ m, entry = Some m → m_CryptDev m ≠ "" → saw (S := NodeMem) (CloseMapping (Base (m_CryptDev m))) tt tr)
  end.
Proof.
  intros He entry. unfold NodeUnstageVolume in He. case_match.
  { destruct He as (-> & -> & ->). split; [constructor|]. eauto 10. }
  apply exec_with_volume in He as (ta & sa & tc & tz & -> & Ra & Rz & Es & He).
  assert (staged_view sa = staged_view s ∧ nd_state sa = nd_state s) as [Va Sa] by (by subst sa).
  apply exec_bindE in He as [(t1 & [] & s1 & t2 & -> & H1 & He)|(e & -> & H1)].
  2: { split.
       - apply detaches_none. rewrite !Forall_app. split_and!; try (by apply runs_nil_no_detach). by eapply pop_mounts_no_detach.
       - rewrite <- Va. split; [by eapply exec_keeps; [apply pop_mounts_keeps|]|].
         destruct (pop_mounts_status _ _ _ _ _ _ H1) as [m ->]. eauto 10. }
  pose proof (proj1 (wp_exec _ _ _) (pop_mounts_spec 8 path sa) _ _ _ H1) as (-> & _ & _ & Hs).
  destruct He as (x & t3 & -> & He). cbn [bind] in He.
  apply exec_bind in He as (t4 & entry' & s4 & t5 & -> & (-> & -> & R4)%exec_GetMapping & He).
  rewrite Sa in He. fold entry in He. pose proof He as He'. unfold entry in He'. rewrite <- Sa in He'.
  apply release_devices_spec in He' as [Hd Hr]. rewrite Sa in Hd, Hr. fold entry in Hd, Hr.
  replace (ta ++ (t1 ++ Ev (OsOp (Remove path)) x :: t4 ++ t5) ++ tz) with ((ta ++ t1 ++ [Ev (OsOp (Remove path)) x] ++ t4) ++ t5 ++ tz)
    by (repeat (rewrite <- ?app_assoc; cbn [app]); done).
  set (pre := ta ++ t1 ++ [Ev (OsOp (Remove path)) x] ++ t4).
  split.
  - unfold detaches_only. rewrite !Forall_app. split_and!.
    + apply detaches_none. unfold pre. rewrite !Forall_app. split_and!; try (by apply runs_nil_no_detach).
      by eapply pop_mounts_no_detach.
    + eapply Forall_impl; [exact Hd|]. intros e Hx dev Hdev. by apply unstage_detachable_mono, Hx.
    + by apply detaches_none, runs_nil_no_detach.
  - destruct r as [[]|e]; [|destruct Hr as [-> [m ->]]; by eauto 10].
    destruct Hr as (Hu & (live & Hl & Hall) & Hc). split_and!.
    + apply saw_app_l. unfold pre. apply saw_app_r, saw_app_l, Hs. done.
    + unfold unstaged in *. injection Va as E1 E2 E3. by rewrite E2, E3, Sa in Hu.
    + exists live. split; [by apply saw_mid|]. intros. by apply saw_mid, Hall.
    + intros. by apply saw_mid, Hc.
Qed.

(** The volume staged in the example, with another volume's loop beside it. *)
Definition staged_mem : NodeMem := (stage_demo None).1.1.2.
Definition two_loops : string :=
  let row d b := JObj [str_member "name" d; str_member "back-file" b] in
  print 0 (JObj [("loopdevices", JArr [row "/dev/loop3" demo_image; row "/dev/loop9" "/stores/x/other.img"])]).
Definition unstage_outside : handler unit :=
  on_run (λ c, if bool_decide (head (cmd_args c) = Some "--json") then (two_loops, None) else ("", None)) quiet.
Definition unstage_demo := run unstage_outside (NodeUnstageVolume demo_id "/stage/v") staged_mem tt.

Lemma unstage_correct_witness :
  omap ev_detach unstage_demo.2 = ["/dev/loop3"] ∧ unstaged demo_id staged_mem unstage_demo.1.1.2.
Proof.
  split; [vm_compute; reflexivity|].
  destruct unstage_demo as [[[r s] x] tr] eqn:E.
  assert (r = Ok tt) as -> by (change r with (r, s, x, tr).1.1.1; rewrite <- E; vm_compute; reflexivity).
  apply (unstage_correct _ _ _ _ _ _ (exec_run _ _ _ _ _ _ _ _ E)).
Defined.

(** ** Expansion *)

Definition set_capacity_cmd (dev : string) : Cmd := mkCmd "losetup" ["--set-capacity"; dev] [] [].
Definition resize2fs_cmd (dev : string) : Cmd := mkCmd "resize2fs" [dev] [] [].
(** The commands that grow the volume of an entry, from the loop device up. *)
Definition expand_cmds (m : Mapping) : list Cmd :=
  set_capacity_cmd (m_LoopDev m) ::
  if bool_decide (m_CryptDev m = "") then [resize2fs_cmd (m_LoopDev m)]
  else [crypt_cmd [] ["resize"; Base (m_CryptDev m)]; resize2fs_cmd (m_CryptDev m)].

(** C38: what NodeExpandVolume does.  Without a volume ID or path it answers
    InvalidArgument and for a volume that is not staged NotFound, running
    nothing.  Otherwise it grows the loop device, then the crypt mapping if
    there is one, then the filesystem on top, in that order: the commands run
    are a prefix of that list in which all but the last succeeded; success,
    which reports the requested size, means that all of them succeeded, and
    an error is Internal and comes from the last.  No memory changes. *)
Theorem expand_correct id path rg s tr r s' :
  exec (NodeExpandVolume id path rg) s tr r s' →
  s' = s ∧
  if bool_decide (id = "") || bool_decide (path = "")
  then runs tr = [] ∧ ∃ msg, r = Err (ErrStatus InvalidArgument msg)
  else match st_data (nd_state s) !! id with
       | None => runs tr = [] ∧ ∃ msg, r = Err (ErrStatus NotFound msg)
       | Some m =>
           map fst (runs tr) `prefix_of` expand_cmds m ∧
           match r with
           | Ok n => n = GetRequiredBytes rg ∧ map fst (runs tr) = expand_cmds m ∧
                     Forall (λ x, x.2.2 = None) (runs tr)
           | Err e => (∃ msg, e = ErrStatus Internal msg) ∧
               ∃ cs c out err, runs tr = cs ++ [(c, (out, Some err))] ∧ Forall (λ x, x.2.2 = None) cs
           end
       end.
Proof.
  revert tr r s'. apply wp_exec. unfold NodeExpandVolume.
  destruct (bool_decide (id = "")); [by cbn; eauto 10|].
  destruct (bool_decide (path = "")); [by cbn; eauto 10|]. cbn [orb].
  unfold GetMapping, with_lock. cbn. intros [] [].
  assert (mkNodeMem (nd_state s) (nd_registry s) (nd_failures s) (nd_volMutex s) (nd_keys s) = s) as -> by (by destruct s).
  destruct (st_data (nd_state s) !! id) as [m|]; cbn; [|by eauto 10].
  unfold expand_cmds. case_bool_decide as Hc; cbn.
  all: intros [o1 [e1|]]; cbn; [|intros [o2 [e2|]]; cbn; [|try (intros [o3 [e3|]]; cbn)]].
  all: split; [done|]; split; [first [by exists []|by eexists [_]|by eexists [_; _]]|].
  all: lazymatch goal with
       | |- (_ = GetRequiredBytes _) ∧ _ =>
           split; [done|]; split; [done|]; repeat (apply Forall_cons_2; [done|]); apply Forall_nil_2
       | |- _ => split; [by eexists|]; first [eexists [], _, _, _; split; [reflexivity|] |
           eexists [_], _, _, _; split; [reflexivity|] | eexists [_; _], _, _, _; split; [reflexivity|]];
           repeat (apply Forall_cons_2; [done|]); apply Forall_nil_2
       end.
Qed.

Definition expand_node_demo := run (X := unit) quiet (NodeExpandVolume demo_id "/pod/mount" (Some (mkRange 5 0))) staged_mem tt.

Lemma expand_correct_witness :
  expand_node_demo.1.1.1 = Ok 5%Z ∧
  map fst (runs expand_node_demo.2) = [set_capacity_cmd "/dev/loop3"; resize2fs_cmd "/dev/loop3"] ∧
  expand_node_demo.1.1.2 = staged_mem.
Proof.
  split; [vm_compute; reflexivity|]. split; [vm_compute; reflexivity|].
  destruct expand_node_demo as [[[r s] x] tr] eqn:E.
  destruct (expand_correct _ _ _ _ _ _ _ (exec_run _ _ _ _ _ _ _ _ E)) as [Hs _]. exact Hs.
Defined.
