(* ===== verification/NodePublish.v ===== *)
(** Publishing and re-staging: properties of NodePublishVolume and
    NodeUnpublishVolume (pkg/driver/node.go).

    A failed volume is taken apart only when nothing publishes it, and it is
    never handed to a pod before it was staged again. *)

From Stdlib Require Import ZArith Lia.
From stdpp Require Import base option gmap strings list.
From S2P Require Import Prelude GoStrings Effects Json Store Image Crypt Mount Loop Registry Encryption.
From S2P Require Import Controller Monitor Node NodeStage NodeOps.

Import strings path.
Local Open Scope prog_scope.

(** ** What takes a volume apart *)

(** Commands that end a mount, a loop device or a mapping. *)
Definition destructive (c : Cmd) : bool :=
  bool_decide (cmd_name c = "umount") ||
  (bool_decide (cmd_name c = "losetup") && bool_decide (head (cmd_args c) = Some "--detach")) ||
  (bool_decide (cmd_name c = "cryptsetup") && bool_decide (head (cmd_args c) = Some "close")).
Definition harmless (e : event) : Prop :=
  match ev_run e with Some (c, _) => destructive c = false | None => True end.

(** The mount table showed no pod volume on the device of the staging path. *)
Definition unpublished_seen (m : Mapping) (h : trace) : Prop :=
  ∃ content entries, Ev (ReadFile "/proc/self/mountinfo") (Ok content) ∈ h ∧ ParseMountInfo content = Ok entries ∧
    ∀ e, LastAt entries (m_StagePath m) = Some e → PublishTargets entries (MajorMinor e) = [].

(** When a publish may take the volume apart: it was marked failed, its entry
    is known, and nothing publishes it. *)
Definition teardown_allowed (s : NodeMem) (id : string) (h : trace) : Prop :=
  is_Some (failed (nd_failures s) !! id) ∧
  ∃ m, st_data (nd_state s) !! id = Some m ∧ unpublished_seen m h.
Definition teardown_guard (s : NodeMem) (id : string) (h : trace) (e : event) : Prop :=
  harmless e ∨ teardown_allowed s id h.

Lemma teardown_allowed_mono s id h t : teardown_allowed s id h → teardown_allowed s id (h ++ t).
Proof.
  intros (Hf & m & Hm & c & es & Hin & Hp & He). split; [done|]. exists m. split; [done|].
  exists c, es. split; [apply elem_of_app; by left|done].
Qed.

Lemma harmless_guard s id h tr : Forall harmless tr → always (teardown_guard s id) h tr.
Proof. intros H. apply always_forall. eapply Forall_impl; [exact H|]. intros e He h'. by left. Qed.
Lemma allowed_guard s id h tr : teardown_allowed s id h → always (teardown_guard s id) h tr.
Proof.
  revert h. induction tr as [|e tr IH]; intros h Hh; cbn; [done|].
  split; [by right|]. apply IH. by apply teardown_allowed_mono.
Qed.

(** An always-property along two steps of a program. *)
Lemma guard_then {A B} P h (m : prog NodeMem A) (f : A → prog NodeMem B) s tr r s' :
  exec (bind m f) s tr r s' →
  (∀ t1 a s1, exec m s t1 a s1 → always P h t1) →
  (∀ t1 a s1 t2, exec m s t1 a s1 → exec (f a) s1 t2 r s' → always P (h ++ t1) t2) →
  always P h tr.
Proof. intros (t1 & a & s1 & t2 & -> & H1 & H2)%exec_bind Hm Hf. apply always_app. eauto. Qed.

Lemma IsMountPoint_harmless {S} p : emits (S := S) harmless (IsMountPoint p).
Proof. unfold IsMountPoint. solve_emits; done. Qed.
Lemma BindMount_harmless {S} a b c : emits (S := S) harmless (BindMount a b c).
Proof. unfold BindMount. solve_emits; done. Qed.
Lemma publishEvent_harmless n req msg : emits harmless (publishEvent n req msg).
Proof. unfold publishEvent. solve_emits; done. Qed.
#[export] Hint Resolve IsMountPoint_harmless BindMount_harmless publishEvent_harmless : emits.

(** ** Reading the marks and the table *)

Lemma exec_GetFailed id s t x s' :
  exec (zoom node_failures (GetFailed id)) s t x s' →
  s' = s ∧ x = failed (nd_failures s) !! id ∧ Forall harmless t ∧ runs t = [].
Proof.
  revert t x s'. apply wp_exec. unfold GetFailed, with_lock. cbn. intros [] []. destruct s.
  split_and!; try done. by repeat constructor.
Qed.
Lemma GetMapping_harmless id : emits harmless (zoom node_state (GetMapping id)).
Proof. unfold GetMapping. solve_emits; done. Qed.
#[export] Hint Resolve GetMapping_harmless : emits.

Lemma refuse_published_spec m s :
  wp (refuse_published m) s (λ r s' t, s' = s ∧ Forall harmless t ∧ runs t = [] ∧ (r = Ok tt → unpublished_seen m t)).
Proof.
  unfold refuse_published. apply wp_bindE, wp_wrap. eapply wp_mono; [|apply ReadMountInfo_spec].
  intros r s' t (-> & c & -> & ->). destruct c as [content|e]; cbn.
  2: { split_and!; try done. by repeat constructor. }
  destruct (ParseMountInfo content) as [entries|e] eqn:Ep; cbn.
  2: { split_and!; try done. by repeat constructor. }
  assert (∀ r, (∀ e, LastAt entries (m_StagePath m) = Some e → PublishTargets entries (MajorMinor e) = []) →
    r = Ok tt → unpublished_seen m [Ev (ReadFile "/proc/self/mountinfo") (Ok content)]) as Hu.
  { intros r H _. exists content, entries. split_and!; [left|done|done]. }
  destruct (LastAt entries (m_StagePath m)) as [e|] eqn:El; [destruct (PublishTargets entries (MajorMinor e)) eqn:Et|];
    cbn; (split_and!; [done|by repeat constructor|done|]); try done.
  - apply Hu. by intros ? [= <-].
  - by apply Hu.
Qed.

(** ** Re-staging *)

(** The volume was taken apart and found mounted again before the stage. *)
Definition mounted_again (p : string) (tr : trace) : Prop :=
  ∃ t1 t2, tr = t1 ++ t2 ∧ saw (S := NodeMem) (IsMountPoint p) false t1 ∧ saw (S := NodeMem) (IsMountPoint p) true t2.

Lemma mounted_again_mid p t1 t t2 : mounted_again p t → mounted_again p (t1 ++ t ++ t2).
Proof.
  intros (u1 & u2 & -> & H1 & H2). exists (t1 ++ u1), (u2 ++ t2).
  split_and!; [by rewrite <- !app_assoc|by apply saw_app_r|by apply saw_app_l].
Qed.

Lemma stage_clears n req s t s' :
  exec (stageLocked n req) s t (Ok tt) s' →
  failed (nd_failures s') !! sr_VolumeId req = None ∨
  saw (S := NodeMem) (IsMountPoint (sr_StagingTargetPath req)) true t.
Proof.
  intros Hc. destruct (stageLocked_way _ _ _ _ _ _ Hc) as [e' [=]|input m p s1 u -> _ _ _ Hs _|
    input root loops p s1 u -> _ _ Hk|input root size p s1 u -> _ Hk].
  - right. by apply saw_app_l.
  - left. apply adoptStage_ok in Hk as (dev & (_ & -> & _) & _). apply lookup_delete_eq.
  - left. apply stage_fresh_ok in Hk as (dev & (_ & -> & _) & _). apply lookup_delete_eq.
Qed.

Lemma restage_teardown_ok m s t m' s' :
  exec (restage_teardown m) s t (Ok m') s' →
  m_StagePath m' = m_StagePath m ∧ saw (S := NodeMem) (IsMountPoint (m_StagePath m)) false t.
Proof.
  intros (t1 & [] & s1 & t2 & -> & H1%exec_wrap_ok & He)%exec_bindE_ok.
  pose proof (proj1 (wp_exec _ _ _) (pop_mounts_spec 8 (m_StagePath m) s) _ _ _ H1) as (_ & _ & _ & Hs).
  split; [|by apply saw_app_l, Hs].
  case_bool_decide; [by destruct He as (_ & [= ->] & _)|].
  apply exec_bindE_ok in He as (t3 & [] & s3 & t4 & -> & _ & He).
  apply exec_bindE_ok in He as (t5 & [] & s5 & t6 & -> & _ & He). cbv zeta in He.
  apply exec_bindE_ok in He as (t7 & [] & s7 & t8 & -> & _ & (_ & [= ->] & _)). done.
Qed.

Lemma restage_entry_ok n req m s t s' :
  exec (restage_entry n req m) s t (Ok tt) s' →
  failed (nd_failures s') !! pr_VolumeId req = None ∨ mounted_again (m_StagePath m) t.
Proof.
  intros He. unfold restage_entry in He. destruct (m_StageContext m) as [ctx|].
  2: { by apply exec_bind in He as (? & ? & ? & ? & _ & _ & (_ & [=] & _)). }
  apply exec_bind in He as (t1 & key & s1 & t2 & -> & _ & He).
  destruct (restage_secrets ctx key) as [secrets|].
  2: { by apply exec_bind in He as (? & ? & ? & ? & _ & _ & (_ & [=] & _)). }
  apply exec_bindE_ok in He as (t3 & m' & s3 & t4 & -> & (Ep & H3)%restage_teardown_ok & He%exec_wrap_ok).
  apply stage_clears in He as [He|He]; [by left|right]. cbn in He. rewrite Ep in He.
  exists (t1 ++ t3), t4. split_and!; [by rewrite app_assoc|by apply saw_app_r|done].
Qed.

(** Nothing is taken apart before the mount table was read. *)
Lemma restageFailed_spec n req s h t r s' :
  exec (restageFailed n req) s t r s' →
  let id := pr_VolumeId req in
  always (teardown_guard s id) h t ∧
  (r = Ok tt → failed (nd_failures s') !! id = None ∨
     ∃ m, st_data (nd_state s) !! id = Some m ∧ mounted_again (m_StagePath m) t).
Proof.
  intros (ta & sa & tc & tz & -> & Ra & Rz & Es & He)%exec_with_volume id.
  assert (∀ t, runs t = [] → Forall harmless t) as Hq.
  { induction t as [|e t IH]; [constructor|]. rewrite runs_cons. unfold harmless at 1.
    destruct (ev_run e) eqn:E; [done|]. constructor; [by rewrite E|auto]. }
  assert (nd_state sa = nd_state s ∧ nd_failures sa = nd_failures s) as [Sa Fa] by (by subst sa).
  apply exec_bind in He as (t1 & f & s1 & t2 & -> & (-> & -> & N1 & _)%exec_GetFailed & He). rewrite Fa in He. fold id in He.
  destruct (failed (nd_failures s) !! id) as [ft|] eqn:Ef.
  2: { destruct He as (-> & -> & ->). split; [|intros _; left; by rewrite Fa].
       apply harmless_guard. rewrite !Forall_app. split_and!; auto. }
  apply exec_bind in He as (t3 & entry & s3 & t4 & -> & H3 & He).
  pose proof (GetMapping_harmless _ _ _ _ _ H3) as N3. apply exec_GetMapping in H3 as (-> & -> & _).
  rewrite Sa in He. fold id in He. destruct (st_data (nd_state s) !! id) as [m|] eqn:Em.
  2: { destruct He as (-> & -> & ->). split; [|done]. apply harmless_guard. rewrite !Forall_app. split_and!; auto. }
  apply exec_bindE in He as [(t5 & [] & s5 & t6 & -> & H5 & He)|(e & -> & H5)];
    apply (proj1 (wp_exec _ _ _) (refuse_published_spec m sa)) in H5 as (-> & N5 & _ & Hu).
  - split.
    + rewrite !always_app. split_and!; try (apply harmless_guard; by auto).
      all: apply allowed_guard; split; [by rewrite Ef|]; exists m; split; [done|].
      all: destruct (Hu eq_refl) as (c & es & Hin & H1 & H2); exists c, es; split_and!; [set_solver|done|done].
    + intros ->. apply restage_entry_ok in He as [He|He]; [by left|right]. exists m. split; [done|].
      rewrite <- !app_assoc, !(app_assoc _ _ (t6 ++ tz)). by apply mounted_again_mid.
  - split; [|done]. apply harmless_guard. rewrite !Forall_app. split_and!; auto.
Qed.

(** The end of a publish: the target is made and bound. *)
Definition bind_target (req : PublishRequest) : prog NodeMem (res unit) :=
  wrap (statusf Internal "mkdir target: ") (sys (OsOp (MkdirAll (pr_TargetPath req)))) ;;?
  m <- IsMountPoint (pr_TargetPath req) ;;
  match m with
  | Ok true => ok tt
  | _ => wrap (statusf Internal "bind mount: ") (BindMount (pr_StagingTargetPath req) (pr_TargetPath req) (pr_Readonly req))
  end.

Lemma bind_target_spec req s t r s' :
  exec (bind_target req) s t r s' →
  s' = s ∧ Forall harmless t ∧
  (r = Ok tt → saw (S := NodeMem) (IsMountPoint (pr_TargetPath req)) true t ∨
     saw (S := NodeMem) (BindMount (pr_StagingTargetPath req) (pr_TargetPath req) (pr_Readonly req)) tt t).
Proof.
  intros He. split_and!.
  - by apply (exec_keeps (λ x, x)) in He; [|unfold bind_target; solve_keeps].
  - revert He. assert (emits harmless (bind_target req)) as H by (unfold bind_target; solve_emits; done). apply H.
  - intros ->. apply exec_bindE_ok in He as (t1 & [] & s1 & t2 & -> & _ & He).
    apply exec_bind in He as (t3 & m & s3 & t4 & -> & H3 & He).
    destruct m as [[]|e]; [left; eauto with saw|right; apply exec_wrap_ok in He; eauto with saw..].
Qed.

(** C22: a failed volume is staged again before a pod gets it.  In every execution of
    NodePublishVolume, a mount, loop device or mapping is taken away only if
    the volume was marked failed and the mount table, read before, showed no
    pod volume on the device of its staging path.  A volume that is not
    marked is published without changing the state table, the marks or the
    keys.  Success means that the target was a mount point or that the
    staging path was bound to it; and that the failure mark is gone, unless
    the staging path, found unmounted, was a mount point again when the
    volume was staged. *)
Theorem publish_safe n req s tr r s' :
  exec (NodePublishVolume n req) s tr r s' →
  let id := pr_VolumeId req in
  always (teardown_guard s id) [] tr ∧
  (failed (nd_failures s) !! id = None → s' = s ∧ Forall harmless tr) ∧
  (r = Ok tt →
     (saw (S := NodeMem) (IsMountPoint (pr_TargetPath req)) true tr ∨
      saw (S := NodeMem) (BindMount (pr_StagingTargetPath req) (pr_TargetPath req) (pr_Readonly req)) tt tr) ∧
     (failed (nd_failures s') !! id = None ∨
      ∃ m, st_data (nd_state s) !! id = Some m ∧ mounted_again (m_StagePath m) tr)).
Proof.
  intros He id. unfold NodePublishVolume in He. case_match; [by destruct He as (-> & -> & ->)|].
  apply exec_bindE in He as [(t1 & [] & s1 & t2 & -> & (-> & _ & ->) & He)|(e & -> & (-> & _ & ->))]; [|done].
  apply exec_bind in He as (t3 & f & s3 & t4 & -> & (-> & -> & N3 & R3)%exec_GetFailed & He). fold id in He.
  case_bool_decide as Hf; cbn [app].
  - apply exec_bindE in He as [(t5 & [] & s5 & t6 & -> & H5 & He)|(e & -> & H5)];
      apply (restageFailed_spec _ _ _ t3) in H5 as [G5 O5]; fold id in G5, O5.
    + apply (bind_target_spec req) in He as (-> & N6 & O6). split_and!.
      * rewrite !always_app. split_and!; [by apply harmless_guard|done|by apply harmless_guard].
      * intros E. rewrite E in Hf. by destruct Hf.
      * intros ->. split; [destruct (O6 eq_refl); [left|right]; by apply saw_app_r, saw_app_r|].
        destruct (O5 eq_refl) as [?|(m & ? & ?)]; [by left|right]. exists m. split; [done|by apply mounted_again_mid].
    + split_and!; [|intros E; rewrite E in Hf; by destruct Hf|done].
      rewrite always_app. split; [by apply harmless_guard|done].
  - apply exec_bindE in He as [(t5 & [] & s5 & t6 & -> & (-> & _ & ->) & He)|(e & _ & (_ & [=] & _))].
    apply (bind_target_spec req) in He as (-> & N6 & O6). cbn [app].
    assert (Forall harmless (t3 ++ t6)) as N by (by rewrite Forall_app). split_and!.
    + by apply harmless_guard.
    + done.
    + intros ->. split; [destruct (O6 eq_refl); [left|right]; by apply saw_app_r|].
      left. by apply eq_None_not_Some.
Qed.

(** A volume of the example marked failed whose staging path no pod uses: the
    publish detaches its loop, stages it again and binds it. *)
Definition failed_mem : NodeMem :=
  mkNodeMem (nd_state staged_mem) (nd_registry staged_mem) (mkFailures {[demo_id := 7%Z]} ∅)
    (nd_volMutex staged_mem) (nd_keys staged_mem).
Definition demo_publish : PublishRequest :=
  mkPublish demo_id "/stage/v" "/pods/p/mount" (Some (mkCap false None SINGLE_NODE_WRITER)) true ∅.
Definition publish_outside : handler unit :=
  on_file (λ _, Ok (print_row (mkRow "37" "29" "/" [] (mkMountInfo "7:3" "/stage/v" ["rw"] "ext4" "/dev/loop3" ["ro"; "emergency_ro"]))))
    (stage_outside None).
Definition publish_demo := run publish_outside (NodePublishVolume demo_node demo_publish) failed_mem tt.

Lemma publish_safe_witness :
  publish_demo.1.1.1 = Ok tt ∧ omap ev_detach publish_demo.2 = ["/dev/loop3"; "/dev/loop5"] ∧
  failed (nd_failures publish_demo.1.1.2) !! demo_id = None ∧
  always (teardown_guard failed_mem demo_id) [] publish_demo.2.
Proof.
  split; [vm_compute; reflexivity|]. split; [vm_compute; reflexivity|]. split; [vm_compute; reflexivity|].
  destruct publish_demo as [[[r s] x] tr] eqn:E.
  destruct (publish_safe _ _ _ _ _ _ (exec_run _ _ _ _ _ _ _ _ E)) as [H _]. exact H.
Defined.
