(* ===== verification/Lifecycle.v ===== *)
(** A volume's life on a node (pkg/driver/node.go on the node of World.v).

    On a node whose commands tell the truth, staging adds one loop device on
    the volume's image, its mapping if it is encrypted, and one mount;
    publishing adds one mount of the same device; unpublishing and unstaging
    take them away again, and nothing else on the node changes but the mount
    of the backing store. *)

From Stdlib Require Import ZArith Lia Ascii.
From stdpp Require Import base option gmap strings list.
From S2P Require Import Prelude GoStrings Sha256 Effects Json Store Image Crypt Mount Loop Registry Encryption.
From S2P Require Import Controller Monitor Node NodeStage NodeOps NodePublish World.

Import strings path.
Local Open Scope prog_scope.

(** ** The last element of a path *)
Section Base.
Lemma Base_last a w : w ≠ "" → has_char "/" w = false → Base (a +:+ "/" +:+ w) = w.
Proof.
  intros Hw Hs. unfold Base. change (a +:+ "/" +:+ w) with (a +:+ String "/" w).
  rewrite bool_decide_false by (by destruct a).
  rewrite Split_app_sep, (Split_free w) by done. rewrite List.filter_app. cbn.
  rewrite (bool_decide_false (w = "")) by done. cbn [negb].
  destruct (List.filter _ (Split a "/")) as [|e es]; [done|]. apply (last_last (e :: es)).
Qed.
Lemma Base_word w : w ≠ "" → has_char "/" w = false → Base w = w.
Proof.
  intros Hw Hs. unfold Base. rewrite bool_decide_false by done. rewrite Split_free by done. cbn.
  by rewrite bool_decide_false.
Qed.
Lemma Base_JoinPath p w : plain_seg w → Base (JoinPath [p; w]) = w.
Proof.
  intros Hw. pose proof Hw as (H1 & H2 & H3 & H4). unfold JoinPath.
  assert (∀ st rooted, Base (if (rooted : bool) then "/" +:+ Join (rev (w :: st)) "/"
            else if bool_decide (Join (rev (w :: st)) "/" = "") then "." else Join (rev (w :: st)) "/") = w) as Hb.
  { intros st rooted. cbn [rev].
    assert (∃ a, "/" +:+ Join (rev st ++ [w]) "/" = a +:+ "/" +:+ w) as [a Ea].
    { destruct (rev st) as [|x l] eqn:E; [by exists ""|]. rewrite Join_app by done. cbn [Join].
      exists ("/" +:+ Join (x :: l) "/"). by rewrite sapp_assoc. }
    destruct rooted; [rewrite Ea; by apply Base_last|].
    destruct (rev st) as [|x l] eqn:E; cbn [app].
    - cbn [Join]. rewrite bool_decide_false by done. by apply Base_word.
    - change (x :: l ++ [w]) with ((x :: l) ++ [w]). rewrite Join_app by done. cbn [Join].
      rewrite bool_decide_false; [by apply Base_last|].
      intros E'%(f_equal String.length). rewrite !slength_app in E'. cbn in E'. lia. }
  destruct (decide (p = "")) as [->|Hp].
  - rewrite filter_cons_False by tauto. rewrite filter_cons_True by done. rewrite filter_nil. cbn [Join].
    unfold Clean. rewrite Split_free by done. cbn [foldl]. rewrite clean_step_plain by done. apply Hb.
  - rewrite !filter_cons_True by done. rewrite filter_nil. cbn [Join].
    unfold Clean. change (p +:+ "/" +:+ w) with (p +:+ String "/" w).
    rewrite Split_app_sep, (Split_free w), foldl_app by done. cbn [foldl]. rewrite clean_step_plain by done. apply Hb.
Qed.
End Base.

Lemma Base_MapperPath id : Base (MapperPath (MapperName id)) = MapperName id.
Proof.
  unfold MapperPath. change "/dev/mapper/" with ("/dev/mapper" +:+ "/"). rewrite sapp_assoc. apply Base_last.
  - done.
  - unfold MapperName. rewrite has_char_app.
    by rewrite (all_hex_no_slash (stake 24 (Sha256.hex_sum id))) by (apply all_chars_stake, hex_all_hex).
Qed.

(** ** The backing store's mount *)

(** The two nodes differ at most in mounts at [p]. *)
Record only_at (p : string) (w w' : world) : Prop := {
  oa_mounts : off p (w_mounts w') = off p (w_mounts w);
  oa_loops : w_loops w' = w_loops w;
  oa_maps : w_maps w' = w_maps w }.

Lemma only_at_refl p w : only_at p w w.
Proof. by split. Qed.
Lemma only_at_trans p w1 w2 w3 : only_at p w1 w2 → only_at p w2 w3 → only_at p w1 w3.
Proof. intros [] []. split; congruence. Qed.
Lemma only_at_add p source w : only_at p w (add_mount p source w).
Proof. split; [|done..]. unfold off, add_mount. cbn [w_mounts]. by rewrite filter_cons_False by (intros H; by apply H). Qed.

Lemma wwp_zoom `{TR : Trust} {S T A} (l : lens S T) `{!LensOk l} (m : prog S A) t w Q :
  wwp m (lget l t) w (λ a s w', Q a (lset l s t) w') → wwp (zoom l m) t w Q.
Proof.
  revert t w. induction m as [a|B f k IH|R c k IH]; intros t w H; cbn in *.
  - by rewrite lens_set_get in H.
  - destruct (f (lget l t)) as [b s]. cbn in *. apply IH. rewrite lens_get_set.
    eapply wwp_mono; [|exact H]. intros a s' w'. by rewrite lens_set_set.
  - intros r w1 E. by apply IH, H.
Qed.

Section Store.
Context `{TR : Trust} (root p : string) (w0 : world).
(** The registry's root, and a node that is [w0] but for mounts at [p]. *)
Local Abbreviation J := (λ (r : Registry) (w : world), reg_root r = root ∧ only_at p w0 w).
Definition store_step {A} (m : prog Registry A) : Prop := ∀ r w, J r w → wwp m r w (λ _ r' w', J r' w').

Lemma store_ret {A} (a : A) : store_step (Ret a).
Proof. by intros r w. Qed.
Lemma store_bind {A B} (m : prog Registry A) (f : A → prog Registry B) :
  store_step m → (∀ a, store_step (f a)) → store_step (bind m f).
Proof. intros Hm Hf r w HJ. apply wwp_bind. eapply wwp_mono; [|by apply Hm]. intros a r1 w1 H1. by apply Hf. Qed.
Lemma store_bindE {A B} (m : prog Registry (res A)) (f : A → prog Registry (res B)) :
  store_step m → (∀ a, store_step (f a)) → store_step (bindE m f).
Proof. intros Hm Hf. apply store_bind; [done|]. intros [a|e]; [done|apply store_ret]. Qed.
Lemma store_wrap {A} g (m : prog Registry (res A)) : store_step m → store_step (wrap g m).
Proof. intros Hm. apply store_bind; [done|]. intros. apply store_ret. Qed.
Lemma store_inert {A} (m : prog Registry A) :
  emits inert_event m → keeps (λ r, reg_root r) m → store_step m.
Proof.
  intros Hi Hk r w [Hr Hw]. apply wwp_inert; [done|]. intros tr a r' He. split; [|done].
  rewrite <- Hr. by eapply (exec_keeps (λ r, reg_root r)).
Qed.
Lemma store_locked {A} (f : Registry → A * Registry) :
  (∀ r, reg_root (f r).2 = reg_root r) → store_step (locked f).
Proof.
  intros Hf r w [Hr Hw]. cbn. intros [] w1. unfold kernel. cbn. intros [= <-] [] w2 [= <-]. by rewrite Hf.
Qed.
Lemma store_mount_with k cfg : store_step (mount_with k p cfg).
Proof.
  destruct k; unfold mount_with, NFSMount, LocalMount; intros r w HJ;
    repeat case_match; try done; cbn; intros [out [e|]] w1; cbn; intros [= <-]; try done;
    destruct HJ as [Hr Hw]; (split; [done|]); (eapply only_at_trans; [exact Hw|apply only_at_add]).
Qed.
End Store.

Ltac solve_store :=
  repeat first
    [ lazymatch goal with H : store_step _ _ _ ?m |- store_step _ _ _ ?m => exact H end
    | apply store_ret | apply store_locked; by intros | apply store_mount_with
    | apply store_bind; [|intros] | apply store_bindE; [|intros] | apply store_wrap
    | lazymatch goal with
      | |- store_step _ _ _ (if ?b then _ else _) => destruct b
      | |- store_step _ _ _ (match ?x with _ => _ end) => destruct x
      end
    | apply store_inert; [solve [eauto using IsMountPoint_inert]|solve_keeps]
    | apply store_inert; [solve [solve_inert]|solve_keeps] ].

Lemma store_mount_target `{TR : Trust} root p w0 cfg :
  p = JoinPath [root; MountID cfg] → store_step root p w0 (mount_target cfg).
Proof.
  intros Hp r w [Hr Hw]. unfold mount_target, gets. cbn [bind wwp fst snd]. rewrite Hr, <- Hp.
  match goal with |- wwp ?m r w _ => enough (store_step root p w0 m) as H by (by apply H) end.
  solve_store. by intros s.
Qed.

Lemma wwp_Get `{TR : Trust} cfg r w :
  let p := JoinPath [reg_root r; MountID cfg] in
  wwp (Registry.Get cfg) r w (λ _ r' w', reg_root r' = reg_root r ∧ only_at p w w').
Proof.
  intros p. pose proof (store_mount_target (reg_root r) p w cfg eq_refl) as Hm.
  assert (store_step (reg_root r) p w (Registry.Get cfg)) as H.
  { unfold Registry.Get, lockStore, with_lock. solve_store. }
  apply H. split; [done|apply only_at_refl].
Qed.

(** ** Rules for handlers *)
Lemma wwp_true `{TR : Trust} {S A} (m : prog S A) s w : wwp m s w (λ _ _ _, True).
Proof. apply wwp_exec. done. Qed.
Lemma wwp_orCleanup `{TR : Trust} {A} c f (m : prog NodeMem (res A)) s w Q :
  wwp m s w (okQ Q) → wwp (orCleanup c f m) s w (okQ Q).
Proof.
  intros H. apply wwp_bind. eapply wwp_mono; [|exact H]. intros [a|e] s1 w1; [done|]. intros _.
  apply wwp_bind. eapply wwp_mono; [|apply wwp_true]. done.
Qed.
(** A step that changes neither memory nor node. *)
Lemma wwp_quiet `{TR : Trust} {S A} (m : prog S A) s w Q :
  emits inert_event m → keeps (λ s, s) m → (∀ a, Q a s w) → wwp m s w Q.
Proof.
  intros Hi Hk HQ. apply wwp_inert; [done|]. intros tr a s' He.
  rewrite (exec_keeps (λ s, s) _ _ _ _ _ Hk He). apply HQ.
Qed.
Lemma wwp_quietE `{TR : Trust} {S A B} (m : prog S (res A)) (f : A → prog S (res B)) s w Q :
  emits inert_event m → keeps (λ s, s) m → (∀ a, wwp (f a) s w (okQ Q)) → wwp (bindE m f) s w (okQ Q).
Proof. intros Hi Hk HQ. apply wwp_bindE, wwp_quiet; [done..|]. by intros [a|e]; cbn. Qed.

(** Locking leaves the node alone. *)
Lemma heard_run_volume `{TR : Trust} id t w w' :
  heard_run (Ev (LockMu node_mu) () :: Ev (UnlockMu node_mu) () :: Ev (LockMu (volume_mu id)) () ::
             t ++ [Ev (UnlockMu (volume_mu id)) ()]) w w' → heard_run t w w'.
Proof.
  intros (? & [= <-] & (? & [= <-] & (? & [= <-] & H)%heard_run_cons)%heard_run_cons)%heard_run_cons.
  apply heard_run_app in H as (w1 & H & (? & [= <-] & ->%heard_run_nil)%heard_run_cons). done.
Qed.

Lemma wwp_with_volume `{TR : Trust} {A} id (m : prog NodeMem A) s w Q :
  wwp m (set_volMutex (λ v, {[id]} ∪ v) s) w Q → wwp (with_volume id m) s w Q.
Proof.
  intros H. apply wwp_exec. intros tr a s' w' He Hk.
  unfold with_volume, lockVolume, with_lock in He. cbn in He.
  destruct He as ([] & t1 & -> & ([] & t2 & -> & ([] & t3 & -> & He))).
  apply exec_bind in He as (t4 & a' & s4 & t5 & -> & He & ([] & t6 & -> & (-> & -> & ->))).
  apply heard_run_volume in Hk. by eapply (proj1 (wwp_exec _ _ _ _) H).
Qed.

Create HintDb inert discriminated.
Section Inert.
Context {S : Type}.
Local Abbreviation inert := (emits (S := S) inert_event).

Lemma New_inert p : inert (New p).
Proof. unfold New. solve_inert. Qed.
Lemma Fsck_inert dev : inert (Fsck dev).
Proof. unfold Fsck. solve_inert. Qed.
Lemma SetCapacity_inert dev : inert (SetCapacity dev).
Proof. unfold SetCapacity. solve_inert. Qed.
Lemma Resize2fs_inert dev : inert (Resize2fs dev).
Proof. unfold Resize2fs. solve_inert. Qed.
Lemma FSBlockSize_inert p : inert (FSBlockSize p).
Proof. unfold FSBlockSize. solve_inert. Qed.
Lemma SectorSize_inert dev : inert (SectorSize dev).
Proof. unfold SectorSize, isLuks, cryptsetup. solve_inert. Qed.
Lemma ListMappings_inert root : inert (ListMappings root).
Proof. unfold ListMappings. solve_inert. induction a as [|d ds IH]; cbn [list_dms]; solve_inert; apply IH. Qed.
Lemma IsOpen_inert root name : inert (IsOpen root name).
Proof. pose proof ListMappings_inert. unfold IsOpen. solve_inert. Qed.
Lemma Find_inert f : inert (Find f).
Proof. unfold Find, List. solve_inert. Qed.
Lemma Source_inert p : inert (Source p).
Proof. unfold Source. solve_inert. Qed.
Lemma IsSourceMounted_inert dev : inert (IsSourceMounted dev).
Proof. unfold IsSourceMounted, sourceMounted. cbn [app]. solve_inert. Qed.
Lemma IsSourceMountedInHost_inert dev : inert (IsSourceMountedInHost dev).
Proof. unfold IsSourceMountedInHost, sourceMounted. cbn [app]. solve_inert. Qed.
Lemma isBlank_inert dev : inert (isBlank dev).
Proof. unfold isBlank. solve_inert. apply emits_loop_pos. intros st. unfold blank_step. solve_inert. Qed.
Lemma formatIfBlank_inert dev k f : inert (formatIfBlank dev k f).
Proof. pose proof isBlank_inert. unfold formatIfBlank, isLuks, cryptsetup, luksFormat_args. solve_inert. Qed.
Lemma rotate_inert dev k : inert (rotate dev k).
Proof. unfold rotate, opens, cryptsetup. solve_inert. Qed.
Lemma ensureFilesystem_inert dev p : inert (ensureFilesystem dev p).
Proof. unfold ensureFilesystem, Mkfs, cryptsetup. solve_inert. Qed.
End Inert.
Lemma Put_inert m : emits inert_event (Put m).
Proof. unfold Put, flushLocked. solve_inert. Qed.
Lemma Put_node_inert m : emits inert_event (zoom node_state (Put m)).
Proof. apply emits_zoom; [typeclasses eauto|apply Put_inert]. Qed.
#[export] Hint Resolve New_inert Fsck_inert SetCapacity_inert Resize2fs_inert FSBlockSize_inert SectorSize_inert
  ListMappings_inert IsOpen_inert Find_inert Source_inert IsSourceMounted_inert
  IsSourceMountedInHost_inert Put_inert Put_node_inert formatIfBlank_inert rotate_inert ensureFilesystem_inert IsMountPoint_inert : emits.

Lemma formatIfBlank_keeps {S V} (view : S → V) dev k f : keeps view (formatIfBlank dev k f).
Proof. pose proof (isBlank_keeps view). unfold formatIfBlank, isLuks, cryptsetup. solve_keeps. Qed.
Lemma rotate_keeps {S V} (view : S → V) dev k : keeps view (rotate dev k).
Proof. unfold rotate, opens, cryptsetup. solve_keeps. Qed.
Lemma ensureFilesystem_keeps {S V} (view : S → V) dev p : keeps view (ensureFilesystem dev p).
Proof. unfold ensureFilesystem, Mkfs, cryptsetup. solve_keeps. Qed.
#[local] Hint Resolve formatIfBlank_keeps rotate_keeps ensureFilesystem_keeps : keeps.

Definition add_mapping (name dev : string) (w : world) : world :=
  mkWorld (w_mounts w) (w_loops w) (<[name := dev]> (w_maps w)).

Lemma wwp_open `{TR : Trust} {S} key dev name (s : S) w :
  wwp (cryptsetup [key] ["open"; "--type"; "luks2"; "--disable-keyring"; "--key-file"; SecretFD 0; dev; name]) s w
    (λ r s' w', s' = s ∧ match snd r with
       | None => w_maps w !! name = None ∧ w' = add_mapping name dev w
       | Some _ => w' = w
       end).
Proof.
  unfold cryptsetup. cbn. intros [out [e|]] w1; cbn; [by intros [= <-]|].
  destruct (decide _) as [Hn|]; [|done]. by intros [= <-].
Qed.
Lemma wwp_Prepare `{TR : Trust} {S} dev name k f (s : S) w :
  wwp (Prepare dev name k f) s w (okQ (λ r s' w', s' = s ∧ fst r = MapperPath name ∧ w_maps w !! name = None ∧
    w' = add_mapping name dev w)).
Proof.
  unfold Prepare. apply wwp_quietE; [eauto with emits|eauto with keeps|]. intros o1.
  apply wwp_quietE; [eauto with emits|eauto with keeps|]. intros o2. cbv zeta.
  apply wwp_bind. eapply wwp_mono; [|apply wwp_open]. intros [out [e|]] s1 w1 [-> Ho]; [done|].
  destruct Ho as [Hn ->]. cbn [snd]. apply wwp_bind, wwp_quiet; [eauto with emits|eauto with keeps|].
  intros [[]|e]; [done|]. apply wwp_bind. eapply wwp_mono; [|apply wwp_true]. by intros [|].
Qed.

(** ** Staging *)
Definition add_loop (dev img : string) (w : world) : world :=
  mkWorld (w_mounts w) (<[dev := img]> (w_loops w)) (w_maps w).

(** What is known of the result of every execution is known on the node. *)
Lemma wwp_also `{TR : Trust} {S A} (m : prog S A) s w Q (P : A → S → Prop) :
  (∀ tr a s', exec m s tr a s' → P a s') → wwp m s w Q → wwp m s w (λ a s' w', Q a s' w' ∧ P a s').
Proof. rewrite !wwp_exec. eauto. Qed.

(** The device an entry's filesystem is on. *)
Definition stage_source (m : Mapping) : string := if bool_decide (m_CryptDev m = "") then m_LoopDev m else m_CryptDev m.

(** The node [w'] is [w] with the volume of [m] staged. *)
Record stage_on (m : Mapping) (w w' : world) : Prop := {
  so_free : w_loops w !! m_LoopDev m = None;
  so_idle : ¬ in_use w (m_LoopDev m);
  so_mounts : w_mounts w' = (m_StagePath m, stage_source m) :: w_mounts w;
  so_loops : w_loops w' = <[m_LoopDev m := m_ImagePath m]> (w_loops w);
  so_maps : m_CryptDev m = "" ∧ w_maps w' = w_maps w ∨
    m_CryptDev m = MapperPath (MapperName (m_VolumeID m)) ∧ w_maps w !! MapperName (m_VolumeID m) = None ∧
    w_maps w' = <[MapperName (m_VolumeID m) := m_LoopDev m]> (w_maps w) }.

Lemma wwp_open_device `{TR : Trust} input mapper dev s w :
  wwp (open_device input mapper dev) s w (okQ (λ cd s' w', s' = s ∧
    if in_encrypted input then cd = MapperPath mapper ∧ w_maps w !! mapper = None ∧ w' = add_mapping mapper dev w
    else cd = "" ∧ w' = w)).
Proof.
  unfold open_device. destruct (in_encrypted input); [|done].
  apply wwp_bindE, wwp_orCleanup, wwp_quiet; [eauto with emits|solve_keeps|]. intros [[]|e]; [|done]. cbn [okQ].
  apply wwp_bindE, wwp_orCleanup. eapply wwp_mono; [|apply wwp_Prepare].
  intros [r|e] s1 w1; [|done]. by intros (-> & E & Hn & ->).
Qed.

Lemma wwp_mount_device `{TR : Trust} req input img mapper dev cd s w :
  let m := stage_entry req img dev cd in
  wwp (mount_device req input img mapper dev cd) s w (okQ (λ _ s' w',
    w' = add_mount (sr_StagingTargetPath req) (if in_encrypted input then cd else dev) w ∧
    staged_as m (if in_encrypted input then Some (in_keys input) else None) s s')).
Proof.
  intros m. eapply wwp_mono; [|eapply (wwp_also _ _ _ (okQ (λ _ _ w', w' = add_mount (sr_StagingTargetPath req)
    (if in_encrypted input then cd else dev) w)) (λ r s', r = Ok tt → staged_as m _ s s'))].
  - intros [[]|e] s' w'; [|done]. intros [Hw Hs]. split; [exact Hw|by apply Hs].
  - intros tr a s' He ->. by apply mount_device_ok in He as [H _].
  - unfold mount_device. set (target := if in_encrypted input then cd else dev). cbv zeta.
    apply wwp_bindE, wwp_orCleanup, wwp_quiet; [eauto with emits|solve_keeps|]. intros [[]|e]; [|done]. cbn [okQ].
    apply wwp_bindE. eapply (wwp_mono _ _ _ (okQ (λ _ s' w', s' = s ∧ w' = w))).
    2: { destruct (in_encrypted input); [done|]. apply wwp_orCleanup, wwp_quiet; [eauto with emits|solve_keeps|].
         by intros [|]. }
    intros [[]|e] s1 w1; [|done]. intros [-> ->]. cbn [okQ].
    apply wwp_bindE, wwp_orCleanup, wwp_quiet; [eauto with emits|solve_keeps|]. intros [[]|e]; [|done]. cbn [okQ].
    apply wwp_bindE, wwp_orCleanup, wwp_quiet; [solve_inert|solve_keeps|]. intros [[]|e]; [|done]. cbn [okQ].
    apply wwp_bindE, wwp_orCleanup. eapply wwp_mono; [|apply wwp_MountFs]. intros [[]|e] s1 w1; [|done].
    intros [-> ->]. apply wwp_bindE, wwp_orCleanup, wwp_inert; [eauto with emits|]. intros tr [[]|e] s1 _; [|done]. cbn [okQ].
    apply wwp_inert; [|by intros ? [[]|] ?]. unfold cacheKeys, Clear. solve_inert.
Qed.

Lemma wwp_stage_fresh `{TR : Trust} n req input img size s w :
  wwp (stage_fresh n req input img size) s w (okQ (λ _ s' w', ∃ dev,
    let m := stage_entry req img dev (crypt_dev (in_encrypted input) (sr_VolumeId req)) in
    stage_on m w w' ∧ staged_as m (if in_encrypted input then Some (in_keys input) else None) s s')).
Proof.
  unfold stage_fresh. cbv zeta. apply wwp_bindE, wwp_wrap, wwp_quiet; [unfold loopSectorSize; solve_inert; eauto with emits|
    unfold loopSectorSize; solve_keeps|]. intros [sector|e]; [|done]. cbn [okQ].
  apply wwp_bindE, wwp_wrap. eapply wwp_mono; [|apply wwp_Attach]. intros [dev|e] s1 w1; [|done].
  intros (-> & Hf & Hu & ->). cbn [okQ].
  apply wwp_bindE. eapply wwp_mono; [|apply wwp_open_device]. intros [cd|e] s1 w1; [|done]. intros [-> Hcd]. cbn [okQ].
  eapply wwp_mono; [|apply wwp_mount_device]. intros [[]|e] s1 w2; [|done]. intros [-> Hs]. exists dev.
  destruct (in_encrypted input).
  - destruct Hcd as (-> & Hn & ->). split; [|done]. split; [done..|]. right. done.
  - destruct Hcd as (-> & ->). split; [|done]. split; [done..|]. by left.
Qed.

(** No loop device is on an image of the volume. *)
Definition unattached (id : string) (w : world) : Prop :=
  map_Forall (λ _ b, Base b ≠ id +:+ ImageExt) (w_loops w).

(** A volume ID as the controller gives it out: a name, not a path. *)
Definition is_name (id : string) : Prop := id ≠ "" ∧ has_char "/" id = false.

Lemma Base_ImagePath root id : is_name id → Base (ImagePath root id) = id +:+ ImageExt.
Proof.
  intros [Hid Hs]. apply Base_JoinPath. split_and!.
  - by destruct id.
  - intros E%(f_equal String.length). rewrite slength_app in E. destruct id; [done|]. cbn in E. lia.
  - intros E%(f_equal String.length). rewrite slength_app in E. destruct id; [done|]. cbn in E. lia.
  - rewrite has_char_app, Hs. done.
Qed.

Lemma Backs_Base b img : Backs b img = true → Base b = Base img.
Proof.
  unfold Backs. intros [->%bool_decide_eq_true|H]%orb_true_iff; [done|].
  apply andb_true_iff in H as [_ H]. by apply bool_decide_eq_true in H.
Qed.

Lemma wwp_stage_image `{TR : Trust} n req input backing s w :
  is_name (sr_VolumeId req) → unattached (sr_VolumeId req) w →
  wwp (stage_image n req input backing false) s w (okQ (λ _ s' w', ∃ dev,
    let m := stage_entry req (ImagePath backing (sr_VolumeId req)) dev (crypt_dev (in_encrypted input) (sr_VolumeId req)) in
    stage_on m w w' ∧ staged_as m (if in_encrypted input then Some (in_keys input) else None) s s')).
Proof.
  intros Hid Hu. unfold stage_image. apply wwp_bindE, wwp_wrap.
  eapply (wwp_mono _ _ _ (λ r s' w', s' = s ∧ w' = w ∧ (∀ p, r = Ok p → p = backing))).
  2: { unfold New. cbn. unfold kernel. intros [i|e] w1; cbn; [|repeat case_match; intros; by simplify_eq].
       intros [= <-]. destruct (fi_dir i); naive_solver. }
  intros [root|e] s1 w1; [|done]. intros (-> & -> & Hp). rewrite (Hp root eq_refl). cbn [okQ]. cbv zeta.
  apply wwp_bind, wwp_quiet; [solve_inert|solve_keeps|]. intros [info|e].
  2: { unfold missing_image. apply wwp_bind. eapply wwp_mono; [|apply wwp_true]. by intros [[]|] ? ?. }
  apply wwp_bindE, wwp_wrap. eapply wwp_mono; [|apply wwp_Find]. intros [loops|e] s1 w1; [|done].
  intros (-> & -> & _ & Hl). assert (loops = []) as ->.
  { apply elem_of_nil_inv. intros d (b & Hd & Hb)%Hl. apply (Hu d b Hd). rewrite <- (Base_ImagePath backing) by done.
    by apply Backs_Base. }
  cbn [okQ refuse_busy detach_idle for_each]. apply (wwp_bindE (ok tt)). cbn [wwp okQ ok].
  apply wwp_quietE; [|unfold refuse_open; solve_keeps|].
  { unfold refuse_open. solve_inert. }
  intros []. apply (wwp_bindE (ok tt)). cbn [wwp okQ ok]. apply wwp_stage_fresh.
Qed.

Lemma stage_input_cfg req input :
  stage_input req = Ok input → ConfigFromVolumeContext (sr_VolumeContext req) = Ok (in_cfg input).
Proof. unfold stage_input. repeat case_match; naive_solver. Qed.

Lemma off_elem p q (l : list (string * string)) : q ≠ p → q ∈ (off p l).*1 ↔ q ∈ l.*1.
Proof.
  intros Hq. unfold off. rewrite !list_elem_of_fmap. setoid_rewrite list_elem_of_filter. naive_solver.
Qed.
Lemma only_at_mounted p q w w' : only_at p w w' → q ≠ p → mounted_at w' q = mounted_at w q.
Proof.
  intros [Hm _ _] Hq. unfold mounted_at. apply bool_decide_ext. by rewrite <- (off_elem p q (w_mounts w')), <- (off_elem p q (w_mounts w)), Hm.
Qed.

Lemma wwp_stageLocked `{TR : Trust} n req root s w :
  let id := sr_VolumeId req in trusts (sr_StagingTargetPath req) = true →
  is_name id → unattached id w → RegInv root (nd_registry s) → mounted_at w (sr_StagingTargetPath req) = false →
  (∀ cfg, ConfigFromVolumeContext (sr_VolumeContext req) = Ok cfg →
    sr_StagingTargetPath req ≠ JoinPath [root; MountID cfg]) →
  wwp (stageLocked n req) s w (okQ (λ _ s' w', ∃ input w1 dev,
    stage_input req = Ok input ∧ only_at (JoinPath [root; MountID (in_cfg input)]) w w1 ∧
    let m := stage_entry req (ImagePath (store_path root (in_cfg input)) id) dev (crypt_dev (in_encrypted input) id) in
    stage_on m w1 w' ∧ staged_as m (if in_encrypted input then Some (in_keys input) else None) s s')).
Proof.
  intros id Htr Hid Hu HI Hm Ht. unfold stageLocked. cbv zeta. apply wwp_bindE. cbn [lift_res wwp].
  destruct (stage_input req) as [input|e] eqn:Ei; [|done]. cbn [okQ].
  specialize (Ht _ (stage_input_cfg _ _ Ei)). fold id.
  apply wwp_bindE, wwp_wrap, (wwp_zoom node_registry).
  eapply wwp_mono; [|eapply (wwp_also _ _ _ _ (λ a r', ∀ p, a = Ok p → p = store_path root (in_cfg input)));
    [|apply wwp_Get]].
  2: { intros tr a r' He p ->. by apply (Get_ok root _ _ _ p _ He HI). }
  intros [backing|e] r1 w1; [|done]. intros [[Hr Ho] Hp]. rewrite (Hp _ eq_refl). clear Hp.
  cbn [lget node_registry] in Hr, Ho. rewrite (inv_root _ _ HI) in Ho. cbn [okQ].
  set (s1 := lset node_registry r1 s).
  apply (wwp_bindE (lift_res _)). cbn [lift_res wwp]. destruct (validateCapability _) as [[]|e]; [|done]. cbn [okQ].
  apply wwp_bindE, wwp_wrap. eapply wwp_mono; [|by apply wwp_IsMountPoint]. intros [b|e] s2 w2; [|done].
  intros (-> & -> & ->). rewrite (only_at_mounted _ _ _ _ Ho Ht), Hm. cbn [okQ].
  apply wwp_bind, wwp_inert; [unfold GetMapping; solve_inert|]. intros tr existing s2 (-> & _ & _)%exec_GetMapping.
  rewrite andb_false_r. eapply wwp_mono; [|apply wwp_stage_image; [done|]].
  - intros [[]|e] s2 w2; [|done]. intros (dev & Hon & Hst). exists input, w1, dev. done.
  - intros d bk Hd. apply (Hu d bk). by rewrite <- (oa_loops _ _ _ Ho).
Qed.

Lemma wwp_NodeStageVolume `{TR : Trust} n req root s w :
  let id := sr_VolumeId req in trusts (sr_StagingTargetPath req) = true →
  is_name id → unattached id w → RegInv root (nd_registry s) → mounted_at w (sr_StagingTargetPath req) = false →
  (∀ cfg, ConfigFromVolumeContext (sr_VolumeContext req) = Ok cfg →
    sr_StagingTargetPath req ≠ JoinPath [root; MountID cfg]) →
  wwp (NodeStageVolume n req) s w (okQ (λ _ s' w', ∃ input w1 dev,
    stage_input req = Ok input ∧ only_at (JoinPath [root; MountID (in_cfg input)]) w w1 ∧
    let m := stage_entry req (ImagePath (store_path root (in_cfg input)) id) dev (crypt_dev (in_encrypted input) id) in
    stage_on m w1 w' ∧ staged_as m (if in_encrypted input then Some (in_keys input) else None) s s')).
Proof.
  intros id Htr Hid Hu HI Hm Ht. unfold NodeStageVolume. destruct (_ || _); [done|].
  apply wwp_with_volume. eapply wwp_mono; [|by apply wwp_stageLocked].
  intros [[]|e] s' w'; [|done]. intros (input & w1 & dev & H). exists input, w1, dev. done.
Qed.

(** ** Publishing and unpublishing *)

Lemma wwp_NodePublishVolume `{TR : Trust} n req s w :
  trusts (pr_TargetPath req) = true →
  failed (nd_failures s) !! pr_VolumeId req = None → mounted_at w (pr_TargetPath req) = false →
  wwp (NodePublishVolume n req) s w (okQ (λ _ s' w', s' = s ∧
    w' = add_mount (pr_TargetPath req) (source_at w (pr_StagingTargetPath req)) w)).
Proof.
  intros Htr Hf Hm. unfold NodePublishVolume. cbv zeta. destruct (_ || _); [done|].
  apply (wwp_bindE (lift_res _)). cbn [lift_res wwp]. destruct (validateCapability _) as [[]|e]; [|done]. cbn [okQ].
  apply wwp_bind, wwp_inert; [unfold GetFailed; solve_inert|]. intros tr f s1 (-> & -> & _)%exec_GetFailed.
  rewrite Hf, bool_decide_false by (by intros [? [=]]). apply (wwp_bindE (ok tt)). cbn [wwp okQ ok].
  apply wwp_bindE, wwp_wrap, wwp_quiet; [solve_inert|solve_keeps|]. intros [[]|e]; [|done]. cbn [okQ].
  apply wwp_bind. eapply wwp_mono; [|by apply wwp_check]. intros m s1 w1 (-> & -> & Hb).
  assert (m ≠ Ok true) as Hne by (intros ->; specialize (Hb _ eq_refl); congruence).
  destruct m as [[]|e]; [done|apply wwp_wrap, wwp_BindMount..].
Qed.

Lemma wwp_NodeUnpublishVolume `{TR : Trust} id target s w :
  trusts target = true → mounted_at w target = true →
  wwp (NodeUnpublishVolume id target) s w (okQ (λ _ s' w', s' = s ∧
    w' = mkWorld (pop target (w_mounts w)) (w_loops w) (w_maps w))).
Proof.
  intros Htr Hm. unfold NodeUnpublishVolume. destruct (_ || _); [done|]. apply wwp_bindE, wwp_wrap.
  eapply wwp_mono; [|by apply wwp_Unmount]. intros [[]|e] s1 w1; [|done]. rewrite Hm. intros [-> ->]. cbn [okQ].
  apply wwp_bind, wwp_quiet; [solve_inert|solve_keeps|]. done.
Qed.

(** ** Unstaging *)
Lemma off_pop p l : off p (pop p l) = off p l.
Proof.
  induction l as [|[q d] l IH]; [done|]. cbn [pop fst]. unfold off in *. destruct (decide (q = p)) as [->|Hq].
  - by rewrite filter_cons_False by (intros H; by apply H).
  - by rewrite !filter_cons_True, IH by done.
Qed.
Lemma off_absent p (l : list (string * string)) : p ∉ l.*1 → off p l = l.
Proof.
  induction l as [|[q d] l IH]; [done|]. rewrite fmap_cons, not_elem_of_cons. intros [H1 H2]. unfold off.
  rewrite filter_cons_True by (intros <-; by apply H1). f_equal. by apply IH.
Qed.
Lemma wwp_pop_mounts `{TR : Trust} k p s w :
  trusts p = true → wwp (pop_mounts k p) s w (okQ (λ _ s' w', s' = s ∧ w' = mkWorld (off p (w_mounts w)) (w_loops w) (w_maps w))).
Proof.
  intros Htr. revert w. induction k as [|k IH]; intros w; cbn [pop_mounts]; apply wwp_bindE, wwp_wrap;
    (eapply wwp_mono; [|by apply wwp_IsMountPoint]); intros [b|e] s1 w1; try done; intros (-> & -> & ->); cbn [okQ];
    destruct (mounted_at w p) eqn:Em; cbn [negb]; try done.
  1, 3: unfold mounted_at in Em; apply bool_decide_eq_false in Em; split; [done|];
    rewrite off_absent by done; by destruct w.
  apply wwp_bindE, wwp_wrap. eapply wwp_mono; [|by apply wwp_Unmount]. intros [[]|e] s1 w1; [|done].
  rewrite Em. intros [-> ->]. cbn [okQ]. eapply wwp_mono; [|apply IH].
  intros [[]|e] s1 w1; [|done]. intros [-> ->]. cbn [okQ w_mounts w_loops w_maps]. by rewrite off_pop.
Qed.

(** What unstaging removes from the node when [m] is staged on it. *)
Lemma wwp_release_devices `{TR : Trust} m s w :
  let id := m_VolumeID m in
  st_data (nd_state s) !! id = Some m → is_name id →
  Base (m_ImagePath m) = id +:+ ImageExt →
  (∀ d b, w_loops w !! d = Some b → Base b = id +:+ ImageExt → d = m_LoopDev m) →
  w_loops w !! m_LoopDev m = Some (m_ImagePath m) →
  m_CryptDev m = "" ∨ m_CryptDev m = MapperPath (MapperName id) →
  let maps := if bool_decide (m_CryptDev m = "") then w_maps w else delete (MapperName id) (w_maps w) in
  ¬ in_use (mkWorld (w_mounts w) (w_loops w) maps) (m_LoopDev m) →
  wwp (release_devices id (Some m)) s w (okQ (λ _ s' w', unstaged id s s' ∧
    w' = mkWorld (w_mounts w) (delete (m_LoopDev m) (w_loops w)) maps)).
Proof.
  intros id Hm Hid Hb Hl Hd Hc maps Hu. unfold release_devices, close_entry.
  apply wwp_bindE. eapply (wwp_mono _ _ _ (okQ (λ _ s' w', s' = s ∧ w' = mkWorld (w_mounts w) (w_loops w) maps))).
  2: { unfold maps. case_bool_decide as E; [by destruct w|]. destruct Hc as [|Hc]; [done|].
       apply wwp_wrap. rewrite Hc, Base_MapperPath. apply wwp_CloseMapping. }
  intros [[]|e] s1 w1; [|done]. intros [-> ->]. cbn [okQ]. apply wwp_bindE, wwp_wrap.
  eapply wwp_mono; [|apply wwp_Find]. intros [devs|e] s1 w1; [|done]. intros (-> & -> & Hn & Hf). cbn [okQ].
  assert (devs = [m_LoopDev m]) as ->.
  { assert (∀ d, d ∈ devs ↔ d = m_LoopDev m) as Hd'.
    { intros d. rewrite Hf. cbn [w_loops]. unfold unstage_match. cbn [BackFile Device]. split.
      - intros (b & E & [H%bool_decide_eq_true|[H%bool_decide_eq_true _]%andb_true_iff]%orb_true_iff); eauto.
      - intros ->. exists (m_ImagePath m). split; [done|]. by rewrite bool_decide_true by done. }
    clear -Hn Hd'. apply Permutation_singleton_r, NoDup_Permutation; [done|apply NoDup_singleton|].
    intros d. by rewrite Hd', list_elem_of_singleton. }
  cbn [for_each]. apply wwp_bindE, wwp_bindE, wwp_wrap. eapply wwp_mono; [|apply wwp_Detach].
  intros [[]|e] s1 w1; [|done]. intros [-> Hw]. rewrite (Hw Hu). cbn [okQ wwp ok w_mounts w_loops w_maps].
  apply wwp_inert; [unfold DeleteMapping, flushLocked, Clear; solve_inert|].
  intros tr [[]|e] s1 He; [|done]. split; [|done]. by apply (forget_volume id (Some m) s tr s1).
Qed.

Lemma wwp_NodeUnstageVolume `{TR : Trust} m s w w0 :
  let id := m_VolumeID m in trusts (m_StagePath m) = true →
  st_data (nd_state s) !! id = Some m → is_name id → Base (m_ImagePath m) = id +:+ ImageExt →
  stage_on m w0 w → unattached id w0 → m_StagePath m ∉ (w_mounts w0).*1 →
  wwp (NodeUnstageVolume id (m_StagePath m)) s w (okQ (λ _ s' w', unstaged id s s' ∧ w' = w0)).
Proof.
  intros id Htr Hm Hid Hb [Hf Hi Em El Ec] Hu Hp. unfold NodeUnstageVolume. destruct (_ || _); [done|].
  apply wwp_with_volume. apply wwp_bindE. eapply wwp_mono; [|by apply wwp_pop_mounts].
  intros [[]|e] s1 w1; [|done]. intros [-> ->]. cbn [okQ].
  apply wwp_bind, wwp_quiet; [solve_inert|solve_keeps|]. intros _.
  apply wwp_bind, wwp_inert; [unfold GetMapping; solve_inert|]. intros tr entry s1 (-> & -> & _)%exec_GetMapping.
  cbn [nd_state set_volMutex]. rewrite Hm.
  assert (off (m_StagePath m) (w_mounts w) = w_mounts w0) as ->.
  { rewrite Em. unfold off. rewrite filter_cons_False by (intros H; by apply H). by apply off_absent. }
  eapply wwp_mono; [|apply wwp_release_devices]; cbn [w_mounts w_loops w_maps set_volMutex nd_state]; try done.
  - intros [[]|e] s1 w1; [|done]. intros [Hs ->]. split; [done|]. rewrite El, delete_insert_id by done.
    destruct Ec as [[Ec Ew]|(Ec & En & Ew)]; rewrite Ec, Ew.
    + rewrite bool_decide_true by done. by destruct w0.
    + rewrite bool_decide_false by done. rewrite delete_insert_id by done. by destruct w0.
  - intros d b. rewrite El. intros [[-> _]|[_ H]]%lookup_insert_Some Hbb; [done|]. by destruct (Hu d b H).
  - by rewrite El, lookup_insert_eq.
  - naive_solver.
  - intros [H|H]; apply Hi; [by left|]. right. cbn [w_maps] in H.
    destruct Ec as [[Ec Ew]|(Ec & En & Ew)]; rewrite Ec, Ew in H.
    + by rewrite bool_decide_true in H.
    + rewrite bool_decide_false in H by done. by rewrite delete_insert_id in H.
Qed.

(** ** From stage to unstage *)

(** The kubelet's calls that bring a volume to a pod, and those that take it
    away. *)
Definition bring_up (n : NodeConfig) (sr : StageRequest) (pr : PublishRequest) : prog NodeMem (res unit) :=
  NodeStageVolume n sr ;;? NodePublishVolume n pr.
Definition take_down (id stagePath target : string) : prog NodeMem (res unit) :=
  NodeUnpublishVolume id target ;;? NodeUnstageVolume id stagePath.

(** The filesystem visible at [p] is on the loop device [dev], through the
    volume's mapping if it is encrypted. *)
Definition shows (w : world) (p dev id : string) (encrypted : bool) : Prop :=
  if encrypted then source_at w p = MapperPath (MapperName id) ∧ w_maps w !! MapperName id = Some dev
  else source_at w p = dev.

Lemma staged_unstaged m k s s1 s2 : staged_as m k s s1 → unstaged (m_VolumeID m) s1 s2 → unstaged (m_VolumeID m) s s2.
Proof.
  intros (D1 & F1 & H1 & K1) (D2 & F2 & H2 & K2). unfold unstaged. rewrite D2, D1, F2, F1, H2, H1, K2, K1.
  split_and!; [apply delete_insert_eq|apply delete_delete_eq|done|]. destruct k; [apply delete_insert_eq|done].
Qed.
Lemma source_at_head w p d l : w_mounts w = (p, d) :: l → source_at w p = d.
Proof. intros E. unfold source_at. rewrite E. cbn. by rewrite bool_decide_true. Qed.

(** The node once the volume of [m] is staged, over [w0], and published. *)
Lemma wwp_bring_up `{TR : Trust} n sr pr root cfg s w :
  let id := sr_VolumeId sr in let stage := sr_StagingTargetPath sr in let target := pr_TargetPath pr in
  trusts stage = true → trusts target = true → pr_VolumeId pr = id → pr_StagingTargetPath pr = stage →
  ConfigFromVolumeContext (sr_VolumeContext sr) = Ok cfg → RegInv root (nd_registry s) →
  NoDup [JoinPath [root; MountID cfg]; stage; target] → is_name id → unattached id w →
  mounted_at w stage = false → mounted_at w target = false →
  wwp (bring_up n sr pr) s w (okQ (λ _ s1 w1, ∃ input w0 wm dev,
    stage_input sr = Ok input ∧ in_cfg input = cfg ∧ only_at (JoinPath [root; MountID cfg]) w w0 ∧
    let m := stage_entry sr (ImagePath (store_path root cfg) id) dev (crypt_dev (in_encrypted input) id) in
    stage_on m w0 wm ∧ w1 = add_mount target (stage_source m) wm ∧
    staged_as m (if in_encrypted input then Some (in_keys input) else None) s s1)).
Proof.
  intros id stage target T1 T2 E1 E2 Hcfg HI Hnd Hid Hu Hs Ht. unfold bring_up.
  apply NoDup_cons in Hnd as [H1 Hnd]. apply NoDup_cons in Hnd as [H2 _].
  rewrite !not_elem_of_cons in H1. rewrite list_elem_of_singleton in H2. destruct H1 as (H1 & H3 & _).
  apply wwp_bindE. eapply wwp_mono; [|apply (wwp_NodeStageVolume _ _ root); try done].
  2: { rewrite Hcfg. intros ? [= <-] E. by apply H1. }
  intros [[]|e] s1 w1; [|done]. intros (input & w0 & dev & Hin & Ho & Hon & Hst). cbn [okQ].
  assert (in_cfg input = cfg) as Ec by (apply stage_input_cfg in Hin; congruence). rewrite Ec in *.
  pose proof Hon as [_ _ Em _ _]. destruct Hst as (D1 & F1 & Hh1 & K1).
  eapply wwp_mono; [|apply wwp_NodePublishVolume].
  - intros [[]|e] s2 w2; [|done]. intros [-> ->]. exists input, w0, w1, dev. split_and!; try done.
    rewrite E2. f_equal. apply (source_at_head _ _ _ _ Em).
  - done.
  - rewrite E1, F1. apply lookup_delete_eq.
  - fold target. unfold mounted_at. rewrite Em. rewrite bool_decide_false; [done|].
    rewrite fmap_cons, not_elem_of_cons. split; [done|]. intros Hin'.
    rewrite <- (only_at_mounted _ target _ _ Ho) in Ht by done. unfold mounted_at in Ht.
    by apply bool_decide_eq_false in Ht.
Qed.

Lemma wwp_take_down `{TR : Trust} m source target s w0 w :
  let id := m_VolumeID m in trusts (m_StagePath m) = true → trusts target = true →
  st_data (nd_state s) !! id = Some m → is_name id → Base (m_ImagePath m) = id +:+ ImageExt →
  stage_on m w0 w → unattached id w0 → m_StagePath m ∉ (w_mounts w0).*1 →
  wwp (take_down id (m_StagePath m) target) s (add_mount target source w)
    (okQ (λ _ s' w', unstaged id s s' ∧ w' = w0)).
Proof.
  intros id T1 T2 Hm Hid Hb Hon Hu Hp. unfold take_down. apply wwp_bindE. eapply wwp_mono; [|apply wwp_NodeUnpublishVolume].
  - intros [[]|e] s1 w1; [|done]. intros [-> ->]. cbn [okQ add_mount w_mounts w_loops w_maps pop fst].
    rewrite decide_True by done. destruct w. by apply wwp_NodeUnstageVolume.
  - done.
  - apply add_mount_mounted.
Qed.

Lemma stage_on_shows req img dev enc target w0 w :
  let m := stage_entry req img dev (crypt_dev enc (sr_VolumeId req)) in
  stage_on m w0 w → shows (add_mount target (stage_source m) w) target dev (sr_VolumeId req) enc.
Proof.
  intros m [_ _ _ _ Ec]. unfold shows. rewrite (source_at_head _ target (stage_source m) (w_mounts w)) by done.
  destruct enc; [|done]. destruct Ec as [[? _]|(_ & _ & E)]; [done|]. split; [done|]. cbn [add_mount w_maps].
  rewrite E. apply lookup_insert_eq.
Qed.

(** C3: a volume's life on a node.  On a node where commands that succeed tell
    the truth, and no findmnt that fails on the staging or target path is read
    as an untrue answer ([misreads]: IsMountPoint takes exit status 1 for "not
    mounted" and drops the second findmnt's error; misread_take_down shows that
    unpublish and unstage then succeed with the mounts left), with the volume's
    image on no loop device and the staging and target paths not mounted and
    not the store's mount point: when stage and publish succeed, exactly one
    loop device was added, on the volume's image in the store its context
    names, and the target shows it, through the volume's mapping exactly if it
    is encrypted; when unpublish and unstage then succeed, loop devices and
    mappings are as they were before, so are all mounts but those at the
    backing store's mount point, and of the memory only what belonged to the
    volume is gone. *)
Theorem volume_lifecycle n sr pr root cfg s w t1 s1 w1 :
  let id := sr_VolumeId sr in let stage := sr_StagingTargetPath sr in let target := pr_TargetPath pr in
  let storeMount := JoinPath [root; MountID cfg] in
  pr_VolumeId pr = id → pr_StagingTargetPath pr = stage →
  ConfigFromVolumeContext (sr_VolumeContext sr) = Ok cfg → RegInv root (nd_registry s) →
  NoDup [storeMount; stage; target] → is_name id → unattached id w →
  mounted_at w stage = false → mounted_at w target = false →
  exec (bring_up n sr pr) s t1 (Ok tt) s1 → kernel_run t1 w = Some w1 → misreads t1 w ## [stage; target] →
  (∃ dev, w_loops w !! dev = None ∧ w_loops w1 = <[dev := ImagePath (store_path root cfg) id]> (w_loops w) ∧
     shows w1 target dev id (bool_decide (mget (sr_VolumeContext sr) ParamEncrypted = "true"))) ∧
  ∀ t2 s2 w2, exec (take_down id stage target) s1 t2 (Ok tt) s2 → kernel_run t2 w1 = Some w2 → misreads t2 w1 ## [stage; target] →
    only_at storeMount w w2 ∧ unstaged id s s2.
Proof.
  intros id stage target storeMount E1 E2 Hcfg HI Hnd Hid Hu Hs Ht He Hk Hm. pose (TR := trust_in [stage; target]).
  apply (heard_run_in _ _ _ _ Hk) in Hm as Hh.
  destruct (proj1 (wwp_exec _ _ _ _) (wwp_bring_up n sr pr root cfg s w (trust_in_elem _ _ ltac:(by left))
      (trust_in_elem _ _ ltac:(by right; left)) E1 E2 Hcfg HI Hnd Hid Hu Hs Ht) _ _ _ _ He Hh)
    as (input & w0 & wm & dev & Hin & Ec & Ho & Hon & -> & Hst). clear He Hk Hm Hh. split.
  - exists dev. rewrite <- (stage_input_encrypted _ _ Hin). split_and!; [| |exact (stage_on_shows sr (ImagePath (store_path root cfg) id) dev _ target w0 wm Hon)].
    + rewrite <- (oa_loops _ _ _ Ho). apply (so_free _ _ _ Hon).
    + rewrite <- (oa_loops _ _ _ Ho). apply (so_loops _ _ _ Hon).
  - set (m := stage_entry sr (ImagePath (store_path root cfg) id) dev (crypt_dev (in_encrypted input) id)) in *. intros t2 s2 w2 He Hk Hm.
    enough (wwp (take_down id stage target) s1 (add_mount target (stage_source m) wm)
      (okQ (λ _ s' w', unstaged id s1 s' ∧ w' = w0))) as Hw.
    { destruct (proj1 (wwp_exec _ _ _ _) Hw _ _ _ _ He (heard_run_in _ _ _ _ Hk Hm)) as [Hs2 ->].
      split; [done|]. exact (staged_unstaged m _ _ _ _ Hst Hs2). }
    apply (wwp_take_down m); try done; [apply trust_in_elem; by left|apply trust_in_elem; right; by left|..].
    + destruct Hst as [-> _]. apply lookup_insert_eq.
    + by apply Base_ImagePath.
    + intros d b Hd. apply (Hu d b). by rewrite <- (oa_loops _ _ _ Ho).
    + apply NoDup_cons in Hnd as [H1 _]. rewrite not_elem_of_cons in H1.
      assert (mounted_at w0 stage = false) as H by (rewrite (only_at_mounted _ _ _ _ Ho); naive_solver).
      by apply bool_decide_eq_false in H.
Qed.

(** ** An example: a node that answers as [kernel] asks *)
Definition sim_findmnt (args : list string) (w : world) : string * option goerr :=
  match rev args with
  | p :: _ => if mounted_at w p then (p, None) else ("", Some (ErrExec "findmnt" args 1 "" None))
  | [] => ("", None)
  end.
Definition sim_losetup (args : list string) (w : world) : string * option goerr :=
  match args with
  | "--find" :: _ => ("/dev/loop3", None)
  | ["--json"; "--list"] =>
      (print 0 (JObj [("loopdevices", JArr (map (λ d, JObj [str_member "name" d.1; str_member "back-file" d.2])
                                                (map_to_list (w_loops w))))]), None)
  | _ => ("", None)
  end.
Definition sim_cryptsetup (args : list string) : string * option goerr :=
  if bool_decide (head args = Some "luksDump")
  then (print 0 (JObj [("segments", JObj [("0", JObj [("sector_size", JNum "4096")])])]), None) else ("", None).
(** The command [broken] fails. *)
Definition sim_run (broken : string) (c : Cmd) (w : world) : string * option goerr :=
  if bool_decide (cmd_name c = broken) then ("", Some (ErrExec broken (cmd_args c) 8 "" None)) else
  match cmd_name c with
  | "findmnt" => sim_findmnt (cmd_args c) w
  | "losetup" => sim_losetup (cmd_args c) w
  | "cryptsetup" => sim_cryptsetup (cmd_args c)
  | _ => ("", None)
  end.
Definition sim_node (broken : string) : handler world := λ R c w,
  match c in call R return R * world with
  | RunCmd c => let r := sim_run broken c w in (r, default w (run_kernel c r w))
  | Stat p => (if bool_decide (p = demo_image) then Ok (mkFinfo 1048576 false)
               else if bool_decide (p = demo_backing) || mounted_at w p then Ok (mkFinfo 0 true) else Err ErrNotExist, w)
  | c => quiet _ c w
  end.
(** An encrypted volume. *)
Definition demo_secret : StageRequest :=
  mkStage demo_id "/stage/v" (<[ParamEncrypted := "true"]> (ToVolumeContext demo_config))
    {[secretKey := "0123456789abcdef0123456789abcdef"]} (sr_Capability demo_stage).
(** Another volume is staged on the node. *)
Definition demo_world : world := mkWorld [("/stage/other", "/dev/loop1")] {["/dev/loop1" := "/stores/x/other.img"]} ∅.
Definition demo_publish : PublishRequest :=
  mkPublish demo_id "/stage/v" "/pods/p/v" (sr_Capability demo_stage) false ∅.
Definition up_demo := run (sim_node "") (bring_up demo_node demo_secret demo_publish) demo_node_mem demo_world.
Definition down_demo := run (sim_node "") (take_down demo_id "/stage/v" "/pods/p/v") up_demo.1.1.2 up_demo.1.2.

Lemma volume_lifecycle_witness :
  map (cmd_name ∘ fst) (runs up_demo.2) =
    ["mount"; "losetup"; "cryptsetup"; "cryptsetup"; "losetup"; "losetup"; "cryptsetup"; "cryptsetup"; "cryptsetup"; "cryptsetup";
     "e2fsck"; "resize2fs"; "mount"; "mount"] ∧
  source_at up_demo.1.2 "/pods/p/v" = MapperPath (MapperName demo_id) ∧ only_at (JoinPath ["/stores"; MountID demo_config]) demo_world down_demo.1.2.
Proof.
  assert (up_demo.1.1.1 = Ok tt) as R1 by (vm_compute; reflexivity).
  assert (down_demo.1.1.1 = Ok tt) as R2 by (vm_compute; reflexivity).
  assert (kernel_run up_demo.2 demo_world = Some up_demo.1.2) as K1 by (vm_compute; reflexivity).
  assert (kernel_run down_demo.2 up_demo.1.2 = Some down_demo.1.2) as K2 by (vm_compute; reflexivity).
  assert (misreads up_demo.2 demo_world = []) as M1 by (vm_compute; reflexivity).
  assert (misreads down_demo.2 up_demo.1.2 = []) as M2 by (vm_compute; reflexivity).
  split; [vm_compute; reflexivity|]. split; [vm_compute; reflexivity|].
  unfold down_demo in *. destruct up_demo as [[[r1 s1] w1] t1] eqn:E1. cbn [fst snd] in *. subst r1.
  destruct (run (sim_node "") (take_down demo_id "/stage/v" "/pods/p/v") s1 w1) as [[[r2 s2] w2] t2] eqn:E2. cbn [fst snd] in *.
  subst r2. apply exec_run in E1, E2.
  destruct (volume_lifecycle demo_node demo_secret demo_publish "/stores" demo_config demo_node_mem demo_world t1 s1 w1)
    as [_ H]; try done.
  - apply (bool_decide_unpack _). vm_compute. exact I.
  - intros d b H. cbn [w_loops demo_world] in H. apply lookup_singleton_Some in H as [<- <-]. vm_compute. discriminate.
  - rewrite M1. by intros p ?%elem_of_nil.
  - refine (proj1 (H t2 s2 w2 E2 K2 _)). rewrite M2. by intros p ?%elem_of_nil.
Defined.

(** The same node, but the second findmnt of a check fails and prints
    nothing. *)
Definition deaf_node : handler world := λ R c w,
  match c in call R return R * world with
  | RunCmd (mkCmd "findmnt" ["-n"; "-o"; "TARGET"; p] _ _) => (("", Some (ErrExec "findmnt" [p] 1 "" None)), w)
  | c => sim_node "" _ c w
  end.
(** What is then taken down of an unencrypted volume that was staged and
    published. *)
Definition plain_up := run (sim_node "") (bring_up demo_node demo_stage demo_publish) demo_node_mem demo_world.
Definition deaf_down := run deaf_node (take_down demo_id "/stage/v" "/pods/p/v") plain_up.1.1.2 plain_up.1.2.

(** Why the hypothesis on findmnt is needed: every check of a mounted path is
    misread, and unpublish and unstage succeed with both mounts left and the
    loop device still attached under them. *)
Lemma misread_take_down :
  deaf_down.1.1.1 = Ok tt ∧ kernel_run deaf_down.2 plain_up.1.2 = Some deaf_down.1.2 ∧
  misreads deaf_down.2 plain_up.1.2 = ["/pods/p/v"; "/stage/v"] ∧
  mounted_at deaf_down.1.2 "/stage/v" = true ∧ mounted_at deaf_down.1.2 "/pods/p/v" = true ∧
  w_loops deaf_down.1.2 = w_loops plain_up.1.2 ∧ st_data (nd_state deaf_down.1.1.2) !! demo_id = None.
Proof. split_and!; vm_compute; reflexivity. Qed.

(** In general: on any mounted path a check may be misread, and Unmount then
    succeeds without unmounting. *)
Lemma misread_unmount {S} p (s : S) w :
  mounted_at w p = true → p ≠ "" →
  ∃ tr, exec (Unmount p) s tr (Ok tt) s ∧ kernel_run tr w = Some w ∧ misreads tr w = [p].
Proof.
  intros Hm Hp. set (e := ErrExec "findmnt" [p] 1 "" None).
  exists [Ev (Stat p) (Ok (mkFinfo 0 true)); Ev (RunCmd (mkCmd "findmnt" ["-n"; "-o"; "TARGET"; "--target"; p] [] [])) ("", None);
          Ev (RunCmd (mkCmd "findmnt" ["-n"; "-o"; "TARGET"; p] [] [])) ("", Some e)].
  assert (lists p "" = false) as Hl.
  { apply not_true_iff_false. intros (x & [<-|[]] & E%bool_decide_eq_true)%existsb_exists. by apply Hp. }
  split_and!.
  - unfold Unmount, IsMountPoint. cbn. eexists _, _. split; [done|]. eexists _, _. split; [done|]. cbn.
    eexists _, _. split; [done|].
    cbn [snd fst bind exec ok]. fold (lists p ""). by rewrite Hl.
  - done.
  - cbn. by rewrite Hl, Hm.
Qed.
