(* ===== verification/Rollback.v ===== *)
(** A stage that fails (pkg/driver/node.go on the node of World.v).

    Whatever step of NodeStageVolume fails, the node is left as it was but for
    the mount of the backing store and idle loop devices of the volume's own
    image that were detached on the way: no loop device, mapping or mount of
    the failed stage stays behind.  That needs the undoing itself to work: the
    hypothesis [undo_ok] says that no umount, detach or close failed, and that
    the staging path could be looked at; and no findmnt of the staging path may
    be misread (World.v), or the Unmount that undoes the mount skips it. *)

From Stdlib Require Import ZArith Lia Ascii.
From stdpp Require Import base option gmap strings list.
From S2P Require Import Prelude GoStrings Sha256 Effects Json Store Image Crypt Mount Loop Registry Encryption.
From S2P Require Import Controller Monitor Node NodeStage NodeOps NodePublish World Lifecycle.

Import strings path.
Local Open Scope prog_scope.

(** The reply is no failure of a command that takes something away, nor of the
    check of the staging path; "it is gone already" is no failure. *)
Definition undo_ok (stagePath : string) (e : event) : bool :=
  match ev_run e with
  | Some (c, (_, Some err)) =>
      match cmd_name c, cmd_args c with
      | "umount", _ => false
      | "losetup", "--detach" :: _ => no_such_device err
      | "cryptsetup", "close" :: _ => bool_decide (exitCode err = 4%Z)
      | "findmnt", ["-n"; "-o"; "TARGET"; "--target"; p] => negb (bool_decide (p = stagePath)) || exit_is 1 err
      | _, _ => true
      end
  | Some (_, (_, None)) => true
  | None => match ev_stat e with
            | Some (p, Err err) => negb (bool_decide (p = stagePath)) || is_NotExist err
            | _ => true
            end
  end.

(** ** Programs whose undoing works *)
Section Wwr.
Context {S : Type} (stage : string).

(** Every execution of [m] in which no undoing fails and no check of the
    staging path is misread ends in [Q]. *)
#[local] Instance trust_stage : Trust := trust_in [stage].
Definition wwr {A} (m : prog S A) (s : S) (w : world) (Q : A → S → world → Prop) : Prop :=
  ∀ tr a s' w', exec m s tr a s' → heard_run tr w w' → Forall (λ e, undo_ok stage e = true) tr → Q a s' w'.

Lemma wwr_mono {A} (m : prog S A) s w (Q Q' : A → S → world → Prop) :
  (∀ a s w, Q a s w → Q' a s w) → wwr m s w Q → wwr m s w Q'.
Proof. unfold wwr. eauto. Qed.
Lemma wwr_ret {A} (a : A) s w (Q : A → S → world → Prop) : Q a s w → wwr (Ret a) s w Q.
Proof. by intros H tr x s' w' (-> & -> & ->) ->%heard_run_nil _. Qed.
Lemma wwr_wwp {A} (m : prog S A) s w Q : wwp m s w Q → wwr m s w Q.
Proof. rewrite wwp_exec. unfold wwr. eauto. Qed.
Lemma wwr_bind {A B} (m : prog S A) (f : A → prog S B) s w Q :
  wwr m s w (λ a s1 w1, wwr (f a) s1 w1 Q) → wwr (bind m f) s w Q.
Proof.
  intros H tr a s' w' (t1 & b & s1 & t2 & -> & H1 & H2)%exec_bind (w1 & K1 & K2)%heard_run_app [F1 F2]%Forall_app.
  by eapply (H t1 b s1 w1).
Qed.
Lemma wwr_bindE {A B} (m : prog S (res A)) (f : A → prog S (res B)) s w Q :
  wwr m s w (λ r s1 w1, match r with Ok a => wwr (f a) s1 w1 Q | Err e => Q (Err e) s1 w1 end) → wwr (bindE m f) s w Q.
Proof. intros H. apply wwr_bind. eapply wwr_mono; [|exact H]. intros [a|e] s1 w1 H1; [done|by apply wwr_ret]. Qed.
Lemma wwr_wrap {A} g (m : prog S (res A)) s w Q :
  wwr m s w (λ r s1 w1, Q (map_err g r) s1 w1) → wwr (wrap g m) s w Q.
Proof. intros H. apply wwr_bind. eapply wwr_mono; [|exact H]. intros r s1 w1 H1. by apply wwr_ret. Qed.

(** ** The commands that undo *)
Lemma wwr_Detach dev s w :
  wwr (Detach dev) s w (λ r s' w', r = Ok tt ∧ s' = s ∧
    if decide (in_use w dev) then w' = w ∨ w' = mkWorld (w_mounts w) (delete dev (w_loops w)) (w_maps w)
    else w' = mkWorld (w_mounts w) (delete dev (w_loops w)) (w_maps w)).
Proof.
  intros tr a s' w' He [Hk _] Hf. unfold Detach in He. cbn in He. destruct He as ([out [e|]] & t & -> & He); cbn in He, Hk.
  - inversion Hf as [|?? Hu _]; subst. cbn in Hu. rewrite Hu in He, Hk. cbn in Hk. destruct He as (-> & -> & ->).
    case_bool_decide as Hs; [done|]. injection Hk as <-. split_and!; [done..|].
    assert (w = mkWorld (w_mounts w) (delete dev (w_loops w)) (w_maps w)) as E.
    { rewrite delete_id; [by destruct w|]. by apply eq_None_not_Some. }
    destruct (decide _); auto.
  - destruct He as (-> & -> & ->). split_and!; [done..|]. destruct (decide _); injection Hk as <-; auto.
Qed.
Lemma wwr_CloseMapping name s w :
  wwr (CloseMapping name) s w (λ r s' w', r = Ok tt ∧ s' = s ∧
    w' = mkWorld (w_mounts w) (w_loops w) (delete name (w_maps w))).
Proof.
  intros tr a s' w' He [Hk _] Hf. unfold CloseMapping, cryptsetup in He. cbn in He.
  destruct He as ([out [e|]] & t & -> & He); cbn in He, Hk.
  - inversion Hf as [|?? Hu _]; subst. cbn in Hu. apply bool_decide_eq_true in Hu. cbn in He.
    rewrite bool_decide_true in He, Hk by done. cbn in Hk. destruct He as (-> & -> & ->).
    case_bool_decide as Hs; [done|]. injection Hk as <-. split_and!; [done..|].
    rewrite delete_id; [by destruct w|]. by apply eq_None_not_Some.
  - destruct He as (-> & -> & ->). by injection Hk as <-.
Qed.
Lemma IsMountPoint_answers (s : S) :
  wp (IsMountPoint stage) s (λ r _ tr, Forall (λ e, undo_ok stage e = true) tr → ∃ b, r = Ok b).
Proof.
  assert (bool_decide (stage = stage) = true) as Et by by apply bool_decide_true.
  unfold IsMountPoint. cbn. intros [i|e]; cbn.
  - intros [out [e|]]; cbn; [|by eauto]. destruct (exit_is 1 e) eqn:E; cbn; [by eauto|].
    intros (_ & [H _]%Forall_cons)%Forall_cons. cbn in H. by rewrite Et, E in H.
  - destruct (is_NotExist e) eqn:E; cbn; [by eauto|]. intros [H _]%Forall_cons. cbn in H. by rewrite Et, E in H.
Qed.
Lemma trusts_stage : trusts stage = true.
Proof. apply trust_in_elem. by left. Qed.
Lemma wwr_Unmount s w :
  wwr (Unmount stage) s w (λ r s' w', r = Ok tt ∧ s' = s ∧
    w' = if mounted_at w stage then mkWorld (pop stage (w_mounts w)) (w_loops w) (w_maps w) else w).
Proof.
  intros tr a s' w' He Hk Hf. assert (a = Ok tt) as ->.
  { apply exec_bindE in He as [(t1 & b & s1 & t2 & -> & H1 & H2)|(e & -> & H1)].
    - apply Forall_app in Hf as [_ Hf]. destruct b; [|by destruct H2 as (_ & -> & _)]. cbn in H2.
      destruct H2 as ([out [e|]] & t & -> & H2); [|by destruct H2 as (_ & -> & _)]. by apply Forall_cons in Hf as [].
    - apply (proj1 (wp_exec _ _ _) (IsMountPoint_answers s)) in H1 as [b [=]]; done. }
  split; [done|]. by apply (proj1 (wwp_exec _ _ _ _) (wwp_Unmount stage s w trusts_stage) _ _ _ _ He Hk).
Qed.
End Wwr.

(** ** The new stage *)
Section Fresh.
Context (stage : string).
Implicit Types (s : NodeMem) (w : world).

(** Steps that end in an error leave the node at [w0]. *)
Definition errs {A} (w0 : world) : res A → NodeMem → world → Prop :=
  λ r _ w', match r with Err _ => w' = w0 | Ok _ => True end.

Lemma wwr_orCleanup {A} c f (m : prog NodeMem (res A)) s w Q :
  wwr stage m s w (λ r s1 w1, match r with
    | Ok a => Q (Ok a) s1 w1
    | Err e => wwr stage c s1 w1 (λ _ s2 w2, Q (Err (f e)) s2 w2)
    end) → wwr stage (orCleanup c f m) s w Q.
Proof.
  intros H. apply wwr_bind. eapply wwr_mono; [|exact H]. intros [a|e] s1 w1 H1; [by apply wwr_ret|].
  apply wwr_bind. eapply wwr_mono; [|exact H1]. intros [] s2 w2 H2. by apply wwr_ret.
Qed.

(** What the stage has added when it has opened its device. *)
Definition opened_on (mapper : option string) (dev img : string) (w : world) : world :=
  let w1 := add_loop dev img w in match mapper with Some name => add_mapping name dev w1 | None => w1 end.

Lemma wwr_detachOnFail mapper dev img s w :
  w_loops w !! dev = None → ¬ in_use w dev →
  match mapper with Some name => w_maps w !! name = None | None => True end →
  wwr stage (detachOnFail mapper dev) s (opened_on mapper dev img w) (λ _ _ w', w' = w).
Proof.
  intros Hf Hu Hm. unfold detachOnFail. apply wwr_bind.
  eapply (wwr_mono _ _ _ _ (λ _ _ w', w' = add_loop dev img w)).
  2: { destruct mapper as [name|]; [|by apply wwr_ret]. apply wwr_bind. eapply wwr_mono; [|apply wwr_CloseMapping].
       intros r s1 w1 (_ & _ & ->). apply wwr_ret. cbn. by rewrite delete_insert_id. }
  intros [] s1 w1 ->. apply wwr_bind. eapply wwr_mono; [|apply wwr_Detach]. intros r s2 w2 (_ & _ & Hw). apply wwr_ret.
  rewrite decide_False in Hw by exact Hu. rewrite Hw. cbn. rewrite delete_insert_id by done. by destruct w.
Qed.

(** A quiet step of a stage: it goes on, or the devices are released. *)
Lemma wwr_quiet {A B} c f (m : prog NodeMem (res A)) (k : A → prog NodeMem (res B)) s w w0 :
  emits inert_event m → keeps (λ s, s) m → wwr stage c s w (λ _ _ w', w' = w0) →
  (∀ a, wwr stage (k a) s w (errs w0)) → wwr stage (bindE (orCleanup c f m) k) s w (errs w0).
Proof.
  intros Hi Hk Hc Hf. apply wwr_bindE, wwr_orCleanup, wwr_wwp, wwp_quiet; [done..|]. by intros [a|e].
Qed.

Lemma wwr_Prepare dev name k f s w :
  wwr stage (Prepare dev name k f) s w (λ r s' w', s' = s ∧
    match r with
    | Ok p => fst p = MapperPath name ∧ w_maps w !! name = None ∧ w' = add_mapping name dev w
    | Err _ => w' = w
    end).
Proof.
  unfold Prepare. apply wwr_bindE, wwr_wwp, wwp_quiet; [eauto with emits|apply formatIfBlank_keeps|].
  intros [o1|e]; [|done]. apply wwr_bindE, wwr_wwp, wwp_quiet; [eauto with emits|apply rotate_keeps|].
  intros [o2|e]; [|done]. cbv zeta. apply wwr_bind.
  eapply wwr_mono; [|apply wwr_wwp, wwp_open]. intros [out [e|]] s1 w1 [-> Ho]; [by apply wwr_ret|].
  destruct Ho as [Hn ->]. cbn [snd].
  apply wwr_bind, wwr_wwp, wwp_quiet; [eauto with emits|apply ensureFilesystem_keeps|].
  intros [[]|e]; [by apply wwr_ret|]. apply wwr_bind. eapply wwr_mono; [|apply wwr_CloseMapping].
  intros r s1 w1 (-> & -> & ->). apply wwr_ret. cbn. rewrite delete_insert_id by done. by destruct w.
Qed.

Lemma wwr_open_device input mapper dev img s w :
  w_loops w !! dev = None → ¬ in_use w dev →
  let mp := if in_encrypted input then Some mapper else None in
  wwr stage (open_device input mapper dev) s (add_loop dev img w) (λ r s' w',
    match r with
    | Err _ => w' = w
    | Ok _ => w' = opened_on mp dev img w ∧ match mp with Some name => w_maps w !! name = None | None => True end
    end).
Proof.
  intros Hf Hu mp. unfold open_device, mp. destruct (in_encrypted input); [|by apply wwr_ret].
  pose proof (wwr_detachOnFail None dev img) as Hc. cbn in Hc.
  apply wwr_bindE, wwr_orCleanup, wwr_wwp, wwp_quiet; [eauto with emits|apply SetCapacity_keeps|].
  intros [[]|e]; [|by apply Hc]. apply wwr_bindE, wwr_orCleanup. eapply wwr_mono; [|apply wwr_Prepare].
  intros [r|e] s1 w1; [|by intros [-> ->]; apply Hc]. intros (-> & _ & Hn & ->). by apply wwr_ret.
Qed.

Lemma wwr_mount_device req input img mapper dev cd s w :
  sr_StagingTargetPath req = stage → w_loops w !! dev = None → ¬ in_use w dev →
  let mp := if in_encrypted input then Some mapper else None in
  match mp with Some name => w_maps w !! name = None | None => True end →
  wwr stage (mount_device req input img mapper dev cd) s (opened_on mp dev img w) (errs w).
Proof.
  intros Hst Hf Hu mp Hm. unfold mount_device. set (target := if in_encrypted input then cd else dev). cbv zeta.
  rewrite Hst. assert (∀ s, wwr stage (detachOnFail mp dev) s (opened_on mp dev img w) (λ _ _ w', w' = w)) as Hc
    by (intros; by apply wwr_detachOnFail).
  fold mp. apply wwr_quiet; [eauto with emits|apply Fsck_keeps|done|]. intros [].
  apply wwr_bindE. eapply (wwr_mono _ _ _ _ (λ r s' w', match r with Ok _ => s' = s ∧ w' = opened_on mp dev img w | Err _ => w' = w end)).
  2: { destruct (in_encrypted input); [by apply wwr_ret|].
       apply wwr_orCleanup, wwr_wwp, wwp_quiet; [eauto with emits|apply SetCapacity_keeps|]. by intros [[]|e]. }
  intros [[]|e] s1 w1; [|done]. intros [-> ->].
  apply wwr_quiet; [eauto with emits|apply Resize2fs_keeps|done|]. intros [].
  apply wwr_quiet; [solve_inert|solve_keeps|done|]. intros [].
  apply wwr_bindE, wwr_orCleanup. eapply wwr_mono; [|apply wwr_wwp, wwp_MountFs_all].
  intros [[]|e] s1 w1 [-> ->]; [|by apply Hc].
  apply wwr_bindE, wwr_orCleanup, wwr_wwp, wwp_inert; [eauto with emits|]. intros tr [[]|e] s1 _.
  - intros t [[]|e] s2 w2 He _ _; [done|]. exfalso.
    apply exec_bind in He as (? & ? & ? & ? & _ & _ & He).
    apply exec_bind in He as (? & ? & ? & ? & _ & _ & (_ & [=] & _)).
  - apply wwr_bind. eapply wwr_mono; [|apply wwr_Unmount]. intros r s2 w2 (_ & -> & ->).
    rewrite add_mount_mounted. cbn [add_mount w_mounts w_loops w_maps pop fst]. rewrite decide_True by done.
    destruct (opened_on mp dev img w). apply Hc.
Qed.

Lemma wwr_stage_fresh n req input img size s w :
  sr_StagingTargetPath req = stage → wwr stage (stage_fresh n req input img size) s w (errs w).
Proof.
  intros Hst. unfold stage_fresh. cbv zeta.
  apply wwr_bindE, wwr_wrap, wwr_wwp, wwp_quiet; [unfold loopSectorSize; solve_inert; eauto with emits|
    apply loopSectorSize_keeps|]. intros [sector|e]; [|done].
  apply wwr_bindE, wwr_wrap. eapply wwr_mono; [|apply wwr_wwp, wwp_Attach]. intros [dev|e] s1 w1; [|by intros [_ ->]].
  intros (-> & Hf & Hu & ->). apply wwr_bindE. eapply wwr_mono; [|by apply (wwr_open_device _ _ _ img)].
  intros [cd|e] s1 w1; [|by intros ->]. intros [-> Hm]. by apply wwr_mount_device.
Qed.
End Fresh.

(** ** What a failed stage leaves *)

(** [w'] is [w] but for mounts at [p] and loop devices of [id]'s image that
    were detached. *)
Record rolled_back (p id : string) (w w' : world) : Prop := {
  rb_mounts : off p (w_mounts w') = off p (w_mounts w);
  rb_maps : w_maps w' = w_maps w;
  rb_loops : ∀ d, w_loops w' !! d = w_loops w !! d ∨
    w_loops w' !! d = None ∧ ∃ b, w_loops w !! d = Some b ∧ Base b = id +:+ ImageExt }.

Lemma only_at_rolled p id w w' : only_at p w w' → rolled_back p id w w'.
Proof. intros [H1 H2 H3]. split; [done..|]. intros d. left. by rewrite H2. Qed.
Lemma rolled_trans p id w1 w2 w3 : only_at p w1 w2 → rolled_back p id w2 w3 → rolled_back p id w1 w3.
Proof. intros [H1 H2 H3] [H4 H5 H6]. rewrite H1 in H4. rewrite H3 in H5. rewrite H2 in H6. by split. Qed.
Lemma rolled_detach p id dev b w w' :
  rolled_back p id w w' → w_loops w !! dev = Some b → Base b = id +:+ ImageExt →
  rolled_back p id w (mkWorld (w_mounts w') (delete dev (w_loops w')) (w_maps w')).
Proof.
  intros [H1 H2 H3] Hd Hb. split; [done..|]. intros d. cbn [w_loops]. destruct (decide (dev = d)) as [<-|Hne].
  - right. split; [apply lookup_delete_eq|by exists b].
  - rewrite lookup_delete_ne by done. apply H3.
Qed.

Section Stage.
Context (stage : string).

Lemma wwr_detach_idle p id loops s w w1 :
  (∀ d, d ∈ loops → ∃ b, w_loops w !! d = Some b ∧ Base b = id +:+ ImageExt) → rolled_back p id w w1 →
  wwr stage (detach_idle loops) s w1 (λ r _ w', r = Ok tt ∧ rolled_back p id w w').
Proof.
  unfold detach_idle. revert s w1. induction loops as [|d loops IH]; intros s w1 Hl Hr; cbn [for_each]; [by apply wwr_ret|].
  apply wwr_bindE, wwr_wrap. eapply wwr_mono; [|apply wwr_Detach]. intros r s2 w2 (-> & -> & Hw). cbn [map_err].
  apply IH; [intros; apply Hl; by right|]. destruct (Hl d) as (b & Hb & Hn); [left|].
  destruct (decide (in_use w1 d)); [destruct Hw as [->| ->]|rewrite Hw]; eauto using rolled_detach.
Qed.

Lemma adoptStage_inert n req img loops enc k : emits inert_event (adoptStage n req img loops enc k).
Proof. unfold adoptStage, cacheKeys, Clear. solve_inert. Qed.
Lemma refuse_busy_inert n loops : emits inert_event (refuse_busy n loops).
Proof. unfold refuse_busy, loopBusy. solve_inert. Qed.

Lemma wwr_stage_image n req input backing mounted p s w :
  sr_StagingTargetPath req = stage → is_name (sr_VolumeId req) →
  wwr stage (stage_image n req input backing mounted) s w (λ r _ w',
    match r with Err _ => rolled_back p (sr_VolumeId req) w w' | Ok _ => True end).
Proof.
  intros Hst Hid. set (id := sr_VolumeId req). pose proof (only_at_rolled p id _ _ (only_at_refl p w)) as H0.
  unfold stage_image. apply wwr_bindE, wwr_wrap, wwr_wwp, wwp_quiet; [eauto with emits|apply New_keeps|].
  intros [root|e]; [|done]. cbn [map_err]. cbv zeta. fold id.
  apply wwr_bind, wwr_wwp, wwp_quiet; [solve_inert|solve_keeps|]. intros [info|e].
  2: { apply wwr_wwp, wwp_quiet; [unfold missing_image; solve_inert; eauto with emits|apply missing_image_keeps|]. by intros [|]. }
  apply wwr_bindE, wwr_wrap.
  assert (wwp (TR := trust_in [stage]) (FindBacking (ImagePath root id)) s w (λ r s' w', s' = s ∧ w' = w ∧ ∀ loops, r = Ok loops →
    ∀ d, d ∈ loops → ∃ b, w_loops w !! d = Some b ∧ Base b = id +:+ ImageExt)) as Hfind.
  { eapply wwp_mono; [|apply wwp_asks, wwp_Find; [apply Find_inert|apply Find_keeps]].
    intros r s1 w1 (-> & -> & H). split_and!; [done..|]. intros loops E d Hd.
    destruct (H loops E) as (_ & _ & _ & Hl). apply Hl in Hd as (b & Hd & Hb). exists b. split; [done|].
    rewrite <- (Base_ImagePath root) by done. by apply Backs_Base. }
  eapply wwr_mono; [|apply wwr_wwp, Hfind]. intros [loops|e] s1 w1; [|by intros (_ & -> & _)].
  intros (-> & -> & Hl). specialize (Hl loops eq_refl). cbn [map_err].
  destruct mounted.
  { apply wwr_wwp, wwp_inert; [apply adoptStage_inert|]. by intros tr [|] s'. }
  apply wwr_bindE, wwr_wwp, wwp_quiet; [apply refuse_busy_inert|apply refuse_busy_keeps|]. intros [[]|e]; [|done].
  apply wwr_bindE, wwr_wwp, wwp_quiet; [unfold refuse_open; solve_inert|apply refuse_open_keeps|]. intros [[]|e]; [|done].
  apply wwr_bindE. eapply wwr_mono; [|by apply (wwr_detach_idle p id loops s w w)]. intros r s1 w1 [-> Hr].
  eapply wwr_mono; [|by apply wwr_stage_fresh]. intros [[]|e] s2 w2; [done|]. by intros ->.
Qed.
End Stage.

Lemma wwr_zoom {S T A} stage (l : lens S T) `{!LensOk l} (m : prog S A) t w Q :
  wwp (TR := trust_in [stage]) m (lget l t) w (λ a s w', Q a (lset l s t) w') → wwr stage (zoom l m) t w Q.
Proof. intros H. by apply wwr_wwp, wwp_zoom. Qed.

Lemma wwr_stageLocked n req cfg s w :
  let id := sr_VolumeId req in
  let p := JoinPath [reg_root (nd_registry s); MountID cfg] in
  is_name id → ConfigFromVolumeContext (sr_VolumeContext req) = Ok cfg →
  wwr (sr_StagingTargetPath req) (stageLocked n req) s w (λ r _ w',
    match r with Err _ => rolled_back p id w w' | Ok _ => True end).
Proof.
  intros id p Hid Hcfg. pose proof (only_at_rolled p id _ _ (only_at_refl p w)) as H0.
  unfold stageLocked. cbv zeta. apply wwr_bindE, wwr_ret.
  destruct (stage_input req) as [input|e] eqn:Ei; [|done].
  assert (in_cfg input = cfg) as -> by (apply stage_input_cfg in Ei; congruence).
  apply wwr_bindE, wwr_wrap, (wwr_zoom _ node_registry). eapply wwp_mono; [|apply wwp_Get].
  intros [backing|e] r1 w1 [_ Ho]; [|by apply only_at_rolled]. cbn [lget node_registry] in Ho. fold p in Ho. cbn [map_err].
  apply wwr_bindE, wwr_ret. destruct (validateCapability _) as [[]|e]; [|by apply only_at_rolled].
  apply wwr_bindE, wwr_wrap. eapply wwr_mono; [|apply wwr_wwp, wwp_check, trusts_stage].
  intros [b|e] s2 w2 (-> & -> & _); [|by apply only_at_rolled]. cbn [map_err].
  apply wwr_bind, wwr_wwp, wwp_inert; [unfold GetMapping; solve_inert|]. intros tr existing s2 _.
  destruct (staged_at existing _ && b).
  - apply wwr_wwp, wwp_inert; [unfold cacheKeys; solve_inert|]. intros t [|e] s3 _; [done|by apply only_at_rolled].
  - eapply wwr_mono; [|by apply (wwr_stage_image _ n req input backing b p)].
    intros [[]|e] s3 w3; [done|]. by apply rolled_trans.
Qed.

Lemma wwr_with_volume {A} stage id (m : prog NodeMem A) s w Q :
  wwr stage m (set_volMutex (λ v, {[id]} ∪ v) s) w (λ a _ w', Q a w') →
  wwr stage (with_volume id m) s w (λ a _ w', Q a w').
Proof.
  intros H tr a s' w' He Hk Hf. unfold with_volume, lockVolume, with_lock in He. cbn in He.
  destruct He as ([] & t1 & -> & ([] & t2 & -> & ([] & t3 & -> & He))).
  apply exec_bind in He as (t4 & a' & s4 & t5 & -> & He & ([] & t6 & -> & (-> & -> & ->))).
  apply heard_run_volume in Hk. rewrite !Forall_cons, Forall_app in Hf. destruct Hf as (_ & _ & _ & Hf & _). exact (H _ _ _ _ He Hk Hf).
Qed.


(** resize2fs fails on the encrypted volume, whose image has an idle leftover
    loop device. *)
Definition leftover_world : world :=
  mkWorld [("/stage/other", "/dev/loop1")] {["/dev/loop1" := "/stores/x/other.img"; "/dev/loop2" := demo_image]} ∅.
Definition rollback_demo := run (sim_node "resize2fs") (NodeStageVolume demo_node demo_secret) demo_node_mem leftover_world.

