(* ===== verification/Stacks.v ===== *)
(** The registry on a node whose commands tell the truth (pkg/store/registry.go
    on the node of World.v).

    A mount(8) onto a mount point stacks, and nothing unstacks it.  The
    registry therefore mounts only where its checks say that nothing is
    mounted.  The theorem follows a plugin from AdoptExisting through any
    sequence of Gets: a store is mounted at most once, and once more for each
    of its checks in which a failing findmnt was misread.  The last lemmas show
    that a misread check, or one of AdoptExisting that is not answered, does
    stack a second mount. *)

From Stdlib Require Import ZArith Lia Ascii.
From stdpp Require Import base option gmap strings list.
From S2P Require Import Prelude GoStrings Regexp Effects Json Store Image Crypt Mount Loop Registry.
From S2P Require Import Node World Lifecycle Rollback.

Import strings path.
Local Open Scope prog_scope.

(** The directories of the stores, and how often one is mounted. *)
Definition store_dir (id : string) : Prop := Regexp.matches storeIDPattern id = true.
Definition times (w : world) (p : string) : nat := length (filter (λ m, m.1 = p) (w_mounts w)).

(** How often a path was misread, and whether a store is recorded as mounted. *)
Definition occurs (p : string) (l : list string) : nat := length (filter (λ q, q = p) l).
Definition recorded (r : Registry) (id : string) : nat := match mounted r !! id with Some _ => 1 | None => 0 end.

(** A store is mounted once if it is recorded, and once more for each of its
    checks in [l], which were misread. *)
Definition unstacked (root : string) (l : list string) (r : Registry) (w : world) : Prop :=
  ∀ id, store_dir id → times w (JoinPath [root; id]) ≤ occurs (JoinPath [root; id]) l + recorded r id.

Lemma occurs_app p l1 l2 : occurs p (l1 ++ l2) = occurs p l1 + occurs p l2.
Proof. unfold occurs. by rewrite filter_app, length_app. Qed.
Lemma occurs_0 p l : occurs p l = 0 ↔ l ## [p].
Proof.
  unfold occurs. rewrite length_zero_iff_nil. split.
  - intros E q Hq ->%list_elem_of_singleton. assert (p ∈ filter (λ q, q = p) l) as H by (by apply list_elem_of_filter).
    rewrite E in H. by apply elem_of_nil in H.
  - intros Hd. apply elem_of_nil_inv. intros q [-> Hq]%list_elem_of_filter. apply (Hd p Hq). by left.
Qed.

Lemma times_unmounted w p : mounted_at w p = false → times w p = 0.
Proof.
  unfold mounted_at, times. intros H%bool_decide_eq_false. destruct (filter _ _) as [|m l] eqn:E; [done|].
  exfalso. apply H. assert (m ∈ filter (λ m, m.1 = p) (w_mounts w)) as [<- Hm]%list_elem_of_filter by (rewrite E; left).
  by apply list_elem_of_fmap_2.
Qed.
Lemma times_add w p q source : times (add_mount p source w) q = (if decide (p = q) then 1 else 0) + times w q.
Proof.
  unfold times. cbn [add_mount w_mounts]. rewrite filter_cons. cbn [fst]. by destruct (decide (p = q)).
Qed.
Lemma times_off p q w w' : only_at p w w' → q ≠ p → times w' q = times w q.
Proof.
  intros [Hm _ _] Hq. unfold times. enough (∀ l, filter (λ m, m.1 = q) l = filter (λ m, m.1 = q) (off p l)) as H.
  { by rewrite (H (w_mounts w')), (H (w_mounts w)), Hm. }
  intros l. unfold off. rewrite list_filter_filter. apply list_filter_iff. intros m. naive_solver.
Qed.

Lemma store_dir_plain id : store_dir id → plain_seg id.
Proof.
  unfold store_dir, storeIDPattern. intros [Hl Hh]%Regexp.matches_lang%Regexp.lang_repn_chr.
  split_and!; [intros ->; by simpl in Hl..|]. by apply all_hex_no_slash.
Qed.
Lemma MountID_store_dir cfg : store_dir (MountID cfg).
Proof. apply Regexp.matches_lang, Regexp.lang_repn_chr. apply hashID_shape. Qed.
Lemma store_dir_inj root id id' : store_dir id → store_dir id' → JoinPath [root; id] = JoinPath [root; id'] → id = id'.
Proof.
  intros H1 H2 E%(f_equal Base). by rewrite !Base_JoinPath in E by by apply store_dir_plain.
Qed.

(** ** Programs and the checks they misread *)

(** Nothing is trusted: every run of the node. *)
Definition trust_none : Trust := λ _, false.
Lemma heard_run_none tr w w' : kernel_run tr w = Some w' → heard_run (H := trust_none) tr w w'.
Proof. intros Hk. split; [done|]. by apply Forall_forall. Qed.

Section Counted.
Context {S : Type} (p : string).

(** Every execution of [m], in which checks of [p] are misread [n] times, ends
    in [Q n]. *)
Definition cwp {A} (m : prog S A) (s : S) (w : world) (Q : nat → A → S → world → Prop) : Prop :=
  ∀ tr a s' w', exec m s tr a s' → kernel_run tr w = Some w' → Q (occurs p (misreads tr w)) a s' w'.

Lemma cwp_mono {A} (m : prog S A) s w (Q Q' : nat → A → S → world → Prop) :
  (∀ n a s w, Q n a s w → Q' n a s w) → cwp m s w Q → cwp m s w Q'.
Proof. unfold cwp. eauto. Qed.
Lemma cwp_ret {A} (a : A) s w (Q : nat → A → S → world → Prop) : Q 0 a s w → cwp (Ret a) s w Q.
Proof. by intros H tr x s' w' (-> & -> & ->) [= <-]. Qed.
Lemma cwp_bind {A B} (m : prog S A) (f : A → prog S B) s w Q :
  cwp m s w (λ n a s1 w1, cwp (f a) s1 w1 (λ k, Q (n + k))) → cwp (bind m f) s w Q.
Proof.
  intros H tr a s' w' (t1 & b & s1 & t2 & -> & H1 & H2)%exec_bind (w1 & K1 & K2)%kernel_run_app.
  rewrite (misreads_app _ _ _ _ K1), occurs_app. by eapply (H t1 b s1 w1).
Qed.
(** What holds of every run, and of those that misread nothing. *)
Lemma cwp_wwp {A} (m : prog S A) s w (Q : Trust → A → S → world → Prop) :
  (∀ TR : Trust, wwp m s w (Q TR)) → cwp m s w (λ n a s' w', Q trust_none a s' w' ∧ (n = 0 → Q (trust_in [p]) a s' w')).
Proof.
  intros H tr a s' w' He Hk. split.
  - by apply (proj1 (wwp_exec _ _ _ _) (H trust_none) _ _ _ _ He), heard_run_none.
  - intros Hn%occurs_0. by apply (proj1 (wwp_exec _ _ _ _) (H (trust_in [p])) _ _ _ _ He), heard_run_in.
Qed.
Lemma cwp_any {A} (m : prog S A) s w (Q : A → S → world → Prop) :
  wwp (TR := trust_none) m s w Q → cwp m s w (λ _, Q).
Proof. intros H tr a s' w' He Hk. by apply (proj1 (wwp_exec _ _ _ _) H _ _ _ _ He), heard_run_none. Qed.
End Counted.

(** ** The steps of Get *)
Definition mount_view (r : Registry) : string * gmap string string := (reg_root r, mounted r).

Definition is_ok {A} (r : res A) : bool := match r with Ok _ => true | Err _ => false end.

(** A step that moves neither the node nor the record of mounts. *)
Lemma wwp_view `{TR : Trust} {A} (m : prog Registry A) r w :
  emits inert_event m → keeps mount_view m → wwp m r w (λ _ r' w', mount_view r' = mount_view r ∧ w' = w).
Proof.
  intros Hi Hk. apply wwp_inert; [done|]. intros tr a r' He. split; [|done]. by eapply (exec_keeps mount_view).
Qed.

Lemma locked_keeps {A} (f : Registry → A * Registry) :
  (∀ r, mount_view (f r).2 = mount_view r) → keeps mount_view (locked f).
Proof. intros Hf. unfold locked, with_lock. cbn. intros _ r. split; [apply Hf|done]. Qed.
Lemma locked_inert {A} (f : Registry → A * Registry) : emits inert_event (locked f).
Proof. unfold locked. solve_inert. Qed.
#[local] Hint Resolve locked_inert : emits.
#[local] Hint Extern 1 (keeps mount_view (locked _)) => apply locked_keeps; by intros : keeps.

Lemma wwp_check_if `{TR : Trust} {S} p (s : S) w :
  wwp (IsMountPoint p) s w (λ r s' w', s' = s ∧ w' = w ∧ (trusts p = true → ∀ b, r = Ok b → b = mounted_at w p)).
Proof.
  destruct (trusts p) eqn:Et.
  - eapply wwp_mono; [|by apply wwp_check]. naive_solver.
  - apply wwp_quiet; [apply IsMountPoint_inert|unfold IsMountPoint; solve_keeps|]. done.
Qed.

Lemma wwp_checkMountPoint `{TR : Trust} id path r w :
  wwp (checkMountPoint id path) r w (λ res r' w', mount_view r' = mount_view r ∧ w' = w ∧
    (trusts path = true → ∀ b, res = Some (Ok b) → b = mounted_at w path)).
Proof.
  unfold checkMountPoint. apply wwp_bind. eapply wwp_mono; [|apply wwp_view; [apply locked_inert|by apply locked_keeps]].
  intros [] r1 w1 [Er ->].
  - apply wwp_bind, wwp_quiet; [solve_inert|solve_keeps|]. intros [|]; [|done].
    apply wwp_bind. eapply wwp_mono; [|apply wwp_view; [apply locked_inert|by apply locked_keeps]].
    intros [] r2 w2 [E2 ->]. cbn. split_and!; [congruence|done..].
  - apply wwp_bind, wwp_quiet; [solve_inert|solve_keeps|]. intros [|]; [done|].
    apply wwp_bind. eapply wwp_mono; [|apply wwp_check_if]. intros res r2 w2 (-> & -> & Hb).
    apply wwp_bind. eapply wwp_mono; [|apply wwp_view; [apply locked_inert|by apply locked_keeps]].
    intros [] r3 w3 [E3 ->]. cbn. split_and!; [congruence|done|]. intros Ht b [= ->]. by apply Hb.
Qed.

Lemma wwp_stillMounted `{TR : Trust} id path r w :
  wwp (stillMounted id path) r w (λ b r' w', mount_view r' = mount_view r ∧ w' = w ∧
    (trusts path = true → b = false → mounted_at w path = false)).
Proof.
  unfold stillMounted. cbn [bind gets wwp fst snd]. destruct (negb (reg_mp r)); [done|].
  apply wwp_bind. eapply wwp_mono; [|apply wwp_checkMountPoint]. intros res r1 w1 (E & -> & Hb).
  destruct res as [[b|e]|]; cbn; (split_and!; [done|done|]); try done. intros Ht ->. by rewrite <- (Hb Ht false).
Qed.

Lemma wwp_locked `{TR : Trust} {A} (f : Registry → A * Registry) r w : wwp (locked f) r w (λ a r' w', (a, r') = f r ∧ w' = w).
Proof.
  cbn. intros [] w1 [= <-] [] w2 [= <-]. split; [by destruct (f r)|done].
Qed.

Lemma wwp_mount_with `{TR : Trust} k target cfg (r : Registry) w :
  wwp (mount_with k target cfg) r w (λ res r' w', r' = r ∧
    match res with Ok _ => ∃ source, w' = add_mount target source w | Err _ => w' = w end).
Proof.
  destruct k; unfold mount_with, NFSMount, LocalMount; repeat case_match; try done; cbn;
    intros [out [e|]] w1; cbn; intros [= <-]; eauto.
Qed.

(** Mounting, and what is recorded of it. *)
Lemma wwp_mount_target `{TR : Trust} cfg r w :
  let target := JoinPath [reg_root r; MountID cfg] in
  wwp (mount_target cfg) r w (λ res r' w', reg_root r' = reg_root r ∧
    match res with
    | Ok p => p = target ∧ mounted r' = <[MountID cfg := target]> (mounted r) ∧ ∃ source, w' = add_mount target source w
    | Err _ => mounted r' = mounted r ∧ w' = w
    end).
Proof.
  intros target. unfold mount_target. cbn [bind gets wwp fst snd]. fold target.
  apply wwp_bind, wwp_bind, wwp_quiet; [solve_inert|solve_keeps|]. intros [[]|e]; [|done]. cbn [wwp map_err].
  cbn [bind bindE gets wwp fst snd id lift_res]. destruct (mounterFor r (cfg_Type cfg)) as [k|e]; [|done].
  cbn [bind wwp]. apply wwp_bind. eapply wwp_mono; [|apply wwp_mount_with]. intros [[]|e] r1 w1; [|by intros [-> ->]].
  intros (-> & source & ->). apply wwp_bind. eapply wwp_mono; [|apply wwp_locked].
  intros [] r2 w2 [[= ->] ->]. cbn [wwp ok reg_root mounted set_mounted]. eauto 6.
Qed.

(** The record and the node as far as one mount is concerned, since [r0] and
    [w0], when its checks were misread [n] times. *)
Record mount_ok (cfg : Config) (r0 : Registry) (w0 : world) (n : nat) (r : Registry) (w : world) : Prop := {
  mo_root : reg_root r = reg_root r0;
  mo_rest : ∀ id, id ≠ MountID cfg → mounted r !! id = mounted r0 !! id;
  mo_node : only_at (JoinPath [reg_root r0; MountID cfg]) w0 w;
  mo_path : ∀ p, mounted r !! MountID cfg = Some p → p = JoinPath [reg_root r0; MountID cfg];
  mo_times : times w (JoinPath [reg_root r0; MountID cfg]) ≤ n + recorded r (MountID cfg) }.

Lemma mount_ok_view cfg r0 w0 n r w r' : mount_view r' = mount_view r → mount_ok cfg r0 w0 n r w → mount_ok cfg r0 w0 n r' w.
Proof. intros [= E1 E2] []. unfold recorded in *. split; unfold recorded; by rewrite ?E1, ?E2. Qed.
Lemma mount_ok_le cfg r0 w0 n k r w : n ≤ k → mount_ok cfg r0 w0 n r w → mount_ok cfg r0 w0 k r w.
Proof. intros Hn []. split; auto. lia. Qed.

Lemma wwp_mount_ok `{TR : Trust} cfg r0 w0 n r w :
  mount_ok cfg r0 w0 n r w → mounted r !! MountID cfg = None →
  wwp (mount_target cfg) r w (λ res r' w', mount_ok cfg r0 w0 n r' w' ∧
    (is_ok res → mounted_at w' (JoinPath [reg_root r0; MountID cfg]) = true)).
Proof.
  intros [H1 H2 H3 H5 H6] Hn. eapply wwp_mono; [|apply wwp_mount_target]. rewrite H1.
  unfold recorded in H6. rewrite Hn in H6.
  intros [p|e] r1 w1 [E1 E2]; [|destruct E2 as [E2 ->]; split; [|done]; split; unfold recorded; rewrite ?E1, ?E2, ?Hn; done].
  destruct E2 as (-> & E2 & source & ->). split; [|intros _; apply add_mount_mounted]. split; unfold recorded; rewrite ?E2.
  - congruence.
  - intros id Hid. rewrite lookup_insert_ne by done. by apply H2.
  - eapply only_at_trans; [exact H3|apply only_at_add].
  - rewrite lookup_insert_eq. by intros p [= <-].
  - rewrite lookup_insert_eq, times_add, decide_True by done. lia.
Qed.

Section Get.
Context (cfg : Config) (r0 : Registry) (w0 : world).
Let target := JoinPath [reg_root r0; MountID cfg].

(** What a Get does, whatever was misread before. *)
Definition get_step {A} (m : prog Registry (res A)) : Prop :=
  ∀ k r w, mount_ok cfg r0 w0 k r w → cwp target m r w (λ n res r' w', mount_ok cfg r0 w0 (k + n) r' w' ∧
    (is_ok res → mounted r !! MountID cfg = None → mounted_at w' target = true)).

(** A recorded mount that is found gone is forgotten. *)
Lemma cwp_forget id path k r w :
  id = MountID cfg → mount_ok cfg r0 w0 k r w → mounted r !! MountID cfg = Some path →
  cwp target (stillMounted id path) r w (λ n live r' w', mount_view r' = mount_view r ∧ w' = w ∧
    (live = false → times w target ≤ k + n)).
Proof.
  intros -> H Ec. rewrite (mo_path _ _ _ _ _ _ H path Ec). fold target.
  eapply cwp_mono; [|apply (cwp_wwp _ _ _ _ (λ TR b r' w', mount_view r' = mount_view r ∧ w' = w ∧
    (trusts target = true → b = false → mounted_at w target = false)) (λ TR, wwp_stillMounted _ _ _ _))].
  intros n live r1 w1 [(E & -> & _) Ht]. split_and!; [done..|]. intros ->. destruct n as [|n].
  - destruct (Ht eq_refl) as (_ & _ & Hf). rewrite times_unmounted; [lia|].
    apply Hf; [|done]. apply trust_in_elem. by left.
  - pose proof (mo_times _ _ _ _ _ _ H) as Hm. unfold recorded in Hm. rewrite Ec in Hm. fold target in Hm. lia.
Qed.

Lemma acquire_get_step : get_step (acquire cfg).
Proof.
  intros k r w H. unfold acquire. cbv zeta. apply cwp_bind. eapply cwp_mono; [|apply cwp_any, wwp_locked].
  intros n0 cached r1 w1 [[= -> ->] ->]. apply cwp_bind.
  eapply (cwp_mono _ _ _ _ (λ n c r' w', mount_ok cfg r0 w0 (k + n) r' w' ∧
    match c with
    | None => mounted r' !! MountID cfg = None
    | Some _ => mounted r !! MountID cfg ≠ None
    end)).
  - intros n [p|] r2 w2 [H2 Hm].
    + apply cwp_ret. split; [|done]. eapply mount_ok_le; [|exact H2]. lia.
    + eapply cwp_mono; [|apply cwp_any; by apply wwp_mount_ok]. intros n' res r3 w3 [H3 Ho].
      split; [eapply mount_ok_le; [|exact H3]; lia|]. intros Hr _. by apply Ho.
  - destruct (mounted r !! MountID cfg) as [p|] eqn:Ec; [|apply cwp_ret; split; [by eapply mount_ok_le; [|exact H]; lia|done]].
    apply cwp_bind. eapply cwp_mono; [|by eapply cwp_forget]. intros n live r2 w2 (Ev & -> & Hl).
    apply (mount_ok_view _ _ _ _ _ _ _ Ev) in H as H2. destruct live.
    { apply cwp_ret. split; [|done]. eapply mount_ok_le; [|exact H2]. lia. }
    specialize (Hl eq_refl). apply cwp_bind. eapply cwp_mono; [|apply cwp_any, wwp_locked].
    intros n' [] r3 w3 [[= ->] ->]. apply cwp_ret. destruct H2 as [H1 H2 H3 H4 H5].
    split; [|apply lookup_delete_eq]. split; unfold recorded; cbn [reg_root mounted set_mounted set_stores]; try done.
    + intros id Hid. rewrite lookup_delete_ne by done. by apply H2.
    + by rewrite lookup_delete_eq.
    + rewrite lookup_delete_eq. fold target. lia.
Qed.

(** Steps around it. *)
Lemma get_step_unlock {A} (res : res A) mu k r w : mount_ok cfg r0 w0 k r w →
  cwp target (_ <- sys (UnlockMu mu) ;; Ret res) r w (λ n res' r' w', res' = res ∧ w' = w ∧ mount_ok cfg r0 w0 k r' w').
Proof. intros H. apply cwp_any, wwp_bind, wwp_quiet; [solve_inert|solve_keeps|]. done. Qed.

Lemma Get_get_step : get_step (Registry.Get cfg).
Proof.
  intros k r w H. unfold Registry.Get, lockStore. cbv zeta. apply cwp_bind. eapply cwp_mono; [|apply cwp_any, wwp_locked].
  intros n0 [] r1 w1 [[= ->] ->]. unfold with_lock. apply cwp_bind.
  eapply cwp_mono; [|apply cwp_any, wwp_view; [solve_inert|solve_keeps]]. intros n1 [] r1 w1 [E1 ->].
  apply cwp_bind, cwp_bind. eapply cwp_mono; [|apply acquire_get_step, (mount_ok_view cfg r0 w0 k r); [exact E1|done]].
  injection E1 as _ Em. cbn [mounted set_storeMu] in Em.
  intros n2 [path|e] r2 w2 [H2 Ho].
  - eapply cwp_mono; [|apply cwp_any, wwp_view]; [|unfold resolve_store; solve_inert; eauto with emits|unfold resolve_store; solve_keeps].
    intros n3 res r3 w3 [E3 ->]. eapply cwp_mono; [|eapply get_step_unlock, mount_ok_view; [exact E3|exact H2]].
    intros n4 res' r4 w4 (-> & -> & H4). split; [|intros _ Hn; apply Ho; [done|congruence]].
    eapply mount_ok_le; [|exact H4]. lia.
  - apply cwp_ret. eapply cwp_mono; [|by eapply get_step_unlock]. intros n4 res' r4 w4 (-> & -> & H4).
    split; [|done]. eapply mount_ok_le; [|exact H4]. lia.
Qed.
End Get.

(** ** The plugin's life *)

(** The reply of a listing, and what makes a call of AdoptExisting true of the
    node: no check failed, and a listing of the root that has mounts below it
    succeeded and shows them. *)
Definition ev_readdir (e : event) : option (string * res (list dirent)) :=
  match e with
  | Ev c r => match c in call R return R → option (string * res (list dirent)) with
              | ReadDir p => λ r, Some (p, r)
              | _ => λ _, None
              end r
  end.
Definition tells (root : string) (w : world) (e : event) : Prop :=
  (∀ p, undo_ok p e = true) ∧
  ∀ r, ev_readdir e = Some (root, r) → ∀ id, store_dir id → mounted_at w (JoinPath [root; id]) = true →
    ∃ es, r = Ok es ∧ ∃ d, d ∈ es ∧ de_name d = id ∧ de_dir d = true.

(** Gets, whatever they answer, with the checks they misread; meanwhile mounts
    may go away by themselves, as a dropped NFS session does. *)
Inductive serves : Registry → world → list string → Registry → world → Prop :=
  | serves_done r w : serves r w [] r w
  | serves_get cfg r w tr res r1 w1 l r2 w2 :
      exec (Registry.Get cfg) r tr res r1 → kernel_run tr w = Some w1 → serves r1 w1 l r2 w2 →
      serves r w (misreads tr w ++ l) r2 w2
  | serves_drop r w w1 l r2 w2 :
      sublist (w_mounts w1) (w_mounts w) → serves r w1 l r2 w2 → serves r w l r2 w2.

Lemma unstacked_get root cfg l r w tr res r' w' :
  RegInv root r → unstacked root l r w → exec (Registry.Get cfg) r tr res r' → kernel_run tr w = Some w' →
  unstacked root (l ++ misreads tr w) r' w' ∧
  (is_ok res → mounted r !! MountID cfg = None → mounted_at w' (JoinPath [root; MountID cfg]) = true).
Proof.
  intros HI Hu He Hk. pose proof (inv_root _ _ HI) as Hr. pose proof (MountID_store_dir cfg) as Hm.
  set (k := occurs (JoinPath [root; MountID cfg]) l).
  assert (mount_ok cfg r w k r w) as H.
  { split; rewrite ?Hr; auto using only_at_refl. intros p Hp. apply (inv_mounted _ _ HI _ _ Hp). }
  destruct (Get_get_step cfg r w k r w H _ _ _ _ He Hk) as [[H1 H2 H3 _ H6] Hok].
  rewrite Hr in *. split; [|done]. intros id Hid. rewrite occurs_app.
  destruct (decide (id = MountID cfg)) as [->|Hne]; [exact H6|].
  rewrite (times_off _ _ _ _ H3) by (intros E; by apply Hne, (store_dir_inj root)).
  specialize (Hu id Hid). unfold recorded in *. rewrite H2 by done. lia.
Qed.

Lemma filter_sublist_length {A} (P : A → Prop) `{!∀ x, Decision (P x)} l1 l2 :
  sublist l1 l2 → length (filter P l1) ≤ length (filter P l2).
Proof. induction 1; rewrite ?filter_cons; repeat case_decide; simpl; lia. Qed.

Lemma unstacked_drop root l r w w' :
  unstacked root l r w → sublist (w_mounts w') (w_mounts w) → unstacked root l r w'.
Proof. intros Hu Hs id Hid. etrans; [|apply (Hu id Hid)]. by apply filter_sublist_length. Qed.

Lemma serves_unstacked root r1 w1 l r2 w2 :
  serves r1 w1 l r2 w2 → ∀ k, RegInv root r1 → unstacked root k r1 w1 → RegInv root r2 ∧ unstacked root (k ++ l) r2 w2.
Proof.
  induction 1 as [r w|cfg r w tr res r1 w1 l r2 w2 He Hk _ IH|r w w1 l r2 w2 Hd _ IH]; intros k HI Hu.
  - by rewrite app_nil_r.
  - rewrite app_assoc. apply IH.
    + by apply (exec_stable _ _ _ _ _ _ _ He (stable_Get root cfg) HI).
    + by eapply unstacked_get.
  - apply IH; [done|]. by eapply unstacked_drop.
Qed.

(** AdoptExisting: what the listing shows mounted is recorded, or its check
    was misread. *)
Lemma adopt_entries_spec root es r tr u r' w w' :
  exec (adopt_entries root es) r tr u r' → kernel_run tr w = Some w' → Forall (λ e, ∀ p, undo_ok p e = true) tr →
  w' = w ∧ (∀ id, is_Some (mounted r !! id) → is_Some (mounted r' !! id)) ∧
  ∀ d, d ∈ es → de_dir d = true → store_dir (de_name d) → mounted_at w (JoinPath [root; de_name d]) = true →
    is_Some (mounted r' !! de_name d) ∨ JoinPath [root; de_name d] ∈ misreads tr w.
Proof.
  revert r tr. induction es as [|d es IH]; intros r tr He Hk Hf.
  { destruct He as (-> & _ & ->). injection Hk as <-. split_and!; [done..|]. by intros d ?%elem_of_nil. }
  cbn [adopt_entries] in He. destruct (negb (de_dir d) || negb (Regexp.matches storeIDPattern (de_name d))) eqn:Ed.
  { destruct (IH _ _ He Hk Hf) as (-> & Hm & Hd). split_and!; [done..|]. intros d' [->|Hin]%elem_of_cons H1 H2; [|by apply Hd].
    unfold store_dir in H2. by rewrite H1, H2 in Ed. }
  apply exec_bind in He as (t1 & m & r1 & t2 & -> & H1 & He).
  apply kernel_run_app in Hk as (w1 & K1 & K2). apply Forall_app in Hf as [F1 F2].
  rewrite (misreads_app _ _ _ _ K1). set (path := JoinPath [root; de_name d]) in *.
  pose proof (cwp_wwp path _ _ _ (λ TR res r' w', r' = r ∧ w' = w ∧ (trusts path = true → ∀ b, res = Ok b → b = mounted_at w path))
    (λ TR, wwp_check_if path r w) _ _ _ _ H1 K1) as [(-> & -> & _) Hb].
  destruct (proj1 (wp_exec _ _ _) (IsMountPoint_answers path r) _ _ _ H1) as [b ->].
  { eapply Forall_impl; [exact F1|]. cbn. auto. }
  destruct b.
  - destruct (IH _ _ He K2 F2) as (-> & Hm & Hd). cbn -[JoinPath] in Hm. split_and!; [done|..].
    + intros id Hid. apply Hm. destruct (decide (id = de_name d)) as [->|Hne];
        [rewrite lookup_insert_eq; by eexists|by rewrite lookup_insert_ne].
    + intros d' [->|Hin]%elem_of_cons H2 H3 H4; [|rewrite elem_of_app; naive_solver]. left. apply Hm. rewrite lookup_insert_eq. by eexists.
  - destruct (IH _ _ He K2 F2) as (-> & Hm & Hd). split_and!; [done|done|].
    intros d' [->|Hin]%elem_of_cons H2 H3 H4; rewrite elem_of_app; [right; left|naive_solver].
    destruct (decide (path ∈ misreads t1 w)) as [|Hn]; [done|]. destruct Hb as (_ & _ & Hb).
    { apply occurs_0. by intros q Hq ->%list_elem_of_singleton. }
    pose proof (Hb ltac:(apply trust_in_elem; by left) _ eq_refl) as Hf. unfold path in Hf. congruence.
Qed.

Lemma occurs_elem p l : p ∈ l → 1 ≤ occurs p l.
Proof. intros Hp. destruct (decide (occurs p l = 0)) as [E%occurs_0|]; [|lia]. destruct (E p Hp). by left. Qed.

Lemma adopt_unstacked root nfs local mp w tr res r' w' :
  (∀ id, store_dir id → times w (JoinPath [root; id]) ≤ 1) →
  exec AdoptExisting (NewRegistry root nfs local mp) tr res r' → kernel_run tr w = Some w' → Forall (tells root w) tr →
  w' = w ∧ RegInv root r' ∧ unstacked root (misreads tr w) r' w.
Proof.
  intros Ho He Hk Hf. pose proof (proj2 (exec_stable _ _ _ _ _ _ _ He (stable_AdoptExisting root) (inv_new root nfs local mp))) as HI.
  unfold AdoptExisting in He. cbn [bind gets exec] in He. destruct He as (es & tr1 & -> & He). cbn [bind] in He.
  cbn [fst snd reg_root NewRegistry] in He, Hf. apply Forall_cons in Hf as [[_ Hl] Hf].
  specialize (Hl es eq_refl). assert (∀ t1 r', mounted_at w (JoinPath [root; r']) = false → times w (JoinPath [root; r']) ≤ t1) as Hz
    by (intros t1 id Hm; rewrite times_unmounted; [lia|done]).
  destruct es as [es|e].
  - apply exec_bind in He as (t1 & [] & r1 & t2 & -> & He & (-> & _ & ->)). rewrite app_nil_r in *.
    destruct He as ([] & t3 & -> & He). cbn [bind] in He. apply exec_bind in He as (t4 & [] & r4 & t5 & -> & He & ([] & t6 & -> & (-> & _ & ->))).
    apply (kernel_run_app t4 [_] w w') in Hk as (w1 & K1 & [= ->]).
    apply Forall_cons in Hf as [_ Hf]. apply Forall_app in Hf as [Hf _].
    apply adopt_entries_spec with (w := w) (w' := w') in He as (-> & _ & Hd); [|done|].
    2: { eapply Forall_impl; [exact Hf|]. by intros e []. }
    split_and!; [done..|]. intros id Hid. cbn -[JoinPath misreads]. change (misreads _ w) with (misreads (t4 ++ [Ev (UnlockMu reg_mu) ()]) w).
    rewrite (misreads_app _ _ _ _ K1), occurs_app.
    destruct (mounted_at w (JoinPath [root; id])) eqn:Em; [|by apply Hz]. specialize (Ho id Hid).
    destruct (Hl id Hid Em) as (? & [= <-] & d & Hin & <- & Hdir). unfold recorded.
    destruct (Hd d Hin Hdir Hid Em) as [[x ->]|Hm%occurs_elem]; lia.
  - assert (w' = w ∧ r' = NewRegistry root nfs local mp) as [-> ->].
    { cbn in Hk. destruct (is_NotExist e); destruct He as (-> & _ & ->); by injection Hk as <-. }
    split_and!; [done..|]. intros id Hid. destruct (mounted_at w (JoinPath [root; id])) eqn:Em; [|by apply Hz].
    by destruct (Hl id Hid Em) as (? & [=] & _).
Qed.


(** A store is mounted when the plugin starts; [stat] answers for paths. *)
Definition demo_target : string := JoinPath ["/stores"; MountID demo_config].
Definition adopt_node (stat : res finfo) : handler world := λ R c w,
  match c in call R return R * world with
  | ReadDir "/stores" => (Ok [mkDirent (MountID demo_config) true; mkDirent "lost+found" true], w)
  | RunCmd c => let r := sim_run "" c w in (r, default w (run_kernel c r w))
  | Stat _ => (stat, w)
  | c => quiet _ c w
  end.
Definition store_world : world := mkWorld [(demo_target, "nfs.example.internal:/exports/k8s_ns")] ∅ ∅.
Definition adopt_demo (stat : res finfo) := run (adopt_node stat) AdoptExisting (NewRegistry "/stores" true true true) store_world.
(** A Get after [l] are the mounts. *)
Definition get_demo (stat : res finfo) (l : list (string * string)) :=
  run (adopt_node (Ok (mkFinfo 0 true))) (Registry.Get demo_config) (adopt_demo stat).1.1.2 (mkWorld l ∅ ∅).

(** A trace in which nothing failed, with one listing of the root. *)
Definition went_well (e : event) : bool :=
  match ev_run e, ev_stat e with Some (_, (_, Some _)), _ => false | _, Some (_, Err _) => false | _, _ => true end.
Lemma tells_listing root w tr es :
  forallb went_well tr = true → omap ev_readdir tr = [(root, Ok es)] →
  (∀ id, store_dir id → mounted_at w (JoinPath [root; id]) = true → ∃ d, d ∈ es ∧ de_name d = id ∧ de_dir d = true) →
  Forall (tells root w) tr.
Proof.
  intros Hw Hl Hd. apply Forall_forall. intros e He. split.
  - intros p. apply list_elem_of_In in He. apply (proj1 (forallb_forall _ _) Hw) in He. unfold went_well in He. unfold undo_ok.
    destruct (ev_run e) as [[c [out [err|]]]|]; [done|done|]. by destruct (ev_stat e) as [[q [i|err]]|].
  - intros r Hr. assert ((root, r) ∈ omap ev_readdir tr) as Hin by (apply list_elem_of_omap; eauto).
    rewrite Hl in Hin. apply list_elem_of_singleton in Hin as [= ->]. intros id H1 H2. eauto.
Qed.


(** A check of AdoptExisting that is not answered, here because the stat of a
    mounted store fails: the next Get mounts the store a second time. *)
Lemma unanswered_check_stacks :
  let stat := Err (ErrMsg "input/output error") in
  kernel_run (adopt_demo stat).2 store_world = Some store_world ∧
  kernel_run (get_demo stat (w_mounts store_world)).2 store_world = Some (get_demo stat (w_mounts store_world)).1.2 ∧
  times (get_demo stat (w_mounts store_world)).1.2 demo_target = 2.
Proof. vm_compute. repeat split. Qed.

(** A check that is misread: the store is mounted and recorded, the second
    findmnt of the next Get's check fails and prints nothing, and the Get
    succeeds with the store mounted twice. *)
Definition misread_demo := run deaf_node (Registry.Get demo_config) (adopt_demo (Ok (mkFinfo 0 true))).1.1.2 store_world.
Lemma misread_get_stacks :
  is_ok misread_demo.1.1.1 = true ∧ kernel_run misread_demo.2 store_world = Some misread_demo.1.2 ∧
  misreads misread_demo.2 store_world = [demo_target] ∧ times misread_demo.1.2 demo_target = 2.
Proof. vm_compute. repeat split. Qed.
