(* ===== verification/NodeInv.v ===== *)
(** The invariant of the node process (pkg/driver/node.go, monitor.go).

    The handlers of the node service run concurrently on one memory.  Every
    atomic update of every handler keeps the registry's invariant, keys the
    state table by volume ID, leaves the hold-offs alone and never marks a
    volume failed; so the properties of the monitor, which assume a keyed
    table and a server that leaves hold-offs alone, hold beside it. *)

From Stdlib Require Import ZArith Lia.
From stdpp Require Import base option gmap strings list.
From S2P Require Import Prelude GoStrings Effects Json Store Image Crypt Mount Loop Registry Encryption.
From S2P Require Import Controller Monitor Node NodeStage NodeOps.

Import strings path.
Local Open Scope prog_scope.

(** The table the process writes to [path], keyed by volume ID. *)
Definition TableInv (path : string) (st : State) : Prop := st_path st = path ∧ keyed (st_data st).

(** What holds of the memory [s] of a process that started from [s0]. *)
Record NodeInv (root : string) (s0 s : NodeMem) : Prop := {
  ni_registry : RegInv root (nd_registry s);
  ni_table : TableInv (st_path (nd_state s0)) (nd_state s);
  ni_held : held (nd_failures s) = held (nd_failures s0);
  ni_failed : failed (nd_failures s) ⊆ failed (nd_failures s0);
  ni_mutexes : nd_volMutex s0 ⊆ nd_volMutex s }.

(** A program whose part under a lens keeps that part's invariant. *)
Lemma stable_zoom {S T A} (l : lens S T) `{!LensOk l} (I : S → Prop) (J : T → Prop) (m : prog S A) Q :
  stable I Q m → (∀ t, J t → I (lget l t)) → (∀ x t, J t → I x → J (lset l x t)) → stable J Q (zoom l m).
Proof.
  intros Hm Hget Hset. induction m as [a|B f k IH|R c k IH]; cbn in *; [done| |auto].
  intros t Ht. destruct (Hm (lget l t) (Hget t Ht)) as [H1 H2]. destruct (f (lget l t)) as [b x]. cbn in *. auto.
Qed.

(** What changes no memory. *)
Lemma stable_keeps {S A} (I : S → Prop) (m : prog S A) : keeps (λ s, s) m → stable I (λ _, True) m.
Proof.
  induction m as [a|T g k IH|R c k IH]; cbn; intros H; [done| |auto].
  intros s Hs. destruct (H s) as [-> ?]. auto.
Qed.

(** An update of the state table, written to the disk under the lock. *)
Lemma stable_table path (f : gmap string Mapping → gmap string Mapping) :
  (∀ d, keyed d → keyed (f d)) →
  stable (TableInv path) (λ _, True)
    (with_lock "state.mu" (modify (λ st, mkState (st_path st) (f (st_data st))) ;; flushLocked)).
Proof.
  intros Hf _ st [Hp Hk]. split; [by split; [|apply Hf]|].
  apply (stable_bind _ (λ _, True)); [|by intros ?? []].
  apply stable_keeps. unfold flushLocked. cbv zeta. solve_keeps.
Qed.

Section Invariant.
Context (root : string) (s0 : NodeMem).

(** [inv m]: every atomic update of [m] keeps the invariant. *)
Definition inv {A} (m : prog NodeMem A) : Prop := stable (NodeInv root s0) (λ _, True) m.

Lemma inv_bind {A B} (m : prog NodeMem A) (f : A → prog NodeMem B) : inv m → (∀ a, inv (f a)) → inv (bind m f).
Proof. intros Hm Hf. eapply stable_bind; [exact Hm|]. intros a _. apply Hf. Qed.
Lemma inv_bindE {A B} (m : prog NodeMem (res A)) (f : A → prog NodeMem (res B)) :
  inv m → (∀ a, inv (f a)) → inv (bindE m f).
Proof. intros Hm Hf. apply inv_bind; [done|]. intros [a|e]; [auto|exact I]. Qed.
Lemma inv_wrap {A} g (m : prog NodeMem (res A)) : inv m → inv (wrap g m).
Proof. intros Hm. apply inv_bind; [done|]. intros. exact I. Qed.
Lemma inv_for_each {A} (l : list A) (f : A → prog NodeMem (res unit)) : (∀ x, inv (f x)) → inv (for_each l f).
Proof. intros Hf. induction l as [|x l IH]; [exact I|]. by apply inv_bindE. Qed.
Lemma inv_keeps {A} (m : prog NodeMem A) : keeps (λ s, s) m → inv m.
Proof. apply stable_keeps. Qed.

Lemma inv_Get cfg : inv (zoom node_registry (Registry.Get cfg)).
Proof.
  apply (stable_zoom node_registry (RegInv root)).
  - eapply stable_mono; [|apply stable_Get]. done.
  - by intros t [].
  - intros x t [] Hx. by split.
Qed.
Lemma inv_Put m : inv (zoom node_state (Put m)).
Proof.
  apply (stable_zoom node_state (TableInv (st_path (nd_state s0)))).
  - apply (stable_table _ (<[m_VolumeID m := m]>)). intros d Hd. by apply map_Forall_insert_2.
  - by intros t [].
  - intros x t [] Hx. by split.
Qed.
Lemma inv_Delete id : inv (zoom node_state (DeleteMapping id)).
Proof.
  apply (stable_zoom node_state (TableInv (st_path (nd_state s0)))).
  - apply (stable_table _ (delete id)). intros d Hd. by apply map_Forall_delete.
  - by intros t [].
  - intros x t [] Hx. by split.
Qed.
Lemma inv_GetMapping id : inv (zoom node_state (GetMapping id)).
Proof. apply inv_keeps. unfold GetMapping, with_lock. cbn. intros _ s. split; [by destruct s|done]. Qed.
Lemma inv_Clear id : inv (zoom node_failures (Clear id)).
Proof.
  unfold Clear, with_lock. cbn. intros _ s [H1 H2 H3 H4 H5]. split; [|done]. split; cbn; try done.
  etrans; [apply delete_subseteq|done].
Qed.
Lemma inv_GetFailed id : inv (zoom node_failures (GetFailed id)).
Proof. apply inv_keeps. unfold GetFailed, with_lock. cbn. intros _ s. split; [by destruct s|done]. Qed.
Lemma inv_cacheKeys id k b : inv (cacheKeys id k b).
Proof. unfold cacheKeys, with_lock. cbn. intros _ s []. split; [by split|done]. Qed.
Lemma inv_lockVolume id : inv (lockVolume id).
Proof. unfold lockVolume, with_lock. cbn. intros _ s []. split; [|done]. split; cbn; try done. set_solver. Qed.
Lemma inv_forget_keys id : inv (with_lock node_mu (modify (set_keys (delete id)))).
Proof. unfold with_lock. cbn. intros _ s []. split; [by split|done]. Qed.
Lemma inv_with_volume {A} id (m : prog NodeMem A) : inv m → inv (with_volume id m).
Proof. intros Hm. apply inv_bind; [apply inv_lockVolume|]. intros _. apply inv_bind; [done|]. intros. exact (λ _, I). Qed.
Lemma inv_orCleanup {A} c f (m : prog NodeMem (res A)) : inv c → inv m → inv (orCleanup c f m).
Proof. intros Hc Hm. apply inv_bind; [done|]. intros [a|e]; [exact I|]. apply inv_bind; [done|intros; exact I]. Qed.
End Invariant.

Create HintDb inv discriminated.
#[export] Hint Resolve inv_Get inv_Put inv_Delete inv_GetMapping inv_Clear inv_GetFailed inv_cacheKeys inv_forget_keys : inv.

(** [solve_inv] follows the shape of a handler. *)
Ltac inv_step :=
  lazymatch goal with
  | |- inv _ _ (bind _ _) => apply inv_bind; [|intros]
  | |- inv _ _ (bindE _ _) => apply inv_bindE; [|intros]
  | |- inv _ _ (wrap _ _) => apply inv_wrap
  | |- inv _ _ (for_each _ _) => apply inv_for_each; intros
  | |- inv _ _ (with_volume _ _) => apply inv_with_volume
  | |- inv _ _ (orCleanup _ _ _) => apply inv_orCleanup
  | |- inv _ _ (if ?b then _ else _) => destruct b
  | |- inv _ _ (match ?x with _ => _ end) => destruct x
  end.
Ltac solve_inv := repeat first [ solve [eauto with inv] | solve [apply inv_keeps; solve_keeps] | inv_step ].

Section Handlers.
Context (root : string) (s0 : NodeMem).

Lemma inv_popStageMounts p : inv root s0 (popStageMounts p).
Proof. apply inv_keeps. solve_keeps. Qed.
Lemma inv_adoptStage n req img loops enc keys : inv root s0 (adoptStage n req img loops enc keys).
Proof. unfold adoptStage. solve_inv. Qed.
Lemma inv_detachOnFail mapper dev : inv root s0 (detachOnFail mapper dev).
Proof. unfold detachOnFail. solve_inv. Qed.
Lemma inv_open_device input mapper dev : inv root s0 (open_device input mapper dev).
Proof. pose proof inv_detachOnFail. unfold open_device. solve_inv. Qed.
Lemma inv_mount_device req input img mapper dev cryptDev : inv root s0 (mount_device req input img mapper dev cryptDev).
Proof. pose proof inv_detachOnFail. unfold mount_device. solve_inv. Qed.
Lemma inv_stage_fresh n req input img size : inv root s0 (stage_fresh n req input img size).
Proof. pose proof inv_open_device. pose proof inv_mount_device. unfold stage_fresh. solve_inv. Qed.
Lemma inv_stage_image n req input backing mounted : inv root s0 (stage_image n req input backing mounted).
Proof. pose proof inv_adoptStage. pose proof inv_stage_fresh. unfold stage_image. solve_inv. Qed.
Lemma inv_stageLocked n req : inv root s0 (stageLocked n req).
Proof. pose proof inv_stage_image. unfold stageLocked. solve_inv. Qed.

Lemma inv_NodeStageVolume n req : inv root s0 (NodeStageVolume n req).
Proof. pose proof inv_stageLocked. unfold NodeStageVolume. solve_inv. Qed.
Lemma inv_release_devices id entry : inv root s0 (release_devices id entry).
Proof. unfold release_devices, close_entry. solve_inv. Qed.
Lemma inv_NodeUnstageVolume id p : inv root s0 (NodeUnstageVolume id p).
Proof. pose proof inv_popStageMounts. pose proof inv_release_devices. unfold NodeUnstageVolume. solve_inv. Qed.
Lemma inv_restage_teardown m : inv root s0 (restage_teardown m).
Proof. pose proof inv_popStageMounts. unfold restage_teardown. solve_inv. Qed.
Lemma inv_restage_entry n req m : inv root s0 (restage_entry n req m).
Proof.
  pose proof inv_restage_teardown. pose proof inv_stageLocked. unfold restage_entry, publishEvent. solve_inv.
Qed.
Lemma inv_restageFailed n req : inv root s0 (restageFailed n req).
Proof. pose proof inv_restage_entry. unfold restageFailed, refuse_published. solve_inv. Qed.
Lemma inv_NodePublishVolume n req : inv root s0 (NodePublishVolume n req).
Proof. pose proof inv_restageFailed. unfold NodePublishVolume. solve_inv. Qed.
Lemma inv_NodeUnpublishVolume id target : inv root s0 (NodeUnpublishVolume id target).
Proof. unfold NodeUnpublishVolume. solve_inv. Qed.
Lemma inv_NodeGetVolumeStats id p : inv root s0 (NodeGetVolumeStats id p).
Proof. unfold NodeGetVolumeStats. solve_inv. Qed.
Lemma inv_NodeExpandVolume id p r : inv root s0 (NodeExpandVolume id p r).
Proof. unfold NodeExpandVolume. solve_inv. Qed.
End Handlers.

(** ** Concurrent requests *)
Inductive node_request :=
  | ReqStage (r : StageRequest) | ReqUnstage (volumeID stagePath : string)
  | ReqPublish (r : PublishRequest) | ReqUnpublish (volumeID target : string)
  | ReqStats (volumeID path : string) | ReqExpand (volumeID path : string) (r : option CapacityRange).

Inductive node_reply :=
  | RepUnit (r : res unit) | RepStats (r : res VolumeStats) | RepExpand (r : res Z).

Definition run_node (n : NodeConfig) (q : node_request) : prog NodeMem node_reply :=
  let unit_reply m := bind m (λ r, Ret (RepUnit r)) in
  match q with
  | ReqStage r => unit_reply (NodeStageVolume n r)
  | ReqUnstage id p => unit_reply (NodeUnstageVolume id p)
  | ReqPublish r => unit_reply (NodePublishVolume n r)
  | ReqUnpublish id t => unit_reply (NodeUnpublishVolume id t)
  | ReqStats id p => r <- NodeGetVolumeStats id p ;; Ret (RepStats r)
  | ReqExpand id p c => r <- NodeExpandVolume id p c ;; Ret (RepExpand r)
  end.

#[export] Hint Resolve inv_NodeStageVolume inv_NodeUnstageVolume inv_NodePublishVolume inv_NodeUnpublishVolume
  inv_NodeGetVolumeStats inv_NodeExpandVolume : inv.

Lemma inv_run_node root s0 n q : inv root s0 (run_node n q).
Proof. destruct q; cbn [run_node]; solve_inv. Qed.

Lemma pool_stable {S A} (I : S → Prop) (ts : list (prog S A)) :
  Forall (stable I (λ _, True)) ts → Forall2 (stable I) ((λ _ _, True) <$> ts) ts.
Proof. induction 1; by constructor. Qed.

(** C10: whatever requests the node service handles at once and however their
    steps interleave, at any moment the registry is consistent, the state
    table is keyed by volume ID and still goes to the same file, no per-volume
    mutex has been dropped, no volume has been newly marked failed and no
    hold-off has moved; so to the monitor the handlers are one of the steps
    after which its deletions stay held off. *)
Theorem node_invariant root n qs s ts s' :
  RegInv root (nd_registry s) → keyed (st_data (nd_state s)) →
  rtc pool_step (run_node n <$> qs, s) (ts, s') →
  NodeInv root s s' ∧
  ∀ m off ev sk, process_step m (mkMonMem (nd_state s) (nd_failures s) off ev sk) []
                   (mkMonMem (nd_state s') (nd_failures s') off ev sk).
Proof.
  intros Hreg Hkey Hr.
  destruct (pool_invariant (NodeInv root s) ((λ _ _, True) <$> (run_node n <$> qs)) _ _ _ _ Hr) as [_ HI].
  - apply pool_stable, Forall_fmap, Forall_forall. intros q _. apply inv_run_node.
  - by split.
  - split; [done|]. intros. apply step_node, HI.
Qed.

(** Staging the demonstration volume on a fresh node is such a run. *)
Lemma node_invariant_witness :
  let r := run (stage_outside None) (run_node demo_node (ReqStage demo_stage)) demo_node_mem tt in
  NodeInv "/stores" demo_node_mem r.1.1.2 ∧ is_Some (st_data (nd_state r.1.1.2) !! demo_id).
Proof.
  intros r. split; [|by vm_compute; eexists].
  eapply (node_invariant "/stores" demo_node [ReqStage demo_stage] demo_node_mem [Ret r.1.1.1] r.1.1.2).
  - apply inv_new.
  - by apply map_Forall_empty.
  - apply (exec_pool _ _ r.2). unfold r. destruct (run _ _ _ _) as [[[a s] x] t] eqn:E. by apply exec_run in E.
Defined.
