(* ===== verification/Process.v ===== *)
(** The node process: its handlers (pkg/driver/node.go), the monitor
    (pkg/driver/monitor.go) and their mutexes.

    All handlers and the monitor's loop run as goroutines of one pool, with
    mutexes that block, on one memory.  The theorems: the process never
    deadlocks, every request and every bounded run of the monitor returns and
    leaves no mutex locked; and each shared field changes only while its mutex
    is held, a volume's table entry and key only under the volume's own. *)

From Stdlib Require Import ZArith Lia.
From stdpp Require Import base option gmap strings list relations.
From S2P Require Import Prelude GoStrings Effects Locks Json Store Image Crypt Mount Loop Registry Encryption.
From S2P Require Import Controller Monitor Node NodeStage NodeOps NodeInv.

Import strings path.
Local Open Scope prog_scope.

(** ** The memory *)

(** The node server's memory and what the monitor keeps for itself; main gives
    both the same state table and failure tracker. *)
Record ProcMem := mkProc {
  pm_node : NodeMem; pm_offLogged : gset string; pm_eventSent : gset string; pm_skipEvented : gset string }.

Definition proc_node : lens NodeMem ProcMem :=
  mkLens pm_node (λ x s, mkProc x (pm_offLogged s) (pm_eventSent s) (pm_skipEvented s)).
Definition proc_monitor : lens MonMem ProcMem :=
  mkLens
    (λ s, mkMonMem (nd_state (pm_node s)) (nd_failures (pm_node s)) (pm_offLogged s) (pm_eventSent s) (pm_skipEvented s))
    (λ x s, mkProc (lset node_state (mm_state x) (lset node_failures (mm_failures x) (pm_node s)))
              (mm_offLogged x) (mm_eventSent x) (mm_skipEvented x)).
#[export] Instance proc_node_ok : LensOk proc_node.
Proof. split; [done..|by intros []]. Qed.
#[export] Instance proc_monitor_ok : LensOk proc_monitor.
Proof. split; [by intros [] []|done|by intros [[]]]. Qed.

(** What runs: requests and the monitor for a number of ticks. *)
Inductive task := Handle (q : node_request) | Watch (m : Monitor) (ticks : nat).
Definition run_task (n : NodeConfig) (t : task) : prog ProcMem (option node_reply) :=
  match t with
  | Handle q => r <- zoom proc_node (run_node n q) ;; Ret (Some r)
  | Watch m ticks => zoom proc_monitor (RunMonitor m ticks) ;; Ret None
  end.
(** Every task is a goroutine that holds nothing yet. *)
Definition start_tasks (n : NodeConfig) (ts : list task) : list (goroutine ProcMem (option node_reply)) :=
  (λ t, ([], run_task n t)) <$> ts.

(** ** The order of the mutexes and what they guard *)
Definition lock_rank (l : string) : nat :=
  if HasPrefix l "node.volMutex/" then 0 else if HasPrefix l "registry.storeMu/" then 1 else 2.

Lemma rank_volume v : lock_rank (volume_mu v) = 0.
Proof. unfold lock_rank, volume_mu. rewrite (proj2 (HasPrefix_spec _ _)); eauto. Qed.
Lemma rank_mount id : lock_rank (mount_mu id) = 1.
Proof.
  unfold lock_rank, mount_mu. rewrite (proj2 (HasPrefix_spec (_ +:+ id) "registry.storeMu/")) by eauto.
  by destruct (HasPrefix _ _) eqn:E.
Qed.
Lemma rank_top l : lock_rank l < 3.
Proof. unfold lock_rank. repeat case_match; lia. Qed.

(** The changes of a goroutine that holds [h]. *)
Record node_changes (h : list string) (s s' : NodeMem) : Prop := {
  ch_entry v : volume_mu v ∉ h → st_data (nd_state s') !! v = st_data (nd_state s) !! v;
  ch_key v : volume_mu v ∉ h → nd_keys s' !! v = nd_keys s !! v;
  ch_mount id : mount_mu id ∉ h → mounted (nd_registry s') !! id = mounted (nd_registry s) !! id;
  ch_state : "state.mu" ∉ h → nd_state s' = nd_state s;
  ch_registry : reg_mu ∉ h → nd_registry s' = nd_registry s;
  ch_failures : failures_mu ∉ h → nd_failures s' = nd_failures s;
  ch_node : node_mu ∉ h → nd_keys s' = nd_keys s ∧ nd_volMutex s' = nd_volMutex s }.

Definition proc_changes (h : list string) (s s' : ProcMem) : Prop := node_changes h (pm_node s) (pm_node s').

Definition table_keyed (s : NodeMem) : Prop := keyed (st_data (nd_state s)).
Definition proc_keyed (s : ProcMem) : Prop := table_keyed (pm_node s).

(** The same of the components. *)
Record state_changes (h : list string) (s s' : State) : Prop := {
  sc_entry v : volume_mu v ∉ h → st_data s' !! v = st_data s !! v;
  sc_mu : "state.mu" ∉ h → s' = s }.
Record registry_changes (h : list string) (r r' : Registry) : Prop := {
  rc_mount id : mount_mu id ∉ h → mounted r' !! id = mounted r !! id;
  rc_mu : reg_mu ∉ h → r' = r }.
Definition failures_changes (h : list string) (f f' : failures) : Prop := failures_mu ∉ h → f' = f.
Definition monitor_changes (h : list string) (s s' : MonMem) : Prop :=
  mm_state s' = mm_state s ∧ failures_changes h (mm_failures s) (mm_failures s').

Lemma state_same h s : state_changes h s s.
Proof. by split. Qed.
Lemma registry_same h r : registry_changes h r r.
Proof. by split. Qed.
Lemma node_same h s : node_changes h s s.
Proof. by split. Qed.

(** ** The components' functions that touch no memory and no mutex *)
Section SilentFunctions.
Context {S : Type}.
Local Abbreviation silent := (silent (S := S)).

Lemma IsMountPoint_silent p : silent (IsMountPoint p).
Proof. unfold IsMountPoint. solve_silent. Qed.
Lemma Unmount_silent p : silent (Unmount p).
Proof. pose proof IsMountPoint_silent. unfold Unmount. solve_silent. Qed.
Lemma BindMount_silent a b c : silent (BindMount a b c).
Proof. unfold BindMount. solve_silent. Qed.
Lemma MountFs_silent a b c d : silent (MountFs a b c d).
Proof. unfold MountFs. solve_silent. Qed.
Lemma Source_silent p : silent (Source p).
Proof. unfold Source. solve_silent. Qed.
Lemma sourceMounted_silent dev pre : silent (sourceMounted dev pre).
Proof. unfold sourceMounted. solve_silent. Qed.
Lemma ReadMountInfo_silent p : silent (ReadMountInfo p).
Proof. unfold ReadMountInfo. solve_silent. Qed.
Lemma List_silent : silent List.
Proof. unfold List. solve_silent. Qed.
Lemma Find_silent f : silent (Find f).
Proof. pose proof List_silent. unfold Find. solve_silent. Qed.
Lemma Attach_silent img sector : silent (Attach img sector).
Proof. unfold Attach. solve_silent. Qed.
Lemma Detach_silent dev : silent (Detach dev).
Proof. unfold Detach. solve_silent. Qed.
Lemma SetCapacity_silent dev : silent (SetCapacity dev).
Proof. unfold SetCapacity. solve_silent. Qed.
Lemma New_silent p : silent (New p).
Proof. unfold New. solve_silent. Qed.
Lemma Fsck_silent dev : silent (Fsck dev).
Proof. unfold Fsck. solve_silent. Qed.
Lemma Resize2fs_silent dev : silent (Resize2fs dev).
Proof. unfold Resize2fs. solve_silent. Qed.
Lemma FSBlockSize_silent p : silent (FSBlockSize p).
Proof. unfold FSBlockSize. solve_silent. Qed.
Lemma CloseMapping_silent name : silent (CloseMapping name).
Proof. unfold CloseMapping, cryptsetup. solve_silent. Qed.
Lemma ResizeMapping_silent name : silent (ResizeMapping name).
Proof. unfold ResizeMapping, cryptsetup. solve_silent. Qed.
Lemma list_dms_silent dms : silent (list_dms dms).
Proof. induction dms; cbn [list_dms]; solve_silent. Qed.
Lemma ListMappings_silent root : silent (ListMappings root).
Proof. pose proof list_dms_silent. unfold ListMappings. solve_silent. Qed.
Lemma IsOpen_silent root name : silent (IsOpen root name).
Proof. pose proof ListMappings_silent. unfold IsOpen. solve_silent. Qed.
Lemma SectorSize_silent dev : silent (SectorSize dev).
Proof. unfold SectorSize, isLuks, cryptsetup. solve_silent. Qed.
Lemma Prepare_silent dev name k f : silent (Prepare dev name k f).
Proof.
  pose proof CloseMapping_silent.
  unfold Prepare, formatIfBlank, isLuks, rotate, opens, ensureFilesystem, Mkfs, isBlank, blank_step, cryptsetup.
  solve_silent.
Qed.
Lemma mount_with_silent k target cfg : silent (mount_with k target cfg).
Proof. pose proof BindMount_silent. destruct k; unfold mount_with, NFSMount, LocalMount; solve_silent. Qed.
End SilentFunctions.
#[export] Hint Resolve IsMountPoint_silent Unmount_silent BindMount_silent MountFs_silent Source_silent
  sourceMounted_silent ReadMountInfo_silent Find_silent Attach_silent Detach_silent SetCapacity_silent New_silent
  Fsck_silent Resize2fs_silent FSBlockSize_silent CloseMapping_silent ResizeMapping_silent ListMappings_silent
  IsOpen_silent SectorSize_silent Prepare_silent mount_with_silent : silent.

(** ** The components keep the discipline *)

(** Below the mutexes that are locked last. *)
Definition below (k : nat) (h : list string) : Prop := Forall (λ x, lock_rank x < k) h.
Lemma below_volume v : below 1 [volume_mu v].
Proof. apply Forall_singleton. rewrite rank_volume. lia. Qed.
Lemma below_nil k : below k [].
Proof. constructor. Qed.
Lemma below_le k k' h : k ≤ k' → below k h → below k' h.
Proof. intros Hk H. eapply Forall_impl; [exact H|]. cbn. intros. lia. Qed.
Lemma below_volume2 v : below 2 [volume_mu v].
Proof. apply (below_le 1); [lia|apply below_volume]. Qed.
#[local] Hint Resolve below_volume below_nil below_volume2 : core.

Ltac calm_step :=
  lazymatch goal with
  | |- calm _ _ _ _ (Ret _) _ => apply calm_ret; exact Logic.I
  | |- calm _ _ _ _ (ok _) _ => apply calm_ret; exact Logic.I
  | |- calm _ _ _ _ (failS _ _) _ => apply calm_ret; exact Logic.I
  | |- calm _ _ _ _ (bind _ _) _ => apply calm_seq; [|intros]
  | |- calm _ _ _ _ (bindE _ _) _ => apply calm_seqE; [|intros]
  | |- calm _ _ _ _ (wrap _ _) _ => apply calm_wrap
  | |- calm _ _ _ _ (for_each _ _) _ => apply calm_for_each; intros
  | |- calm _ _ _ _ (for_all _ _) _ => apply calm_for_all; intros
  | |- calm _ _ _ _ (if ?b then _ else _) _ => destruct b
  | |- calm _ _ _ _ (match ?x with _ => _ end) _ => destruct x
  end.
Create HintDb calm discriminated.
Ltac solve_calm := intros; repeat first [ solve [eauto with calm] | solve [apply calm_silent; solve_silent] | calm_step ].

(** A read, and an update the guarantee allows. *)
Lemma calm_gets {S B} rank (I : S → Prop) G h (f : S → B) (Q : B → Prop) :
  (∀ s, G h s s) → (∀ s, I s → Q (f s)) → calm rank I G h (gets f) Q.
Proof. intros HG HQ s Hs. split_and!; auto. split; [done|by apply HQ]. Qed.
Lemma calm_modify {S} rank (I : S → Prop) G h (f : S → S) :
  (∀ s, I s → I (f s) ∧ G h s (f s)) → calm rank I G h (modify f) (λ _, True).
Proof. intros Hf s Hs. destruct (Hf s Hs). split_and!; auto. by split. Qed.

Section State.
Local Abbreviation sane := (λ st : State, keyed (st_data st)).
Local Abbreviation calmS := (calm lock_rank sane state_changes).

Lemma flushLocked_calm h : calmS h flushLocked (λ _, True).
Proof.
  unfold flushLocked. apply calm_seq; [apply calm_gets; [apply state_same|done]|]. intros st. cbv zeta.
  solve_calm.
Qed.
Lemma table_calm h f :
  below 2 h → (∀ d, keyed d → keyed (f d)) → (∀ d v, volume_mu v ∉ h → f d !! v = d !! v) →
  calmS h (with_lock "state.mu" (modify (λ st, mkState (st_path st) (f (st_data st))) ;; flushLocked)) (λ _, True).
Proof.
  intros Hh Hk Hf. apply calm_lock; [exact Hh|]. apply (calm_seq lock_rank); [|intros; apply flushLocked_calm].
  apply calm_modify. intros st Hst. split; [by apply Hk|]. split; cbn.
  - intros v Hv. apply Hf. set_solver.
  - set_solver.
Qed.
Lemma Put_calm h m : below 2 h → volume_mu (m_VolumeID m) ∈ h → calmS h (Put m) (λ _, True).
Proof.
  intros Hh Hv. apply (table_calm h (<[m_VolumeID m := m]>)); [done| |].
  - intros d Hd. by apply map_Forall_insert_2.
  - intros d v Hn. apply lookup_insert_ne. by intros <-.
Qed.
Lemma Delete_calm h id : below 2 h → volume_mu id ∈ h → calmS h (DeleteMapping id) (λ _, True).
Proof.
  intros Hh Hv. apply (table_calm h (delete id)); [done| |].
  - intros d Hd. by apply map_Forall_delete.
  - intros d v Hn. apply lookup_delete_ne. by intros <-.
Qed.
Lemma GetMapping_calm h id : below 2 h → calmS h (GetMapping id) (λ o, ∀ m, o = Some m → m_VolumeID m = id).
Proof.
  intros Hh. apply calm_lock; [exact Hh|]. apply calm_gets; [intros; apply state_same|].
  intros st Hst m Hm. by apply Hst in Hm.
Qed.
Lemma All_calm h : below 2 h → calmS h All (λ _, True).
Proof.
  intros Hh. apply calm_lock; [exact Hh|]. apply (calm_seq lock_rank); [apply calm_gets; [intros; apply state_same|done]|].
  intros d. apply calm_silent. unfold range_keys. solve_silent.
Qed.
End State.

Section Registry.
Local Abbreviation calmR := (calm lock_rank (λ _ : Registry, True) registry_changes).

Lemma locked_calm {A} h (f : Registry → A * Registry) :
  below 2 h → (∀ r, mounted (f r).2 = mounted r) → calmR h (locked f) (λ _, True).
Proof.
  intros Hh Hf. apply calm_lock; [exact Hh|]. intros r _. split_and!; [done| |by split]. split; [|set_solver].
  intros id _. by rewrite Hf.
Qed.
Lemma locked_mount_calm h id (f : Registry → Registry) :
  below 2 h → mount_mu id ∈ h → (∀ r i, i ≠ id → mounted (f r) !! i = mounted r !! i) →
  calmR h (locked (λ r, (tt, f r))) (λ _, True).
Proof.
  intros Hh Hid Hf. apply calm_lock; [exact Hh|]. intros r _. split_and!; [done| |by split]. split; [|set_solver].
  intros i Hi. apply Hf. intros ->. set_solver.
Qed.
#[local] Hint Resolve locked_calm : calm.

Lemma stillMounted_calm h id path : below 2 h → calmR h (stillMounted id path) (λ _, True).
Proof.
  intros Hh. unfold stillMounted, checkMountPoint, clearCheck.
  apply calm_seq; [apply calm_gets; [intros; apply registry_same|done]|]. intros mp.
  solve_calm.
Qed.
Lemma Get_calm h cfg : below 1 h → calmR h (Registry.Get cfg) (λ _, True).
Proof.
  intros Hh. pose proof (below_le 1 2 h ltac:(lia) Hh) as Hh2. unfold Registry.Get, lockStore.
  apply calm_seq; [by apply locked_calm|]. intros _. apply calm_lock; [by unfold below in Hh; rewrite rank_mount|].
  set (h' := mount_mu (MountID cfg) :: h).
  assert (below 2 h') as Hh' by (constructor; [rewrite rank_mount; lia|done]).
  assert (mount_mu (MountID cfg) ∈ h') as Hm by left. apply (calm_seqE lock_rank (λ _ : Registry, True)).
  - unfold acquire. apply calm_seq; [by apply locked_calm|]. intros cached. apply calm_seq.
    + destruct cached as [p|]; [|solve_calm]. apply calm_seq; [by apply stillMounted_calm|]. intros [].
      1: solve_calm. apply calm_seq; [|solve_calm]. apply (locked_mount_calm _ (MountID cfg)); [done..|].
      intros r i Hi. cbn. by apply lookup_delete_ne.
    + intros [p|]; [solve_calm|]. unfold mount_target.
      apply calm_seq; [apply calm_gets; [intros; apply registry_same|done]|]. intros root. cbv zeta.
      apply calm_seqE; [solve_calm|]. intros _. apply calm_seqE.
      { apply calm_seq; [apply calm_gets; [intros; apply registry_same|done]|]. intros r. by apply calm_ret. }
      intros k. apply calm_seqE; [solve_calm|]. intros _. apply calm_seq; [|solve_calm].
      apply (locked_mount_calm _ (MountID cfg)); [done..|]. intros r i Hi. cbn. by apply lookup_insert_ne.
  - intros path. unfold resolve_store. solve_calm.
Qed.
End Registry.

Section Failures.
Local Abbreviation calmF := (calm lock_rank (λ _ : failures, True) failures_changes).
Lemma tracker_calm {A} h (f : failures → A * failures) : below 2 h → calmF h (with_lock failures_mu (Upd f Ret)) (λ _, True).
Proof.
  intros Hh. apply calm_lock; [exact Hh|]. intros s _. split_and!; [done| |by split]. intros Hn. set_solver.
Qed.
End Failures.

(** ** The handlers keep the discipline *)
Section Node.
Local Abbreviation calmN := (calm lock_rank table_keyed node_changes).

(** A component's program inside the node's memory. *)
Lemma state_calm {A} h (m : prog State A) (Q : A → Prop) :
  calm lock_rank (λ st, keyed (st_data st)) state_changes h m Q → calmN h (zoom node_state m) Q.
Proof.
  apply safe_zoom; [typeclasses eauto|done|]. intros h' s x Hs Hx [H1 H2]. split; [done|].
  by split; cbn.
Qed.
Lemma registry_calm {A} h (m : prog Registry A) (Q : A → Prop) :
  calm lock_rank (λ _, True) registry_changes h m Q → calmN h (zoom node_registry m) Q.
Proof.
  apply safe_zoom; [typeclasses eauto|done|]. intros h' s x Hs Hx [H1 H2]. split; [done|].
  by split; cbn.
Qed.
Lemma failures_calm {A} h (m : prog failures A) (Q : A → Prop) :
  calm lock_rank (λ _, True) failures_changes h m Q → calmN h (zoom node_failures m) Q.
Proof.
  apply safe_zoom; [typeclasses eauto|done|]. intros h' s x Hs Hx H1. split; [done|].
  by split; cbn.
Qed.

Lemma Clear_node_calm h id : below 2 h → calmN h (zoom node_failures (Clear id)) (λ _, True).
Proof. intros. by apply failures_calm, tracker_calm. Qed.
Lemma GetFailed_node_calm h id : below 2 h → calmN h (zoom node_failures (GetFailed id)) (λ _, True).
Proof. intros. by apply failures_calm, tracker_calm. Qed.
Lemma Get_node_calm h cfg : below 1 h → calmN h (zoom node_registry (Registry.Get cfg)) (λ _, True).
Proof. intros. by apply registry_calm, Get_calm. Qed.
Lemma GetMapping_node_calm h id : below 2 h → calmN h (zoom node_state (GetMapping id)) (λ _, True).
Proof. intros. apply state_calm. eapply calm_mono; [|by apply GetMapping_calm]. done. Qed.

(** The part of a handler that runs under the mutex of its volume. *)
Section Volume.
Context (v : string).
Local Abbreviation calmV := (calm lock_rank table_keyed node_changes [volume_mu v]).

Lemma Put_node_calm m : m_VolumeID m = v → calmV (zoom node_state (Put m)) (λ _, True).
Proof.
  intros <-. apply state_calm, Put_calm; [apply below_volume2|left].
Qed.
Lemma Delete_node_calm : calmV (zoom node_state (DeleteMapping v)) (λ _, True).
Proof. apply state_calm, Delete_calm; [apply below_volume2|left]. Qed.
Lemma keys_calm (f : gmap string Keys → gmap string Keys) :
  (∀ ks i, i ≠ v → f ks !! i = ks !! i) → calmV (with_lock node_mu (modify (set_keys f))) (λ _, True).
Proof.
  intros Hf. apply calm_lock; [apply below_volume2|].
  apply calm_modify. intros s Hs. split; [done|]. split; cbn; try done; [|set_solver].
  intros i Hi. apply Hf. intros ->. set_solver.
Qed.
Lemma cacheKeys_calm k replace : calmV (cacheKeys v k replace) (λ _, True).
Proof.
  apply keys_calm. intros ks i Hi. repeat case_match; try done; by apply lookup_insert_ne.
Qed.
Lemma forget_keys_calm : calmV (with_lock node_mu (modify (set_keys (delete v)))) (λ _, True).
Proof. apply keys_calm. intros ks i Hi. by apply lookup_delete_ne. Qed.
Lemma read_key_calm : calmV (with_lock node_mu (gets (λ s, nd_keys s !! v))) (λ _, True).
Proof.
  apply calm_lock; [apply below_volume2|]. apply calm_gets; [intros; apply node_same|done].
Qed.
Lemma Clear_calm id : calmV (zoom node_failures (Clear id)) (λ _, True).
Proof. apply Clear_node_calm. apply below_volume2. Qed.
Lemma registry_volume_calm cfg : calmV (zoom node_registry (Registry.Get cfg)) (λ _, True).
Proof. apply Get_node_calm, below_volume. Qed.
Lemma entry_calm id : calmV (zoom node_state (GetMapping id)) (λ _, True).
Proof. apply GetMapping_node_calm. apply below_volume2. Qed.

Lemma orCleanup_calm {A} c f (m : prog NodeMem (res A)) :
  calmV c (λ _, True) → calmV m (λ _, True) → calmV (orCleanup c f m) (λ _, True).
Proof. intros Hc Hm. unfold orCleanup. solve_calm. Qed.
End Volume.
End Node.
#[export] Hint Resolve Put_node_calm Delete_node_calm cacheKeys_calm forget_keys_calm read_key_calm Clear_calm
  registry_volume_calm entry_calm : calm.
Ltac solve_handler := repeat first [ progress solve_calm | apply orCleanup_calm ].

Section Handlers.
Local Abbreviation calmV v := (calm lock_rank table_keyed node_changes [volume_mu v]).

Lemma pop_mounts_silent k p : silent (pop_mounts k p).
Proof. induction k; cbn [pop_mounts]; solve_silent. Qed.
#[local] Hint Resolve pop_mounts_silent : silent.
Lemma popStageMounts_silent p : silent (popStageMounts p).
Proof. apply pop_mounts_silent. Qed.
Lemma loopBusy_silent n dev : silent (loopBusy n dev).
Proof. unfold loopBusy, IsSourceMounted, IsSourceMountedInHost. solve_silent. Qed.
Lemma detachOnFail_silent mapper dev : silent (detachOnFail mapper dev).
Proof. unfold detachOnFail. solve_silent. Qed.
Lemma orCleanup_silent {A} c f (m : prog NodeMem (res A)) : silent c → silent m → silent (orCleanup c f m).
Proof. intros Hc Hm. unfold orCleanup. solve_silent. Qed.
#[local] Hint Resolve popStageMounts_silent loopBusy_silent detachOnFail_silent orCleanup_silent : silent.

Lemma adoptStage_calm n req img loops enc keys :
  calmV (sr_VolumeId req) (adoptStage n req img loops enc keys) (λ _, True).
Proof. unfold adoptStage. solve_calm. Qed.
Lemma mount_device_calm req input img mapper dev cryptDev :
  calmV (sr_VolumeId req) (mount_device req input img mapper dev cryptDev) (λ _, True).
Proof.
  unfold mount_device. solve_handler.
Qed.
Lemma stage_fresh_calm n req input img size : calmV (sr_VolumeId req) (stage_fresh n req input img size) (λ _, True).
Proof.
  pose proof mount_device_calm. unfold stage_fresh, loopSectorSize, open_device. solve_handler.
Qed.
Lemma stage_image_calm n req input backing mounted :
  calmV (sr_VolumeId req) (stage_image n req input backing mounted) (λ _, True).
Proof.
  pose proof adoptStage_calm. pose proof stage_fresh_calm.
  unfold stage_image, missing_image, refuse_busy, refuse_open, detach_idle, FindBacking. solve_calm.
Qed.
Lemma stageLocked_calm n req : calmV (sr_VolumeId req) (stageLocked n req) (λ _, True).
Proof. pose proof stage_image_calm. unfold stageLocked. solve_calm. Qed.

Lemma release_devices_calm id entry : calmV id (release_devices id entry) (λ _, True).
Proof. unfold release_devices, close_entry. solve_calm. Qed.
Lemma restage_entry_calm n req m :
  m_VolumeID m = pr_VolumeId req → calmV (pr_VolumeId req) (restage_entry n req m) (λ _, True).
Proof.
  intros Hm. unfold restage_entry, publishEvent, restage_teardown.
  assert (∀ m' ctx sec, calmV (pr_VolumeId req) (stageLocked n (restage_request (pr_VolumeId req) m' ctx sec)) (λ _, True))
    by (intros; apply (stageLocked_calm n (restage_request (pr_VolumeId req) m' ctx sec))).
  solve_calm.
Qed.

Lemma with_volume_calm {A} id (m : prog NodeMem A) :
  calmV id m (λ _, True) → calm lock_rank table_keyed node_changes [] (with_volume id m) (λ _, True).
Proof.
  intros Hm. eapply (safe_bind _ _ _ _ _ _ (λ h _, h = [volume_mu id])).
  - unfold lockVolume. eapply safe_bind.
    + apply (calm_lock _ _ _ [] node_mu _ (λ _, True)); [constructor|].
      apply calm_modify. intros s Hs. split; [done|]. split; cbn; try done. set_solver.
    + intros ? [] [-> _]. split; [constructor|]. by intros [].
  - intros ? [] ->. eapply safe_bind; [exact Hm|]. intros ? a [-> _].
    split; [done|]. intros []. cbn. by rewrite decide_True.
Qed.

(** The handlers, which start with no mutex. *)
Local Abbreviation calm0 := (calm lock_rank table_keyed node_changes []).
#[local] Hint Resolve with_volume_calm stageLocked_calm release_devices_calm : calm.

Lemma GetMapping_calm0 id : calm0 (zoom node_state (GetMapping id)) (λ _, True).
Proof. by apply GetMapping_node_calm. Qed.
Lemma GetFailed_calm0 id : calm0 (zoom node_failures (GetFailed id)) (λ _, True).
Proof. by apply GetFailed_node_calm. Qed.
#[local] Hint Resolve GetMapping_calm0 GetFailed_calm0 : calm.

Lemma NodeStageVolume_calm n req : calm0 (NodeStageVolume n req) (λ _, True).
Proof. unfold NodeStageVolume. solve_calm. Qed.
Lemma NodeUnstageVolume_calm id p : calm0 (NodeUnstageVolume id p) (λ _, True).
Proof. unfold NodeUnstageVolume. case_match; [solve_calm|]. apply with_volume_calm. solve_calm. Qed.
Lemma restageFailed_calm n req : calm0 (restageFailed n req) (λ _, True).
Proof.
  unfold restageFailed. apply with_volume_calm. apply calm_seq; [apply GetFailed_node_calm; auto|].
  intros [t|]; [|solve_calm]. eapply calm_bind; [apply state_calm, GetMapping_calm; auto|].
  intros [m|] Hm; [|solve_calm]. apply calm_seqE; [unfold refuse_published; solve_calm|].
  intros _. apply restage_entry_calm. auto.
Qed.
#[local] Hint Resolve restageFailed_calm : calm.
Lemma run_node_calm n q : calm0 (run_node n q) (λ _, True).
Proof.
  pose proof NodeStageVolume_calm. pose proof NodeUnstageVolume_calm.
  destruct q; cbn [run_node]; unfold NodePublishVolume, NodeUnpublishVolume, NodeGetVolumeStats, NodeExpandVolume;
    solve_calm.
Qed.
End Handlers.

Section Monitor.
Local Abbreviation calmM := (calm lock_rank (λ s : MonMem, keyed (st_data (mm_state s))) monitor_changes []).

Lemma tracker_monitor_calm {A} (f : failures → A * failures) :
  calmM (zoom fail_l (with_lock failures_mu (Upd f Ret))) (λ _, True).
Proof.
  eapply (safe_zoom _ fail_l (λ _, True)); [done| |by apply (tracker_calm [])].
  intros h s x Hs _ Hx. by split.
Qed.
Lemma All_monitor_calm : calmM (zoom state_l All) (λ _, True).
Proof.
  unfold All. cbn. split; [constructor|]. intros _ s Hs. split; [by destruct s|]. split; [by destruct s|].
  cbn. split; [done|]. intros ks. split; [done|]. intros []. cbn. by rewrite decide_True.
Qed.
Lemma monitor_update_calm (f : MonMem → MonMem) :
  (∀ s, same_shared s (f s)) → calmM (modify f) (λ _, True).
Proof.
  intros Hf. apply calm_modify. intros s Hs. destruct (Hf s) as [E1 E2]. rewrite E1. split; [done|].
  split; [done|]. by intros _.
Qed.
Lemma report_calm {B} (f : MonMem → B) : calmM (gets f) (λ _, True).
Proof. apply calm_gets; [|done]. intros s. by split. Qed.
#[local] Hint Resolve tracker_monitor_calm All_monitor_calm monitor_update_calm report_calm : calm.

Lemma remediate_calm id failedAt users att : calmM (remediate id failedAt users att) (λ _, True).
Proof.
  revert att. induction users as [|p users IH]; intros att; cbn [remediate]; [solve_calm|].
  unfold add_skip, send_event. cbv zeta. solve_calm; by apply monitor_update_calm.
Qed.
Lemma tick_volume_calm m entries vol : calmM (tick_volume m entries vol) (λ _, True).
Proof.
  pose proof remediate_calm.
  unfold tick_volume, handleFailed, handle_marked, with_pods, delete_users, forget, add_event, add_off, send_event,
    Mark, GetFailed, HeldUntil, Hold, Clear. cbv zeta.
  solve_calm; by apply monitor_update_calm.
Qed.
Lemma RunMonitor_calm m n : calmM (RunMonitor m n) (λ _, True).
Proof.
  pose proof tick_volume_calm. induction n as [|n IH]; cbn [RunMonitor]; [solve_calm|].
  unfold Tick. solve_calm.
Qed.
End Monitor.

Lemma run_task_disciplined n t : disciplined lock_rank proc_keyed proc_changes ([], run_task n t).
Proof.
  destruct t as [q|m ticks]; cbn [run_task]; eapply safe_bind.
  - eapply (safe_zoom _ proc_node table_keyed _ node_changes); [done| |apply run_node_calm]. by intros h s x _ Hx Hc.
  - by intros h a [-> _].
  - eapply (safe_zoom _ proc_monitor (λ s : MonMem, keyed (st_data (mm_state s))) _ monitor_changes); [done| |apply RunMonitor_calm].
    intros h s x Hs Hx [E Hc]. split; [exact Hx|]. cbn in E. unfold proc_changes. cbn. rewrite E. by split.
  - by intros h a [-> _].
Qed.

Lemma start_inv n ts s : proc_keyed s → PoolInv lock_rank proc_keyed proc_changes (start_tasks n ts, s).
Proof.
  intros Hs. split_and!; [|unfold all_held; cbn|done].
  - apply Forall_fmap, Forall_forall. intros t _. apply run_task_disciplined.
  - unfold start_tasks. induction ts as [|t ts IH]; cbn; [constructor|exact IH].
Qed.

(** C11: the node process never deadlocks.  Start any requests and monitor
    loops of any finite number of ticks at once, on any memory whose table is keyed by volume ID.  Whatever
    the scheduler does and whatever the calls answer, as long as not all of
    them have returned one of them can take a step, and no run is infinite: in
    the end every request has its answer, no mutex is left locked and the
    table is still keyed.  No request unlocks a mutex it does not hold. *)
Theorem process_completes n ts s :
  keyed (st_data (nd_state (pm_node s))) →
  inevitably mu_step (λ c, finished c.1 ∧ keyed (st_data (nd_state (pm_node c.2)))) (start_tasks n ts, s).
Proof. intros Hs. apply (pool_completes lock_rank proc_keyed proc_changes _ _ 3); [by apply start_inv|apply rank_top]. Qed.

Definition demo_proc : ProcMem := mkProc demo_node_mem ∅ ∅ ∅.
Definition demo_tasks : list task :=
  [Handle (ReqStage demo_stage); Handle (ReqUnstage demo_id "/stage"); Watch (mkMonitor "n1" true true) 2].

Lemma process_completes_witness :
  ∃ gs s, rtc mu_step (start_tasks demo_node demo_tasks, demo_proc) (gs, s) ∧ finished gs.
Proof.
  destruct (inevitably_reaches _ _ _ (process_completes demo_node demo_tasks demo_proc (map_Forall_empty _)))
    as ([gs s] & Hr & Hf & _).
  exists gs, s. exact (conj Hr Hf).
Defined.

(** C12: what the mutexes guard.  At every moment of every run no mutex is
    held by two goroutines.  A step changes the state table only under the
    table's mutex, the registry, the failure tracker, the cached keys and the
    table of volume mutexes only under theirs; the table entry and the key of
    a volume only under that volume's mutex, and a cached mount only under
    that mount's.  So while a request holds its volume's mutex, what it read
    of the volume stays true but for its own writes. *)
Theorem process_guarded n ts s gs1 g gs2 s1 g' s2 :
  keyed (st_data (nd_state (pm_node s))) →
  rtc mu_step (start_tasks n ts, s) (gs1 ++ g :: gs2, s1) →
  go_step (all_held (gs1 ++ gs2)) g s1 g' s2 →
  NoDup (all_held (gs1 ++ g :: gs2)) ∧ node_changes g.1 (pm_node s1) (pm_node s2) ∧
  ∀ v, volume_mu v ∈ all_held (gs1 ++ gs2) →
    st_data (nd_state (pm_node s2)) !! v = st_data (nd_state (pm_node s1)) !! v ∧
    nd_keys (pm_node s2) !! v = nd_keys (pm_node s1) !! v.
Proof.
  intros Hs Hr Hg. pose proof (mu_steps_inv _ _ _ _ _ Hr (start_inv n ts s Hs)) as (Hd & Hn & HI).
  cbn [fst snd] in *. pose proof Hn as Hn'. rewrite all_held_middle in Hn'.
  apply Forall_app in Hd as [_ Hd]. inversion Hd as [|?? Hdg _]; subst.
  destruct (go_step_safe _ _ _ _ _ _ _ _ Hg Hdg HI Hn') as (_ & _ & Hc & _).
  assert (node_changes g.1 (pm_node s1) (pm_node s2)) as Hch by (destruct Hc as [->|Hc]; [apply node_same|exact Hc]).
  split_and!; [done..|]. intros v Hv. apply NoDup_app in Hn' as (_ & Hdis & _).
  assert (volume_mu v ∉ g.1) as Hnv by (intros Hin; by apply (Hdis _ Hin)).
  split; [by apply (ch_entry _ _ _ Hch)|by apply (ch_key _ _ _ Hch)].
Qed.

(** Two unstages of one volume: the first holds the volume's mutex, the second
    has looked it up and now waits. *)
Definition demo_unstages : list task := [Handle (ReqUnstage "v" "/stage/v"); Handle (ReqUnstage "v" "/stage/v")].
Definition demo_sched (l : list nat) :=
  schedule (X := unit) quiet l (start_tasks demo_node demo_unstages, demo_proc, tt).
Definition sched_held (l : list nat) : option (list (list string)) := (λ c, c.1.1.*1) <$> demo_sched l.

Lemma process_guarded_witness :
  sched_held [0; 0; 0; 0; 1; 1] = Some [[volume_mu "v"]; [node_mu]] ∧
  sched_held [0; 0; 0; 0; 1; 1; 1; 1] = None ∧
  ∃ gs s, rtc mu_step (start_tasks demo_node demo_unstages, demo_proc) (gs, s) ∧ NoDup (all_held gs).
Proof.
  split; [vm_compute; reflexivity|]. split; [vm_compute; reflexivity|].
  assert (match demo_sched [0; 0; 0; 0; 1] with
          | Some c => match step_of quiet 1 c with Some _ => true | None => false end | None => false end = true) as Hs
    by (vm_compute; reflexivity).
  destruct (demo_sched [0; 0; 0; 0; 1]) as [[[gs s] x]|] eqn:E; [|done].
  destruct (step_of quiet 1 (gs, s, x)) as [[[gs' s'] x']|] eqn:Hs'; [|done].
  apply schedule_sound in E. exists gs, s. split; [exact E|].
  apply step_of_sound in Hs' as (g & g' & E1 & _ & Hg). rewrite E1 in E |- *.
  exact (proj1 (process_guarded demo_node demo_unstages demo_proc _ _ _ _ _ _ (map_Forall_empty _) E Hg)).
Defined.
