(* ===== verification/Statuses.v ===== *)
(** The errors the services answer with.

    A CSI call is answered with a gRPC status; an error without one reaches
    the caller as code Unknown, which the sidecars do not interpret.  The
    theorem follows every branch of every handler of the node and the
    controller service, however they interleave: what they return as an error
    is a status made by the handler itself, with one exception, the error of
    opening a mounted store in the controller's imageManagerForVolumeID. *)

From Stdlib Require Import ZArith Lia.
From stdpp Require Import base option gmap strings list relations.
From S2P Require Import Prelude GoStrings Effects Json Store Image Crypt Mount Loop Registry Encryption.
From S2P Require Import Controller Monitor Node NodeStage NodeOps NodeInv.

Import strings path.
Local Open Scope prog_scope.

Definition is_status (e : goerr) : Prop := ∃ c m, e = ErrStatus c m.
(** A result whose error, if it is one, satisfies [P]. *)
Definition errs {A} (P : goerr → Prop) (r : res A) : Prop := match r with Ok _ => True | Err e => P e end.

(** [returns P m]: in every execution of [m], whatever others do to the memory
    meanwhile, the error is in [P]. *)
Definition returns {S A} (P : goerr → Prop) (m : prog S (res A)) : Prop := stable (λ _, True) (errs P) m.

Section Returns.
Context {S : Type} (P : goerr → Prop).

Lemma stable_any {A} (m : prog S A) : stable (λ _, True) (λ _, True) m.
Proof. induction m as [a|B f k IH|X c k IH]; cbn; auto. Qed.
Lemma returns_ok {A} (a : A) : returns (S := S) P (ok a).
Proof. done. Qed.
Lemma returns_fail {A} e : P e → returns (S := S) P (fail (A := A) e).
Proof. done. Qed.
Lemma returns_lift {A} (r : res A) : (∀ e, r = Err e → P e) → returns (S := S) P (lift_res r).
Proof. destruct r as [a|e]; [done|]. intros H. by apply H. Qed.
Lemma returns_bind {A B} (m : prog S A) (f : A → prog S (res B)) : (∀ a, returns P (f a)) → returns P (bind m f).
Proof. intros Hf. eapply stable_bind; [apply stable_any|]. intros a _. apply Hf. Qed.
Lemma returns_bindE {A B} (m : prog S (res A)) (f : A → prog S (res B)) :
  returns P m → (∀ a, returns P (f a)) → returns P (bindE m f).
Proof. intros Hm Hf. eapply stable_bind; [exact Hm|]. intros [a|e] He; [apply Hf|exact He]. Qed.
Lemma returns_wrap {A} g (m : prog S (res A)) : (∀ e, P (g e)) → returns P (wrap g m).
Proof. intros Hg. eapply stable_bind; [apply stable_any|]. intros [a|e] _; [done|apply Hg]. Qed.
Lemma returns_for_each {A} (l : list A) (f : A → prog S (res unit)) :
  (∀ x, returns P (f x)) → returns P (for_each l f).
Proof. intros Hf. induction l as [|x l IH]; [done|]. by apply returns_bindE. Qed.
End Returns.

Lemma status_statusf c m e : is_status (statusf c m e).
Proof. by eexists _, _. Qed.
Lemma status_map_err {A} c m (r : res A) e : map_err (statusf c m) r = Err e → is_status e.
Proof. destruct r; intros [= <-]. by eexists _, _. Qed.
Lemma status_attach e : is_status (attach_status e).
Proof. unfold attach_status. case_match; by eexists _, _. Qed.
Lemma status_crypt e : is_status (cryptStatus e).
Proof. unfold cryptStatus. repeat case_match; by eexists _, _. Qed.
Lemma status_create e : is_status (create_status e).
Proof. unfold create_status. case_match; by eexists _, _. Qed.

Lemma status_stage_input req e : stage_input req = Err e → is_status e.
Proof.
  unfold stage_input, keysFromSecrets. intros H. repeat case_match; simplify_eq; by eexists _, _.
Qed.
Lemma status_validateCapability c e : validateCapability c = Err e → is_status e.
Proof. unfold validateCapability. intros H. repeat case_match; simplify_eq; by eexists _, _. Qed.
Lemma status_validateCapabilities cs e : validateCapabilities cs = Err e → is_status e.
Proof. intros [m ->]%validateCapabilities_err. by eexists _, _. Qed.
Lemma status_alignedCapacity r e : alignedCapacity r = Err e → is_status e.
Proof. intros [m ->]%alignedCapacity_err. by eexists _, _. Qed.
Lemma status_volumeIDFromName cfg n e : volumeIDFromName cfg n = Err e → is_status e.
Proof. intros [m ->]%volumeIDFromName_err. by eexists _, _. Qed.

Create HintDb status discriminated.
#[export] Hint Resolve status_statusf status_map_err status_attach status_crypt status_create status_stage_input
  status_validateCapability status_validateCapabilities status_alignedCapacity status_volumeIDFromName : status.

Ltac returns_step :=
  lazymatch goal with
  | |- returns _ (ok _) => apply returns_ok
  | |- returns _ (failS _ _) => apply returns_fail; by eexists _, _
  | |- returns _ (lift_res _) => apply returns_lift; intros ??; solve [eauto with status]
  | |- returns _ (bind _ _) => apply returns_bind; intros
  | |- returns _ (bindE _ _) => apply returns_bindE; [|intros]
  | |- returns _ (wrap _ _) => apply returns_wrap; intros; solve [eauto with status]
  | |- returns _ (for_each _ _) => apply returns_for_each; intros
  | |- returns _ (if ?b then _ else _) => destruct b
  | |- returns _ (match ?x with _ => _ end) => destruct x
  end.
Ltac solve_returns := repeat first [ solve [eauto with status] | returns_step ].

Section NodeHandlers.
Local Abbreviation returnsN := (returns (S := NodeMem) is_status).

Lemma orCleanup_returns {A} c f (m : prog NodeMem (res A)) :
  (∀ e, is_status (f e)) → returnsN (orCleanup c f m).
Proof. intros Hf. apply returns_bind. intros [a|e]; [done|]. apply returns_bind. intros. by apply returns_fail. Qed.
#[local] Hint Resolve orCleanup_returns : status.
Lemma with_volume_returns {A} id (m : prog NodeMem (res A)) : returnsN m → returnsN (with_volume id m).
Proof.
  intros Hm. apply returns_bind. intros []. eapply stable_bind; [exact Hm|]. intros r Hr. by intros [].
Qed.
#[local] Hint Resolve with_volume_returns : status.
Lemma popStageMounts_returns p : returnsN (popStageMounts p).
Proof. unfold popStageMounts. generalize maxStageUnmounts as k. induction k; cbn [pop_mounts]; solve_returns. Qed.
#[local] Hint Resolve popStageMounts_returns : status.

Lemma stageLocked_returns n req : returnsN (stageLocked n req).
Proof.
  unfold stageLocked, stage_image, missing_image, adoptStage, refuse_busy, refuse_open, detach_idle, stage_fresh,
    open_device, mount_device. solve_returns.
Qed.
Lemma restageFailed_returns n req : returnsN (restageFailed n req).
Proof.
  unfold restageFailed. apply with_volume_returns. unfold refuse_published, restage_entry, restage_teardown.
  solve_returns.
Qed.
#[local] Hint Resolve stageLocked_returns restageFailed_returns : status.

Lemma stage_returns n req : returnsN (NodeStageVolume n req).
Proof. unfold NodeStageVolume. case_match; [solve_returns|]. apply with_volume_returns, stageLocked_returns. Qed.
Lemma unstage_returns id p : returnsN (NodeUnstageVolume id p).
Proof.
  unfold NodeUnstageVolume. case_match; [solve_returns|]. apply with_volume_returns.
  unfold release_devices, close_entry. solve_returns.
Qed.
Lemma publish_returns n req : returnsN (NodePublishVolume n req).
Proof. unfold NodePublishVolume. solve_returns. Qed.
Lemma unpublish_returns id target : returnsN (NodeUnpublishVolume id target).
Proof. unfold NodeUnpublishVolume. solve_returns. Qed.
Lemma stats_returns id p : returnsN (NodeGetVolumeStats id p).
Proof. unfold NodeGetVolumeStats. solve_returns. Qed.
Lemma expand_returns id p r : returnsN (NodeExpandVolume id p r).
Proof. unfold NodeExpandVolume. solve_returns. Qed.
End NodeHandlers.

(** What a reply of the node service may be. *)
Definition node_reply_ok (r : node_reply) : Prop :=
  match r with RepUnit r => errs is_status r | RepStats r => errs is_status r | RepExpand r => errs is_status r end.

Lemma run_node_returns n q : stable (λ _, True) node_reply_ok (run_node n q).
Proof.
  destruct q as [r|id p|r|id t|id p|id p c]; cbn [run_node];
    (eapply (stable_bind _ (errs is_status)); [|by intros a Ha]).
  - apply stage_returns.
  - apply unstage_returns.
  - apply publish_returns.
  - apply unpublish_returns.
  - apply stats_returns.
  - apply expand_returns.
Qed.

(** ** The controller *)
Inductive controller_request :=
  | ReqCreate (r : CreateVolumeRequest) | ReqDelete (volumeID : string)
  | ReqValidate (volumeID : string) (caps : list VolumeCapability) | ReqList (startingToken : string)
  | ReqGrow (volumeID : string) (r : option CapacityRange).

Inductive controller_reply :=
  | RepCreate (r : res Volume) | RepDelete (r : res unit) | RepValidate (r : res (option (list VolumeCapability)))
  | RepList (r : res (list (string * Z))) | RepGrow (r : res Z).

Definition run_controller (q : controller_request) : prog Registry controller_reply :=
  match q with
  | ReqCreate r => a <- CreateVolume r ;; Ret (RepCreate a)
  | ReqDelete id => a <- DeleteVolume id ;; Ret (RepDelete a)
  | ReqValidate id caps => a <- ValidateVolumeCapabilities id caps ;; Ret (RepValidate a)
  | ReqList tok => a <- ListVolumes tok ;; Ret (RepList a)
  | ReqGrow id r => a <- ControllerExpandVolume id r ;; Ret (RepGrow a)
  end.

(** The errors of [image.New]. *)
Definition open_error (e : goerr) : Prop :=
  (∃ e', e = Errorf "backing store " e') ∨ e = ErrMsg "backing store is not a directory".
Definition status_or_open (e : goerr) : Prop := is_status e ∨ open_error e.

Definition controller_reply_ok (r : controller_reply) : Prop :=
  match r with
  | RepCreate r => errs is_status r | RepList r => errs is_status r
  | RepDelete r => errs status_or_open r | RepValidate r => errs status_or_open r | RepGrow r => errs status_or_open r
  end.

Section ControllerHandlers.
Local Abbreviation returnsR := (returns (S := Registry) is_status).
Local Abbreviation returnsO := (returns (S := Registry) status_or_open).

Lemma returns_weaken {A} (m : prog Registry (res A)) : returnsR m → returnsO m.
Proof. apply stable_mono. intros [a|e]; [done|]. by left. Qed.
Lemma manager_returns id : returnsO (imageManagerForVolumeID id).
Proof.
  unfold imageManagerForVolumeID. apply returns_bindE.
  { apply returns_lift. intros e [m ->]%parse_err. left. by eexists _, _. }
  intros sid. apply returns_bind. intros [cfg|]; [|by apply returns_weaken; solve_returns].
  apply returns_bindE; [apply returns_weaken; solve_returns|]. intros path. unfold New. apply returns_bind.
  intros [i|e]; [destruct (fi_dir i)|]; [done|by right; right|right; left; eauto].
Qed.
Lemma list_paths_returns ps : returnsR (list_paths ps).
Proof. induction ps; cbn [list_paths]; solve_returns. Qed.

Lemma run_controller_returns q : stable (λ _, True) controller_reply_ok (run_controller q).
Proof.
  pose proof manager_returns as Hm. pose proof list_paths_returns as Hl.
  destruct q as [r|id|id caps|tok|id r]; cbn [run_controller].
  - eapply (stable_bind _ (errs is_status)); [|by intros a Ha].
    change (returnsR (CreateVolume r)). unfold CreateVolume. solve_returns.
  - eapply (stable_bind _ (errs status_or_open)); [|by intros a Ha]. unfold DeleteVolume.
    case_match; [left; by eexists _, _|]. eapply stable_bind; [apply Hm|]. intros [m|e] He.
    + apply returns_weaken. solve_returns.
    + by case_match.
  - eapply (stable_bind _ (errs status_or_open)); [|by intros a Ha]. unfold ValidateVolumeCapabilities.
    case_match; [left; by eexists _, _|]. case_match; [left; by eexists _, _|]. apply returns_bindE; [apply Hm|].
    intros m. apply returns_weaken. solve_returns.
  - eapply (stable_bind _ (errs is_status)); [|by intros a Ha].
    change (returnsR (ListVolumes tok)). unfold ListVolumes. solve_returns.
  - eapply (stable_bind _ (errs status_or_open)); [|by intros a Ha]. unfold ControllerExpandVolume.
    case_match; [left; by eexists _, _|]. case_match; [left; by eexists _, _|].
    apply returns_bindE; [apply returns_weaken; solve_returns|]. intros size.
    apply returns_bindE; [apply Hm|]. intros m. apply returns_weaken. solve_returns.
Qed.
End ControllerHandlers.

(** What a goroutine of a pool has returned. *)
Lemma pool_returns {S R} (Q : R → Prop) (ts : list (prog S R)) s ts' s' i r :
  Forall (stable (λ _, True) Q) ts → rtc pool_step (ts, s) (ts', s') → ts' !! i = Some (Ret r) → Q r.
Proof.
  intros Hts Hr Hi.
  destruct (pool_invariant (λ _, True) ((λ _, Q) <$> ts) _ _ _ _ Hr) as [H _]; [|done|].
  { clear -Hts. induction Hts; by constructor. }
  destruct (Forall2_lookup_r _ _ _ _ _ H Hi) as (Q' & HQ & Hs).
  apply list_lookup_fmap_Some in HQ as (t & -> & _). exact Hs.
Qed.

(** C24: every error the services answer with.  Whatever requests run at once
    and however they interleave: an error of the node service is a gRPC status
    it made itself, and so is an error of CreateVolume and ListVolumes; an
    error of DeleteVolume, ValidateVolumeCapabilities and
    ControllerExpandVolume is a status or the bare error of opening the
    mounted store. *)
Theorem service_errors :
  (∀ n qs s ts s' i r, rtc pool_step (run_node n <$> qs, s) (ts, s') → ts !! i = Some (Ret r) → node_reply_ok r) ∧
  (∀ qs s ts s' i r, rtc pool_step (run_controller <$> qs, s) (ts, s') → ts !! i = Some (Ret r) → controller_reply_ok r).
Proof.
  split.
  - intros n qs s ts s' i r Hr. eapply pool_returns; [|exact Hr]. apply Forall_fmap, Forall_forall. intros q _.
    apply run_node_returns.
  - intros qs s ts s' i r Hr. eapply pool_returns; [|exact Hr]. apply Forall_fmap, Forall_forall. intros q _.
    apply run_controller_returns.
Qed.

(** A delete on a store whose directory cannot be read: code Unknown. *)
Definition delete_unreadable :=
  run (X := unit) (on_stat (λ p, Err (ErrMsg "input/output error")) quiet) (run_controller (ReqDelete demo_id))
    first_get.1.1.2 tt.
Definition delete_error : option goerr :=
  match delete_unreadable.1.1.1 with RepDelete (Err e) => Some e | _ => None end.

Lemma service_errors_witness :
  status_code <$> delete_error = Some Unknown ∧ controller_reply_ok delete_unreadable.1.1.1.
Proof.
  split; [vm_compute; reflexivity|].
  destruct delete_unreadable as [[[r s] x] t] eqn:E. cbn [fst].
  eapply (proj2 service_errors [ReqDelete demo_id] first_get.1.1.2 [Ret r] s 0); [|reflexivity].
  exact (exec_pool _ _ _ _ _ (exec_run _ _ _ _ _ _ _ _ E)).
Defined.
