(* ===== verification/NodeMain.v ===== *)
(** The node plugin's start: cmd/node/main.go.

    [start_node] is main up to the point where the monitor and the server
    run.  The theorems: pods are deleted only where the admission policy that
    bounds the plugin's rights is enforced, the components start in states
    their invariants cover, and every DELETE that leaves the process is one
    the monitor may make. *)

From Stdlib Require Import ZArith Lia.
From stdpp Require Import base option gmap strings list.
From S2P Require Import Prelude GoStrings Effects Json Store Image Crypt Mount Loop Registry Encryption.
From S2P Require Import Controller Monitor Kube Node NodeStage NodeOps NodeInv Flag Server Locks Process.

Import strings path.
Local Open Scope prog_scope.

(** src/pkg/driver/monitor.go:19-19 (PodDeletePolicyName) *)
Definition PodDeletePolicyName : string := "fileblock-node-pod-delete".

(** src/cmd/node/main.go:25-32 (main, the flags) *)
Record NodeFlags := mkFlags {
  fl_endpoint : string; fl_nodeID : string; fl_stateDir : string; fl_storesRoot : string; fl_logLevel : string;
  fl_autoDelete : bool }.

(** src/cmd/node/main.go:25-31 (main, the flags' defaults): [nodeName] is
    $NODE_NAME *)
Definition default_flags (nodeName : string) : NodeFlags :=
  mkFlags "unix:///csi/csi.sock" nodeName "/var/lib/kubelet/plugins/fileblock.csi" "/var/lib/fileblock/stores" "info" true.
(** src/cmd/node/main.go:25-31 (main, the flags) *)
Definition node_flags : list (flag NodeFlags) :=
  [mkFlag "endpoint" false (λ x f, Ok (mkFlags x (fl_nodeID f) (fl_stateDir f) (fl_storesRoot f) (fl_logLevel f) (fl_autoDelete f)));
   mkFlag "node-id" false (λ x f, Ok (mkFlags (fl_endpoint f) x (fl_stateDir f) (fl_storesRoot f) (fl_logLevel f) (fl_autoDelete f)));
   mkFlag "state-dir" false (λ x f, Ok (mkFlags (fl_endpoint f) (fl_nodeID f) x (fl_storesRoot f) (fl_logLevel f) (fl_autoDelete f)));
   mkFlag "stores-root" false (λ x f, Ok (mkFlags (fl_endpoint f) (fl_nodeID f) (fl_stateDir f) x (fl_logLevel f) (fl_autoDelete f)));
   mkFlag "log-level" false (λ x f, Ok (mkFlags (fl_endpoint f) (fl_nodeID f) (fl_stateDir f) (fl_storesRoot f) x (fl_autoDelete f)));
   mkFlag "auto-delete-pod-when-volume-failed" true (λ x f,
     match ParseBool x with
     | Ok b => Ok (mkFlags (fl_endpoint f) (fl_nodeID f) (fl_stateDir f) (fl_storesRoot f) (fl_logLevel f) b)
     | Err e => Err e
     end)].

(** What main leaves: the process' exit code, or the parts that run. *)
Inductive started :=
  | Exit (code : Z)
  | Running (n : NodeConfig) (mem : NodeMem) (mon : Monitor) (kube : option HTTPClient).

(** src/cmd/node/main.go:86-102 (main, the decision to delete pods) *)
Definition decide_deleting (kc : option HTTPClient) (autoDelete : bool) : prog unit bool :=
  match kc with
  | Some c =>
      if autoDelete then
        r <- http_PolicyEnforced c PodDeletePolicyName ;;
        Ret (match r with Err _ => false | Ok enforced => enforced end)
      else Ret false
  | None => Ret false
  end.

(** src/cmd/node/main.go:62-116 (main, from the reconciliation on) *)
Definition start_parts (pageSize : Z) (f : NodeFlags) (st : State) : prog unit started :=
  rec <- local st (Reconcile (mkReconciler (Some "/sys") (fl_storesRoot f))) ;;
  adopt <- local (NewRegistry (fl_storesRoot f) true true true) AdoptExisting ;;
  kc <- InCluster ;;
  let kube := match kc with Ok c => Some c | Err _ => None end in
  deleting <- decide_deleting kube (fl_autoDelete f) ;;
  Ret (Running (mkNode (fl_nodeID f) "/sys" (bool_decide (is_Some kube)) pageSize)
         (NewNodeServer (snd rec) (snd adopt))
         (mkMonitor (fl_nodeID f) (bool_decide (is_Some kube)) deleting) kube).

(** src/cmd/node/main.go:36-116 (main, once the flags are read): [pageSize] is
    [os.Getpagesize] *)
Definition start_node (pageSize : Z) (f : NodeFlags) : prog unit started :=
  if bool_decide (fl_nodeID f = "") then Ret (Exit 2) else
  r <- sys (OsOp (MkdirAll (fl_stateDir f))) ;;
  match r with
  | Err _ => Ret (Exit 2)
  | Ok _ =>
      r <- sys (OsOp (MkdirAll (fl_storesRoot f))) ;;
      match r with
      | Err _ => Ret (Exit 2)
      | Ok _ =>
          st <- LoadState (JoinPath [fl_stateDir f; "loop-mappings.json"]) ;;
          match st with
          | Err _ => Ret (Exit 2)
          | Ok st => sys (OsOp (MkdirAll "/run/cryptsetup")) ;; start_parts pageSize f st
          end
      end
  end.

(** src/cmd/node/main.go:24-116 (main) *)
Definition node_main (pageSize : Z) (args : list string) : prog unit started :=
  name <- sys (Getenv "NODE_NAME") ;;
  match Parse node_flags args (default_flags name) with
  | Exits code => Ret (Exit code)
  | Parsed _ f => start_node pageSize f
  end.

(** src/cmd/node/main.go:126-132 (newLogger): the level of the logger, as in the
    controller *)
Definition newLogger (level : string) : Z := default 0%Z (parse_level level).
(** src/cmd/node/main.go:82-82 (main, the server) *)
Definition node_server (f : NodeFlags) : Server := mkServer (fl_endpoint f) true false true.
(** src/cmd/node/main.go:120-123 (main, serving): the exit code *)
Definition serve_node {S} (ParseURL : string → res URL) (f : NodeFlags) : prog S Z :=
  served <- Serve ParseURL (node_server f) ;;
  Ret (match served with Err _ => 1%Z | Ok _ => 0%Z end).

(** src/cmd/node/main.go:119-119 (main, the goroutine of the monitor): with the
    requests that are served, what runs once main has built its parts *)
Definition node_tasks (mon : Monitor) (ticks : nat) (qs : list node_request) : list task :=
  Watch mon ticks :: (Handle <$> qs).
(** The process' memory then. *)
Definition started_memory (mem : NodeMem) : ProcMem := mkProc mem ∅ ∅ ∅.

(** ** The start *)
Lemma decide_deleting_true kc auto u tr u' :
  exec (decide_deleting kc auto) u tr true u' →
  auto = true ∧ ∃ c, kc = Some c ∧ policy_denies c PodDeletePolicyName tr.
Proof.
  unfold decide_deleting. destruct kc as [c|]; [|by intros (_ & ? & _)]. destruct auto; [|by intros (_ & ? & _)].
  intros (t1 & r & u1 & t2 & -> & H1 & (-> & E & _))%exec_bind. destruct r as [[]|]; try done.
  rewrite app_nil_r. split; [done|]. exists c. split; [done|]. by eapply http_PolicyEnforced_true.
Qed.

Lemma exec_LoadState {S} path (s : S) tr st s' : exec (LoadState path) s tr (Ok st) s' → st_path st = path.
Proof.
  revert tr st s'.
  enough (wp (LoadState path) s (λ r _ _, match r with Ok st => st_path st = path | Err _ => True end)) as H.
  { intros tr st s' He. by apply (proj1 (wp_exec _ _ _) H) in He. }
  unfold LoadState. cbn. intros [[]|e]; cbn; [|done]. intros [b|e]; cbn; repeat case_match; done.
Qed.

(** What a program keeps of the state table, piece by piece. *)
Lemma stable_for_all {S A} (I : S → Prop) (l : list A) (f : A → prog S unit) :
  (∀ x, stable I (λ _, True) (f x)) → stable I (λ _, True) (for_all l f).
Proof.
  intros Hf. induction l as [|x l IH]; [done|]. apply (stable_bind _ (λ _, True)); [apply Hf|]. by intros.
Qed.

Lemma All_keeps : keeps (λ s : State, s) All.
Proof. unfold All, range_keys. solve_keeps. Qed.
#[local] Hint Resolve All_keeps : keeps.

Lemma stable_Reconcile path r : stable (TableInv path) (λ _, True) (Reconcile r).
Proof.
  unfold Reconcile, bindE. apply (stable_bind _ (λ _, True)); [apply stable_keeps; solve_keeps|].
  intros [live|e] _; [|done]. apply (stable_bind _ (λ _, True)).
  { apply stable_keeps. destruct (rec_crypt r); solve_keeps. }
  intros [ms|e] _; [|done]. unfold reconcile_with. apply (stable_bind _ (λ _, True)); [apply stable_keeps; solve_keeps|].
  intros all _. apply (stable_bind _ (λ _, True)).
  { apply stable_for_all. intros m. destruct (stale _ _ _); [|done]. apply (stable_bind _ (λ _, True)); [|done].
    apply (stable_table path (delete (m_VolumeID m))). intros d Hd. by apply map_Forall_delete. }
  intros [] _. apply stable_keeps. cbv zeta. unfold range_keys. solve_keeps.
Qed.

Lemma exec_start_parts pageSize f st u tr n mem mon kube u' :
  exec (start_parts pageSize f st) u tr (Running n mem mon kube) u' →
  nodeID n = fl_nodeID f ∧ mon_Node mon = fl_nodeID f ∧ mon_Kube mon = bool_decide (is_Some kube) ∧
  RegInv (fl_storesRoot f) (nd_registry mem) ∧ nd_failures mem = newFailures ∧
  (∃ t1 t2 t3 rr ra, tr = t1 ++ t2 ++ t3 ∧
     exec (Reconcile (mkReconciler (Some "/sys") (fl_storesRoot f))) st t1 rr (nd_state mem) ∧
     exec AdoptExisting (NewRegistry (fl_storesRoot f) true true true) t2 ra (nd_registry mem)) ∧
  (keyed (st_data st) → TableInv (st_path st) (nd_state mem)) ∧
  (mon_AutoDelete mon = true → fl_autoDelete f = true ∧
     ∃ c t t', kube = Some c ∧ tr = t ++ t' ∧ policy_denies c PodDeletePolicyName t').
Proof.
  intros (t1 & [x1 st1] & u1 & t1' & -> & [-> H1]%exec_local & He)%exec_bind.
  apply exec_bind in He as (t2 & [x2 reg] & u2 & t2' & -> & [-> H2]%exec_local & He).
  apply exec_bind in He as (t3 & kc & u3 & t3' & -> & H3 & He).
  apply exec_bind in He as (t4 & del & u4 & t5 & -> & H4 & (-> & E & ->)). simplify_eq. cbn [fst snd] in H1, H2. cbn [nodeID mon_Node mon_Kube mon_AutoDelete NewNodeServer nd_registry nd_failures nd_state].
  split_and!; try done.
  - by apply (exec_stable _ _ _ _ _ _ _ H2 (stable_AdoptExisting _) (inv_new _ _ _ _)).
  - by eexists t1, t2, _, x1, x2.
  - intros Hk. by apply (exec_stable _ _ _ _ _ _ _ H1 (stable_Reconcile (st_path st) _)).
  - intros ->. apply decide_deleting_true in H4 as (Ha & c & Ec & Hp). split; [done|].
    exists c, (t1 ++ t2 ++ t3), t4. rewrite app_nil_r, <- !app_assoc. done.
Qed.

(** The state table and the registry a plugin starts with: the file is loaded,
    reconciled, and the mounts are adopted. *)
Definition started_from (f : NodeFlags) (tr : trace) (mem : NodeMem) : Prop :=
  let path := JoinPath [fl_stateDir f; "loop-mappings.json"] in
  let rec := mkReconciler (Some "/sys") (fl_storesRoot f) in
  ∃ st t0 t1 t2 t3 t4 t5 rr ra, tr = t0 ++ t1 ++ t2 ++ t3 ++ t4 ++ t5 ∧
    exec (LoadState path) tt t1 (Ok st) tt ∧
    exec (Reconcile rec) st t3 rr (nd_state mem) ∧
    exec AdoptExisting (NewRegistry (fl_storesRoot f) true true true) t4 ra (nd_registry mem) ∧
    (keyed (st_data st) →
       left_in_place rec st t3 rr (nd_state mem) ∧ st_path (nd_state mem) = path ∧ NodeInv (fl_storesRoot f) mem mem).

Lemma start_node_ok pageSize f u tr n mem mon kube u' :
  exec (start_node pageSize f) u tr (Running n mem mon kube) u' →
  fl_nodeID f ≠ "" ∧ nodeID n = fl_nodeID f ∧ mon_Node mon = fl_nodeID f ∧ mon_Kube mon = bool_decide (is_Some kube) ∧
  started_from f tr mem ∧ nd_failures mem = newFailures ∧
  (mon_AutoDelete mon = true → fl_autoDelete f = true ∧
     ∃ c t t', kube = Some c ∧ tr = t ++ t' ∧ policy_denies c PodDeletePolicyName t').
Proof.
  unfold start_node. case_bool_decide as Hid; [by intros (_ & ? & _)|]. intros (r1 & tr1 & -> & He).
  cbn [bind] in He.
  destruct r1 as [[]|]; [|by destruct He as (_ & ? & _)]. destruct He as (r2 & tr2 & -> & He).
  cbn [bind] in He.
  destruct r2 as [[]|]; [|by destruct He as (_ & ? & _)].
  apply exec_bind in He as (t3 & st & u1 & t4 & -> & Hl & He). destruct u, u1.
  destruct st as [st|]; [|by destruct He as (_ & ? & _)]. destruct He as (r3 & tr3 & -> & He).
  cbn [bind] in He.
  apply exec_start_parts in He as (E1 & E2 & E3 & HR & HF & (t5 & t6 & t7 & rr & ra & -> & Hrec & Had) & HT & HD).
  split_and!; try done.
  - eexists st, [_; _], t3, [_], t5, t6, t7, rr, ra. split; [reflexivity|]. split_and!; try done. intros Hk.
    split; [by apply exec_Reconcile|]. destruct (HT Hk) as [Hp Hk'].
    rewrite (exec_LoadState _ _ _ _ _ Hl) in Hp. split; [done|]. split; [done|by split|done..].
  - intros (Hf & c & t & t' & Ek & Et & Hp)%HD. split; [done|].
    eexists c, (_ :: _ :: t3 ++ _ :: t), t'. split; [done|]. split; [|done]. rewrite Et. cbn. by rewrite <- app_assoc.
Qed.

(** C13: a node plugin that starts from a command line has the flags it gives,
    with $NODE_NAME for the node ID it does not give, and a node ID that is not
    empty, the same in the server and the monitor.  Its state table is what the
    reconciliation made of the loaded file and its registry what AdoptExisting
    made of an empty one; if the file is keyed by volume ID, the table is the
    whole loaded one when the reconciliation could not list the devices, and
    otherwise exactly its entries whose devices are in place
    ([left_in_place]); it is kept in the same file, no volume is marked failed,
    and the invariant of the handlers holds from the start.  Its monitor
    deletes pods only if the flag asks for it, there is an API client, and both
    the admission policy and a binding that denies were read through that
    client. *)
Theorem node_startup pageSize args u tr n mem mon kube u' :
  exec (node_main pageSize args) u tr (Running n mem mon kube) u' →
  ∃ name rest f, head tr = Some (Ev (Getenv "NODE_NAME") name) ∧ Parse node_flags args (default_flags name) = Parsed rest f ∧
  fl_nodeID f ≠ "" ∧ nodeID n = fl_nodeID f ∧ mon_Node mon = fl_nodeID f ∧ mon_Kube mon = bool_decide (is_Some kube) ∧
  started_from f tr mem ∧ nd_failures mem = newFailures ∧
  (mon_AutoDelete mon = true → fl_autoDelete f = true ∧
     ∃ c t t', kube = Some c ∧ tr = t ++ t' ∧ policy_denies c PodDeletePolicyName t').
Proof.
  intros (name & tr1 & -> & He). cbn [bind] in He. destruct (Parse node_flags args (default_flags name)) as [rest f|code] eqn:Ep;
    [|by destruct He as (_ & [=] & _)].
  apply start_node_ok in He as (H1 & H2 & H3 & H4 & (st & t0 & t1 & t2 & t3 & t4 & t5 & rr & ra & -> & Hst) & H6 & H7).
  exists name, rest, f. split_and!; try done.
  - exists st, (Ev (Getenv "NODE_NAME") name :: t0), t1, t2, t3, t4, t5, rr, ra. done.
  - intros (Hf & c & t & t' & Ek & Et & Hp)%H7. split; [done|].
    exists c, (Ev (Getenv "NODE_NAME") name :: t), t'. rewrite Et. done.
Qed.

(** From the command line to the last answer: a plugin that starts on a state
    file keyed by volume ID completes every request, and a monitor's run of any
    length, and leaves no mutex locked. *)
Lemma started_plugin_completes pageSize f u tr n mem mon kube u' ticks qs :
  exec (start_node pageSize f) u tr (Running n mem mon kube) u' →
  (∀ t st, exec (LoadState (JoinPath [fl_stateDir f; "loop-mappings.json"])) u t (Ok st) u → keyed (st_data st)) →
  inevitably mu_step (λ c, finished c.1 ∧ proc_keyed c.2) (start_tasks n (node_tasks mon ticks qs), started_memory mem).
Proof.
  destruct u. intros He Hl. apply start_node_ok in He as (_ & _ & _ & _ & (st & t0 & t1 & t2 & t3 & t4 & t5 & rr & ra & _ & Hst & _ & _ & HI) & _).
  destruct (HI (Hl _ _ Hst)) as (_ & _ & Hinv).
  apply (pool_completes lock_rank proc_keyed proc_changes _ _ 3); [|apply rank_top].
  apply start_inv. apply (ni_table _ _ _ Hinv).
Qed.

(** A cluster whose policy denies; nothing else is there. *)
Definition demo_cluster (status : Z) (binding : string) : handler unit := λ R c x,
  match c in call R return R * unit with
  | Getenv k => (if bool_decide (k = "KUBERNETES_SERVICE_HOST") then "10.0.0.1" else "443", x)
  | CertPool _ => (true, x)
  | ReadFile p => (if HasPrefix p saDir then Ok "token" else Err ErrNotExist, x)
  | HttpDo q => (Ok (status, if Contains (hr_URL q) "bindings/" then binding else "{}"), x)
  | c => quiet _ c x
  end.
Definition demo_args : list string := ["--node-id=n1"; "-stores-root"; "/stores"; "--auto-delete-pod-when-volume-failed"].
Definition deny : string :=
  compact (go_map [("spec", go_map [("validationActions", JArr [JStr "Deny"])])]).
Definition start_demo (status : Z) (binding : string) := run (demo_cluster status binding) (node_main 4096 demo_args) tt tt.

Definition deleting_of (s : started) : option bool :=
  match s with Running _ _ mon _ => Some (mon_AutoDelete mon) | Exit _ => None end.

Lemma node_startup_witness :
  deleting_of (start_demo 200 deny).1.1.1 = Some true ∧ deleting_of (start_demo 404 deny).1.1.1 = Some false ∧
  deleting_of (start_demo 200 "{}").1.1.1 = Some false ∧
  ∃ c t t', (start_demo 200 deny).2 = t ++ t' ∧ policy_denies c PodDeletePolicyName t'.
Proof.
  split; [vm_compute; reflexivity|]. split; [vm_compute; reflexivity|]. split; [vm_compute; reflexivity|].
  assert (deleting_of (start_demo 200 deny).1.1.1 = Some true) as Hd by (vm_compute; reflexivity).
  destruct (start_demo 200 deny) as [[[r s] x] tr] eqn:E. cbn in Hd |- *.
  destruct r as [code|n mem mon kube]; [done|]. injection Hd as Hd.
  destruct (node_startup 4096 demo_args tt tr n mem mon kube s) as (name & rest & f & _ & _ & _ & _ & _ & _ & _ & _ & H).
  - exact (exec_run _ _ _ _ _ _ _ _ E).
  - destruct (H Hd) as (_ & c & t & t' & _ & Et & Hp). exists c, t, t'. split; [exact Et|exact Hp].
Defined.

(** ** The requests of the monitor *)

(** A tick of the monitor main starts: over the HTTP client. *)
Definition http_tick (c : HTTPClient) (m : Monitor) : prog MonMem unit := serve (HTTPClient_Client c) (Tick m).
Lemma tick_call_quiet e : tick_call e → ev_http e = None.
Proof. destruct e as [R [] r]; done. Qed.

(** C29: every DELETE request of a monitor that runs over the HTTP client.  The
    tick does what it does over the interface, and each DELETE names by its
    path exactly one namespace and pod, carries that pod's uid as a
    precondition, and is for a pod the monitor may delete: automatic deletion
    is on, a staged volume's visible mount was forced read-only, the API server
    listed the pod for this node, it publishes that mount's device, has a
    controller, is not terminating and started before the failure. *)
Theorem monitor_http_safe c m s tr u s' :
  exec (http_tick c m) s tr u s' → keyed (st_data (mm_state s)) →
  ∃ tr0, exec (Tick m) s tr0 u s' ∧ served (HTTPClient_Client (S := MonMem) c) tr0 tr ∧
    ∀ q, q ∈ requests tr → hr_Method q = "DELETE" →
      ∃ ns name uid entries id vol failedAt,
        hr_URL q = base_url c +:+ pod_path ns name ∧
        (∀ ns' name', hr_URL q = base_url c +:+ pod_path ns' name' → ns' = ns ∧ name' = name) ∧
        hr_Body q = Some (compact (JObj [("apiVersion", JStr "v1"); ("kind", JStr "DeleteOptions");
                                         ("preconditions", JObj [("uid", JStr uid)])])) ∧
        st_data (mm_state s) !! id = Some vol ∧ failed (mm_failures s') !! id = Some failedAt ∧
        may_delete m entries vol failedAt tr0 (ns, name, uid).
Proof.
  intros He Hk. apply serve_refines in He as (tr0 & He & Hs); [|apply _].
  exists tr0. split; [done|]. split; [done|]. intros q Hq Hm.
  destruct (Tick_deletes _ _ _ _ _ He Hk) as (Hc & _ & Hd).
  assert (Forall (λ e, ev_http e = None) tr0) as Hn by (eapply Forall_impl; [exact Hc|apply tick_call_quiet]).
  destruct (served_delete _ _ _ _ Hs Hn Hq Hm) as ([[ns name] uid] & Hin & (_ & HU & HB)).
  destruct (Hd _ Hin) as (content & entries & id & vol & fa & _ & _ & Hv & Hf & Hmay).
  exists ns, name, uid, entries, id, vol, fa. split_and!; try done.
  intros ns' name' E. rewrite E in HU. apply (inj (String.append _)) in HU. by apply pod_path_inj in HU as [-> ->].
Qed.

(** The monitor's demonstration over HTTP: the API server lists one pod. *)
Definition pod_json : json :=
  go_map [("metadata", go_map [("name", JStr "app-0"); ("namespace", JStr "default"); ("uid", JStr demo_uid);
            ("ownerReferences", JArr [go_map [("apiVersion", JStr "apps/v1"); ("kind", JStr "StatefulSet");
                                              ("name", JStr "app"); ("controller", JBool true)]])]);
          ("spec", go_map [("nodeName", JStr "n1")]); ("status", go_map [("startTime", JStr (Rfc3339.format 0))])].
Definition pods_json : string := compact (go_map [("items", JArr [pod_json])]).
Definition demo_api : handler Z := λ R c t,
  match c in call R return R * Z with
  | HttpDo q => (Ok (200%Z, if bool_decide (hr_Method q = "GET") then pods_json else ""), t)
  | c => demo_outside ["ro"; "emergency_ro"] _ c t
  end.
Definition demo_client : HTTPClient := NewHTTPClient "https://10.0.0.1:443/" "/token".
Definition http_demo := run demo_api (http_tick demo_client (mkMonitor "n1" true true)) demo_mem 100%Z.

Lemma http_demo_exec :
  exec (http_tick demo_client (mkMonitor "n1" true true)) demo_mem http_demo.2 http_demo.1.1.1 http_demo.1.1.2.
Proof. unfold http_demo. destruct (run _ _ _ _) as [[[r s] x] t] eqn:E. by apply exec_run in E. Qed.

Lemma monitor_http_safe_witness :
  (λ q, (hr_Method q, hr_URL q)) <$> requests http_demo.2 =
    [("GET", "https://10.0.0.1:443/api/v1/pods?fieldSelector=spec.nodeName%3Dn1");
     ("POST", "https://10.0.0.1:443/api/v1/namespaces/default/events");
     ("DELETE", "https://10.0.0.1:443/api/v1/namespaces/default/pods/app-0")] ∧
  ∃ tr0, served (HTTPClient_Client (S := MonMem) demo_client) tr0 http_demo.2.
Proof.
  split; [vm_compute; reflexivity|].
  destruct (monitor_http_safe demo_client (mkMonitor "n1" true true) demo_mem _ _ _ http_demo_exec demo_keyed)
    as (tr0 & _ & Hs & _). exists tr0. exact Hs.
Defined.
